(* ===== verification/_CoqProject ===== *)
-Q . S2P
Prelude.v
OverlapDp.v
PatternOverlap.v
RefGlob.v
KeyedBuckets.v
ReservationIndex.v
ReservationIndexFacts.v
Timestamps.v
ReservationDb.v
ReservationDbFacts.v
ReservationRelease.v
ReservationExclusion.v
S3Fifo.v
S3FifoFacts.v
LockOrder.v
DbErrors.v
CircuitBreaker.v
Transactions.v
ReadCache.v
ReadCacheFacts.v
AgentLookup.v
AgentLookupFacts.v
AgentNames.v
AgentNamesFacts.v
Registration.v
RegistrationFacts.v
DeferredTouches.v
DeferredTouchesFacts.v
Guard.v
GuardFacts.v
Coalesce.v
Contacts.v
ContactsFacts.v
Mail.v
MailFacts.v
ContactGate.v
ContactGateFacts.v
CommitCoalescer.v
CommitCoalescerFacts.v
WriteBehindQueue.v
WriteBehindQueueFacts.v
CleanupProbes.v
CleanupProbesFacts.v
Cleanup.v
CleanupFacts.v
PatternActivity.v
PatternActivityFacts.v
ReservationTools.v
ReservationToolsFacts.v
Backpressure.v
BuildSlots.v
BuildSlotsFacts.v
DiskPressure.v
MessageArguments.v
MessageArgumentsFacts.v
Attachments.v
AttachmentsFacts.v
MessageTools.v
MessageToolsFacts.v
