(* ===== verification/Prelude.v ===== *)
(** * Agent Mail: a verification library

    MCP Agent Mail is a server that coordinates coding agents that share a
    repository: they exchange messages, reserve files, ask each other for
    contact, and leave an audit trail in a git archive.  This library models
    the parts of it that decide something, as Rocq definitions translated from
    the Rust sources under [src/upstream/crates/mcp-agent-mail-*] (the other
    directories of [src/] are libraries kept beside it), and proves what makes
    them correct.  Below, [core], [db], [tools], [guard] and [storage] stand
    for the crates [mcp-agent-mail-core] and so on.

    ** How the parts interact

    A tool call arrives at the server.  It may be shed when the system is
    overloaded ([Backpressure]).  An agent first registers under a name
    ([AgentNames], [Registration]) and gets a token that later verifies it as
    the sender of its messages.  A tool that sends mail ([MessageTools]) has
    its arguments rewritten and checked ([MessageArguments]), refuses when the
    disk is full ([DiskPressure]) or a part is too large ([Attachments]),
    verifies the sender, resolves its recipients and asks the contact gate
    ([ContactGate]), which consults the contact links ([Contacts]), recent mail
    ([Mail]), and, in automatic mode, the overlap of the parties' file
    reservations ([PatternOverlap], [ReservationDb]); then it stores the
    attachments and the message ([Mail]).  A tool that
    reserves files ([ReservationTools]) checks the paths, consults a conflict
    index ([ReservationIndex]) and runs the transaction that inserts the rows
    ([ReservationDb]), which consults another; the tools that release, renew
    and take reservations run the others ([ReservationRelease]).  Before one is
    taken by force, and when the clean-up worker looks for abandoned ones
    ([Cleanup]), the files and commits its pattern covers are looked at
    ([PatternActivity], [CleanupProbes]).
    Times come from one monotonic clock ([Timestamps]), a transaction that
    conflicts is run again ([Transactions]) behind a circuit breaker that
    classifies errors ([CircuitBreaker], [DbErrors]), rows are cached ([S3Fifo],
    [ReadCache], [AgentLookup]), the times agents were last seen at are
    collected and written in batches ([DeferredTouches]), and equal reads are
    shared ([Coalesce]).  After the transaction the archive is written by the
    write-behind queue ([WriteBehindQueue]), and the written paths reach git
    through the commit coalescer ([CommitCoalescer]).  At commit and push time
    the guard reads the archived reservations back ([Guard]).  Build slots are
    leases kept in files beside the archive ([BuildSlots]).  All process-wide
    locks obey one hierarchy ([LockOrder]).

    ** The files

    - [Prelude] (this file): text, machine integers, vectors, sums over maps,
      tactics and the hint database [mail].
    - [OverlapDp], [PatternOverlap], [RefGlob]: [core/src/pattern_overlap.rs].
      [OverlapDp.visit] is the memoised recursion both levels share; patterns,
      segments and tokens are [PatternOverlap]'s types.  The [globset] crate is
      the class [Globset]; [RefGlob] is an instance, so its laws hold of
      something.
    - [KeyedBuckets], [ReservationIndex], [ReservationIndexFacts]:
      [tools/src/reservation_index.rs] and [ReservationConflictIndex] of
      [db/src/queries.rs].  Clients see the class [ConflictDetector].
    - [Timestamps]: [core/src/timestamps.rs], any number of threads.
    - [ReservationDb] with [ReservationDbFacts], [ReservationRelease] and
      [ReservationExclusion]: the reservation transactions of
      [db/src/queries.rs]; the last is the transition system of all agents.
    - [S3Fifo], [S3FifoFacts]: [db/src/s3fifo.rs].
    - [LockOrder]: [core/src/lock_order.rs].
    - [DbErrors], [CircuitBreaker]: [db/src/error.rs] and [db/src/retry.rs].
    - [Transactions]: begin, commit, roll back, the retry of a conflicting
      transaction and the probe that its rows are there, of
      [db/src/queries.rs].
    - [ReadCache], [ReadCacheFacts]: [db/src/cache.rs] over [S3Fifo]: time
      limits, sampled maintenance and invalidation.
    - [AgentLookup], [AgentLookupFacts]: the cache-first lookups of an agent and
      the changes of its contact policy in [db/src/queries.rs], interleaved.
    - [AgentNames], [AgentNamesFacts]: the names of [core/src/models.rs].
    - [Registration], [RegistrationFacts]: [tools/src/identity.rs], the queries
      behind it in [db/src/queries.rs], the tokens of [core/src/setup.rs] and
      [resolve_agent] of [tools/src/lib.rs].
    - [DeferredTouches], [DeferredTouchesFacts]: the touch queue of
      [db/src/cache.rs] and its users in [db/src/queries.rs].
    - [Guard], [GuardFacts]: [guard/src/lib.rs].
    - [Coalesce]: [db/src/coalesce.rs].
    - [Contacts], [ContactsFacts]: the contact links of [db/src/queries.rs] and
      the tools over them.
    - [Mail], [MailFacts]: messages, recipients and inbox counters of
      [db/src/queries.rs], with the triggers of [db/src/schema.rs].
    - [ContactGate], [ContactGateFacts]: the gate of [tools/src/messaging.rs],
      composed of [Mail], [Contacts], [ReservationDb] and [PatternOverlap].
    - [CommitCoalescer], [CommitCoalescerFacts], [WriteBehindQueue],
      [WriteBehindQueueFacts]: the two queues of [storage/src/lib.rs].
    - [CleanupProbes], [CleanupProbesFacts], [Cleanup], [CleanupFacts]:
      [server/src/cleanup.rs] and its queries, a client of [ReservationDb],
      [AgentLookup], [Mail] and [WriteBehindQueue].
    - [PatternActivity], [PatternActivityFacts]: the activity of a pattern in
      [tools/src/resources.rs].
    - [ReservationTools], [ReservationToolsFacts]: [tools/src/reservations.rs],
      a client of [ReservationIndex], [ReservationDb], [PatternActivity] and
      [Mail].
    - [Backpressure]: [core/src/backpressure.rs].
    - [BuildSlots], [BuildSlotsFacts]: [tools/src/build_slots.rs].
    - [DiskPressure]: [core/src/disk.rs].
    - [MessageArguments], [MessageArgumentsFacts], [MessageTools],
      [MessageToolsFacts]: [tools/src/messaging.rs].  [MessageTools] composes
      the checks, [Registration], [ContactGate], [Attachments] and [Mail]; its
      [World] is what a call finds at each step, its [State] what it changes
      beside the messages.
    - [Attachments], [AttachmentsFacts]: the limits and the processing of
      attachments in [tools/src/messaging.rs] and [storage/src/lib.rs].

    A definition has the name of the function it translates; a helper that
    translates a part of a function stands beside it.  State is explicit: a
    transaction is a function from the tables before to the tables after, a
    shared structure touched by several threads is a step relation whose steps
    are the critical sections and atomic operations of the source.

    ** What the theorems show

    - Files: live reservations of different agents overlap only when both are
      shared, as long as renewals read the clock in time and neither is of the
      project root, which the transaction's index cannot find
      ([mutual_exclusion], [root_reservation_missed]); a renewal breaks this
      exactly when it revives a reservation that expired after it read the
      clock, next to one granted since ([renewal_breaks_exclusion_iff]), which
      a run does ([stale_renewal_breaks_exclusion]); a released one never comes
      back ([released_forever]); every transaction does what its contract says
      on each branch; the overlap test never misses a common path of plain
      patterns ([overlaps_sound]) and is exact on their segments
      ([simple_glob_tokens_overlap_exact]); both indexes agree with testing
      every reservation but those of the root; the guard reports what a
      reservation protects ([reservation_covers_subtree]), and stops with an
      error when the agent is unknown, the listing of the archive fails or the
      patterns do not build, though a missing directory and unreadable records
      count as no reservations ([guard_fails_closed]).
    - Calls on reservations: what a request names lies in the project
      ([normalize_paths_inside]), but for names of white space, which stand for
      all of it ([blank_name_takes_everything]); an undisturbed request is
      answered completely ([grant_paths_spec]), an overtaken one loses its free
      paths too ([contended_request_drops_paths]); a release and a renewal touch
      what was asked ([release_tool_spec], [renew_tool_spec]); a reservation is
      taken by force only when it is over or judged abandoned, and as it was
      judged ([force_release_spec]), where a search that is cut short judges
      wrongly ([fresh_work_is_taken]).
    - Clean-up: who shows a sign of life that the cycle sees keeps the files
      ([cleanup_spares_the_living]) and what is over is released
      ([cleanup_releases_the_expired]); what the probes keep hides nothing
      ([probe_cache_sound]); but signs of life are read from a cache that the
      worker itself keeps warm ([active_agent_loses_files]).
    - Mail: a message reaches all its recipients or none, counters equal the
      aggregates they stand for, receipts are permanent, keys and rows stay
      well formed ([store_well_formed]); the contact links implement a map of statuses; a stored
      message respects its recipients' policies, whatever query fails.
    - Identity: whatever calls come, names and identifiers stay unique
      ([names_stay_unique]); a name is valid exactly when it is a pair of the
      two lists ([normalize_agent_name_spec]); registering brings one row up to
      date ([register_agent_spec]), creating never overwrites one
      ([create_never_overwrites]); a fresh token verifies, and no other
      ([fresh_token_verifies]), until a row cached under another scope is
      served again ([rotated_token_refused]); a call without a name can take
      over another agent ([omitted_name_takes_over]).
    - Calls on messages: what a send and a reply do when they succeed
      ([send_message_spec], [reply_joins_thread]) and when they fail
      ([refused_call_stores_nothing]); in every store the tools can lead to
      a thread named by a number belongs to a message
      ([numeric_threads_are_seeded]); fetching reads ([fetch_inbox_reads]);
      arguments are rewritten to one form ([normalized_arguments]), prefixes
      do not pile up ([reply_subject_stable]); the sizes of a message that is
      sent are within the limits ([size_limits_spec]), those of a reply need
      not be ([reply_escapes_attachment_limits]); attachments come from the
      project ([attachment_stays_inside]); messages are refused for want of
      space exactly when the fullest disk is below the threshold and the
      monitor is on ([fullest_disk_decides], [full_disk_refuses]).
    - Concurrency: threads that obey the hierarchy do not deadlock, handed-out
      times increase, coalesced callers get their leader's value and are never
      stuck, no commit request is lost whatever fails or panics, one worker
      holds a repository, a flush that returns means what it says; two races
      strand or hide a request ([early_signal_strands_request],
      [late_store_hides_request]).
    - Rows: a conflicting transaction that is retried takes effect once or not
      at all ([retried_transaction_once]); the latest time an agent was seen at
      is never lost ([touches_kept], [touches_settle]); a row served from the
      cache is the last one put under its key and not too old, in both phases of
      a lookup ([lookup_serves_last_put]), and was in the table at
      some time ([served_rows_were_true]), but a lookup can bring back a policy
      that was revoked ([stale_policy_served]) and a row in use is never read
      again ([hot_row_never_expires]); invalidation forgets an agent under
      every key ([invalidate_agent_complete]).
    - Bounds and termination: the caches are bounded and only forget, retries
      stop, the breaker implements its three-state contract, commits and
      archive operations have a bounded number of attempts.

    ** Bounds, fuel and integers

    Recursion is structural where it can be.  [OverlapDp.visit] takes as fuel
    the number of tokens of both sides plus one, which every call decreases;
    that it never runs out is part of [OverlapDp.visit_spec].  A release of
    reservations cuts its paths and its identifiers into chunks and so recurses
    at most three deep ([ReservationRelease]).  The eviction loops of [S3Fifo]
    take the length of the queue they pop.  The retry loops take their attempt
    limit.  The walk of [PatternActivity] takes its limit of entries and two
    more: each directory on its stack is the first one or an entry it visited
    ([walk_total]).  [chunks] takes the length of its list, and the binary
    search of [AgentNames] too, of which every step halves what is left.
    Times and counters are integers of their Rust width: they wrap
    ([u64_wrap]), saturate ([i64_saturating_add] and others) or carry a
    hypothesis that names the bound where the code relies on never reaching
    it.  A string is the list of its Unicode scalar values.

    ** The build modelled

    Linux, where paths keep their case; [LockOrder] as in builds with
    [debug_assertions], which check the hierarchy; [CircuitBreaker] with the
    wrapping arithmetic of a release build.  The release profile aborts on a
    panic, so the guards that run while unwinding matter in the other
    profiles; [CommitCoalescer] models them.

    ** What is a parameter

    Code outside these sources: the [globset] (with laws for the normalised
    patterns the code builds only), [git2], [chrono], [serde_json] and [sha2]
    crates, the file system and its listings, processes of git, the
    system clock, random bits, image codecs and hashes, the regular expression
    for image references, the resolution of a project from its key, of an agent
    in the tools on reservations and contacts and of a recipient in the gate
    ([MessageTools.resolve_or_register_agent] is what the gate's resolution
    stands for), and the SQL engine, of which the model takes that a
    transaction is atomic and isolated and that [SELECT], [INSERT] and
    [UPDATE] do what they say.  What the world decides (which query or write
    fails, which thread runs) is an argument of the step, so theorems hold for
    every choice.

    ** Not modelled

    The text of the SQL statements and the storage engine; the connection
    pool, migrations and recovery; search and its floating-point ranking; the
    statistical policies of the air-traffic controller; rendering, HTTP and
    the terminal interface; the command line; export, signatures and
    deployment.  These are I/O, generated text, floating-point heuristics or
    calls into libraries.  In the files modelled, histograms, log output and
    telemetry are left out unless a decision reads them, and the length of
    randomised floating-point delays is any number.

    Of the reservation tools the JSON of answers, the archive records and the
    text of the notification are left out, and the tools that install the
    commit hook.  The [CommitQueue] of [storage/src/lib.rs] is used by its
    tests only.

    Of the message tools the entries for the search indexes, the message's copy
    in the archive, the signal files and the JSON of answers are left out, and
    so are the suggestions for unknown names.  Of identity the profile in the
    archive, the files of terminal panes and the [whois] tools, which only
    format, are left out.  Conversions of images run in threads of their own;
    [Attachments] takes them one after the other.  The product tools, macros
    and resources compose calls modelled here and format what they return. *)

From Stdlib Require Import Ascii String.
From stdpp Require Import base tactics list gmap strings sorting numbers.

#[export] Set Default Goal Selector "!".

(** ** Text

    A Rust [&str] is modelled as the list of its Unicode scalar values.  All
    the separators and metacharacters the code looks for are ASCII, so byte
    offsets of the source and character offsets of the model cut a string at
    the same places. *)

Abbreviation str := (list N).

Definition lit (s : string) : str := N_of_ascii <$> String.list_ascii_of_string s.

Definition ch_star : N := 42.
Definition ch_dot : N := 46.
Definition ch_slash : N := 47.
Definition ch_question : N := 63.
Definition ch_lbracket : N := 91.
Definition ch_backslash : N := 92.
Definition ch_rbracket : N := 93.
Definition ch_lbrace : N := 123.
Definition ch_rbrace : N := 125.

Declare Scope mail_scope.
Delimit Scope mail_scope with mail.
Notation "c ∈ᵇ l" := (bool_decide (c ∈ l)) (at level 70) : mail_scope.
Open Scope mail_scope.

(** [char::is_whitespace]: the Unicode [White_Space] property. *)
Definition is_whitespace (c : N) : bool :=
  ((9 <=? c) && (c <=? 13) || (c =? 32) || (c =? 133) || (c =? 160)
   || (c =? 5760) || ((8192 <=? c) && (c <=? 8202)) || (c =? 8232)
   || (c =? 8233) || (c =? 8239) || (c =? 8287) || (c =? 12288))%N.

Fixpoint trim_start (s : str) : str :=
  match s with
  | [] => []
  | c :: s' => if is_whitespace c then trim_start s' else s
  end.

Definition trim_end (s : str) : str := reverse (trim_start (reverse s)).

(** [str::trim]. *)
Definition trim (s : str) : str := trim_end (trim_start s).

(** [str::split] by a character predicate: always at least one piece. *)
Fixpoint split_on (sep : N → bool) (s : str) : list str :=
  match s with
  | [] => [[]]
  | c :: s' =>
      if sep c then [] :: split_on sep s'
      else match split_on sep s' with
           | [] => [[c]]
           | w :: ws => (c :: w) :: ws
           end
  end.

Definition is_slash (c : N) : bool := (c =? ch_slash)%N.

(** [parts.join("/")]. *)
Fixpoint join_slash (parts : list str) : str :=
  match parts with
  | [] => []
  | [p] => p
  | p :: ps => p ++ ch_slash :: join_slash ps
  end.

(** [str::starts_with]. *)
Definition starts_with (p s : str) : bool := bool_decide (p `prefix_of` s).

(** [to_ascii_lowercase] and [eq_ignore_ascii_case]. *)
Definition ascii_lower (c : N) : N :=
  if ((65 <=? c) && (c <=? 90))%N then (c + 32)%N else c.
Definition to_ascii_lowercase (s : str) : str := ascii_lower <$> s.
Definition eq_ignore_ascii_case (a b : str) : bool :=
  bool_decide (to_ascii_lowercase a = to_ascii_lowercase b).

(** ** Machine integers *)

Definition u32_max : Z := 2 ^ 32 - 1.
Definition u32_wrap (z : Z) : Z := z `mod` 2 ^ 32.
Definition u64_max : Z := 2 ^ 64 - 1.
Definition u64_wrap (z : Z) : Z := z `mod` 2 ^ 64.
Definition i64_min : Z := - 2 ^ 63.
Definition i64_max : Z := 2 ^ 63 - 1.
Definition i64_sat (z : Z) : Z := Z.max i64_min (Z.min i64_max z).
(** [i64::saturating_add], [saturating_sub] and [saturating_mul]. *)
Definition i64_saturating_add (a b : Z) : Z := i64_sat (a + b).
Definition i64_saturating_sub (a b : Z) : Z := i64_sat (a - b).
Definition i64_saturating_mul (a b : Z) : Z := i64_sat (a * b).
(** [u64::saturating_sub] and [saturating_mul] (and [usize] on 64-bit). *)
Definition u64_saturating_sub (a b : Z) : Z := Z.max 0 (a - b).
Definition u64_saturating_mul (a b : Z) : Z := Z.min u64_max (a * b).
Definition clamp (lo hi z : Z) : Z := Z.max lo (Z.min hi z).

(** The lemmas that close the common side conditions. *)
Create HintDb mail.

Lemma u64_wrap_range z : (0 ≤ u64_wrap z ≤ u64_max)%Z.
Proof. unfold u64_wrap, u64_max. pose proof (Z.mod_pos_bound z (2 ^ 64)). lia. Qed.

Lemma u64_wrap_small z : (0 ≤ z ≤ u64_max → u64_wrap z = z)%Z.
Proof. unfold u64_wrap, u64_max. intros ?. apply Z.mod_small. lia. Qed.

Lemma u64_wrap_nonneg z : (0 ≤ u64_wrap z)%Z.
Proof. apply u64_wrap_range. Qed.

Lemma i64_sat_range z : (i64_min ≤ i64_sat z ≤ i64_max)%Z.
Proof. unfold i64_sat, i64_min, i64_max. lia. Qed.

Lemma i64_sat_small z : (i64_min ≤ z ≤ i64_max → i64_sat z = z)%Z.
Proof. unfold i64_sat, i64_min, i64_max. lia. Qed.

#[export] Hint Resolve u64_wrap_range u64_wrap_nonneg i64_sat_range : mail.
#[export] Hint Rewrite u64_wrap_small i64_sat_small using lia : mail.

(** ** Tactics *)

(** Split the first boolean or decidable test of the goal. *)
Ltac case_if :=
  match goal with
  | |- context [if ?b then _ else _] => destruct b eqn:?
  end.

(** The same, when the test may also sit in a hypothesis. *)
Ltac case_ifs :=
  match goal with
  | |- context [if ?b then _ else _] => destruct b eqn:?
  | H : context [if ?b then _ else _] |- _ => destruct b eqn:?
  end.

(** Turn boolean facts into propositions. *)
Ltac bool_to_prop :=
  repeat match goal with
  | H : bool_decide _ = true |- _ => rewrite bool_decide_eq_true in H
  | H : bool_decide _ = false |- _ => rewrite bool_decide_eq_false in H
  | H : (_ =? _)%N = true |- _ => rewrite N.eqb_eq in H
  | H : (_ =? _)%N = false |- _ => rewrite N.eqb_neq in H
  | H : (_ && _) = true |- _ => rewrite andb_true_iff in H; destruct H
  | H : (_ || _) = false |- _ => rewrite orb_false_iff in H; destruct H
  | H : negb _ = true |- _ => rewrite negb_true_iff in H
  | H : negb _ = false |- _ => rewrite negb_false_iff in H
  end.

(** ** Facts about splitting and joining *)

Lemma split_on_cons_ne sep s : split_on sep s ≠ [].
Proof. destruct s as [|c s]; simpl; [done|]. case_if; [done|]. by case_match. Qed.

#[export] Hint Resolve split_on_cons_ne : mail.

Lemma split_on_pieces sep s w :
  w ∈ split_on sep s → ∀ c, c ∈ w → sep c = false.
Proof.
  revert w. induction s as [|c s IH]; simpl; intros w Hw d Hd.
  - apply list_elem_of_singleton in Hw as ->. by apply elem_of_nil in Hd.
  - case_ifs.
    + apply elem_of_cons in Hw as [->|Hw]; [by apply elem_of_nil in Hd|eauto].
    + destruct (split_on sep s) as [|w' ws] eqn:E; [by destruct (split_on_cons_ne sep s)|].
      apply elem_of_cons in Hw as [->|Hw]; [|eapply IH; [|done]; set_solver].
      apply elem_of_cons in Hd as [->|Hd]; [done|]. eapply IH; [|done]. set_solver.
Qed.

Lemma split_on_elem sep s w c : w ∈ split_on sep s → c ∈ w → c ∈ s.
Proof.
  revert w. induction s as [|d s IH]; simpl; intros w Hw Hc.
  - apply list_elem_of_singleton in Hw as ->. done.
  - destruct (sep d).
    + apply elem_of_cons in Hw as [->|Hw]; [by apply elem_of_nil in Hc|]. right. eauto.
    + destruct (split_on sep s) as [|w' ws] eqn:E; [by destruct (split_on_cons_ne sep s)|].
      apply elem_of_cons in Hw as [->|Hw].
      * apply elem_of_cons in Hc as [->|Hc]; [left|right]. eapply IH; [left|done].
      * right. eapply IH; [right|]; done.
Qed.

Lemma split_on_id sep w : (∀ c, c ∈ w → sep c = false) → split_on sep w = [w].
Proof.
  induction w as [|c w IH]; intros Hw; [done|]. simpl.
  rewrite (Hw c) by set_solver. rewrite IH by set_solver. done.
Qed.

Lemma split_on_app_sep sep w c s :
  (∀ d, d ∈ w → sep d = false) → sep c = true →
  split_on sep (w ++ c :: s) = w :: split_on sep s.
Proof.
  intros Hw Hc. induction w as [|d w IH]; simpl; [by rewrite Hc|].
  rewrite (Hw d) by set_solver. rewrite IH by set_solver. done.
Qed.

Lemma join_slash_cons2 p q ps :
  join_slash (p :: q :: ps) = p ++ ch_slash :: join_slash (q :: ps).
Proof. done. Qed.

(** Splitting what was joined gives the pieces back. *)
Lemma split_join parts :
  parts ≠ [] → (∀ w, w ∈ parts → ∀ c, c ∈ w → is_slash c = false) →
  split_on is_slash (join_slash parts) = parts.
Proof.
  induction parts as [|p [|q ps] IH]; intros Hne H; [done| |].
  - apply split_on_id. apply H. set_solver.
  - rewrite join_slash_cons2, split_on_app_sep.
    + f_equal. apply IH; [done|]. set_solver.
    + apply H. set_solver.
    + done.
Qed.

(** Joining what was split gives the string back. *)
Lemma join_split s : join_slash (split_on is_slash s) = s.
Proof.
  induction s as [|c s IH]; [done|]. simpl.
  destruct (split_on is_slash s) as [|w ws] eqn:E; [by destruct (split_on_cons_ne is_slash s)|].
  case_if.
  - unfold is_slash in *. bool_to_prop. subst c. rewrite <-IH. done.
  - rewrite <-IH. by destruct ws.
Qed.

Lemma split_on_inj s t : split_on is_slash s = split_on is_slash t → s = t.
Proof. intros E. by rewrite <-(join_split s), <-(join_split t), E. Qed.

Lemma filter_all {A} (P : A → Prop) `{∀ x, Decision (P x)} (l : list A) : Forall P l → filter P l = l.
Proof. induction 1 as [|x l Hx _ IH]; [done|]. by rewrite filter_cons_True, IH. Qed.

(** ** Vectors *)

(** [Vec::dedup]. *)
Fixpoint dedup {A} `{EqDecision A} (l : list A) : list A :=
  match l with
  | [] => []
  | x :: l =>
      match dedup l with
      | y :: l' => if bool_decide (x = y) then y :: l' else x :: y :: l'
      | [] => [x]
      end
  end.

Lemma elem_of_dedup {A} `{EqDecision A} (x : A) l : x ∈ dedup l ↔ x ∈ l.
Proof.
  induction l as [|y l IH]; [done|]. simpl. rewrite elem_of_cons, <-IH.
  destruct (dedup l) as [|z l']; [set_solver|]. case_bool_decide; set_solver.
Qed.

(** After a sort, no duplicates are left. *)
Lemma dedup_sorted {A} `{EqDecision A} (le lt : A → A → Prop) `{!Transitive lt} l :
  (∀ x y, le x y → lt x y ∨ x = y) → StronglySorted le l → StronglySorted lt (dedup l).
Proof.
  intros Hle. induction 1 as [|x l Hs IH Hx]; [constructor|]. simpl.
  assert (Forall (le x) (dedup l)) as Hd.
  { apply Forall_forall. intros y. rewrite <-list_elem_of_In, elem_of_dedup, list_elem_of_In. by apply Forall_forall. }
  destruct (dedup l) as [|z l'] eqn:E; [repeat constructor|]. case_bool_decide as Hz; [done|].
  constructor; [done|]. apply StronglySorted_inv in IH as [_ Hzl].
  apply Forall_cons_iff in Hd as [Hxz _]. apply Hle in Hxz as [Hxz|?]; [|done].
  constructor; [done|]. revert Hzl. apply Forall_impl. intros y ?. by transitivity z.
Qed.

(** [slice::chunks]. *)
Fixpoint chunks_fuel {A} (fuel n : nat) (l : list A) : list (list A) :=
  match fuel, l with
  | S fuel, _ :: _ => take n l :: chunks_fuel fuel n (drop n l)
  | _, _ => []
  end.
Definition chunks {A} (n : nat) (l : list A) : list (list A) := chunks_fuel (length l) n l.


Section chunks.
Context {A : Type}.
Implicit Types l : list A.

Lemma chunks_fuel_concat fuel n l :
  (1 ≤ n)%nat → (length l ≤ fuel)%nat → concat (chunks_fuel fuel n l) = l.
Proof.
  intros Hn. revert l. induction fuel as [|fuel IH]; intros [|x l] Hl; simpl in *; try done; [lia|].
  rewrite IH.
  - apply (take_drop n (x :: l)).
  - rewrite length_drop. simpl. lia.
Qed.

Lemma chunks_concat n l : (1 ≤ n)%nat → concat (chunks n l) = l.
Proof. intros Hn. by apply chunks_fuel_concat. Qed.

Lemma chunks_elem n l x : (1 ≤ n)%nat → x ∈ l ↔ ∃ c, c ∈ chunks n l ∧ x ∈ c.
Proof.
  intros Hn. rewrite <-(chunks_concat n l Hn) at 1.
  rewrite list_elem_of_In, in_concat. setoid_rewrite list_elem_of_In. naive_solver.
Qed.

Lemma chunks_length n l c : c ∈ chunks n l → (length c ≤ n)%nat.
Proof.
  unfold chunks. generalize (length l) as fuel. intros fuel. revert l.
  induction fuel as [|fuel IH]; intros [|x l]; simpl; try by intros ?%elem_of_nil.
  intros [->|Hc]%elem_of_cons; [|by eapply IH].
  change (length (take n (x :: l)) ≤ n)%nat. rewrite length_take. lia.
Qed.
End chunks.

(** ** Numbers in text *)

Definition is_ascii_digit (c : N) : bool := ((48 <=? c) && (c <=? 57))%N.

Definition digits_value (ds : str) : Z := foldl (λ acc c, acc * 10 + (Z.of_N c - 48))%Z 0%Z ds.

(** [parse::<i64>()]. *)
Definition parse_i64 (s : str) : option Z :=
  let '(neg, ds) := match s with
    | 45%N :: s' => (true, s')
    | 43%N :: s' => (false, s')
    | _ => (false, s)
    end in
  if bool_decide (ds = []) || negb (forallb is_ascii_digit ds) then None
  else
    let v := if neg then Z.opp (digits_value ds) else digits_value ds in
    if ((i64_min <=? v) && (v <=? i64_max))%Z then Some v else None.

(** ** Sums over finite maps *)

Section msum.
Context {K A : Type} `{Countable K}.
Implicit Types (m : gmap K A) (f : A → Z).
Local Open Scope Z_scope.

Definition msum f m : Z := map_fold (λ _ x acc, f x + acc) 0 m.

Lemma msum_empty f : msum f ∅ = 0.
Proof. apply map_fold_empty. Qed.

Lemma msum_insert_new f m k x : m !! k = None → msum f (<[k := x]> m) = f x + msum f m.
Proof. intros Hk. unfold msum. rewrite map_fold_insert_L; [done|intros; lia|done]. Qed.

Lemma msum_lookup f m k x : m !! k = Some x → msum f m = f x + msum f (delete k m).
Proof.
  intros Hk. rewrite <-(insert_delete_id m k x Hk) at 1. apply msum_insert_new, lookup_delete_eq.
Qed.

(** Replacing a value. *)
Lemma msum_insert f m k x y : m !! k = Some x → msum f (<[k := y]> m) = msum f m - f x + f y.
Proof.
  intros Hk. rewrite (msum_lookup f m k x Hk), <-insert_delete_eq, msum_insert_new by apply lookup_delete_eq. lia.
Qed.

Lemma msum_nonneg f m : map_Forall (λ _ x, 0 ≤ f x) m → 0 ≤ msum f m.
Proof.
  induction m as [|k x m Hk IH] using map_ind; [by rewrite msum_empty|].
  rewrite msum_insert_new by done. intros [Hx Hm]%map_Forall_insert; [|done]. specialize (IH Hm). lia.
Qed.

Lemma msum_le f m k x : map_Forall (λ _ x, 0 ≤ f x) m → m !! k = Some x → f x ≤ msum f m.
Proof.
  intros Hf Hk. rewrite (msum_lookup f m k x Hk).
  pose proof (msum_nonneg f (delete k m) (map_Forall_delete _ _ _ Hf)). lia.
Qed.
End msum.

#[export] Hint Rewrite @msum_empty : mail.
#[export] Hint Resolve msum_nonneg chunks_concat chunks_length : mail.
