(* ===== verification/OverlapDp.v ===== *)
(** * The memoised overlap search

    [pattern_overlap.rs] decides twice whether two token sequences with a
    "matches any run" token have a common instance: once over the tokens of two
    segments ([simple_glob_tokens_overlap]) and once over the segments of two
    patterns ([segments_overlap]).  Both are the same recursion [visit] over a
    pair of indices with a memo table.  This file models that recursion once,
    with its memo table threaded through, and proves that it always returns
    (no index is out of range, the fuel suffices), that it computes a plain
    structural recursion, and what that recursion decides. *)

From stdpp Require Import base tactics list.
From S2P Require Import Prelude.

Section overlap_dp.
Context {A : Type}.
(** [star a]: the token may stand for any run; [ov a b]: two other tokens
    have a common instance. *)
Variable star : A → bool.
Variable ov : A → A → bool.

(** ** The code: [visit] with its memo table *)

Abbreviation memo_table := (list (list (option bool))).

Definition memo_lookup (memo : memo_table) (i j : nat) : option (option bool) :=
  row ← memo !! i; row !! j.

Definition memo_store (memo : memo_table) (i j : nat) (b : bool) : memo_table :=
  alter (λ row, <[j := Some b]> row) i memo.

(** [None] is an index out of range (a panic) or exhausted fuel. *)
Fixpoint visit (fuel : nat) (left right : list A) (i j : nat) (memo : memo_table)
    : option (bool * memo_table) :=
  match fuel with
  | O => None
  | S fuel =>
    cell ← memo_lookup memo i j;
    match cell with
    | Some cached => Some (cached, memo)
    | None =>
      '(overlaps, memo) ←
        match left !! i, right !! j with
        | None, None => Some (true, memo)
        | Some a, None =>
            if star a then visit fuel left right (S i) j memo else Some (false, memo)
        | None, Some b =>
            if star b then visit fuel left right i (S j) memo else Some (false, memo)
        | Some a, Some b =>
            if star a then
              '(b1, memo) ← visit fuel left right (S i) j memo;
              if (b1 : bool) then Some (true, memo) else visit fuel left right i (S j) memo
            else if star b then
              '(b1, memo) ← visit fuel left right i (S j) memo;
              if (b1 : bool) then Some (true, memo) else visit fuel left right (S i) j memo
            else if ov a b then visit fuel left right (S i) (S j) memo
            else Some (false, memo)
        end;
      Some (overlaps, memo_store memo i j overlaps)
    end
  end.

Definition initial_memo (left right : list A) : memo_table :=
  replicate (S (length left)) (replicate (S (length right)) None).

Definition overlap_fuel (left right : list A) : nat :=
  S (length left + length right).

Definition overlap_search (left right : list A) : option bool :=
  fst <$> visit (overlap_fuel left right) left right 0 0 (initial_memo left right).

(** ** The reference recursion *)

Fixpoint common (left : list A) : list A → bool :=
  match left with
  | [] => forallb star
  | a :: left' =>
      fix aux (right : list A) : bool :=
        match right with
        | [] => star a && common left' []
        | b :: right' =>
            if star a then common left' right || aux right'
            else if star b then aux right' || common left' right
            else ov a b && common left' right'
        end
  end.

Lemma common_nil_r left : common left [] = forallb star left.
Proof. induction left as [|a l IH]; simpl; [done|]. by rewrite IH. Qed.

Lemma common_cons a t b r :
  common (a :: t) (b :: r) =
    if star a then common t (b :: r) || common (a :: t) r
    else if star b then common (a :: t) r || common t (b :: r)
    else ov a b && common t r.
Proof. done. Qed.

Lemma common_cons_nil a t : common (a :: t) [] = star a && common t [].
Proof. done. Qed.

(** ** The memo table stays correct *)

Definition memo_wf (left right : list A) (memo : memo_table) : Prop :=
  length memo = S (length left) ∧
  (∀ i row, memo !! i = Some row → length row = S (length right)) ∧
  (∀ i j b, memo_lookup memo i j = Some (Some b) →
     b = common (drop i left) (drop j right)).

Lemma memo_lookup_wf left right memo i j :
  memo_wf left right memo → i ≤ length left → j ≤ length right →
  is_Some (memo_lookup memo i j).
Proof.
  intros (Hlen & Hrow & _) Hi Hj. unfold memo_lookup.
  destruct (lookup_lt_is_Some_2 memo i) as [row Er]; [lia|]. rewrite Er. simpl.
  apply lookup_lt_is_Some_2. rewrite (Hrow _ _ Er). lia.
Qed.

Lemma memo_lookup_store memo i j b i' j' c :
  memo_lookup (memo_store memo i j b) i' j' = Some (Some c) →
  (i' = i ∧ j' = j ∧ c = b) ∨ memo_lookup memo i' j' = Some (Some c).
Proof.
  unfold memo_lookup, memo_store. destruct (decide (i' = i)) as [->|Hi].
  - rewrite list_lookup_alter_eq. destruct (memo !! i) as [row|]; simpl; [|naive_solver].
    destruct (decide (j' = j)) as [->|Hj].
    + destruct (decide (j < length row)).
      * rewrite list_lookup_insert_eq by done. naive_solver.
      * rewrite list_insert_ge by lia. auto.
    + rewrite list_lookup_insert_ne by done. auto.
  - rewrite list_lookup_alter_ne by done. auto.
Qed.

Lemma memo_store_wf left right memo i j :
  memo_wf left right memo →
  memo_wf left right (memo_store memo i j (common (drop i left) (drop j right))).
Proof.
  intros (Hlen & Hrow & Hval). split_and!.
  - unfold memo_store. by rewrite length_alter.
  - intros i' row. unfold memo_store. destruct (decide (i' = i)) as [->|Hi].
    + rewrite list_lookup_alter_eq. destruct (memo !! i) as [row0|] eqn:E; simpl; [|done].
      intros [= <-]. rewrite length_insert. eauto.
    + rewrite list_lookup_alter_ne by done. eauto.
  - intros i' j' c [(-> & -> & ->)|Hc]%memo_lookup_store; eauto.
Qed.

Lemma initial_memo_wf left right : memo_wf left right (initial_memo left right).
Proof.
  unfold initial_memo. split_and!.
  - by rewrite length_replicate.
  - intros i row [-> _]%lookup_replicate. by rewrite length_replicate.
  - intros i j b. unfold memo_lookup.
    destruct (replicate _ _ !! i) as [row|] eqn:E; simpl; [|done].
    apply lookup_replicate in E as [-> _]. by intros [[=] _]%lookup_replicate.
Qed.

(** [common] on the suffixes at [i], [j] follows the case split of [visit]. *)
Lemma common_suffix left right i j :
  i ≤ length left → j ≤ length right →
  common (drop i left) (drop j right) =
  match left !! i, right !! j with
  | None, None => true
  | Some a, None => star a && common (drop (S i) left) (drop j right)
  | None, Some b => star b && common (drop i left) (drop (S j) right)
  | Some a, Some b =>
      if star a then
        common (drop (S i) left) (drop j right) || common (drop i left) (drop (S j) right)
      else if star b then
        common (drop i left) (drop (S j) right) || common (drop (S i) left) (drop j right)
      else ov a b && common (drop (S i) left) (drop (S j) right)
  end.
Proof.
  intros Hi Hj.
  destruct (left !! i) as [a|] eqn:Ea; destruct (right !! j) as [b|] eqn:Eb;
    rewrite ?(drop_S _ _ _ Ea), ?(drop_S _ _ _ Eb).
  - simpl. by repeat case_match.
  - apply lookup_ge_None in Eb. rewrite (drop_ge right) by lia. done.
  - apply lookup_ge_None in Ea. rewrite (drop_ge left) by lia. done.
  - apply lookup_ge_None in Ea, Eb. rewrite (drop_ge left), (drop_ge right) by lia. done.
Qed.

Lemma visit_spec fuel left right i j memo :
  memo_wf left right memo → i ≤ length left → j ≤ length right →
  (length left - i) + (length right - j) < fuel →
  ∃ memo', visit fuel left right i j memo =
             Some (common (drop i left) (drop j right), memo') ∧
           memo_wf left right memo'.
Proof.
  revert i j memo. induction fuel as [|fuel IH]; intros i j memo Hwf Hi Hj Hf; [lia|].
  destruct (memo_lookup_wf _ _ _ _ _ Hwf Hi Hj) as [cell Ec]. cbn [visit].
  rewrite Ec. cbn. destruct cell as [c|].
  { destruct Hwf as (? & ? & Hval). rewrite (Hval _ _ _ Ec). eexists; split; [done|].
    split_and!; eauto. }
  assert (∃ memo1,
    match left !! i, right !! j with
    | None, None => Some (true, memo)
    | Some a, None => if star a then visit fuel left right (S i) j memo else Some (false, memo)
    | None, Some b => if star b then visit fuel left right i (S j) memo else Some (false, memo)
    | Some a, Some b =>
        if star a then
          '(b1, memo) ← visit fuel left right (S i) j memo;
          if (b1 : bool) then Some (true, memo) else visit fuel left right i (S j) memo
        else if star b then
          '(b1, memo) ← visit fuel left right i (S j) memo;
          if (b1 : bool) then Some (true, memo) else visit fuel left right (S i) j memo
        else if ov a b then visit fuel left right (S i) (S j) memo
        else Some (false, memo)
    end = Some (common (drop i left) (drop j right), memo1) ∧ memo_wf left right memo1)
    as (memo1 & -> & Hwf1).
  { rewrite (common_suffix left right i j) by done.
    destruct (left !! i) as [a|] eqn:Ea; destruct (right !! j) as [b|] eqn:Eb;
      repeat match goal with
      | H : _ !! _ = Some _ |- _ => apply lookup_lt_Some in H
      end.
    - destruct (star a); [|destruct (star b); [|destruct (ov a b)]]; cbn; eauto.
      + destruct (IH (S i) j memo) as (m1 & -> & H1); [done|lia..|]. cbn.
        case_if; cbn; [eauto|]. apply IH; [done|lia..].
      + destruct (IH i (S j) memo) as (m1 & -> & H1); [done|lia..|]. cbn.
        case_if; cbn; [eauto|]. apply IH; [done|lia..].
      + apply IH; [done|lia..].
    - destruct (star a); cbn; eauto. apply IH; [done|lia..].
    - destruct (star b); cbn; eauto. apply IH; [done|lia..].
    - eauto. }
  cbn. eexists; split; [done|]. by apply memo_store_wf.
Qed.

(** The search always returns, and returns what the plain recursion computes. *)
Lemma overlap_search_common left right :
  overlap_search left right = Some (common left right).
Proof.
  unfold overlap_search, overlap_fuel.
  destruct (visit_spec (S (length left + length right)) left right 0 0
              (initial_memo left right)) as (m & -> & _);
    [apply initial_memo_wf|lia..|]. by rewrite !drop_0.
Qed.

Lemma common_sym :
  (∀ a b, ov a b = ov b a) → ∀ left right, common left right = common right left.
Proof.
  intros Hov. induction left as [|a l IH]; intros right.
  { rewrite common_nil_r. by destruct right. }
  induction right as [|b r IHr].
  { by rewrite common_nil_r. }
  rewrite !common_cons, IHr, !(IH _), (Hov a b).
  destruct (star a), (star b); try done. apply orb_comm.
Qed.

(** ** What the recursion decides *)

  (** Tokens denote runs of letters: a star any run, another token one letter
      of [matches]. *)
Context {B : Type}.
Variable matches : A → B → Prop.

Inductive instance_of : list A → list B → Prop :=
  | inst_nil : instance_of [] []
  | inst_one a t x w :
      star a = false → matches a x → instance_of t w → instance_of (a :: t) (x :: w)
  | inst_skip a t w : star a = true → instance_of t w → instance_of (a :: t) w
  | inst_more a t x w :
      star a = true → instance_of (a :: t) w → instance_of (a :: t) (x :: w).

Lemma instance_of_nil t : instance_of t [] ↔ forallb star t = true.
Proof.
  split.
  - remember [] as w. induction 1; simpl; simplify_eq; [done|]. by rewrite H, IHinstance_of.
  - induction t as [|a t IH]; simpl; intros H; [constructor|].
    apply andb_true_iff in H as [??]. apply inst_skip; auto.
Qed.

Lemma instance_of_nil_inv w : instance_of [] w → w = [].
Proof. by inversion 1. Qed.

(** Two sequences with a common instance are reported ([ov] may
    over-approximate). *)
Lemma common_complete :
  (∀ a b x, star a = false → star b = false → matches a x → matches b x → ov a b = true) →
  ∀ left right w, instance_of left w → instance_of right w → common left right = true.
Proof.
  intros Hov left right w.
  remember (length left + length right + length w) as n eqn:En.
  revert left right w En. induction (lt_wf n) as [n _ IH].
  intros left right w -> Hl Hr.
  destruct Hl as [|a t x w Ha Hm Hl|a t w Ha Hl|a t x w Ha Hl].
  - by apply instance_of_nil.
  - inversion Hr as [|b r ?? Hb Hm' Hr'|b r ? Hb Hr'|b r ?? Hb Hr']; subst;
      rewrite common_cons, Ha, Hb.
    + rewrite (Hov a b x) by done. simpl. eapply IH; [|done..]. simpl; lia.
    + apply orb_true_iff. left. eapply IH; [|done|by constructor|done]. simpl; lia.
    + apply orb_true_iff. right. eapply IH; [|done..]. simpl; lia.
  - destruct right as [|b r]; [rewrite common_cons_nil|rewrite common_cons]; rewrite Ha;
      [|apply orb_true_iff; left]; (eapply IH; [|done..]); simpl; lia.
  - inversion Hr as [|b r ?? Hb Hm Hr'|b r ? Hb Hr'|b r ?? Hb Hr']; subst;
      rewrite common_cons, Ha; apply orb_true_iff.
    + right. eapply IH; [|done..]. simpl; lia.
    + right. eapply IH; [|done|by apply inst_more|done]. simpl; lia.
    + assert (common (a :: t) (b :: r) = true) as H.
      { eapply IH; [|done|done|done]. simpl; lia. }
      rewrite common_cons, Ha in H. by apply orb_true_iff in H.
Qed.

(** Conversely a reported pair has a common instance, when [ov] is exact and
    every token but a star denotes some letter. *)
Lemma common_sound :
  (∀ a, star a = false → ∃ x, matches a x) →
  (∀ a b, star a = false → star b = false → ov a b = true →
     ∃ x, matches a x ∧ matches b x) →
  ∀ left right, common left right = true →
  ∃ w, instance_of left w ∧ instance_of right w.
Proof.
  intros Hin Hov. induction left as [|a l IH]; intros right H.
  { exists []. split; [constructor|]. by apply instance_of_nil. }
  induction right as [|b r IHr].
  { simpl in H. apply andb_true_iff in H as [Ha H]. rewrite common_nil_r in H.
    exists []. split; [|constructor]. apply instance_of_nil. simpl. by rewrite Ha. }
  rewrite common_cons in H. destruct (star a) eqn:Ea; [|destruct (star b) eqn:Eb].
  - apply orb_true_iff in H as [H|H].
    { destruct (IH _ H) as (w & ? & ?). exists w. split; [|done]. by apply inst_skip. }
    destruct (IHr H) as (w & Hl & Hr). destruct (star b) eqn:Eb.
    + exists w. split; [done|]. by apply inst_skip.
    + destruct (Hin b Eb) as [x Hx]. exists (x :: w). split; [by apply inst_more|].
      by apply inst_one.
  - apply orb_true_iff in H as [H|H].
    { destruct (IHr H) as (w & ? & ?). exists w. split; [done|]. by apply inst_skip. }
    destruct (IH _ H) as (w & Hl & Hr). destruct (Hin a Ea) as [x Hx].
    exists (x :: w). split; [by apply inst_one|]. by apply inst_more.
  - apply andb_true_iff in H as [Ho H]. destruct (Hov a b Ea Eb Ho) as (x & ? & ?).
    destruct (IH _ H) as (w & ? & ?). exists (x :: w). split; by apply inst_one.
Qed.

(** ** An executable membership test, used to give concrete instances *)

Variable matchesb : A → B → bool.
Hypothesis matchesb_spec : ∀ a x, matchesb a x = true ↔ matches a x.

Fixpoint instanceb (t : list A) : list B → bool :=
  match t with
  | [] => λ w, match w with [] => true | _ => false end
  | a :: t' =>
      fix aux (w : list B) : bool :=
        match w with
        | [] => star a && instanceb t' []
        | x :: w' =>
            if star a then instanceb t' w || aux w' else matchesb a x && instanceb t' w'
        end
  end.

Lemma instanceb_cons a t x w :
  instanceb (a :: t) (x :: w) =
    if star a then instanceb t (x :: w) || instanceb (a :: t) w
    else matchesb a x && instanceb t w.
Proof. done. Qed.

Lemma instanceb_spec t w : instanceb t w = true ↔ instance_of t w.
Proof using matchesb_spec.
  split.
  - revert w. induction t as [|a t IH]; intros w H.
    { destruct w; [constructor|done]. }
    induction w as [|x w IHw].
    + simpl in H. apply andb_true_iff in H as [??]. apply inst_skip; auto.
    + rewrite instanceb_cons in H. destruct (star a) eqn:Ea.
      * apply orb_true_iff in H as [H|H]; [apply inst_skip; auto|apply inst_more; auto].
      * apply andb_true_iff in H as [Hm H]. apply inst_one; [done|by apply matchesb_spec|auto].
  - induction 1 as [|a t x w Ha Hm H IH|a t w Ha H IH|a t x w Ha H IH]; [done|..].
    + rewrite instanceb_cons, Ha, (proj2 (matchesb_spec a x) Hm), IH. done.
    + destruct w; [simpl|rewrite instanceb_cons]; rewrite Ha, IH; done.
    + rewrite instanceb_cons, Ha, IH. apply orb_true_r.
Qed.
End overlap_dp.

Arguments overlap_search {A} star ov left right : simpl never.
Arguments instanceb {A} star {B} matchesb t w.
