(* ===== verification/PatternOverlap.v ===== *)
(** * Glob pattern overlap ([mcp-agent-mail-core/src/pattern_overlap.rs])

    The reservation system calls two path patterns conflicting when they
    overlap.  This file models the normalisation of patterns, their compiled
    form, the overlap test and the thread-local cache of compiled patterns, for
    the build where [cfg!(any(target_os = "macos", target_os = "windows"))] is
    false.  The [globset] crate is a parameter: see {!Globset}. *)

From stdpp Require Import base tactics list gmap strings.
From S2P Require Import Prelude OverlapDp.

(** ** The [globset] crate

    [glob_build p]: [GlobBuilder::new(p).literal_separator(true).build()]
    succeeds; [glob_is_match p s]: the matcher compiled from [p] accepts [s]. *)
Class Globset := {
  glob_build : str → bool;
  glob_is_match : str → str → bool;
}.

Module PatternOverlap.

(** ** Normalisation *)

Definition is_path_separator (c : N) : bool :=
  (c =? ch_slash)%N || (c =? ch_backslash)%N.

(** The [parts] stack after one more component. *)
Definition push_component (parts : list str) (component : str) : list str :=
  if bool_decide (component = [] ∨ component = lit ".") then parts
  else if bool_decide (component = lit "..") then
    (if bool_decide (parts = []) then parts else take (pred (length parts)) parts)
  else parts ++ [component].

Definition normalize_pattern (pattern : str) : str :=
  join_slash (fold_left push_component (split_on is_path_separator (trim pattern)) []).

(** ** Pattern segments *)

(** A [GlobMatcher] is identified by the pattern it was compiled from. *)
Abbreviation GlobMatcher := str.

Inductive PatternSegment :=
  | Literal (s : str)
  | Glob (raw : str) (matcher : GlobMatcher)
  | Recursive.

Inductive SimpleGlobToken :=
  | TokLiteral (c : N)
  | AnyChar
  | AnyString.

#[export] Instance SimpleGlobToken_eq_dec : EqDecision SimpleGlobToken.
Proof. solve_decision. Defined.

#[export] Instance PatternSegment_eq_dec : EqDecision PatternSegment.
Proof. solve_decision. Defined.

Fixpoint parse_tokens_loop (tokens : list SimpleGlobToken) (segment : str)
    : option (list SimpleGlobToken) :=
  match segment with
  | [] => Some tokens
  | ch :: rest =>
      if (ch =? ch_star)%N then
        parse_tokens_loop
          (if bool_decide (last tokens = Some AnyString) then tokens
           else tokens ++ [AnyString]) rest
      else if (ch =? ch_question)%N then parse_tokens_loop (tokens ++ [AnyChar]) rest
      else if (ch =? ch_lbracket)%N || (ch =? ch_rbracket)%N
              || (ch =? ch_lbrace)%N || (ch =? ch_rbrace)%N then None
      else parse_tokens_loop (tokens ++ [TokLiteral ch]) rest
  end.

Definition parse_simple_glob_tokens (segment : str) : option (list SimpleGlobToken) :=
  parse_tokens_loop [] segment.

Definition tok_star (t : SimpleGlobToken) : bool :=
  match t with AnyString => true | _ => false end.

Definition tok_overlap (a b : SimpleGlobToken) : bool :=
  match a, b with
  | TokLiteral c, TokLiteral d => (c =? d)%N
  | _, _ => true
  end.

(** The outer [option]: [None] would be a panic or non-termination; see
    [simple_glob_tokens_overlap_total]. *)
Definition simple_glob_tokens_overlap (left right : list SimpleGlobToken) : option bool :=
  overlap_search tok_star tok_overlap left right.

Definition simple_glob_patterns_overlap (left right : str) : option bool :=
  left_tokens ← parse_simple_glob_tokens left;
  right_tokens ← parse_simple_glob_tokens right;
  simple_glob_tokens_overlap left_tokens right_tokens.

Definition has_glob_meta (s : str) : bool :=
  existsb (λ b, (b =? ch_star)%N || (b =? ch_question)%N || (b =? ch_lbracket)%N
                || (b =? ch_lbrace)%N) s.

(** [str::find('/')]. *)
Fixpoint find_slash (s : str) : option nat :=
  match s with
  | [] => None
  | c :: s' => if is_slash c then Some 0 else S <$> find_slash s'
  end.

Definition first_literal_segment_end (norm : str) : option nat :=
  let seg_end := default (length norm) (find_slash norm) in
  let seg := take seg_end norm in
  if bool_decide (seg = []) || has_glob_meta seg then None else Some seg_end.

Definition is_directory_prefix (prefix full : str) : bool :=
  if bool_decide (prefix = []) then true
  else starts_with prefix full
       && bool_decide (full !! length prefix = Some ch_slash).

Record CompiledPattern := {
  norm : str;
  matcher : option GlobMatcher;
  is_glob : bool;
  literal_segment_end : option nat;
  segments : list PatternSegment;
}.

#[export] Instance CompiledPattern_eq_dec : EqDecision CompiledPattern.
Proof. solve_decision. Defined.

Definition seg_star (s : PatternSegment) : bool :=
  match s with Recursive => true | _ => false end.

Section with_globset.
Context `{Globset}.

Definition compile_segment (s : str) : PatternSegment :=
  if bool_decide (s = lit "**") then Recursive
  else if has_glob_meta s then
    (if glob_build s then Glob s s else Literal s)
  else Literal s.

Definition compile (raw : str) : CompiledPattern :=
  let norm := normalize_pattern raw in
  let is_glob := has_glob_meta norm in
  {| norm := norm;
     is_glob := is_glob;
     literal_segment_end := first_literal_segment_end norm;
     matcher := if is_glob then (if glob_build norm then Some norm else None) else None;
     segments := compile_segment <$> split_on is_slash norm |}.

Definition is_matchable (p : CompiledPattern) : bool :=
  negb (is_glob p) || bool_decide (is_Some (matcher p)).

Definition first_literal_segment (p : CompiledPattern) : option str :=
  (λ n, take n (norm p)) <$> literal_segment_end p.

Definition matcher_accepts (m : option GlobMatcher) (path : str) : bool :=
  match m with Some g => glob_is_match g path | None => false end.

Definition matches (p : CompiledPattern) (path : str) : bool :=
  matcher_accepts (matcher p) path
  || (negb (is_glob p) && bool_decide (norm p = path)).

Definition seg_overlaps (a b : PatternSegment) : bool :=
  match a, b with
  | Literal l1, Literal l2 => bool_decide (l1 = l2)
  | Glob _ m, Literal l | Literal l, Glob _ m => glob_is_match m l
  | Glob left_raw _, Glob right_raw _ =>
      default true (simple_glob_patterns_overlap left_raw right_raw)
  | Recursive, _ | _, Recursive => true
  end.

Definition segments_overlap (s1 s2 : list PatternSegment) : option bool :=
  overlap_search seg_star seg_overlaps s1 s2.

Definition is_some {A} (o : option A) : bool := match o with Some _ => true | None => false end.

(** Both patterns start with a literal segment, and the segments differ. *)
Definition literal_segments_differ (p q : CompiledPattern) : bool :=
  match first_literal_segment p, first_literal_segment q with
  | Some left_seg, Some right_seg => bool_decide (left_seg ≠ right_seg)
  | _, _ => false
  end.

Definition overlaps_opt (p q : CompiledPattern) : option bool :=
  if bool_decide (norm p = norm q) then Some true
  else if negb (is_glob p) && is_directory_prefix (norm p) (norm q) then Some true
  else if negb (is_glob q) && is_directory_prefix (norm q) (norm p) then Some true
  else if is_some (matcher p) && (negb (is_glob q) || is_some (matcher q))
          && matcher_accepts (matcher p) (norm q) then Some true
  else if is_some (matcher q) && (negb (is_glob p) || is_some (matcher p))
          && matcher_accepts (matcher q) (norm p) then Some true
  else if (is_glob p && negb (is_some (matcher p)))
          || (is_glob q && negb (is_some (matcher q))) then Some false
  else if literal_segments_differ p q then Some false
  else segments_overlap (segments p) (segments q).

(** [CompiledPattern::overlaps]; the search never fails
    ([overlaps_opt_total]). *)
Definition overlaps (p q : CompiledPattern) : bool := default false (overlaps_opt p q).

(** ** The cache of compiled patterns *)

Record PatternCache := {
  capacity : nat;
  entries : gmap str CompiledPattern;
  order : list str;
}.

Definition PATTERN_CACHE_CAPACITY : nat := 4096.

Definition cache_new (cap : nat) : PatternCache :=
  {| capacity := cap; entries := ∅; order := [] |}.

Definition get_or_insert (c : PatternCache) (raw : str) : CompiledPattern * PatternCache :=
  match entries c !! raw with
  | Some compiled => (compiled, c)
  | None =>
      let compiled := compile raw in
      let '(ents, ord) :=
        if (capacity c <=? size (entries c))%nat then
          match order c with
          | oldest :: rest => (delete oldest (entries c), rest)
          | [] => (entries c, [])
          end
        else (entries c, order c) in
      (compiled, {| capacity := capacity c; entries := <[raw := compiled]> ents;
                    order := ord ++ [raw] |})
  end.

Definition patterns_overlap (c : PatternCache) (left right : str) : bool * PatternCache :=
  let '(l, c) := get_or_insert c left in
  let '(r, c) := get_or_insert c right in
  (overlaps l r, c).

(** ** What the code relies on [globset] for *)

Definition tok_matches (t : SimpleGlobToken) (c : N) : Prop :=
  match t with TokLiteral d => c = d | AnyChar => True | AnyString => False end.

Definition seg_matches (s : PatternSegment) (x : str) : Prop :=
  match s with
  | Literal l => x = l
  | Glob _ m => glob_is_match m x = true
  | Recursive => False
  end.

(** ASCII text without the metacharacters [\[ \] { }] and backslash. *)
Definition simple_char (c : N) : bool :=
  (c <? 128)%N && negb ((c =? ch_lbracket)%N || (c =? ch_rbracket)%N
                        || (c =? ch_lbrace)%N || (c =? ch_rbrace)%N || (c =? ch_backslash)%N).
Definition simple_text (s : str) : Prop := Forall (λ c, simple_char c = true) s.
Definition ascii_text (s : str) : Prop := Forall (λ c, (c < 128)%N) s.

(** The tokens of a segment accept a piece of text. *)
Definition tokens_accept (toks : list SimpleGlobToken) (x : str) : Prop :=
  instance_of tok_star tok_matches toks x.

(** The segments of a pattern accept the pieces of a path. *)
Definition segments_accept (segs : list PatternSegment) (pieces : list str) : Prop :=
  instance_of seg_star seg_matches segs pieces.
End with_globset.

(** Documented behaviour of [globset] with [literal_separator(true)].  The code
    hands it normalised patterns only ([CompiledPattern::new]), and the last two
    laws are stated for those: a normalised pattern has no backslash, hence no
    escape, and no empty component, while on others the library reads [a\b/c] as
    [ab/c] and [**/] as any text. *)
Class GlobsetLaws `{Globset} := {
  (** only classes, alternates and escapes can be malformed *)
  glob_build_simple p : simple_text p → glob_build p = true;
  (** [?] is one character, [*] any run, other characters themselves *)
  glob_segment raw toks x :
    simple_text raw → ch_slash ∉ raw → raw ≠ lit "**" →
    parse_simple_glob_tokens raw = Some toks → ascii_text x → ch_slash ∉ x →
    glob_is_match raw x = true ↔ tokens_accept toks x;
  (** a literal first segment matches only itself *)
  glob_literal_head raw seg more path :
    split_on is_slash (normalize_pattern raw) = seg :: more → seg ≠ [] →
    has_glob_meta seg = false → glob_build (normalize_pattern raw) = true →
    glob_is_match (normalize_pattern raw) path = true →
    ∃ more', split_on is_slash path = seg :: more';
  (** a path is matched segment by segment, [**] standing for any number *)
  glob_path raw path :
    simple_text (normalize_pattern raw) → ascii_text path →
    glob_is_match (normalize_pattern raw) path = true →
    segments_accept (compile_segment <$> split_on is_slash (normalize_pattern raw))
                    (split_on is_slash path);
}.

(** ** Normal forms *)

(** A component that normalisation keeps. *)
Definition component_ok (w : str) : Prop :=
  w ≠ [] ∧ w ≠ lit "." ∧ w ≠ lit ".." ∧
  ∀ c, c ∈ w → is_path_separator c = false.

Lemma push_component_ok parts w :
  Forall component_ok parts → (∀ c, c ∈ w → is_path_separator c = false) →
  Forall component_ok (push_component parts w).
Proof.
  intros Hp Hw. unfold push_component. repeat case_bool_decide; try done.
  - by apply Forall_take.
  - apply Forall_app; split; [done|]. apply Forall_singleton. split_and!; naive_solver.
Qed.

Lemma fold_push_ok ws parts :
  Forall component_ok parts →
  (∀ w, w ∈ ws → ∀ c, c ∈ w → is_path_separator c = false) →
  Forall component_ok (fold_left push_component ws parts).
Proof.
  revert parts. induction ws as [|w ws IH]; intros parts Hp Hw; simpl; [done|].
  apply IH; [apply push_component_ok; set_solver|set_solver].
Qed.

Lemma component_no_slash w c : component_ok w → c ∈ w → is_slash c = false.
Proof.
  intros (_ & _ & _ & H) Hc. specialize (H c Hc).
  unfold is_path_separator in H. by apply orb_false_iff in H as [? _].
Qed.

(** A normalised pattern is a [/]-joined list of real components. *)
Lemma normalize_components raw :
  ∃ parts, normalize_pattern raw = join_slash parts ∧ Forall component_ok parts.
Proof.
  eexists; split; [reflexivity|]. apply fold_push_ok; [constructor|].
  intros w Hw c Hc. by eapply split_on_pieces.
Qed.

Lemma split_components parts :
  Forall component_ok parts → parts ≠ [] →
  split_on is_slash (join_slash parts) = parts.
Proof.
  intros H Hne. apply split_join; [done|].
  intros w Hw c Hc. eapply component_no_slash; [|done]. by eapply Forall_forall in H.
Qed.

(** ** The overlap test returns *)

Lemma default_overlap_search {A} (star : A → bool) ov l r d :
  default d (overlap_search star ov l r) = common star ov l r.
Proof. by rewrite overlap_search_common. Qed.

Section facts.
Context `{Globset}.

Lemma overlaps_opt_total p q : overlaps_opt p q = Some (overlaps p q).
Proof.
  unfold overlaps, overlaps_opt, segments_overlap. rewrite overlap_search_common.
  repeat case_if; done.
Qed.

Lemma simple_glob_tokens_overlap_total l r :
  simple_glob_tokens_overlap l r = Some (common tok_star tok_overlap l r).
Proof. apply overlap_search_common. Qed.

(** ** Symmetry *)

Lemma tok_overlap_sym a b : tok_overlap a b = tok_overlap b a.
Proof. destruct a, b; simpl; try done. apply N.eqb_sym. Qed.

Lemma seg_overlaps_sym a b : seg_overlaps a b = seg_overlaps b a.
Proof.
  destruct a as [l|raw m|], b as [l'|raw' m'|]; simpl; try done.
  - by apply bool_decide_ext.
  - unfold simple_glob_patterns_overlap, simple_glob_tokens_overlap.
    destruct (parse_simple_glob_tokens raw), (parse_simple_glob_tokens raw'); simpl; try done.
    rewrite !overlap_search_common. by rewrite (common_sym _ _ tok_overlap_sym).
Qed.

Lemma literal_segments_differ_sym p q :
  literal_segments_differ p q = literal_segments_differ q p.
Proof.
  unfold literal_segments_differ. repeat case_match; try done. by apply bool_decide_ext.
Qed.

(** The tests of [overlaps] as one boolean. *)
Definition overlaps_formula (eq dir_pq dir_qp gp gq mp mq acc_pq acc_qp differ seg : bool) : bool :=
  if eq then true
  else if negb gp && dir_pq then true
  else if negb gq && dir_qp then true
  else if mp && (negb gq || mq) && acc_pq then true
  else if mq && (negb gp || mp) && acc_qp then true
  else if (gp && negb mp) || (gq && negb mq) then false
  else if differ then false else seg.

Lemma overlaps_eq p q :
  overlaps p q = overlaps_formula (bool_decide (norm p = norm q))
    (is_directory_prefix (norm p) (norm q)) (is_directory_prefix (norm q) (norm p))
    (is_glob p) (is_glob q) (is_some (matcher p)) (is_some (matcher q))
    (matcher_accepts (matcher p) (norm q)) (matcher_accepts (matcher q) (norm p))
    (literal_segments_differ p q) (common seg_star seg_overlaps (segments p) (segments q)).
Proof.
  unfold overlaps, overlaps_opt, segments_overlap, overlaps_formula.
  rewrite overlap_search_common. by repeat case_if.
Qed.

(** The overlap test does not depend on the order of its arguments. *)
Lemma overlaps_sym p q : overlaps p q = overlaps q p.
Proof.
  rewrite !overlaps_eq, (common_sym _ _ seg_overlaps_sym (segments q)).
  rewrite (literal_segments_differ_sym q p).
  rewrite (bool_decide_ext (norm q = norm p) (norm p = norm q)) by done.
  unfold overlaps_formula.
  destruct (bool_decide _), (is_glob p), (is_glob q), (is_some (matcher p)),
    (is_some (matcher q)), (is_directory_prefix (norm p) (norm q)), (is_directory_prefix (norm q) (norm p)),
    (matcher_accepts (matcher p) (norm q)), (matcher_accepts (matcher q) (norm p)); reflexivity.
Qed.

(** ** The first literal segment *)

Lemma split_on_head s :
  ∃ rest, split_on is_slash s = take (default (length s) (find_slash s)) s :: rest.
Proof.
  induction s as [|c s [rest IH]]; simpl; [by exists []|].
  destruct (is_slash c) eqn:E; simpl; [by eexists|].
  rewrite IH. exists rest. by destruct (find_slash s).
Qed.

Lemma find_slash_some s n :
  find_slash s = Some n → s = take n s ++ ch_slash :: drop (S n) s ∧ ch_slash ∉ take n s.
Proof.
  revert n. induction s as [|c s IH]; intros n; simpl; [done|].
  destruct (is_slash c) eqn:E; unfold is_slash in E.
  - intros [= <-]. bool_to_prop. subst. split; [by rewrite drop_0|]. set_solver.
  - destruct (find_slash s) as [m|]; simpl; [|done]. intros [= <-].
    destruct (IH m eq_refl) as [IH1 IH2]. simpl. split; [by f_equal|].
    apply N.eqb_neq in E. set_solver.
Qed.

Lemma find_slash_none s : find_slash s = None → ch_slash ∉ s.
Proof.
  induction s as [|c s IH]; simpl; [set_solver|].
  destruct (is_slash c) eqn:E; unfold is_slash in E; [done|].
  destruct (find_slash s) eqn:Ef; [done|]. intros _.
  apply N.eqb_neq in E. specialize (IH eq_refl). set_solver.
Qed.

(** What [first_literal_segment] returns. *)
Lemma first_literal_segment_spec raw seg :
  first_literal_segment (compile raw) = Some seg →
  seg ≠ [] ∧ has_glob_meta seg = false ∧
  ∃ rest, split_on is_slash (normalize_pattern raw) = seg :: rest.
Proof.
  unfold first_literal_segment; simpl. unfold first_literal_segment_end.
  destruct (split_on_head (normalize_pattern raw)) as [rest Hr].
  case_if; [done|]. bool_to_prop. intros [= <-]. eauto.
Qed.

Lemma compile_literal_segment seg : has_glob_meta seg = false → compile_segment seg = Literal seg.
Proof.
  intros Hm. unfold compile_segment. rewrite Hm. case_bool_decide; [|done]. by subst.
Qed.

(** A path accepted by the segments of a pattern starts with its first literal
    segment. *)
Lemma segments_accept_head raw seg x pieces :
  first_literal_segment (compile raw) = Some seg →
  segments_accept (compile_segment <$> split_on is_slash (normalize_pattern raw)) (x :: pieces) →
  x = seg.
Proof.
  intros (_ & Hm & rest & Hs)%first_literal_segment_spec. rewrite Hs. cbn.
  rewrite compile_literal_segment by done. inversion 1; simplify_eq; done.
Qed.
End facts.

(** ** Overlap is sound: patterns with a common path are reported *)

Lemma parse_tokens_simple toks s :
  simple_text s → is_Some (parse_tokens_loop toks s).
Proof.
  intros H. revert toks. induction H as [|c s Hc _ IH]; intros toks; simpl; [eauto|].
  do 2 (case_if; [by eauto|]). case_if; [|by eauto]. exfalso.
  unfold simple_char in Hc. apply andb_true_iff in Hc as [_ Hc].
  destruct (c =? ch_lbracket)%N, (c =? ch_rbracket)%N, (c =? ch_lbrace)%N,
    (c =? ch_rbrace)%N; done.
Qed.

Section soundness.
Context `{GlobsetLaws}.

Lemma tok_overlap_complete a b x :
  tok_star a = false → tok_star b = false → tok_matches a x → tok_matches b x →
  tok_overlap a b = true.
Proof. destruct a, b; simpl; try done. intros _ _ -> ->. apply N.eqb_refl. Qed.

Lemma tok_overlap_exact a b :
  tok_star a = false → tok_star b = false → tok_overlap a b = true →
  ∃ x, tok_matches a x ∧ tok_matches b x.
Proof.
  destruct a as [c| |], b as [d| |]; simpl; try done; intros _ _ E.
  - apply N.eqb_eq in E as ->. by exists d.
  - by exists c.
  - by exists d.
  - by exists 0%N.
Qed.

(** Two segments that accept a common piece of text overlap. *)
Lemma seg_overlaps_complete w1 w2 x :
  simple_text w1 → simple_text w2 → ch_slash ∉ w1 → ch_slash ∉ w2 →
  ascii_text x → ch_slash ∉ x →
  seg_star (compile_segment w1) = false → seg_star (compile_segment w2) = false →
  seg_matches (compile_segment w1) x → seg_matches (compile_segment w2) x →
  seg_overlaps (compile_segment w1) (compile_segment w2) = true.
Proof.
  intros Hs1 Hs2 Hn1 Hn2 Hx Hnx. unfold compile_segment.
  rewrite !glob_build_simple by done.
  case_bool_decide as E1; [done|]. case_bool_decide as E2; [done|]. intros _ _.
  destruct (has_glob_meta w1), (has_glob_meta w2); simpl.
  - destruct (parse_tokens_simple [] w1 Hs1) as [t1 T1], (parse_tokens_simple [] w2 Hs2) as [t2 T2].
    intros M1%(glob_segment _ t1) M2%(glob_segment _ t2); try done.
    unfold simple_glob_patterns_overlap, simple_glob_tokens_overlap.
    unfold parse_simple_glob_tokens. rewrite T1, T2. cbn. rewrite overlap_search_common. simpl.
    eapply common_complete; [apply tok_overlap_complete|apply M1|apply M2].
  - by intros ? ->.
  - by intros -> ?.
  - intros -> ->. by rewrite bool_decide_true.
Qed.

Lemma simple_text_split s w :
  simple_text s → w ∈ split_on is_slash s → simple_text w ∧ ch_slash ∉ w.
Proof.
  intros Hs Hw. split.
  - apply Forall_forall. intros c Hc. apply (proj1 (Forall_forall _ _) Hs).
    eapply split_on_elem; [done|done].
  - intros Hc. by pose proof (split_on_pieces _ _ _ Hw _ Hc).
Qed.

Lemma ascii_text_split s w :
  ascii_text s → w ∈ split_on is_slash s → ascii_text w ∧ ch_slash ∉ w.
Proof.
  intros Hs Hw. split.
  - apply Forall_forall. intros c Hc. apply (proj1 (Forall_forall _ _) Hs).
    eapply split_on_elem; [done|done].
  - intros Hc. by pose proof (split_on_pieces _ _ _ Hw _ Hc).
Qed.

(** Restrict the letters of an instance to a property they all have. *)
Lemma instance_of_Forall {A B} (star : A → bool) (m : A → B → Prop) (P : A → Prop) (Q : B → Prop) t w :
  Forall P t → Forall Q w → instance_of star m t w →
  instance_of star (λ a x, (P a ∧ Q x ∧ m a x)) t w.
Proof.
  intros Ht Hw Hi. induction Hi; decompose_Forall_hyps.
  - constructor.
  - apply inst_one; auto.
  - apply inst_skip; auto.
  - apply inst_more; [done|]. apply IHHi; [by constructor|done].
Qed.

(** Two plain glob patterns that accept a common path pass the segment test. *)
Lemma segments_common p q path :
  simple_text p → simple_text q → ascii_text path →
  segments_accept (compile_segment <$> split_on is_slash p) (split_on is_slash path) →
  segments_accept (compile_segment <$> split_on is_slash q) (split_on is_slash path) →
  common seg_star seg_overlaps (compile_segment <$> split_on is_slash p)
    (compile_segment <$> split_on is_slash q) = true.
Proof.
  intros Hp Hq Hx Ip Iq.
  pose (P := λ a, (∃ w, simple_text w ∧ ch_slash ∉ w ∧ a = compile_segment w)).
  pose (Q := λ x : str, (ascii_text x ∧ ch_slash ∉ x)).
  assert (∀ r, simple_text r → Forall P (compile_segment <$> split_on is_slash r)) as HP.
  { intros r Hr. apply Forall_fmap, Forall_forall. intros w Hw.
    destruct (simple_text_split _ _ Hr Hw). exists w. done. }
  assert (Forall Q (split_on is_slash path)) as HQ.
  { apply Forall_forall. intros w Hw. by eapply ascii_text_split. }
  eapply (common_complete _ _ (λ a x, (P a ∧ Q x ∧ seg_matches a x))).
  - intros a b x Ha Hb ((w1 & ? & ? & ->) & (? & ?) & ?) ((w2 & ? & ? & ->) & _ & ?).
    by eapply seg_overlaps_complete.
  - apply instance_of_Forall; eauto.
  - apply instance_of_Forall; eauto.
Qed.

Lemma matches_literal raw path :
  is_glob (compile raw) = false → matches (compile raw) path = true →
  path = norm (compile raw).
Proof.
  simpl. intros Hg. unfold matches. simpl. rewrite Hg. simpl. by intros E%bool_decide_eq_true.
Qed.

Lemma matches_glob raw path :
  is_glob (compile raw) = true → matches (compile raw) path = true →
  matcher (compile raw) = Some (norm (compile raw)) ∧
  glob_is_match (norm (compile raw)) path = true.
Proof.
  simpl. intros Hg. unfold matches. simpl. rewrite Hg. destruct (glob_build _); simpl; [|done].
  rewrite orb_false_r. auto.
Qed.

(** The fallback segment test is reached with the literal heads agreeing. *)
Lemma literal_heads_agree p q path :
  segments_accept (segments (compile p)) (split_on is_slash path) →
  segments_accept (segments (compile q)) (split_on is_slash path) →
  literal_segments_differ (compile p) (compile q) = false.
Proof.
  intros Ip Iq. unfold literal_segments_differ.
  destruct (first_literal_segment (compile p)) as [sp|] eqn:Ep; [|done].
  destruct (first_literal_segment (compile q)) as [sq|] eqn:Eq; [|done].
  destruct (split_on_head path) as [rest Hr]. rewrite Hr in Ip, Iq.
  pose proof (segments_accept_head _ _ _ _ Ep Ip). pose proof (segments_accept_head _ _ _ _ Eq Iq).
  apply bool_decide_eq_false. intros Hne. apply Hne. congruence.
Qed.

(** C10: no conflict between plain patterns is missed.  If two patterns
    without classes or alternates both match some path, then
    [CompiledPattern::overlaps] is true. *)
Theorem overlaps_sound p q path :
  simple_text (normalize_pattern p) → simple_text (normalize_pattern q) →
  ascii_text path →
  matches (compile p) path = true → matches (compile q) path = true →
  overlaps (compile p) (compile q) = true.
Proof.
  intros Hp Hq Hx Mp Mq. rewrite overlaps_eq. unfold overlaps_formula.
  destruct (is_glob (compile p)) eqn:Gp, (is_glob (compile q)) eqn:Gq.
  - apply matches_glob in Mp as [Ep Mp]; [|done]. apply matches_glob in Mq as [Eq Mq]; [|done].
    rewrite Ep, Eq. simpl in Mp, Mq.
    apply glob_path in Mp; [|done..]. apply glob_path in Mq; [|done..].
    rewrite (literal_heads_agree p q path) by done. simpl.
    rewrite (segments_common _ _ path) by done. by repeat case_if.
  - apply matches_literal in Mq as ->; [|done].
    apply matches_glob in Mp as [Ep Mp]; [|done]. rewrite Ep. cbn -[compile].
    rewrite Mp. by repeat case_if.
  - apply matches_literal in Mp as ->; [|done].
    apply matches_glob in Mq as [Eq Mq]; [|done]. rewrite Eq. cbn -[compile].
    rewrite Mq. repeat case_if; done.
  - apply matches_literal in Mp; [|done]. apply matches_literal in Mq; [|done].
    subst path. rewrite bool_decide_true by done. done.
Qed.
End soundness.

(** C18: on the tokens of two segments the memoised search is exact: it
    returns, and answers whether some text is accepted by both. *)
Theorem simple_glob_tokens_overlap_exact l r :
  ∃ b, simple_glob_tokens_overlap l r = Some b ∧
       (b = true ↔ ∃ x, tokens_accept l x ∧ tokens_accept r x).
Proof.
  exists (common tok_star tok_overlap l r).
  split; [apply simple_glob_tokens_overlap_total|]. split.
  - apply common_sound; [|apply tok_overlap_exact].
    intros [c| |]; [by exists c|by exists 0%N|done].
  - intros (x & ? & ?). eapply common_complete; [apply tok_overlap_complete|done..].
Qed.

(** ** The cache *)

Section cache.
Context `{Globset}.

Definition cache_wf (c : PatternCache) : Prop :=
  1 ≤ capacity c ∧
  (∀ raw p, entries c !! raw = Some p → p = compile raw) ∧
  NoDup (order c) ∧
  (∀ raw, raw ∈ order c ↔ is_Some (entries c !! raw)) ∧
  size (entries c) ≤ capacity c.

Lemma cache_new_wf cap : 1 ≤ cap → cache_wf (cache_new cap).
Proof.
  intros Hc. split_and!; simpl; [done|set_solver|constructor| |by rewrite map_size_empty; lia].
  intros raw. rewrite lookup_empty. split; [by intros ?%elem_of_nil|by intros [? [=]]].
Qed.

(** the cache is transparent and bounded: a lookup returns the compiled
    form of the requested pattern, whatever was cached or evicted before, and
    keeps the cache within its capacity with its FIFO in step. *)
Theorem get_or_insert_spec c raw :
  cache_wf c →
  fst (get_or_insert c raw) = compile raw ∧ cache_wf (snd (get_or_insert c raw)) ∧
  capacity (snd (get_or_insert c raw)) = capacity c.
Proof.
  intros (Hcap & Hval & Hnd & Hdom & Hsize). unfold get_or_insert.
  destruct (entries c !! raw) as [p|] eqn:E.
  { split_and!; simpl; eauto. split_and!; done. }
  assert (raw ∉ order c) as Hfresh.
  { intros [? ?]%Hdom. congruence. }
  destruct (decide (capacity c ≤ size (entries c))) as [Hfull|Hroom].
  - rewrite (proj2 (Nat.leb_le _ _)) by done.
    destruct (order c) as [|oldest rest] eqn:Eo.
    { destruct (map_choose (entries c)) as (k & v & Hk).
      - intros Hem. rewrite Hem, map_size_empty in Hfull. lia.
      - pose proof (proj2 (Hdom k) (ex_intro _ v Hk)) as Hin. by apply elem_of_nil in Hin. }
    apply NoDup_cons in Hnd as [Hno Hnd]. simpl.
    split_and!; [done| |done]. split_and!; simpl; [done| | | |].
    + intros r p. rewrite lookup_insert. case_decide; [naive_solver|].
      intros [_ ?]%lookup_delete_Some. eauto.
    + apply NoDup_app; split_and!; [done|set_solver|apply NoDup_singleton].
    + intros r. rewrite elem_of_app, list_elem_of_singleton, lookup_insert.
      specialize (Hdom r). rewrite elem_of_cons in Hdom.
      destruct (decide (raw = r)) as [->|]; [split; eauto|].
      destruct (decide (oldest = r)) as [->|].
      * rewrite lookup_delete_eq. split; [naive_solver|by intros [? ?]].
      * rewrite lookup_delete_ne by done. naive_solver.
    + rewrite map_size_insert_None.
      * rewrite map_size_delete. destruct (proj1 (Hdom oldest)) as [v Hv]; [left|].
        rewrite Hv. simpl. lia.
      * rewrite lookup_delete_None. auto.
  - rewrite (proj2 (Nat.leb_gt _ _)) by lia. simpl.
    split_and!; [done| |done]. split_and!; simpl; [done| | | |].
    + intros r p. rewrite lookup_insert. case_decide; naive_solver.
    + apply NoDup_app; split_and!; [done|set_solver|apply NoDup_singleton].
    + intros r. rewrite elem_of_app, list_elem_of_singleton, lookup_insert, Hdom.
      case_decide; naive_solver.
    + rewrite map_size_insert_None by done. lia.
Qed.
End cache.
End PatternOverlap.
