(* ===== verification/RefGlob.v ===== *)
(** * A reference matcher

    A small executable matcher for patterns without classes, alternates and
    escapes.  It satisfies every law the development assumes of the [globset]
    crate, so it shows those laws are consistent, and the witnesses of the
    theorems that use them compute with it. *)

From stdpp Require Import base tactics list strings.
From S2P Require Import Prelude OverlapDp PatternOverlap.
Import PatternOverlap.

Module RefGlob.

Definition simple_textb (s : str) : bool := forallb simple_char s.

Definition tok_matchb (t : SimpleGlobToken) (c : N) : bool :=
  match t with TokLiteral d => (c =? d)%N | AnyChar => true | AnyString => false end.

Definition ref_tokens (raw : str) : list SimpleGlobToken :=
  default [] (parse_simple_glob_tokens raw).

(** One segment against one piece of a path. *)
Definition ref_segmentb (w x : str) : bool :=
  if has_glob_meta w then instanceb tok_star tok_matchb (ref_tokens w) x
  else bool_decide (x = w).

Definition ref_star (w : str) : bool := bool_decide (w = lit "**").

Definition ref_match (p path : str) : bool :=
  instanceb ref_star ref_segmentb (split_on is_slash p) (split_on is_slash path).

#[export] Instance ref_globset : Globset :=
  { glob_build := simple_textb; glob_is_match := ref_match }.

Lemma simple_textb_spec s : simple_textb s = true ↔ simple_text s.
Proof.
  unfold simple_textb, simple_text. induction s as [|c s IH]; simpl.
  - split; [constructor|done].
  - by rewrite andb_true_iff, IH, Forall_cons.
Qed.

Lemma tok_matchb_spec t c : tok_matchb t c = true ↔ tok_matches t c.
Proof. destruct t; simpl; [apply N.eqb_eq|done..]. Qed.

Lemma ref_tokens_spec toks x :
  instanceb tok_star tok_matchb toks x = true ↔ tokens_accept toks x.
Proof. apply instanceb_spec, tok_matchb_spec. Qed.

Lemma split_no_slash w : ch_slash ∉ w → split_on is_slash w = [w].
Proof.
  intros Hw. apply split_on_id. intros c Hc. unfold is_slash. apply N.eqb_neq. by intros ->.
Qed.

(** On a single segment the matcher is the segment test. *)
Lemma ref_match_segment w x :
  ch_slash ∉ w → ch_slash ∉ x → w ≠ lit "**" → ref_match w x = ref_segmentb w x.
Proof.
  intros Hw Hx Hr. unfold ref_match. rewrite !split_no_slash by done.
  rewrite instanceb_cons. unfold ref_star. rewrite bool_decide_false by done.
  simpl. apply andb_true_r.
Qed.

Lemma ref_match_instance p path :
  ref_match p path = true ↔
  instance_of ref_star (λ w x, ref_segmentb w x = true) (split_on is_slash p) (split_on is_slash path).
Proof. by apply instanceb_spec. Qed.

Lemma ref_compile_segment w : simple_text w →
  compile_segment w = if ref_star w then Recursive
                      else if has_glob_meta w then Glob w w else Literal w.
Proof.
  intros Hw. unfold compile_segment, ref_star. cbn [glob_build ref_globset].
  by rewrite (proj2 (simple_textb_spec w) Hw).
Qed.

(** Text without metacharacters parses to itself. *)
Lemma literal_tokens_loop raw toks0 toks :
  has_glob_meta raw = false → parse_tokens_loop toks0 raw = Some toks →
  toks = toks0 ++ (TokLiteral <$> raw).
Proof.
  revert toks0. induction raw as [|c raw IH]; intros toks0; simpl.
  { intros _ [= ->]. by rewrite app_nil_r. }
  intros Hm. destruct (c =? ch_star)%N, (c =? ch_question)%N, (c =? ch_lbracket)%N,
    (c =? ch_lbrace)%N; simpl in Hm; try done.
  case_if; [done|]. intros Hp%IH; [|done]. by rewrite Hp, <-app_assoc.
Qed.

Lemma tokens_accept_literal w x : tokens_accept (TokLiteral <$> w) x ↔ x = w.
Proof.
  revert x. induction w as [|c w IH]; intros x; cbn.
  - split; [apply instance_of_nil_inv|intros ->; constructor].
  - split.
    + inversion 1 as [|? ? ? ? _ Hc Hi| |]; simplify_eq/=. f_equal. by apply IH.
    + intros ->. apply inst_one; [done..|]. by apply IH.
Qed.

Lemma literal_tokens raw toks x :
  has_glob_meta raw = false → parse_simple_glob_tokens raw = Some toks →
  x = raw ↔ tokens_accept toks x.
Proof.
  intros Hm Hp. apply literal_tokens_loop in Hp as ->; [|done]. simpl.
  by rewrite tokens_accept_literal.
Qed.

Lemma ref_match_accepts_segment w x :
  simple_text w → ref_star w = false → ch_slash ∉ w → ch_slash ∉ x →
  ref_segmentb w x = true → seg_matches (compile_segment w) x.
Proof.
  intros Hw Hr Hnw Hnx Hm. rewrite ref_compile_segment by done. rewrite Hr.
  destruct (has_glob_meta w) eqn:Em; simpl.
  - rewrite ref_match_segment; [done|done|done|]. unfold ref_star in Hr.
    by apply bool_decide_eq_false in Hr.
  - unfold ref_segmentb in Hm. rewrite Em in Hm. by apply bool_decide_eq_true in Hm.
Qed.

#[export] Instance ref_globset_laws : GlobsetLaws.
Proof.
  split.
  - intros p. apply simple_textb_spec.
  - intros raw toks x Hs Hn Hr Hp Hx Hnx. cbn [glob_is_match ref_globset].
    rewrite ref_match_segment by done. unfold ref_segmentb, ref_tokens. rewrite Hp. simpl.
    destruct (has_glob_meta raw) eqn:Em; [apply ref_tokens_spec|].
    rewrite bool_decide_eq_true. by apply literal_tokens.
  - intros raw seg more path Hsp Hne Hm _. cbn [glob_is_match ref_globset].
    rewrite ref_match_instance, Hsp. intros Hi.
    assert (ref_star seg = false) as Hstar.
    { unfold ref_star. apply bool_decide_eq_false. intros ->. done. }
    destruct (split_on is_slash path) as [|x pieces] eqn:E; [by destruct (split_on_cons_ne is_slash path)|].
    inversion Hi as [|? ? ? ? _ Hx _| |]; [|congruence..]. subst.
    unfold ref_segmentb in Hx. rewrite Hm in Hx. apply bool_decide_eq_true in Hx as ->. eauto.
  - intros raw path Hp Hx. set (p := normalize_pattern raw) in *. cbn [glob_is_match ref_globset]. rewrite ref_match_instance.
    intros Hi.
    pose (P := λ w, (simple_text w ∧ ch_slash ∉ w)). pose (Q := λ x : str, ch_slash ∉ x).
    assert (Forall P (split_on is_slash p)) as HP.
    { apply Forall_forall. intros w Hw. by eapply simple_text_split. }
    assert (Forall Q (split_on is_slash path)) as HQ.
    { apply Forall_forall. intros w Hw. by eapply ascii_text_split. }
    pose proof (instance_of_Forall _ _ P Q _ _ HP HQ Hi) as Hi'. clear Hi HQ.
    induction Hi' as [|w t x u Hr (Hw & Hx' & Hm) Ht IH|w t u Hr Ht IH|w t x u Hr Ht IH]; cbn;
      try apply Forall_cons in HP as HP'.
    + constructor.
    + destruct HP' as [[??] ?]. apply inst_one; [|by apply ref_match_accepts_segment|by apply IH].
      rewrite ref_compile_segment, Hr by done. by case_if.
    + destruct HP' as [[??] ?]. apply inst_skip; [|by apply IH].
      by rewrite ref_compile_segment, Hr.
    + destruct HP' as [[??] ?]. apply inst_more; [|by apply IH].
      by rewrite ref_compile_segment, Hr.
Qed.

(** ** Witnesses for the theorems of [PatternOverlap] *)

Lemma simple_lit s : simple_textb (lit s) = true → simple_text (lit s).
Proof. apply simple_textb_spec. Qed.

Lemma ascii_lit s : simple_textb (lit s) = true → ascii_text (lit s).
Proof.
  intros H%simple_lit. eapply Forall_impl; [exact H|]. intros c Hc.
  unfold simple_char in Hc. apply andb_true_iff in Hc as [Hc _]. by apply N.ltb_lt.
Qed.

(** [src/*.rs] and [src/**] both match [src/main.rs]. *)
Lemma overlaps_sound_witness :
  overlaps (compile (lit "src/*.rs")) (compile (lit "./src/**")) = true.
Proof.
  apply (overlaps_sound (lit "src/*.rs") (lit "./src/**") (lit "src/main.rs")).
  - apply simple_textb_spec. vm_compute. reflexivity.
  - apply simple_textb_spec. vm_compute. reflexivity.
  - apply ascii_lit. vm_compute. reflexivity.
  - vm_compute. reflexivity.
  - vm_compute. reflexivity.
Defined.

Lemma get_or_insert_spec_witness :
  fst (get_or_insert (cache_new 1) (lit "a\b")) = compile (lit "a/b").
Proof.
  rewrite (proj1 (get_or_insert_spec (cache_new 1) (lit "a\b") (cache_new_wf 1 (le_n 1)))).
  vm_compute. reflexivity.
Defined.
End RefGlob.
