(* ===== verification/KeyedBuckets.v ===== *)
(** * Buckets of values under string keys

    The reservation indexes keep [BTreeMap<String, Vec<V>>] and
    [HashMap<String, Vec<V>>] tables filled with
    [entry(key).or_default().push(value)].  A [BTreeMap] is modelled by its
    sorted list of entries, so that [range(k..)] is a suffix of it; a [HashMap]
    by a [gmap].  Each table is related to the flat list of the pairs pushed
    into it. *)

From stdpp Require Import base tactics list gmap sorting.
From S2P Require Import Prelude.

(** ** Byte-wise order of strings *)

Fixpoint str_compare (a b : str) : comparison :=
  match a, b with
  | [], [] => Eq
  | [], _ :: _ => Lt
  | _ :: _, [] => Gt
  | x :: a, y :: b =>
      match (x ?= y)%N with
      | Eq => str_compare a b
      | c => c
      end
  end.

Definition str_lt (a b : str) : Prop := str_compare a b = Lt.

#[export] Instance comparison_eq_dec : EqDecision comparison.
Proof. solve_decision. Defined.

#[export] Instance str_lt_dec a b : Decision (str_lt a b) := decide (str_compare a b = Lt).

Definition str_le (a b : str) : Prop := str_compare a b ≠ Gt.
#[export] Instance str_le_dec : RelDecision str_le.
Proof. intros a b. unfold str_le. apply _. Defined.

(** ** [BTreeMap<String, Vec<V>>] *)

Module BTreeMap.
Section btree.
Context {V : Type}.

Definition table : Type := list (str * list V).

Definition empty : table := [].

(** [entry(k).or_default().push(v)] *)
Fixpoint entry_push (k : str) (v : V) (t : table) : table :=
  match t with
  | [] => [(k, [v])]
  | (k', vs) :: t' =>
      match str_compare k k' with
      | Lt => (k, [v]) :: (k', vs) :: t'
      | Eq => (k', vs ++ [v]) :: t'
      | Gt => (k', vs) :: entry_push k v t'
      end
  end.

Fixpoint get (k : str) (t : table) : option (list V) :=
  match t with
  | [] => None
  | (k', vs) :: t' => if bool_decide (k = k') then Some vs else get k t'
  end.

Definition values (t : table) : list (list V) := snd <$> t.

(** [range(k..)] *)
Fixpoint range_from (k : str) (t : table) : table :=
  match t with
  | [] => []
  | (k', vs) :: t' =>
      match str_compare k' k with
      | Lt => range_from k t'
      | _ => (k', vs) :: t'
      end
  end.

(** The loop over [range(p..)] that breaks at the first key not starting with
    [p]. *)
Fixpoint take_prefixed (p : str) (t : table) : table :=
  match t with
  | [] => []
  | (k', vs) :: t' => if starts_with p k' then (k', vs) :: take_prefixed p t' else []
  end.

Definition scan_prefix (p : str) (t : table) : list (list V) :=
  values (take_prefixed p (range_from p t)).

(** The pairs that were pushed. *)
Definition flat (t : table) : list (str * V) :=
  t ≫= λ '(k, vs), (k,.) <$> vs.

Definition wf (t : table) : Prop := StronglySorted str_lt t.*1.
End btree.
Arguments table : clear implicits.
Arguments flat {V} t : simpl never.
End BTreeMap.

(** ** [HashMap<String, Vec<V>>] *)

Module HashBuckets.
Section buckets.
Context {V : Type}.

Definition entry_push (k : str) (v : V) (m : gmap str (list V)) : gmap str (list V) :=
  <[k := default [] (m !! k) ++ [v]]> m.

(** Iteration visits the buckets in an arbitrary order; the results that
    depend on it are stated up to permutation. *)
Definition values (m : gmap str (list V)) : list (list V) := (map_to_list m).*2.

Definition flat (m : gmap str (list V)) : list (str * V) :=
  map_to_list m ≫= λ '(k, vs), (k,.) <$> vs.
End buckets.
End HashBuckets.

(** ** Facts about the order *)

Lemma str_compare_eq a b : str_compare a b = Eq ↔ a = b.
Proof.
  revert b. induction a as [|x a IH]; intros [|y b]; simpl; try done.
  destruct (N.compare_spec x y); [|naive_solver lia..]. rewrite IH. naive_solver.
Qed.

Lemma str_compare_gt a b : str_compare a b = Gt ↔ str_lt b a.
Proof.
  unfold str_lt. revert b. induction a as [|x a IH]; intros [|y b]; simpl; try done.
  rewrite (N.compare_antisym x y). destruct (x ?= y)%N; simpl; [apply IH|done..].
Qed.

Lemma str_lt_trans a b c : str_lt a b → str_lt b c → str_lt a c.
Proof.
  unfold str_lt. revert b c. induction a as [|x a IH]; intros [|y b] [|z c]; simpl; try done.
  destruct (N.compare_spec x y), (N.compare_spec y z), (N.compare_spec x z);
    try lia; try done. eauto.
Qed.

Lemma str_lt_irrefl a : ¬ str_lt a a.
Proof. unfold str_lt. by rewrite (proj2 (str_compare_eq a a) eq_refl). Qed.

Lemma str_le_lt a b : str_le a b ↔ str_lt a b ∨ a = b.
Proof.
  unfold str_le. rewrite <-str_compare_eq. unfold str_lt. destruct (str_compare a b); naive_solver.
Qed.

#[export] Instance str_le_total : Total str_le.
Proof.
  intros a b. rewrite !str_le_lt. destruct (str_compare a b) eqn:E.
  - left. right. by apply str_compare_eq.
  - left. by left.
  - right. left. by apply str_compare_gt.
Qed.

#[export] Instance str_le_trans : Transitive str_le.
Proof.
  intros a b c. rewrite !str_le_lt. intros [?| ->] [?| ->]; [left|by left|by left|by right].
  by eapply str_lt_trans.
Qed.

#[export] Instance str_lt_transitive : Transitive str_lt.
Proof. intros a b c. apply str_lt_trans. Qed.

(** The strings with a given prefix are contiguous in the order. *)
Lemma prefix_convex p x y :
  ¬ str_lt x p → ¬ p `prefix_of` x → str_lt x y → ¬ p `prefix_of` y.
Proof.
  unfold str_lt. revert x y. induction p as [|c p IH]; intros x y Hx Hp Hxy.
  { by destruct Hp; apply prefix_nil. }
  destruct x as [|d x]; simpl in Hx; [done|]. destruct y as [|e y]; [done|].
  simpl in Hxy. intros Hpy.
  assert (c = e) as -> by eauto using prefix_cons_inv_1.
  apply prefix_cons_inv_2 in Hpy.
  destruct (N.compare_spec d e) as [->|?|?]; simplify_eq.
  eapply (IH x y); eauto. intros Hp'. apply Hp. by apply prefix_cons.
Qed.

Lemma prefix_not_lt p x : p `prefix_of` x → ¬ str_lt x p.
Proof.
  intros [k ->]. unfold str_lt. induction p as [|c p IH]; simpl.
  - by destruct k.
  - by rewrite N.compare_refl.
Qed.

(** ** Facts about [BTreeMap] *)

Module BTreeMapFacts.
Import BTreeMap.
Section btree.
Context {V : Type}.
Implicit Types t : table V.

Lemma entry_push_keys k v t x : x ∈ (entry_push k v t).*1 ↔ x = k ∨ x ∈ t.*1.
Proof.
  induction t as [|[k' vs] t IH]; simpl; [set_solver|].
  destruct (str_compare k k') eqn:E; simpl; rewrite ?elem_of_cons, ?IH; [|set_solver..].
  apply str_compare_eq in E as ->. set_solver.
Qed.

Lemma entry_push_wf k v t : wf t → wf (entry_push k v t).
Proof.
  unfold wf. induction t as [|[k' vs] t IH]; simpl; intros Hs; [repeat constructor|].
  destruct (str_compare k k') eqn:E; simpl; [done| |].
  - constructor; [done|]. apply StronglySorted_inv in Hs as [_ Hf]. constructor; [done|].
    eapply Forall_impl; [exact Hf|]. intros x. by apply str_lt_trans.
  - apply StronglySorted_inv in Hs as [Hs Hf]. constructor; [by apply IH|].
    apply Forall_forall. intros x [->|Hx]%entry_push_keys.
    + by apply str_compare_gt.
    + by eapply Forall_forall in Hf.
Qed.

Lemma flat_cons k vs t : flat ((k, vs) :: t) = ((k,.) <$> vs) ++ flat t.
Proof. done. Qed.

Lemma flat_entry_push k v t : flat (entry_push k v t) ≡ₚ (k, v) :: flat t.
Proof.
  induction t as [|[k' vs] t IH]; simpl; [done|].
  destruct (str_compare k k') eqn:E; rewrite !flat_cons; [|done|].
  - apply str_compare_eq in E as ->. rewrite fmap_app. simpl.
    rewrite <-app_assoc. symmetry. apply Permutation_middle.
  - rewrite IH. symmetry. apply Permutation_middle.
Qed.

Lemma flat_keys k v t : (k, v) ∈ flat t → k ∈ t.*1.
Proof.
  induction t as [|[k' vs] t IH]; [by intros ?%elem_of_nil|].
  rewrite flat_cons, elem_of_app. intros [Hx|Hx]; [|right; auto].
  apply list_elem_of_fmap in Hx as (? & [= -> ->] & ?). left.
Qed.

Lemma filter_key_eq k (vs : list V) :
  filter (λ kv : str * V, kv.1 = k) ((k,.) <$> vs) = (k,.) <$> vs.
Proof. induction vs as [|v vs IH]; [done|]. cbn. rewrite decide_True by done. f_equal. apply IH. Qed.

Lemma filter_none {A} (P : A → Prop) `{∀ x, Decision (P x)} (l : list A) :
  (∀ x, x ∈ l → ¬ P x) → filter P l = [].
Proof.
  intros Hl. induction l as [|x l IH]; [done|].
  rewrite filter_cons_False by (apply Hl; left). apply IH. intros y Hy. apply Hl. by right.
Qed.

Lemma fmap_snd_pair (k : str) (vs : list V) : ((k,.) <$> vs).*2 = vs.
Proof. rewrite <-list_fmap_compose. apply list_fmap_id. Qed.

(** A bucket holds exactly the values pushed under its key. *)
Lemma get_flat k t :
  wf t → default [] (get k t) = (filter (λ kv, kv.1 = k) (flat t)).*2.
Proof.
  unfold wf. induction t as [|[k' vs] t IH]; simpl; intros Hs; [done|].
  apply StronglySorted_inv in Hs as [Hs Hf]. rewrite flat_cons, filter_app, fmap_app.
  case_bool_decide as Hk; simpl.
  - subst k'. rewrite filter_key_eq, fmap_snd_pair.
    rewrite (filter_none _ (flat t)); [by rewrite app_nil_r|].
    intros [k'' v] Hin%flat_keys ?; simpl in *; subst.
    eapply Forall_forall in Hf; [|done]. by apply str_lt_irrefl in Hf.
  - rewrite (filter_none _ (_ <$> _)); [by apply IH|].
    intros [k'' v] Hin ?. apply list_elem_of_fmap in Hin as (? & [= -> ->] & ?). done.
Qed.

Lemma values_flat t : concat (values t) = (flat t).*2.
Proof.
  induction t as [|[k vs] t IH]; [done|]. rewrite flat_cons, fmap_app, fmap_snd_pair, <-IH. done.
Qed.

Lemma take_prefixed_none p k vs t :
  wf ((k, vs) :: t) → ¬ str_lt k p → ¬ p `prefix_of` k →
  filter (λ kv, p `prefix_of` kv.1) (flat ((k, vs) :: t)) = [].
Proof.
  unfold wf. simpl. intros [Hs Hf]%StronglySorted_inv Hlt Hp. apply filter_none.
  intros [k' v] Hin. simpl. apply flat_keys in Hin. simpl in Hin.
  apply elem_of_cons in Hin as [->|Hin]; [done|]. eapply Forall_forall in Hf; [|done].
  by eapply prefix_convex.
Qed.

(** The scan of [range(p..)] visits exactly the keys that start with [p]. *)
Lemma scan_prefix_flat p t :
  wf t → concat (scan_prefix p t) = (filter (λ kv, p `prefix_of` kv.1) (flat t)).*2.
Proof.
  unfold scan_prefix. intros Hwf.
  assert (∀ t', wf t' → Forall (λ k, ¬ str_lt k p) t'.*1 →
    concat (values (take_prefixed p t')) =
    (filter (λ kv, p `prefix_of` kv.1) (flat t')).*2) as Htake.
  { clear t Hwf. intros t Hwf Hge. induction t as [|[k vs] t IH]; [done|]. simpl in Hge.
    apply Forall_cons in Hge as [Hk Hge]. cbn [take_prefixed].
    unfold starts_with. case_bool_decide as Hp.
    - rewrite flat_cons, filter_app, fmap_app. cbn. rewrite (filter_all _ (_ <$> _)).
      + rewrite fmap_snd_pair. f_equal. apply IH; [|done]. by apply StronglySorted_inv in Hwf as [??].
      + apply Forall_forall. intros [k' v] Hin. by apply list_elem_of_fmap in Hin as (? & [= -> ->] & ?).
    - by rewrite take_prefixed_none. }
  induction t as [|[k vs] t IH]; [done|]. cbn [range_from].
  assert (wf t ∧ Forall (str_lt k) t.*1) as [Hwf' Hf].
  { by apply StronglySorted_inv in Hwf. }
  destruct (decide (str_lt k p)) as [Hlt|Hge].
  - rewrite Hlt, IH by done. rewrite flat_cons, filter_app, (filter_none _ (_ <$> _)); [done|].
    intros [k' v] Hin. apply list_elem_of_fmap in Hin as (? & [= -> ->] & ?). simpl.
    intros ?%prefix_not_lt. done.
  - assert (Forall (λ k0, ¬ str_lt k0 p) ((k, vs) :: t).*1) as Hall.
    { simpl. constructor; [done|]. eapply Forall_impl; [exact Hf|]. intros x Hx Hxp. apply Hge.
      by eapply str_lt_trans. }
    destruct (str_compare k p) eqn:E; [|done|]; by apply Htake.
Qed.
End btree.
End BTreeMapFacts.

(** ** Facts about [HashMap] *)

Module HashBucketsFacts.
Import HashBuckets.
Section buckets.
Context {V : Type}.
Implicit Types m : gmap str (list V).

Lemma hash_flat_entry_push k v m : flat (entry_push k v m) ≡ₚ (k, v) :: flat m.
Proof.
  unfold flat, entry_push. destruct (m !! k) as [vs|] eqn:E; simpl.
  - rewrite <-(insert_delete_id m k vs) at 2 by done.
    rewrite <-(insert_delete_eq m).
    rewrite !map_to_list_insert by apply lookup_delete_eq. cbn.
    rewrite fmap_app. simpl. rewrite <-app_assoc. symmetry. apply Permutation_middle.
  - rewrite map_to_list_insert by done. done.
Qed.

Lemma hash_get_flat k m : default [] (m !! k) ≡ₚ (filter (λ kv, kv.1 = k) (flat m)).*2.
Proof.
  unfold flat. induction m as [|k' vs m Hk IH] using map_ind.
  - rewrite lookup_empty, map_to_list_empty. done.
  - rewrite map_to_list_insert by done. cbn. rewrite filter_app, fmap_app.
    rewrite lookup_insert. case_decide as Hd; simpl.
    + subst k'. rewrite BTreeMapFacts.filter_key_eq, BTreeMapFacts.fmap_snd_pair.
      rewrite <-IH, Hk. simpl. by rewrite app_nil_r.
    + rewrite (BTreeMapFacts.filter_none _ (_ <$> _)); [done|].
      intros [k'' v] Hin ?. apply list_elem_of_fmap in Hin as (? & [= -> ->] & ?). done.
Qed.

Lemma hash_values_flat m : concat (values m) = (flat m).*2.
Proof.
  unfold values, flat. induction (map_to_list m) as [|[k vs] l IH]; [done|].
  cbn. rewrite fmap_app, BTreeMapFacts.fmap_snd_pair. f_equal. apply IH.
Qed.
End buckets.
End HashBucketsFacts.
