(* ===== verification/ReservationIndex.v ===== *)
(** * Reservation conflict indexes

    Two indexes answer "which held reservations overlap this request":
    [ReservationIndex] of [mcp-agent-mail-tools/src/reservation_index.rs], which
    lists all of them for the tool's answer, and [ReservationConflictIndex] of
    [mcp-agent-mail-db/src/queries.rs], which looks for one inside the write
    transaction.  Both are proved equivalent to the test of the request against
    every reservation, the second except for the project root; the clients are
    proved against the class [ConflictDetector]. *)

From stdpp Require Import base tactics list gmap strings.
From S2P Require Import Prelude OverlapDp PatternOverlap KeyedBuckets.
Import PatternOverlap.

(** [str::match_indices('/')]. *)
Fixpoint slash_indices_from (i : nat) (s : str) : list nat :=
  match s with
  | [] => []
  | c :: s' => if is_slash c then i :: slash_indices_from (S i) s'
               else slash_indices_from (S i) s'
  end.

Definition slash_indices (s : str) : list nat := slash_indices_from 0 s.

(** [routing_key], for the build without case folding. *)
Definition routing_key (s : str) : str := s.

Definition descendant_prefix (norm : str) : option str :=
  if bool_decide (norm = []) then None else Some (norm ++ [ch_slash]).

(** ** The index of the tool layer *)

Module ReservationIndex.

Record ReservationRef := {
  agent_id : Z;
  path_pattern : str;
  exclusive : bool;
  expires_ts : Z;
}.

Abbreviation Entry := (CompiledPattern * ReservationRef)%type.

Record index := {
  exact_by_path : BTreeMap.table Entry;
  globs_by_prefix : gmap str (list Entry);
  root_globs : list Entry;
}.

Section with_globset.
Context `{Globset}.

Definition empty_index : index :=
  {| exact_by_path := BTreeMap.empty; globs_by_prefix := ∅; root_globs := [] |}.

(** One iteration of the loop of [build]. *)
Definition add_reservation (idx : index) (reservation : str * ReservationRef) : index :=
  let '(raw_pattern, rref) := reservation in
  let compiled := compile raw_pattern in
  if negb (is_glob compiled) then
    {| exact_by_path := BTreeMap.entry_push (routing_key (norm compiled)) (compiled, rref)
                          (exact_by_path idx);
       globs_by_prefix := globs_by_prefix idx; root_globs := root_globs idx |}
  else match first_literal_segment compiled with
  | Some prefix =>
      {| exact_by_path := exact_by_path idx;
         globs_by_prefix := HashBuckets.entry_push (routing_key prefix) (compiled, rref)
                              (globs_by_prefix idx);
         root_globs := root_globs idx |}
  | None =>
      {| exact_by_path := exact_by_path idx; globs_by_prefix := globs_by_prefix idx;
         root_globs := root_globs idx ++ [(compiled, rref)] |}
  end.

Definition build (reservations : list (str * ReservationRef)) : index :=
  fold_left add_reservation reservations empty_index.

(** The entries of a bucket pushed without a further test. *)
Definition all_refs (entries : list Entry) : list ReservationRef := entries.*2.

(** The entries of a bucket pushed when [res_pat.overlaps(request_pat)]. *)
Definition overlapping_refs (request_pat : CompiledPattern) (entries : list Entry)
    : list ReservationRef :=
  (filter (λ e, overlaps e.1 request_pat = true) entries).*2.

(** The test of a glob request against an exact reservation. *)
Definition matching_refs (request_pat : CompiledPattern) (entries : list Entry)
    : list ReservationRef :=
  (filter (λ e, matches request_pat (norm e.1) || overlaps e.1 request_pat = true) entries).*2.

Definition exact_bucket (idx : index) (key : str) : list Entry :=
  default [] (BTreeMap.get key (exact_by_path idx)).

Definition exact_descendants (idx : index) (key : str) : list Entry :=
  match descendant_prefix key with
  | Some p => concat (BTreeMap.scan_prefix p (exact_by_path idx))
  | None => []
  end.

Definition prefix_bucket (idx : index) (key : str) : list Entry :=
  default [] (globs_by_prefix idx !! key).

Definition scan_exact_request (idx : index) (request_pat : CompiledPattern)
    (req_norm : str) (req_prefix : option str) : list ReservationRef :=
  all_refs (exact_bucket idx (routing_key req_norm))
  ++ (if bool_decide (req_norm = []) then []
      else all_refs (exact_bucket idx (routing_key [])))
  ++ (slash_indices req_norm ≫= λ slash_idx,
        all_refs (exact_bucket idx (routing_key (take slash_idx req_norm))))
  ++ all_refs (exact_descendants idx (routing_key req_norm))
  ++ match req_prefix with
     | Some prefix => overlapping_refs request_pat (prefix_bucket idx (routing_key prefix))
     | None => HashBuckets.values (globs_by_prefix idx) ≫= overlapping_refs request_pat
     end.

Definition scan_glob_request (idx : index) (request_pat : CompiledPattern)
    (req_prefix : option str) : list ReservationRef :=
  match req_prefix with
  | Some prefix =>
      matching_refs request_pat (exact_bucket idx (routing_key prefix))
      ++ matching_refs request_pat (exact_bucket idx (routing_key []))
      ++ (slash_indices prefix ≫= λ slash_idx,
            matching_refs request_pat (exact_bucket idx (routing_key (take slash_idx prefix))))
      ++ matching_refs request_pat (exact_descendants idx (routing_key prefix))
      ++ overlapping_refs request_pat (prefix_bucket idx (routing_key prefix))
  | None =>
      (BTreeMap.values (exact_by_path idx) ≫= matching_refs request_pat)
      ++ (HashBuckets.values (globs_by_prefix idx) ≫= overlapping_refs request_pat)
  end.

Definition find_conflicts (idx : index) (request_pat : CompiledPattern) : list ReservationRef :=
  (if is_glob request_pat then
     scan_glob_request idx request_pat (first_literal_segment request_pat)
   else
     scan_exact_request idx request_pat (norm request_pat) (first_literal_segment request_pat))
  ++ overlapping_refs request_pat (root_globs idx).
End with_globset.
End ReservationIndex.

(** ** The index of the database layer *)

Module ReservationConflictIndex.

Record index := {
  exact_by_path : BTreeMap.table CompiledPattern;
  globs_by_prefix : BTreeMap.table CompiledPattern;
  root_globs : list CompiledPattern;
}.

Section with_globset.
Context `{Globset}.

Definition empty_index : index :=
  {| exact_by_path := BTreeMap.empty; globs_by_prefix := BTreeMap.empty; root_globs := [] |}.

Definition add_pattern (idx : index) (raw_pattern : str) : index :=
  let compiled := compile raw_pattern in
  if negb (is_glob compiled) then
    {| exact_by_path := BTreeMap.entry_push (norm compiled) compiled (exact_by_path idx);
       globs_by_prefix := globs_by_prefix idx; root_globs := root_globs idx |}
  else match first_literal_segment compiled with
  | Some prefix =>
      {| exact_by_path := exact_by_path idx;
         globs_by_prefix := BTreeMap.entry_push prefix compiled (globs_by_prefix idx);
         root_globs := root_globs idx |}
  | None =>
      {| exact_by_path := exact_by_path idx; globs_by_prefix := globs_by_prefix idx;
         root_globs := root_globs idx ++ [compiled] |}
  end.

Definition build (patterns : list str) : index := fold_left add_pattern patterns empty_index.

(** [iter().find(..)]. *)
Definition find_in (f : CompiledPattern → bool) (l : list CompiledPattern) : option CompiledPattern :=
  snd <$> list_find (λ p, f p = true) l.

(** [a.or_else(|| b)]. *)
Definition or_else {A} (a b : option A) : option A :=
  match a with Some x => Some x | None => b end.

(** The first [Some] of a loop that returns from inside. *)
Fixpoint first_some {A B} (f : A → option B) (l : list A) : option B :=
  match l with
  | [] => None
  | x :: l => or_else (f x) (first_some f l)
  end.

Definition exact_bucket (idx : index) (key : str) : list CompiledPattern :=
  default [] (BTreeMap.get key (exact_by_path idx)).

Definition glob_bucket (idx : index) (key : str) : list CompiledPattern :=
  default [] (BTreeMap.get key (globs_by_prefix idx)).

Definition exact_descendants (idx : index) (key : str) : list (list CompiledPattern) :=
  match descendant_prefix key with
  | Some p => BTreeMap.scan_prefix p (exact_by_path idx)
  | None => []
  end.

Definition overlap_test (request_pat pat : CompiledPattern) : bool := overlaps pat request_pat.

Definition exact_test (request_pat exact_pat : CompiledPattern) : bool :=
  matches request_pat (norm exact_pat) || overlaps exact_pat request_pat.

Definition first_exact_request_conflict (idx : index) (request_pat : CompiledPattern)
    (req_norm : str) (req_prefix : option str) : option CompiledPattern :=
  or_else (head (exact_bucket idx req_norm))
  (or_else (first_some (λ slash_idx, head (exact_bucket idx (take slash_idx req_norm)))
                       (slash_indices req_norm))
  (or_else (first_some head (exact_descendants idx req_norm))
  (match req_prefix with
   | Some prefix => find_in (overlap_test request_pat) (glob_bucket idx prefix)
   | None => find_in (overlap_test request_pat) (concat (BTreeMap.values (globs_by_prefix idx)))
   end))).

Definition first_glob_request_conflict (idx : index) (request_pat : CompiledPattern)
    (req_prefix : option str) : option CompiledPattern :=
  match req_prefix with
  | Some prefix =>
      or_else (find_in (exact_test request_pat) (exact_bucket idx prefix))
      (or_else (first_some (find_in (exact_test request_pat)) (exact_descendants idx prefix))
      (find_in (overlap_test request_pat) (glob_bucket idx prefix)))
  | None =>
      or_else (find_in (exact_test request_pat) (concat (BTreeMap.values (exact_by_path idx))))
      (find_in (overlap_test request_pat) (concat (BTreeMap.values (globs_by_prefix idx))))
  end.

Definition first_conflict (idx : index) (request_pat : CompiledPattern) : option CompiledPattern :=
  or_else
    (if is_glob request_pat then
       first_glob_request_conflict idx request_pat (first_literal_segment request_pat)
     else
       first_exact_request_conflict idx request_pat (norm request_pat)
         (first_literal_segment request_pat))
    (find_in (overlap_test request_pat) (root_globs idx)).
End with_globset.
End ReservationConflictIndex.

(** ** The interface of a conflict detector

    [first_detected held requested] is the normalised form of a held pattern
    that overlaps the requested one, if there is any.  A pattern it names is
    always one of those; that none is missed is promised only for patterns other
    than the project root, which the index of the database has no lookup for
    ([IndexWitnesses.root_reservation_missed]). *)
Class ConflictDetector `{Globset} := first_detected : list str → str → option str.

Definition not_root (raw : str) : Prop := normalize_pattern raw ≠ [].

Class ConflictDetectorLaws `{ConflictDetector} :=
  first_detected_spec held requested :
    match first_detected held requested with
    | Some n => ∃ p, p ∈ held ∧ n = norm (compile p) ∧
                     overlaps (compile p) (compile requested) = true
    | None => not_root requested → ∀ p, p ∈ held → not_root p →
              overlaps (compile p) (compile requested) = false
    end.

#[export] Instance index_detector `{Globset} : ConflictDetector := λ held requested,
  norm <$> ReservationConflictIndex.first_conflict
             (ReservationConflictIndex.build held) (compile requested).
