(* ===== verification/ReservationIndexFacts.v ===== *)
(** * The reservation indexes agree with the test of every reservation *)

From stdpp Require Import base tactics list gmap strings.
From S2P Require Import Prelude OverlapDp PatternOverlap RefGlob KeyedBuckets ReservationIndex.
Import PatternOverlap.

(** ** Which patterns can overlap *)

Section routing.
Context `{GlobsetLaws}.

(** The pieces of a normalised pattern. *)
Lemma norm_pieces raw :
  normalize_pattern raw = [] ∨
  ∃ seg more, split_on is_slash (normalize_pattern raw) = seg :: more ∧
              seg ≠ [] ∧ Forall component_ok (seg :: more).
Proof.
  destruct (normalize_components raw) as (parts & E & Hok). rewrite E.
  destruct parts as [|seg more]; [by left|]. right. exists seg, more.
  rewrite split_components by done. split_and!; [done| |done].
  apply Forall_cons in Hok as [Hs _]. by destruct Hs.
Qed.

Lemma norm_head_not_slash raw s : normalize_pattern raw ≠ ch_slash :: s.
Proof.
  intros E. destruct (norm_pieces raw) as [En|(seg & more & Hs & Hne & _)].
  - by rewrite E in En.
  - rewrite E in Hs. simpl in Hs. by simplify_eq.
Qed.

(** The first segment of a non-root pattern that is not a glob is literal. *)
Lemma exact_first_literal raw :
  is_glob (compile raw) = false → normalize_pattern raw ≠ [] →
  ∃ seg more, first_literal_segment (compile raw) = Some seg ∧
              split_on is_slash (normalize_pattern raw) = seg :: more.
Proof.
  intros Hg Hne. destruct (norm_pieces raw) as [|(seg & more & Hs & Hseg & _)]; [done|].
  exists seg, more. split; [|done]. destruct (split_on_head (normalize_pattern raw)) as [rest Hr].
  rewrite Hs in Hr. injection Hr as Hr _.
  unfold first_literal_segment. simpl. unfold first_literal_segment_end. rewrite <-Hr.
  rewrite bool_decide_false by done. simpl.
  replace (has_glob_meta seg) with false; [by rewrite Hr|].
  symmetry. apply not_true_is_false. intros Hm. simpl in Hg. apply not_true_iff_false in Hg.
  apply Hg. unfold has_glob_meta in *. apply existsb_exists in Hm as (c & Hc & Hm).
  apply existsb_exists. exists c. split; [|done]. apply list_elem_of_In.
  eapply (split_on_elem is_slash); [|by apply list_elem_of_In]. rewrite Hs. left.
Qed.

Lemma first_literal_split raw seg :
  first_literal_segment (compile raw) = Some seg →
  ∃ more, split_on is_slash (normalize_pattern raw) = seg :: more.
Proof. intros (_ & _ & ?)%first_literal_segment_spec. done. Qed.

Lemma has_glob_meta_piece s w :
  has_glob_meta s = false → w ∈ split_on is_slash s → has_glob_meta w = false.
Proof.
  intros Hs Hw. apply not_true_is_false. intros Hm. apply not_true_iff_false in Hs. apply Hs.
  unfold has_glob_meta in *. apply existsb_exists in Hm as (c & Hc & Hm).
  apply existsb_exists. exists c. split; [|done]. apply list_elem_of_In.
  eapply split_on_elem; [done|by apply list_elem_of_In].
Qed.

(** Extending a directory prefix keeps its pieces. *)
Lemma directory_prefix_pieces p full :
  p ≠ [] → is_directory_prefix p full = true →
  ∃ rest, split_on is_slash full = split_on is_slash p ++ rest ∧ full = p ++ ch_slash :: join_slash rest
          ∧ rest ≠ [].
Proof.
  intros Hne. unfold is_directory_prefix. rewrite bool_decide_false by done.
  unfold starts_with. rewrite andb_true_iff, !bool_decide_eq_true.
  intros [[k ->] Hk]. rewrite lookup_app_r, Nat.sub_diag in Hk by done.
  destruct k as [|c k]; [done|]. injection Hk as ->.
  exists (split_on is_slash k). rewrite join_split. split_and!; [|done|auto with mail].
  clear Hne. induction p as [|d p IH]; simpl; [done|].
  rewrite IH. destruct (is_slash d); [done|].
  destruct (split_on is_slash p) as [|w ws] eqn:E; [by destruct (split_on_cons_ne is_slash p)|]. done.
Qed.

Lemma directory_prefix_head p full seg more :
  split_on is_slash p = seg :: more → p ≠ [] → is_directory_prefix p full = true →
  ∃ more', split_on is_slash full = seg :: more'.
Proof.
  intros Hs Hne Hd. destruct (directory_prefix_pieces _ _ Hne Hd) as (rest & E & _).
  rewrite E, Hs. by eexists.
Qed.

Lemma split_head_ne s seg more : split_on is_slash s = seg :: more → seg ≠ [] → s ≠ [].
Proof. intros E Hne ->. simpl in E. by simplify_eq. Qed.

Lemma matcher_accepts_head raw seg path :
  first_literal_segment (compile raw) = Some seg →
  matcher_accepts (matcher (compile raw)) path = true →
  ∃ more, split_on is_slash path = seg :: more.
Proof.
  intros (Hne & Hm & more & Hs)%first_literal_segment_spec. simpl.
  destruct (has_glob_meta (normalize_pattern raw)); [|done].
  destruct (glob_build _) eqn:Hb; [|done]. simpl. intros Ha.
  by eapply glob_literal_head.
Qed.

(** Patterns whose first segments are different literals never overlap. *)
Lemma different_heads_disjoint p q sp sq :
  first_literal_segment (compile p) = Some sp → first_literal_segment (compile q) = Some sq →
  sp ≠ sq → overlaps (compile p) (compile q) = false.
Proof.
  intros Ep Eq Hne.
  destruct (first_literal_segment_spec _ _ Ep) as (Hsp & _ & mp & Hmp).
  destruct (first_literal_segment_spec _ _ Eq) as (Hsq & _ & mq & Hmq).
  rewrite overlaps_eq. unfold overlaps_formula.
  replace (literal_segments_differ (compile p) (compile q)) with true.
  2: { unfold literal_segments_differ. rewrite Ep, Eq. symmetry. by apply bool_decide_eq_true. }
  rewrite bool_decide_false by (simpl; congruence).
  destruct (is_directory_prefix (norm (compile p)) (norm (compile q))) eqn:D1.
  { destruct (directory_prefix_head _ _ _ _ Hmp (split_head_ne _ _ _ Hmp Hsp) D1) as [? E].
    simpl in E. congruence. }
  destruct (is_directory_prefix (norm (compile q)) (norm (compile p))) eqn:D2.
  { destruct (directory_prefix_head _ _ _ _ Hmq (split_head_ne _ _ _ Hmq Hsq) D2) as [? E].
    simpl in E. congruence. }
  destruct (matcher_accepts (matcher (compile p)) (norm (compile q))) eqn:M1.
  { destruct (matcher_accepts_head _ _ _ Ep M1) as [? E]. simpl in E. congruence. }
  destruct (matcher_accepts (matcher (compile q)) (norm (compile p))) eqn:M2.
  { destruct (matcher_accepts_head _ _ _ Eq M2) as [? E]. simpl in E. congruence. }
  rewrite !andb_false_r. by case_if.
Qed.

(** Two exact patterns overlap when they are equal or one is a directory above
    the other. *)
Lemma exact_overlaps p q :
  is_glob (compile p) = false → is_glob (compile q) = false →
  overlaps (compile p) (compile q) =
  bool_decide (norm (compile p) = norm (compile q))
  || is_directory_prefix (norm (compile p)) (norm (compile q))
  || is_directory_prefix (norm (compile q)) (norm (compile p)).
Proof.
  intros Gp Gq. rewrite overlaps_eq. unfold overlaps_formula. rewrite Gp, Gq.
  case_bool_decide as Hne; [done|].
  assert (common seg_star seg_overlaps (segments (compile p)) (segments (compile q)) = false) as ->.
  { simpl in *. assert (∀ r, has_glob_meta (normalize_pattern r) = false →
      compile_segment <$> split_on is_slash (normalize_pattern r) =
      Literal <$> split_on is_slash (normalize_pattern r)) as Hlit.
    { intros r Hr. apply list_fmap_ext. intros i w Hw%list_elem_of_lookup_2.
      apply compile_literal_segment. by eapply has_glob_meta_piece. }
    rewrite !Hlit by done. apply not_true_is_false. intros Hc. apply Hne, split_on_inj.
    revert Hc. generalize (split_on is_slash (normalize_pattern p)) as a.
    generalize (split_on is_slash (normalize_pattern q)) as b. clear.
    intros b a. revert b. induction a as [|x a IH]; intros [|y b]; [done..|].
    rewrite !fmap_cons, common_cons. simpl. rewrite andb_true_iff, bool_decide_eq_true.
    intros [-> ?]. f_equal. by apply IH. }
  simpl in Gp, Gq |- *. rewrite Gp, Gq. simpl.
  destruct (is_directory_prefix _ _), (is_directory_prefix _ _); simpl; try done. by case_if.
Qed.

Lemma root_overlaps p q :
  is_glob (compile p) = false → norm (compile p) = [] → overlaps (compile p) (compile q) = true.
Proof.
  intros Gp Ep. rewrite overlaps_eq. unfold overlaps_formula. rewrite Gp, Ep. simpl.
  by case_bool_decide.
Qed.

(** A matched path is an overlapping one. *)
Lemma matches_overlaps r e :
  is_glob (compile e) = false → is_glob (compile r) = true →
  matches (compile r) (norm (compile e)) = true → overlaps (compile e) (compile r) = true.
Proof.
  intros Ge Gr Hm. apply matches_glob in Hm as [Em Hm]; [|done].
  rewrite overlaps_eq. unfold overlaps_formula. rewrite Ge, Em. cbn -[compile].
  rewrite Hm. by repeat case_if.
Qed.
End routing.

(** ** Filters and permutations *)

Section filters.
Context {A : Type}.
Implicit Types (l : list A).

Lemma filter_ext_in (P Q : A → Prop) `{∀ x, Decision (P x), ∀ x, Decision (Q x)} l :
  (∀ x, x ∈ l → P x ↔ Q x) → filter P l = filter Q l.
Proof.
  induction l as [|x l IH]; intros Hl; [done|]. rewrite !filter_cons.
  rewrite IH by set_solver. specialize (Hl x ltac:(left)). repeat case_decide; naive_solver.
Qed.

Lemma filter_disjoint_app (P Q : A → Prop) `{∀ x, Decision (P x), ∀ x, Decision (Q x)} l :
  (∀ x, P x → ¬ Q x) → filter P l ++ filter Q l ≡ₚ filter (λ x, P x ∨ Q x) l.
Proof.
  intros Hd. induction l as [|x l IH]; [done|]. rewrite !filter_cons.
  specialize (Hd x). repeat case_decide; try tauto; simpl.
  - by apply Permutation_cons.
  - rewrite <-Permutation_middle. by apply Permutation_cons.
Qed.

Lemma filter_filter (P Q : A → Prop) `{∀ x, Decision (P x), ∀ x, Decision (Q x)} l :
  filter P (filter Q l) = filter (λ x, P x ∧ Q x) l.
Proof. by rewrite list_filter_filter. Qed.

Lemma filter_fmap {B} (f : A → B) (P : B → Prop) `{∀ x, Decision (P x)} l :
  filter P (f <$> l) = f <$> filter (λ x, P (f x)) l.
Proof.
  induction l as [|x l IH]; [done|]. rewrite fmap_cons, !filter_cons, IH. by case_decide.
Qed.

Lemma filter_snoc_True (P : A → Prop) `{∀ x, Decision (P x)} l x :
  P x → filter P (l ++ [x]) = filter P l ++ [x].
Proof. intros Hx. by rewrite filter_app, filter_cons_True. Qed.

Lemma filter_snoc_False (P : A → Prop) `{∀ x, Decision (P x)} l x :
  ¬ P x → filter P (l ++ [x]) = filter P l.
Proof. intros Hx. by rewrite filter_app, filter_cons_False, app_nil_r. Qed.

(** The buckets of distinct keys put together. *)
Lemma filter_keys {K} `{EqDecision K} (P : A → Prop) `{∀ x, Decision (P x)} (key : A → K) ks l :
  NoDup ks →
  (ks ≫= λ k, filter (λ x, P x ∧ key x = k) l) ≡ₚ filter (λ x, P x ∧ key x ∈ ks) l.
Proof.
  induction 1 as [|k ks Hk _ IH]; cbn.
  - rewrite BTreeMapFacts.filter_none; [done|]. intros x _ [_ ?%elem_of_nil]. done.
  - rewrite IH, filter_disjoint_app by naive_solver.
    rewrite (list_filter_iff _ (λ x, P x ∧ key x ∈ k :: ks)); [done|].
    intros x. rewrite elem_of_cons. tauto.
Qed.

#[export] Instance filter_Permutation (P : A → Prop) `{∀ x, Decision (P x)} :
  Proper ((≡ₚ) ==> (≡ₚ)) (filter (B:=list A) P).
Proof. intros l k Hlk. by apply filter_Permutation. Qed.
End filters.

(** ** Ancestors of a path *)

(** The directories above [s], that the indexes look up one by one. *)
Definition ancestors (s : str) : list str := (λ i, take i s) <$> slash_indices s.

Lemma slash_indices_from_elem i s j :
  j ∈ slash_indices_from i s ↔ i ≤ j ∧ s !! (j - i) = Some ch_slash.
Proof.
  revert i. induction s as [|c s IH]; intros i; simpl.
  - rewrite elem_of_nil, lookup_nil. naive_solver.
  - assert (j ∈ slash_indices_from (S i) s ↔ S i ≤ j ∧ (c :: s) !! (j - i) = Some ch_slash) as IH'.
    { rewrite IH. split; intros [? Hl]; (split; [lia|]).
      - replace (j - i) with (S (j - S i)) by lia. done.
      - replace (j - i) with (S (j - S i)) in Hl by lia. done. }
    unfold is_slash. destruct (N.eqb_spec c ch_slash) as [->|Hc];
      rewrite ?elem_of_cons, IH'; clear IH IH'.
    + split.
      * intros [->|[? ?]]; [by rewrite Nat.sub_diag|]. split; [lia|done].
      * intros [? ?]. destruct (decide (j = i)); [by left|right; split; [lia|done]].
    + split; intros [? Hl]; (split; [lia|done] || (split; [|done])).
      destruct (decide (j = i)) as [->|]; [|lia]. rewrite Nat.sub_diag in Hl. naive_solver.
Qed.

Lemma slash_indices_elem s i : i ∈ slash_indices s ↔ s !! i = Some ch_slash.
Proof.
  unfold slash_indices. rewrite slash_indices_from_elem, Nat.sub_0_r. split; [tauto|]. split; [lia|done].
Qed.

Lemma slash_indices_NoDup s : NoDup (slash_indices s).
Proof.
  unfold slash_indices. generalize 0 as i. induction s as [|c s IH]; intros i; simpl; [constructor|].
  case_if; [|done]. apply NoDup_cons. split; [|done].
  rewrite slash_indices_from_elem. lia.
Qed.

(** An ancestor is a directory prefix, and conversely. *)
Lemma ancestors_spec s p :
  p ∈ ancestors s ↔ p `prefix_of` s ∧ s !! length p = Some ch_slash.
Proof.
  unfold ancestors. rewrite list_elem_of_fmap. split.
  - intros (i & -> & Hi%slash_indices_elem). split; [apply prefix_take|].
    rewrite length_take_le; [done|]. by apply lookup_lt_Some in Hi; lia.
  - intros [[k ->] Hl]. exists (length p). rewrite slash_indices_elem. split; [|done].
    by rewrite take_app_length.
Qed.

Lemma ancestors_NoDup s : NoDup (ancestors s).
Proof.
  unfold ancestors. apply NoDup_fmap_2_strong; [|apply slash_indices_NoDup].
  intros i j Hi%slash_indices_elem%lookup_lt_Some Hj%slash_indices_elem%lookup_lt_Some E.
  apply (f_equal length) in E. rewrite !length_take_le in E by lia. done.
Qed.

Lemma ancestors_shorter s p : p ∈ ancestors s → p ≠ s.
Proof.
  intros [_ Hl]%ancestors_spec ->. apply lookup_lt_Some in Hl. lia.
Qed.

Lemma ancestors_directory_prefix s p :
  p ≠ [] → p ∈ ancestors s ↔ is_directory_prefix p s = true.
Proof.
  intros Hp. rewrite ancestors_spec. unfold is_directory_prefix, starts_with.
  rewrite bool_decide_false by done. by rewrite andb_true_iff, !bool_decide_eq_true.
Qed.

Lemma descendant_directory_prefix s p :
  p ≠ [] → (p ++ [ch_slash]) `prefix_of` s ↔ is_directory_prefix p s = true.
Proof.
  intros Hp. unfold is_directory_prefix, starts_with. rewrite bool_decide_false by done.
  rewrite andb_true_iff, !bool_decide_eq_true. split.
  - intros [k ->]. rewrite <-app_assoc. split; [by eexists|].
    by rewrite lookup_app_r, Nat.sub_diag.
  - intros [[k ->] Hl]. rewrite lookup_app_r, Nat.sub_diag in Hl by done.
    destruct k as [|c k]; [done|]. injection Hl as ->. exists k. by rewrite <-app_assoc.
Qed.

(** A path and its ancestors are distinct keys, none of them empty when the
    path does not start with a slash. *)
Lemma lookup_keys_NoDup raw :
  let n := normalize_pattern raw in n ≠ [] → NoDup (n :: [] :: ancestors n).
Proof.
  intros n Hn. apply NoDup_cons. split.
  { rewrite elem_of_cons. intros [?|Ha%ancestors_shorter]; done. }
  apply NoDup_cons. split; [|apply ancestors_NoDup].
  intros [_ Hl]%ancestors_spec. simpl in Hl. destruct n as [|c s] eqn:E; [done|].
  injection Hl as ->. by eapply norm_head_not_slash.
Qed.

(** ** The contents of the tool layer's index *)

Module IndexContents.
Import ReservationIndex.
Section contents.
Context `{Globset}.

Definition entry_of (r : str * ReservationRef) : Entry := (compile r.1, r.2).

Abbreviation is_exact e := (is_glob e.1 = false).
Abbreviation is_rooted e := (is_glob e.1 = true).
Abbreviation head_of e := (first_literal_segment e.1).

(** [idx] holds exactly the entries [es], each in its bucket. *)
Record holds (idx : index) (es : list Entry) : Prop := {
  holds_wf : BTreeMap.wf (exact_by_path idx);
  holds_exact : BTreeMap.flat (exact_by_path idx) ≡ₚ
    (λ e : Entry, (norm e.1, e)) <$> filter (λ e, is_exact e) es;
  holds_globs : HashBuckets.flat (globs_by_prefix idx) ≡ₚ
    (λ e : Entry, (default [] (head_of e), e)) <$>
      filter (λ e, is_rooted e ∧ head_of e ≠ None) es;
  holds_root : root_globs idx = filter (λ e, is_rooted e ∧ head_of e = None) es;
}.

Lemma build_snoc rs r : build (rs ++ [r]) = add_reservation (build rs) r.
Proof. unfold build. by rewrite fold_left_app. Qed.

Lemma holds_add idx es r : holds idx es → holds (add_reservation idx r) (es ++ [entry_of r]).
Proof.
  intros [Hwf He Hg Hr]. destruct r as [raw rref]. unfold add_reservation, entry_of. cbv [fst snd].
  generalize (compile raw) as c. intros c.
  destruct (is_glob c) eqn:E; [destruct (first_literal_segment c) as [seg|] eqn:Es|];
    split; cbn [exact_by_path globs_by_prefix root_globs negb];
    rewrite ?(filter_snoc_True (λ e : Entry, is_exact e)),
      ?(filter_snoc_False (λ e : Entry, is_exact e)),
      ?(filter_snoc_True (λ e : Entry, is_rooted e ∧ head_of e ≠ None)),
      ?(filter_snoc_False (λ e : Entry, is_rooted e ∧ head_of e ≠ None)),
      ?(filter_snoc_True (λ e : Entry, is_rooted e ∧ head_of e = None)),
      ?(filter_snoc_False (λ e : Entry, is_rooted e ∧ head_of e = None))
      by (cbn [fst]; naive_solver congruence);
    rewrite ?Hr; try done.
  - rewrite HashBucketsFacts.hash_flat_entry_push, Hg, fmap_app.
    cbn [fmap list_fmap fst]. rewrite Es. apply Permutation_cons_append.
  - by apply BTreeMapFacts.entry_push_wf.
  - rewrite BTreeMapFacts.flat_entry_push, He, fmap_app. apply Permutation_cons_append.
Qed.

Lemma holds_build rs : holds (build rs) (entry_of <$> rs).
Proof.
  induction rs as [|r rs IH] using rev_ind.
  - split; [constructor|done| |done]. unfold HashBuckets.flat. simpl. by rewrite map_to_list_empty.
  - rewrite build_snoc, fmap_app. by apply holds_add.
Qed.

Section queries.
Context (idx : index) (es : list Entry) (Hh : holds idx es).

Lemma exact_bucket_holds k :
  exact_bucket idx k ≡ₚ filter (λ e, is_exact e ∧ norm e.1 = k) es.
Proof.
  unfold exact_bucket. rewrite BTreeMapFacts.get_flat by apply Hh.
  rewrite (holds_exact _ _ Hh), filter_fmap, <-list_fmap_compose.
  rewrite list_fmap_id, filter_filter. simpl.
  erewrite list_filter_iff; [done|]. intros e. cbn. tauto.
Qed.

Lemma exact_descendants_holds k :
  k ≠ [] →
  exact_descendants idx k ≡ₚ
  filter (λ e, is_exact e ∧ is_directory_prefix k (norm e.1) = true) es.
Proof.
  intros Hk. unfold exact_descendants, descendant_prefix. rewrite bool_decide_false by done.
  rewrite BTreeMapFacts.scan_prefix_flat by apply Hh.
  rewrite (holds_exact _ _ Hh), filter_fmap, <-list_fmap_compose.
  rewrite list_fmap_id, filter_filter. simpl.
  erewrite list_filter_iff; [done|]. intros e. cbn.
  rewrite descendant_directory_prefix by done. tauto.
Qed.

Lemma prefix_bucket_holds k :
  prefix_bucket idx k ≡ₚ filter (λ e, is_rooted e ∧ head_of e = Some k) es.
Proof.
  unfold prefix_bucket. rewrite HashBucketsFacts.hash_get_flat.
  rewrite (holds_globs _ _ Hh), filter_fmap, <-list_fmap_compose.
  rewrite list_fmap_id, filter_filter. simpl.
  erewrite list_filter_iff; [done|]. intros e. cbn.
  destruct (first_literal_segment e.1); naive_solver.
Qed.

Lemma all_exact_holds : concat (BTreeMap.values (exact_by_path idx)) ≡ₚ filter (λ e, is_exact e) es.
Proof.
  rewrite BTreeMapFacts.values_flat, (holds_exact _ _ Hh), <-list_fmap_compose.
  by rewrite list_fmap_id.
Qed.

Lemma all_globs_holds :
  concat (HashBuckets.values (globs_by_prefix idx)) ≡ₚ
  filter (λ e, is_rooted e ∧ head_of e ≠ None) es.
Proof.
  rewrite HashBucketsFacts.hash_values_flat, (holds_globs _ _ Hh), <-list_fmap_compose.
  by rewrite list_fmap_id.
Qed.
End queries.

Lemma overlapping_refs_concat q (ll : list (list Entry)) :
  ll ≫= overlapping_refs q = overlapping_refs q (concat ll).
Proof.
  unfold overlapping_refs. induction ll as [|l ll IH]; [done|]. cbn. rewrite IH.
  by rewrite filter_app, fmap_app.
Qed.

Lemma matching_refs_concat q (ll : list (list Entry)) :
  ll ≫= matching_refs q = matching_refs q (concat ll).
Proof.
  unfold matching_refs. induction ll as [|l ll IH]; [done|]. cbn. rewrite IH.
  by rewrite filter_app, fmap_app.
Qed.

Lemma all_refs_bind {B} (f : B → list Entry) l : (l ≫= λ x, all_refs (f x)) = all_refs (l ≫= f).
Proof. unfold all_refs. induction l as [|x l IH]; [done|]. cbn. by rewrite IH, fmap_app. Qed.

#[export] Instance all_refs_Permutation : Proper ((≡ₚ) ==> (≡ₚ)) all_refs.
Proof. intros l k Hlk. unfold all_refs. by rewrite Hlk. Qed.
#[export] Instance overlapping_refs_Permutation q : Proper ((≡ₚ) ==> (≡ₚ)) (overlapping_refs q).
Proof. intros l k Hlk. unfold overlapping_refs. by rewrite Hlk. Qed.
#[export] Instance matching_refs_Permutation q : Proper ((≡ₚ) ==> (≡ₚ)) (matching_refs q).
Proof. intros l k Hlk. unfold matching_refs. by rewrite Hlk. Qed.

Lemma slash_bind_ancestors {B} (f : str → list B) s :
  (slash_indices s ≫= λ i, f (take i s)) = ancestors s ≫= f.
Proof.
  unfold ancestors. induction (slash_indices s) as [|i l IH]; [done|]. cbn. by rewrite <-IH.
Qed.

(** The key, the root and the ancestors together. *)
Lemma ancestor_buckets idx es raw tail :
  holds idx es → let n := normalize_pattern raw in n ≠ [] →
  exact_bucket idx n ++ exact_bucket idx [] ++ (ancestors n ≫= exact_bucket idx) ++ tail ≡ₚ
  filter (λ e, is_exact e ∧ norm e.1 ∈ n :: [] :: ancestors n) es ++ tail.
Proof.
  intros Hh n Hn. rewrite <-(filter_keys _ (λ e : Entry, norm e.1)) by (by apply lookup_keys_NoDup).
  cbn. rewrite !exact_bucket_holds by done. rewrite <-!app_assoc. do 3 f_equiv.
  induction (ancestors n) as [|k ks IH]; [done|]. cbn.
  by rewrite exact_bucket_holds, IH.
Qed.
End contents.
End IndexContents.

(** ** [find_conflicts] against the test of every reservation *)

Section find_conflicts.
Context `{GlobsetLaws}.
Import ReservationIndex IndexContents.

Abbreviation overlapping q := (λ e : Entry, overlaps e.1 q = true).

(** Every entry of the index was compiled from a pattern. *)
Definition compiled (es : list Entry) : Prop := ∀ e, e ∈ es → ∃ raw, e.1 = compile raw.

Lemma compiled_entries rs : compiled (entry_of <$> rs).
Proof. intros e ([raw r] & -> & _)%list_elem_of_fmap. by exists raw. Qed.

Lemma overlapping_refs_filter q es : overlapping_refs q es = all_refs (filter (overlapping q) es).
Proof. done. Qed.

(** An exact pattern overlaps an exact request when it is the path, one of its
    ancestors (the root included), or below it. *)
Lemma exact_exact_keys p raw :
  is_glob (compile p) = false → is_glob (compile raw) = false → normalize_pattern raw ≠ [] →
  overlaps (compile p) (compile raw) = true ↔
  (norm (compile p) ∈ norm (compile raw) :: [] :: ancestors (norm (compile raw))
   ∨ is_directory_prefix (norm (compile raw)) (norm (compile p)) = true).
Proof.
  intros Gp Gr Hn. rewrite exact_overlaps by done. rewrite !orb_true_iff, bool_decide_eq_true.
  rewrite !elem_of_cons. destruct (decide (norm (compile p) = [])) as [->|Hp].
  - unfold is_directory_prefix at 1. simpl. tauto.
  - rewrite ancestors_directory_prefix by done. tauto.
Qed.

(** A path in the lookup keys of [n] is not below it. *)
Lemma lookup_keys_not_below n k :
  n ≠ [] → k ∈ n :: [] :: ancestors n → is_directory_prefix n k = false.
Proof.
  intros Hn Hk. apply not_true_is_false. intros Hd.
  rewrite <-descendant_directory_prefix in Hd by done. apply prefix_length in Hd.
  rewrite length_app in Hd. simpl in Hd. rewrite !elem_of_cons in Hk.
  destruct Hk as [->|[->|Hk]]; simpl in *; try lia.
  apply ancestors_spec in Hk as [Hk _]. apply prefix_length in Hk. lia.
Qed.

(** A glob pattern with another literal head cannot overlap the request. *)
Lemma glob_overlap_head p raw seg :
  first_literal_segment (compile raw) = Some seg →
  overlaps (compile p) (compile raw) = true →
  first_literal_segment (compile p) = None ∨ first_literal_segment (compile p) = Some seg.
Proof.
  intros Er Ho. destruct (first_literal_segment (compile p)) as [sp|] eqn:Ep; [right|by left].
  destruct (decide (sp = seg)) as [->|Hne]; [done|].
  by rewrite (different_heads_disjoint _ _ _ _ Ep Er Hne) in Ho.
Qed.

Lemma find_conflicts_exact idx es raw :
  holds idx es → compiled es → normalize_pattern raw ≠ [] → is_glob (compile raw) = false →
  find_conflicts idx (compile raw) ≡ₚ all_refs (filter (overlapping (compile raw)) es).
Proof.
  intros Hh Hc Hn Hg. unfold find_conflicts. rewrite Hg.
  destruct (exact_first_literal raw Hg Hn) as (seg & more & Eseg & _). rewrite Eseg.
  unfold scan_exact_request, routing_key. simpl norm. rewrite bool_decide_false by done.
  rewrite all_refs_bind, (slash_bind_ancestors (exact_bucket idx)).
  rewrite !overlapping_refs_filter. unfold all_refs. rewrite <-!fmap_app. f_equiv.
  rewrite (holds_root _ _ Hh), <-!app_assoc, ancestor_buckets by done.
  rewrite exact_descendants_holds, prefix_bucket_holds by done. rewrite !filter_filter.
  rewrite !filter_disjoint_app.
  - erewrite filter_ext_in; [done|]. intros e He. destruct (Hc e He) as [p Ep].
    cbn beta. rewrite Ep. destruct (is_glob (compile p)) eqn:Gp.
    + pose proof (glob_overlap_head p raw seg Eseg). naive_solver.
    + pose proof (exact_exact_keys p raw Gp Hg Hn) as Hk. simpl norm in Hk |- *.
      naive_solver.
  - intros e [Ge Hk]. pose proof (lookup_keys_not_below _ _ Hn Hk). naive_solver congruence.
  - naive_solver congruence.
  - naive_solver congruence.
Qed.

(** A glob request with a literal head meets only exact paths under that head. *)
Lemma glob_exact_keys p raw seg :
  is_glob (compile p) = false → is_glob (compile raw) = true →
  first_literal_segment (compile raw) = Some seg →
  overlaps (compile p) (compile raw) = true →
  norm (compile p) = seg ∨ norm (compile p) = [] ∨
  is_directory_prefix seg (norm (compile p)) = true.
Proof.
  intros Gp Gr Er Ho. destruct (decide (normalize_pattern p = [])) as [|Hn]; [by right; left|].
  destruct (exact_first_literal p Gp Hn) as (sp & more & Ep & Hs).
  destruct (decide (sp = seg)) as [->|Hne].
  - destruct (first_literal_segment_spec _ _ Ep) as (Hseg & _).
    simpl norm. rewrite <-(join_split (normalize_pattern p)), Hs.
    destruct more as [|w ws]; [by left|right; right].
    rewrite <-descendant_directory_prefix by done. rewrite join_slash_cons2.
    exists (join_slash (w :: ws)). by rewrite <-app_assoc.
  - by rewrite (different_heads_disjoint _ _ _ _ Ep Er Hne) in Ho.
Qed.

Lemma head_no_slash raw seg : first_literal_segment (compile raw) = Some seg → slash_indices seg = [].
Proof.
  intros (more & Hs)%first_literal_split.
  destruct (slash_indices seg) as [|i l] eqn:E; [done|]. exfalso.
  assert (i ∈ slash_indices seg) as Hi by (rewrite E; left).
  apply slash_indices_elem, list_elem_of_lookup_2 in Hi.
  assert (seg ∈ split_on is_slash (normalize_pattern raw)) as Hw by (rewrite Hs; left).
  by apply (split_on_pieces _ _ _ Hw) in Hi.
Qed.

Lemma matching_refs_filter raw es :
  compiled es → is_glob (compile raw) = true →
  ∀ (P : Entry → Prop) `{!∀ e, Decision (P e)}, (∀ e, P e → is_glob e.1 = false) →
  matching_refs (compile raw) (filter P es) = all_refs (filter (λ e, P e ∧ overlapping (compile raw) e) es).
Proof.
  intros Hc Hg P ? HP. unfold matching_refs, all_refs. f_equal. rewrite filter_filter.
  apply filter_ext_in. intros e He. destruct (Hc e He) as [p Ep].
  rewrite orb_true_iff, Ep. split; [|naive_solver].
  intros [[Hm|Ho] HPe]; [|done]. split; [done|].
  apply matches_overlaps; [|done..]. rewrite <-Ep. by apply HP.
Qed.

Lemma find_conflicts_glob_prefix idx es raw seg :
  holds idx es → compiled es → is_glob (compile raw) = true →
  first_literal_segment (compile raw) = Some seg →
  find_conflicts idx (compile raw) ≡ₚ all_refs (filter (overlapping (compile raw)) es).
Proof.
  intros Hh Hc Hg Es. destruct (first_literal_segment_spec _ _ Es) as (Hne & _).
  unfold find_conflicts, scan_glob_request, routing_key. rewrite Hg, Es.
  rewrite (head_no_slash _ _ Es). cbn [mbind list_bind app].
  rewrite !exact_bucket_holds, exact_descendants_holds, prefix_bucket_holds by done.
  rewrite (holds_root _ _ Hh).
  rewrite !(matching_refs_filter raw) by (naive_solver || done).
  rewrite !overlapping_refs_filter. unfold all_refs. rewrite <-!fmap_app, <-!app_assoc. f_equiv.
  rewrite !filter_filter, !filter_disjoint_app.
  - erewrite filter_ext_in; [done|]. intros e He. destruct (Hc e He) as [p Ep].
    cbn beta. rewrite Ep. destruct (is_glob (compile p)) eqn:Gp.
    + pose proof (glob_overlap_head p raw seg Es). naive_solver.
    + pose proof (glob_exact_keys p raw seg Gp Hg Es). naive_solver.
  - intros e [[Ge Hk] _]. rewrite Hk.
    assert (is_directory_prefix seg seg = false) by (apply lookup_keys_not_below; [done|left]).
    intros ?; destruct_or?; destruct_and?; congruence.
  - intros e [[Ge Hk] _]. rewrite Hk. unfold is_directory_prefix. rewrite bool_decide_false by done.
    unfold starts_with. rewrite lookup_nil, andb_false_r. intros ?; destruct_or?; destruct_and?; congruence.
  - intros e ??; destruct_or?; destruct_and?; congruence.
  - intros e ??; destruct_or?; destruct_and?; congruence.
Qed.

Lemma find_conflicts_glob_root idx es raw :
  holds idx es → compiled es → is_glob (compile raw) = true →
  first_literal_segment (compile raw) = None →
  find_conflicts idx (compile raw) ≡ₚ all_refs (filter (overlapping (compile raw)) es).
Proof.
  intros Hh Hc Hg Es. unfold find_conflicts, scan_glob_request. rewrite Hg, Es.
  rewrite matching_refs_concat, overlapping_refs_concat, all_exact_holds, all_globs_holds by done.
  rewrite (holds_root _ _ Hh), (matching_refs_filter raw), !overlapping_refs_filter by done.
  unfold all_refs. rewrite <-!fmap_app, <-!app_assoc. f_equiv.
  rewrite !filter_filter, !filter_disjoint_app by naive_solver congruence.
  erewrite filter_ext_in; [done|]. intros e He.
  destruct (is_glob e.1), (first_literal_segment e.1); naive_solver.
Qed.

(** the index answers exactly what testing every reservation would, each
    reservation as often as it was inserted: for every request that is not the
    project root, [find_conflicts] lists, up to order, the reservations whose
    pattern overlaps the request. *)
Theorem find_conflicts_spec rs raw :
  normalize_pattern raw ≠ [] →
  find_conflicts (build rs) (compile raw) ≡ₚ
  (filter (λ r, overlaps (compile r.1) (compile raw) = true) rs).*2.
Proof.
  intros Hn. trans (all_refs (filter (overlapping (compile raw)) (entry_of <$> rs))).
  - destruct (is_glob (compile raw)) eqn:Hg.
    + destruct (first_literal_segment (compile raw)) eqn:Es.
      * eapply find_conflicts_glob_prefix; eauto using holds_build, compiled_entries.
      * eapply find_conflicts_glob_root; eauto using holds_build, compiled_entries.
    + apply find_conflicts_exact; eauto using holds_build, compiled_entries.
  - unfold all_refs. rewrite filter_fmap, <-list_fmap_compose. done.
Qed.
End find_conflicts.

(** ** The index of the database layer detects the same conflicts *)

Module ConflictIndexContents.
Import ReservationConflictIndex.

(** The lookups in order are the head of one list of candidates. *)
Lemma or_else_head {A} (l k : list A) : or_else (head l) (head k) = head (l ++ k).
Proof. by destruct l. Qed.

Lemma first_some_head {A B} (f : A → list B) l : first_some (λ x, head (f x)) l = head (l ≫= f).
Proof.
  induction l as [|x l IH]; [done|]. cbn [first_some]. by rewrite IH, or_else_head.
Qed.

Lemma first_some_concat {A} (ll : list (list A)) : first_some head ll = head (concat ll).
Proof.
  induction ll as [|l ll IH]; [done|]. cbn [first_some]. by rewrite IH, or_else_head.
Qed.

Lemma find_in_head f l : find_in f l = head (filter (λ c, f c = true) l).
Proof.
  unfold find_in. induction l as [|c l IH]; [done|]. cbn [list_find]. rewrite filter_cons.
  case_decide; [done|]. rewrite <-IH. by destruct (list_find _ l).
Qed.

Lemma first_find_in f ll :
  first_some (find_in f) ll = head (filter (λ c, f c = true) (concat ll)).
Proof.
  induction ll as [|l ll IH]; [done|]. cbn [first_some].
  by rewrite IH, find_in_head, or_else_head, <-filter_app.
Qed.

Section contents.
Context `{GlobsetLaws}.

Record holds (idx : index) (cs : list CompiledPattern) : Prop := {
  holds_exact_wf : BTreeMap.wf (exact_by_path idx);
  holds_globs_wf : BTreeMap.wf (globs_by_prefix idx);
  holds_exact : ∀ k c, (k, c) ∈ BTreeMap.flat (exact_by_path idx) ↔
    c ∈ cs ∧ is_glob c = false ∧ k = norm c;
  holds_globs : ∀ k c, (k, c) ∈ BTreeMap.flat (globs_by_prefix idx) ↔
    c ∈ cs ∧ is_glob c = true ∧ first_literal_segment c = Some k;
  holds_root : ∀ c, c ∈ root_globs idx ↔
    c ∈ cs ∧ is_glob c = true ∧ first_literal_segment c = None;
}.

Lemma conflict_holds_build held : holds (build held) (compile <$> held).
Proof.
  unfold build. induction held as [|raw held IH] using rev_ind.
  { split; simpl; [constructor|constructor|..]; intros; rewrite ?elem_of_nil;
      unfold BTreeMap.flat; simpl; rewrite ?elem_of_nil; naive_solver. }
  rewrite fold_left_app, fmap_app. simpl. revert IH.
  generalize (fold_left add_pattern held empty_index) as idx.
  generalize (compile <$> held) as cs. intros cs idx [Hw1 Hw2 He Hg Hr]. unfold add_pattern.
  generalize (compile raw) as c. clear held raw. intros c.
  destruct (is_glob c) eqn:Hc; [destruct (first_literal_segment c) eqn:Es|];
    split; cbn [negb exact_by_path globs_by_prefix root_globs]; try done;
    try (by apply BTreeMapFacts.entry_push_wf); intros;
    rewrite ?BTreeMapFacts.flat_entry_push, ?elem_of_cons, ?elem_of_app, ?He, ?Hg, ?Hr,
      ?list_elem_of_singleton; naive_solver congruence.
Qed.

Section queries.
Context (idx : index) (cs : list CompiledPattern) (Hh : holds idx cs).

Lemma elem_exact_bucket k c : c ∈ exact_bucket idx k ↔ c ∈ cs ∧ is_glob c = false ∧ norm c = k.
Proof.
  unfold exact_bucket. rewrite BTreeMapFacts.get_flat by apply Hh. rewrite list_elem_of_fmap. split.
  - intros ([k' c'] & -> & [Hk Hin]%list_elem_of_filter). simpl in *. subst k'.
    apply (holds_exact _ _ Hh) in Hin. naive_solver.
  - intros Hc. exists (k, c). split; [done|]. apply list_elem_of_filter.
    rewrite (holds_exact _ _ Hh). naive_solver.
Qed.

Lemma elem_glob_bucket k c :
  c ∈ glob_bucket idx k ↔ c ∈ cs ∧ is_glob c = true ∧ first_literal_segment c = Some k.
Proof.
  unfold glob_bucket. rewrite BTreeMapFacts.get_flat by apply Hh. rewrite list_elem_of_fmap. split.
  - intros ([k' c'] & -> & [Hk Hin]%list_elem_of_filter). simpl in *. subst k'.
    apply (holds_globs _ _ Hh) in Hin. naive_solver.
  - intros Hc. exists (k, c). split; [done|]. apply list_elem_of_filter.
    rewrite (holds_globs _ _ Hh). naive_solver.
Qed.

Lemma elem_exact_descendants k c :
  k ≠ [] → c ∈ concat (exact_descendants idx k) ↔
  c ∈ cs ∧ is_glob c = false ∧ is_directory_prefix k (norm c) = true.
Proof.
  intros Hk. unfold exact_descendants, descendant_prefix. rewrite bool_decide_false by done.
  rewrite BTreeMapFacts.scan_prefix_flat by apply Hh. rewrite list_elem_of_fmap. split.
  - intros ([k' c'] & -> & [Hp Hin]%list_elem_of_filter). simpl in *.
    apply (holds_exact _ _ Hh) in Hin as (? & ? & ->).
    by rewrite <-descendant_directory_prefix.
  - intros (? & ? & Hd). exists (norm c, c). split; [done|]. apply list_elem_of_filter.
    rewrite (holds_exact _ _ Hh). simpl. by rewrite descendant_directory_prefix.
Qed.

Lemma elem_all_exact c :
  c ∈ concat (BTreeMap.values (exact_by_path idx)) ↔ c ∈ cs ∧ is_glob c = false.
Proof.
  rewrite BTreeMapFacts.values_flat, list_elem_of_fmap. split.
  - intros ([k' c'] & -> & Hin). apply (holds_exact _ _ Hh) in Hin. naive_solver.
  - intros [??]. exists (norm c, c). by rewrite (holds_exact _ _ Hh).
Qed.

Lemma elem_all_globs c :
  c ∈ concat (BTreeMap.values (globs_by_prefix idx)) ↔
  c ∈ cs ∧ is_glob c = true ∧ first_literal_segment c ≠ None.
Proof.
  rewrite BTreeMapFacts.values_flat, list_elem_of_fmap. split.
  - intros ([k' c'] & -> & Hin). apply (holds_globs _ _ Hh) in Hin as (? & ? & E).
    simpl. by rewrite E.
  - intros (? & ? & E). destruct (first_literal_segment c) as [k|] eqn:Ek; [|done].
    exists (k, c). by rewrite (holds_globs _ _ Hh).
Qed.
End queries.

(** The list whose head [first_conflict] is. *)
Definition candidates (idx : index) (q : CompiledPattern) : list CompiledPattern :=
  (if is_glob q then
     match first_literal_segment q with
     | Some prefix =>
         filter (λ c, exact_test q c = true) (exact_bucket idx prefix)
         ++ filter (λ c, exact_test q c = true) (concat (exact_descendants idx prefix))
         ++ filter (λ c, overlap_test q c = true) (glob_bucket idx prefix)
     | None =>
         filter (λ c, exact_test q c = true) (concat (BTreeMap.values (exact_by_path idx)))
         ++ filter (λ c, overlap_test q c = true) (concat (BTreeMap.values (globs_by_prefix idx)))
     end
   else
     exact_bucket idx (norm q) ++ (ancestors (norm q) ≫= exact_bucket idx)
     ++ concat (exact_descendants idx (norm q))
     ++ match first_literal_segment q with
        | Some prefix => filter (λ c, overlap_test q c = true) (glob_bucket idx prefix)
        | None => filter (λ c, overlap_test q c = true) (concat (BTreeMap.values (globs_by_prefix idx)))
        end)
  ++ filter (λ c, overlap_test q c = true) (root_globs idx).

Lemma first_conflict_head idx q : first_conflict idx q = head (candidates idx q).
Proof.
  unfold first_conflict, first_glob_request_conflict, first_exact_request_conflict, candidates.
  rewrite (first_some_head (λ i, exact_bucket idx (take i (norm q)))).
  rewrite (IndexContents.slash_bind_ancestors (exact_bucket idx)).
  rewrite first_some_concat. destruct (is_glob q), (first_literal_segment q);
    rewrite ?first_find_in, ?find_in_head, ?or_else_head, ?app_assoc; done.
Qed.

Section first_conflict.
Context (held : list str) (raw : str).

Lemma exact_test_overlaps p :
  is_glob (compile p) = false → is_glob (compile raw) = true →
  exact_test (compile raw) (compile p) = overlaps (compile p) (compile raw).
Proof.
  intros Gp Gr. unfold exact_test. destruct (matches _ _) eqn:Hm; [|done].
  by rewrite matches_overlaps.
Qed.

(** The candidates are held patterns, *)
Lemma elem_any_descendants k c :
  c ∈ concat (exact_descendants (build held) k) →
  c ∈ compile <$> held ∧ is_glob c = false ∧ is_directory_prefix k (norm c) = true.
Proof.
  destruct (decide (k = [])) as [->|Hk].
  - by intros ?%elem_of_nil.
  - by intros ?%(elem_exact_descendants _ _ (conflict_holds_build held)).
Qed.

Ltac open_descendants :=
  repeat match goal with
  | Hd : _ ∈ concat (exact_descendants _ _) |- _ => apply elem_any_descendants in Hd as (? & ? & ?)
  end.

Lemma candidates_held c : c ∈ candidates (build held) (compile raw) → c ∈ compile <$> held.
Proof.
  pose proof (conflict_holds_build held) as Hh. unfold candidates.
  destruct (is_glob _), (first_literal_segment _); rewrite !elem_of_app, ?list_elem_of_filter,
    ?list_elem_of_bind, ?(elem_exact_bucket _ _ Hh), ?(elem_glob_bucket _ _ Hh),
    ?(holds_root _ _ Hh), ?(elem_all_exact _ _ Hh), ?(elem_all_globs _ _ Hh);
    try setoid_rewrite (elem_exact_bucket _ _ Hh); intros; destruct_or?; destruct_and?; open_descendants;
    naive_solver.
Qed.

(** and all of them overlap the request. *)
Lemma exact_candidates_overlap p :
  is_glob (compile raw) = false → is_glob (compile p) = false →
  norm (compile p) = norm (compile raw) ∨ norm (compile p) ∈ ancestors (norm (compile raw)) ∨
  is_directory_prefix (norm (compile raw)) (norm (compile p)) = true →
  overlaps (compile p) (compile raw) = true.
Proof.
  intros Gr Gp Hk. destruct (decide (norm (compile p) = [])) as [E|Hn]; [by apply root_overlaps|].
  rewrite exact_overlaps, !orb_true_iff, bool_decide_eq_true, <-ancestors_directory_prefix by done.
  tauto.
Qed.

Lemma candidates_overlap p :
  compile p ∈ candidates (build held) (compile raw) → overlaps (compile p) (compile raw) = true.
Proof.
  pose proof (conflict_holds_build held) as Hh. unfold candidates, overlap_test.
  destruct (is_glob (compile raw)) eqn:Hg; [|pose proof (exact_candidates_overlap p Hg)];
    destruct (first_literal_segment _); rewrite !elem_of_app, ?list_elem_of_filter,
    ?list_elem_of_bind, ?(elem_exact_bucket _ _ Hh), ?(elem_all_exact _ _ Hh);
    try setoid_rewrite (elem_exact_bucket _ _ Hh); intros; destruct_or?; destruct_and?; open_descendants;
    rewrite <-?exact_test_overlaps by done; naive_solver.
Qed.

(** For a request other than the root, those that are not the root are all
    the held patterns that overlap it. *)
Lemma candidates_complete p :
  not_root raw → not_root p → p ∈ held → overlaps (compile p) (compile raw) = true →
  compile p ∈ candidates (build held) (compile raw).
Proof.
  intros Hraw Hp Hin Ho. pose proof (conflict_holds_build held) as Hh.
  assert (compile p ∈ compile <$> held) as Hc by by apply list_elem_of_fmap_2.
  unfold candidates, overlap_test. rewrite elem_of_app, list_elem_of_filter, (holds_root _ _ Hh).
  destruct (is_glob (compile raw)) eqn:Hg.
  - destruct (first_literal_segment (compile raw)) as [seg|] eqn:Es.
    + destruct (first_literal_segment_spec _ _ Es) as (Hseg & _).
      rewrite !elem_of_app, !list_elem_of_filter, (elem_exact_bucket _ _ Hh),
        (elem_exact_descendants _ _ Hh), (elem_glob_bucket _ _ Hh) by done.
      destruct (is_glob (compile p)) eqn:Gp.
      * pose proof (glob_overlap_head p raw seg Es). naive_solver.
      * rewrite exact_test_overlaps by done. pose proof (glob_exact_keys p raw seg Gp Hg Es).
        unfold not_root in *. simpl norm in *. naive_solver.
    + rewrite !elem_of_app, !list_elem_of_filter, (elem_all_exact _ _ Hh), (elem_all_globs _ _ Hh).
      destruct (is_glob (compile p)) eqn:Gp.
      * destruct (first_literal_segment (compile p)); naive_solver.
      * rewrite exact_test_overlaps by done. naive_solver.
  - destruct (exact_first_literal raw Hg Hraw) as (seg & more & Es & _). rewrite Es.
    rewrite !elem_of_app, !list_elem_of_filter, (elem_exact_bucket _ _ Hh), list_elem_of_bind,
      (elem_exact_descendants _ _ Hh), (elem_glob_bucket _ _ Hh) by done.
    setoid_rewrite (elem_exact_bucket _ _ Hh). destruct (is_glob (compile p)) eqn:Gp.
    + pose proof (glob_overlap_head p raw seg Es). naive_solver.
    + pose proof (exact_exact_keys p raw Gp Hg Hraw) as Hk. rewrite !elem_of_cons in Hk.
      unfold not_root in *. simpl norm in *. naive_solver.
Qed.

(** What [first_conflict] returns, on both branches. *)
Lemma first_conflict_result :
  match first_conflict (build held) (compile raw) with
  | Some c => (∃ p, p ∈ held ∧ c = compile p) ∧ overlaps c (compile raw) = true
  | None => not_root raw → ∀ p, p ∈ held → not_root p → overlaps (compile p) (compile raw) = false
  end.
Proof.
  rewrite first_conflict_head.
  destruct (candidates (build held) (compile raw)) as [|c l] eqn:E; simpl.
  - intros Hraw p Hp Hn. apply not_true_is_false. intros Ho.
    pose proof (candidates_complete p Hraw Hn Hp Ho) as Hin.
    rewrite E in Hin. by apply elem_of_nil in Hin.
  - assert (c ∈ candidates (build held) (compile raw)) as Hin by (rewrite E; left).
    pose proof (candidates_held _ Hin) as (p & -> & Hp)%list_elem_of_fmap.
    apply candidates_overlap in Hin. eauto.
Qed.
End first_conflict.

#[export] Instance index_detector_laws : ConflictDetectorLaws.
Proof.
  intros held raw. unfold first_detected, index_detector.
  pose proof (first_conflict_result held raw) as Hr.
  destruct (first_conflict _ _); simpl; naive_solver.
Qed.

(** the write transaction's index misses nothing and invents nothing: a
    request other than the project root conflicts with the index of held
    patterns when it overlaps one of them that is not the root, and the pattern
    it returns is always a held one that overlaps it. *)
Theorem first_conflict_spec held raw :
  (not_root raw → Exists (λ p, not_root p ∧ overlaps (compile p) (compile raw) = true) held →
   is_Some (first_conflict (build held) (compile raw))) ∧
  (∀ c, first_conflict (build held) (compile raw) = Some c →
   c ∈ compile <$> held ∧ overlaps c (compile raw) = true).
Proof.
  pose proof (first_conflict_result held raw) as Hr.
  rewrite Exists_exists. destruct (first_conflict _ _) as [c|].
  - destruct Hr as [(p & Hp & ->) Ho]. split; [done|].
    intros ? [= <-]. split; [by apply list_elem_of_fmap_2|done].
  - split; [|done]. intros Hraw (p & Hp & Hn & Ho). by rewrite (Hr Hraw p) in Ho.
Qed.
End contents.
End ConflictIndexContents.

(** ** Instances *)

Module IndexWitnesses.
Import RefGlob.

Definition held_ref (agent : Z) (p : string) : str * ReservationIndex.ReservationRef :=
  (lit p, {| ReservationIndex.agent_id := agent; ReservationIndex.path_pattern := lit p;
             ReservationIndex.exclusive := true; ReservationIndex.expires_ts := 0 |}).

Definition held_refs : list (str * ReservationIndex.ReservationRef) :=
  [held_ref 1 "src"; held_ref 2 "src/*.rs"; held_ref 3 "**/main.rs"; held_ref 4 "docs/a.md"].

(** A request below [src] conflicts with the directory, the glob and the root
    glob, and not with the document. *)
Lemma find_conflicts_spec_witness :
  ReservationIndex.agent_id <$>
    ReservationIndex.find_conflicts (ReservationIndex.build held_refs) (compile (lit "./src/main.rs"))
  ≡ₚ [1; 2; 3]%Z.
Proof.
  rewrite (find_conflicts_spec held_refs (lit "./src/main.rs")) by (vm_compute; discriminate).
  vm_compute. reflexivity.
Defined.

Lemma first_conflict_spec_witness :
  is_Some (ReservationConflictIndex.first_conflict
             (ReservationConflictIndex.build [lit "docs"; lit "src/*.rs"])
             (compile (lit "src/main.rs"))).
Proof.
  apply ConflictIndexContents.first_conflict_spec.
  - vm_compute; discriminate.
  - apply Exists_cons_tl, Exists_cons_hd. split; [vm_compute; discriminate|vm_compute; reflexivity].
Defined.

(** The two indexes treat the project root differently: a reservation of the
    root overlaps every path and the tool's index reports it, while the index
    of the write transaction has no lookup for it. *)
Lemma root_reservation_missed :
  overlaps (compile (lit ".")) (compile (lit "src/main.rs")) = true ∧
  ReservationIndex.find_conflicts (ReservationIndex.build [held_ref 1 "."])
    (compile (lit "src/main.rs")) ≠ [] ∧
  ReservationConflictIndex.first_conflict (ReservationConflictIndex.build [lit "."])
    (compile (lit "src/main.rs")) = None.
Proof. vm_compute. split_and!; [reflexivity|discriminate|reflexivity]. Qed.

(** A request for the root itself misses the exact reservations below it in
    both indexes. *)
Lemma root_request_missed :
  overlaps (compile (lit "src")) (compile (lit ".")) = true ∧
  ReservationIndex.find_conflicts (ReservationIndex.build [held_ref 1 "src"]) (compile (lit ".")) = [] ∧
  ReservationConflictIndex.first_conflict (ReservationConflictIndex.build [lit "src"])
    (compile (lit ".")) = None.
Proof. vm_compute. split_and!; reflexivity. Qed.

(** The overlap test of a literal directory against a glob without a literal
    head misses the files below the directory. *)
Lemma literal_directory_missed :
  overlaps (compile (lit "src")) (compile (lit "*/foo.rs")) = false ∧
  is_directory_prefix (lit "src") (lit "src/foo.rs") = true ∧
  matches (compile (lit "*/foo.rs")) (lit "src/foo.rs") = true.
Proof. vm_compute. split_and!; reflexivity. Qed.
End IndexWitnesses.
