(* ===== verification/Timestamps.v ===== *)
(** * The clock ([mcp-agent-mail-core/src/timestamps.rs])

    [now_micros] hands out the timestamps the whole system stores.  Its two
    atomic read-modify-writes are modelled as separate steps of a transition
    system with any number of threads, so the theorems cover every
    interleaving.  The two skew counters are relaxed statistics and move with
    the first step.  [chrono] is a parameter. *)

From stdpp Require Import base tactics list gmap sorting.
From S2P Require Import Prelude.
Open Scope Z_scope.

Module Timestamps.

Definition MICROS_PER_SECOND : Z := 1000000.
Definition BACKWARD_JUMP_THRESHOLD_US : Z := 1000000.
Definition FORWARD_JUMP_THRESHOLD_US : Z := 300000000.

(** The statics of the module. *)
Record ClockSkewMetrics := {
  backward_jumps : Z;
  forward_jumps : Z;
  last_system_time_us : Z;
}.

Definition clock_skew_reset : ClockSkewMetrics :=
  {| backward_jumps := 0; forward_jumps := 0; last_system_time_us := 0 |}.

(** The first read-modify-write of [now_micros], [fetch_max], with the counters
    and the early return.  [None]: the call goes on to [fetch_add]. *)
Definition observe (current : Z) (m : ClockSkewMetrics) : option Z * ClockSkewMetrics :=
  let prev := last_system_time_us m in
  let delta := current - prev in
  let back := if bool_decide (prev ≠ 0 ∧ delta < - BACKWARD_JUMP_THRESHOLD_US)
              then backward_jumps m + 1 else backward_jumps m in
  let fwd := if bool_decide (prev ≠ 0 ∧ FORWARD_JUMP_THRESHOLD_US < delta)
             then forward_jumps m + 1 else forward_jumps m in
  (if bool_decide (prev < current) then Some current else None,
   {| backward_jumps := back; forward_jumps := fwd;
      last_system_time_us := Z.max prev current |}).

(** The second one, [fetch_add(1) + 1]. *)
Definition bump (m : ClockSkewMetrics) : Z * ClockSkewMetrics :=
  (last_system_time_us m + 1,
   {| backward_jumps := backward_jumps m; forward_jumps := forward_jumps m;
      last_system_time_us := last_system_time_us m + 1 |}).

(** A call that no other thread interleaves with. *)
Definition now_micros (current : Z) (m : ClockSkewMetrics) : Z * ClockSkewMetrics :=
  match observe current m with
  | (Some v, m') => (v, m')
  | (None, m') => bump m'
  end.

(** ** Interleaved calls *)

(** The threads between their two steps, and the values returned so far, the
    latest first. *)
Record Sys := {
  metrics : ClockSkewMetrics;
  bumping : gset nat;
  returned : list (nat * Z);
}.

Definition initial : Sys := {| metrics := clock_skew_reset; bumping := ∅; returned := [] |}.

Inductive step : Sys → Sys → Prop :=
  | step_fast s t current v m :
      t ∉ bumping s → observe current (metrics s) = (Some v, m) →
      step s {| metrics := m; bumping := bumping s; returned := (t, v) :: returned s |}
  | step_slow s t current m :
      t ∉ bumping s → observe current (metrics s) = (None, m) →
      step s {| metrics := m; bumping := {[t]} ∪ bumping s; returned := returned s |}
  (** an [i64] has room until the year 294247 *)
  | step_bump s t v m :
      t ∈ bumping s → last_system_time_us (metrics s) < i64_max → bump (metrics s) = (v, m) →
      step s {| metrics := m; bumping := bumping s ∖ {[t]}; returned := (t, v) :: returned s |}.

Definition reachable (s : Sys) : Prop := rtc step initial s.

(** The latest value returned is below the high-water mark, and the values were
    returned in increasing order. *)
Definition ordered (s : Sys) : Prop :=
  Forall (λ r, r.2 ≤ last_system_time_us (metrics s)) (returned s) ∧
  StronglySorted (λ r1 r2 : nat * Z, r2.2 < r1.2) (returned s).

Lemma observe_some current m v m' :
  observe current m = (Some v, m') →
  last_system_time_us m < v ∧ last_system_time_us m' = v.
Proof.
  unfold observe. case_bool_decide; intros [= <- <-]; simpl. lia.
Qed.

Lemma observe_none current m m' :
  observe current m = (None, m') → last_system_time_us m' = last_system_time_us m.
Proof. unfold observe. case_bool_decide; intros [= <-]; simpl. lia. Qed.

Lemma ordered_push s t v m B :
  ordered s → last_system_time_us (metrics s) < v → last_system_time_us m = v →
  ordered {| metrics := m; bumping := B; returned := (t, v) :: returned s |}.
Proof.
  intros [Hle Hs] Hv Hm. split; simpl.
  - constructor; [simpl; lia|]. eapply Forall_impl; [exact Hle|]. simpl. intros; lia.
  - constructor; [done|]. eapply Forall_impl; [exact Hle|]. simpl. intros; lia.
Qed.

Lemma step_ordered s s' : step s s' → ordered s → ordered s'.
Proof.
  destruct 1 as [s t current v m Ht Ho|s t current m Ht Ho|s t v m Ht Hlt Hb]; intros Hs.
  - apply observe_some in Ho as [? ?]. by eapply ordered_push.
  - apply observe_none in Ho. destruct Hs as [Hle Hs]. split; simpl; [|done]. by rewrite Ho.
  - injection Hb as <- <-. eapply ordered_push; [done| |done]. simpl. lia.
Qed.

(** C38: however the threads interleave, and whatever the wall clock does
    (standing still or jumping backwards included), every value [now_micros]
    returns is larger than all those returned before it; in particular no two
    calls ever return the same timestamp. *)
Theorem now_micros_increasing s :
  reachable s → StronglySorted (λ r1 r2 : nat * Z, r2.2 < r1.2) (returned s).
Proof.
  intros Hr. assert (ordered initial) as H0 by (split; constructor).
  enough (ordered s) as [_ ?]; [done|].
  induction Hr as [|s1 s2 s3 Hstep _ IH]; [done|]. by eapply IH, step_ordered.
Qed.

(** A backward jump of the wall clock, seen by another thread. *)
Lemma now_micros_increasing_witness :
  StronglySorted (λ r1 r2 : nat * Z, r2.2 < r1.2) [(2%nat, 5000001); (1%nat, 5000000)].
Proof.
  pose (s1 := {| metrics := {| backward_jumps := 0; forward_jumps := 0; last_system_time_us := 5000000 |};
                 bumping := ∅; returned := [(1%nat, 5000000)] |}).
  pose (s2 := {| metrics := {| backward_jumps := 1; forward_jumps := 0; last_system_time_us := 5000000 |};
                 bumping := {[2%nat]} ∪ ∅; returned := [(1%nat, 5000000)] |}).
  pose (s3 := {| metrics := {| backward_jumps := 1; forward_jumps := 0; last_system_time_us := 5000001 |};
                 bumping := ({[2%nat]} ∪ ∅) ∖ {[2%nat]};
                 returned := [(2%nat, 5000001); (1%nat, 5000000)] |}).
  apply (now_micros_increasing s3).
  apply (rtc_l _ _ s1); [|apply (rtc_l _ _ s2); [|apply (rtc_l _ _ s3); [|apply rtc_refl]]].
  - refine (step_fast initial 1%nat 5000000 _ _ _ _); [set_solver|reflexivity].
  - refine (step_slow s1 2%nat 1000000 _ _ _); [set_solver|reflexivity].
  - refine (step_bump s2 2%nat _ _ _ _ _); [set_solver|vm_compute; reflexivity|reflexivity].
Defined.

(** ** Conversions *)

(** [chrono]: [Utc.timestamp_opt(secs, nsecs).single()], the two extreme dates
    and [timestamp_micros]. *)
Class Chrono := {
  DateTime : Type;
  timestamp_opt : Z → Z → option DateTime;
  MIN_UTC : DateTime;
  MAX_UTC : DateTime;
  timestamp_micros : DateTime → Z;
}.

(** A date built from seconds and nanoseconds reports them in microseconds. *)
Class ChronoLaws `{Chrono} :=
  timestamp_micros_opt secs nsecs d :
    0 ≤ nsecs < 1000000000 → timestamp_opt secs nsecs = Some d →
    timestamp_micros d = secs * 1000000 + nsecs `div` 1000.

Section conversions.
Context `{ChronoLaws}.

Definition naive_to_micros (dt : DateTime) : Z := timestamp_micros dt.

(** [div_euclid] and [rem_euclid] by a positive constant. *)
Definition micros_to_naive (micros : Z) : DateTime :=
  let secs := micros `div` MICROS_PER_SECOND in
  let sub_micros := micros `mod` MICROS_PER_SECOND in
  let nsecs := if bool_decide (0 ≤ sub_micros * 1000 < 2 ^ 32) then sub_micros * 1000 else 0 in
  match timestamp_opt secs nsecs with
  | Some dt => dt
  | None => if bool_decide (micros < 0) then MIN_UTC else MAX_UTC
  end.

(** a timestamp converted to a date and back is unchanged, negative
    timestamps included, whenever the date is representable. *)
Theorem micros_naive_roundtrip micros :
  is_Some (timestamp_opt (micros `div` 1000000) (micros `mod` 1000000 * 1000)) →
  naive_to_micros (micros_to_naive micros) = micros.
Proof.
  intros [d Hd]. unfold naive_to_micros, micros_to_naive, MICROS_PER_SECOND.
  pose proof (Z.mod_pos_bound micros 1000000 ltac:(lia)) as Hb.
  rewrite bool_decide_true by lia. rewrite Hd.
  rewrite (timestamp_micros_opt (micros `div` 1000000) (micros `mod` 1000000 * 1000) d); [|lia|done].
  rewrite Z.div_mul by lia. pose proof (Z.div_mod micros 1000000 ltac:(lia)). lia.
Qed.
End conversions.

(** Dates as a number of seconds and nanoseconds within some range. *)
Definition plain_chrono : Chrono := {|
  DateTime := Z * Z;
  timestamp_opt secs nsecs :=
    if bool_decide (- 8334601228800 ≤ secs < 8210266876800) then Some (secs, nsecs) else None;
  MIN_UTC := (- 8334601228800, 0);
  MAX_UTC := (8210266876799, 999999999);
  timestamp_micros d := d.1 * 1000000 + d.2 `div` 1000;
|}.

Lemma plain_chrono_laws : @ChronoLaws plain_chrono.
Proof.
  intros secs nsecs d _. cbn [plain_chrono timestamp_opt timestamp_micros].
  case_bool_decide; [|done]. by intros [= <-].
Qed.

Lemma micros_naive_roundtrip_witness :
  @naive_to_micros plain_chrono (@micros_to_naive plain_chrono (-1)) = -1.
Proof.
  apply (@micros_naive_roundtrip plain_chrono plain_chrono_laws).
  vm_compute. eexists. reflexivity.
Defined.
End Timestamps.
