(* ===== verification/ReservationDb.v ===== *)
(** * File reservations in the database
      ([mcp-agent-mail-db/src/queries.rs], "FileReservation Queries")

    The table [file_reservations] is a list of rows in rowid order, the release
    ledger [file_reservation_releases] a finite map from reservation id to
    release time.  Each SQL statement is the filter or update it denotes, each
    transaction one function from the database before to the database after.
    A statement that the storage engine rejects rolls its transaction back and
    leaves the database as it was; the functions below describe the runs in
    which no statement is rejected, apart from a full rowid space.  The clock
    readings a function takes are its arguments: [now] when it reads the clock
    before its transaction begins, [marker] when it reads it inside. *)

From stdpp Require Import base tactics list gmap strings.
From S2P Require Import Prelude OverlapDp PatternOverlap KeyedBuckets ReservationIndex.
Import PatternOverlap.
Open Scope Z_scope.

Module ReservationDb.

(** ** Values and rows *)

(** The storage classes a [released_ts] cell can have: legacy databases keep
    text and reals in it.  A real is its numerator over a positive
    denominator. *)
Inductive Cell :=
  | CNull
  | CInteger (z : Z)
  | CReal (num : Z) (den : positive)
  | CText (s : str).

#[export] Instance Cell_eq_dec : EqDecision Cell.
Proof. solve_decision. Defined.

Record StoredRow := {
  row_id : Z;
  project_id : Z;
  agent_id : Z;
  path_pattern : str;
  exclusive : Z;
  reason : str;
  created_ts : Z;
  expires_ts : Z;
  released_ts : Cell;
}.

#[export] Instance StoredRow_eq_dec : EqDecision StoredRow.
Proof. solve_decision. Defined.

(** [FileReservationRow]. *)
Record FileReservationRow := {
  fr_id : option Z;
  fr_project_id : Z;
  fr_agent_id : Z;
  fr_path_pattern : str;
  fr_exclusive : Z;
  fr_reason : str;
  fr_created_ts : Z;
  fr_expires_ts : Z;
  fr_released_ts : option Z;
}.

#[export] Instance FileReservationRow_eq_dec : EqDecision FileReservationRow.
Proof. solve_decision. Defined.

(** [sequence] is the [sqlite_sequence] entry: the largest rowid ever used. *)
Record Db := {
  rows : list StoredRow;
  releases : gmap Z Z;
  sequence : Z;
}.

Inductive DbError :=
  | ResourceBusy (path active : str)
  | Internal
  | Sqlite (msg : str).

Inductive Outcome (A : Type) :=
  | Ok (a : A)
  | Err (e : DbError).
Arguments Ok {A} a.
Arguments Err {A} e.

(** ** [ACTIVE_RESERVATION_PREDICATE] *)

(** SQLite's [trim] removes spaces only. *)
Fixpoint sql_ltrim (s : str) : str :=
  match s with
  | c :: s' => if (c =? 32)%N then sql_ltrim s' else s
  | [] => []
  end.

Definition sql_trim (s : str) : str := reverse (sql_ltrim (reverse (sql_ltrim s))).

(** The characters the nested [REPLACE]s delete: digits, dot and signs. *)
Definition numeric_char (c : N) : bool :=
  is_ascii_digit c || (c =? 46)%N || (c =? 43)%N || (c =? 45)%N.

(** The longest prefix of digits with at most one dot. *)
Fixpoint decimal_prefix (dot_seen : bool) (s : str) : str :=
  match s with
  | c :: s' =>
      if is_ascii_digit c then c :: decimal_prefix dot_seen s'
      else if (c =? 46)%N && negb dot_seen then c :: decimal_prefix true s'
      else []
  | [] => []
  end.

(** [CAST(s AS REAL) <= 0] for a text of numeric characters: the longest
    numeric prefix is negative or has no other digit than 0. *)
Definition cast_real_le_zero (s : str) : bool :=
  match s with
  | 45%N :: _ => true
  | 43%N :: s' => forallb (λ c, (c =? 48) || (c =? 46))%N (decimal_prefix false s')
  | _ => forallb (λ c, (c =? 48) || (c =? 46))%N (decimal_prefix false s)
  end.

(** [ACTIVE_RESERVATION_LEGACY_PREDICATE]. *)
Definition legacy_active (v : Cell) : bool :=
  match v with
  | CNull => true
  | CInteger z => z <=? 0
  | CReal num _ => num <=? 0
  | CText s =>
      let t := sql_trim s in
      bool_decide (to_ascii_lowercase t ∈ [[]; lit "0"; lit "null"; lit "none"])
      || (bool_decide (t ≠ []) && existsb is_ascii_digit t && forallb numeric_char t
          && cast_real_le_zero t)
  end.

(** With the exclusion of the release ledger. *)
Definition active (d : Db) (r : StoredRow) : bool :=
  legacy_active (released_ts r) && bool_decide (releases d !! row_id r = None).

(** ** Decoding rows

    [FileReservationRow::from_row] is derived code; all it needs to be told
    here is how it reads the [released_ts] cell, [None] when it rejects it. *)
Class CellDecode := decode_cell : Cell → option (option Z).

(** [map_or(0, len)] of an optional filter. *)
Abbreviation count o := (from_option (λ l, Z.of_nat (length l)) 0 o).

Section operations.
Context `{ConflictDetector} `{CellDecode}.

Definition decode_file_reservation_row (r : StoredRow) : Outcome FileReservationRow :=
  match decode_cell (released_ts r) with
  | Some rel =>
      Ok {| fr_id := Some (row_id r); fr_project_id := project_id r; fr_agent_id := agent_id r;
            fr_path_pattern := path_pattern r; fr_exclusive := exclusive r;
            fr_reason := reason r; fr_created_ts := created_ts r;
            fr_expires_ts := expires_ts r; fr_released_ts := rel |}
  | None => Err (Sqlite (lit "decode"))
  end.

(** The loop that decodes the rows of a query and stops at the first error. *)
Fixpoint decode_rows (rs : list StoredRow) : Outcome (list FileReservationRow) :=
  match rs with
  | [] => Ok []
  | r :: rs =>
      match decode_file_reservation_row r with
      | Err e => Err e
      | Ok row => match decode_rows rs with
                  | Err e => Err e
                  | Ok out => Ok (row :: out)
                  end
      end
  end.

(** ** Creating reservations *)

(** [conflict_sql]: the patterns of the active reservations of other agents. *)
Definition conflict_patterns (now project agent : Z) (excl : bool) (d : Db) : list str :=
  path_pattern <$>
    filter (λ r, project_id r = project ∧ agent_id r ≠ agent ∧ active d r = true ∧
                 now < expires_ts r ∧ (excl = true ∨ exclusive r = 1)) (rows d).

(** The loop over the requested paths. *)
Fixpoint first_busy (held : list str) (paths : list str) : option (str * str) :=
  match paths with
  | [] => None
  | path :: paths =>
      match first_detected held path with
      | Some active_norm => Some (path, active_norm)
      | None => first_busy held paths
      end
  end.

(** One [INSERT] and [last_insert_rowid()]: [AUTOINCREMENT] takes the successor
    of the largest rowid ever used, or fails when there is none. *)
Definition insert_row (r : StoredRow) (d : Db) : option (Z * Db) :=
  let id := sequence d + 1 in
  if i64_max <? id then None
  else Some (id, {| rows := rows d ++
                      [{| row_id := id; project_id := project_id r; agent_id := agent_id r;
                          path_pattern := path_pattern r; exclusive := exclusive r;
                          reason := reason r; created_ts := created_ts r;
                          expires_ts := expires_ts r; released_ts := released_ts r |}];
                    releases := releases d; sequence := id |}).

(** The loop that inserts a row per path and collects what it inserted. *)
Fixpoint insert_paths (now expires project agent : Z) (excl : bool) (why : str)
    (paths : list str) (d : Db) : Outcome (list FileReservationRow) * Db :=
  match paths with
  | [] => (Ok [], d)
  | path :: paths =>
      let row := {| row_id := 0; project_id := project; agent_id := agent; path_pattern := path;
                    exclusive := if excl then 1 else 0; reason := why; created_ts := now;
                    expires_ts := expires; released_ts := CNull |} in
      match insert_row row d with
      | None => (Err (Sqlite (lit "full")), d)
      | Some (id, d') =>
          if id <=? 0 then (Err Internal, d)
          else match insert_paths now expires project agent excl why paths d' with
               | (Err e, d'') => (Err e, d'')
               | (Ok out, d'') =>
                   (Ok ({| fr_id := Some id; fr_project_id := project; fr_agent_id := agent;
                           fr_path_pattern := path; fr_exclusive := if excl then 1 else 0;
                           fr_reason := why; fr_created_ts := now; fr_expires_ts := expires;
                           fr_released_ts := None |} :: out), d'')
               end
      end
  end.

Definition create_file_reservations (now project agent : Z) (paths : list str)
    (ttl_seconds : Z) (excl : bool) (why : str) (d : Db)
    : Outcome (list FileReservationRow) * Db :=
  let expires := i64_saturating_add now (i64_saturating_mul ttl_seconds 1000000) in
  match first_busy (conflict_patterns now project agent excl d) paths with
  | Some (path, active_norm) => (Err (ResourceBusy path active_norm), d)
  | None =>
      match insert_paths now expires project agent excl why paths d with
      | (Ok out, d') => (Ok out, d')
      | (Err e, _) => (Err e, d)
      end
  end.

(** ** Reading reservations *)

(** [COALESCE(rr.released_ts, fr.released_ts)] over the left join. *)
Definition join_release (d : Db) (r : StoredRow) : StoredRow :=
  {| row_id := row_id r; project_id := project_id r; agent_id := agent_id r;
     path_pattern := path_pattern r; exclusive := exclusive r; reason := reason r;
     created_ts := created_ts r; expires_ts := expires_ts r;
     released_ts := match releases d !! row_id r with
                    | Some ts => CInteger ts
                    | None => released_ts r
                    end |}.

Definition get_active_reservations (now project : Z) (d : Db)
    : Outcome (list FileReservationRow) :=
  decode_rows (join_release d <$>
    filter (λ r, project_id r = project ∧ active d r = true ∧ now < expires_ts r) (rows d)).

(** ** Releasing reservations *)

Inductive ReleaseReservationChunkTarget := ReservationIds | Paths.

Record ReleasedReservationMarker := { marker_id : Z; marker_released_ts : Z }.

Inductive ReleaseReservationExpiryConstraint :=
  | Any
  | OnOrBefore (cutoff : Z)
  | Exact (cutoff : Z).

Definition SQLITE_MAX_BIND_PARAMS : Z := 999.
Definition MAX_IN_CLAUSE_ITEMS : Z := 500.
Definition MAX_RELEASE_RESERVATION_CHUNK_ITEMS : Z := 128.
Definition RELEASE_RESERVATION_BASE_BIND_PARAMS : Z := 3.
Definition MAX_RELEASE_RESERVATION_FILTER_ITEMS : Z :=
  SQLITE_MAX_BIND_PARAMS - RELEASE_RESERVATION_BASE_BIND_PARAMS.

Definition release_reservation_chunk_plan (path_count reservation_id_count : Z)
    : option (ReleaseReservationChunkTarget * Z) :=
  let ids_limit := Z.min MAX_RELEASE_RESERVATION_CHUNK_ITEMS
    (Z.max (u64_saturating_sub MAX_RELEASE_RESERVATION_FILTER_ITEMS path_count) 1) in
  let paths_limit := Z.min MAX_RELEASE_RESERVATION_CHUNK_ITEMS
    (Z.max (u64_saturating_sub MAX_RELEASE_RESERVATION_FILTER_ITEMS reservation_id_count) 1) in
  match ids_limit <? reservation_id_count, paths_limit <? path_count with
  | false, false => None
  | true, false => Some (ReservationIds, ids_limit)
  | false, true => Some (Paths, paths_limit)
  | true, true =>
      if path_count <=? reservation_id_count then Some (ReservationIds, ids_limit)
      else Some (Paths, paths_limit)
  end.

(** [append_release_reservation_filters]: an absent filter accepts every row, an
    empty one none. *)
Definition release_filter (ids : option (list Z)) (paths : option (list str)) (r : StoredRow) : Prop :=
  match ids with Some ids => row_id r ∈ ids | None => True end ∧
  match paths with Some paths => path_pattern r ∈ paths | None => True end.

#[export] Instance release_filter_dec ids paths r : Decision (release_filter ids paths r).
Proof. unfold release_filter. destruct ids, paths; apply _. Defined.

(** The number of parameters its [SELECT] binds. *)
Definition bind_count (ids : option (list Z)) (paths : option (list str)) : Z :=
  2 + count ids + count paths.

Definition set_released (id ts : Z) (r : StoredRow) : StoredRow :=
  if bool_decide (row_id r = id) then
    {| row_id := row_id r; project_id := project_id r; agent_id := agent_id r;
       path_pattern := path_pattern r; exclusive := exclusive r; reason := reason r;
       created_ts := created_ts r; expires_ts := expires_ts r; released_ts := CInteger ts |}
  else r.

(** Step 1 of the release loop: the eligibility check. *)
Definition eligible (c : ReleaseReservationExpiryConstraint) (d : Db) (id : Z) (r : StoredRow) : Prop :=
  row_id r = id ∧ active d r = true ∧
  match c with
  | Any => True
  | OnOrBefore cutoff => expires_ts r ≤ cutoff
  | Exact cutoff => expires_ts r = cutoff
  end.

#[export] Instance eligible_dec c d id r : Decision (eligible c d id r).
Proof. unfold eligible. destruct c; apply _. Defined.

(** Steps 2 and 3: the base row, then [INSERT OR IGNORE] into the ledger. *)
Definition release_one (id ts : Z) (d : Db) : Db :=
  {| rows := set_released id ts <$> rows d;
     releases := match releases d !! id with
                 | Some _ => releases d
                 | None => <[id := ts]> (releases d)
                 end;
     sequence := sequence d |}.

Fixpoint release_loop (c : ReleaseReservationExpiryConstraint) (release_marker : Z)
    (ids : list Z) (d : Db) : list ReleasedReservationMarker * Db :=
  match ids with
  | [] => ([], d)
  | id :: ids =>
      if bool_decide (Exists (eligible c d id) (rows d)) then
        let '(released, d') :=
          release_loop c (i64_saturating_add release_marker 1) ids (release_one id release_marker d) in
        ({| marker_id := id; marker_released_ts := release_marker |} :: released, d')
      else release_loop c release_marker ids d
  end.

Definition release_reservations_by_ids_with_expiry_constraint
    (marker : Z) (ids : list Z) (c : ReleaseReservationExpiryConstraint) (d : Db)
    : Outcome (list ReleasedReservationMarker) * Db :=
  if bool_decide (ids = []) then (Ok [], d)
  else let '(released, d') := release_loop c marker ids d in (Ok released, d').

Definition release_reservations_by_ids_matching_expiry
    (marker : Z) (ids : list Z) (expires_at_or_before : option Z) (d : Db)
    : Outcome (list ReleasedReservationMarker) * Db :=
  release_reservations_by_ids_with_expiry_constraint marker ids
    (from_option OnOrBefore Any expires_at_or_before) d.

(** [apply_release_markers].  Collecting into a [HashMap] keeps the last marker
    of an id. *)
Definition marker_of (markers : list ReleasedReservationMarker) (id : Z) : option Z :=
  marker_released_ts <$> last (filter (λ m, marker_id m = id) markers).

Definition apply_release_markers (reservations : list FileReservationRow)
    (markers : list ReleasedReservationMarker) : list FileReservationRow :=
  omap (λ r, id ← fr_id r;
             ts ← marker_of markers id;
             Some {| fr_id := fr_id r; fr_project_id := fr_project_id r;
                     fr_agent_id := fr_agent_id r; fr_path_pattern := fr_path_pattern r;
                     fr_exclusive := fr_exclusive r; fr_reason := fr_reason r;
                     fr_created_ts := fr_created_ts r; fr_expires_ts := fr_expires_ts r;
                     fr_released_ts := Some ts |}) reservations.

(** The first transaction of a release that fits one statement: the agent's
    active reservations that pass the filters. *)
Definition select_for_release (project agent : Z) (paths : option (list str))
    (ids : option (list Z)) (d : Db) : Outcome (list FileReservationRow) :=
  decode_rows (filter (λ r, project_id r = project ∧ agent_id r = agent ∧ active d r = true ∧
                            release_filter ids paths r) (rows d)).

(** The world between the two transactions of a release: [interfere] is what
    other connections do to the database meanwhile, and the clock, read once
    per second transaction, is a counter that the caller's clock moves. *)
Record Environment := {
  interfere : Z → Db → Db;
  tick : Z → Z;
}.

Definition release_single (env : Environment) (project agent : Z) (paths : option (list str))
    (ids : option (list Z)) (clock : Z) (d : Db)
    : Outcome (list FileReservationRow) * Z * Db :=
  match select_for_release project agent paths ids d with
  | Err e => (Err e, clock, d)
  | Ok [] => (Ok [], clock, d)
  | Ok reservations =>
      let target_ids := omap fr_id reservations in
      if bool_decide (length target_ids ≠ length reservations) then (Err Internal, clock, d)
      else
        let marker := tick env clock in
        match release_reservations_by_ids_matching_expiry marker target_ids None
                (interfere env marker d) with
        | (Ok markers, d') => (Ok (apply_release_markers reservations markers), marker, d')
        | (Err e, d') => (Err e, marker, d')
        end
  end.

(** The loop over the chunks, that stops at the first error. *)
Fixpoint release_chunks {A}
    (call : A → Z → Db → option (Outcome (list FileReservationRow) * Z * Db))
    (l : list A) (clock : Z) (d : Db) : option (Outcome (list FileReservationRow) * Z * Db) :=
  match l with
  | [] => Some (Ok [], clock, d)
  | chunk :: l =>
      '(res, clock, d) ← call chunk clock d;
      match res with
      | Err e => Some (Err e, clock, d)
      | Ok rows =>
          '(res, clock, d) ← release_chunks call l clock d;
          match res with
          | Err e => Some (Err e, clock, d)
          | Ok more => Some (Ok (rows ++ more), clock, d)
          end
      end
  end.

(** [release_reservations], which calls itself on each chunk.  The recursion is
    at most three deep ([release_fuel_enough]). *)
Fixpoint release_reservations_fuel (fuel : nat) (env : Environment) (project agent : Z)
    (paths : option (list str)) (ids : option (list Z)) (clock : Z) (d : Db)
    : option (Outcome (list FileReservationRow) * Z * Db) :=
  match fuel with
  | O => None
  | S fuel =>
      let path_count := count paths in
      let reservation_id_count := count ids in
      match release_reservation_chunk_plan path_count reservation_id_count with
      | None => Some (release_single env project agent paths ids clock d)
      | Some (ReservationIds, n) =>
          match ids with
          | None => Some (Ok [], clock, d)
          | Some l =>
              release_chunks
                (λ chunk, release_reservations_fuel fuel env project agent paths (Some chunk))
                (chunks (Z.to_nat n) l) clock d
          end
      | Some (Paths, n) =>
          match paths with
          | None => Some (Ok [], clock, d)
          | Some l =>
              release_chunks
                (λ chunk, release_reservations_fuel fuel env project agent (Some chunk) ids)
                (chunks (Z.to_nat n) l) clock d
          end
      end
  end.

Definition release_reservations (env : Environment) (project agent : Z)
    (paths : option (list str)) (ids : option (list Z)) (clock : Z) (d : Db)
    : option (Outcome (list FileReservationRow) * Z * Db) :=
  release_reservations_fuel 3 env project agent paths ids clock d.

(** [force_release_reservation]. *)
Definition force_release_reservation (marker reservation_id : Z) (expected_expires_ts : option Z)
    (d : Db) : Outcome Z * Db :=
  match release_reservations_by_ids_with_expiry_constraint marker [reservation_id]
          (from_option Exact Any expected_expires_ts) d with
  | (Ok released, d') => (Ok (Z.of_nat (length released)), d')
  | (Err e, d') => (Err e, d')
  end.

(** [release_expired_reservations]: the ids are selected outside any
    transaction, then released with the same cut-off. *)
Definition select_expired (now project : Z) (d : Db) : list Z :=
  row_id <$> filter (λ r, project_id r = project ∧ active d r = true ∧ expires_ts r ≤ now) (rows d).

Definition release_expired_reservations (env : Environment) (now project clock : Z) (d : Db)
    : Outcome (list Z) * Db :=
  match select_expired now project d with
  | [] => (Ok [], d)
  | ids =>
      let marker := tick env clock in
      match release_reservations_by_ids_matching_expiry marker ids (Some now)
              (interfere env marker d) with
      | (Ok markers, d') => (Ok (marker_id <$> markers), d')
      | (Err e, d') => (Err e, d')
      end
  end.

(** ** Renewing reservations *)

Definition set_expires (id ts : Z) (r : StoredRow) : StoredRow :=
  if bool_decide (row_id r = id) then
    {| row_id := row_id r; project_id := project_id r; agent_id := agent_id r;
       path_pattern := path_pattern r; exclusive := exclusive r; reason := reason r;
       created_ts := created_ts r; expires_ts := ts; released_ts := released_ts r |}
  else r.

(** The candidates of a renewal. *)
Definition renewable (now project agent : Z) (paths : option (list str)) (ids : option (list Z))
    (d : Db) (r : StoredRow) : Prop :=
  project_id r = project ∧ agent_id r = agent ∧ active d r = true ∧ now < expires_ts r ∧
  release_filter ids paths r.

#[export] Instance renewable_dec now project agent paths ids d r :
  Decision (renewable now project agent paths ids d r).
Proof. unfold renewable. apply _. Defined.

(** The new expiry of a renewed row. *)
Definition renewed_expiry (now extend expires : Z) : Z :=
  i64_saturating_add (Z.max expires now) extend.

(** The loop over the candidates. *)
Fixpoint renew_loop (now extend : Z) (reservations : list FileReservationRow) (d : Db)
    : Outcome (list FileReservationRow) * Db :=
  match reservations with
  | [] => (Ok [], d)
  | r :: reservations =>
      let e := renewed_expiry now extend (fr_expires_ts r) in
      match fr_id r with
      | None => (Err Internal, d)
      | Some id =>
          let d' := {| rows := set_expires id e <$> rows d; releases := releases d;
                       sequence := sequence d |} in
          match renew_loop now extend reservations d' with
          | (Err e, d'') => (Err e, d'')
          | (Ok out, d'') =>
              (Ok ({| fr_id := Some id; fr_project_id := fr_project_id r;
                      fr_agent_id := fr_agent_id r; fr_path_pattern := fr_path_pattern r;
                      fr_exclusive := fr_exclusive r; fr_reason := fr_reason r;
                      fr_created_ts := fr_created_ts r; fr_expires_ts := e;
                      fr_released_ts := fr_released_ts r |} :: out), d'')
          end
      end
  end.

Definition renew_reservations (now project agent extend_seconds : Z) (paths : option (list str))
    (ids : option (list Z)) (d : Db) : Outcome (list FileReservationRow) * Db :=
  let extend := i64_saturating_mul extend_seconds 1000000 in
  match decode_rows (filter (renewable now project agent paths ids d) (rows d)) with
  | Err e => (Err e, d)
  | Ok reservations =>
      match renew_loop now extend reservations d with
      | (Ok out, d') => (Ok out, d')
      | (Err e, _) => (Err e, d)
      end
  end.

(** ** The audited create ([atomic_file_reservation_check_and_create]) *)

Definition Insert : Type := Z * str * Z * bool * str.

(** The multi-row insert of a chunk and the lookups of the ids it got, by the
    key (project, agent, path, creation time), the largest id first. *)
Definition inserted_row (now project : Z) (i : Insert) : StoredRow :=
  let '(agent, path, ttl, excl, why) := i in
  {| row_id := 0; project_id := project; agent_id := agent; path_pattern := path;
     exclusive := if excl then 1 else 0; reason := why; created_ts := now;
     expires_ts := i64_saturating_add now (i64_saturating_mul ttl 1000000);
     released_ts := CNull |}.

Fixpoint insert_rows (l : list StoredRow) (d : Db) : option Db :=
  match l with
  | [] => Some d
  | r :: l => '(_, d') ← insert_row r d; insert_rows l d'
  end.

Definition lookup_inserted_id (now project : Z) (i : Insert) (d : Db) : option Z :=
  let '(agent, path, _, _, _) := i in
  last (row_id <$> filter (λ r, project_id r = project ∧ agent_id r = agent ∧
                               path_pattern r = path ∧ created_ts r = now) (rows d)).

Definition created_row (now project : Z) (i : Insert) (id : Z) : FileReservationRow :=
  let r := inserted_row now project i in
  {| fr_id := Some id; fr_project_id := project_id r; fr_agent_id := agent_id r;
     fr_path_pattern := path_pattern r; fr_exclusive := exclusive r; fr_reason := reason r;
     fr_created_ts := created_ts r; fr_expires_ts := expires_ts r; fr_released_ts := None |}.

Fixpoint insert_chunks (now project : Z) (cs : list (list Insert)) (d : Db)
    : Outcome (list FileReservationRow) * Db :=
  match cs with
  | [] => (Ok [], d)
  | chunk :: cs =>
      match insert_rows (inserted_row now project <$> chunk) d with
      | None => (Err (Sqlite (lit "full")), d)
      | Some d' =>
          match mapM (λ i, created_row now project i <$> lookup_inserted_id now project i d') chunk with
          | None => (Err Internal, d')
          | Some created =>
              match insert_chunks now project cs d' with
              | (Err e, d'') => (Err e, d'')
              | (Ok more, d'') => (Ok (created ++ more), d'')
              end
          end
      end
  end.

Definition atomic_file_reservation_check_and_create
    (checker : list FileReservationRow → list Insert + str) (now project : Z) (d : Db)
    : Outcome (list FileReservationRow) * Db :=
  match decode_rows (filter (λ r, project_id r = project ∧ active d r = true) (rows d)) with
  | Err e => (Err e, d)
  | Ok active_rows =>
      match checker active_rows with
      | inr msg => (Err (Sqlite (lit "Reservation conflict: " ++ msg)), d)
      | inl inserts =>
          if bool_decide (inserts = []) then (Ok [], d)
          else match insert_chunks now project (chunks 50 inserts) d with
               | (Ok created, d') => (Ok created, d')
               | (Err e, _) => (Err e, d)
               end
      end
  end.
End operations.
End ReservationDb.
