(* ===== verification/ReservationDbFacts.v ===== *)
(** * Facts about the reservation transactions

    What each transaction does on every branch, and the well-formedness
    invariant they preserve.  The conflict detector is only known through its
    class. *)

From stdpp Require Import base tactics list gmap strings.
From S2P Require Import Prelude OverlapDp PatternOverlap KeyedBuckets ReservationIndex ReservationDb.
Import PatternOverlap ReservationDb.
Open Scope Z_scope.

(** ** Well-formed databases *)

Record wf (d : Db) : Prop := {
  wf_ids : NoDup (row_id <$> rows d);
  wf_range : Forall (λ r, 1 ≤ row_id r ≤ sequence d) (rows d);
  wf_ledger : map_Forall (λ id _, id ≤ sequence d) (releases d);
  wf_sequence : 0 ≤ sequence d;
}.

Definition empty_db : Db := {| rows := []; releases := ∅; sequence := 0 |}.

Section facts.
Context `{ConflictDetectorLaws} `{CellDecode}.

Lemma wf_empty : wf empty_db.
Proof. split; simpl; [constructor|constructor|apply map_Forall_empty|done]. Qed.

(** ** Creating *)

(** Row [r] stands in the way of the request for [path]. *)
Definition blocks (now project agent : Z) (excl : bool) (d : Db) (path : str) (r : StoredRow) : Prop :=
  r ∈ rows d ∧ project_id r = project ∧ agent_id r ≠ agent ∧ active d r = true ∧
  now < expires_ts r ∧ (excl = true ∨ exclusive r = 1) ∧
  overlaps (compile (path_pattern r)) (compile path) = true.

Definition new_row (now expires project agent : Z) (excl : bool) (why : str) (id : Z) (path : str)
    : StoredRow :=
  {| row_id := id; project_id := project; agent_id := agent; path_pattern := path;
     exclusive := if excl then 1 else 0; reason := why; created_ts := now;
     expires_ts := expires; released_ts := CNull |}.

Fixpoint new_rows (now expires project agent : Z) (excl : bool) (why : str) (id : Z)
    (paths : list str) : list StoredRow :=
  match paths with
  | [] => []
  | path :: paths =>
      new_row now expires project agent excl why id path ::
      new_rows now expires project agent excl why (id + 1) paths
  end.

(** The row handed back for a new row. *)
Definition report (r : StoredRow) : FileReservationRow :=
  {| fr_id := Some (row_id r); fr_project_id := project_id r; fr_agent_id := agent_id r;
     fr_path_pattern := path_pattern r; fr_exclusive := exclusive r; fr_reason := reason r;
     fr_created_ts := created_ts r; fr_expires_ts := expires_ts r; fr_released_ts := None |}.

Definition append_rows (l : list StoredRow) (n : Z) (d : Db) : Db :=
  {| rows := rows d ++ l; releases := releases d; sequence := sequence d + n |}.

Lemma first_busy_spec held paths :
  match first_busy held paths with
  | Some (path, n) => path ∈ paths ∧ ∃ p, p ∈ held ∧ n = norm (compile p) ∧
                      overlaps (compile p) (compile path) = true
  | None => ∀ path p, path ∈ paths → p ∈ held → not_root path → not_root p →
            overlaps (compile p) (compile path) = false
  end.
Proof.
  induction paths as [|path paths IH]; simpl.
  { by intros path p ?%elem_of_nil. }
  pose proof (first_detected_spec held path) as Hd.
  destruct (first_detected held path) as [n|].
  - split; [left|done].
  - destruct (first_busy held paths) as [[path' n]|].
    + destruct IH as [? ?]. split; [by right|done].
    + intros path' p [->|?]%elem_of_cons ? ? ?; eauto.
Qed.

Lemma elem_conflict_patterns now project agent excl d p :
  p ∈ conflict_patterns now project agent excl d ↔
  ∃ r, p = path_pattern r ∧ r ∈ rows d ∧ project_id r = project ∧ agent_id r ≠ agent ∧
       active d r = true ∧ now < expires_ts r ∧ (excl = true ∨ exclusive r = 1).
Proof.
  unfold conflict_patterns. rewrite list_elem_of_fmap. setoid_rewrite list_elem_of_filter.
  naive_solver.
Qed.

Lemma insert_paths_spec now expires project agent excl why paths d :
  0 ≤ sequence d → sequence d + Z.of_nat (length paths) ≤ i64_max →
  let l := new_rows now expires project agent excl why (sequence d + 1) paths in
  insert_paths now expires project agent excl why paths d =
  (Ok (report <$> l), append_rows l (Z.of_nat (length paths)) d).
Proof.
  revert d. induction paths as [|path paths IH]; intros d Hs Hm; simpl.
  { unfold append_rows. rewrite app_nil_r, Z.add_0_r. by destruct d. }
  unfold insert_row. cbn [length] in Hm.
  destruct (Z.ltb_spec i64_max (sequence d + 1)); [lia|].
  destruct (Z.leb_spec (sequence d + 1) 0); [lia|].
  rewrite IH by (simpl; lia). simpl. f_equal. unfold append_rows. simpl.
  f_equal; [by rewrite <-app_assoc|lia].
Qed.

Lemma new_rows_elem now expires project agent excl why id paths r :
  r ∈ new_rows now expires project agent excl why id paths →
  path_pattern r ∈ paths ∧ id ≤ row_id r < id + Z.of_nat (length paths) ∧
  project_id r = project ∧ agent_id r = agent ∧ exclusive r = (if excl then 1 else 0) ∧
  expires_ts r = expires ∧ released_ts r = CNull.
Proof.
  revert id. induction paths as [|path paths IH]; intros id; simpl; [by intros ?%elem_of_nil|].
  intros [->|Hr]%elem_of_cons.
  - simpl. split_and!; try done; [left|lia..].
  - destruct (IH _ Hr) as (? & ? & ?). split_and!; [by right|lia|lia|naive_solver..].
Qed.

Lemma new_rows_NoDup now expires project agent excl why id paths :
  NoDup (row_id <$> new_rows now expires project agent excl why id paths).
Proof.
  revert id. induction paths as [|path paths IH]; intros id; simpl; [constructor|].
  apply NoDup_cons. split; [|apply IH].
  intros (r & E & Hr%new_rows_elem)%list_elem_of_fmap. simpl in E. lia.
Qed.

Lemma new_rows_paths now expires project agent excl why id paths :
  fr_path_pattern <$> (report <$> new_rows now expires project agent excl why id paths) = paths.
Proof. revert id. induction paths as [|path paths IH]; intros id; simpl; [done|]. by f_equal. Qed.

Lemma append_rows_wf now expires project agent excl why paths d :
  wf d →
  wf (append_rows (new_rows now expires project agent excl why (sequence d + 1) paths)
        (Z.of_nat (length paths)) d).
Proof.
  intros [Hids Hrange Hledger Hseq]. split; simpl.
  - rewrite fmap_app. apply NoDup_app. split_and!; [done| |apply new_rows_NoDup].
    intros id (r & -> & Hr)%list_elem_of_fmap (r' & E & Hr'%new_rows_elem)%list_elem_of_fmap.
    eapply Forall_forall in Hrange; [|done]. simpl in Hrange. lia.
  - apply Forall_app. split; [eapply Forall_impl; [exact Hrange|]; simpl; intros; lia|].
    apply Forall_forall. intros r Hr%new_rows_elem. lia.
  - intros id ts Hid. apply Hledger in Hid. simpl in Hid. lia.
  - lia.
Qed.

(** The transaction on every branch. *)
Lemma create_result now project agent paths ttl excl why d :
  wf d → sequence d + Z.of_nat (length paths) ≤ i64_max →
  let expires := i64_saturating_add now (i64_saturating_mul ttl 1000000) in
  let l := new_rows now expires project agent excl why (sequence d + 1) paths in
  match create_file_reservations now project agent paths ttl excl why d with
  | (Ok out, d') =>
      (∀ path r, path ∈ paths → not_root path → not_root (path_pattern r) →
         ¬ blocks now project agent excl d path r) ∧
      out = report <$> l ∧ d' = append_rows l (Z.of_nat (length paths)) d
  | (Err (ResourceBusy path n), d') =>
      d' = d ∧ path ∈ paths ∧
      ∃ r, blocks now project agent excl d path r ∧ n = norm (compile (path_pattern r))
  | (Err _, _) => False
  end.
Proof.
  intros Hwf Hroom expires l. unfold create_file_reservations.
  pose proof (first_busy_spec (conflict_patterns now project agent excl d) paths) as Hb. destruct (first_busy _ _) as [[path n]|].
  - destruct Hb as (Hin & p & (r & -> & Hr)%elem_conflict_patterns & -> & Ho).
    split_and!; [done..|]. exists r. unfold blocks. naive_solver.
  - rewrite insert_paths_spec by (done || apply Hwf). fold expires. fold l.
    split_and!; [|done|done].
    intros path r Hpath Hn Hnr (Hr & ? & ? & ? & ? & ? & Ho).
    rewrite (Hb path (path_pattern r)) in Ho; [done|done| |done..]. apply elem_conflict_patterns.
    exists r. naive_solver.
Qed.
End facts.
