(* ===== verification/ReservationRelease.v ===== *)
(** * Releasing and renewing reservations: what the transactions do

    The release loop, its chunking, and the renewal loop, on every row of the
    table. *)

From Stdlib Require Import List.
From stdpp Require Import base tactics list gmap strings.
From S2P Require Import Prelude OverlapDp PatternOverlap KeyedBuckets ReservationIndex ReservationDb ReservationDbFacts.
Import PatternOverlap ReservationDb.
Open Scope Z_scope.

Lemma NoDup_fmap_filter {A B} (f : A → B) (P : A → Prop) `{∀ x, Decision (P x)} (l : list A) :
  NoDup (f <$> l) → NoDup (f <$> filter P l).
Proof.
  induction l as [|x l IH]; [done|]. rewrite fmap_cons, NoDup_cons, filter_cons. intros [Hx Hl].
  case_decide; [|by apply IH]. rewrite fmap_cons. apply NoDup_cons. split; [|by apply IH].
  intros (y & E & [_ Hy]%list_elem_of_filter)%list_elem_of_fmap. apply Hx. rewrite E.
  by apply list_elem_of_fmap_2.
Qed.

(** ** Rows that differ in their release only *)

Definition same_identity (r r' : StoredRow) : Prop :=
  row_id r' = row_id r ∧ project_id r' = project_id r ∧ agent_id r' = agent_id r ∧
  path_pattern r' = path_pattern r ∧ exclusive r' = exclusive r ∧ reason r' = reason r ∧
  created_ts r' = created_ts r ∧ expires_ts r' = expires_ts r.

Lemma same_identity_refl r : same_identity r r.
Proof. done. Qed.

Lemma same_identity_trans r1 r2 r3 :
  same_identity r1 r2 → same_identity r2 r3 → same_identity r1 r3.
Proof. unfold same_identity. intros; destruct_and!; split_and!; congruence. Qed.

Lemma set_released_identity id ts r : same_identity r (set_released id ts r).
Proof. unfold set_released. case_bool_decide; done. Qed.

Lemma set_released_id id ts r : row_id (set_released id ts r) = row_id r.
Proof. apply set_released_identity. Qed.

Lemma set_released_other id ts r : row_id r ≠ id → set_released id ts r = r.
Proof. intros Hne. unfold set_released. by rewrite bool_decide_false. Qed.

(** ** One release *)

Lemma release_one_active id ts d r :
  active (release_one id ts d) (set_released id ts r) = active d r && bool_decide (row_id r ≠ id).
Proof.
  unfold active. rewrite set_released_id. unfold release_one, set_released. simpl.
  destruct (decide (row_id r = id)) as [->|Hne].
  - rewrite (bool_decide_false (id ≠ id)) by naive_solver. rewrite andb_false_r.
    apply andb_false_iff. right. apply bool_decide_eq_false.
    destruct (releases d !! id) eqn:E; [congruence|]. by rewrite lookup_insert_eq.
  - rewrite (bool_decide_false (row_id r = id)), (bool_decide_true (row_id r ≠ id)) by done.
    rewrite andb_true_r. f_equal. apply bool_decide_ext.
    destruct (releases d !! id); [done|]. by rewrite lookup_insert_ne.
Qed.

(** ** The release loop *)

(** The mark a list of markers leaves on a row. *)
Definition mark (ms : list ReleasedReservationMarker) (r : StoredRow) : StoredRow :=
  match marker_of ms (row_id r) with
  | Some ts => set_released (row_id r) ts r
  | None => r
  end.

Abbreviation marked ms := (marker_id <$> ms).

Definition eligible_id (c : ReleaseReservationExpiryConstraint) (d : Db) (id : Z) : Prop :=
  Exists (eligible c d id) (rows d).

Lemma marker_of_none ms id : id ∉ marked ms → marker_of ms id = None.
Proof.
  intros Hid. unfold marker_of. replace (filter _ ms) with ([] : list ReleasedReservationMarker); [done|].
  symmetry. apply BTreeMapFacts.filter_none. intros m Hm <-. apply Hid. by apply list_elem_of_fmap_2.
Qed.

Lemma marker_of_some ms id : id ∈ marked ms → is_Some (marker_of ms id).
Proof.
  intros (m & -> & Hm)%list_elem_of_fmap. unfold marker_of. rewrite fmap_is_Some.
  destruct (last _) eqn:E; [done|]. apply last_None in E.
  assert (m ∈ filter (λ m', marker_id m' = marker_id m) ms) as Hin by by apply list_elem_of_filter.
  rewrite E in Hin. by apply elem_of_nil in Hin.
Qed.

Lemma marker_of_cons_ne m ms id : id ≠ marker_id m → marker_of (m :: ms) id = marker_of ms id.
Proof. intros Hne. unfold marker_of. by rewrite filter_cons_False by congruence. Qed.

Lemma marker_of_cons_eq m ms :
  marker_id m ∉ marked ms → marker_of (m :: ms) (marker_id m) = Some (marker_released_ts m).
Proof.
  intros Hm. unfold marker_of. rewrite filter_cons_True by done.
  replace (filter _ ms) with ([] : list ReleasedReservationMarker); [done|].
  symmetry. apply BTreeMapFacts.filter_none. intros m' Hm' E. apply Hm. rewrite <-E.
  by apply list_elem_of_fmap_2.
Qed.

Lemma mark_cons m ms r :
  marker_id m ∉ marked ms →
  mark (m :: ms) r = mark ms (set_released (marker_id m) (marker_released_ts m) r).
Proof.
  intros Hm. unfold mark. rewrite set_released_id.
  destruct (decide (row_id r = marker_id m)) as [E|Hne].
  - rewrite E, marker_of_cons_eq, marker_of_none by done. done.
  - rewrite marker_of_cons_ne by done. by rewrite set_released_other.
Qed.

Lemma mark_identity ms r : same_identity r (mark ms r).
Proof. unfold mark. case_match; [apply set_released_identity|done]. Qed.

Lemma eligible_release_one c id ts d id' :
  eligible_id c (release_one id ts d) id' ↔ id' ≠ id ∧ eligible_id c d id'.
Proof.
  unfold eligible_id. rewrite !Exists_exists. cbn [release_one rows]. split.
  - intros (r' & (r & -> & Hr)%list_elem_of_fmap & Hid & Ha & Hc).
    rewrite set_released_id in Hid. rewrite release_one_active in Ha.
    apply andb_true_iff in Ha as [Ha Hne%bool_decide_eq_true]. split; [congruence|].
    exists r. destruct (set_released_identity id ts r) as (_ & _ & _ & _ & _ & _ & _ & He).
    rewrite He in Hc. done.
  - intros (Hne & r & Hr & Hid & Ha & Hc). exists (set_released id ts r).
    split; [by apply list_elem_of_fmap_2|]. unfold eligible.
    rewrite set_released_id, release_one_active, Ha, bool_decide_true by congruence.
    destruct (set_released_identity id ts r) as (_ & _ & _ & _ & _ & _ & _ & He). by rewrite He.
Qed.

(** The loop marks every eligible id once, and nothing else. *)
Lemma release_loop_spec c marker ids d ms d' :
  release_loop c marker ids d = (ms, d') →
  NoDup (marked ms) ∧
  (∀ id, id ∈ marked ms ↔ id ∈ ids ∧ eligible_id c d id) ∧
  rows d' = mark ms <$> rows d ∧ sequence d' = sequence d ∧
  (∀ r, active d' (mark ms r) = active d r && bool_decide (row_id r ∉ marked ms)) ∧
  (∀ id, releases d' !! id = None ↔ releases d !! id = None ∧ id ∉ marked ms).
Proof.
  revert marker d ms d'. induction ids as [|id ids IH]; intros marker d ms d'; simpl.
  { intros [= <- <-]. split_and!; try done.
    - constructor.
    - intros id. rewrite !elem_of_nil. tauto.
    - symmetry. erewrite list_fmap_ext; [apply list_fmap_id|done].
    - intros r. rewrite bool_decide_true by apply not_elem_of_nil. by rewrite andb_true_r.
    - intros id. rewrite elem_of_nil. tauto. }
  fold (eligible_id c d id). case_bool_decide as He.
  - destruct (release_loop _ _ _ _) as [ms' d''] eqn:E. intros [= <- <-].
    apply IH in E as (Hnd & Hel & Hrows & Hseq & Hact & Hled). clear IH.
    assert (id ∉ marked ms') as Hid.
    { intros [_ Hi]%Hel. by apply eligible_release_one in Hi as [? _]. }
    split_and!; simpl.
    + by apply NoDup_cons.
    + intros id'. rewrite !elem_of_cons, Hel, eligible_release_one.
      destruct (decide (id' = id)) as [->|]; naive_solver.
    + rewrite Hrows. cbn [release_one rows]. rewrite <-list_fmap_compose.
      apply list_fmap_ext. intros i r _. symmetry. by apply mark_cons.
    + done.
    + intros r. rewrite mark_cons by done. simpl. rewrite Hact, release_one_active, set_released_id.
      rewrite <-andb_assoc. f_equal. rewrite <-bool_decide_and. apply bool_decide_ext.
      rewrite elem_of_cons. naive_solver.
    + intros id'. rewrite Hled. cbn [release_one releases]. rewrite elem_of_cons.
      destruct (releases d !! id) eqn:El; [|rewrite lookup_insert; case_decide]; naive_solver.
  - intros E. apply IH in E as (Hnd & Hel & Hrest). split_and!; [done| |apply Hrest..].
    intros id'. rewrite Hel, elem_of_cons. naive_solver.
Qed.

Lemma mark_ids ms (rs : list StoredRow) : row_id <$> (mark ms <$> rs) = row_id <$> rs.
Proof.
  rewrite <-list_fmap_compose. apply list_fmap_ext. intros i r _. apply mark_identity.
Qed.

Section wf_update.

(** Changing rows without touching their ids keeps well-formedness. *)
Lemma wf_update f d L :
  wf d → (∀ r, row_id (f r) = row_id r) →
  map_Forall (λ id _, id ≤ sequence d) L →
  wf {| rows := f <$> rows d; releases := L; sequence := sequence d |}.
Proof.
  intros [Hids Hrange Hledger Hseq] Hf HL. split; simpl; [|..|done|done].
  - rewrite <-list_fmap_compose. erewrite list_fmap_ext; [exact Hids|]. intros i r _. apply Hf.
  - apply Forall_fmap. eapply Forall_impl; [exact Hrange|]. simpl. intros r. by rewrite (Hf r).
Qed.

Lemma eligible_in_range c d id : wf d → eligible_id c d id → id ≤ sequence d.
Proof.
  intros Hwf (r & Hr & <- & _)%Exists_exists. pose proof (wf_range _ Hwf) as Hrange.
  eapply Forall_forall in Hrange; [|done]. simpl in Hrange. lia.
Qed.

Lemma release_loop_wf c marker ids d :
  wf d → wf (snd (release_loop c marker ids d)).
Proof.
  revert marker d. induction ids as [|id ids IH]; intros marker d Hwf; simpl; [done|].
  fold (eligible_id c d id). case_bool_decide as He; [|by apply IH].
  destruct (release_loop _ _ _ _) as [ms' d''] eqn:E. simpl.
  change d'' with (ms', d'').2. rewrite <-E. apply IH, wf_update; [done| |].
  - intros r. apply set_released_identity.
  - pose proof (wf_ledger _ Hwf) as Hl. destruct (releases d !! id); [done|].
    apply map_Forall_insert_2; [by eapply eligible_in_range|done].
Qed.
End wf_update.

(** ** Chunk plans *)



(** ** Chunk plans *)

Lemma chunk_plan_eq p i :
  release_reservation_chunk_plan p i =
  let il := Z.min 128 (Z.max 1 (996 - p)) in let pl := Z.min 128 (Z.max 1 (996 - i)) in
  match il <? i, pl <? p with
  | false, false => None
  | true, false => Some (ReservationIds, il)
  | false, true => Some (Paths, pl)
  | true, true => if p <=? i then Some (ReservationIds, il) else Some (Paths, pl)
  end.
Proof.
  unfold release_reservation_chunk_plan, MAX_RELEASE_RESERVATION_FILTER_ITEMS,
    MAX_RELEASE_RESERVATION_CHUNK_ITEMS, SQLITE_MAX_BIND_PARAMS,
    RELEASE_RESERVATION_BASE_BIND_PARAMS, u64_saturating_sub. cbn zeta.
  replace (Z.max (Z.max 0 (999 - 3 - p)) 1) with (Z.max 1 (996 - p)) by lia.
  replace (Z.max (Z.max 0 (999 - 3 - i)) 1) with (Z.max 1 (996 - i)) by lia. done.
Qed.

Ltac plan_cases :=
  rewrite ?chunk_plan_eq; cbn zeta;
  repeat match goal with
  | |- context [?a <? ?b] => destruct (Z.ltb_spec a b)
  | |- context [?a <=? ?b] => destruct (Z.leb_spec a b)
  end.

(** A statement that is not chunked stays far below SQLite's parameter limit. *)
Lemma chunk_plan_none p i : release_reservation_chunk_plan p i = None → p ≤ 128 ∧ i ≤ 128.
Proof. plan_cases; try done. lia. Qed.

(** After chunking one filter, at most the other one is chunked further. *)
Lemma chunk_plan_ids p i n :
  release_reservation_chunk_plan p i = Some (ReservationIds, n) → 1 ≤ n ≤ 128 ∧
  ∀ i', i' ≤ n → release_reservation_chunk_plan p i' = None ∨
    ∃ m, 1 ≤ m ∧ release_reservation_chunk_plan p i' = Some (Paths, m) ∧
    ∀ p', p' ≤ m → release_reservation_chunk_plan p' i' = None.
Proof.
  intros Hplan.
  assert (n = Z.min 128 (Z.max 1 (996 - p))) as Hn.
  { revert Hplan. plan_cases; congruence. }
  split; [lia|]. intros i' Hi'.
  destruct (Z.le_gt_cases p (Z.min 128 (Z.max 1 (996 - i')))).
  - left. plan_cases; (done || lia).
  - right. exists (Z.min 128 (Z.max 1 (996 - i'))). split_and!; [lia| |].
    + plan_cases; (done || lia).
    + intros p' Hp'. plan_cases; (done || lia).
Qed.

Lemma chunk_plan_paths p i n :
  release_reservation_chunk_plan p i = Some (Paths, n) → 1 ≤ n ≤ 128 ∧
  ∀ p', p' ≤ n → release_reservation_chunk_plan p' i = None ∨
    ∃ m, 1 ≤ m ∧ release_reservation_chunk_plan p' i = Some (ReservationIds, m) ∧
    ∀ i', i' ≤ m → release_reservation_chunk_plan p' i' = None.
Proof.
  intros Hplan.
  assert (n = Z.min 128 (Z.max 1 (996 - i))) as Hn.
  { revert Hplan. plan_cases; congruence. }
  split; [lia|]. intros p' Hp'.
  destruct (Z.le_gt_cases i (Z.min 128 (Z.max 1 (996 - p')))).
  - left. plan_cases; (done || lia).
  - right. exists (Z.min 128 (Z.max 1 (996 - p'))). split_and!; [lia| |].
    + plan_cases; (done || lia).
    + intros i' Hi'. plan_cases; (done || lia).
Qed.

(** ** A release, chunked or not *)

Section release.
Context `{ConflictDetectorLaws} `{CellDecode}.

(** No other connection writes between the transactions. *)
Definition undisturbed (env : Environment) : Prop := ∀ t d, interfere env t d = d.

(** From [d] to [d'] the rows keep their identity, exactly the active rows
    selected by [sel] become inactive, and those are the rows reported. *)
Definition releases_exactly (sel : StoredRow → Prop) (d d' : Db)
    (out : list FileReservationRow) : Prop :=
  Forall2 (λ r r', same_identity r r' ∧ (active d' r' = true → r' = r) ∧
    (active d' r' = true ↔ active d r = true ∧ ¬ sel r)) (rows d) (rows d') ∧
  sequence d' = sequence d ∧
  (∀ id, Some id ∈ fr_id <$> out ↔ ∃ r, r ∈ rows d ∧ row_id r = id ∧ active d r = true ∧ sel r).

Definition selected (project agent : Z) (paths : option (list str)) (ids : option (list Z))
    (r : StoredRow) : Prop :=
  project_id r = project ∧ agent_id r = agent ∧ release_filter ids paths r.

#[export] Instance selected_dec project agent paths ids r :
  Decision (selected project agent paths ids r).
Proof. unfold selected. apply _. Defined.

(** A selection that only looks at a row's identity. *)
Definition identity_based (sel : StoredRow → Prop) : Prop :=
  ∀ r r', same_identity r r' → sel r' ↔ sel r.

Lemma selected_identity project agent paths ids : identity_based (selected project agent paths ids).
Proof.
  intros r r' (Hid & Hp & Ha & Hpat & _). unfold selected, release_filter.
  by rewrite Hid, Hp, Ha, Hpat.
Qed.

Lemma releases_exactly_nothing sel d :
  (∀ r, r ∈ rows d → active d r = true → ¬ sel r) → releases_exactly sel d d [].
Proof.
  intros Hno. split_and!; [|done|].
  - apply Forall_Forall2_diag, Forall_forall. intros r Hr. split_and!; [done|done|]. naive_solver.
  - intros id. rewrite elem_of_nil. naive_solver.
Qed.

Lemma releases_exactly_app sel1 sel2 d d1 d2 out1 out2 :
  identity_based sel2 →
  releases_exactly sel1 d d1 out1 → releases_exactly sel2 d1 d2 out2 →
  releases_exactly (λ r, sel1 r ∨ sel2 r) d d2 (out1 ++ out2).
Proof.
  intros Hid (R1 & Hs1 & Ho1) (R2 & Hs2 & Ho2). split_and!; [|congruence|].
  - eapply Forall2_trans; [|exact R1|exact R2]. simpl.
    intros r r1 r2 (Hi1 & He1 & Ha1) (Hi2 & He2 & Ha2). split_and!.
    + by eapply same_identity_trans.
    + intros Ha. rewrite (He2 Ha). apply He1. by apply Ha2 in Ha as [? _].
    + rewrite Ha2, Ha1. rewrite (Hid r r1 Hi1). tauto.
  - intros id. rewrite fmap_app, elem_of_app, Ho1, Ho2. split.
    + intros [(r & ? & ? & ? & ?)|(r1 & Hr1 & Hrid & Ha & Hsel)]; [naive_solver|].
      apply list_elem_of_lookup in Hr1 as [i Hi].
      destruct (Forall2_lookup_r _ _ _ _ _ R1 Hi) as (r & Hr & Hi1 & _ & Ha1).
      exists r. apply list_elem_of_lookup_2 in Hr.
      apply Ha1 in Ha as [? ?]. split_and!; [done| |done|right; by apply (Hid r r1)].
      destruct Hi1 as [E _]. congruence.
    + intros (r & Hr & Hrid & Ha & Hsel). destruct Hsel as [Hsel|Hsel]; [left; eauto|].
      destruct (decide (id ∈ row_id <$> filter (λ r', row_id r' = id ∧ Some id ∈ fr_id <$> out1) (rows d)))
        as [Hin|Hnin].
      { left. apply list_elem_of_fmap in Hin as (r' & _ & [[? Hin] _]%list_elem_of_filter).
        by apply Ho1. }
      right. apply list_elem_of_lookup in Hr as [i Hi].
      destruct (Forall2_lookup_l _ _ _ _ _ R1 Hi) as (r1 & Hr1 & Hi1 & _ & Ha1).
      exists r1. apply list_elem_of_lookup_2 in Hr1, Hi. split_and!; [done| | |by apply (Hid r r1)].
      * destruct Hi1 as [E _]. congruence.
      * apply Ha1. split; [done|]. intros Hsel1. apply Hnin.
        apply list_elem_of_fmap. exists r. split; [done|]. apply list_elem_of_filter.
        split_and!; [done| |done]. apply Ho1. eauto.
Qed.

(** ** Decoding *)

Definition decodable (r : StoredRow) : Prop := is_Some (decode_cell (released_ts r)).

Lemma decode_rows_ok rs out :
  decode_rows rs = Ok out → fr_id <$> out = Some <$> (row_id <$> rs) ∧ length out = length rs.
Proof.
  revert out. induction rs as [|r rs IH]; intros out; simpl; [by intros [= <-]|].
  unfold decode_file_reservation_row. destruct (decode_cell _); [|done].
  destruct (decode_rows rs) as [out'|]; [|done]. intros [= <-].
  destruct (IH out' eq_refl) as [E ?]. simpl. split; [by f_equal|lia].
Qed.

Lemma decode_rows_err rs e : decode_rows rs = Err e → ∃ r, r ∈ rs ∧ ¬ decodable r.
Proof.
  induction rs as [|r rs IH]; simpl; [done|].
  unfold decode_file_reservation_row, decodable in *. destruct (decode_cell (released_ts r)) eqn:E.
  - destruct (decode_rows rs); [done|]. intros ?. destruct IH as (r' & ? & ?); [done|].
    exists r'. split; [by right|done].
  - intros _. exists r. split; [left|]. rewrite E. by intros [? ?].
Qed.

Lemma omap_ids (out : list FileReservationRow) ids : fr_id <$> out = Some <$> ids → omap fr_id out = ids.
Proof.
  revert ids. induction out as [|r out IH]; intros [|id ids]; simpl; try done.
  intros [= E ?]. rewrite E. f_equal. by apply IH.
Qed.

Lemma apply_markers_ids (out : list FileReservationRow) ms id :
  Some id ∈ fr_id <$> apply_release_markers out ms ↔ Some id ∈ fr_id <$> out ∧ id ∈ marked ms.
Proof.
  unfold apply_release_markers. rewrite list_elem_of_fmap. split.
  - intros (r' & E & (r & Hr & Hf)%list_elem_of_omap).
    destruct (fr_id r) as [id'|] eqn:Eid; [|done]. simpl in Hf.
    destruct (marker_of ms id') eqn:Em; [|done]. simpl in Hf. injection Hf as <-. simpl in E.
    assert (id' = id) as -> by congruence. split; [apply list_elem_of_fmap; eauto|].
    destruct (decide (id ∈ marked ms)); [done|]. by rewrite marker_of_none in Em.
  - intros [(r & E & Hr)%list_elem_of_fmap Hid]. destruct (marker_of_some _ _ Hid) as [ts Hts].
    eexists. split; [|apply list_elem_of_omap; exists r; split; [done|]].
    2: { rewrite <-E. simpl. rewrite Hts. simpl. reflexivity. }
    done.
Qed.

(** Ids determine rows. *)
Lemma wf_id_inj d r1 r2 : wf d → r1 ∈ rows d → r2 ∈ rows d → row_id r1 = row_id r2 → r1 = r2.
Proof.
  intros Hwf [i Hi]%list_elem_of_lookup [j Hj]%list_elem_of_lookup E.
  assert (i = j) as ->; [|congruence]. eapply NoDup_lookup; [apply (wf_ids _ Hwf)| |].
  - rewrite list_lookup_fmap, Hi. done.
  - rewrite list_lookup_fmap, Hj. simpl. by rewrite E.
Qed.

Lemma release_single_spec env project agent paths ids clock d :
  wf d → undisturbed env →
  match release_single env project agent paths ids clock d with
  | (Ok out, _, d') => wf d' ∧ releases_exactly (selected project agent paths ids) d d' out
  | (Err _, _, d') => d' = d ∧ ∃ r, r ∈ rows d ∧ active d r = true ∧ ¬ decodable r
  end.
Proof.
  intros Hwf Henv. unfold release_single, select_for_release.
  set (sel := filter _ (rows d)).
  assert (∀ r, r ∈ sel ↔ r ∈ rows d ∧ active d r = true ∧ selected project agent paths ids r) as Hsel.
  { intros r. unfold sel, selected. rewrite list_elem_of_filter. naive_solver. }
  destruct (decode_rows sel) as [out|e] eqn:Ed.
  2: { apply decode_rows_err in Ed as (r & [? [? _]]%Hsel & ?). eauto. }
  apply decode_rows_ok in Ed as [Eids Elen]. destruct out as [|row out'].
  { split; [done|]. apply releases_exactly_nothing. intros r Hr Ha Hs.
    destruct sel; [|done]. eapply not_elem_of_nil, Hsel. eauto. }
  set (out := row :: out') in *. rewrite (omap_ids _ _ Eids).
  rewrite bool_decide_false by (rewrite length_fmap; lia).
  unfold release_reservations_by_ids_matching_expiry,
    release_reservations_by_ids_with_expiry_constraint. rewrite Henv. simpl from_option.
  rewrite bool_decide_false by (by destruct sel).
  pose proof (release_loop_wf Any (tick env clock) (row_id <$> sel) d Hwf) as Hwf'.
  destruct (release_loop _ _ _ _) as [ms d'] eqn:El. simpl in Hwf'.
  apply release_loop_spec in El as (_ & Hel & Hrows & Hseq & Hact & _).
  assert (∀ r, r ∈ rows d → row_id r ∈ marked ms ↔
            active d r = true ∧ selected project agent paths ids r) as Hmarked.
  { intros r Hr. rewrite Hel, list_elem_of_fmap. split.
    - intros [(r' & E & [Hr' [? ?]]%Hsel) _]. by rewrite (wf_id_inj d r r').
    - intros [Ha Hs]. split; [exists r; by rewrite Hsel|].
      apply Exists_exists. exists r. done. }
  split; [done|]. split_and!; [|done|].
  - rewrite Hrows. apply Forall2_fmap_r, Forall_Forall2_diag, Forall_forall. intros r Hr.
    unfold compose. rewrite Hact, andb_true_iff, bool_decide_eq_true, Hmarked by done. split_and!.
    + apply mark_identity.
    + intros [_ Hn]. unfold mark. rewrite marker_of_none; [done|]. by rewrite Hmarked.
    + naive_solver.
  - intros id. rewrite apply_markers_ids, Eids, Hel. split.
    + intros [_ [(r & -> & Hr)%list_elem_of_fmap _]]. apply Hsel in Hr. naive_solver.
    + intros (r & Hr & <- & Ha & Hs).
      assert (row_id r ∈ row_id <$> sel) as Hin by (apply list_elem_of_fmap_2, Hsel; eauto).
      split; [by apply list_elem_of_fmap_2|]. split; [done|]. apply Exists_exists. exists r. done.
Qed.

(** ** The chunks of a release together *)

(** What a release that selects [sel] leaves behind. *)
Definition release_post (sel : StoredRow → Prop) (d : Db)
    (res : option (Outcome (list FileReservationRow) * Z * Db)) : Prop :=
  match res with
  | Some (Ok out, _, d') => wf d' ∧ releases_exactly sel d d' out
  | Some (Err _, _, d') => wf d' ∧ ∃ r, r ∈ rows d ∧ active d r = true ∧ ¬ decodable r
  | None => False
  end.

Lemma releases_exactly_ext sel1 sel2 d d' out :
  (∀ r, sel1 r ↔ sel2 r) → releases_exactly sel1 d d' out → releases_exactly sel2 d d' out.
Proof.
  intros Hext (R1 & R2 & R3). split_and!; [|done|].
  - eapply Forall2_impl; [exact R1|]. simpl. intros r r' (? & ? & Ha). by rewrite <-Hext.
  - intros id. rewrite R3. by setoid_rewrite Hext.
Qed.

Lemma release_post_ext sel1 sel2 d res :
  (∀ r, sel1 r ↔ sel2 r) → release_post sel1 d res → release_post sel2 d res.
Proof.
  intros Hext. unfold release_post. destruct res as [[[[out|e] c] d']|]; try done.
  intros [? ?]. split; [done|]. by eapply releases_exactly_ext.
Qed.

(** An active row of the later database was there before. *)
Lemma releases_exactly_active sel d d' out r :
  releases_exactly sel d d' out → r ∈ rows d' → active d' r = true → r ∈ rows d ∧ active d r = true.
Proof.
  intros (Hf & _ & _) [i Hi]%list_elem_of_lookup Ha.
  destruct (Forall2_lookup_r _ _ _ _ _ Hf Hi) as (r0 & Hr0 & _ & He & Hact).
  assert (r0 = r) as <- by (symmetry; by apply He).
  split; [by eapply list_elem_of_lookup_2|]. by apply Hact in Ha as [? _].
Qed.

Lemma release_chunks_post {A} call (sel : A → StoredRow → Prop) (l : list A) clock d :
  wf d → (∀ c, identity_based (sel c)) →
  (∀ c clock d, c ∈ l → wf d → release_post (sel c) d (call c clock d)) →
  release_post (λ r, ∃ c, c ∈ l ∧ sel c r) d (release_chunks call l clock d).
Proof.
  intros Hwf Hid. revert clock d Hwf. induction l as [|c l IH]; intros clock d Hwf Hcall; simpl.
  { split; [done|]. apply releases_exactly_nothing. intros r _ _ (c & Hc & _). by apply elem_of_nil in Hc. }
  pose proof (Hcall c clock d ltac:(left) Hwf) as Hc.
  destruct (call c clock d) as [[[[out|e] clock1] d1]|]; [|done..]. simpl in Hc |- *.
  destruct Hc as [Hwf1 Hex].
  pose proof (IH clock1 d1 Hwf1 (λ c' k' d' Hc', Hcall c' k' d' (list_elem_of_further _ _ _ Hc'))) as Hl.
  destruct (release_chunks call l clock1 d1) as [[[[more|e] clock2] d2]|]; [| |done]; simpl in Hl |- *.
  - destruct Hl as [Hwf2 Hex2]. split; [done|].
    eapply releases_exactly_ext; [|eapply (releases_exactly_app _ _ d d1 d2); [|exact Hex|exact Hex2]].
    + intros r. setoid_rewrite elem_of_cons. naive_solver.
    + intros r r' Hrr'. setoid_rewrite (Hid _ r r' Hrr'). done.
  - destruct Hl as (Hwf2 & r & Hr & Ha & Hn). split; [done|].
    destruct (releases_exactly_active _ _ _ _ _ Hex Hr Ha). eauto.
Qed.

(** The recursion is [n] deep at most. *)
Fixpoint depth (n : nat) (paths : option (list str)) (ids : option (list Z)) : Prop :=
  match n with
  | O => False
  | S n =>
      match release_reservation_chunk_plan (count paths) (count ids) with
      | None => True
      | Some (ReservationIds, k) =>
          1 ≤ k ∧ ∀ chunk, Z.of_nat (length chunk) ≤ k → depth n paths (Some chunk)
      | Some (Paths, k) =>
          1 ≤ k ∧ ∀ chunk, Z.of_nat (length chunk) ≤ k → depth n (Some chunk) ids
      end
  end.

Lemma depth_three paths ids : depth 3 paths ids.
Proof.
  cbn [depth].
  destruct (release_reservation_chunk_plan (count paths) (count ids)) as [[[] n]|] eqn:E; [| |done].
  - apply chunk_plan_ids in E as [? Hsub]. split; [lia|]. intros chunk Hchunk.
    cbn [from_option]. destruct (Hsub _ Hchunk) as [->|(m & ? & -> & Hm)]; [done|]. split; [lia|].
    intros chunk' Hchunk'. cbn [from_option]. by rewrite Hm.
  - apply chunk_plan_paths in E as [? Hsub]. split; [lia|]. intros chunk Hchunk.
    cbn [from_option]. destruct (Hsub _ Hchunk) as [->|(m & ? & -> & Hm)]; [done|]. split; [lia|].
    intros chunk' Hchunk'. cbn [from_option]. by rewrite Hm.
Qed.

(** Filtering by the chunks one after the other is filtering by the whole. *)
Lemma selected_ids_chunks project agent paths l k r :
  1 ≤ k →
  (∃ c, c ∈ chunks (Z.to_nat k) l ∧ selected project agent paths (Some c) r) ↔
  selected project agent paths (Some l) r.
Proof.
  intros Hk. unfold selected, release_filter. rewrite (chunks_elem (Z.to_nat k) l) by lia.
  naive_solver.
Qed.

Lemma selected_paths_chunks project agent ids l k r :
  1 ≤ k →
  (∃ c, c ∈ chunks (Z.to_nat k) l ∧ selected project agent (Some c) ids r) ↔
  selected project agent (Some l) ids r.
Proof.
  intros Hk. unfold selected, release_filter. rewrite (chunks_elem (Z.to_nat k) l) by lia.
  naive_solver.
Qed.

Lemma release_fuel_post env project agent fuel paths ids clock d :
  wf d → undisturbed env → depth fuel paths ids →
  release_post (selected project agent paths ids) d
    (release_reservations_fuel fuel env project agent paths ids clock d).
Proof.
  intros Hwf Henv. revert paths ids clock d Hwf.
  induction fuel as [|fuel IH]; intros paths ids clock d Hwf Hd; [done|].
  cbn [release_reservations_fuel depth] in *.
  destruct (release_reservation_chunk_plan (count paths) (count ids)) as [[[] k]|] eqn:Eplan.
  - destruct Hd as [Hk Hd]. destruct ids as [l|].
    + eapply release_post_ext; [intros r; by apply (selected_ids_chunks _ _ _ l k)|].
      apply release_chunks_post; [done|intros c; apply selected_identity|].
      intros c clock' d' Hc Hwf'. apply IH; [done|]. apply Hd.
      apply chunks_length in Hc. lia.
    + exfalso. simpl in Eplan. revert Eplan. plan_cases; (done || lia).
  - destruct Hd as [Hk Hd]. destruct paths as [l|].
    + eapply release_post_ext; [intros r; by apply (selected_paths_chunks _ _ _ l k)|].
      apply release_chunks_post; [done|intros c; apply selected_identity|].
      intros c clock' d' Hc Hwf'. apply IH; [done|]. apply Hd.
      apply chunks_length in Hc. lia.
    + exfalso. simpl in Eplan. revert Eplan. plan_cases; (done || lia).
  - pose proof (release_single_spec env project agent paths ids clock d Hwf Henv) as Hs.
    unfold release_post. destruct (release_single _ _ _ _ _ _ _) as [[[out|e] c'] d']; [done|].
    destruct Hs as [-> ?]. done.
Qed.

(** ** Renewing *)

(** A renewal of one row of the table. *)
Definition renew_row (now project agent extend : Z) (paths : option (list str))
    (ids : option (list Z)) (d : Db) (r : StoredRow) : StoredRow :=
  if bool_decide (renewable now project agent paths ids d r) then
    set_expires (row_id r) (renewed_expiry now extend (expires_ts r)) r
  else r.

Lemma set_expires_id id e r : row_id (set_expires id e r) = row_id r.
Proof. unfold set_expires. by case_bool_decide. Qed.

Lemma set_expires_other id e r : row_id r ≠ id → set_expires id e r = r.
Proof. intros Hne. unfold set_expires. by rewrite bool_decide_false. Qed.

Lemma decode_rows_expiry rs out :
  decode_rows rs = Ok out →
  Forall2 (λ r row, fr_id row = Some (row_id r) ∧ fr_expires_ts row = expires_ts r) rs out.
Proof.
  revert out. induction rs as [|r rs IH]; intros out; simpl; [intros [= <-]; constructor|].
  unfold decode_file_reservation_row. destruct (decode_cell _); [|done].
  destruct (decode_rows rs) as [out'|]; [|done]. intros [= <-]. constructor; [done|]. by apply IH.
Qed.

Lemma renew_loop_spec now extend rs out d :
  Forall2 (λ r row, fr_id row = Some (row_id r) ∧ fr_expires_ts row = expires_ts r) rs out →
  NoDup (row_id <$> rs) →
  ∃ out' d', renew_loop now extend out d = (Ok out', d') ∧
    releases d' = releases d ∧ sequence d' = sequence d ∧
    Forall2 (λ r row, fr_id row = Some (row_id r) ∧
                      fr_expires_ts row = renewed_expiry now extend (expires_ts r)) rs out' ∧
    Forall2 (λ r r', (row_id r ∉ row_id <$> rs → r' = r) ∧
                     (r ∈ rs → r' = set_expires (row_id r) (renewed_expiry now extend (expires_ts r)) r))
      (rows d) (rows d').
Proof.
  intros Hrs. revert d. induction Hrs as [|r row rs out [Hid He] Hrs IH]; intros d Hnd; simpl.
  { exists [], d. split_and!; [done..|constructor|]. apply Forall_Forall2_diag, Forall_forall.
    intros r Hr. split; [done|]. by intros ?%elem_of_nil. }
  apply NoDup_cons in Hnd as [Hnin Hnd]. rewrite Hid, He.
  set (e := renewed_expiry now extend (expires_ts r)).
  set (d1 := {| rows := set_expires (row_id r) e <$> rows d; releases := releases d;
                sequence := sequence d |}).
  destruct (IH d1 Hnd) as (out' & d' & -> & Hrel & Hseq & Hout & Hrows).
  eexists _, d'. split_and!; [reflexivity|done|done|constructor; [done|done]|].
  simpl in Hrows. apply Forall2_fmap_l in Hrows. eapply Forall2_impl; [exact Hrows|]. cbn beta.
  intros r0 r0' [Hout0 Hin0]. rewrite set_expires_id in Hout0. split.
  - intros [Hne Hni]%not_elem_of_cons.
    rewrite (Hout0 Hni). by apply set_expires_other.
  - intros [->|Hr0]%elem_of_cons; [by apply Hout0|].
    assert (row_id r0 ≠ row_id r) as Hne.
    { intros E. apply Hnin. rewrite <-E. by apply list_elem_of_fmap_2. }
    rewrite set_expires_other in Hin0 by done. by apply Hin0.
Qed.

(** The renewal transaction on every branch. *)
Lemma renew_result now project agent extend_seconds paths ids d :
  wf d →
  let extend := i64_saturating_mul extend_seconds 1000000 in
  match renew_reservations now project agent extend_seconds paths ids d with
  | (Ok out, d') =>
      rows d' = renew_row now project agent extend paths ids d <$> rows d ∧
      releases d' = releases d ∧ sequence d' = sequence d ∧
      Forall2 (λ r row, fr_id row = Some (row_id r) ∧
                        fr_expires_ts row = renewed_expiry now extend (expires_ts r))
        (filter (renewable now project agent paths ids d) (rows d)) out
  | (Err _, d') => d' = d ∧ ∃ r, r ∈ rows d ∧ active d r = true ∧ ¬ decodable r
  end.
Proof.
  intros Hwf extend. unfold renew_reservations. set (sel := filter _ (rows d)).
  destruct (decode_rows sel) as [out|e] eqn:Ed.
  2: { apply decode_rows_err in Ed as (r & [(? & ? & ? & ?) ?]%list_elem_of_filter & ?). eauto. }
  apply decode_rows_expiry in Ed.
  assert (NoDup (row_id <$> sel)) as Hnd.
  { apply NoDup_fmap_filter, (wf_ids _ Hwf). }
  destruct (renew_loop_spec now extend sel out d Ed Hnd) as (out' & d' & Hl & Hrel & Hseq & Hout & Hrows).
  fold extend. rewrite Hl. split_and!; [|done..].
  apply list_eq_Forall2, Forall2_fmap_r, Forall2_same_length_lookup.
  split; [symmetry; by eapply Forall2_length|]. intros i r' r Hr' Hr.
  assert (r ∈ rows d) as Hin by by eapply list_elem_of_lookup_2.
  destruct (Forall2_lookup_lr _ _ _ _ _ _ Hrows Hr Hr') as [Hno Hyes].
  unfold compose, renew_row. case_bool_decide as Hd.
  - apply Hyes. unfold sel. by apply list_elem_of_filter.
  - apply Hno. intros (r0 & E & [Hd0 Hin0]%list_elem_of_filter)%list_elem_of_fmap.
    apply Hd. by rewrite (wf_id_inj d r r0).
Qed.
End release.
