(* ===== verification/ReservationExclusion.v ===== *)
(** * Mutual exclusion of file reservations

    The database as a transition system: transactions of any number of agents
    interleave, each carrying the clock value it read before it began, and the
    clock only moves forward (see [Timestamps]).  The theorems of this file say
    what the reservation table guarantees in every reachable state. *)

From stdpp Require Import base tactics list gmap strings.
From S2P Require Import Prelude OverlapDp PatternOverlap RefGlob KeyedBuckets ReservationIndex.
From S2P Require Import ReservationIndexFacts ReservationDb ReservationDbFacts ReservationRelease.
Import PatternOverlap ReservationDb.
Open Scope Z_scope.

Record World := { db : Db; clock : Z }.

(** The write transactions.  [ERelease] is the second transaction of
    [release_reservations], [release_expired_reservations] and
    [force_release_reservation], with whatever ids and constraint they pass. *)
Inductive Event :=
  | ETick (t : Z)
  | ECreate (now project agent : Z) (paths : list str) (ttl : Z) (excl : bool) (why : str)
  | ERenew (now project agent extend_seconds : Z) (paths : option (list str)) (ids : option (list Z))
  | ERelease (marker : Z) (ids : list Z) (c : ReleaseReservationExpiryConstraint).

Section exclusion.
Context `{ConflictDetectorLaws} `{CellDecode}.

Definition apply_event (e : Event) (w : World) : World :=
  match e with
  | ETick t => {| db := db w; clock := t |}
  | ECreate now project agent paths ttl excl why =>
      {| db := snd (create_file_reservations now project agent paths ttl excl why (db w));
         clock := clock w |}
  | ERenew now project agent extend paths ids =>
      {| db := snd (renew_reservations now project agent extend paths ids (db w)); clock := clock w |}
  | ERelease marker ids c =>
      {| db := snd (release_reservations_by_ids_with_expiry_constraint marker ids c (db w));
         clock := clock w |}
  end.

(** What the callers guarantee: the clock does not go back, a reading of it is
    not from the future, and SQLite does not run out of rowids. *)
Definition enabled (e : Event) (w : World) : Prop :=
  match e with
  | ETick t => clock w ≤ t
  | ECreate now _ _ paths _ _ _ =>
      now ≤ clock w ∧ sequence (db w) + Z.of_nat (length paths) ≤ i64_max
  | ERenew now _ _ _ _ _ => now ≤ clock w
  | ERelease _ _ _ => True
  end.

(** A renewal is timely when no reservation it extends has expired between its
    reading of the clock and its transaction. *)
Definition timely (e : Event) (w : World) : Prop :=
  match e with
  | ERenew now project agent _ paths ids =>
      ∀ r, r ∈ rows (db w) → renewable now project agent paths ids (db w) r → clock w < expires_ts r
  | _ => True
  end.

Inductive step (P : Event → World → Prop) : World → World → Prop :=
  | step_event e w : enabled e w → P e w → step P w (apply_event e w).

Definition initial : World := {| db := empty_db; clock := 0 |}.

(** Runs in which every renewal is timely, and all runs. *)
Definition timely_run : World → World → Prop := rtc (step timely).
Definition any_run : World → World → Prop := rtc (step (λ _ _, True)).

(** Two live reservations exclude each other. *)
Definition incompatible (t : Z) (d : Db) (r1 r2 : StoredRow) : Prop :=
  active d r1 = true ∧ active d r2 = true ∧ t < expires_ts r1 ∧ t < expires_ts r2 ∧
  project_id r1 = project_id r2 ∧ agent_id r1 ≠ agent_id r2 ∧
  (exclusive r1 = 1 ∨ exclusive r2 = 1) ∧
  overlaps (compile (path_pattern r1)) (compile (path_pattern r2)) = true.

(** The project root is left out: the index of the creating transaction has no
    lookup for it ([IndexWitnesses.root_reservation_missed]).  The tool layer
    refuses requests that name it, but for names of white space
    ([ReservationToolsFacts.blank_name_takes_everything]). *)
Definition exclusion (t : Z) (d : Db) : Prop :=
  ∀ r1 r2, r1 ∈ rows d → r2 ∈ rows d → not_root (path_pattern r1) → not_root (path_pattern r2) →
           ¬ incompatible t d r1 r2.

(** ** Each transaction keeps the invariant *)

Lemma exclusion_later t t' d : t ≤ t' → exclusion t d → exclusion t' d.
Proof.
  intros Ht He r1 r2 Hr1 Hr2 Hn1 Hn2 (Ha1 & Ha2 & He1 & He2 & Hi). apply (He r1 r2 Hr1 Hr2 Hn1 Hn2).
  split_and!; [done|done|lia|lia|apply Hi..].
Qed.

Lemma incompatible_sym t d r1 r2 : incompatible t d r1 r2 → incompatible t d r2 r1.
Proof.
  unfold incompatible. rewrite (overlaps_sym (compile (path_pattern r1))).
  intros; destruct_and!. split_and!; naive_solver.
Qed.

Lemma create_wf now project agent paths ttl excl why d :
  wf d → sequence d + Z.of_nat (length paths) ≤ i64_max →
  wf (snd (create_file_reservations now project agent paths ttl excl why d)).
Proof.
  intros Hwf Hroom. pose proof (create_result now project agent paths ttl excl why d Hwf Hroom) as Hr.
  destruct (create_file_reservations _ _ _ _ _ _ _ _) as [[out|[]] d']; simpl; try done.
  - destruct Hr as (_ & _ & ->). by apply append_rows_wf.
  - by destruct Hr as [-> _].
Qed.

Lemma create_exclusion now project agent paths ttl excl why d t :
  wf d → sequence d + Z.of_nat (length paths) ≤ i64_max → now ≤ t →
  exclusion t d →
  exclusion t (snd (create_file_reservations now project agent paths ttl excl why d)).
Proof.
  intros Hwf Hroom Ht He.
  pose proof (create_result now project agent paths ttl excl why d Hwf Hroom) as Hr.
  destruct (create_file_reservations _ _ _ _ _ _ _ _) as [[out|[]] d']; simpl; try done.
  2: { by destruct Hr as [-> _]. }
  destruct Hr as (Hfree & _ & ->). set (l := new_rows _ _ _ _ _ _ _ _).
  assert (∀ r, r ∈ rows d → ∀ n, n ∈ l → not_root (path_pattern r) → not_root (path_pattern n) →
    ¬ incompatible t (append_rows l (Z.of_nat (length paths)) d) r n) as Hcross.
  { intros r Hr n Hn%new_rows_elem Hnr Hnn (Ha & _ & Hexp & _ & Hproj & Hag & Hex & Ho).
    destruct Hn as (Hpath & _ & Enp & Ena & Enx & _). rewrite Enp, Ena, Enx in *.
    apply (Hfree (path_pattern n) r Hpath Hnn Hnr). unfold blocks. split_and!; try done; [lia|].
    destruct Hex as [?|Hex]; [by right|left]. by destruct excl. }
  intros r1 r2 [Hr1|Hr1]%elem_of_app [Hr2|Hr2]%elem_of_app Hn1 Hn2 Hi; simpl in *.
  - by apply (He r1 r2 Hr1 Hr2).
  - by eapply (Hcross r1 Hr1 r2).
  - eapply Hcross; [exact Hr2|exact Hr1|done..|]. by apply incompatible_sym.
  - apply new_rows_elem in Hr1, Hr2. destruct Hi as (_ & _ & _ & _ & _ & Hag & _).
    apply Hag. destruct_and!. congruence.
Qed.

Lemma release_wf marker ids c d :
  wf d → wf (snd (release_reservations_by_ids_with_expiry_constraint marker ids c d)).
Proof.
  intros Hwf. unfold release_reservations_by_ids_with_expiry_constraint.
  case_bool_decide; [done|]. pose proof (release_loop_wf c marker ids d Hwf) as Hl.
  by destruct (release_loop _ _ _ _).
Qed.

(** A release only deactivates rows. *)
Lemma release_rows marker ids c d r' :
  let d' := snd (release_reservations_by_ids_with_expiry_constraint marker ids c d) in
  r' ∈ rows d' → ∃ r, r ∈ rows d ∧ same_identity r r' ∧ (active d' r' = true → active d r = true).
Proof.
  unfold release_reservations_by_ids_with_expiry_constraint. case_bool_decide; [by exists r'|].
  destruct (release_loop c marker ids d) as [ms d'] eqn:El. simpl.
  apply release_loop_spec in El as (_ & _ & -> & _ & Hact & _).
  intros (r & -> & Hr)%list_elem_of_fmap. exists r. split_and!; [done|apply mark_identity|].
  rewrite Hact. by intros [? _]%andb_true_iff.
Qed.

Lemma release_exclusion marker ids c d t :
  exclusion t d →
  exclusion t (snd (release_reservations_by_ids_with_expiry_constraint marker ids c d)).
Proof.
  intros He r1' r2' (r1 & Hr1 & Hs1 & Ha1)%release_rows (r2 & Hr2 & Hs2 & Ha2)%release_rows Hn1 Hn2 Hi.
  apply (He r1 r2 Hr1 Hr2); unfold incompatible, same_identity, not_root in *; destruct_and!; [congruence..|].
  split_and!; try congruence; auto; naive_solver congruence.
Qed.

Lemma renew_wf now project agent extend paths ids d :
  wf d → wf (snd (renew_reservations now project agent extend paths ids d)).
Proof.
  intros Hwf. pose proof (renew_result now project agent extend paths ids d Hwf) as Hr.
  destruct (renew_reservations _ _ _ _ _ _ _) as [[out|e] d']; simpl; [|by destruct Hr as [-> _]].
  destruct Hr as (Hrows & Hrel & Hseq & _).
  assert (d' = {| rows := rows d'; releases := releases d'; sequence := sequence d' |}) as -> by by destruct d'.
  rewrite Hrows, Hrel, Hseq. apply wf_update; [done| |apply (wf_ledger _ Hwf)].
  intros r. unfold renew_row, set_expires. by repeat case_bool_decide.
Qed.

Lemma renew_rows now project agent extend paths ids d r' :
  wf d →
  let d' := snd (renew_reservations now project agent extend paths ids d) in
  r' ∈ rows d' →
  ∃ r, r ∈ rows d ∧ row_id r' = row_id r ∧ project_id r' = project_id r ∧
       agent_id r' = agent_id r ∧ path_pattern r' = path_pattern r ∧
       exclusive r' = exclusive r ∧ active d' r' = active d r ∧
       (expires_ts r' = expires_ts r ∨ renewable now project agent paths ids d r).
Proof.
  intros Hwf. pose proof (renew_result now project agent extend paths ids d Hwf) as Hr.
  destruct (renew_reservations _ _ _ _ _ _ _) as [[out|e] d']; simpl.
  2: { destruct Hr as [-> _]. intros ?. exists r'. naive_solver. }
  destruct Hr as (-> & Hrel & _ & _). intros (r & -> & Hr)%list_elem_of_fmap.
  exists r. split; [done|]. unfold active. rewrite Hrel.
  unfold renew_row, set_expires. repeat case_bool_decide; naive_solver.
Qed.

Lemma renew_exclusion now project agent extend paths ids d t :
  wf d → (∀ r, r ∈ rows d → renewable now project agent paths ids d r → t < expires_ts r) →
  exclusion t d → exclusion t (snd (renew_reservations now project agent extend paths ids d)).
Proof.
  intros Hwf Htimely He r1' r2' Hr1' Hr2' Hn1 Hn2 Hi.
  apply (renew_rows _ _ _ _ _ _ _ _ Hwf) in Hr1' as (r1 & Hr1 & ? & ? & ? & ? & ? & ? & Hx1).
  apply (renew_rows _ _ _ _ _ _ _ _ Hwf) in Hr2' as (r2 & Hr2 & ? & ? & ? & ? & ? & ? & Hx2).
  apply (He r1 r2 Hr1 Hr2); unfold incompatible, not_root in *; destruct_and!; [congruence..|].
  split_and!; try congruence.
  - destruct Hx1; [congruence|auto].
  - destruct Hx2; [congruence|auto].
Qed.

Definition good (w : World) : Prop := wf (db w) ∧ exclusion (clock w) (db w).

Lemma initial_good : good initial.
Proof. split; [apply wf_empty|]. by intros r1 r2 ?%elem_of_nil. Qed.

Lemma event_wf e w : enabled e w → wf (db w) → wf (db (apply_event e w)).
Proof.
  destruct e; simpl; intros He Hwf; [done| | |].
  - apply create_wf; naive_solver.
  - by apply renew_wf.
  - by apply release_wf.
Qed.

Lemma event_exclusion e w :
  enabled e w → timely e w → good w → exclusion (clock (apply_event e w)) (db (apply_event e w)).
Proof.
  intros He Ht [Hwf Hex]. destruct e; simpl in *.
  - by eapply exclusion_later.
  - apply create_exclusion; naive_solver.
  - by apply renew_exclusion.
  - by apply release_exclusion.
Qed.

Lemma timely_run_good w w' : timely_run w w' → good w → good w'.
Proof.
  induction 1 as [|w1 w2 w3 [e w He Ht] _ IH]; [done|]. intros Hg. apply IH.
  split; [by apply event_wf, Hg|by apply event_exclusion].
Qed.

(** C1: mutual exclusion.  In every state that any interleaving of
    reservations, renewals, releases and clock ticks can reach from an empty
    database, with every renewal timely, no two live reservations of different
    agents in a project overlap unless both are shared, as long as neither is a
    reservation of the project root. *)
Theorem mutual_exclusion w :
  timely_run initial w →
  ∀ r1 r2, r1 ∈ rows (db w) → r2 ∈ rows (db w) →
    not_root (path_pattern r1) → not_root (path_pattern r2) → ¬ incompatible (clock w) (db w) r1 r2.
Proof. intros Hr. by apply (timely_run_good _ _ Hr), initial_good. Qed.

(** The row is live for a renewal that read the clock at [now], has expired
    since, and the renewal gives it an expiry in the future. *)
Definition revived (now project agent extend_seconds : Z) (paths : option (list str))
    (ids : option (list Z)) (w : World) (r : StoredRow) : Prop :=
  r ∈ rows (db w) ∧ project_id r = project ∧ agent_id r = agent ∧ active (db w) r = true ∧
  release_filter ids paths r ∧ now < expires_ts r ≤ clock w ∧
  clock w < i64_saturating_add (expires_ts r) (i64_saturating_mul extend_seconds 1000000).

(** The row is a live reservation of another agent that excludes [r]. *)
Definition excludes (w : World) (r s : StoredRow) : Prop :=
  s ∈ rows (db w) ∧ project_id s = project_id r ∧ agent_id s ≠ agent_id r ∧
  active (db w) s = true ∧ clock w < expires_ts s ∧ (exclusive r = 1 ∨ exclusive s = 1) ∧
  overlaps (compile (path_pattern r)) (compile (path_pattern s)) = true.

Lemma renew_row_cases now project agent extend paths ids d r :
  let r' := renew_row now project agent extend paths ids d r in
  row_id r' = row_id r ∧ project_id r' = project_id r ∧ agent_id r' = agent_id r ∧
  path_pattern r' = path_pattern r ∧ exclusive r' = exclusive r ∧ active d r' = active d r ∧
  expires_ts r' = (if bool_decide (renewable now project agent paths ids d r)
                   then renewed_expiry now extend (expires_ts r) else expires_ts r).
Proof. unfold renew_row, set_expires, active. repeat case_bool_decide; naive_solver. Qed.

Lemma renew_row_pattern now project agent extend paths ids d r :
  path_pattern (renew_row now project agent extend paths ids d r) = path_pattern r.
Proof. apply renew_row_cases. Qed.

Lemma incompatible_releases t d d' (Hrel : releases d' = releases d) r1 r2 :
  incompatible t d' r1 r2 ↔ incompatible t d r1 r2.
Proof. unfold incompatible, active. by rewrite Hrel. Qed.

Lemma renewed_not_expired now extend e : now < e → renewed_expiry now extend e = i64_saturating_add e extend.
Proof. intros. unfold renewed_expiry. by rewrite Z.max_l by lia. Qed.

(** Two live rows that exclude each other, neither the project root. *)
Definition broken (t : Z) (d : Db) : Prop :=
  ∃ r1 r2, r1 ∈ rows d ∧ r2 ∈ rows d ∧ not_root (path_pattern r1) ∧ not_root (path_pattern r2) ∧
           incompatible t d r1 r2.

(** A renewed row that excludes a live one was revived. *)
Lemma renewed_conflict_revived now project agent extend_seconds paths ids w r1 r2 :
  let f := renew_row now project agent (i64_saturating_mul extend_seconds 1000000) paths ids (db w) in
  exclusion (clock w) (db w) → r1 ∈ rows (db w) → r2 ∈ rows (db w) →
  not_root (path_pattern r1) → not_root (path_pattern r2) →
  incompatible (clock w) (db w) (f r1) (f r2) →
  renewable now project agent paths ids (db w) r1 →
  revived now project agent extend_seconds paths ids w r1 ∧ excludes w r1 r2.
Proof.
  intros f He Hr1 Hr2 Hn1 Hn2 Hi Hren1.
  pose proof (renew_row_cases now project agent (i64_saturating_mul extend_seconds 1000000) paths ids (db w) r1) as C1.
  pose proof (renew_row_cases now project agent (i64_saturating_mul extend_seconds 1000000) paths ids (db w) r2) as C2.
  fold f in C1, C2. cbn zeta in C1, C2. rewrite bool_decide_true in C1 by done.
  assert (agent_id r1 ≠ agent_id r2) as Hag by (unfold incompatible in Hi; destruct_and!; congruence).
  rewrite bool_decide_false in C2 by (unfold renewable in *; naive_solver congruence).
  specialize (He r1 r2 Hr1 Hr2 Hn1 Hn2). unfold renewable in Hren1. destruct_and!.
  rewrite renewed_not_expired in * by done.
  destruct (decide (clock w < expires_ts r1)) as [Hlive|Hexp].
  { destruct He. unfold incompatible in *. destruct_and!. split_and!; congruence. }
  unfold revived, excludes, incompatible in *. destruct_and!.
  split_and!; congruence || lia.
Qed.

(** A revived row excludes the live row it was revived next to. *)
Lemma revived_conflict now project agent extend_seconds paths ids w r s :
  let f := renew_row now project agent (i64_saturating_mul extend_seconds 1000000) paths ids (db w) in
  revived now project agent extend_seconds paths ids w r → excludes w r s →
  incompatible (clock w) (db w) (f r) (f s) ∧ f s = s.
Proof.
  intros f Hrev Hex. unfold revived, excludes in *. destruct_and!.
  assert (f s = s) as Es.
  { unfold f, renew_row. rewrite bool_decide_false; [done|]. unfold renewable. naive_solver congruence. }
  pose proof (renew_row_cases now project agent (i64_saturating_mul extend_seconds 1000000) paths ids (db w) r) as C.
  fold f in C. cbn zeta in C. rewrite bool_decide_true in C by done.
  rewrite renewed_not_expired in C by lia. destruct_and!. rewrite Es. split; [|done].
  unfold incompatible. split_and!; congruence || lia.
Qed.

(** C2: exactly when exclusion is lost.  Where it holds, a renewal breaks it if
    and only if it succeeds and revives a reservation that expired between the
    renewal's reading of the clock and its transaction, while another agent was
    granted a reservation that excludes it. *)
Theorem renewal_breaks_exclusion_iff now project agent extend_seconds paths ids w :
  wf (db w) → exclusion (clock w) (db w) →
  let w' := apply_event (ERenew now project agent extend_seconds paths ids) w in
  broken (clock w') (db w') ↔
  (∃ out, fst (renew_reservations now project agent extend_seconds paths ids (db w)) = Ok out) ∧
  ∃ r s, revived now project agent extend_seconds paths ids w r ∧ excludes w r s ∧
         not_root (path_pattern r) ∧ not_root (path_pattern s).
Proof.
  intros Hwf He. simpl. pose proof (renew_result now project agent extend_seconds paths ids (db w) Hwf) as Hr.
  destruct (renew_reservations _ _ _ _ _ _ _) as [[out|e] d']; simpl.
  2: { destruct Hr as [-> _]. split; [|by intros [[? [=]] _]].
       intros (r1 & r2 & Hr1 & Hr2 & Hn1 & Hn2 & Hi). by destruct (He r1 r2). }
  destruct Hr as (Hrows & Hrel & _ & _). unfold broken. setoid_rewrite (incompatible_releases _ _ _ Hrel).
  rewrite Hrows. clear Hrows. set (f := renew_row _ _ _ _ _ _ _). split.
  - intros (r1' & r2' & (r1 & -> & Hr1)%list_elem_of_fmap & (r2 & -> & Hr2)%list_elem_of_fmap & Hn1 & Hn2 & Hi).
    split; [by exists out|]. unfold f, not_root in Hn1, Hn2. rewrite !renew_row_pattern in Hn1, Hn2.
    destruct (decide (renewable now project agent paths ids (db w) r1)) as [Y1|N1].
    { exists r1, r2. by destruct (renewed_conflict_revived _ _ _ _ _ _ w r1 r2 He Hr1 Hr2 Hn1 Hn2 Hi Y1). }
    destruct (decide (renewable now project agent paths ids (db w) r2)) as [Y2|N2].
    { exists r2, r1. apply incompatible_sym in Hi.
      by destruct (renewed_conflict_revived _ _ _ _ _ _ w r2 r1 He Hr2 Hr1 Hn2 Hn1 Hi Y2). }
    unfold f, renew_row in Hi. rewrite !bool_decide_false in Hi by done. by destruct (He r1 r2).
  - intros (_ & r & s & Hrev & Hex & Hnr & Hns).
    exists (f r), (f s). destruct (revived_conflict _ _ _ _ _ _ _ _ _ Hrev Hex) as [Hi _].
    unfold f, not_root. rewrite !renew_row_pattern. unfold revived, excludes in *.
    split_and!; [apply list_elem_of_fmap_2; naive_solver..|done|done|done].
Qed.

(** No row with this id is active, and none will be inserted. *)
Definition dead (id : Z) (d : Db) : Prop :=
  id ≤ sequence d ∧ ∀ r, r ∈ rows d → row_id r = id → active d r = false.

Lemma create_dead id now project agent paths ttl excl why d :
  wf d → sequence d + Z.of_nat (length paths) ≤ i64_max → dead id d →
  dead id (snd (create_file_reservations now project agent paths ttl excl why d)).
Proof.
  intros Hwf Hroom [Hle Hdead].
  pose proof (create_result now project agent paths ttl excl why d Hwf Hroom) as Hr.
  destruct (create_file_reservations _ _ _ _ _ _ _ _) as [[out|[]] d']; simpl; try done.
  - destruct Hr as (_ & _ & ->). split; [simpl; lia|].
    intros r [Hr|Hr%new_rows_elem]%elem_of_app E; [by apply Hdead|lia].
  - by destruct Hr as [-> _].
Qed.

Lemma renew_dead id now project agent extend paths ids d :
  wf d → dead id d → dead id (snd (renew_reservations now project agent extend paths ids d)).
Proof.
  intros Hwf [Hle Hdead]. split.
  - pose proof (renew_result now project agent extend paths ids d Hwf) as Hr.
    destruct (renew_reservations _ _ _ _ _ _ _) as [[out|e] d']; simpl.
    + by destruct Hr as (_ & _ & -> & _).
    + by destruct Hr as [-> _].
  - intros r Hr E. apply (renew_rows _ _ _ _ _ _ _ _ Hwf) in Hr as (r1 & Hr1 & E1 & _ & _ & _ & _ & -> & _).
    apply Hdead; [done|congruence].
Qed.

Lemma release_dead id marker ids c d :
  dead id d → dead id (snd (release_reservations_by_ids_with_expiry_constraint marker ids c d)).
Proof.
  intros [Hle Hdead]. split.
  - unfold release_reservations_by_ids_with_expiry_constraint. case_bool_decide; [done|].
    destruct (release_loop c marker ids d) as [ms d'] eqn:El. simpl.
    by apply release_loop_spec in El as (_ & _ & _ & -> & _).
  - intros r Hr E. apply release_rows in Hr as (r1 & Hr1 & [E1 _] & Ha1).
    apply not_true_is_false. intros Ha%Ha1. rewrite Hdead in Ha; [done|done|congruence].
Qed.

Lemma event_dead id e w : enabled e w → wf (db w) → dead id (db w) → dead id (db (apply_event e w)).
Proof.
  destruct e; simpl; intros He Hwf Hd; [done| | |].
  - apply create_dead; naive_solver.
  - by apply renew_dead.
  - by apply release_dead.
Qed.

(** C3: a release is final.  Whatever happens next, timely or not, an inactive
    reservation never becomes active again. *)
Theorem released_forever w w' r r' :
  wf (db w) → any_run w w' → r ∈ rows (db w) → active (db w) r = false →
  r' ∈ rows (db w') → row_id r' = row_id r → active (db w') r' = false.
Proof.
  intros Hwf Hrun Hr Ha Hr' Hid.
  assert (dead (row_id r) (db w)) as Hd.
  { split; [|intros r0 Hr0 E; by rewrite (wf_id_inj (db w) r0 r)].
    pose proof (wf_range _ Hwf) as Hrange. eapply Forall_forall in Hrange; [|done]. simpl in *. lia. }
  enough (dead (row_id r) (db w')) as [_ Hdead] by by apply Hdead. clear Hr Ha Hr' Hid.
  induction Hrun as [|w1 w2 w3 [e w He _] _ IH]; [done|].
  apply IH; [by apply event_wf|by apply event_dead].
Qed.

(** C4: creating reservations, on every branch.  Either some requested path
    overlaps a live reservation of another agent (an exclusive one, when the
    request is shared): then that path and pattern are reported and nothing is
    written; or none does, the project root aside, and one row per path is appended, unreleased, with
    fresh consecutive ids and the saturated expiry, and exactly those rows are
    returned.  No other outcome is possible while rowids last. *)
Theorem create_file_reservations_spec now project agent paths ttl excl why d :
  wf d → sequence d + Z.of_nat (length paths) ≤ i64_max →
  (∃ path r, path ∈ paths ∧ blocks now project agent excl d path r ∧
     create_file_reservations now project agent paths ttl excl why d =
     (Err (ResourceBusy path (norm (compile (path_pattern r)))), d)) ∨
  ((∀ path r, path ∈ paths → not_root path → not_root (path_pattern r) →
      ¬ blocks now project agent excl d path r) ∧
   let l := new_rows now (i64_saturating_add now (i64_saturating_mul ttl 1000000))
              project agent excl why (sequence d + 1) paths in
   create_file_reservations now project agent paths ttl excl why d =
   (Ok (report <$> l), append_rows l (Z.of_nat (length paths)) d)).
Proof.
  intros Hwf Hroom.
  pose proof (create_result now project agent paths ttl excl why d Hwf Hroom) as Hr.
  destruct (create_file_reservations _ _ _ _ _ _ _ _) as [[out|[]] d']; try done.
  - right. by destruct Hr as (? & -> & ->).
  - left. destruct Hr as (-> & ? & r & ? & ->). eauto 10.
Qed.

(** C5: releasing an agent's reservations, however large the filters: the call
    returns, its chunks together release exactly the active reservations of the
    agent that pass both filters, leave every other row as it was, and report
    exactly what they released; it fails only on an undecodable row. *)
Theorem release_reservations_spec env project agent paths ids k d :
  wf d → undisturbed env →
  ∃ res k' d', release_reservations env project agent paths ids k d = Some (res, k', d') ∧
  wf d' ∧
  match res with
  | Ok out => releases_exactly (selected project agent paths ids) d d' out
  | Err _ => ∃ r, r ∈ rows d ∧ active d r = true ∧ ¬ decodable r
  end.
Proof.
  intros Hwf Henv. unfold release_reservations.
  pose proof (release_fuel_post env project agent 3 paths ids k d Hwf Henv (depth_three _ _)) as Hp.
  destruct (release_reservations_fuel _ _ _ _ _ _ _ _) as [[[res k'] d']|]; [|done].
  exists res, k', d'. split; [done|]. destruct res; naive_solver.
Qed.

(** the chunk plan keeps every statement within SQLite's limit on bound
    parameters: filters that are not chunked bind fewer, and a chunk has between
    1 and 128 entries. *)
Theorem release_chunk_plan_bounds paths ids :
  match release_reservation_chunk_plan (count paths) (count ids) with
  | None => bind_count ids paths ≤ SQLITE_MAX_BIND_PARAMS
  | Some (_, n) => 1 ≤ n ≤ MAX_RELEASE_RESERVATION_CHUNK_ITEMS
  end.
Proof.
  destruct (release_reservation_chunk_plan (count paths) (count ids)) as [[[] n]|] eqn:E.
  - by apply chunk_plan_ids in E as [? _].
  - by apply chunk_plan_paths in E as [? _].
  - apply chunk_plan_none in E. unfold bind_count, SQLITE_MAX_BIND_PARAMS. lia.
Qed.

(** renewing extends exactly the agent's active, unexpired reservations
    that pass the filters, each from the later of its expiry and now, leaves
    the others alone, and reports the new expiries; an undecodable row undoes
    the whole renewal. *)
Theorem renew_reservations_spec now project agent extend_seconds paths ids d :
  wf d →
  let extend := i64_saturating_mul extend_seconds 1000000 in
  let candidates := filter (renewable now project agent paths ids d) (rows d) in
  match renew_reservations now project agent extend_seconds paths ids d with
  | (Ok out, d') =>
      d' = {| rows := renew_row now project agent extend paths ids d <$> rows d;
              releases := releases d; sequence := sequence d |} ∧
      fr_id <$> out = Some <$> (row_id <$> candidates) ∧
      fr_expires_ts <$> out = renewed_expiry now extend <$> (expires_ts <$> candidates)
  | (Err _, d') => d' = d ∧ ∃ r, r ∈ rows d ∧ active d r = true ∧ ¬ decodable r
  end.
Proof.
  intros Hwf extend candidates.
  pose proof (renew_result now project agent extend_seconds paths ids d Hwf) as Hr.
  destruct (renew_reservations _ _ _ _ _ _ _) as [[out|e] d']; [|done].
  destruct Hr as (Hrows & <- & <- & Hout). fold extend in Hrows. rewrite <-Hrows.
  split; [by destruct d'|].
  fold extend candidates in Hout. clear -Hout.
  induction Hout as [|r row rs out [Hid He] _ [IH1 IH2]]; [done|].
  rewrite !fmap_cons. by rewrite Hid, He, IH1, IH2.
Qed.
End exclusion.

(** ** Concrete runs *)

Module ReservationRuns.
Import RefGlob.

(** Decoding of the cells a modern database holds. *)
#[export] Instance plain_decode : CellDecode := λ v,
  match v with
  | CNull => Some None
  | CInteger z => Some (Some z)
  | _ => None
  end.

Definition run (es : list Event) (w : World) : World := fold_left (λ w e, apply_event e w) es w.

(** Two agents, one file each, in project 1. *)
Definition create_a : Event := ECreate 1 1 10 [lit "src/main.rs"] 60 true (lit "a").
Definition create_b (now : Z) (path : string) : Event := ECreate now 1 20 [lit path] 60 true (lit "b").
Definition renew_a (now : Z) : Event := ERenew now 1 10 60 None None.

(** Decision procedures for the side conditions. *)
Definition enabledb (e : Event) (w : World) : bool :=
  match e with
  | ETick t => clock w <=? t
  | ECreate now _ _ paths _ _ _ =>
      (now <=? clock w) && (sequence (db w) + Z.of_nat (length paths) <=? i64_max)
  | ERenew now _ _ _ _ _ => now <=? clock w
  | ERelease _ _ _ => true
  end.

Definition timelyb (e : Event) (w : World) : bool :=
  match e with
  | ERenew now project agent _ paths ids =>
      forallb (λ r, negb (bool_decide (renewable now project agent paths ids (db w) r))
                    || (clock w <? expires_ts r)) (rows (db w))
  | _ => true
  end.

Lemma enabledb_spec e w : enabledb e w = true → enabled e w.
Proof.
  destruct e; simpl; rewrite ?andb_true_iff, ?Z.leb_le; done.
Qed.

Lemma timelyb_spec e w : timelyb e w = true → timely e w.
Proof.
  destruct e; simpl; try done. intros Hf r Hr Hren. rewrite forallb_forall in Hf.
  apply list_elem_of_In, Hf, orb_true_iff in Hr as [Hr|Hr]; [|by apply Z.ltb_lt].
  by rewrite bool_decide_true in Hr.
Qed.

(** Check a run while executing it. *)
Fixpoint check_run (P : Event → World → bool) (es : list Event) (w : World) : bool :=
  match es with
  | [] => true
  | e :: es => enabledb e w && P e w && check_run P es (apply_event e w)
  end.

Lemma check_run_spec (Pb : Event → World → bool) (P : Event → World → Prop) es w :
  (∀ e w, Pb e w = true → P e w) → check_run Pb es w = true → rtc (step P) w (run es w).
Proof.
  intros HP. revert w. induction es as [|e es IH]; intros w; simpl; [constructor|].
  rewrite !andb_true_iff. intros [[He Ht] Hr].
  eapply rtc_l; [apply step_event; [by apply enabledb_spec|by apply HP]|]. by apply IH.
Qed.

(** A renewal and a reservation elsewhere, then a release. *)
Definition orderly : list Event :=
  [ETick 1; create_a; ETick 5; create_b 3 "docs/*.md"; renew_a 5; ERelease 5 [1] Any].

Lemma mutual_exclusion_witness :
  exclusion 5 (db (run orderly initial)) ∧
  row_id <$> filter (λ r, active (db (run orderly initial)) r = true) (rows (db (run orderly initial))) = [2].
Proof.
  split; [|vm_compute; reflexivity].
  assert (clock (run orderly initial) = 5) as E by (vm_compute; reflexivity). rewrite <-E.
  intros r1 r2 Hr1 Hr2 Hn1 Hn2. revert r1 r2 Hr1 Hr2 Hn1 Hn2.
  apply (mutual_exclusion (H1 := ConflictIndexContents.index_detector_laws)).
  apply (check_run_spec timelyb timely); [apply timelyb_spec|].
  vm_compute. reflexivity.
Defined.

(** Agent A reads the clock for a renewal, its reservation expires, agent B is
    granted the same file, and then A's transaction runs. *)
Definition stale : list Event :=
  [ETick 1; create_a; ETick 60000002; create_b 60000002 "src/main.rs"; renew_a 60000000].

(** the timeliness hypothesis is needed: there is a run in which every
    transaction uses a clock value read before it began, and which ends with
    two agents holding live exclusive reservations of the same file, because
    a renewal that read the clock before its reservation expired revives it. *)
Theorem stale_renewal_breaks_exclusion :
  ∃ w r1 r2, any_run initial w ∧ r1 ∈ rows (db w) ∧ r2 ∈ rows (db w) ∧
             incompatible (clock w) (db w) r1 r2.
Proof.
  exists (run stale initial).
  pose (d := db (run stale initial)).
  destruct (rows d) as [|r1 [|r2 l]] eqn:E; [vm_compute in E; discriminate..|].
  exists r1, r2. split_and!.
  - by apply (check_run_spec (λ _ _, true)).
  - fold d. rewrite E. left.
  - fold d. rewrite E. right. left.
  - fold d. vm_compute in E. injection E as <- <- _.
    unfold incompatible. split_and!; try (vm_compute; reflexivity || discriminate).
    + left. reflexivity.
Qed.

(** The world before the renewal of [stale]: A's row has expired, B's is live. *)
Definition before_renewal : World := run (take 4 stale) initial.

Lemma before_renewal_good : good before_renewal.
Proof.
  apply (timely_run_good (H1 := ConflictIndexContents.index_detector_laws) initial);
    [|apply initial_good].
  apply (check_run_spec timelyb timely); [apply timelyb_spec|]. vm_compute. reflexivity.
Qed.

Lemma renewal_breaks_exclusion_iff_witness :
  let w := apply_event (renew_a 60000000) before_renewal in broken (clock w) (db w).
Proof.
  destruct before_renewal_good as [Hwf Hex].
  apply (renewal_breaks_exclusion_iff 60000000 1 10 60 None None before_renewal Hwf Hex). clear Hwf Hex.
  split; [eexists; vm_compute; reflexivity|].
  destruct (rows (db before_renewal)) as [|r [|s l]] eqn:E; [vm_compute in E; discriminate..|].
  exists r, s. unfold revived, excludes. rewrite E. vm_compute in E. injection E as <- <- <-.
  split_and!; try (vm_compute; reflexivity || discriminate).
  - apply list_elem_of_here.
  - split; exact I.
  - apply list_elem_of_further, list_elem_of_here.
  - left. reflexivity.
Defined.

(** ** Witnesses *)

Import ConflictIndexContents.

Definition no_one_else : Environment := {| interfere := λ _ d, d; tick := Z.succ |}.
Definition two_rows : Db := db (run [ETick 1; create_a; create_b 1 "docs/*.md"] initial).

Lemma two_rows_wf : wf two_rows.
Proof.
  apply (event_wf (create_b 1 "docs/*.md") {| db := db (run [ETick 1; create_a] initial); clock := 1 |});
    [by apply enabledb_spec|].
  apply (event_wf create_a {| db := empty_db; clock := 1 |}); [by apply enabledb_spec|apply wf_empty].
Qed.

Lemma released_forever_witness :
  let w := {| db := two_rows; clock := 1 |} in
  let w1 := apply_event (ERelease 2 [1] Any) w in
  let w2 := run [renew_a 1; create_b 1 "lib/*"] w1 in
  Forall (λ r', row_id r' = 1 → active (db w2) r' = false) (rows (db w2)).
Proof.
  intros w w1 w2. apply Forall_forall. intros r' Hr' E.
  destruct (rows (db w1)) as [|r l] eqn:Er; [vm_compute in Er; discriminate|].
  apply (released_forever (H1 := index_detector_laws) w1 w2 r r').
  - apply event_wf; [done|apply two_rows_wf].
  - apply (check_run_spec (λ _ _, true)); [done|]. vm_compute. reflexivity.
  - rewrite Er. left.
  - vm_compute in Er. injection Er as <- <-. vm_compute. reflexivity.
  - exact Hr'.
  - vm_compute in Er. injection Er as <- <-. rewrite E. reflexivity.
Defined.

Lemma create_file_reservations_spec_witness :
  ∃ path n, create_file_reservations 2 1 30 [lit "lib/x.rs"; lit "./src/*.rs"] 60 true [] two_rows =
            (Err (ResourceBusy path n), two_rows).
Proof.
  destruct (create_file_reservations_spec (H1 := index_detector_laws) 2 1 30
    [lit "lib/x.rs"; lit "./src/*.rs"] 60 true [] two_rows two_rows_wf) as [(p & r & _ & _ & E)|[_ E]].
  - vm_compute. discriminate.
  - exists p, (norm (compile (path_pattern r))). exact E.
  - exfalso. vm_compute in E. discriminate.
Defined.

Lemma release_reservations_spec_witness :
  ∃ res k' d', release_reservations no_one_else 1 10 (Some [lit "src/main.rs"]) None 1 two_rows
               = Some (res, k', d') ∧ wf d'.
Proof.
  destruct (release_reservations_spec no_one_else 1 10 (Some [lit "src/main.rs"]) None 1 two_rows
    two_rows_wf ltac:(intros ??; reflexivity)) as (res & k' & d' & E & Hwf & _).
  exists res, k', d'. split; [exact E|exact Hwf].
Defined.

Lemma renew_reservations_spec_witness :
  match renew_reservations 5 1 10 60 None None two_rows with
  | (Ok out, d') => fr_expires_ts <$> out = [120000001]
  | (Err _, _) => False
  end.
Proof.
  pose proof (renew_reservations_spec 5 1 10 60 None None two_rows two_rows_wf) as Hr.
  destruct (renew_reservations 5 1 10 60 None None two_rows) as [[out|e] d'] eqn:E.
  - destruct Hr as (_ & _ & ->). vm_compute. reflexivity.
  - vm_compute in E. discriminate.
Defined.
End ReservationRuns.
