(* ===== verification/S3Fifo.v ===== *)
(** * The S3-FIFO cache ([mcp-agent-mail-db/src/s3fifo.rs])

    The read caches of the database layer evict by S3-FIFO: three queues of
    (key, sequence number) pairs and one index.  Removed and promoted keys leave
    stale pairs in their queue, which are skipped when they reach the front and
    compacted away when a queue outgrows its live entries.  Counters are
    integers without a bound here: the invariant shows that none is ever
    decremented below zero, and a [u64] of sequence numbers does not run out. *)

From stdpp Require Import base tactics list gmap.
From S2P Require Import Prelude.
Open Scope Z_scope.

Module S3Fifo.

Inductive Node (V : Type) :=
  | Small (value : V) (freq seq : Z)
  | Main (value : V) (freq seq : Z)
  | Ghost (seq : Z).
Arguments Small {V} value freq seq.
Arguments Main {V} value freq seq.
Arguments Ghost {V} seq.

Section cache.
Context {K : Type} `{Countable K} {V : Type}.

Record S3FifoCache := {
  small : list (K * Z);
  main : list (K * Z);
  ghost : list (K * Z);
  index : gmap K (Node V);
  small_capacity : Z;
  main_capacity : Z;
  ghost_capacity : Z;
  seq_gen : Z;
  small_live_count : Z;
  main_live_count : Z;
  ghost_live_count : Z;
}.

(** Assignments to a queue with its counter, to the index, to the generator. *)
Definition with_small (q : list (K * Z)) (n : Z) (c : S3FifoCache) : S3FifoCache :=
  {| small := q; main := main c; ghost := ghost c; index := index c;
     small_capacity := small_capacity c; main_capacity := main_capacity c;
     ghost_capacity := ghost_capacity c; seq_gen := seq_gen c; small_live_count := n;
     main_live_count := main_live_count c; ghost_live_count := ghost_live_count c |}.
Definition with_main (q : list (K * Z)) (n : Z) (c : S3FifoCache) : S3FifoCache :=
  {| small := small c; main := q; ghost := ghost c; index := index c;
     small_capacity := small_capacity c; main_capacity := main_capacity c;
     ghost_capacity := ghost_capacity c; seq_gen := seq_gen c;
     small_live_count := small_live_count c; main_live_count := n;
     ghost_live_count := ghost_live_count c |}.
Definition with_ghost (q : list (K * Z)) (n : Z) (c : S3FifoCache) : S3FifoCache :=
  {| small := small c; main := main c; ghost := q; index := index c;
     small_capacity := small_capacity c; main_capacity := main_capacity c;
     ghost_capacity := ghost_capacity c; seq_gen := seq_gen c;
     small_live_count := small_live_count c; main_live_count := main_live_count c;
     ghost_live_count := n |}.
Definition with_index (m : gmap K (Node V)) (c : S3FifoCache) : S3FifoCache :=
  {| small := small c; main := main c; ghost := ghost c; index := m;
     small_capacity := small_capacity c; main_capacity := main_capacity c;
     ghost_capacity := ghost_capacity c; seq_gen := seq_gen c;
     small_live_count := small_live_count c; main_live_count := main_live_count c;
     ghost_live_count := ghost_live_count c |}.
Definition with_seq (s : Z) (c : S3FifoCache) : S3FifoCache :=
  {| small := small c; main := main c; ghost := ghost c; index := index c;
     small_capacity := small_capacity c; main_capacity := main_capacity c;
     ghost_capacity := ghost_capacity c; seq_gen := s;
     small_live_count := small_live_count c; main_live_count := main_live_count c;
     ghost_live_count := ghost_live_count c |}.

(** [new]; [None] is the panic on capacity 0. *)
Definition new (capacity : Z) : option S3FifoCache :=
  if 0 <? capacity then
    let small_cap := Z.max (capacity `div` 10) 1 in
    Some {| small := []; main := []; ghost := []; index := ∅; small_capacity := small_cap;
            main_capacity := capacity - small_cap; ghost_capacity := capacity; seq_gen := 0;
            small_live_count := 0; main_live_count := 0; ghost_live_count := 0 |}
  else None.

Definition bump_freq (freq : Z) : Z := Z.min (freq + 1) 3.

(** [get_mut], with what the caller does to the value it is handed. *)
Definition get_mut (key : K) (f : V → V) (c : S3FifoCache) : option V * S3FifoCache :=
  match index c !! key with
  | Some (Small value freq seq) =>
      (Some value, with_index (<[key := Small (f value) (bump_freq freq) seq]> (index c)) c)
  | Some (Main value freq seq) =>
      (Some value, with_index (<[key := Main (f value) (bump_freq freq) seq]> (index c)) c)
  | _ => (None, c)
  end.

(** [get]. *)
Definition get (key : K) (c : S3FifoCache) : option V * S3FifoCache :=
  match index c !! key with
  | Some (Small value freq seq) =>
      (Some value, with_index (<[key := Small value (bump_freq freq) seq]> (index c)) c)
  | Some (Main value freq seq) =>
      (Some value, with_index (<[key := Main value (bump_freq freq) seq]> (index c)) c)
  | _ => (None, c)
  end.

Definition peek (key : K) (c : S3FifoCache) : option V :=
  match index c !! key with
  | Some (Small value _ _) | Some (Main value _ _) => Some value
  | _ => None
  end.

Definition contains_key (key : K) (c : S3FifoCache) : bool :=
  match index c !! key with
  | Some (Small _ _ _) | Some (Main _ _ _) => true
  | _ => false
  end.

Definition len (c : S3FifoCache) : Z := small_live_count c + main_live_count c.
Definition is_empty (c : S3FifoCache) : bool := len c =? 0.
Definition capacity (c : S3FifoCache) : Z := small_capacity c + main_capacity c.
Definition ghost_len (c : S3FifoCache) : Z := ghost_live_count c.
Definition small_len (c : S3FifoCache) : Z := small_live_count c.
Definition main_len (c : S3FifoCache) : Z := main_live_count c.

(** The queue pair belongs to the live node of its key, per kind. *)
Definition live_small (m : gmap K (Node V)) (e : K * Z) : bool :=
  match m !! e.1 with Some (Small _ _ s) => s =? e.2 | _ => false end.
Definition live_main (m : gmap K (Node V)) (e : K * Z) : bool :=
  match m !! e.1 with Some (Main _ _ s) => s =? e.2 | _ => false end.
Definition live_ghost (m : gmap K (Node V)) (e : K * Z) : bool :=
  match m !! e.1 with Some (Ghost s) => s =? e.2 | _ => false end.

(** The threshold of compaction. *)
Definition outgrown (q : list (K * Z)) (cap : Z) : bool :=
  Z.max (u64_saturating_mul cap 4) 4 <? Z.of_nat (length q).

(** [retain] of the live pairs once the queue has outgrown its capacity. *)
Definition compact (live : K * Z → bool) (cap : Z) (q : list (K * Z)) : list (K * Z) :=
  if outgrown q cap then filter (λ e, live e = true) q else q.

(** The eviction loop of the ghost queue.  A round pops a pair, so the length of
    the queue bounds the rounds. *)
Fixpoint evict_ghost_loop (fuel : nat) (c : S3FifoCache) : S3FifoCache :=
  if ghost_capacity c <=? ghost_live_count c then
    match fuel, ghost c with
    | S fuel, (key, expected_seq) :: q =>
        if live_ghost (index c) (key, expected_seq) then
          evict_ghost_loop fuel
            (with_ghost q (ghost_live_count c - 1) (with_index (delete key (index c)) c))
        else evict_ghost_loop fuel (with_ghost q (ghost_live_count c) c)
    | _, _ => c
    end
  else c.

Definition evict_ghost_if_full (c : S3FifoCache) : S3FifoCache :=
  let c := with_ghost (compact (live_ghost (index c)) (ghost_capacity c) (ghost c))
             (ghost_live_count c) c in
  evict_ghost_loop (length (ghost c)) c.

(** Draining the main queue of a cache without one. *)
Fixpoint drain_main (fuel : nat) (c : S3FifoCache) : S3FifoCache :=
  match fuel, main c with
  | S fuel, (key, expected_seq) :: q =>
      if live_main (index c) (key, expected_seq) then
        drain_main fuel (with_main q (main_live_count c - 1) (with_index (delete key (index c)) c))
      else drain_main fuel (with_main q (main_live_count c) c)
  | _, _ => c
  end.

(** The eviction loop of the main queue, with its budget. *)
Fixpoint evict_main_loop (budget : nat) (c : S3FifoCache) : S3FifoCache :=
  if main_capacity c <=? main_live_count c then
    match budget with
    | O => c
    | S budget =>
        match main c with
        | [] => c
        | (key, expected_seq) :: q =>
            match index c !! key with
            | Some (Main value freq current_seq) =>
                if current_seq =? expected_seq then
                  let c := with_main q (main_live_count c - 1)
                             (with_index (delete key (index c)) c) in
                  if 1 <=? freq then
                    let new_seq := seq_gen c + 1 in
                    evict_main_loop budget
                      (with_main (main c ++ [(key, new_seq)]) (main_live_count c + 1)
                         (with_index (<[key := Main value (freq - 1) new_seq]> (index c))
                            (with_seq new_seq c)))
                  else evict_main_loop budget c
                else evict_main_loop budget (with_main q (main_live_count c) c)
            | _ => evict_main_loop budget (with_main q (main_live_count c) c)
            end
        end
    end
  else c.

Definition evict_main_if_full (c : S3FifoCache) : S3FifoCache :=
  let c := with_main (compact (live_main (index c)) (main_capacity c) (main c))
             (main_live_count c) c in
  if main_capacity c =? 0 then drain_main (length (main c)) c
  else evict_main_loop (length (main c) * 4 + 1) c.

(** [push_back] and the index entry of a new ghost. *)
Definition push_ghost (key : K) (new_seq : Z) (c : S3FifoCache) : S3FifoCache :=
  let c := evict_ghost_if_full c in
  with_ghost (ghost c ++ [(key, new_seq)]) (ghost_live_count c + 1)
    (with_index (<[key := Ghost new_seq]> (index c)) c).

Definition push_main (key : K) (value : V) (new_seq : Z) (c : S3FifoCache) : S3FifoCache :=
  let c := evict_main_if_full c in
  with_main (main c ++ [(key, new_seq)]) (main_live_count c + 1)
    (with_index (<[key := Main value 0 new_seq]> (index c)) c).

(** The eviction loop of the small queue. *)
Fixpoint evict_small_loop (fuel : nat) (c : S3FifoCache) : S3FifoCache :=
  if small_capacity c <=? small_live_count c then
    match fuel, small c with
    | S fuel, (key, expected_seq) :: q =>
        match index c !! key with
        | Some (Small value freq current_seq) =>
            if current_seq =? expected_seq then
              let c := with_small q (small_live_count c - 1)
                         (with_index (delete key (index c)) c) in
              let new_seq := seq_gen c + 1 in
              let c := with_seq new_seq c in
              if 1 <=? freq then
                if main_capacity c =? 0 then evict_small_loop fuel (push_ghost key new_seq c)
                else evict_small_loop fuel (push_main key value new_seq c)
              else evict_small_loop fuel (push_ghost key new_seq c)
            else evict_small_loop fuel (with_small q (small_live_count c) c)
        | _ => evict_small_loop fuel (with_small q (small_live_count c) c)
        end
    | _, _ => c
    end
  else c.

Definition evict_small_if_full (c : S3FifoCache) : S3FifoCache :=
  let c := with_small (compact (live_small (index c)) (small_capacity c) (small c))
             (small_live_count c) c in
  evict_small_loop (length (small c)) c.

Definition push_small (key : K) (value : V) (seq : Z) (c : S3FifoCache) : S3FifoCache :=
  let c := evict_small_if_full c in
  with_small (small c ++ [(key, seq)]) (small_live_count c + 1)
    (with_index (<[key := Small value 0 seq]> (index c)) c).

Definition insert (key : K) (value : V) (c : S3FifoCache) : S3FifoCache :=
  let c := with_seq (seq_gen c + 1) c in
  let seq := seq_gen c in
  match index c !! key with
  | Some (Small _ freq n_seq) =>
      with_index (<[key := Small value (bump_freq freq) n_seq]> (index c)) c
  | Some (Main _ freq n_seq) =>
      with_index (<[key := Main value (bump_freq freq) n_seq]> (index c)) c
  | Some (Ghost _) =>
      let c := with_ghost (ghost c) (ghost_live_count c - 1) c in
      if main_capacity c =? 0 then push_small key value seq c
      else push_main key value seq c
  | None => push_small key value seq c
  end.

Definition remove (key : K) (c : S3FifoCache) : option V * S3FifoCache :=
  let c' := with_index (delete key (index c)) c in
  match index c !! key with
  | Some (Small value _ _) => (Some value, with_small (small c) (small_live_count c - 1) c')
  | Some (Main value _ _) => (Some value, with_main (main c) (main_live_count c - 1) c')
  | Some (Ghost _) => (None, with_ghost (ghost c) (ghost_live_count c - 1) c')
  | None => (None, c')
  end.

Definition clear (c : S3FifoCache) : S3FifoCache :=
  with_small [] 0 (with_main [] 0 (with_ghost [] 0 (with_index ∅ c))).

(** Iteration over the keys visits them in an arbitrary order. *)
Definition visible (n : Node V) : bool :=
  match n with Ghost _ => false | _ => true end.

Definition keys (c : S3FifoCache) : gset K :=
  dom (filter (λ kn : K * Node V, visible kn.2 = true) (index c)).
End cache.
Arguments S3FifoCache K {_ _} V.
End S3Fifo.
