(* ===== verification/S3FifoFacts.v ===== *)
(** * The S3-FIFO cache is bounded and transparent

    The three queues are treated uniformly through the kind of their nodes.  The
    invariant ties the live counters to the index and the index to the queues;
    every operation keeps it, and evictions only ever forget. *)

From stdpp Require Import base tactics list gmap.
From S2P Require Import Prelude S3Fifo.
Import S3Fifo.
Open Scope Z_scope.

Inductive Kind := KSmall | KMain | KGhost.

#[export] Instance Kind_eq_dec : EqDecision Kind.
Proof. solve_decision. Defined.

Section facts.
Context {K : Type} `{Countable K} {V : Type}.
Implicit Types (c : S3FifoCache K V) (m : gmap K (Node V)) (n : Node V) (q : list (K * Z)).

Definition kind_of n : Kind :=
  match n with Small _ _ _ => KSmall | Main _ _ _ => KMain | Ghost _ => KGhost end.
Definition seq_of n : Z := match n with Small _ _ s | Main _ _ s | Ghost s => s end.
Definition freq_of n : Z := match n with Small _ f _ | Main _ f _ => f | Ghost _ => 0 end.
Definition value_of n : option V := match n with Small v _ _ | Main v _ _ => Some v | Ghost _ => None end.

Definition queue (κ : Kind) c : list (K * Z) :=
  match κ with KSmall => small c | KMain => main c | KGhost => ghost c end.
Definition live_count (κ : Kind) c : Z :=
  match κ with
  | KSmall => small_live_count c | KMain => main_live_count c | KGhost => ghost_live_count c
  end.
Definition cap (κ : Kind) c : Z :=
  match κ with
  | KSmall => small_capacity c | KMain => main_capacity c | KGhost => ghost_capacity c
  end.
Definition set_queue (κ : Kind) q (z : Z) c : S3FifoCache K V :=
  match κ with
  | KSmall => with_small q z c | KMain => with_main q z c | KGhost => with_ghost q z c
  end.

(** The pair [e] belongs to a live node of kind [κ]. *)
Definition live (κ : Kind) m (e : K * Z) : Prop :=
  ∃ n, m !! e.1 = Some n ∧ kind_of n = κ ∧ seq_of n = e.2.

Definition count (κ : Kind) m : Z :=
  Z.of_nat (size (filter (λ kn : K * Node V, kind_of kn.2 = κ) m)).

Definition threshold (z : Z) : Z := Z.max (u64_saturating_mul z 4) 4.

(** The invariant.  While a ghost key is being readmitted its node has already
    left the count: [p] is that key. *)
Record inv (p : option K) c : Prop := {
  inv_caps : 1 ≤ small_capacity c ∧ 0 ≤ main_capacity c ∧
             ghost_capacity c = small_capacity c + main_capacity c ∧ ghost_capacity c ≤ u64_max;
  inv_count κ : live_count κ c + (if decide (κ = KGhost ∧ p ≠ None) then 1 else 0) = count κ (index c);
  inv_queued k n : index c !! k = Some n → (k, seq_of n) ∈ queue (kind_of n) c;
  inv_freq k n : index c !! k = Some n → 0 ≤ freq_of n ≤ 3;
  inv_seq κ e : e ∈ queue κ c → e.2 ≤ seq_gen c;
  inv_nodup κ : NoDup (queue κ c);
  inv_le κ : live_count κ c ≤ cap κ c;
  inv_length κ : Z.of_nat (length (queue κ c)) ≤ threshold (cap κ c) + 1;
  inv_pending k : p = Some k → (∃ s, index c !! k = Some (Ghost s));
}.

(** What an eviction may do: forget values, and queue fresh numbers. *)
Record ext c c' : Prop := {
  ext_caps κ : cap κ c' = cap κ c;
  ext_seq : seq_gen c ≤ seq_gen c';
  ext_queue κ e : e ∈ queue κ c' → e ∈ queue κ c ∨ seq_gen c < e.2;
  ext_value k n v : index c' !! k = Some n → value_of n = Some v →
                    ∃ n0, index c !! k = Some n0 ∧ value_of n0 = Some v;
  ext_none k : index c !! k = None → index c' !! k = None;
}.

Lemma ext_refl c : ext c c.
Proof. split; eauto; lia. Qed.

Lemma ext_trans c1 c2 c3 : ext c1 c2 → ext c2 c3 → ext c1 c3.
Proof.
  intros [A1 A2 A3 A4 A5] [B1 B2 B3 B4 B5]. split; [congruence|lia| |eauto|eauto].
  - intros κ e [He|?]%B3; [|right; lia]. by apply A3.
  - intros k n v Hn Hv. destruct (B4 k n v Hn Hv) as (n0 & ? & ?). eauto.
Qed.

(** ** Queues *)

Lemma queue_set κ κ' q z c : queue κ (set_queue κ' q z c) = if decide (κ = κ') then q else queue κ c.
Proof. by destruct κ, κ'. Qed.
Lemma live_count_set κ κ' q z c :
  live_count κ (set_queue κ' q z c) = if decide (κ = κ') then z else live_count κ c.
Proof. by destruct κ, κ'. Qed.
Lemma cap_set κ κ' q z c : cap κ (set_queue κ' q z c) = cap κ c.
Proof. by destruct κ, κ'. Qed.
Lemma index_set κ q z c : index (set_queue κ q z c) = index c.
Proof. by destruct κ. Qed.
Lemma seq_gen_set κ q z c : seq_gen (set_queue κ q z c) = seq_gen c.
Proof. by destruct κ. Qed.

(** ** Counting *)

Lemma count_insert κ m k n :
  m !! k = None → count κ (<[k := n]> m) = count κ m + (if decide (kind_of n = κ) then 1 else 0).
Proof.
  intros Hk. unfold count. case_decide as Hn.
  - rewrite map_filter_insert_True by done. rewrite map_size_insert_None; [lia|].
    apply map_lookup_filter_None. by left.
  - rewrite map_filter_insert_False by done. rewrite delete_id by done. lia.
Qed.

Lemma count_delete κ m k n :
  m !! k = Some n → count κ (delete k m) = count κ m - (if decide (kind_of n = κ) then 1 else 0).
Proof.
  intros Hk. rewrite <-(insert_delete_id m k n) at 2 by done.
  rewrite count_insert by apply lookup_delete_eq. lia.
Qed.

Lemma count_replace κ m k n n' :
  m !! k = Some n →
  count κ (<[k := n']> m) = count κ m - (if decide (kind_of n = κ) then 1 else 0)
                            + (if decide (kind_of n' = κ) then 1 else 0).
Proof.
  intros Hk. rewrite <-insert_delete_eq, count_insert by apply lookup_delete_eq.
  by rewrite (count_delete _ _ _ n).
Qed.

Lemma count_nonneg κ m : 0 ≤ count κ m.
Proof. unfold count. lia. Qed.

Lemma count_pos κ m : 0 < count κ m → ∃ k n, m !! k = Some n ∧ kind_of n = κ.
Proof.
  intros Hc. unfold count in Hc.
  destruct (map_choose (filter (λ kn : K * Node V, kind_of kn.2 = κ) m)) as (k & n & Hn).
  - intros E. rewrite E, map_size_empty in Hc. lia.
  - apply map_lookup_filter_Some in Hn as [? ?]. eauto.
Qed.

Lemma live_dec κ m e : Decision (live κ m e).
Proof.
  destruct (m !! e.1) as [n|] eqn:E.
  - destruct (decide (kind_of n = κ ∧ seq_of n = e.2)) as [[? ?]|Hn]; [left; by exists n|right].
    intros (n' & E' & ? & ?). apply Hn. naive_solver.
  - right. intros (n & E' & _). congruence.
Defined.

(** The distinct live pairs of a queue are no more than the live nodes. *)
Lemma live_length κ m q :
  NoDup q → (∀ e, e ∈ q → live κ m e) → Z.of_nat (length q) ≤ count κ m.
Proof.
  intros Hnd Hlive.
  assert (NoDup (q.*1)) as Hnd1.
  { induction Hnd as [|e q Hne Hnd IH]; [constructor|]. rewrite fmap_cons. apply NoDup_cons. split.
    - intros (e' & E & He')%list_elem_of_fmap. apply Hne.
      destruct (Hlive e ltac:(left)) as (n & Hn & _ & Hs).
      destruct (Hlive e' ltac:(by right)) as (n' & Hn' & _ & Hs'). destruct e, e'. simpl in *.
      simplify_eq. done.
    - apply IH. intros e' ?. apply Hlive. by right. }
  unfold count. rewrite <-(length_fmap fst).
  rewrite <-(size_list_to_set (C:=gset K)) by done.
  rewrite <-size_dom. apply inj_le, subseteq_size.
  intros k Hk. apply elem_of_list_to_set, list_elem_of_fmap in Hk as (e & -> & He).
  destruct (Hlive e He) as (n & Hn & Hkind & _). apply elem_of_dom. exists n.
  by apply map_lookup_filter_Some.
Qed.

Lemma live_small_spec m e : live_small m e = true ↔ live KSmall m e.
Proof.
  unfold live_small, live. destruct (m !! e.1) as [[]|] eqn:E; simpl; rewrite ?Z.eqb_eq;
    naive_solver.
Qed.
Lemma live_main_spec m e : live_main m e = true ↔ live KMain m e.
Proof.
  unfold live_main, live. destruct (m !! e.1) as [[]|] eqn:E; simpl; rewrite ?Z.eqb_eq;
    naive_solver.
Qed.
Lemma live_ghost_spec m e : live_ghost m e = true ↔ live KGhost m e.
Proof.
  unfold live_ghost, live. destruct (m !! e.1) as [[]|] eqn:E; simpl; rewrite ?Z.eqb_eq;
    naive_solver.
Qed.

(** ** Changing one queue *)

(** Shrinking a queue without losing live pairs. *)
Lemma shrink_inv p κ q c :
  inv p c → q `sublist_of` queue κ c → (∀ e, e ∈ queue κ c → live κ (index c) e → e ∈ q) →
  let c' := set_queue κ q (live_count κ c) c in inv p c' ∧ ext c c'.
Proof.
  intros [Hcaps Hcount Hqueued Hfreq Hseq Hnd Hle Hlen Hp] Hsub Hlive c'.
  assert (∀ κ', queue κ' c' `sublist_of` queue κ' c) as Hs.
  { intros κ'. unfold c'. rewrite queue_set. case_decide; [by subst|done]. }
  assert (∀ κ', live_count κ' c' = live_count κ' c) as Hl.
  { intros κ'. unfold c'. rewrite live_count_set. case_decide; [by subst|done]. }
  split.
  - split.
    + unfold c'. by destruct κ.
    + intros κ'. rewrite Hl. unfold c'. by rewrite index_set.
    + intros k n. unfold c'. rewrite index_set, queue_set. intros Hn.
      pose proof (Hqueued k n Hn) as Hin. case_decide as Hk; [|done]. subst κ.
      apply Hlive; [done|]. exists n. done.
    + intros k n. unfold c'. rewrite index_set. apply Hfreq.
    + intros κ' e He. unfold c'. rewrite seq_gen_set. eapply Hseq, sublist_subseteq; [apply Hs|done].
    + intros κ'. eapply sublist_NoDup; [apply Hnd|apply Hs].
    + intros κ'. rewrite Hl. unfold c'. rewrite cap_set. apply Hle.
    + intros κ'. pose proof (sublist_length _ _ (Hs κ')). unfold c' at 2. rewrite cap_set.
      specialize (Hlen κ'). lia.
    + intros k. unfold c'. rewrite index_set. apply Hp.
  - split.
    + intros κ'. apply cap_set.
    + unfold c'. rewrite seq_gen_set. lia.
    + intros κ' e He. left. eapply sublist_subseteq; [apply Hs|done].
    + intros k n v. unfold c'. rewrite index_set. eauto.
    + intros k. unfold c'. by rewrite index_set.
Qed.

(** Dropping the live pair at the front with its node. *)
Lemma pop_live_inv p κ q k n c :
  inv p c → p ≠ Some k → queue κ c = (k, seq_of n) :: q → index c !! k = Some n → kind_of n = κ →
  let c' := set_queue κ q (live_count κ c - 1) (with_index (delete k (index c)) c) in
  inv p c' ∧ ext c c'.
Proof.
  intros [Hcaps Hcount Hqueued Hfreq Hseq Hnd Hle Hlen Hp] Hpk Hq Hn Hκ c'.
  assert (∀ κ', queue κ' c' `sublist_of` queue κ' c) as Hs.
  { intros κ'. unfold c'. rewrite queue_set. case_decide; [|by destruct κ'].
    subst κ'. rewrite Hq. by apply sublist_cons. }
  assert (∀ κ', cap κ' c' = cap κ' c) as Hcap.
  { intros κ'. unfold c'. rewrite cap_set. by destruct κ'. }
  assert (index c' = delete k (index c)) as Hidx by (unfold c'; by rewrite index_set).
  assert (seq_gen c' = seq_gen c) as Hgen by (unfold c'; by rewrite seq_gen_set).
  assert (∀ κ', live_count κ' c' = live_count κ' c - (if decide (κ = κ') then 1 else 0)) as Hl.
  { intros κ'. unfold c'. clear. destruct κ, κ'; simpl; lia. }
  split.
  - split.
    + pose proof (Hcap KSmall). pose proof (Hcap KMain). pose proof (Hcap KGhost).
      simpl in *. lia.
    + intros κ'. rewrite Hl, Hidx, (count_delete κ' _ k n), <-Hcount by done. rewrite Hκ. lia.
    + intros k' n'. rewrite Hidx, lookup_delete_Some. intros [Hne Hn'].
      pose proof (Hqueued k' n' Hn') as Hin. unfold c'. rewrite queue_set.
      case_decide as Hk; [|by destruct (kind_of n')]. rewrite Hk, Hq in Hin.
      apply elem_of_cons in Hin as [[= ??]|?]; [congruence|done].
    + intros k' n'. rewrite Hidx, lookup_delete_Some. intros [_ ?]. eauto.
    + intros κ' e He. rewrite Hgen. eapply Hseq, sublist_subseteq; [apply Hs|done].
    + intros κ'. eapply sublist_NoDup; [apply Hnd|apply Hs].
    + intros κ'. rewrite Hl, Hcap. specialize (Hle κ'). case_decide; lia.
    + intros κ'. pose proof (sublist_length _ _ (Hs κ')). rewrite Hcap. specialize (Hlen κ'). lia.
    + intros k' ->. rewrite Hidx. destruct (Hp k' eq_refl) as [s Hg]. exists s.
      rewrite lookup_delete_ne; [done|]. congruence.
  - split; [done|lia| | |].
    + intros κ' e He. left. eapply sublist_subseteq; [apply Hs|done].
    + intros k' n' v. rewrite Hidx, lookup_delete_Some. intros [_ ?] ?. eauto.
    + intros k' Hk'. rewrite Hidx. apply lookup_delete_None. by right.
Qed.

Lemma unused_ext c c' s :
  (∀ κ e, e ∈ queue κ c → e.2 ≠ s) → s ≤ seq_gen c → ext c c' → ∀ κ e, e ∈ queue κ c' → e.2 ≠ s.
Proof. intros Hu Hs He κ e [Hin|?]%(ext_queue _ _ He); [by eapply Hu|lia]. Qed.

(** Pushing a node under a number not in use: a new key, or the pending ghost. *)
Lemma push_inv (readmit : bool) p κ k n c :
  inv p c → (if readmit then p = Some k ∧ κ ≠ KGhost else index c !! k = None) → kind_of n = κ →
  0 ≤ freq_of n ≤ 3 → seq_of n ≤ seq_gen c → (∀ κ e, e ∈ queue κ c → e.2 ≠ seq_of n) →
  live_count κ c < cap κ c → Z.of_nat (length (queue κ c)) ≤ threshold (cap κ c) →
  inv (if readmit then None else p)
    (set_queue κ (queue κ c ++ [(k, seq_of n)]) (live_count κ c + 1)
       (with_index (<[k := n]> (index c)) c)).
Proof.
  intros [Hcaps Hcount Hqueued Hfreq Hseq Hnd Hle Hlen Hp] Hk Hκ Hf Hs Hu Hroom Hlength.
  set (c' := set_queue _ _ _ _).
  assert (∀ κ', queue κ' c' = queue κ' c ++ (if decide (κ' = κ) then [(k, seq_of n)] else [])) as Hq.
  { intros κ'. unfold c'. rewrite queue_set. case_decide; [by subst|]. rewrite app_nil_r. by destruct κ'. }
  assert (∀ κ', cap κ' c' = cap κ' c) as Hcap.
  { intros κ'. unfold c'. rewrite cap_set. by destruct κ'. }
  assert (index c' = <[k := n]> (index c)) as Hidx by (unfold c'; by rewrite index_set).
  assert (seq_gen c' = seq_gen c) as Hgen by (unfold c'; by rewrite seq_gen_set).
  assert (∀ κ', live_count κ' c' = live_count κ' c + (if decide (κ' = κ) then 1 else 0)) as Hl.
  { intros κ'. unfold c'. clear. destruct κ, κ'; simpl; lia. }
  split.
  - pose proof (Hcap KSmall). pose proof (Hcap KMain). pose proof (Hcap KGhost). simpl in *. lia.
  - intros κ'. rewrite Hl, Hidx. specialize (Hcount κ'). destruct readmit.
    + destruct Hk as [-> Hκg]. destruct (Hp k eq_refl) as [s Hg].
      rewrite (count_replace κ' _ _ (Ghost s)), <-Hcount by done. rewrite Hκ. simpl.
      repeat case_decide; subst; naive_solver lia.
    + rewrite count_insert, <-Hcount by done. rewrite Hκ. repeat case_decide; naive_solver lia.
  - intros k' n'. rewrite Hidx, lookup_insert, Hq, elem_of_app. case_decide as Hkk.
    + subst k'. intros [= <-]. right. rewrite decide_True by done. left.
    + intros Hn'. left. eauto.
  - intros k' n'. rewrite Hidx, lookup_insert. case_decide; [intros [= <-]; done|eauto].
  - intros κ' e. rewrite Hq, elem_of_app, Hgen. intros [?|He]; [eauto|].
    case_decide; [|by apply elem_of_nil in He]. apply list_elem_of_singleton in He as ->. done.
  - intros κ'. rewrite Hq. case_decide as E; [|by rewrite app_nil_r]. subst κ'.
    apply NoDup_app. split_and!; [done| |apply NoDup_singleton].
    intros e He ->%list_elem_of_singleton. by eapply Hu.
  - intros κ'. rewrite Hl, Hcap. specialize (Hle κ'). case_decide; [subst κ'|]; lia.
  - intros κ'. rewrite Hq, Hcap, length_app. specialize (Hlen κ'). case_decide; [subst κ'|]; simpl; lia.
  - destruct readmit; [done|]. intros k' ->. destruct (Hp k' eq_refl) as [s Hg].
    rewrite Hidx, lookup_insert_ne by congruence. eauto.
Qed.


(** ** Compaction *)

Lemma compact_inv p κ f c :
  inv p c → (∀ e, f e = true ↔ live κ (index c) e) →
  (κ = KGhost → p ≠ None → live_count κ c < cap κ c) →
  let c' := set_queue κ (compact f (cap κ c) (queue κ c)) (live_count κ c) c in
  inv p c' ∧ ext c c' ∧ Z.of_nat (length (queue κ c')) ≤ threshold (cap κ c).
Proof.
  intros Hi Hf Hpend c'.
  assert (compact f (cap κ c) (queue κ c) `sublist_of` queue κ c) as Hsub.
  { unfold compact. case_if; [apply sublist_filter|done]. }
  destruct (shrink_inv p κ _ c Hi Hsub) as [Hi' He'].
  { intros e He Hl. unfold compact. case_if; [|done]. by rewrite list_elem_of_filter, Hf. }
  split_and!; [done|done|]. unfold c'. rewrite queue_set, decide_True by done.
  unfold compact, outgrown. fold (threshold (cap κ c)).
  destruct (Z.ltb_spec (threshold (cap κ c)) (Z.of_nat (length (queue κ c)))); [|lia].
  assert (Z.of_nat (length (filter (λ e, f e = true) (queue κ c))) ≤ count κ (index c)) as Hlen.
  { apply live_length; [apply NoDup_filter, (inv_nodup _ _ Hi)|].
    intros e [He _]%list_elem_of_filter. by apply Hf. }
  pose proof (inv_count _ _ Hi κ) as Hn. pose proof (inv_le _ _ Hi κ) as Hle.
  destruct (inv_caps _ _ Hi) as (Hc1 & Hc2 & Hc3 & Hc4).
  assert (0 ≤ cap κ c ≤ u64_max) as Hcap by (destruct κ; simpl; lia).
  unfold threshold, u64_saturating_mul, u64_max in *.
  case_decide as Hd; [destruct Hd as [-> Hp]; specialize (Hpend eq_refl Hp)|]; lia.
Qed.

(** ** Evicting ghosts *)

(** The fields an eviction from one queue leaves alone. *)
Definition same_queue (κ : Kind) c c' : Prop :=
  queue κ c' = queue κ c ∧ live_count κ c' = live_count κ c.

Lemma nonempty_queue p κ c :
  inv p c → 0 < live_count κ c → queue κ c ≠ [].
Proof.
  intros Hi Hl Hq. destruct (count_pos κ (index c)) as (k & n & Hn & Hk).
  - rewrite <-(inv_count _ _ Hi). case_decide; lia.
  - apply (inv_queued _ _ Hi) in Hn. rewrite Hk, Hq in Hn. by apply elem_of_nil in Hn.
Qed.

Lemma pop_stale_inv p κ e q c :
  inv p c → queue κ c = e :: q → ¬ live κ (index c) e →
  let c' := set_queue κ q (live_count κ c) c in inv p c' ∧ ext c c'.
Proof.
  intros Hi Hq Hl. apply shrink_inv; [done| |].
  - rewrite Hq. by apply sublist_cons.
  - intros e'. rewrite Hq, elem_of_cons. intros [->|?]; done.
Qed.

Lemma evict_ghost_loop_spec p fuel c :
  inv p c → (length (ghost c) ≤ fuel)%nat → (p ≠ None → ghost_live_count c < ghost_capacity c) →
  let c' := evict_ghost_loop fuel c in
  inv p c' ∧ ext c c' ∧ ghost_live_count c' < ghost_capacity c' ∧
  ghost_live_count c' ≤ ghost_live_count c ∧
  (length (ghost c') ≤ length (ghost c))%nat ∧ same_queue KSmall c c' ∧ same_queue KMain c c'.
Proof.
  revert c. induction fuel as [|fuel IH]; intros c Hi Hfuel Hp; cbn [evict_ghost_loop];
    destruct (Z.leb_spec (ghost_capacity c) (ghost_live_count c));
    try (split_and!; (done || apply ext_refl || lia)).
  - exfalso. destruct (inv_caps _ _ Hi) as (? & ? & ? & ?).
    apply (nonempty_queue p KGhost c); [done|simpl; lia|].
    simpl. destruct (ghost c); [done|simpl in Hfuel; lia].
  - destruct (inv_caps _ _ Hi) as (? & ? & ? & ?).
    destruct (ghost c) as [|[k s] q] eqn:Eq.
    { exfalso. apply (nonempty_queue p KGhost c); [done|simpl; lia|done]. }
    assert (p = None) as -> by (destruct p; [exfalso; specialize (Hp ltac:(done)); lia|done]).
    destruct (live_ghost (index c) (k, s)) eqn:El.
    + apply live_ghost_spec in El as (n & Hn & Hk & Hs). simpl in Hn, Hs. subst s.
      destruct (pop_live_inv None KGhost q k n c) as [Hi' He']; try done.
      simpl in Hi', He'. simpl in Hfuel.
      destruct (IH _ Hi') as (? & He & ? & ? & Hlen & ? & ?); [simpl; lia|done|].
      split_and!; try done; [by eapply ext_trans|simpl in *; lia..].
    + destruct (pop_stale_inv None KGhost (k, s) q c) as [Hi' He']; try done.
      { rewrite <-live_ghost_spec. congruence. }
      simpl in Hi', He'. simpl in Hfuel.
      destruct (IH _ Hi') as (? & He & ? & ? & Hlen & ? & ?); [simpl; lia|done|].
      split_and!; try done; [by eapply ext_trans|simpl in *; lia..].
Qed.

Lemma evict_ghost_spec p c :
  inv p c → (p ≠ None → ghost_live_count c < ghost_capacity c) →
  let c' := evict_ghost_if_full c in
  inv p c' ∧ ext c c' ∧ ghost_live_count c' < ghost_capacity c' ∧
  ghost_live_count c' ≤ ghost_live_count c ∧
  Z.of_nat (length (ghost c')) ≤ threshold (ghost_capacity c') ∧
  same_queue KSmall c c' ∧ same_queue KMain c c'.
Proof.
  intros Hi Hp. unfold evict_ghost_if_full.
  destruct (compact_inv p KGhost (live_ghost (index c)) c Hi (live_ghost_spec (index c)))
    as (Hi1 & He1 & Hlen1); [by intros _|]. cbn [set_queue queue cap live_count] in Hi1, He1, Hlen1.
  set (c1 := with_ghost _ _ c) in *. cbn zeta.
  destruct (evict_ghost_loop_spec p (length (ghost c1)) c1 Hi1)
    as (Hi2 & He2 & ? & ? & Hlen & ? & ?); [done|done|].
  set (c2 := evict_ghost_loop _ c1) in *.
  pose proof (ext_caps _ _ He2 KGhost) as Hcap. cbn [cap] in Hcap.
  assert (ghost_capacity c1 = ghost_capacity c) as Hcap1 by done.
  split_and!; try done; [by eapply ext_trans|]. rewrite Hcap, Hcap1. lia.
Qed.

(** ** Evicting from the main queue *)

Lemma seq_inv p c : inv p c → inv p (with_seq (seq_gen c + 1) c) ∧ ext c (with_seq (seq_gen c + 1) c).
Proof.
  intros [Hcaps Hcount Hqueued Hfreq Hseq Hnd Hle Hlen Hp]. set (c' := with_seq _ c).
  assert (∀ κ, queue κ c' = queue κ c) as Hq by by intros [].
  assert (∀ κ, live_count κ c' = live_count κ c) as Hl by by intros [].
  assert (∀ κ, cap κ c' = cap κ c) as Hc by by intros [].
  split; split; intros; rewrite ?Hq, ?Hl, ?Hc in *; try done; eauto.
  - eapply Z.le_trans; [by eapply Hseq|]. simpl. lia.
  - simpl. lia.
Qed.

(** Giving a key that was just dropped a node under a fresh number. *)
Lemma move_spec p κ k n n0 c c3 :
  inv p c3 → ext c c3 → index c !! k = Some n0 → index c3 !! k = None → kind_of n = κ →
  0 ≤ freq_of n ≤ 3 → seq_gen c < seq_of n ≤ seq_gen c3 →
  (∀ κ e, e ∈ queue κ c3 → e.2 ≠ seq_of n) →
  live_count κ c3 < cap κ c3 → Z.of_nat (length (queue κ c3)) ≤ threshold (cap κ c3) →
  (∀ v, value_of n = Some v → value_of n0 = Some v) →
  let c4 := set_queue κ (queue κ c3 ++ [(k, seq_of n)]) (live_count κ c3 + 1)
              (with_index (<[k := n]> (index c3)) c3) in
  inv p c4 ∧ ext c c4.
Proof.
  intros Hi He Hk Hk3 Hκ Hf [Hs1 Hs2] Hu Hroom Hlen Hv c4. split.
  { by apply (push_inv false p κ k n c3). }
  split.
  - intros κ'. unfold c4. rewrite cap_set. rewrite <-(ext_caps _ _ He). by destruct κ'.
  - unfold c4. rewrite seq_gen_set. apply (ext_seq _ _ He).
  - intros κ' e. unfold c4. rewrite queue_set. case_decide.
    + subst κ'. rewrite elem_of_app, list_elem_of_singleton.
      intros [?| ->]; [by apply (ext_queue _ _ He)|by right].
    + intros Hin. apply (ext_queue _ _ He). by destruct κ'.
  - intros k' n' v. unfold c4. rewrite index_set. simpl. rewrite lookup_insert. case_decide as Hkk.
    + subst k'. intros [= <-] Hn. exists n0. auto.
    + apply (ext_value _ _ He).
  - intros k' Hk'. unfold c4. rewrite index_set. simpl.
    rewrite lookup_insert_ne by congruence. by apply (ext_none _ _ He).
Qed.

(** What a pair of the main queue can cost the eviction loop: a round to drop
    it, and a round per reinsertion. *)
Definition weight m (e : K * Z) : Z :=
  match m !! e.1 with
  | Some (Main _ f s) => if s =? e.2 then 1 + f else 1
  | _ => 1
  end.

Definition potential m q : Z := foldr (λ e acc, weight m e + acc) 0 q.

Lemma potential_app m q q' : potential m (q ++ q') = potential m q + potential m q'.
Proof. induction q as [|e q IH]; simpl; [done|]. rewrite IH. lia. Qed.

Lemma potential_mono m m' q :
  (∀ e, e ∈ q → weight m' e ≤ weight m e) → potential m' q ≤ potential m q.
Proof.
  induction q as [|e q IH]; intros Hw; simpl; [done|].
  pose proof (Hw e ltac:(left)). pose proof (IH ltac:(intros; apply Hw; by right)). lia.
Qed.

Lemma weight_bounds p c e : inv p c → 1 ≤ weight (index c) e ≤ 4.
Proof.
  intros Hi. unfold weight. destruct (index c !! e.1) as [[]|] eqn:E; try lia.
  pose proof (inv_freq _ _ Hi _ _ E). simpl in *. case_if; lia.
Qed.

Lemma potential_bounds p c q :
  inv p c → Z.of_nat (length q) ≤ potential (index c) q ≤ 4 * Z.of_nat (length q).
Proof.
  intros Hi. induction q as [|e q IH]; simpl; [done|].
  pose proof (weight_bounds _ _ e Hi). lia.
Qed.

Lemma weight_dead m (e : K * Z) n :
  m !! e.1 = Some n → seq_of n ≠ e.2 → weight m e = 1.
Proof.
  intros Hn Hs. unfold weight. rewrite Hn. destruct n; simpl in *; try done.
  by rewrite (proj2 (Z.eqb_neq _ _)).
Qed.

Lemma weight_live m (e : K * Z) n :
  m !! e.1 = Some n → kind_of n = KMain → seq_of n = e.2 → weight m e = 1 + freq_of n.
Proof.
  intros Hn Hk Hs. unfold weight. rewrite Hn. destruct n; simpl in *; try done.
  by rewrite (proj2 (Z.eqb_eq _ _)).
Qed.

Lemma weight_missing m (e : K * Z) : m !! e.1 = None → weight m e = 1.
Proof. intros E. unfold weight. by rewrite E. Qed.

Lemma weight_other m k n (e : K * Z) : e.1 ≠ k → weight (<[k := n]> m) e = weight m e.
Proof. intros Hne. unfold weight. by rewrite lookup_insert_ne. Qed.

(** One round on a live pair with a positive counter: reinserted at the tail. *)
Lemma reinsert_inv p k v f s q c :
  inv p c → main c = (k, s) :: q → index c !! k = Some (Main v f s) → 1 ≤ f →
  Z.of_nat (length (main c)) ≤ threshold (main_capacity c) →
  let c1 := with_main q (main_live_count c - 1) (with_index (delete k (index c)) c) in
  let s' := seq_gen c1 + 1 in
  let c2 := with_main (main c1 ++ [(k, s')]) (main_live_count c1 + 1)
              (with_index (<[k := Main v (f - 1) s']> (index c1)) (with_seq s' c1)) in
  inv p c2 ∧ ext c c2 ∧ potential (index c2) (main c2) < potential (index c) (main c).
Proof.
  intros Hi Hq Hk Hf Hlen c1 s' c2.
  assert (p ≠ Some k) as Hpk.
  { intros ->. destruct (inv_pending _ _ Hi k eq_refl). congruence. }
  pose proof (inv_freq _ _ Hi _ _ Hk) as Hf3. simpl in Hf3.
  destruct (pop_live_inv p KMain q k (Main v f s) c) as [Hi1 He1]; try done.
  cbn [set_queue live_count] in Hi1, He1. fold c1 in Hi1, He1.
  destruct (seq_inv p c1 Hi1) as [Hi1' He1']. fold s' in Hi1', He1'.
  assert (∀ e κ, e ∈ queue κ c1 → e.2 < s') as Hfresh.
  { intros e κ He. apply (inv_seq _ _ Hi1) in He. unfold s'. lia. }
  assert (s' = seq_gen c + 1) as Es by done.
  destruct (move_spec p KMain k (Main v (f - 1) s') (Main v f s) c (with_seq s' c1)) as [Hi2 He2];
    try done.
  { by eapply ext_trans. }
  { simpl. apply lookup_delete_eq. }
  { simpl. lia. }
  { simpl. lia. }
  { intros κ e He. assert (e ∈ queue κ c1) as Hin by by destruct κ.
    pose proof (Hfresh e κ Hin). change (e.2 ≠ s'). lia. }
  { simpl. pose proof (inv_le _ _ Hi KMain). simpl in *. lia. }
  { simpl. rewrite Hq in Hlen. simpl in Hlen. lia. }
  split_and!; [done|done|].
  change (main c2) with (q ++ [(k, s')]). change (index c2) with (<[k := Main v (f - 1) s']> (delete k (index c))).
  rewrite Hq, potential_app. simpl.
  rewrite (weight_live _ (k, s') (Main v (f - 1) s')) by (simpl; done || apply lookup_insert_eq).
  rewrite (weight_live _ (k, s) (Main v f s)) by done. simpl.
  enough (potential (<[k:=Main v (f - 1) s']> (delete k (index c))) q ≤ potential (index c) q) by lia.
  apply potential_mono. intros e He. destruct (decide (e.1 = k)) as [Ek|Hne].
  - rewrite (weight_dead _ e (Main v (f - 1) s')).
    + apply (weight_bounds p c e Hi).
    + rewrite Ek. apply lookup_insert_eq.
    + pose proof (Hfresh e KMain He) as Hlt. change (s' ≠ e.2). lia.
  - rewrite weight_other by done. unfold weight. by rewrite lookup_delete_ne.
Qed.

(** The loop stops because the queue is below capacity, never because its
    budget is used up. *)
Lemma evict_main_loop_spec p budget c :
  inv p c → 1 ≤ main_capacity c → potential (index c) (main c) < Z.of_nat budget →
  Z.of_nat (length (main c)) ≤ threshold (main_capacity c) →
  let c' := evict_main_loop budget c in
  inv p c' ∧ ext c c' ∧ main_live_count c' < main_capacity c' ∧
  Z.of_nat (length (main c')) ≤ threshold (main_capacity c') ∧
  same_queue KSmall c c' ∧ same_queue KGhost c c'.
Proof.
  revert c. induction budget as [|budget IH]; intros c Hi Hcap Hpot Hlen; cbn [evict_main_loop];
    destruct (Z.leb_spec (main_capacity c) (main_live_count c));
    try (split_and!; (done || apply ext_refl || lia)).
  { pose proof (potential_bounds _ _ (main c) Hi). lia. }
  destruct (main c) as [|[k s] q] eqn:Eq.
  { exfalso. apply (nonempty_queue p KMain c); [done|simpl; lia|done]. }
  pose proof (potential_bounds _ _ q Hi) as Hq0.
  assert (∀ c1, inv p c1 → ext c c1 → potential (index c1) (main c1) < potential (index c) (main c) →
    (length (main c1) ≤ length (main c))%nat → same_queue KSmall c c1 → same_queue KGhost c c1 →
    let c' := evict_main_loop budget c1 in
    inv p c' ∧ ext c c' ∧ main_live_count c' < main_capacity c' ∧
    Z.of_nat (length (main c')) ≤ threshold (main_capacity c') ∧
    same_queue KSmall c c' ∧ same_queue KGhost c c') as Hrec.
  { intros c1 Hi1 He1 Hpot1 Hlen1 [S1 S2] [G1 G2].
    pose proof (ext_caps _ _ He1 KMain) as Hc1. simpl in Hc1. rewrite Eq in Hpot1, Hlen1.
    destruct (IH c1) as (? & ? & ? & ? & [S3 S4] & [G3 G4]); try done; try lia.
    { rewrite Hc1. lia. }
    split_and!; try done; [by eapply ext_trans|split; congruence|split; congruence]. }
  assert (¬ live KMain (index c) (k, s) →
    let c1 := with_main q (main_live_count c) c in
    inv p c1 ∧ ext c c1 ∧ potential (index c1) (main c1) < potential (index c) (main c)) as Hstale.
  { intros Hl c1. destruct (pop_stale_inv p KMain (k, s) q c) as [Hi' He']; try done.
    split_and!; [done|done|]. rewrite Eq. simpl. pose proof (weight_bounds p c (k, s) Hi). lia. }
  destruct (index c !! k) as [[v f s'|v f s'|s']|] eqn:Ek.
  2: destruct (Z.eqb_spec s' s) as [->|Hne].
  2: destruct (Z.leb_spec 1 f).
  2: { destruct (reinsert_inv p k v f s q c) as (? & ? & ?); try done; [by rewrite Eq|].
       apply Hrec; try done. rewrite Eq. simpl. rewrite length_app. simpl. lia. }
  2: { assert (p ≠ Some k) as Hpk.
       { intros ->. destruct (inv_pending _ _ Hi k eq_refl). congruence. }
       destruct (pop_live_inv p KMain q k (Main v f s) c) as [Hi' He']; try done.
       apply Hrec; try done; [|rewrite Eq; simpl; lia]. simpl. rewrite Eq. simpl.
       pose proof (weight_bounds p c (k, s) Hi).
       enough (potential (delete k (index c)) q ≤ potential (index c) q) by lia.
       apply potential_mono. intros e _. unfold weight at 1.
       destruct (decide (e.1 = k)) as [->|Hne].
       - rewrite lookup_delete_eq. apply (weight_bounds p c e Hi).
       - by rewrite lookup_delete_ne. }
  all: destruct Hstale as (? & ? & ?);
    [intros (n & Hn & Hkd & Hsq); simpl in *; rewrite Ek in Hn; by simplify_eq/=|].
  all: apply Hrec; try done; rewrite Eq; simpl; lia.
Qed.

(** A cache without a main queue keeps it empty of live entries. *)
Lemma drain_main_spec p fuel c :
  inv p c → main_capacity c = 0 →
  let c' := drain_main fuel c in
  inv p c' ∧ ext c c' ∧ (length (main c') ≤ length (main c))%nat ∧
  same_queue KSmall c c' ∧ same_queue KGhost c c'.
Proof.
  revert c. induction fuel as [|fuel IH]; intros c Hi Hcap; cbn [drain_main];
    [by split_and!; (done || apply ext_refl)|].
  destruct (main c) as [|[k s] q] eqn:Eq; [split_and!; (done || apply ext_refl || by rewrite Eq)|].
  destruct (live_main (index c) (k, s)) eqn:El.
  - apply live_main_spec in El as (n & Hn & Hk & Hs). simpl in Hn, Hs. subst s.
    assert (p ≠ Some k) as Hpk.
    { intros ->. destruct (inv_pending _ _ Hi k eq_refl). by simplify_eq. }
    destruct (pop_live_inv p KMain q k n c) as [Hi' He']; try done. simpl in Hi', He'.
    destruct (IH _ Hi' Hcap) as (? & He & Hlen & ? & ?).
    split_and!; try done; [by eapply ext_trans|simpl in *; lia].
  - destruct (pop_stale_inv p KMain (k, s) q c) as [Hi' He']; try done.
    { rewrite <-live_main_spec. congruence. }
    simpl in Hi', He'. destruct (IH _ Hi' Hcap) as (? & He & Hlen & ? & ?).
    split_and!; try done; [by eapply ext_trans|simpl in *; lia].
Qed.

Lemma evict_main_spec p c :
  inv p c →
  let c' := evict_main_if_full c in
  inv p c' ∧ ext c c' ∧ (main_capacity c ≠ 0 → main_live_count c' < main_capacity c') ∧
  Z.of_nat (length (main c')) ≤ threshold (main_capacity c') ∧
  same_queue KSmall c c' ∧ same_queue KGhost c c'.
Proof.
  intros Hi. unfold evict_main_if_full.
  destruct (compact_inv p KMain (live_main (index c)) c Hi (live_main_spec (index c)))
    as (Hi1 & He1 & Hlen1); [done|]. cbn [set_queue queue cap live_count] in Hi1, He1, Hlen1.
  set (c1 := with_main _ _ c) in *. cbn zeta.
  assert (main_capacity c1 = main_capacity c) as Hcap1 by done.
  destruct (Z.eqb_spec (main_capacity c1) 0) as [H0|H0].
  - destruct (drain_main_spec p (length (main c1)) c1 Hi1 H0) as (Hi2 & He2 & Hlen & S1 & S2).
    pose proof (ext_caps _ _ He2 KMain) as Hcap. cbn [cap] in Hcap.
    split_and!; try done; [by eapply ext_trans|rewrite Hcap, Hcap1; lia].
  - destruct (evict_main_loop_spec p (length (main c1) * 4 + 1) c1 Hi1) as (Hi2 & He2 & ? & ? & S1 & S2).
    + destruct (inv_caps _ _ Hi1) as (? & ? & ?). lia.
    + pose proof (potential_bounds _ _ (main c1) Hi1). lia.
    + by rewrite Hcap1.
    + split_and!; try done. by eapply ext_trans.
Qed.

(** ** Evicting from the small queue *)

(** While a ghost is being readmitted there is room for every small entry among
    the ghosts: this happens in a cache of capacity 1 only. *)
Definition readmission_room (p : option K) c : Prop :=
  p ≠ None → main_capacity c = 0 ∧ ghost_live_count c + small_live_count c ≤ ghost_capacity c.

(** One round on a live pair: its key moves to the ghosts or to the main queue. *)
Lemma demote_inv p k v f s q c :
  inv p c → readmission_room p c → small_capacity c ≤ small_live_count c →
  small c = (k, s) :: q → index c !! k = Some (Small v f s) →
  let c1 := with_small q (small_live_count c - 1) (with_index (delete k (index c)) c) in
  let s' := seq_gen c1 + 1 in
  let c2 := with_seq s' c1 in
  let ok := λ c4, inv p c4 ∧ ext c c4 ∧ readmission_room p c4 ∧ small c4 = q in
  ok (push_ghost k s' c2) ∧ (main_capacity c2 ≠ 0 → ok (push_main k v s' c2)).
Proof.
  intros Hi Hroom Hfull Hq Hk c1 s' c2 ok.
  assert (p ≠ Some k) as Hpk.
  { intros ->. destruct (inv_pending _ _ Hi k eq_refl). congruence. }
  destruct (inv_caps _ _ Hi) as (Hc1 & Hc2 & Hc3 & _).
  destruct (pop_live_inv p KSmall q k (Small v f s) c) as [Hi1 He1]; try done.
  cbn [set_queue live_count] in Hi1, He1. fold c1 in Hi1, He1.
  destruct (seq_inv p c1 Hi1) as [Hi2 He2]. fold s' c2 in Hi2, He2.
  assert (s' = seq_gen c + 1) as Es by done.
  assert (∀ κ e, e ∈ queue κ c2 → e.2 ≠ s') as Hu.
  { intros κ e He. assert (e ∈ queue κ c1) as Hin by by destruct κ.
    apply (inv_seq _ _ Hi1) in Hin. change (seq_gen c1) with (seq_gen c) in Hin. lia. }
  assert (ext c c2) as He by by eapply ext_trans.
  assert (index c2 !! k = None) as Hk2 by apply lookup_delete_eq.
  split.
  - destruct (evict_ghost_spec p c2 Hi2) as (Hi3 & He3 & Hlt & Hle & Hlen & [Hs3 Hn3] & _).
    { intros Hp. destruct (Hroom Hp). simpl. lia. }
    unfold ok, push_ghost. set (c3 := evict_ghost_if_full c2) in *.
    pose proof (ext_seq _ _ He3) as Hseq3. change (seq_gen c2) with s' in Hseq3.
    destruct (move_spec p KGhost k (Ghost s') (Small v f s) c c3) as [Hi4 He4]; try done.
    + by eapply ext_trans.
    + by apply (ext_none _ _ He3).
    + simpl. lia.
    + intros κ e Hin. simpl. by eapply (unused_ext c2 c3).
    + split_and!; [done|done| |done]. intros Hp. destruct (Hroom Hp).
      pose proof (ext_caps _ _ He4 KGhost) as HcG. pose proof (ext_caps _ _ He4 KMain) as HcM.
      simpl in *. lia.
  - intros Hm. destruct (evict_main_spec p c2 Hi2) as (Hi3 & He3 & Hlt & Hlen & [Hs3 Hn3] & [Hg3 Hgn3]).
    unfold ok, push_main. set (c3 := evict_main_if_full c2) in *.
    pose proof (ext_seq _ _ He3) as Hseq3. change (seq_gen c2) with s' in Hseq3.
    destruct (move_spec p KMain k (Main v 0 s') (Small v f s) c c3) as [Hi4 He4]; try done.
    + by eapply ext_trans.
    + by apply (ext_none _ _ He3).
    + simpl. lia.
    + intros κ e Hin. simpl. by eapply (unused_ext c2 c3).
    + by apply Hlt.
    + split_and!; [done|done| |done]. intros Hp. by destruct (Hroom Hp).
Qed.

Lemma evict_small_loop_spec p fuel c :
  inv p c → readmission_room p c → (length (small c) ≤ fuel)%nat →
  let c' := evict_small_loop fuel c in
  inv p c' ∧ ext c c' ∧ readmission_room p c' ∧ small_live_count c' < small_capacity c' ∧
  (length (small c') ≤ length (small c))%nat.
Proof.
  revert c. induction fuel as [|fuel IH]; intros c Hi Hroom Hfuel; cbn [evict_small_loop];
    destruct (Z.leb_spec (small_capacity c) (small_live_count c)) as [Hfull|];
    try (split_and!; (done || apply ext_refl || lia));
    destruct (inv_caps _ _ Hi) as (Hc1 & _).
  { exfalso. apply (nonempty_queue p KSmall c); [done|simpl; lia|].
    simpl. destruct (small c); [done|simpl in Hfuel; lia]. }
  destruct (small c) as [|[k s] q] eqn:Eq.
  { exfalso. apply (nonempty_queue p KSmall c); [done|simpl; lia|done]. }
  simpl in Hfuel.
  assert (∀ c1, inv p c1 → ext c c1 → readmission_room p c1 → small c1 = q →
    let c' := evict_small_loop fuel c1 in
    inv p c' ∧ ext c c' ∧ readmission_room p c' ∧ small_live_count c' < small_capacity c' ∧
    (length (small c') ≤ length ((k, s) :: q))%nat) as Hrec.
  { intros c1 Hi1 He1 Hr1 Eq1. destruct (IH c1) as (? & ? & ? & ? & Hlen); try done; [rewrite Eq1; lia|].
    split_and!; try done; [by eapply ext_trans|]. rewrite Eq1 in Hlen. simpl. lia. }
  assert (¬ live KSmall (index c) (k, s) →
    let c1 := with_small q (small_live_count c) c in
    inv p c1 ∧ ext c c1) as Hstale.
  { intros Hl c1. by apply (pop_stale_inv p KSmall (k, s) q c). }
  destruct (index c !! k) as [[v f s'|v f s'|s']|] eqn:Ek.
  1: destruct (Z.eqb_spec s' s) as [->|Hne].
  1: { destruct (demote_inv p k v f s q c Hi Hroom Hfull Eq Ek) as [(Hg1 & Hg2 & Hg3 & Hg4) Hmain].
       case_if; [|by apply Hrec]. cbn [main_capacity with_seq with_small with_index].
       destruct (Z.eqb_spec (main_capacity c) 0) as [H0|H0]; [by apply Hrec|].
       destruct (Hmain H0) as (? & ? & ? & ?). by apply Hrec. }
  all: destruct Hstale as [? ?];
    [intros (n & Hn & Hkd & Hsq); simpl in *; rewrite Ek in Hn; by simplify_eq/=|by apply Hrec].
Qed.

Lemma evict_small_spec p c :
  inv p c → readmission_room p c →
  let c' := evict_small_if_full c in
  inv p c' ∧ ext c c' ∧ small_live_count c' < small_capacity c' ∧
  Z.of_nat (length (small c')) ≤ threshold (small_capacity c').
Proof.
  intros Hi Hroom. unfold evict_small_if_full.
  destruct (compact_inv p KSmall (live_small (index c)) c Hi (live_small_spec (index c)))
    as (Hi1 & He1 & Hlen1); [done|]. cbn [set_queue queue cap live_count] in Hi1, He1, Hlen1.
  set (c1 := with_small _ _ c) in *. cbn zeta.
  destruct (evict_small_loop_spec p (length (small c1)) c1 Hi1) as (Hi2 & He2 & _ & ? & Hlen);
    [done|done|].
  pose proof (ext_caps _ _ He2 KSmall) as Hcap. cbn [cap] in Hcap.
  assert (small_capacity c1 = small_capacity c) as Hcap1 by done.
  split_and!; try done; [by eapply ext_trans|]. rewrite Hcap, Hcap1. lia.
Qed.

(** ** The public operations *)

Lemma update_inv p k n n' c :
  inv p c → index c !! k = Some n → kind_of n' = kind_of n → seq_of n' = seq_of n →
  0 ≤ freq_of n' ≤ 3 → kind_of n ≠ KGhost →
  inv p (with_index (<[k := n']> (index c)) c).
Proof.
  intros [Hcaps Hcount Hqueued Hfreq Hseq Hnd Hle Hlen Hp] Hk Hkd Hs Hf Hng.
  set (c' := with_index _ c).
  assert (∀ κ, queue κ c' = queue κ c) as Hq by by intros [].
  assert (∀ κ, live_count κ c' = live_count κ c) as Hl by by intros [].
  assert (∀ κ, cap κ c' = cap κ c) as Hc by by intros [].
  split; [done|..].
  - intros κ. rewrite Hl, Hcount. simpl. rewrite (count_replace _ _ _ n), Hkd by done. lia.
  - intros k' m'. simpl. rewrite lookup_insert. case_decide as Hkk; [|rewrite Hq; eauto].
    subst k'. intros [= <-]. rewrite Hq, Hkd, Hs. eauto.
  - intros k' m'. simpl. rewrite lookup_insert. case_decide; [by intros [= <-]|eauto].
  - intros κ e. rewrite Hq. apply Hseq.
  - intros κ. by rewrite Hq.
  - intros κ. by rewrite Hl, Hc.
  - intros κ. by rewrite Hq, Hc.
  - intros k' ->. destruct (Hp k' eq_refl) as [s0 Hg]. exists s0. simpl.
    rewrite lookup_insert_ne; [done|]. intros ->. rewrite Hk in Hg. by simplify_eq/=.
Qed.

Lemma pend_inv k s c :
  inv None c → index c !! k = Some (Ghost s) →
  inv (Some k) (with_ghost (ghost c) (ghost_live_count c - 1) c).
Proof.
  intros [Hcaps Hcount Hqueued Hfreq Hseq Hnd Hle Hlen Hp] Hk.
  set (c' := with_ghost _ _ c).
  assert (∀ κ, queue κ c' = queue κ c) as Hq by by intros [].
  assert (∀ κ, cap κ c' = cap κ c) as Hc by by intros [].
  assert (∀ κ, live_count κ c' = live_count κ c - (if decide (κ = KGhost) then 1 else 0)) as Hl.
  { intros []; simpl; lia. }
  split; [done|..].
  - intros κ. specialize (Hcount κ). rewrite Hl. change (index c') with (index c).
    rewrite <-Hcount. repeat case_decide; naive_solver lia.
  - intros k' n Hn. rewrite Hq. by apply Hqueued.
  - done.
  - intros κ e. rewrite Hq. apply Hseq.
  - intros κ. by rewrite Hq.
  - intros κ. rewrite Hl, Hc. specialize (Hle κ). case_decide; lia.
  - intros κ. by rewrite Hq, Hc.
  - intros k' [= <-]. eauto.
Qed.

Lemma clear_inv c : inv None c → inv None (clear c).
Proof.
  intros [Hcaps Hcount Hqueued Hfreq Hseq Hnd Hle Hlen Hp].
  assert (∀ κ, queue κ (clear c) = []) as Hq by by intros [].
  split; [done|..].
  - intros κ. rewrite decide_False by naive_solver. simpl. unfold count.
    rewrite map_filter_empty, map_size_empty. by destruct κ.
  - intros k n. simpl. by rewrite lookup_empty.
  - intros k n. simpl. by rewrite lookup_empty.
  - intros κ e. rewrite Hq. by intros ?%elem_of_nil.
  - intros κ. rewrite Hq. constructor.
  - intros κ. destruct κ; simpl; lia.
  - intros κ. rewrite Hq. unfold threshold. simpl. lia.
  - done.
Qed.

Lemma remove_inv k c : inv None c → inv None (snd (remove k c)).
Proof.
  intros Hi. unfold remove. destruct (index c !! k) as [n|] eqn:Hk.
  2: { simpl. rewrite delete_id by done. by destruct c. }
  pose proof (inv_caps _ _ Hi) as Hcaps. destruct Hi as [_ Hcount Hqueued Hfreq Hseq Hnd Hle Hlen _].
  set (κ := kind_of n). set (c' := set_queue κ (queue κ c) (live_count κ c - 1) (with_index (delete k (index c)) c)).
  assert (inv None c') as Hc'.
  { assert (∀ κ', queue κ' c' = queue κ' c) as Hq by (intros κ'; unfold c'; by destruct κ, κ').
    assert (∀ κ', cap κ' c' = cap κ' c) as Hc by (intros κ'; unfold c'; by destruct κ, κ').
    assert (index c' = delete k (index c)) as Hidx by (unfold c'; by rewrite index_set).
    assert (∀ κ', live_count κ' c' = live_count κ' c - (if decide (κ = κ') then 1 else 0)) as Hl.
    { intros κ'. unfold c'. destruct κ, κ'; simpl; lia. }
    assert (seq_gen c' = seq_gen c) as Hgen by (unfold c'; by rewrite seq_gen_set).
    split.
    - pose proof (Hc KSmall). pose proof (Hc KMain). pose proof (Hc KGhost). simpl in *. lia.
    - intros κ'. rewrite Hl, Hidx, (count_delete _ _ _ n), <-Hcount by done. fold κ. lia.
    - intros k' n'. rewrite Hidx, lookup_delete_Some, Hq. intros [_ ?]. eauto.
    - intros k' n'. rewrite Hidx, lookup_delete_Some. intros [_ ?]. eauto.
    - intros κ' e. rewrite Hq, Hgen. apply Hseq.
    - intros κ'. by rewrite Hq.
    - intros κ'. rewrite Hl, Hc. specialize (Hle κ'). case_decide; lia.
    - intros κ'. by rewrite Hq, Hc.
    - done. }
  by destruct n.
Qed.

(** Pushing the inserted key after an eviction [c3] of [c]. *)
Lemma push_result (readmit : bool) p κ k v s n c c3 :
  n = (match κ with KSmall => Small v 0 s | _ => Main v 0 s end) → κ ≠ KGhost →
  inv p c3 → ext c c3 → (if readmit then p = Some k else p = None ∧ index c !! k = None) →
  s ≤ seq_gen c → (∀ κ e, e ∈ queue κ c → e.2 ≠ s) →
  live_count κ c3 < cap κ c3 → Z.of_nat (length (queue κ c3)) ≤ threshold (cap κ c3) →
  let c4 := set_queue κ (queue κ c3 ++ [(k, s)]) (live_count κ c3 + 1)
              (with_index (<[k := n]> (index c3)) c3) in
  inv None c4 ∧ (∀ κ, cap κ c4 = cap κ c) ∧ index c4 !! k = Some n ∧
  (∀ k' v', k' ≠ k → peek k' c4 = Some v' → peek k' c = Some v').
Proof.
  intros Hn Hκ Hi He Hp Hs Hu Hlt Hlen c4.
  assert (kind_of n = κ ∧ seq_of n = s ∧ freq_of n = 0) as (Hnk & Hns & Hnf) by (subst n; by destruct κ).
  split_and!.
  - pose proof (push_inv readmit p κ k n c3 Hi) as Hpush. rewrite Hns in Hpush.
    destruct readmit; [apply Hpush|destruct Hp as [-> Hk]; apply Hpush]; try done; try lia.
    + pose proof (ext_seq _ _ He). lia.
    + by eapply unused_ext.
    + by apply (ext_none _ _ He).
    + pose proof (ext_seq _ _ He). lia.
    + by eapply unused_ext.
  - intros κ'. unfold c4. rewrite cap_set. rewrite <-(ext_caps _ _ He). by destruct κ'.
  - unfold c4. rewrite index_set. apply lookup_insert_eq.
  - intros k' v' Hne. unfold peek, c4. rewrite index_set. simpl. rewrite lookup_insert_ne by done.
    intros Hv. destruct (index c3 !! k') as [n3|] eqn:E3; [|done].
    destruct (ext_value _ _ He k' n3 v') as (n0 & E0 & Hv0); [done|by destruct n3|].
    rewrite E0. by destruct n0.
Qed.

(** Readmission happens without a main queue in caches of capacity 1 only. *)
Definition wf c : Prop := inv None c ∧ (main_capacity c = 0 → small_capacity c = 1).

(** Where an inserted key ends up, and what else can change. *)
Lemma insert_result k v c :
  wf c →
  let c' := insert k v c in
  wf c' ∧ (∀ κ, cap κ c' = cap κ c) ∧
  (∀ k' v', k' ≠ k → peek k' c' = Some v' → peek k' c = Some v') ∧
  match index c !! k with
  | Some (Small _ f s) => index c' = <[k := Small v (bump_freq f) s]> (index c)
  | Some (Main _ f s) => index c' = <[k := Main v (bump_freq f) s]> (index c)
  | Some (Ghost _) =>
      index c' !! k = Some (if main_capacity c =? 0 then Small v 0 (seq_gen c + 1)
                            else Main v 0 (seq_gen c + 1))
  | None => index c' !! k = Some (Small v 0 (seq_gen c + 1))
  end.
Proof.
  intros [Hi Htiny]. unfold insert. destruct (seq_inv None c Hi) as [Hi1 He1].
  set (c1 := with_seq (seq_gen c + 1) c) in *. set (s := seq_gen c + 1) in *. cbn zeta.
  change (seq_gen c1) with s. change (index c1) with (index c).
  assert (∀ κ e, e ∈ queue κ c1 → e.2 ≠ s) as Hu.
  { intros κ e He. assert (e ∈ queue κ c) as Hin by by destruct κ.
    apply (inv_seq _ _ Hi) in Hin. unfold s. lia. }
  assert (∀ n n', index c !! k = Some n → kind_of n' = kind_of n → seq_of n' = seq_of n →
    freq_of n' = bump_freq (freq_of n) → kind_of n ≠ KGhost →
    let c' := with_index (<[k := n']> (index c)) c1 in
    wf c' ∧ (∀ κ, cap κ c' = cap κ c) ∧
    (∀ k' v', k' ≠ k → peek k' c' = Some v' → peek k' c = Some v')) as Hupd.
  { intros n n' Hk Hkd Hsq Hf Hng c'. split_and!; [split; [|done]|by intros []|].
    - apply (update_inv None k n n' c1); try done. rewrite Hf. unfold bump_freq.
      pose proof (inv_freq _ _ Hi _ _ Hk). lia.
    - intros k' v' Hne. unfold peek. simpl. by rewrite lookup_insert_ne. }
  destruct (index c !! k) as [[v0 f s0|v0 f s0|s0]|] eqn:Hk.
  - destruct (Hupd _ (Small v (bump_freq f) s0) eq_refl) as (? & ? & ?); done.
  - destruct (Hupd _ (Main v (bump_freq f) s0) eq_refl) as (? & ? & ?); done.
  - pose proof (pend_inv k s0 c1 Hi1 Hk) as Hi2. set (c2 := with_ghost _ _ c1) in *.
    change (main_capacity c2) with (main_capacity c).
    assert (∀ κ e, e ∈ queue κ c2 → e.2 ≠ s) as Hu2.
    { intros κ e He. apply (Hu κ). by destruct κ. }
    destruct (Z.eqb_spec (main_capacity c) 0) as [H0|H0].
    + specialize (Htiny H0).
      destruct (evict_small_spec (Some k) c2 Hi2) as (Hi3 & He3 & Hlt & Hlen).
      { intros _. split; [done|]. destruct (inv_caps _ _ Hi) as (_ & _ & Hg & _).
        pose proof (inv_le _ _ Hi KSmall). pose proof (inv_le _ _ Hi KGhost). simpl in *. lia. }
      destruct (push_result true (Some k) KSmall k v s (Small v 0 s) c2 (evict_small_if_full c2))
        as (Hi4 & Hc4 & Hk4 & Hp4); try done.
      split_and!; [split; [done|]|..|done].
      * pose proof (Hc4 KSmall) as E1. pose proof (Hc4 KMain) as E2. simpl in E1, E2.
        unfold push_small. simpl. rewrite E1, E2. done.
      * intros κ. rewrite Hc4. by destruct κ.
      * done.
    + destruct (evict_main_spec (Some k) c2 Hi2) as (Hi3 & He3 & Hlt & Hlen & _).
      destruct (push_result true (Some k) KMain k v s (Main v 0 s) c2 (evict_main_if_full c2))
        as (Hi4 & Hc4 & Hk4 & Hp4); try done; [by apply Hlt|].
      split_and!; [split; [done|]|..|done].
      * pose proof (Hc4 KMain) as E2. simpl in E2. unfold push_main. simpl. by rewrite E2.
      * intros κ. rewrite Hc4. by destruct κ.
      * done.
  - destruct (evict_small_spec None c1 Hi1) as (Hi3 & He3 & Hlt & Hlen); [done|].
    destruct (push_result false None KSmall k v s (Small v 0 s) c1 (evict_small_if_full c1))
      as (Hi4 & Hc4 & Hk4 & Hp4); try done.
    split_and!; [split; [done|]|..|done].
    + pose proof (Hc4 KSmall) as E1. pose proof (Hc4 KMain) as E2. simpl in E1, E2.
      unfold push_small. simpl. rewrite E1, E2. done.
    + intros κ. rewrite Hc4. by destruct κ.
    + done.
Qed.

Lemma get_mut_result k f c :
  wf c →
  let '(o, c') := get_mut k f c in
  wf c' ∧ (∀ κ, cap κ c' = cap κ c) ∧ o = peek k c ∧ (∀ k', peek k' c' = if decide (k' = k) then f <$> peek k' c else peek k' c).
Proof.
  intros [Hi Htiny]. unfold get_mut. unfold peek at 1.
  assert (∀ n n', index c !! k = Some n → kind_of n' = kind_of n → seq_of n' = seq_of n →
    freq_of n' = bump_freq (freq_of n) → kind_of n ≠ KGhost → value_of n' = f <$> value_of n →
    let c' := with_index (<[k := n']> (index c)) c in
    wf c' ∧ (∀ κ, cap κ c' = cap κ c) ∧ (∀ k', peek k' c' = if decide (k' = k) then f <$> peek k' c else peek k' c)) as Hupd.
  { intros n n' Hk Hkd Hsq Hf Hng Hv c'. split_and!; [split; [|done]|by intros []|].
    - apply (update_inv None k n n' c); try done. rewrite Hf. unfold bump_freq.
      pose proof (inv_freq _ _ Hi _ _ Hk). lia.
    - intros k'. unfold peek. simpl. case_decide as Hkk; [subst k'|by rewrite lookup_insert_ne].
      rewrite lookup_insert_eq, Hk. destruct n, n'; simpl in *; congruence. }
  destruct (index c !! k) as [[v g s|v g s|s]|] eqn:Hk.
  - destruct (Hupd _ (Small (f v) (bump_freq g) s) eq_refl) as (? & ? & ?); done.
  - destruct (Hupd _ (Main (f v) (bump_freq g) s) eq_refl) as (? & ? & ?); done.
  - split_and!; [by split|done|done|]. intros k'. case_decide as Hkk; [|done]. subst k'. unfold peek. by rewrite Hk.
  - split_and!; [by split|done|done|]. intros k'. case_decide as Hkk; [|done]. subst k'. unfold peek. by rewrite Hk.
Qed.

Lemma get_get_mut k c : get k c = get_mut k id c.
Proof. unfold get, get_mut. by destruct (index c !! k) as [[]|]. Qed.

Lemma get_result k c :
  wf c →
  let '(o, c') := get k c in
  wf c' ∧ (∀ κ, cap κ c' = cap κ c) ∧ o = peek k c ∧ (∀ k', peek k' c' = peek k' c).
Proof.
  intros Hwf. rewrite get_get_mut. pose proof (get_mut_result k id c Hwf) as Hr.
  destruct (get_mut k id c) as [o c']. destruct Hr as (? & ? & ? & Hp). split_and!; [done|done|done|].
  intros k'. rewrite Hp. case_decide; [|done]. by destruct (peek k' c).
Qed.

Lemma remove_result k c :
  wf c →
  let '(o, c') := remove k c in
  wf c' ∧ (∀ κ, cap κ c' = cap κ c) ∧ o = peek k c ∧ peek k c' = None ∧
  (∀ k', k' ≠ k → peek k' c' = peek k' c).
Proof.
  intros [Hi Htiny]. pose proof (remove_inv k c Hi) as Hi'. revert Hi'.
  unfold remove, peek.
  destruct (index c !! k) as [[v f s|v f s|s]|]; simpl; intros Hi';
    (split_and!; [by split|by intros []|done|by rewrite lookup_delete_eq|]);
    intros k' Hne; by rewrite lookup_delete_ne.
Qed.

Lemma clear_result c :
  wf c → wf (clear c) ∧ (∀ κ, cap κ (clear c) = cap κ c) ∧ (∀ k, peek k (clear c) = None).
Proof. intros [Hi Htiny]. split_and!; [split; [by apply clear_inv|done]|by intros []|done]. Qed.

(** ** Histories *)

Inductive Op :=
  | OInsert (k : K) (v : V)
  | OGet (k : K)
  | OGetMut (k : K) (f : V → V)
  | ORemove (k : K)
  | OClear.

Definition apply_op c (o : Op) : S3FifoCache K V :=
  match o with
  | OInsert k v => insert k v c
  | OGet k => snd (get k c)
  | OGetMut k f => snd (get_mut k f c)
  | ORemove k => snd (remove k c)
  | OClear => clear c
  end.

(** The same history on a plain map that never evicts. *)
Definition apply_spec (m : gmap K V) (o : Op) : gmap K V :=
  match o with
  | OInsert k v => <[k := v]> m
  | OGet _ => m
  | OGetMut k f => alter f k m
  | ORemove k => delete k m
  | OClear => ∅
  end.

Definition history (ops : list Op) c : S3FifoCache K V := fold_left apply_op ops c.
Definition spec_history (ops : list Op) (m : gmap K V) : gmap K V := fold_left apply_spec ops m.

Lemma new_wf z c : new z = Some c → z ≤ u64_max → wf c ∧ cap KGhost c = z ∧ index c = ∅.
Proof.
  unfold new. destruct (Z.ltb_spec 0 z); [|done]. intros [= <-] Hz.
  assert (0 ≤ z `div` 10 ∧ z `div` 10 ≤ z) as [Hd1 Hd2].
  { split; [apply Z.div_pos; lia|apply Z.div_le_upper_bound; lia]. }
  split_and!; [split|done|done].
  - split; simpl; try done; try lia.
    + intros κ. rewrite decide_False by naive_solver. unfold count.
      rewrite map_filter_empty, map_size_empty. by destruct κ.
    + intros κ e. destruct κ; simpl; by intros ?%elem_of_nil.
    + intros κ. destruct κ; constructor.
    + intros κ. destruct κ; simpl; lia.
    + intros κ. unfold threshold. destruct κ; simpl; lia.
  - simpl. intros Hz0. pose proof (Z.mul_div_le z 10 ltac:(lia)). lia.
Qed.

(** [c] agrees with [vals] where it remembers anything. *)
Definition agrees c (vals : gmap K V) : Prop := ∀ k v, peek k c = Some v → vals !! k = Some v.

Lemma op_result o c vals :
  wf c → agrees c vals →
  wf (apply_op c o) ∧ (∀ κ, cap κ (apply_op c o) = cap κ c) ∧ agrees (apply_op c o) (apply_spec vals o).
Proof.
  intros Hwf Ha. destruct o as [k v|k|k f|k|]; simpl.
  - destruct (insert_result k v c Hwf) as (Hwf' & Hc & Hold & Hnew). split_and!; [done|done|].
    intros k' v' Hv. rewrite lookup_insert. case_decide as Hk.
    + subst k'. revert Hv Hnew. unfold peek.
      destruct (index c !! k) as [[]|] eqn:Ek; intros Hv Hidx.
      * rewrite Hidx, lookup_insert_eq in Hv. done.
      * rewrite Hidx, lookup_insert_eq in Hv. done.
      * rewrite Hidx in Hv. by case_ifs.
      * by rewrite Hidx in Hv.
    + apply Ha. apply Hold; [congruence|done].
  - pose proof (get_result k c Hwf) as Hg. destruct (get k c) as [o c']. simpl.
    destruct Hg as (? & ? & _ & Hp). split_and!; [done|done|]. intros k' v'. rewrite Hp. apply Ha.
  - pose proof (get_mut_result k f c Hwf) as Hg. destruct (get_mut k f c) as [o c']. simpl.
    destruct Hg as (? & ? & _ & Hp). split_and!; [done|done|]. intros k' v'. rewrite Hp. case_decide as Hk.
    + subst k'. intros (w & Hw & ->)%fmap_Some. by rewrite lookup_alter_eq, (Ha k w).
    + intros ?. rewrite lookup_alter_ne by done. by apply Ha.
  - pose proof (remove_result k c Hwf) as Hg. destruct (remove k c) as [o c']. simpl.
    destruct Hg as (? & ? & _ & Hn & Hp). split_and!; [done|done|]. intros k' v' Hv.
    rewrite lookup_delete. case_decide as Hk; [subst; congruence|].
    apply Ha. by rewrite Hp in Hv.
  - destruct (clear_result c Hwf) as (? & ? & Hp). split_and!; [done|done|].
    intros k v. by rewrite Hp.
Qed.

Lemma history_result ops c vals :
  wf c → agrees c vals →
  wf (history ops c) ∧ (∀ κ, cap κ (history ops c) = cap κ c) ∧
  agrees (history ops c) (spec_history ops vals).
Proof.
  revert c vals. induction ops as [|o ops IH]; intros c vals Hwf Ha; simpl; [done|].
  destruct (op_result o c vals Hwf Ha) as (Hwf1 & Hc1 & Ha1).
  destruct (IH _ _ Hwf1 Ha1) as (? & Hc & ?). split_and!; [done| |done].
  intros κ. by rewrite Hc, Hc1.
Qed.

Lemma visible_count m :
  count KSmall m + count KMain m =
  Z.of_nat (size (filter (λ kn : K * Node V, visible kn.2 = true) m)).
Proof.
  induction m as [|k n m Hk IH] using map_ind.
  - unfold count. by rewrite !map_filter_empty, map_size_empty.
  - rewrite !count_insert by done.
    destruct (visible n) eqn:Hv.
    + rewrite map_filter_insert_True by done.
      rewrite map_size_insert_None by (apply map_lookup_filter_None; by left).
      destruct n; simpl in *; try done; lia.
    + rewrite map_filter_insert_False by (simpl; congruence). rewrite delete_id by done.
      destruct n; simpl in *; try done; lia.
Qed.

(** the cache is bounded.  After any sequence of operations on a fresh
    cache, [len] counts exactly the visible keys and is at most the capacity,
    as is the number of ghosts; no counter went below zero; and stale entries
    included, each queue is at most one longer than four times its capacity
    (with a floor of four). *)
Theorem cache_bounded z c0 ops :
  new z = Some c0 → z ≤ u64_max →
  let c := history ops c0 in
  len c = Z.of_nat (size (keys c)) ∧ len c ≤ z ∧ capacity c = z ∧
  (∀ κ, 0 ≤ live_count κ c ≤ cap κ c) ∧
  (∀ κ, Z.of_nat (length (queue κ c)) ≤ Z.max (4 * cap κ c) 4 + 1).
Proof.
  intros Hnew Hz c. destruct (new_wf z c0 Hnew Hz) as (Hwf0 & Hcap & Hidx).
  destruct (history_result ops c0 ∅ Hwf0) as ([Hi _] & Hc & _).
  { intros k v. unfold peek. by rewrite Hidx, lookup_empty. }
  fold c in Hi, Hc. clearbody c. destruct (inv_caps _ _ Hi) as (Hc1 & Hc2 & Hc3 & Hc4).
  assert (∀ κ, live_count κ c = count κ (index c)) as Hn.
  { intros κ. rewrite <-(inv_count _ _ Hi). case_decide; naive_solver lia. }
  assert (ghost_capacity c = z) as Hz' by (rewrite <-Hcap; apply (Hc KGhost)).
  pose proof (inv_le _ _ Hi KSmall) as HS. pose proof (inv_le _ _ Hi KMain) as HM. simpl in HS, HM.
  split_and!.
  - unfold len, keys. rewrite size_dom, <-visible_count.
    by rewrite <-(Hn KSmall), <-(Hn KMain).
  - unfold len. lia.
  - unfold capacity. lia.
  - intros κ. split; [rewrite Hn; apply count_nonneg|apply (inv_le _ _ Hi)].
  - intros κ. pose proof (inv_length _ _ Hi κ) as Hl.
    unfold threshold, u64_saturating_mul, u64_max in *. lia.
Qed.

(** C25: the cache is transparent.  After any sequence of operations, a key the
    cache still knows has the value a map that never evicts would give it. *)
Theorem cache_refines_map z c0 ops k v :
  new z = Some c0 → z ≤ u64_max →
  peek k (history ops c0) = Some v → spec_history ops ∅ !! k = Some v.
Proof.
  intros Hnew Hz Hp. destruct (new_wf z c0 Hnew Hz) as (Hwf0 & _ & Hidx).
  destruct (history_result ops c0 ∅ Hwf0) as (_ & _ & Ha); [|by apply Ha].
  intros k' v'. unfold peek. by rewrite Hidx, lookup_empty.
Qed.

(** where an inserted key goes, on every branch: a live key keeps its place
    and its queue number, with its counter raised up to 3, and nothing is
    evicted; a ghost key enters the main queue (the small one if there is no
    main queue); a new key enters the small queue; and what was just inserted
    is found. *)
Theorem insert_placement z c0 ops k v :
  new z = Some c0 → z ≤ u64_max →
  let c := history ops c0 in let c' := insert k v c in
  peek k c' = Some v ∧
  match index c !! k with
  | Some (Small _ f s) => index c' = <[k := Small v (Z.min (f + 1) 3) s]> (index c)
  | Some (Main _ f s) => index c' = <[k := Main v (Z.min (f + 1) 3) s]> (index c)
  | Some (Ghost _) => index c' !! k = Some (if main_capacity c =? 0 then Small v 0 (seq_gen c + 1)
                                            else Main v 0 (seq_gen c + 1))
  | None => index c' !! k = Some (Small v 0 (seq_gen c + 1))
  end.
Proof.
  intros Hnew Hz c c'. destruct (new_wf z c0 Hnew Hz) as (Hwf0 & _ & Hidx).
  destruct (history_result ops c0 ∅ Hwf0) as (Hwf & _ & _).
  { intros k' v'. unfold peek. by rewrite Hidx, lookup_empty. }
  destruct (insert_result k v c Hwf) as (_ & _ & _ & Hplace). fold c' in Hplace.
  split; [|exact Hplace]. unfold peek.
  destruct (index c !! k) as [[]|]; rewrite Hplace, ?lookup_insert_eq; try done. by case_if.
Qed.
End facts.

(** ** A concrete history *)

Module S3FifoRuns.

Abbreviation cache := (S3FifoCache N N).

Definition fresh (z : Z) : cache :=
  default {| small := []; main := []; ghost := []; index := ∅; small_capacity := 0;
             main_capacity := 0; ghost_capacity := 0; seq_gen := 0; small_live_count := 0;
             main_live_count := 0; ghost_live_count := 0 |} (new z).

(** Capacity 3: key 1 is hit and promoted, key 2 becomes a ghost and returns. *)
Definition ops : list (Op (K := N) (V := N)) :=
  [OInsert 1%N 10%N; OGet 1%N; OInsert 2%N 20%N; OInsert 3%N 30%N; OInsert 2%N 21%N; ORemove 3%N].

Lemma cache_bounded_witness : len (history ops (fresh 3)) = 2 ∧ len (history ops (fresh 3)) ≤ 3.
Proof.
  split; [vm_compute; reflexivity|].
  destruct (cache_bounded 3 (fresh 3) ops) as (_ & Hle & _);
    [reflexivity|vm_compute; discriminate|exact Hle].
Defined.

Lemma cache_refines_map_witness : spec_history ops ∅ !! 2%N = Some 21%N.
Proof.
  apply (cache_refines_map 3 (fresh 3) ops); [reflexivity|vm_compute; discriminate|].
  vm_compute. reflexivity.
Defined.

Lemma insert_placement_witness : peek 1%N (insert 1%N 11%N (history ops (fresh 3))) = Some 11%N.
Proof.
  destruct (insert_placement 3 (fresh 3) ops 1%N 11%N) as [Hp _];
    [reflexivity|vm_compute; discriminate|exact Hp].
Defined.
End S3FifoRuns.
