(* ===== verification/LockOrder.v ===== *)
(** * The lock hierarchy ([mcp-agent-mail-core/src/lock_order.rs])

    Process-global locks carry a level, and a thread may only acquire a lock
    above every lock it holds.  The wrappers of the mutexes and read-write locks
    are the steps of a transition system over threads, guards and waiters; a
    guard is what [lock], [read] or [write] returned.  The instrumentation is
    modelled as well: wrapping 64-bit counters and the compare-and-swap loop
    that keeps a maximum.  Levels are checked in builds with
    [debug_assertions], which is the build modelled here. *)

From stdpp Require Import base tactics list gmap sorting.
From S2P Require Import Prelude.
Open Scope Z_scope.

Module LockOrder.

(** ** Levels *)

Inductive LockLevel :=
  | DbPoolCache
  | DbSqliteInitGates
  | DbReadCacheProjectsBySlug
  | DbReadCacheProjectsByHumanKey
  | DbReadCacheAgentsByKey
  | DbReadCacheAgentsById
  | DbReadCacheInboxStats
  | DbReadCacheDeferredTouches
  | DbReadCacheLastTouchFlush
  | DbQueryTrackerInner
  | StorageArchiveLockMap
  | StorageRepoCache
  | StorageSignalDebounce
  | StorageWbqDrainHandle
  | StorageWbqStats
  | StorageCommitQueue
  | ToolsBridgedEnv
  | ToolsToolMetrics
  | ServerLiveDashboard.

#[export] Instance LockLevel_eq_dec : EqDecision LockLevel.
Proof. solve_decision. Defined.

Definition COUNT : nat := 19.

Definition ALL : list LockLevel :=
  [DbPoolCache; DbSqliteInitGates; DbReadCacheProjectsBySlug; DbReadCacheProjectsByHumanKey;
   DbReadCacheAgentsByKey; DbReadCacheAgentsById; DbReadCacheInboxStats;
   DbReadCacheDeferredTouches; DbReadCacheLastTouchFlush; DbQueryTrackerInner;
   StorageArchiveLockMap; StorageRepoCache; StorageSignalDebounce; StorageWbqDrainHandle;
   StorageWbqStats; StorageCommitQueue; ToolsBridgedEnv; ToolsToolMetrics; ServerLiveDashboard].

Definition ordinal (l : LockLevel) : nat :=
  match l with
  | DbPoolCache => 0
  | DbSqliteInitGates => 1
  | DbReadCacheProjectsBySlug => 2
  | DbReadCacheProjectsByHumanKey => 3
  | DbReadCacheAgentsByKey => 4
  | DbReadCacheAgentsById => 5
  | DbReadCacheInboxStats => 6
  | DbReadCacheDeferredTouches => 7
  | DbReadCacheLastTouchFlush => 8
  | DbQueryTrackerInner => 9
  | StorageArchiveLockMap => 10
  | StorageRepoCache => 11
  | StorageSignalDebounce => 12
  | StorageWbqDrainHandle => 13
  | StorageWbqStats => 14
  | StorageCommitQueue => 15
  | ToolsBridgedEnv => 16
  | ToolsToolMetrics => 17
  | ServerLiveDashboard => 18
  end%nat.

Definition from_ordinal (ord : nat) : option LockLevel :=
  match ord with
  | 0 => Some DbPoolCache
  | 1 => Some DbSqliteInitGates
  | 2 => Some DbReadCacheProjectsBySlug
  | 3 => Some DbReadCacheProjectsByHumanKey
  | 4 => Some DbReadCacheAgentsByKey
  | 5 => Some DbReadCacheAgentsById
  | 6 => Some DbReadCacheInboxStats
  | 7 => Some DbReadCacheDeferredTouches
  | 8 => Some DbReadCacheLastTouchFlush
  | 9 => Some DbQueryTrackerInner
  | 10 => Some StorageArchiveLockMap
  | 11 => Some StorageRepoCache
  | 12 => Some StorageSignalDebounce
  | 13 => Some StorageWbqDrainHandle
  | 14 => Some StorageWbqStats
  | 15 => Some StorageCommitQueue
  | 16 => Some ToolsBridgedEnv
  | 17 => Some ToolsToolMetrics
  | 18 => Some ServerLiveDashboard
  | _ => None
  end%nat.

Definition rank (l : LockLevel) : Z :=
  match l with
  | DbPoolCache => 10
  | DbSqliteInitGates => 11
  | DbReadCacheProjectsBySlug => 20
  | DbReadCacheProjectsByHumanKey => 21
  | DbReadCacheAgentsByKey => 22
  | DbReadCacheAgentsById => 23
  | DbReadCacheInboxStats => 24
  | DbReadCacheDeferredTouches => 25
  | DbReadCacheLastTouchFlush => 26
  | DbQueryTrackerInner => 30
  | StorageArchiveLockMap => 39
  | StorageRepoCache => 40
  | StorageSignalDebounce => 41
  | StorageWbqDrainHandle => 50
  | StorageWbqStats => 51
  | StorageCommitQueue => 60
  | ToolsBridgedEnv => 70
  | ToolsToolMetrics => 80
  | ServerLiveDashboard => 90
  end.

(** The tables of the hierarchy agree: ordinals and levels are inverse to
    each other below [COUNT], [ALL] lists the levels by ordinal, and ranks
    increase strictly along it, so no two levels share one. *)
Theorem lock_level_tables :
  (∀ l, from_ordinal (ordinal l) = Some l ∧ (ordinal l < COUNT)%nat) ∧
  (∀ ord l, from_ordinal ord = Some l → ordinal l = ord) ∧
  (∀ l, ALL !! ordinal l = Some l) ∧ length ALL = COUNT ∧
  StronglySorted (λ a b, rank a < rank b) ALL ∧ (∀ a b, rank a = rank b → a = b).
Proof.
  split_and!.
  - by intros []; (split; [|vm_compute; lia]).
  - intros ord l. do 19 (destruct ord as [|ord]; [by intros [= <-]|]). done.
  - by intros [].
  - done.
  - unfold ALL. repeat constructor; done.
  - by intros [] [].
Qed.

(** ** The held stack of a thread *)

(** [check_before_acquire]; [false] is the panic. *)
Definition check_before_acquire (held : list LockLevel) (level : LockLevel) : bool :=
  match last held with
  | None => true
  | Some l => rank l <? rank level
  end.

Definition did_acquire (held : list LockLevel) (level : LockLevel) : list LockLevel :=
  held ++ [level].

(** [rposition] and [remove]; [None] is the panic. *)
Fixpoint remove_last (level : LockLevel) (held : list LockLevel) : option (list LockLevel) :=
  match held with
  | [] => None
  | l :: held =>
      match remove_last level held with
      | Some held' => Some (l :: held')
      | None => if bool_decide (l = level) then Some held else None
      end
  end.

Definition did_release (held : list LockLevel) (level : LockLevel) : option (list LockLevel) :=
  remove_last level held.

(** ** Threads and guards *)

Inductive Mode := Exclusive | Shared.

#[export] Instance Mode_eq_dec : EqDecision Mode.
Proof. solve_decision. Defined.

Section system.
(** The locks of the process and their levels; a mutex is only locked
    exclusively, a read-write lock in both modes. *)
Context {L : Type} `{EqDecision L} (level : L → LockLevel).

Record Guard := { owner : nat; lock : L; mode : Mode }.

#[export] Instance Guard_eq_dec : EqDecision Guard.
Proof. solve_decision. Defined.

(** [held]: [HELD_LOCKS] of every thread; [guards]: the guards alive;
    [waiting]: the threads blocked inside the slow path. *)
Record Sys := {
  held : nat → list LockLevel;
  guards : list Guard;
  waiting : gmap nat (L * Mode);
}.

Definition initial : Sys := {| held := λ _, []; guards := []; waiting := ∅ |}.

Definition free (s : Sys) (l : L) : Prop := ∀ g, g ∈ guards s → lock g ≠ l.

(** The standard library's lock can be acquired in this mode. *)
Definition available (s : Sys) (l : L) (m : Mode) : Prop :=
  match m with
  | Exclusive => free s l
  | Shared => ∀ g, g ∈ guards s → lock g = l → mode g = Shared
  end.

Definition set_held (t : nat) (h : list LockLevel) (f : nat → list LockLevel) : nat → list LockLevel :=
  λ t', if bool_decide (t' = t) then h else f t'.

(** The state after [did_acquire], with the new guard. *)
Definition acquired (t : nat) (l : L) (m : Mode) (w : gmap nat (L * Mode)) (s : Sys) : Sys :=
  {| held := set_held t (did_acquire (held s t) (level l)) (held s);
     guards := {| owner := t; lock := l; mode := m |} :: guards s; waiting := w |}.

Fixpoint remove_one (g : Guard) (gs : list Guard) : list Guard :=
  match gs with
  | [] => []
  | g' :: gs => if bool_decide (g' = g) then gs else g' :: remove_one g gs
  end.

(** [lock], [read], [write] with their fast and slow paths, [try_lock], and the
    drop of a guard.  A slow path may be entered whenever the lock is held, even
    by readers: the standard library may prefer a queued writer.  A thread whose
    check fails panics; its guards are dropped by the unwinding, which are
    release steps. *)
Inductive step : Sys → Sys → Prop :=
  | step_fast s t l m :
      waiting s !! t = None → check_before_acquire (held s t) (level l) = true →
      available s l m → step s (acquired t l m (waiting s) s)
  | step_slow s t l m :
      waiting s !! t = None → check_before_acquire (held s t) (level l) = true →
      ¬ free s l →
      step s {| held := held s; guards := guards s; waiting := <[t := (l, m)]> (waiting s) |}
  | step_granted s t l m :
      waiting s !! t = Some (l, m) → available s l m →
      step s (acquired t l m (delete t (waiting s)) s)
  | step_drop s g h :
      g ∈ guards s → waiting s !! owner g = None →
      did_release (held s (owner g)) (level (lock g)) = Some h →
      step s {| held := set_held (owner g) h (held s); guards := remove_one g (guards s);
                waiting := waiting s |}.

Definition reachable (s : Sys) : Prop := rtc step initial s.

(** ** The invariant *)

Definition ascending (h : list LockLevel) : Prop := StronglySorted (λ a b, rank a < rank b) h.

Definition levels_of (t : nat) (gs : list Guard) : list LockLevel :=
  (λ g, level (lock g)) <$> filter (λ g, owner g = t) gs.

Record inv (s : Sys) : Prop := {
  inv_held t : held s t ≡ₚ levels_of t (guards s);
  inv_ascending t : ascending (held s t);
  inv_waiting t l m : waiting s !! t = Some (l, m) → check_before_acquire (held s t) (level l) = true;
}.

Lemma ascending_snoc h l : ascending h → check_before_acquire h l = true → ascending (h ++ [l]).
Proof.
  unfold check_before_acquire. induction h as [|a h IH]; intros Hs Hc; simpl; [repeat constructor|].
  apply StronglySorted_inv in Hs as [Hs Hf]. destruct h as [|b h].
  - simpl in Hc. apply Z.ltb_lt in Hc. repeat constructor; done.
  - constructor; [by apply IH|]. apply Forall_app. split; [done|]. apply Forall_singleton.
    destruct (last (b :: h)) as [z|] eqn:E; [|by apply last_None in E].
    change (last (a :: b :: h)) with (last (b :: h)) in Hc. rewrite E in Hc. apply Z.ltb_lt in Hc.
    apply last_Some_elem_of in E. eapply Forall_forall in Hf; [|done]. simpl in Hf. lia.
Qed.

(** A passed check is above everything held, not only above the last lock. *)
Lemma check_above h l a :
  ascending h → check_before_acquire h l = true → a ∈ h → rank a < rank l.
Proof.
  intros Hs Hc Ha. pose proof (ascending_snoc h l Hs Hc) as Hs'. clear Hs Hc.
  unfold ascending in Hs'. induction h as [|b h IH]; [by apply elem_of_nil in Ha|].
  simpl in Hs'. apply StronglySorted_inv in Hs' as [Hs' Hf].
  apply elem_of_cons in Ha as [->|Ha]; [|by apply IH].
  apply Forall_app in Hf as [_ Hf]. apply Forall_inv in Hf. exact Hf.
Qed.

Lemma remove_last_spec l h h' :
  remove_last l h = Some h' → h ≡ₚ l :: h' ∧ h' `sublist_of` h.
Proof.
  revert h'. induction h as [|a h IH]; intros h'; simpl; [done|].
  destruct (remove_last l h) as [h''|] eqn:E.
  - intros [= <-]. destruct (IH _ eq_refl) as [Hp Hsub]. split.
    + rewrite Hp. apply perm_swap.
    + by apply sublist_skip.
  - case_bool_decide; [|done]. intros [= <-]. subst. split; [done|]. by apply sublist_cons.
Qed.

Lemma remove_last_some l h : l ∈ h → is_Some (remove_last l h).
Proof.
  induction h as [|a h IH]; intros Hl; [by apply elem_of_nil in Hl|]. simpl.
  destruct (remove_last l h) eqn:E; [eauto|].
  apply elem_of_cons in Hl as [->|Hl]; [by rewrite bool_decide_true|].
  destruct (IH Hl) as [? ?]. congruence.
Qed.

Lemma sublist_ascending h h' : h' `sublist_of` h → ascending h → ascending h'.
Proof.
  unfold ascending. induction 1 as [|a h' h Hsub IH|a h' h Hsub IH]; intros Hs; [constructor| |].
  - apply StronglySorted_inv in Hs as [Hs Hf]. constructor; [by apply IH|].
    apply Forall_forall. intros b Hb. rewrite Forall_forall in Hf. apply Hf.
    by eapply sublist_subseteq.
  - apply StronglySorted_inv in Hs as [Hs _]. by apply IH.
Qed.

Lemma remove_one_perm g gs : g ∈ gs → gs ≡ₚ g :: remove_one g gs.
Proof.
  induction gs as [|g' gs IH]; intros Hg; [by apply elem_of_nil in Hg|]. simpl.
  case_bool_decide as E; [by subst|]. apply elem_of_cons in Hg as [?|Hg]; [done|].
  rewrite (IH Hg) at 1. apply perm_swap.
Qed.

Lemma levels_of_perm t gs gs' : gs ≡ₚ gs' → levels_of t gs ≡ₚ levels_of t gs'.
Proof. intros Hp. unfold levels_of. by rewrite Hp. Qed.

Lemma levels_of_cons t g gs :
  levels_of t (g :: gs) =
  (if bool_decide (owner g = t) then [level (lock g)] else []) ++ levels_of t gs.
Proof. unfold levels_of. rewrite filter_cons. case_decide; case_bool_decide; done. Qed.

Lemma acquired_inv t l m w s :
  inv s → check_before_acquire (held s t) (level l) = true →
  (∀ t' l' m', w !! t' = Some (l', m') → t' ≠ t ∧ waiting s !! t' = Some (l', m')) →
  inv (acquired t l m w s).
Proof.
  intros [Hh Ha Hw] Hc Hw'. split; simpl; unfold set_held, did_acquire.
  - intros t'. rewrite levels_of_cons. simpl. rewrite (bool_decide_ext (t' = t) (t = t')) by done.
    case_bool_decide as E; [|by apply Hh]. subst t'. rewrite <-Hh. by rewrite Permutation_app_comm.
  - intros t'. case_bool_decide; [by apply ascending_snoc|done].
  - intros t' l' m' [Hne Hl]%Hw'. rewrite bool_decide_false by done. by eapply Hw.
Qed.

Lemma step_inv s s' : step s s' → inv s → inv s'.
Proof.
  destruct 1 as [s t l m Hnw Hc Hav|s t l m Hnw Hc Hb|s t l m Hw Hav|s g h Hg Hnw Hrel]; intros Hi.
  - apply acquired_inv; [done|done|]. intros t' l' m' Hl. split; [congruence|done].
  - destruct Hi as [Hh Ha Hw]. split; simpl; [done|done|].
    intros t' l' m'. rewrite lookup_insert. case_decide; [|apply Hw]. by intros [= <- <-]; subst.
  - apply acquired_inv; [done|by eapply (inv_waiting _ Hi)|].
    intros t' l' m' [Hne Hl]%lookup_delete_Some. done.
  - destruct Hi as [Hh Ha Hw]. apply remove_last_spec in Hrel as [Hp Hsub].
    split; simpl; unfold set_held.
    + intros t'. pose proof (Hh t') as Hht.
      rewrite (levels_of_perm t' _ _ (remove_one_perm g _ Hg)), levels_of_cons in Hht.
      rewrite (bool_decide_ext (owner g = t') (t' = owner g)) in Hht by done.
      case_bool_decide as E; [|done]. subst t'. rewrite Hp in Hht.
      by apply Permutation_cons_inv in Hht.
    + intros t'. case_bool_decide; [|done]. by eapply sublist_ascending.
    + intros t' l' m' Hl. rewrite bool_decide_false by congruence. by eapply Hw.
Qed.

Lemma reachable_inv s : reachable s → inv s.
Proof.
  intros Hr. assert (inv initial) as H0.
  { split; [done|constructor|]. intros t l m. simpl. by rewrite lookup_empty. }
  induction Hr as [|s1 s2 s3 Hs _ IH]; [done|]. by eapply IH, step_inv.
Qed.

Lemma guard_held s g : inv s → g ∈ guards s → level (lock g) ∈ held s (owner g).
Proof.
  intros Hi Hg. rewrite (inv_held _ Hi). unfold levels_of. apply list_elem_of_fmap.
  exists g. split; [done|]. by apply list_elem_of_filter.
Qed.

(** A waiter whose lock has the highest awaited rank. *)
Lemma highest_waiter (w : gmap nat (L * Mode)) :
  w ≠ ∅ → ∃ t lm, w !! t = Some lm ∧
    ∀ t' lm', w !! t' = Some lm' → rank (level lm'.1) ≤ rank (level lm.1).
Proof.
  induction w as [|t lm w Ht IH] using map_ind; [done|]. intros _.
  destruct (decide (w = ∅)) as [->|Hne].
  - exists t, lm. split; [by rewrite lookup_insert_eq|].
    intros t' lm'. rewrite lookup_insert, lookup_empty. case_decide; [|done]. by intros [= <-].
  - destruct (IH Hne) as (t1 & lm1 & Ht1 & Hmax).
    destruct (Z.le_gt_cases (rank (level lm.1)) (rank (level lm1.1))).
    + exists t1, lm1. split; [by rewrite lookup_insert_ne by congruence|].
      intros t' lm'. rewrite lookup_insert. case_decide; [by intros [= <-]|apply Hmax].
    + exists t, lm. split; [by rewrite lookup_insert_eq|].
      intros t' lm'. rewrite lookup_insert. case_decide; [by intros [= <-]|].
      intros Hl. apply Hmax in Hl. lia.
Qed.

(** C11: the hierarchy prevents deadlock.  In every reachable state in which
    threads are blocked, one of them waits for a lock that is free, or for a
    lock held by a thread that is not blocked itself. *)
Theorem deadlock_free s :
  reachable s → waiting s ≠ ∅ →
  ∃ t l m, waiting s !! t = Some (l, m) ∧
    (free s l ∨ ∃ g, g ∈ guards s ∧ lock g = l ∧ waiting s !! owner g = None).
Proof.
  intros Hr%reachable_inv Hne. destruct (highest_waiter (waiting s) Hne) as (t & [l m] & Ht & Hmax).
  exists t, l, m. split; [done|].
  destruct (decide (Exists (λ g, lock g = l) (guards s))) as [Hex|Hno].
  - right. apply Exists_exists in Hex as (g & Hg & Hl). exists g. split_and!; [done|done|].
    destruct (waiting s !! owner g) as [[l' m']|] eqn:Hw; [|done]. exfalso.
    pose proof (Hmax _ _ Hw) as Hle. simpl in Hle.
    pose proof (check_above _ _ _ (inv_ascending _ Hr (owner g)) (inv_waiting _ Hr _ _ _ Hw)
      (guard_held _ _ Hr Hg)) as Hlt. rewrite Hl in Hlt. lia.
  - left. intros g Hg Hl. apply Hno, Exists_exists. eauto.
Qed.

(** dropping a guard never finds the tracking corrupted: in every reachable
    state the level of each live guard is on its owner's stack, and the stacks
    are strictly ascending. *)
Theorem release_never_panics s g :
  reachable s → g ∈ guards s →
  is_Some (did_release (held s (owner g)) (level (lock g))) ∧ ascending (held s (owner g)).
Proof.
  intros Hr%reachable_inv Hg. split; [|apply (inv_ascending _ Hr)].
  by apply remove_last_some, guard_held.
Qed.
End system.

(** ** Contention statistics *)

Record LockStats := {
  acquire_count : Z;
  contended_count : Z;
  total_wait_ns : Z;
  total_hold_ns : Z;
  max_wait_ns : Z;
  max_hold_ns : Z;
}.

Definition stats_new : LockStats :=
  {| acquire_count := 0; contended_count := 0; total_wait_ns := 0; total_hold_ns := 0;
     max_wait_ns := 0; max_hold_ns := 0 |}.

(** [update_max] when no other thread interferes. *)
Definition update_max (target candidate : Z) : Z :=
  if target <? candidate then candidate else target.

(** [fetch_add] wraps around. *)
Definition record_acquire (contended : bool) (wait_ns : Z) (s : LockStats) : LockStats :=
  if contended then
    {| acquire_count := u64_wrap (acquire_count s + 1);
       contended_count := u64_wrap (contended_count s + 1);
       total_wait_ns := u64_wrap (total_wait_ns s + wait_ns); total_hold_ns := total_hold_ns s;
       max_wait_ns := update_max (max_wait_ns s) wait_ns; max_hold_ns := max_hold_ns s |}
  else
    {| acquire_count := u64_wrap (acquire_count s + 1); contended_count := contended_count s;
       total_wait_ns := total_wait_ns s; total_hold_ns := total_hold_ns s;
       max_wait_ns := max_wait_ns s; max_hold_ns := max_hold_ns s |}.

Definition record_hold (hold_ns : Z) (s : LockStats) : LockStats :=
  {| acquire_count := acquire_count s; contended_count := contended_count s;
     total_wait_ns := total_wait_ns s; total_hold_ns := u64_wrap (total_hold_ns s + hold_ns);
     max_wait_ns := max_wait_ns s; max_hold_ns := update_max (max_hold_ns s) hold_ns |}.

Definition stats_reset (s : LockStats) : LockStats := stats_new.

(** [as_nanos_u64]: saturating. *)
Definition as_nanos_u64 (nanos : Z) : Z := if nanos <=? u64_max then nanos else u64_max.

(** [GLOBAL_LOCK_STATS] is indexed by the ordinals. *)
Definition global_lock_stats : list LockStats := replicate COUNT stats_new.

(** What the non-blocking attempt of the fast path returned; a blocked one
    carries the nanoseconds of the wait. *)
Inductive TryOutcome := TryOk | TryWouldBlock (waited : Z) | TryPoisoned.

(** [OrderedMutex::lock], [OrderedRwLock::read] and [OrderedRwLock::write]: what
    they do to the held stack and to the statistics; [None] is the panic. *)
Definition ordered_lock (level : LockLevel) (o : TryOutcome) (held : list LockLevel)
    (stats : list LockStats) : option (list LockLevel * list LockStats) :=
  if check_before_acquire held level then
    let record := match o with
      | TryOk | TryPoisoned => record_acquire false 0
      | TryWouldBlock waited => record_acquire true (as_nanos_u64 waited)
      end in
    Some (did_acquire held level, alter record (ordinal level) stats)
  else None.

(** [OrderedMutex::try_lock]; the flag tells whether a guard is returned.  A
    poisoned lock counts as a failure here. *)
Definition ordered_try_lock (level : LockLevel) (o : TryOutcome) (held : list LockLevel)
    (stats : list LockStats) : option (bool * list LockLevel * list LockStats) :=
  if check_before_acquire held level then
    match o with
    | TryOk =>
        Some (true, did_acquire held level, alter (record_acquire false 0) (ordinal level) stats)
    | _ => Some (false, held, stats)
    end
  else None.

(** [drop] of the three guards. *)
Definition guard_drop (level : LockLevel) (elapsed : Z) (held : list LockLevel)
    (stats : list LockStats) : option (list LockLevel * list LockStats) :=
  (λ h, (h, alter (record_hold (as_nanos_u64 elapsed)) (ordinal level) stats)) <$>
    did_release held level.

(** [lock_contention_reset]. *)
Definition lock_contention_reset (stats : list LockStats) : list LockStats := stats_reset <$> stats.

Section snapshot.
(** The floating-point quotient is not interpreted. *)
Context {F : Type} (ratio : Z → Z → F).

Record LockContentionEntry := {
  entry_level : LockLevel;
  entry_rank : Z;
  entry_stats : LockStats;
  contention_ratio : F;
}.

Definition snapshot_entry (stats : list LockStats) (level : LockLevel) : option LockContentionEntry :=
  s ← stats !! ordinal level;
  if acquire_count s =? 0 then None
  else Some {| entry_level := level; entry_rank := rank level; entry_stats := s;
               contention_ratio := ratio (contended_count s) (acquire_count s) |}.

Definition lock_contention_snapshot (stats : list LockStats) : list LockContentionEntry :=
  omap (snapshot_entry stats) ALL.
End snapshot.

(** The calls of a history, in the order their counters were updated. *)
Inductive StatOp :=
  | OpLock (level : LockLevel) (o : TryOutcome)
  | OpDrop (level : LockLevel) (elapsed : Z).

Definition stat_op (op : StatOp) (st : list LockLevel * list LockStats) :
    option (list LockLevel * list LockStats) :=
  match op with
  | OpLock level o => ordered_lock level o st.1 st.2
  | OpDrop level elapsed => guard_drop level elapsed st.1 st.2
  end.

Fixpoint stat_run (ops : list StatOp) (st : list LockLevel * list LockStats) :
    option (list LockLevel * list LockStats) :=
  match ops with [] => Some st | op :: ops => st' ← stat_op op st; stat_run ops st' end.

(** What a history says about a level. *)
Definition acquires_of (level : LockLevel) (op : StatOp) : Z :=
  match op with OpLock l _ => if bool_decide (l = level) then 1 else 0 | OpDrop _ _ => 0 end.

Definition waits_of (level : LockLevel) (op : StatOp) : list Z :=
  match op with
  | OpLock l (TryWouldBlock w) => if bool_decide (l = level) then [as_nanos_u64 w] else []
  | _ => []
  end.

Definition holds_of (level : LockLevel) (op : StatOp) : list Z :=
  match op with
  | OpDrop l e => if bool_decide (l = level) then [as_nanos_u64 e] else []
  | OpLock _ _ => []
  end.

Definition sum_Z (l : list Z) : Z := foldr Z.add 0 l.

(** The statistics of a level after a history, as sums and maxima over it. *)
Definition expected (level : LockLevel) (ops : list StatOp) : LockStats :=
  let waits := ops ≫= waits_of level in
  let holds := ops ≫= holds_of level in
  {| acquire_count := u64_wrap (sum_Z (acquires_of level <$> ops));
     contended_count := u64_wrap (Z.of_nat (length waits));
     total_wait_ns := u64_wrap (sum_Z waits); total_hold_ns := u64_wrap (sum_Z holds);
     max_wait_ns := foldr Z.max 0 waits; max_hold_ns := foldr Z.max 0 holds |}.

Lemma update_max_max t c : update_max t c = Z.max t c.
Proof. unfold update_max. case_match eqn:E; [apply Z.ltb_lt in E|apply Z.ltb_ge in E]; lia. Qed.

Lemma foldr_max_snoc l x : foldr Z.max 0 (l ++ [x]) = Z.max (foldr Z.max 0 l) x.
Proof. induction l as [|y l IH]; simpl; [lia|]. rewrite IH. lia. Qed.

Lemma sum_Z_snoc l x : sum_Z (l ++ [x]) = sum_Z l + x.
Proof. unfold sum_Z. induction l as [|y l IH]; simpl; [lia|]. rewrite IH. lia. Qed.

Lemma u64_wrap_idemp a b : u64_wrap (u64_wrap a + b) = u64_wrap (a + b).
Proof. unfold u64_wrap. apply Zplus_mod_idemp_l. Qed.

Lemma omap_nil {A B} (f : A → option B) l : (∀ x, f x = None) → omap f l = [].
Proof. intros Hf. induction l as [|x l IH]; simpl; [done|]. by rewrite Hf. Qed.

Lemma omap_sorted {A B} (R : A → A → Prop) (S : B → B → Prop) (f : A → option B) l :
  StronglySorted R l → (∀ a b x y, R a b → f a = Some x → f b = Some y → S x y) →
  StronglySorted S (omap f l).
Proof.
  intros Hs Hf. induction Hs as [|a l Hs IH Ha]; simpl; [constructor|].
  destruct (f a) as [x|] eqn:E; [|done]. constructor; [done|].
  apply Forall_forall. intros y (b & Hb & Hy)%list_elem_of_omap.
  rewrite Forall_forall in Ha. eauto.
Qed.

(** One more call, for the level it is about and for the others. *)
Lemma expected_lock level o ops :
  expected level (ops ++ [OpLock level o]) =
  match o with
  | TryOk | TryPoisoned => record_acquire false 0
  | TryWouldBlock waited => record_acquire true (as_nanos_u64 waited)
  end (expected level ops).
Proof.
  unfold expected, record_acquire. rewrite !bind_app, fmap_app. simpl. rewrite bool_decide_true by done.
  destruct o; simpl; rewrite ?bool_decide_true by done; simpl;
    rewrite ?app_nil_r, ?sum_Z_snoc, ?foldr_max_snoc, ?update_max_max, ?u64_wrap_idemp, ?length_app;
    repeat f_equal; simpl; lia.
Qed.

Lemma expected_drop level e ops :
  expected level (ops ++ [OpDrop level e]) = record_hold (as_nanos_u64 e) (expected level ops).
Proof.
  unfold expected, record_hold. rewrite !bind_app, fmap_app. simpl. rewrite bool_decide_true by done.
  simpl. rewrite ?app_nil_r, ?sum_Z_snoc, ?foldr_max_snoc, ?update_max_max, ?u64_wrap_idemp.
  f_equal. f_equal. lia.
Qed.

Definition op_level (op : StatOp) : LockLevel := match op with OpLock l _ | OpDrop l _ => l end.

Lemma expected_other level op ops :
  op_level op ≠ level → expected level (ops ++ [op]) = expected level ops.
Proof.
  intros Hne. unfold expected. rewrite !bind_app, fmap_app.
  destruct op as [l [| |]|l e]; simpl in *; rewrite ?bool_decide_false by done; simpl;
    rewrite ?app_nil_r, ?sum_Z_snoc; repeat f_equal; lia.
Qed.

Lemma ordinal_inj a b : ordinal a = ordinal b → a = b.
Proof. by destruct a, b. Qed.

Lemma stat_op_alter op st st' :
  stat_op op st = Some st' →
  ∃ f, st'.2 = alter f (ordinal (op_level op)) st.2 ∧
    ∀ ops, f (expected (op_level op) ops) = expected (op_level op) (ops ++ [op]).
Proof.
  destruct st as [h s], op as [l o|l e]; simpl; unfold ordered_lock, guard_drop.
  - case_match; [|done]. intros [= <-]. simpl. eexists. split; [done|].
    intros ops. rewrite expected_lock. by destruct o.
  - destruct (did_release h l); [|done]. intros [= <-]. simpl. eexists. split; [done|].
    intros ops. by rewrite expected_drop.
Qed.

Lemma stat_run_expected ops : ∀ pre st st',
  stat_run ops st = Some st' →
  (∀ level, st.2 !! ordinal level = Some (expected level pre)) →
  ∀ level, st'.2 !! ordinal level = Some (expected level (pre ++ ops)).
Proof.
  induction ops as [|op ops IH]; intros pre st st' Hrun Hpre level; simpl in Hrun.
  { injection Hrun as <-. rewrite app_nil_r. apply Hpre. }
  destruct (stat_op op st) as [st1|] eqn:Hop; [|done]. simpl in Hrun.
  change (op :: ops) with ([op] ++ ops). rewrite (assoc_L (++)). apply (IH (pre ++ [op]) st1); [done|].
  apply stat_op_alter in Hop as (f & -> & Hf). intros l.
  destruct (decide (op_level op = l)) as [<-|Hne].
  - by rewrite list_lookup_alter_eq, Hpre, <-Hf.
  - rewrite list_lookup_alter_ne by (by intros ?%ordinal_inj). by rewrite expected_other, Hpre.
Qed.

(** the contention snapshot is exact.  After any history of acquisitions and
    drops that did not panic, it has one entry for each level whose count of
    acquisitions is not zero (modulo the width of the counters), in ascending
    order of rank, and its numbers are the counts, sums and maxima of the
    history's waits and holds; after a reset it is empty. *)
Theorem lock_contention_snapshot_spec {F} (ratio : Z → Z → F) ops held stats :
  stat_run ops ([], global_lock_stats) = Some (held, stats) →
  (∀ e, e ∈ lock_contention_snapshot ratio stats ↔
     ∃ level, acquire_count (expected level ops) ≠ 0 ∧
       e = {| entry_level := level; entry_rank := rank level; entry_stats := expected level ops;
              contention_ratio := ratio (contended_count (expected level ops))
                                        (acquire_count (expected level ops)) |}) ∧
  StronglySorted (λ a b, entry_rank a < entry_rank b) (lock_contention_snapshot ratio stats) ∧
  lock_contention_snapshot ratio (lock_contention_reset stats) = [].
Proof.
  intros Hrun. assert (∀ level, stats !! ordinal level = Some (expected level ops)) as Hst.
  { apply (stat_run_expected ops [] _ _ Hrun). by intros []. }
  assert (∀ l, snapshot_entry ratio stats l = if acquire_count (expected l ops) =? 0 then None else
    Some {| entry_level := l; entry_rank := rank l; entry_stats := expected l ops;
            contention_ratio := ratio (contended_count (expected l ops))
                                      (acquire_count (expected l ops)) |}) as Hentry.
  { intros l. unfold snapshot_entry. by rewrite Hst. }
  split_and!.
  - intros e. unfold lock_contention_snapshot. rewrite list_elem_of_omap. split.
    + intros (l & _ & He). rewrite Hentry in He. case_match eqn:E; [done|]. injection He as <-.
      apply Z.eqb_neq in E. eauto.
    + intros (l & Hne & ->). exists l. split; [destruct l; set_solver|].
      rewrite Hentry. by rewrite (proj2 (Z.eqb_neq _ _) Hne).
  - apply omap_sorted with (R := λ a b, rank a < rank b).
    + unfold ALL. repeat constructor; done.
    + intros a b ea eb Hab. rewrite !Hentry. do 2 (case_match; [done|]). by intros [= <-] [= <-].
  - unfold lock_contention_snapshot. apply omap_nil. intros l. unfold snapshot_entry, lock_contention_reset.
    by rewrite list_lookup_fmap, Hst.
Qed.

(** *** The compare-and-swap loop *)

(** The calls of [update_max] on one target, each with the value it last saw;
    [done] holds the candidates of the calls that returned. *)
Record MaxSys := { target : Z; calls : list (Z * Z); finished : list Z }.

Inductive max_step : MaxSys → MaxSys → Prop :=
  (** a call begins by loading the target *)
  | max_load s candidate :
      max_step s {| target := target s; calls := (candidate, target s) :: calls s; finished := finished s |}
  (** its candidate is no larger than the value it saw: it returns *)
  | max_skip s candidate current calls' :
      calls s ≡ₚ (candidate, current) :: calls' → candidate ≤ current →
      max_step s {| target := target s; calls := calls'; finished := candidate :: finished s |}
  (** the exchange succeeds *)
  | max_swap s candidate current calls' :
      calls s ≡ₚ (candidate, current) :: calls' → current < candidate → target s = current →
      max_step s {| target := candidate; calls := calls'; finished := candidate :: finished s |}
  (** the exchange fails, possibly spuriously, and reports the target *)
  | max_retry s candidate current calls' :
      calls s ≡ₚ (candidate, current) :: calls' → current < candidate →
      max_step s {| target := target s; calls := (candidate, target s) :: calls'; finished := finished s |}.

Definition max_inv (t0 : Z) (s : MaxSys) : Prop :=
  target s = foldr Z.max t0 (finished s) ∧ Forall (λ c, c.2 ≤ target s) (calls s).

Lemma foldr_max_le t0 l : t0 ≤ foldr Z.max t0 l.
Proof. induction l; simpl; lia. Qed.

Lemma max_step_inv t0 s s' : max_step s s' → max_inv t0 s → max_inv t0 s'.
Proof.
  unfold max_inv. destruct 1 as [s c|s c v cs Hp Hle|s c v cs Hp Hlt Ht|s c v cs Hp Hlt];
    intros [Htgt Hall]; simpl; try rewrite Hp in Hall;
    try (apply Forall_cons in Hall as [Hv Hall]; simpl in Hv).
  - split; [done|]. by constructor.
  - split; [|done]. rewrite <-Htgt. lia.
  - split; [lia|]. eapply Forall_impl; [exact Hall|]. simpl. intros; lia.
  - split; [done|]. constructor; [done|]. done.
Qed.

(** the lock-free maximum is exact: however the calls interleave and
    however often their exchanges fail, the target is always the maximum of its
    initial value and the candidates of the calls that returned. *)
Theorem update_max_linearizable t0 s :
  rtc max_step {| target := t0; calls := []; finished := [] |} s →
  target s = foldr Z.max t0 (finished s).
Proof.
  intros Hr. assert (max_inv t0 {| target := t0; calls := []; finished := [] |}) as H0.
  { split; [done|constructor]. }
  enough (max_inv t0 s) as [? _]; [done|].
  induction Hr as [|s1 s2 s3 Hs _ IH]; [done|]. by eapply IH, max_step_inv.
Qed.

(** ** Instances *)

(** Two locks of different levels, two threads: thread 1 holds the lower and
    waits for the higher, which thread 2 holds. *)
Definition two_locks (b : bool) : LockLevel := if b then StorageRepoCache else DbPoolCache.

Definition contended : Sys (L := bool) :=
  let s1 := acquired two_locks 2 true Exclusive (waiting (L := bool) initial) initial in
  let s2 := acquired two_locks 1 false Exclusive (waiting s1) s1 in
  {| held := held s2; guards := guards s2; waiting := <[1%nat := (true, Exclusive)]> (waiting s2) |}.

Lemma contended_reachable : reachable two_locks contended.
Proof.
  unfold reachable, contended. cbv zeta. eapply rtc_l; [|eapply rtc_l; [|eapply rtc_l; [|apply rtc_refl]]].
  - apply (step_fast two_locks initial 2 true Exclusive); [done|done|].
    by intros g ?%elem_of_nil.
  - apply (step_fast two_locks _ 1 false Exclusive); [done|done|].
    intros g [->|?%elem_of_nil]%elem_of_cons; done.
  - apply (step_slow two_locks _ 1 true Exclusive); [done|done|].
    intros Hf. eapply (Hf {| owner := 2; lock := true; mode := Exclusive |}); [|done].
    right. left.
Qed.

Lemma deadlock_free_witness :
  ∃ t l m, waiting contended !! t = Some (l, m) ∧
    (free contended l ∨ ∃ g, g ∈ guards contended ∧ lock g = l ∧ waiting contended !! owner g = None).
Proof. apply (deadlock_free two_locks contended contended_reachable). done. Defined.

Lemma release_never_panics_witness : is_Some (did_release (held contended 2) StorageRepoCache).
Proof.
  apply (release_never_panics two_locks contended {| owner := 2; lock := true; mode := Exclusive |}
    contended_reachable). right. left.
Defined.

Lemma update_max_linearizable_witness : foldr Z.max 3 [7] = 7.
Proof.
  symmetry.
  apply (update_max_linearizable 3 {| target := 7; calls := []; finished := [7] |}).
  eapply rtc_l; [apply (max_load _ 7)|]. simpl.
  eapply rtc_l; [eapply (max_swap _ 7 3 []); simpl; done|]. apply rtc_refl.
Defined.
Definition sample_history : list StatOp :=
  [OpLock DbPoolCache TryOk; OpLock StorageRepoCache (TryWouldBlock 5);
   OpDrop StorageRepoCache 7; OpDrop DbPoolCache 9].

Lemma lock_contention_snapshot_spec_witness :
  ∃ stats, stat_run sample_history ([], global_lock_stats) = Some ([], stats) ∧
    acquire_count (expected StorageRepoCache sample_history) = 1 ∧
    StronglySorted (λ a b, entry_rank a < entry_rank b) (lock_contention_snapshot pair stats).
Proof.
  eexists. split; [reflexivity|]. split; [reflexivity|].
  apply (lock_contention_snapshot_spec pair sample_history []). reflexivity.
Defined.
End LockOrder.
