(* ===== verification/DbErrors.v ===== *)
(** * Database errors ([mcp-agent-mail-db/src/error.rs])

    The error type of the database layer and the classification of its messages
    that the retry loop, the recovery code and the tool layer decide by. *)

From stdpp Require Import base tactics list strings.
From S2P Require Import Prelude.
Open Scope Z_scope.

Module DbErrors.

(** The text of an open breaker's error, before formatting; times are in
    microseconds where the source divides to seconds. *)
Inductive BreakerMessage :=
  | ProbeRateLimited (subsystem : str) (remaining_us : Z)
  | OpenAfter (subsystem : str) (failures remaining_us : Z).

Inductive DbError :=
  | Sqlite (msg : str)
  | Pool (msg : str)
  | PoolExhausted (message : str) (pool_size max_overflow : Z)
  | ResourceBusy (msg : str)
  | CircuitBreakerOpen (message : BreakerMessage) (failures reset_after_us : Z)
  | NotFound (entity identifier : str)
  | Duplicate (entity identifier : str)
  | InvalidArgument (field message : str)
  | SchemaError (msg : str)
  | Serialization (msg : str)
  | IntegrityCorruption (message : str) (details : list str)
  | Internal (msg : str).

(** [DbResult]. *)
Inductive DbResult (T : Type) :=
  | Ok (v : T)
  | Err (e : DbError).
#[global] Arguments Ok {T} v.
#[global] Arguments Err {T} e.

(** [str::to_lowercase] as far as ASCII text can be found in its result: apart
    from the ASCII capitals only the Kelvin sign and the dotted capital I have
    a lowercase form with an ASCII letter. *)
Definition lower_char (c : N) : str :=
  if (c =? 8490)%N then [107%N] else if (c =? 304)%N then [105%N; 775%N] else [ascii_lower c].

Definition to_lowercase (s : str) : str := s ≫= lower_char.

(** [str::contains]. *)
Fixpoint contains (needle s : str) : bool :=
  starts_with needle s || match s with [] => false | _ :: s' => contains needle s' end.

Definition contains_any (needles : list string) (s : str) : bool :=
  existsb (λ n, contains (lit n) s) needles.

Definition is_mvcc_conflict (msg : str) : bool :=
  contains_any ["write conflict on page"; "snapshot conflict on pages"; "serialization failure";
    "busy_snapshot"; "snapshot too old"]%string (to_lowercase msg).

Definition is_lock_error (msg : str) : bool :=
  contains_any ["database is locked"; "database table is locked"; "database schema is locked";
    "database is busy"; "locked by another process"; "unable to open database";
    "disk i/o error"]%string (to_lowercase msg) || is_mvcc_conflict msg.

Definition is_corruption_error (msg : str) : bool :=
  contains_any ["database disk image is malformed"; "malformed database schema";
    "database schema is corrupt"; "file is not a database"; "database file too small for header";
    "invalid database header"; "invalid database header magic"; "invalid page size";
    "malformed page"; "page checksum mismatch"; "header checksum mismatch"]%string
    (to_lowercase msg).

Definition is_pool_exhausted_error (msg : str) : bool :=
  let lower := to_lowercase msg in
  contains (lit "pool") lower && (contains (lit "timeout") lower || contains (lit "exhausted") lower)
  || contains (lit "queuepool") lower.

Definition is_retryable (e : DbError) : bool :=
  match e with
  | Sqlite msg | Pool msg => is_lock_error msg
  | ResourceBusy _ | PoolExhausted _ _ _ => true
  | _ => false
  end.

Definition is_corruption (e : DbError) : bool :=
  match e with
  | Sqlite msg | Pool msg | SchemaError msg => is_corruption_error msg
  | IntegrityCorruption _ _ => true
  | _ => false
  end.

Inductive Code :=
  | DATABASE_POOL_EXHAUSTED | RESOURCE_BUSY | NOT_FOUND | DUPLICATE | INVALID_ARGUMENT
  | INTEGRITY_CORRUPTION | INTERNAL_ERROR.

#[export] Instance Code_eq_dec : EqDecision Code.
Proof. solve_decision. Defined.

Definition error_code (e : DbError) : Code :=
  match e with
  | PoolExhausted _ _ _ => DATABASE_POOL_EXHAUSTED
  | ResourceBusy _ | CircuitBreakerOpen _ _ _ => RESOURCE_BUSY
  | NotFound _ _ => NOT_FOUND
  | Duplicate _ _ => DUPLICATE
  | InvalidArgument _ _ => INVALID_ARGUMENT
  | IntegrityCorruption _ _ => INTEGRITY_CORRUPTION
  | _ => INTERNAL_ERROR
  end.

Definition is_recoverable (e : DbError) : bool :=
  match e with
  | PoolExhausted _ _ _ | ResourceBusy _ | CircuitBreakerOpen _ _ _ | Pool _ => true
  | _ => false
  end.

Lemma contains_spec needle s :
  contains needle s = true ↔ ∃ a b, s = a ++ needle ++ b.
Proof.
  induction s as [|c s IH]; simpl; rewrite orb_true_iff; unfold starts_with;
    rewrite bool_decide_eq_true.
  - split.
    + intros [[b Hb]|]; [|done]. by exists [], b.
    + intros (a & b & Hab). symmetry in Hab. apply app_nil in Hab as [-> Hab].
      left. by exists b.
  - rewrite IH. split.
    + intros [[b Hb]|(a & b & ->)]; [by exists [], b|by exists (c :: a), b].
    + intros ([|a0 a] & b & Hab); [left; by exists b|]. injection Hab as _ ->. right. eauto.
Qed.
Lemma contains_any_embed needles a s b :
  contains_any needles s = true → contains_any needles (a ++ s ++ b) = true.
Proof.
  unfold contains_any. rewrite !existsb_exists. intros (n & Hn & Hc). exists n. split; [done|].
  apply contains_spec in Hc as (a' & b' & ->). apply contains_spec. exists (a ++ a'), (b' ++ b).
  by rewrite !(assoc_L (++)).
Qed.

Lemma to_lowercase_app a b : to_lowercase (a ++ b) = to_lowercase a ++ to_lowercase b.
Proof. apply bind_app. Qed.

Lemma is_mvcc_conflict_embed a msg b :
  is_mvcc_conflict msg = true → is_mvcc_conflict (a ++ msg ++ b) = true.
Proof. unfold is_mvcc_conflict. rewrite !to_lowercase_app. apply contains_any_embed. Qed.

(** Embedding a message, as the drivers and [anyhow] contexts do. *)
Lemma is_lock_error_embed a msg b : is_lock_error msg = true → is_lock_error (a ++ msg ++ b) = true.
Proof.
  unfold is_lock_error. rewrite !orb_true_iff. intros [H|H]; [left|right; by apply is_mvcc_conflict_embed].
  rewrite !to_lowercase_app. by apply contains_any_embed.
Qed.

Lemma is_corruption_error_embed a msg b :
  is_corruption_error msg = true → is_corruption_error (a ++ msg ++ b) = true.
Proof. unfold is_corruption_error. rewrite !to_lowercase_app. apply contains_any_embed. Qed.

Lemma lower_char_ascii_lower c : lower_char (ascii_lower c) = lower_char c.
Proof.
  unfold ascii_lower at 1. destruct ((65 <=? c) && (c <=? 90))%N eqn:E; [|done].
  unfold lower_char, ascii_lower. rewrite E. apply andb_true_iff in E as [E1%N.leb_le E2%N.leb_le].
  rewrite !(proj2 (N.eqb_neq _ _)) by lia. by rewrite (proj2 (N.leb_gt (c + 32) 90)), andb_false_r by lia.
Qed.

Lemma to_lowercase_ignores_case s t : eq_ignore_ascii_case s t = true → to_lowercase s = to_lowercase t.
Proof.
  unfold eq_ignore_ascii_case. rewrite bool_decide_eq_true. intros Hst.
  assert (∀ u, to_lowercase u = to_lowercase (to_ascii_lowercase u)) as Hu.
  { intros u. induction u as [|c u IH]; [done|].
    change (lower_char c ++ to_lowercase u =
            lower_char (ascii_lower c) ++ to_lowercase (to_ascii_lowercase u)).
    by rewrite lower_char_ascii_lower, IH. }
  by rewrite (Hu s), (Hu t), Hst.
Qed.

(** The classification of errors: a lock, conflict or corruption message is
    recognised whatever its letter case and whatever text surrounds it; a
    write conflict counts as a lock error; a retryable error other than a raw
    driver error is also reported recoverable to the client; and the error of
    an open breaker is never retried. *)
Theorem error_classification :
  (∀ a msg msg' b, eq_ignore_ascii_case msg msg' = true →
     (is_lock_error msg = true → is_lock_error (a ++ msg' ++ b) = true) ∧
     (is_corruption_error msg = true → is_corruption_error (a ++ msg' ++ b) = true)) ∧
  (∀ msg, is_mvcc_conflict msg = true → is_lock_error msg = true) ∧
  (∀ e, is_retryable e = true → is_recoverable e = true ∨ ∃ msg, e = Sqlite msg) ∧
  (∀ m f r, is_retryable (CircuitBreakerOpen m f r) = false).
Proof.
  split_and!; [| | |done].
  - intros a msg msg' b Heq%to_lowercase_ignores_case.
    split; intros H; [apply is_lock_error_embed|apply is_corruption_error_embed]; revert H;
      unfold is_lock_error, is_mvcc_conflict, is_corruption_error; by rewrite Heq.
  - intros msg H. unfold is_lock_error. by rewrite H, orb_true_r.
  - intros []; simpl; eauto; done.
Qed.
End DbErrors.
