(* ===== verification/CircuitBreaker.v ===== *)
(** * Circuit breakers and retries ([mcp-agent-mail-db/src/retry.rs])

    A breaker is four atomic counters.  One thread's calls are modelled in a
    small state monad over the breaker, the monotonic clock it reads and the
    transitions it logs; every reading of the clock is a separate one.  The
    compare-and-swap loop that admits half-open probes is modelled a second
    time as a transition system of any number of threads.  Integers wrap as in
    a release build. *)

From stdpp Require Import base tactics list strings relations sorting.
From S2P Require Import Prelude DbErrors.
Import DbErrors.
Open Scope Z_scope.

Module CircuitBreaker.

Inductive Subsystem := Db | Git | Signal | Llm.

Definition ALL : list Subsystem := [Db; Git; Signal; Llm].

Definition subsystem_name (s : Subsystem) : str :=
  match s with
  | Db => lit "db" | Git => lit "git" | Signal => lit "signal" | Llm => lit "llm"
  end.

Inductive CircuitState := Closed | Open | HalfOpen.

#[export] Instance CircuitState_eq_dec : EqDecision CircuitState.
Proof. solve_decision. Defined.

(** Durations are in nanoseconds. *)
Definition from_secs (s : Z) : Z := s * 1000000000.
Definition from_millis (ms : Z) : Z := ms * 1000000.

Definition micros_from_duration (d : Z) : Z :=
  let us := d `div` 1000 in if u64_max <? us then u64_max else us.

Definition HALF_OPEN_PROBE_INTERVAL : Z := from_secs 5.
Definition HALF_OPEN_SUCCESS_THRESHOLD : Z := 3.

Record CircuitBreaker := {
  failures : Z;
  half_open_successes : Z;
  open_until_us : Z;
  last_probe_us : Z;
  threshold : Z;
  reset_duration : Z;
  subsystem : str;
}.

Definition with_subsystem (subsystem : str) (threshold reset_duration : Z) : CircuitBreaker :=
  {| failures := 0; half_open_successes := 0; open_until_us := 0; last_probe_us := 0;
     threshold := Z.max threshold 1; reset_duration := reset_duration; subsystem := subsystem |}.

Definition with_params (threshold reset_duration : Z) : CircuitBreaker :=
  with_subsystem (lit "db") threshold reset_duration.

Definition new : CircuitBreaker := with_subsystem (lit "db") 5 (from_secs 30).

(** The stores to the atomics. *)
Definition set_failures (z : Z) (b : CircuitBreaker) : CircuitBreaker :=
  {| failures := z; half_open_successes := half_open_successes b; open_until_us := open_until_us b;
     last_probe_us := last_probe_us b; threshold := threshold b;
     reset_duration := reset_duration b; subsystem := subsystem b |}.

Definition set_successes (z : Z) (b : CircuitBreaker) : CircuitBreaker :=
  {| failures := failures b; half_open_successes := z; open_until_us := open_until_us b;
     last_probe_us := last_probe_us b; threshold := threshold b;
     reset_duration := reset_duration b; subsystem := subsystem b |}.

Definition set_open_until (z : Z) (b : CircuitBreaker) : CircuitBreaker :=
  {| failures := failures b; half_open_successes := half_open_successes b; open_until_us := z;
     last_probe_us := last_probe_us b; threshold := threshold b;
     reset_duration := reset_duration b; subsystem := subsystem b |}.

Definition set_last_probe (z : Z) (b : CircuitBreaker) : CircuitBreaker :=
  {| failures := failures b; half_open_successes := half_open_successes b;
     open_until_us := open_until_us b; last_probe_us := z; threshold := threshold b;
     reset_duration := reset_duration b; subsystem := subsystem b |}.

(** [reset], which is also the closing of the circuit. *)
Definition reset (b : CircuitBreaker) : CircuitBreaker :=
  set_last_probe 0 (set_successes 0 (set_open_until 0 (set_failures 0 b))).

(** ** The monad *)

(** [readings]: how often the clock was read; [transitions]: the log. *)
Record World := {
  breaker : CircuitBreaker;
  readings : nat;
  transitions : list (CircuitState * CircuitState);
}.

(** A computation over a state. *)
Definition ST (S A : Type) : Type := S → A * S.
Definition M (A : Type) : Type := ST World A.

Definition mret_ {S A} (a : A) : ST S A := λ w, (a, w).
Definition mbind_ {S A B} (m : ST S A) (f : A → ST S B) : ST S B :=
  λ w, let '(a, w') := m w in f a w'.

Declare Scope breaker_scope.
Delimit Scope breaker_scope with breaker.
Notation "x ← m ; k" := (mbind_ m (λ x, k)) (at level 20, m at level 100, k at level 200) : breaker_scope.
Notation "m ;; k" := (mbind_ m (λ _, k)) (at level 100, k at level 200, right associativity) : breaker_scope.

Definition load {A} (f : CircuitBreaker → A) : M A := λ w, (f (breaker w), w).
Definition store (f : CircuitBreaker → CircuitBreaker) : M () := λ w,
  (tt, {| breaker := f (breaker w); readings := readings w; transitions := transitions w |}).

Definition log_transition (from to : CircuitState) : M () := λ w,
  (tt, {| breaker := breaker w; readings := readings w; transitions := transitions w ++ [(from, to)] |}).

Section clock.
(** The readings of the monotonic clock, in microseconds since the breaker's
    epoch. *)
Context (clock : nat → Z).

Definition now_us : M Z := λ w,
  (clock (readings w),
   {| breaker := breaker w; readings := S (readings w); transitions := transitions w |}).

Local Open Scope breaker_scope.

Definition state : M CircuitState :=
  open_until ← load open_until_us;
  now ← now_us;
  if (0 <? open_until) && (now <? open_until) then mret_ Open
  else
    f ← load failures;
    t ← load threshold;
    mret_ (if t <=? f then HalfOpen else Closed).

(** In microseconds; the source divides by a million. *)
Definition remaining_open : M Z :=
  open_until ← load open_until_us;
  if open_until =? 0 then mret_ 0
  else
    now ← now_us;
    mret_ (if open_until <=? now then 0 else open_until - now).

(** One pass of the loop in [check]: is a probe refused after [last]? *)
Definition rate_limited (last now : Z) : bool :=
  (0 <? last) && (u64_saturating_sub now last <? micros_from_duration HALF_OPEN_PROBE_INTERVAL).

Definition check : M (DbResult ()) :=
  s ← state;
  match s with
  | Closed => mret_ (Ok tt)
  | HalfOpen =>
      now ← now_us;
      last ← load last_probe_us;
      if rate_limited last now then
        let remaining := micros_from_duration HALF_OPEN_PROBE_INTERVAL - u64_saturating_sub now last in
        name ← load subsystem;
        f ← load failures;
        mret_ (Err (CircuitBreakerOpen (ProbeRateLimited name remaining) f remaining))
      else
        store (set_last_probe now);;
        mret_ (Ok tt)
  | Open =>
      name ← load subsystem;
      f ← load failures;
      r ← remaining_open;
      f' ← load failures;
      r' ← remaining_open;
      mret_ (Err (CircuitBreakerOpen (OpenAfter name f r) f' r'))
  end.

Definition record_success : M () :=
  prev_state ← state;
  match prev_state with
  | HalfOpen =>
      prev ← load half_open_successes;
      store (set_successes (u32_wrap (prev + 1)));;
      if HALF_OPEN_SUCCESS_THRESHOLD <=? u32_wrap (prev + 1) then
        store reset;;
        log_transition prev_state Closed
      else mret_ tt
  | Closed => store (set_failures 0)
  | Open => store reset
  end.

Definition record_failure : M () :=
  prev_state ← state;
  store (set_successes 0);;
  prev ← load failures;
  store (set_failures (u32_wrap (prev + 1)));;
  t ← load threshold;
  if t <=? u32_wrap (prev + 1) then
    open_until ← load open_until_us;
    was_already_open ←
      (if 0 <? open_until then now ← now_us; mret_ (now <? open_until) else mret_ false);
    d ← load reset_duration;
    now ← now_us;
    store (set_open_until (u64_wrap (now + micros_from_duration d)));;
    if negb was_already_open && negb (bool_decide (prev_state = Open))
    then log_transition prev_state Open else mret_ tt
  else mret_ tt.

End clock.

(** ** The process-wide breakers *)

Definition digit (c : N) : option Z :=
  if ((48 <=? c) && (c <=? 57))%N then Some (Z.of_N c - 48) else None.

(** [parse] of an unsigned integer: an optional plus sign and digits, within
    [max]. *)
Definition parse_unsigned (max : Z) (s : str) : option Z :=
  let ds := match s with 43%N :: ((_ :: _) as r) => r | _ => s end in
  match ds with
  | [] => None
  | _ =>
      v ← foldl (λ acc c, a ← acc; n ← digit c; Some (a * 10 + n))%stdpp (Some 0) ds;
      if v <=? max then Some v else None
  end%stdpp.

Definition env_u32 (env : str → option str) (name : str) (dflt : Z) : Z :=
  match env name with Some v => default dflt (parse_unsigned u32_max v) | None => dflt end.

Definition env_u64 (env : str → option str) (name : str) (dflt : Z) : Z :=
  match env name with Some v => default dflt (parse_unsigned u64_max v) | None => dflt end.

Definition Circuits : Type := Subsystem → World.

Definition fresh (b : CircuitBreaker) : World := {| breaker := b; readings := 0; transitions := [] |}.

(** The breakers when first used; every one has an epoch, so a clock, of its
    own. *)
Definition CIRCUIT_DB (env : str → option str) : CircuitBreaker :=
  with_subsystem (lit "db") (env_u32 env (lit "CIRCUIT_DB_THRESHOLD") 5)
    (from_secs (env_u64 env (lit "CIRCUIT_DB_RESET_SECS") 30)).
Definition CIRCUIT_GIT (env : str → option str) : CircuitBreaker :=
  with_subsystem (lit "git") (env_u32 env (lit "CIRCUIT_GIT_THRESHOLD") 8)
    (from_secs (env_u64 env (lit "CIRCUIT_GIT_RESET_SECS") 45)).
Definition CIRCUIT_SIGNAL (env : str → option str) : CircuitBreaker :=
  with_subsystem (lit "signal") (env_u32 env (lit "CIRCUIT_SIGNAL_THRESHOLD") 5)
    (from_secs (env_u64 env (lit "CIRCUIT_SIGNAL_RESET_SECS") 30)).
Definition CIRCUIT_LLM (env : str → option str) : CircuitBreaker :=
  with_subsystem (lit "llm") (env_u32 env (lit "CIRCUIT_LLM_THRESHOLD") 3)
    (from_secs (env_u64 env (lit "CIRCUIT_LLM_RESET_SECS") 60)).

Definition circuit_for (env : str → option str) (s : Subsystem) : CircuitBreaker :=
  match s with
  | Db => CIRCUIT_DB env | Git => CIRCUIT_GIT env
  | Signal => CIRCUIT_SIGNAL env | Llm => CIRCUIT_LLM env
  end.

Definition initial_circuits (env : str → option str) : Circuits := λ s, fresh (circuit_for env s).

#[export] Instance Subsystem_eq_dec : EqDecision Subsystem.
Proof. solve_decision. Defined.

(** A call on one of the breakers. *)
Definition on {A} (s : Subsystem) (m : M A) : ST Circuits A := λ c,
  let '(a, w) := m (c s) in (a, λ s', if bool_decide (s' = s) then w else c s').

(** ** The retry loop *)

Record RetryConfig := {
  max_retries : Z;
  base_delay : Z;
  max_delay : Z;
  use_circuit_breaker : bool;
  config_subsystem : Subsystem;
}.

Definition default_config : RetryConfig :=
  {| max_retries := 7; base_delay := from_millis 50; max_delay := from_secs 8;
     use_circuit_breaker := true; config_subsystem := Db |}.

(** What a call of [retry_sync] did, for the statements below. *)
Inductive Event (T : Type) :=
  | Rejected (e : DbError)
  | Attempt (n : Z) (r : DbResult T)
  | Succeeded
  | Failed.
#[global] Arguments Rejected {T} e.
#[global] Arguments Attempt {T} n r.
#[global] Arguments Succeeded {T}.
#[global] Arguments Failed {T}.

Section retry.
Local Open Scope breaker_scope.

(** The clock of each breaker; the operation and the backoff sleep of each attempt; other threads may use
    the breakers meanwhile, so both may change them in any way. *)
Context {T : Type} (clocks : Subsystem → nat → Z) (config : RetryConfig)
  (op : Z → ST Circuits (DbResult T))
  (sleep : Z → ST Circuits ()).

Definition sub : Subsystem := config_subsystem config.

(** [cb.check()?] and [cb.state()] before an attempt. *)
Definition before_attempt : ST Circuits (DbResult (option CircuitState)) :=
  if use_circuit_breaker config then
    r ← on sub (check (clocks sub));
    match r with
    | Ok _ => s ← on sub (state (clocks sub)); mret_ (Ok (Some s))
    | Err e => mret_ (Err e)
    end
  else mret_ (Ok None).

(** The body for the attempts left; the trace records what happened. *)
Fixpoint retry_loop (fuel : nat) (attempt : Z) (last_err : option DbError) :
    ST Circuits (DbResult T * list (Event T)) :=
  match fuel with
  | O => mret_ (Err (default (Internal (lit "retry loop exhausted")) last_err), [])
  | S fuel =>
      admitted ← before_attempt;
      match admitted with
      | Err e => mret_ (Err e, [Rejected e])
      | Ok attempt_state =>
          r ← op attempt;
          match r with
          | Ok v =>
              if use_circuit_breaker config then
                on sub (record_success (clocks sub));; mret_ (Ok v, [Attempt attempt r; Succeeded])
              else mret_ (Ok v, [Attempt attempt r])
          | Err e =>
              let retryable := is_retryable e in
              if use_circuit_breaker config && retryable &&
                 bool_decide (attempt_state = Some HalfOpen)
              then on sub (record_failure (clocks sub));; mret_ (Err e, [Attempt attempt r; Failed])
              else if negb retryable || (attempt =? max_retries config) then
                if use_circuit_breaker config && retryable
                then on sub (record_failure (clocks sub));; mret_ (Err e, [Attempt attempt r; Failed])
                else mret_ (Err e, [Attempt attempt r])
              else
                sleep attempt;;
                res ← retry_loop fuel (attempt + 1) (Some e);
                mret_ (res.1, Attempt attempt r :: res.2)
          end
      end
  end.

Definition retry_sync : ST Circuits (DbResult T * list (Event T)) :=
  retry_loop (Z.to_nat (max_retries config + 1)) 0 None.

(** How a call ends after [k] retryable errors. *)
Inductive retry_ending (k : Z) : list (Event T) → DbResult T → Prop :=
  (** the breaker refuses the attempt *)
  | ending_rejected e :
      use_circuit_breaker config = true → retry_ending k [Rejected e] (Err e)
  | ending_ok v :
      retry_ending k (Attempt k (Ok v) :: if use_circuit_breaker config then [Succeeded] else []) (Ok v)
  (** an error of another kind is returned at once and not charged *)
  | ending_fatal e :
      is_retryable e = false → retry_ending k [Attempt k (Err e)] (Err e)
  (** a failed probe, or the retries are used up: one failure is charged *)
  | ending_charged e :
      is_retryable e = true → use_circuit_breaker config = true →
      retry_ending k [Attempt k (Err e); Failed] (Err e)
  | ending_exhausted e :
      is_retryable e = true → use_circuit_breaker config = false → k = max_retries config →
      retry_ending k [Attempt k (Err e)] (Err e).

Definition retried (attempt : Z) (errs : list DbError) : list (Event T) :=
  imap (λ i e, Attempt (attempt + Z.of_nat i) (Err e)) errs.

(** The trace of a call that starts at [attempt]: retryable errors, then an
    ending, within the retries allowed. *)
Definition trace_ok (attempt : Z) (tr : list (Event T)) (res : DbResult T) : Prop :=
  ∃ errs ending, tr = retried attempt errs ++ ending ∧ Forall (λ e, is_retryable e = true) errs ∧
    attempt + Z.of_nat (length errs) ≤ max_retries config ∧
    retry_ending (attempt + Z.of_nat (length errs)) ending res.

Lemma trace_ok_ending attempt ending res :
  attempt ≤ max_retries config → retry_ending attempt ending res → trace_ok attempt ending res.
Proof.
  intros Hle He. exists [], ending. simpl. rewrite Z.add_0_r.
  split_and!; [done|constructor|done|done].
Qed.

Lemma trace_ok_cons attempt e tr res :
  is_retryable e = true → trace_ok (attempt + 1) tr res →
  trace_ok attempt (Attempt attempt (Err e) :: tr) res.
Proof.
  intros Hr (errs & ending & -> & Hall & Hlen & He). exists (e :: errs), ending.
  replace (attempt + Z.of_nat (length (e :: errs))) with (attempt + 1 + Z.of_nat (length errs))
    by (simpl; lia).
  split_and!; [|by constructor|done|done].
  unfold retried. rewrite imap_cons. simpl. rewrite Z.add_0_r. f_equal. f_equal.
  apply imap_ext. intros i e' _. simpl. f_equal. lia.
Qed.

Lemma retry_loop_trace (fuel : nat) : ∀ attempt last_err c res tr c',
  Z.of_nat fuel = max_retries config + 1 - attempt → attempt ≤ max_retries config →
  retry_loop fuel attempt last_err c = ((res, tr), c') → trace_ok attempt tr res.
Proof.
  induction fuel as [|fuel IH]; intros attempt last_err c res tr c' Hfuel Hle; [lia|].
  simpl. unfold mbind_, mret_. destruct (before_attempt c) as [[adm|e] c1] eqn:Hadm.
  2: { intros [= <- <- _]. apply trace_ok_ending; [done|]. unfold before_attempt, mbind_, mret_ in Hadm.
       destruct (use_circuit_breaker config) eqn:Hcb; [by constructor|done]. }
  destruct (op attempt c1) as [[v|e] c2].
  { pose proof (trace_ok_ending attempt _ _ Hle (ending_ok attempt v)) as He.
    destruct (use_circuit_breaker config); [destruct (on sub _ c2) as [? c3]|];
      by intros [= <- <- _]. }
  destruct (is_retryable e) eqn:Hr; rewrite ?andb_true_r, ?andb_false_r; simpl.
  2: { intros [= <- <- _]. apply trace_ok_ending; [done|by constructor]. }
  assert (∀ c3, attempt ≠ max_retries config →
    (let '(a, w') := sleep attempt c3 in
     let '(a0, w'0) := retry_loop fuel (attempt + 1) (Some e) w' in
     ((a0.1, Attempt attempt (Err e) :: a0.2), w'0)) = ((res, tr), c') →
    trace_ok attempt tr res) as Hnext.
  { intros c3 Hne. destruct (sleep attempt c3) as [u c4].
    destruct (retry_loop fuel (attempt + 1) (Some e) c4) as [[res' tr'] c5] eqn:Hrec.
    intros [= <- <- <-]. apply trace_ok_cons; [done|]. eapply IH; [| |exact Hrec]; lia. }
  destruct (use_circuit_breaker config) eqn:Hcb; simpl.
  - destruct (bool_decide _); simpl; [|destruct (Z.eqb_spec attempt (max_retries config)); simpl].
    3: by apply Hnext.
    all: destruct (on sub _ c2) as [? c3]; intros [= <- <- _];
      apply trace_ok_ending; [done|by constructor].
  - destruct (Z.eqb_spec attempt (max_retries config)); simpl; [|by apply Hnext].
    intros [= <- <- _]. apply trace_ok_ending; [done|by constructor].
Qed.

(** C20: what a retried operation does, whatever other threads do to the
    breakers meanwhile: it always returns; it makes at most [max_retries] + 1
    attempts, each but the last having failed with a retryable error; the
    result is the last attempt's, or the refusal of the breaker; a success is
    recorded once, a failure is charged at most once, only for a retryable
    error, and never to a breaker that is not in use; and the error "retry loop
    exhausted" never appears. *)
Theorem retry_sync_trace c :
  0 ≤ max_retries config → ∃ res tr c', retry_sync c = ((res, tr), c') ∧ trace_ok 0 tr res.
Proof.
  intros Hmax. destruct (retry_sync c) as [[res tr] c'] eqn:H. exists res, tr, c'.
  split; [done|]. unfold retry_sync in H. eapply retry_loop_trace; [| |exact H]; lia.
Qed.

Lemma on_other {A} (m : M A) s c a c' : s ≠ sub → on sub m c = (a, c') → c' s = c s.
Proof.
  unfold on. intros Hs. destruct (m (c sub)) as [? w]. intros [= _ <-]. by rewrite bool_decide_false.
Qed.

Lemma admit_other s c a c' : s ≠ sub → before_attempt c = (a, c') → c' s = c s.
Proof.
  intros Hs. unfold before_attempt, mbind_, mret_. destruct (use_circuit_breaker config); [|by intros [= _ <-]].
  destruct (on sub (check (clocks sub)) c) as [r c1] eqn:H1. apply (on_other _ _ _ _ _ Hs) in H1.
  destruct r; [|intros [= _ <-]; congruence].
  destruct (on sub (state (clocks sub)) c1) as [r c2] eqn:H2. apply (on_other _ _ _ _ _ Hs) in H2.
  intros [= _ <-]. congruence.
Qed.

(** Breakers are isolated: a retried operation, however often it fails,
    leaves the breaker of every other subsystem as the operation itself and
    the other threads left it. *)
Theorem retry_isolated s :
  s ≠ sub → (∀ n c, (op n c).2 s = c s) → (∀ n c, (sleep n c).2 s = c s) →
  ∀ c, (retry_sync c).2 s = c s.
Proof.
  intros Hs Hop Hsleep c. unfold retry_sync.
  generalize (Z.to_nat (max_retries config + 1)), 0, (@None DbError). intros fuel. revert c.
  induction fuel as [|fuel IH]; intros c attempt last_err; [done|]. simpl. unfold mbind_, mret_.
  destruct (before_attempt c) as [[adm|e] c1] eqn:Hadm; apply (admit_other _ _ _ _ Hs) in Hadm; [|done].
  pose proof (Hop attempt c1) as Ho. destruct (op attempt c1) as [r c2]. simpl in Ho.
  assert (∀ (m : M ()) (x : DbResult T * list (Event T)),
    (let '(_, w') := on sub m c2 in (x, w')).2 s = c s) as Hon.
  { intros m x. destruct (on sub m c2) as [? c3] eqn:Hm. apply (on_other _ _ _ _ _ Hs) in Hm.
    simpl. congruence. }
  destruct r as [v|e]; [case_match; [apply Hon|simpl; congruence]|].
  case_match; [apply Hon|]. case_match; [case_match; [apply Hon|simpl; congruence]|].
  pose proof (Hsleep attempt c2) as Hsl. destruct (sleep attempt c2) as [u c4]. simpl in Hsl.
  specialize (IH c4 (attempt + 1) (Some e)). destruct (retry_loop _ _ _ c4) as [res c5].
  simpl in *. congruence.
Qed.
End retry.

(** ** The contract of a breaker *)

(** Three states instead of four counters; between trips the count of failures
    is all there is. *)
Inductive Spec :=
  | Counting (n : Z)
  | Tripped (until streak probe : Z).

Inductive Obs := Allowed | Refused | RecordedSuccess | RecordedFailure | WasReset.

(** The contract, with the time of the latest event. *)
Inductive spec_step (t d : Z) : Z * Spec → Obs → Z * Spec → Prop :=
  (** while counting, every call is admitted *)
  | spec_admit now now' n :
      now ≤ now' → spec_step t d (now, Counting n) Allowed (now', Counting n)
  (** tripped, every call is refused until the deadline *)
  | spec_refuse now now1 now' u k p :
      now ≤ now1 → now1 ≤ now' → now1 < u →
      spec_step t d (now, Tripped u k p) Refused (now', Tripped u k p)
  (** after it, one probe is admitted per interval *)
  | spec_probe now now' u k p :
      now ≤ now' → u ≤ now' → (p = 0 ∨ p + 5000000 ≤ now') →
      spec_step t d (now, Tripped u k p) Allowed (now', Tripped u k now')
  | spec_limit now now' u k p :
      now ≤ now' → u ≤ now' → p ≠ 0 → now' < p + 5000000 →
      spec_step t d (now, Tripped u k p) Refused (now', Tripped u k p)
  (** a success forgets the failures counted *)
  | spec_success now now' n :
      now ≤ now' → spec_step t d (now, Counting n) RecordedSuccess (now', Counting 0)
  (** the third success in a row after the deadline closes the circuit, and so
      does one of a call that was admitted before the trip *)
  | spec_streak now now' u k p :
      now ≤ now' → u ≤ now' → k < 2 →
      spec_step t d (now, Tripped u k p) RecordedSuccess (now', Tripped u (k + 1) p)
  | spec_close now now' u k p :
      now ≤ now' → (now' < u ∨ k = 2) →
      spec_step t d (now, Tripped u k p) RecordedSuccess (now', Counting 0)
  (** the failure that reaches the threshold trips, any later one extends *)
  | spec_count now now' n :
      now ≤ now' → n + 1 < t →
      spec_step t d (now, Counting n) RecordedFailure (now', Counting (n + 1))
  | spec_trip now now' n :
      now ≤ now' → t ≤ n + 1 →
      spec_step t d (now, Counting n) RecordedFailure (now', Tripped (u64_wrap (now' + d)) 0 0)
  | spec_extend now now' u k p :
      now ≤ now' →
      spec_step t d (now, Tripped u k p) RecordedFailure (now', Tripped (u64_wrap (now' + d)) 0 p)
  | spec_reset now a : spec_step t d (now, a) WasReset (now, Counting 0).

Inductive spec_run (t d : Z) : Z * Spec → list Obs → Z * Spec → Prop :=
  | spec_nil a : spec_run t d a [] a
  | spec_cons a o b os c : spec_step t d a o b → spec_run t d b os c → spec_run t d a (o :: os) c.

Inductive Call := CallCheck | CallSuccess | CallFailure | CallReset.

Section refinement.
Context (clock : nat → Z).
Local Open Scope breaker_scope.

Definition run_call (o : Call) : M Obs :=
  match o with
  | CallCheck =>
      r ← check clock;
      match r with Ok _ => mret_ Allowed | Err _ => mret_ Refused end
  | CallSuccess => record_success clock;; mret_ RecordedSuccess
  | CallFailure => record_failure clock;; mret_ RecordedFailure
  | CallReset => store reset;; mret_ WasReset
  end.

Fixpoint run_calls (os : list Call) : M (list Obs) :=
  match os with
  | [] => mret_ []
  | o :: os => x ← run_call o; xs ← run_calls os; mret_ (x :: xs)
  end.

(** The time of the latest reading. *)
Definition last_reading (w : World) : Z :=
  match readings w with O => 0 | S n => clock n end.

Definition clock_ok : Prop := 0 ≤ clock 0%nat ∧ ∀ n, clock n ≤ clock (S n).

(** [m] calls so far. *)
Definition represents (t d m : Z) (w : World) (a : Z * Spec) : Prop :=
  let b := breaker w in
  threshold b = t ∧ 1 ≤ t ∧ micros_from_duration (reset_duration b) = d ∧
  a.1 = last_reading w ∧ 0 ≤ failures b ≤ m ∧
  match a.2 with
  | Counting n =>
      failures b = n ∧ n < t ∧ half_open_successes b = 0 ∧ open_until_us b = 0 ∧ last_probe_us b = 0
  | Tripped u k p =>
      t ≤ failures b ∧ open_until_us b = u ∧ half_open_successes b = k ∧ 0 ≤ k < 3 ∧
      last_probe_us b = p ∧ 0 ≤ p ≤ last_reading w ∧ 0 ≤ u
  end.

Definition tick (w : World) : World :=
  {| breaker := breaker w; readings := S (readings w); transitions := transitions w |}.

Lemma state_eq w :
  0 ≤ clock (readings w) →
  state clock w =
    (if clock (readings w) <? open_until_us (breaker w) then Open
     else if threshold (breaker w) <=? failures (breaker w) then HalfOpen else Closed, tick w).
Proof.
  intros Hc. unfold state, load, now_us, mbind_, mret_, tick. simpl.
  destruct (Z.ltb_spec (clock (readings w)) (open_until_us (breaker w))).
  - by rewrite (proj2 (Z.ltb_lt _ _)) by lia.
  - rewrite andb_false_r. simpl. by destruct (threshold (breaker w) <=? failures (breaker w)).
Qed.

Lemma rate_limited_spec last now :
  0 ≤ last → rate_limited last now = true ↔ last ≠ 0 ∧ now < last + 5000000.
Proof.
  intros Hl. unfold rate_limited, u64_saturating_sub.
  change (micros_from_duration HALF_OPEN_PROBE_INTERVAL) with 5000000.
  rewrite andb_true_iff, !Z.ltb_lt. lia.
Qed.

Context (Hclock : clock_ok).

Lemma clock_mono n n' : (n ≤ n')%nat → clock n ≤ clock n'.
Proof. induction 1 as [|n' _ IH]; [done|]. pose proof (proj2 Hclock n'). lia. Qed.

Lemma clock_nonneg n : 0 ≤ clock n.
Proof. pose proof (clock_mono 0 n). destruct Hclock. lia. Qed.

Lemma last_reading_le w n : (readings w ≤ n)%nat → last_reading w ≤ clock n.
Proof.
  unfold last_reading. destruct (readings w); intros; [apply clock_nonneg|apply clock_mono; lia].
Qed.

Lemma last_reading_nonneg w : 0 ≤ last_reading w.
Proof. unfold last_reading. case_match; [done|apply clock_nonneg]. Qed.

Lemma represents_time t d m w now s :
  represents t d m w (now, s) → now ≤ clock (readings w).
Proof. intros (_ & _ & _ & Hn & _). simpl in Hn. rewrite Hn. by apply last_reading_le. Qed.

(** The state a represented breaker reports. *)
Lemma represents_state t d m w now s :
  represents t d m w (now, s) →
  (state clock w).2 = tick w ∧
  (state clock w).1 = match s with
    | Counting _ => Closed
    | Tripped u _ _ => if clock (readings w) <? u then Open else HalfOpen
    end.
Proof.
  intros (Ht & _ & _ & _ & _ & Hs). pose proof (clock_nonneg (readings w)) as Hnn.
  rewrite state_eq by done. split; [done|]. simpl in *. destruct s as [n|u k p].
  - destruct Hs as (Hn & Hlt & _ & Hu & _). rewrite (proj2 (Z.ltb_ge _ _)) by lia.
    by rewrite (proj2 (Z.leb_gt _ _)) by lia.
  - destruct Hs as (Hn & -> & _). case_match; [done|]. by rewrite (proj2 (Z.leb_le _ _)) by lia.
Qed.

Lemma check_refines t d m w a :
  represents t d m w a →
  ∃ o w' a', run_call CallCheck w = (o, w') ∧ spec_step t d a o a' ∧ represents t d (m + 1) w' a'.
Proof.
  destruct a as [now s]. intros Hr. pose proof (represents_time _ _ _ _ _ _ Hr) as H0.
  pose proof (represents_state _ _ _ _ _ _ Hr) as [Hst2 Hst1].
  destruct Hr as (Ht & Ht1 & Hd & Hnow & Hf & Hs). simpl in Hnow.
  pose proof (clock_mono (readings w) (S (readings w)) ltac:(lia)) as H1.
  unfold run_call, check, mbind_. destruct (state clock w) as [st w1]. simpl in Hst1, Hst2. subst st w1.
  destruct s as [n|u k p]; simpl in Hs.
  - eexists _, _, (clock (readings w), Counting n). split; [reflexivity|].
    split; [constructor; lia|]. unfold represents; simpl. split_and!; lia || done.
  - destruct Hs as (Hn & Hu & Hk & Hk3 & Hp & Hp0 & Hu0). destruct (Z.ltb_spec (clock (readings w)) u).
    + unfold load, remaining_open, mbind_, now_us, mret_, tick. simpl. rewrite Hu.
      rewrite (proj2 (Z.eqb_neq u 0)) by (pose proof (clock_nonneg (readings w)); lia). simpl. rewrite Hu.
      rewrite (proj2 (Z.eqb_neq u 0)) by (pose proof (clock_nonneg (readings w)); lia). simpl.
      pose proof (clock_mono (S (readings w)) (S (S (readings w))) ltac:(lia)).
      eexists _, _, (clock (S (S (readings w))), Tripped u k p). split; [reflexivity|].
      split; [apply (spec_refuse _ _ _ (clock (readings w))); lia|].
      unfold represents; simpl. unfold last_reading in *. simpl. split_and!; try lia; done.
    + unfold now_us, load, mret_, tick. simpl.
      destruct (rate_limited (last_probe_us (breaker w)) (clock (S (readings w)))) eqn:Hl.
      * apply rate_limited_spec in Hl as [? ?]; [|lia]. rewrite Hp in *.
        eexists _, _, (clock (S (readings w)), Tripped u k p). split; [reflexivity|].
        split; [apply spec_limit; lia|].
        unfold represents; simpl. unfold last_reading in *. simpl. split_and!; try lia; done.
      * assert (p = 0 ∨ p + 5000000 ≤ clock (S (readings w))) as Hfree.
        { destruct (decide (p = 0)); [by left|right]. apply not_true_iff_false in Hl.
          rewrite rate_limited_spec in Hl by lia. lia. }
        eexists _, _, (clock (S (readings w)), Tripped u k (clock (S (readings w)))).
        split; [reflexivity|]. split; [apply spec_probe; lia|].
        unfold represents; simpl. unfold last_reading in *. simpl. split_and!; try lia; done.
Qed.
Lemma represents_reset t d m w now s n :
  represents t d m w (now, s) →
  represents t d (m + 1) {| breaker := reset (breaker w); readings := n; transitions := transitions w |}
    (last_reading {| breaker := reset (breaker w); readings := n; transitions := transitions w |}, Counting 0).
Proof.
  intros (Ht & Ht1 & Hd & Hnow & Hf & Hs). unfold represents; simpl. split_and!; lia || done.
Qed.

Lemma success_refines t d m w a :
  represents t d m w a →
  ∃ o w' a', run_call CallSuccess w = (o, w') ∧ spec_step t d a o a' ∧ represents t d (m + 1) w' a'.
Proof.
  destruct a as [now s]. intros Hr. pose proof (represents_time _ _ _ _ _ _ Hr) as H0.
  pose proof (represents_state _ _ _ _ _ _ Hr) as [Hst2 Hst1]. pose proof Hr as Hr'.
  destruct Hr as (Ht & Ht1 & Hd & Hnow & Hf & Hs). simpl in Hnow.
  unfold run_call, record_success, mbind_. destruct (state clock w) as [st w1].
  simpl in Hst1, Hst2. subst st w1. destruct s as [n|u k p]; simpl in Hs.
  - eexists _, _, (clock (readings w), Counting 0). split; [reflexivity|].
    split; [constructor; lia|]. unfold represents; simpl. split_and!; lia || done.
  - destruct Hs as (Hn & Hu & Hk & Hk3 & Hp & Hp0 & Hu0). destruct (Z.ltb_spec (clock (readings w)) u).
    + eexists _, _, (clock (readings w), Counting 0). split; [reflexivity|].
      split; [apply spec_close; lia|]. exact (represents_reset _ _ _ _ _ _ (S (readings w)) Hr').
    + unfold load, store, mbind_, mret_, tick. simpl. rewrite Hk. unfold u32_wrap.
      rewrite Z.mod_small by lia. unfold HALF_OPEN_SUCCESS_THRESHOLD.
      destruct (Z.leb_spec 3 (k + 1)).
      * eexists _, _, (clock (readings w), Counting 0). split; [reflexivity|].
        split; [apply spec_close; lia|]. unfold represents; simpl. split_and!; lia || done.
      * eexists _, _, (clock (readings w), Tripped u (k + 1) p). split; [reflexivity|].
        split; [apply spec_streak; lia|].
        unfold represents; simpl. unfold last_reading in *. simpl. split_and!; try lia; done.
Qed.

(** Past the threshold, a failure moves the deadline. *)
Lemma failure_trips t d m w now s w' :
  represents t d m w (now, s) → m + 1 < 2 ^ 32 → t ≤ failures (breaker w) + 1 →
  (record_failure clock w).2 = w' →
  ∃ n, now ≤ clock n ∧
    represents t d (m + 1) w' (clock n, Tripped (u64_wrap (clock n + d)) 0 (last_probe_us (breaker w))).
Proof.
  intros Hr Hm Hf1. pose proof (represents_time _ _ _ _ _ _ Hr) as H0.
  pose proof (represents_state _ _ _ _ _ _ Hr) as [Hst2 Hst1].
  destruct Hr as (Ht & Ht1 & Hd & Hnow & Hf & Hs). simpl in Hnow.
  unfold record_failure, mbind_. destruct (state clock w) as [st w1].
  simpl in Hst1, Hst2. subst w1. clear Hst1. unfold load, store, tick, mret_, now_us. simpl.
  unfold u32_wrap. rewrite Z.mod_small by lia. rewrite (proj2 (Z.leb_le _ _)) by lia. simpl.
  pose proof (clock_mono (readings w) (S (readings w)) ltac:(lia)).
  pose proof (clock_mono (readings w) (S (S (readings w))) ltac:(lia)).
  assert (0 ≤ last_probe_us (breaker w) ≤ last_reading w) as Hp.
  { pose proof (last_reading_nonneg w). destruct s as [n|u k p]; simpl in Hs; [lia|].
    destruct Hs as (_ & _ & _ & _ & Hp & ? & _). lia. }
  assert (∀ z, 0 ≤ u64_wrap z) as Hw by auto with mail.
  clear Hs. destruct (0 <? open_until_us (breaker w)); simpl;
    match goal with |- context [if ?b then log_transition _ _ else _] => destruct b end;
    simpl; intros <-;
    [exists (S (S (readings w)))|exists (S (S (readings w)))|exists (S (readings w))|exists (S (readings w))];
    (split; [lia|]); unfold represents, last_reading; simpl; rewrite Hd; rewrite <-Hnow in Hp;
    split_and!; try lia; try done; apply Hw.
Qed.

Lemma failure_counts t d m w now n w' :
  represents t d m w (now, Counting n) → m + 1 < 2 ^ 32 → n + 1 < t →
  (record_failure clock w).2 = w' →
  represents t d (m + 1) w' (clock (readings w), Counting (n + 1)).
Proof.
  intros Hr Hm Hn. pose proof (represents_state _ _ _ _ _ _ Hr) as [Hst2 _].
  destruct Hr as (Ht & Ht1 & Hd & Hnow & Hf & Hs). simpl in Hnow, Hs.
  unfold record_failure, mbind_. destruct (state clock w) as [st w1].
  simpl in Hst2. subst w1. unfold load, store, tick, mret_. simpl.
  unfold u32_wrap. rewrite Z.mod_small by lia. rewrite (proj2 (Z.leb_gt _ _)) by lia.
  intros <-. unfold represents; simpl. split_and!; try lia; done.
Qed.

Lemma failure_refines t d m w a :
  represents t d m w a → m + 1 < 2 ^ 32 →
  ∃ o w' a', run_call CallFailure w = (o, w') ∧ spec_step t d a o a' ∧ represents t d (m + 1) w' a'.
Proof.
  destruct a as [now s]. intros Hr Hm. pose proof (represents_time _ _ _ _ _ _ Hr) as H0.
  assert (run_call CallFailure w = (RecordedFailure, (record_failure clock w).2)) as ->.
  { unfold run_call, mbind_. by destruct (record_failure clock w). }
  pose proof Hr as (_ & _ & _ & _ & _ & Hs). destruct s as [n|u k p]; simpl in Hs.
  - destruct Hs as (Hn & Hlt & _ & _ & Hp). destruct (decide (n + 1 < t)).
    + eexists _, _, (_, Counting (n + 1)). split; [reflexivity|].
      split; [|by eapply failure_counts]. by constructor.
    + edestruct (failure_trips t d m w now) as (i & Hi & Hr'); [done|done|lia|reflexivity|].
      rewrite Hp in Hr'. eexists _, _, _. split; [reflexivity|]. split; [|exact Hr'].
      apply spec_trip; lia.
  - destruct Hs as (Hn & _ & _ & _ & Hp & _).
    edestruct (failure_trips t d m w now) as (i & Hi & Hr'); [done|done|lia|reflexivity|].
    rewrite Hp in Hr'. eexists _, _, _. split; [reflexivity|]. split; [|exact Hr'].
    by apply spec_extend.
Qed.

Lemma call_refines t d m w a o :
  represents t d m w a → m + 1 < 2 ^ 32 →
  ∃ x w' a', run_call o w = (x, w') ∧ spec_step t d a x a' ∧ represents t d (m + 1) w' a'.
Proof.
  destruct o; intros Hr Hm; [by apply check_refines|by apply success_refines|by apply failure_refines|].
  destruct a as [now s]. pose proof Hr as (_ & _ & _ & Hnow & _). simpl in Hnow.
  eexists _, _, (now, Counting 0). split; [reflexivity|]. split; [constructor|].
  subst now. exact (represents_reset _ _ _ _ _ _ (readings w) Hr).
Qed.

Lemma calls_refine t d os : ∀ m w a,
  represents t d m w a → m + Z.of_nat (length os) < 2 ^ 32 →
  ∃ xs w' a', run_calls os w = (xs, w') ∧ spec_run t d a xs a' ∧
    represents t d (m + Z.of_nat (length os)) w' a'.
Proof.
  induction os as [|o os IH]; intros m w a Hr Hm.
  - exists [], w, a. split; [done|]. split; [constructor|]. by rewrite Z.add_0_r.
  - simpl length in *. destruct (call_refines t d m w a o Hr ltac:(lia)) as (x & w1 & a1 & Hx & Hs & Hr1).
    destruct (IH (m + 1) w1 a1 Hr1 ltac:(lia)) as (xs & w2 & a2 & Hxs & Hrun & Hr2).
    exists (x :: xs), w2, a2. simpl. unfold mbind_ at 1. rewrite Hx. unfold mbind_. rewrite Hxs.
    split; [done|]. split; [by econstructor|].
    by replace (m + Z.of_nat (S (length os))) with (m + 1 + Z.of_nat (length os)) by lia.
Qed.

(** C19: a breaker keeps its contract.  Every sequence of calls on a new breaker,
    with a clock that never goes back and fewer than 2^32 calls, is a run of
    the specification: calls are admitted until [threshold] failures in a row,
    then refused until the deadline, then one probe per five seconds until
    three successes close the circuit; and the four counters always represent
    the state of that run. *)
Theorem breaker_refines_contract name thr dur os :
  Z.of_nat (length os) < 2 ^ 32 →
  ∃ xs w a, run_calls os (fresh (with_subsystem name thr dur)) = (xs, w) ∧
    spec_run (Z.max thr 1) (micros_from_duration dur) (0, Counting 0) xs a ∧
    represents (Z.max thr 1) (micros_from_duration dur) (Z.of_nat (length os)) w a.
Proof.
  intros Hlen. eapply (calls_refine _ _ os 0); [|lia].
  unfold represents; simpl. split_and!; try lia; done.
Qed.
End refinement.

(** ** Concurrent probes *)

(** Threads inside the loop of [check], each with the time it read before the
    loop and, past the load, the value it will try to exchange. *)
Record ProbeSys := {
  probe : Z;
  looping : list (Z * option Z);
  admitted : list Z;
}.

Inductive probe_step : ProbeSys → ProbeSys → Prop :=
  | probe_enter s now :
      0 < now →
      probe_step s {| probe := probe s; looping := (now, None) :: looping s; admitted := admitted s |}
  | probe_refused s now cs :
      looping s ≡ₚ (now, None) :: cs → rate_limited (probe s) now = true →
      probe_step s {| probe := probe s; looping := cs; admitted := admitted s |}
  | probe_load s now cs :
      looping s ≡ₚ (now, None) :: cs → rate_limited (probe s) now = false →
      probe_step s {| probe := probe s; looping := (now, Some (probe s)) :: cs; admitted := admitted s |}
  | probe_swap s now last cs :
      looping s ≡ₚ (now, Some last) :: cs → probe s = last →
      probe_step s {| probe := now; looping := cs; admitted := now :: admitted s |}
  (** the exchange fails: refuse by the value observed, or loop *)
  | probe_fail_refused s now last cs :
      looping s ≡ₚ (now, Some last) :: cs → probe s ≠ last → rate_limited (probe s) now = true →
      probe_step s {| probe := probe s; looping := cs; admitted := admitted s |}
  | probe_fail_retry s now last cs :
      looping s ≡ₚ (now, Some last) :: cs → probe s ≠ last → rate_limited (probe s) now = false →
      probe_step s {| probe := probe s; looping := (now, None) :: cs; admitted := admitted s |}.

(** The probes of a half-open period, latest first, with the last one before
    it. *)
Definition probe_chain (p0 : Z) (s : ProbeSys) : list Z :=
  admitted s ++ (if p0 =? 0 then [] else [p0]).

Definition apart (a b : Z) : Prop := b + 5000000 ≤ a.

Definition probe_inv (p0 : Z) (s : ProbeSys) : Prop :=
  probe s = default 0 (head (probe_chain p0 s)) ∧ Forall (λ a, 0 < a) (probe_chain p0 s) ∧
  StronglySorted apart (probe_chain p0 s) ∧
  Forall (λ c, 0 < c.1 ∧ ∀ l, c.2 = Some l → rate_limited l c.1 = false) (looping s).

Lemma probe_swap_chain now chain :
  Forall (λ a, 0 < a) chain → StronglySorted apart chain →
  rate_limited (default 0 (head chain)) now = false → StronglySorted apart (now :: chain).
Proof.
  intros Hpos Hs Hl. constructor; [done|]. destruct chain as [|a chain]; [constructor|]. simpl in Hl.
  apply Forall_cons in Hpos as [Ha _]. apply not_true_iff_false in Hl.
  rewrite rate_limited_spec in Hl by lia. apply StronglySorted_inv in Hs as [_ Hs].
  unfold apart in *. constructor; [lia|]. eapply Forall_impl; [exact Hs|]. simpl. lia.
Qed.

Lemma probe_step_inv p0 s s' : probe_step s s' → probe_inv p0 s → probe_inv p0 s'.
Proof.
  unfold probe_inv, probe_chain.
  destruct 1 as [s now Hn|s now cs Hp Hl|s now cs Hp Hl|s now last cs Hp Hl|s now last cs Hp Hne Hl
    |s now last cs Hp Hne Hl]; intros (Hhd & Hpos & Hs & Hloop); simpl; try rewrite Hp in Hloop;
    try (apply Forall_cons in Hloop as [[Hnow Hc] Hloop]; simpl in Hnow, Hc).
  - split_and!; [done|done|done|]. by constructor.
  - done.
  - split_and!; [done|done|done|]. constructor; [|done]. split; [done|]. by intros ? [= <-].
  - specialize (Hc _ eq_refl). rewrite <-Hl, Hhd in Hc. split_and!; [done|by constructor| |done].
    by apply (probe_swap_chain now).
  - done.
  - split_and!; [done|done|done|]. by constructor.
Qed.

(** however many threads ask at once, and whatever order their loads and
    exchanges take, the probes admitted while the circuit stays half-open are
    at least five seconds apart, from each other and from the last probe
    before. *)
Theorem probes_rate_limited p0 s :
  0 ≤ p0 → rtc probe_step {| probe := p0; looping := []; admitted := [] |} s →
  StronglySorted apart (probe_chain p0 s).
Proof.
  intros Hp0 Hr. assert (probe_inv p0 {| probe := p0; looping := []; admitted := [] |}) as H0.
  { unfold probe_inv, probe_chain; simpl. destruct (Z.eqb_spec p0 0); simpl; subst;
      split_and!; try done; repeat constructor; lia. }
  enough (probe_inv p0 s) as (_ & _ & ? & _); [done|].
  clear Hp0. induction Hr as [|s1 s2 s3 Hs _ IH]; [done|]. by eapply IH, probe_step_inv.
Qed.

(** ** Instances *)

(** One second per reading. *)
Definition seconds (n : nat) : Z := Z.of_nat n * 1000000.

Lemma seconds_ok : clock_ok seconds.
Proof. unfold clock_ok, seconds. split; [lia|]. intros n. lia. Qed.

(** Two failures trip a breaker with threshold two; a later probe succeeds
    three times. *)
Definition sample_calls : list Call :=
  [CallCheck; CallFailure; CallCheck; CallFailure; CallCheck; CallCheck; CallCheck; CallCheck;
   CallSuccess; CallSuccess; CallSuccess; CallCheck].

Definition sample_breaker : CircuitBreaker := with_params 2 (from_secs 6).

Example sample_run :
  (run_calls seconds sample_calls (fresh sample_breaker)).1 =
    [Allowed; RecordedFailure; Allowed; RecordedFailure; Refused; Refused; Allowed; Refused;
     RecordedSuccess; RecordedSuccess; RecordedSuccess; Allowed].
Proof. reflexivity. Qed.

(** A reset duration near the width of the counter wraps the deadline into the
    past: the circuit that should stay open for ages never opens. *)
Example reset_overflow :
  let b := with_params 1 (from_secs u64_max) in
  (run_calls seconds [CallCheck; CallFailure; CallCheck] (fresh b)).1 =
    [Allowed; RecordedFailure; Allowed].
Proof. reflexivity. Qed.

(** A call admitted before the trip that succeeds after it closes the circuit. *)
Example straggler_closes :
  (run_calls seconds [CallCheck; CallFailure; CallFailure; CallCheck; CallSuccess; CallCheck]
     (fresh sample_breaker)).1 =
    [Allowed; RecordedFailure; RecordedFailure; Refused; RecordedSuccess; Allowed].
Proof. reflexivity. Qed.

Lemma breaker_refines_contract_witness :
  Z.of_nat (length sample_calls) < 2 ^ 32 ∧
  ∃ xs w a, run_calls seconds sample_calls (fresh sample_breaker) = (xs, w) ∧
    spec_run 2 6000000 (0, Counting 0) xs a.
Proof.
  split; [vm_compute; reflexivity|].
  destruct (breaker_refines_contract seconds seconds_ok (lit "db") 2 (from_secs 6) sample_calls)
    as (xs & w & a & Hrun & Hspec & _); [vm_compute; reflexivity|].
  exists xs, w, a. split; [exact Hrun|exact Hspec].
Defined.

Lemma probes_rate_limited_witness :
  StronglySorted apart (probe_chain 1000000 {| probe := 7000000; looping := []; admitted := [7000000] |}).
Proof.
  apply probes_rate_limited; [done|].
  eapply rtc_l; [apply (probe_enter _ 7000000); done|]. simpl.
  eapply rtc_l; [apply (probe_load _ 7000000 []); done|]. simpl.
  eapply rtc_l; [apply (probe_swap _ 7000000 1000000 []); done|]. apply rtc_refl.
Defined.

(** An operation that is busy twice. *)
Definition busy_twice (n : Z) : ST Circuits (DbResult Z) :=
  mret_ (if n <? 2 then Err (ResourceBusy []) else Ok 42).

Definition no_sleep (n : Z) : ST Circuits () := mret_ tt.

Lemma retry_sync_trace_witness :
  0 ≤ max_retries default_config ∧
  ∃ res tr c', retry_sync (λ _, seconds) default_config busy_twice no_sleep
                 (initial_circuits (λ _, None)) = ((res, tr), c') ∧
    trace_ok default_config 0 tr res.
Proof.
  split; [done|].
  apply (retry_sync_trace (λ _, seconds) default_config busy_twice no_sleep). done.
Defined.

Lemma retry_isolated_witness :
  (retry_sync (λ _, seconds) default_config busy_twice no_sleep (initial_circuits (λ _, None))).2 Git =
  initial_circuits (λ _, None) Git.
Proof.
  apply (retry_isolated (λ _, seconds) default_config busy_twice no_sleep Git); done.
Defined.
End CircuitBreaker.
