(* ===== verification/Transactions.v ===== *)
(** * Transactions and their retries ([mcp-agent-mail-db/src/queries.rs],
      "Transaction helpers" and "MVCC conflict retry helpers", and the
      classification of messages in [pool.rs])

    A write begins a transaction, runs statements, commits, and rolls back
    when anything is not well; the whole of it is started again when the
    engine reports a conflict or contention.  What the engine answers is a
    parameter: it is taken to keep a transaction's writes apart until a commit
    it reports as done.  The length of the pauses is left out. *)

From stdpp Require Import base numbers tactics list strings.
From S2P Require Import Prelude DbErrors.
Import DbErrors.
Open Scope Z_scope.

Module Transactions.

(** [asupersync::Outcome] with the errors of the database layer. *)
Inductive Outcome (T : Type) :=
  | Done (v : T)
  | Failed (e : DbError)
  | Cancelled
  | Panicked.
#[global] Arguments Done {T} v.
#[global] Arguments Failed {T} e.
#[global] Arguments Cancelled {T}.
#[global] Arguments Panicked {T}.

(** ** Classification of messages *)

Definition contains_any_ascii (needles : list string) (msg : str) : bool :=
  existsb (λ n, contains (lit n) (to_ascii_lowercase msg)) needles.

Definition is_corruption_error_message (msg : str) : bool :=
  contains_any_ascii ["database disk image is malformed"; "malformed database schema"; "database schema is corrupt";
    "file is not a database"; "database file too small for header"; "invalid database header";
    "invalid database header magic"; "invalid page size"; "malformed page"; "page checksum mismatch";
    "header checksum mismatch"; "no healthy backup was found"; "wal file too small"]%string msg.

Definition is_sqlite_snapshot_conflict_error_message (msg : str) : bool :=
  contains_any_ascii ["snapshot conflict on pages"; "busy_snapshot"; "snapshot too old"]%string msg
  || contains_any_ascii ["snapshot db_size"]%string msg && contains_any_ascii ["page "]%string msg.

Definition is_sqlite_recovery_error_message (msg : str) : bool :=
  is_corruption_error_message msg || is_sqlite_snapshot_conflict_error_message msg
  || contains_any_ascii ["out of memory"; "cursor stack is empty"; "called `option::unwrap()` on a `none` value";
       "internal error"; "cursor must be on a leaf"; "wal file too small"]%string msg.

Definition should_fallback_begin_concurrent (msg : str) : bool :=
  contains (lit "near " ++ [34%N] ++ lit "concurrent" ++ [34%N]) (to_ascii_lowercase msg)
  || is_sqlite_recovery_error_message (to_ascii_lowercase msg).

Definition is_mvcc_error (e : DbError) : bool :=
  match e with Sqlite msg | ResourceBusy msg => is_mvcc_conflict msg | _ => false end.

Definition is_plain_write_contention_error (e : DbError) : bool :=
  match e with
  | Sqlite msg | ResourceBusy msg =>
      contains_any_ascii ["database is locked"; "database table is locked"; "database schema is locked";
        "database is busy"; "locked by another process"]%string msg
  | _ => false
  end.

Definition is_probe_transient_busy (e : DbError) : bool :=
  is_plain_write_contention_error e || is_mvcc_error e.

(** ** One transaction *)

(** What the engine answers to the statements that begin and commit. *)
Record Engine := {
  concurrent_mode_enabled : bool;
  begin_concurrent : Outcome ();
  begin_immediate : Outcome ();
  commit : Outcome ();
}.

Definition begin_concurrent_tx (g : Engine) : Outcome () :=
  if concurrent_mode_enabled g then
    match begin_concurrent g with
    | Failed (Sqlite msg) => if should_fallback_begin_concurrent msg then begin_immediate g else Failed (Sqlite msg)
    | out => out
    end
  else begin_immediate g.

Section tx.
Context {S T : Type}.

(** A result other than success, at another type. *)
Definition not_done {A} (o : Outcome A) : Outcome T :=
  match o with Failed e => Failed e | Panicked => Panicked | _ => Cancelled end.

(** [begin]; the statements, on the transaction's own copy; [commit]; a
    [rollback] after anything but success. *)
Definition in_tx (begin : Outcome ()) (body : S → Outcome T * S) (commit : Outcome ()) (db : S) : Outcome T * S :=
  match begin with
  | Done _ =>
      match body db with
      | (Done v, written) => match commit with Done _ => (Done v, written) | o => (not_done o, db) end
      | (o, _) => (o, db)
      end
  | o => (not_done o, db)
  end.

(** ** The retry loop *)

Record Retries := { retries_total : Z; exhausted_total : Z }.

Inductive Verdict := Again (conflict : bool) | Return (exhausted : bool).

(** The arms of the loop for the outcome of attempt [attempt] of [max]. *)
Definition after_attempt (max attempt : nat) (o : Outcome T) : Verdict :=
  match o with
  | Failed e =>
      if is_mvcc_error e && (attempt <? max)%nat then Again true
      else if is_plain_write_contention_error e && (attempt <? max)%nat then Again false
      else Return (is_mvcc_error e)
  | _ => Return false
  end.

Definition count_retry (conflict : bool) (r : Retries) : Retries :=
  if conflict then {| retries_total := u64_wrap (retries_total r + 1); exhausted_total := exhausted_total r |} else r.
Definition count_exhausted (exhausted : bool) (r : Retries) : Retries :=
  if exhausted then {| retries_total := retries_total r; exhausted_total := u64_wrap (exhausted_total r + 1) |} else r.

(** [rest] attempts after this one; [None]: the loop fell through. *)
Fixpoint retry_loop (op : nat → S → Outcome T * S) (max rest : nat) (r : Retries) (db : S) : option (Outcome T) * Retries * S :=
  let attempt := (max - rest)%nat in
  let '(o, db) := op attempt db in
  match after_attempt max attempt o with
  | Return exhausted => (Some o, count_exhausted exhausted r, db)
  | Again conflict =>
      let r := count_retry conflict r in
      match rest with O => (None, r, db) | Datatypes.S rest => retry_loop op max rest r db end
  end.

Definition run_with_mvcc_retry (max : nat) (op : nat → S → Outcome T * S) (r : Retries) (db : S) : Outcome T * Retries * S :=
  let '(o, r, db) := retry_loop op max max r db in
  (default (Failed (Internal (lit "MVCC retry loop fell through"))) o, r, db).

(** ** The durability probe: a read retried while the engine is busy

    The connection of an attempt is opened and set up, or fails with an error
    of its own, which is not retried. *)

Definition DURABILITY_PROBE_MAX_RETRIES : nat := 3.

Fixpoint probe_loop (query : nat → DbError + Outcome T) (rest : nat) : option (Outcome T) :=
  let attempt := (DURABILITY_PROBE_MAX_RETRIES - rest)%nat in
  match query attempt with
  | inl e => Some (Failed e)
  | inr (Failed e) =>
      if is_probe_transient_busy e && (attempt <? DURABILITY_PROBE_MAX_RETRIES)%nat then
        match rest with O => None | Datatypes.S rest => probe_loop query rest end
      else Some (Failed e)
  | inr o => Some o
  end.

Definition durability_probe_query (in_memory : bool) (query : nat → DbError + Outcome T) : Outcome T :=
  if in_memory then match query 0%nat with inl e => Failed e | inr o => o end
  else default (Failed (Internal (lit "durability probe retry loop fell through"))) (probe_loop query DURABILITY_PROBE_MAX_RETRIES).
End tx.
End Transactions.

(** ** What a retried transaction does *)

Section facts.
Import Transactions.
Context {S T : Type}.
Implicit Types (o : @Outcome T) (db : S).

Definition contention (o : @Outcome T) : Prop :=
  ∃ e, o = Failed e ∧ (is_mvcc_error e = true ∨ is_plain_write_contention_error e = true).

Definition is_done (o : @Outcome T) : bool := match o with Done _ => true | _ => false end.

Lemma in_tx_atomic begin body commit db o db' :
  in_tx begin body commit db = (o, db') →
  (∃ v, o = Done v ∧ body db = (Done v, db')) ∨ (is_done o = false ∧ db' = db).
Proof.
  unfold in_tx, not_done. destruct begin as [[]|e| |]; [|by intros [= <- <-]; right..].
  destruct (body db) as [[v|e| |] w]; [|by intros [= <- <-]; right..].
  destruct commit as [[]|e| |]; [|by intros [= <- <-]; right..]. intros [= <- <-]. left. by exists v.
Qed.

Lemma after_attempt_again max n o c : after_attempt max n o = Again c → contention o ∧ (n < max)%nat.
Proof.
  unfold after_attempt. destruct o as [v|e| |]; try done.
  destruct (is_mvcc_error e && (n <? max)%nat) eqn:H1; [intros _; apply andb_true_iff in H1 as [H1 H2%Nat.ltb_lt]; split; [|done]; eauto|].
  - exists e. by split; [|left].
  - destruct (is_plain_write_contention_error e && _) eqn:H2; [|done]. intros _.
    apply andb_true_iff in H2 as [H2 H3%Nat.ltb_lt]. split; [|done]. exists e. by split; [|right].
Qed.

Lemma after_attempt_return max n o b : after_attempt max n o = Return b → contention o → (max ≤ n)%nat.
Proof.
  unfold after_attempt. intros Hr (e & -> & He). destruct (decide (max ≤ n)%nat) as [|Hn]; [done|exfalso].
  rewrite (proj2 (Nat.ltb_lt n max)) in Hr by lia. destruct He as [He|He]; rewrite He in Hr; simpl in Hr; [done|].
  by destruct (is_mvcc_error e).
Qed.

(** An attempt that is not done leaves the database alone. *)
Definition atomic (op : nat → S → Outcome T * S) : Prop := ∀ n db, is_done (op n db).1 = false → (op n db).2 = db.

Lemma retry_loop_spec op max rest r db :
  atomic op → (rest ≤ max)%nat →
  ∃ n r', (max - rest ≤ n ≤ max)%nat ∧ (∀ k, (max - rest ≤ k < n)%nat → contention (op k db).1) ∧
    retry_loop op max rest r db = (Some (op n db).1, r', (op n db).2) ∧ (contention (op n db).1 → n = max).
Proof.
  intros Hat. revert r. induction rest as [|rest IH]; intros r Hrest; simpl.
  all: destruct (op _ db) as [o db'] eqn:Ho; destruct (after_attempt max _ o) as [c|b] eqn:Ha.
  - apply after_attempt_again in Ha as [_ Ha]. lia.
  - exists (max - 0)%nat, (count_exhausted b r). rewrite Ho. split_and!; [lia|lia|lia|done|intros; lia].
  - destruct (after_attempt_again _ _ _ _ Ha) as [Hc Hlt]. assert (db' = db) as ->.
    { specialize (Hat (max - Datatypes.S rest)%nat db). rewrite Ho in Hat. apply Hat. by destruct Hc as (e & -> & _). }
    destruct (IH (count_retry c r)) as (n & r' & Hn & Hbefore & Hl & Hmax); [lia|].
    exists n, r'. split_and!; [lia|lia| |done|done]. intros k Hk.
    destruct (decide (k = max - Datatypes.S rest)%nat) as [->|]; [by rewrite Ho|apply Hbefore; lia].
  - exists (max - Datatypes.S rest)%nat, (count_exhausted b r). rewrite Ho. split_and!; [lia|lia|lia|done|].
    intros Hc. apply (after_attempt_return _ _ _ _ Ha) in Hc. lia.
Qed.

Lemma in_tx_op_atomic (g : nat → Engine) (body : nat → S → Outcome T * S) :
  atomic (λ n, in_tx (begin_concurrent_tx (g n)) (body n) (commit (g n))).
Proof.
  intros n db Hd. destruct (in_tx _ _ _ db) as [o db'] eqn:Ho. by destruct (in_tx_atomic _ _ _ _ _ _ Ho) as [(v & -> & _)|[_ ->]].
Qed.

(** C33: A retried write happens once or not at all.  The body is started at
    most [max + 1] times, again only after a conflict or contention of the
    engine; the result is that of the last start, and it is contention only
    when all of them met it.  If the result is success, the database is what
    that one run of the body made of it, however many were rolled back before;
    otherwise it is unchanged. *)
Theorem retried_transaction_once max g body r db :
  let attempt n := in_tx (begin_concurrent_tx (g n)) (body n) (commit (g n)) in
  let '(o, _, db') := run_with_mvcc_retry max attempt r db in
  ∃ n, (n ≤ max)%nat ∧ (∀ k, (k < n)%nat → contention (attempt k db).1) ∧ (contention o → n = max) ∧
    (o, db') = attempt n db ∧
    match o with Done v => body n db = (Done v, db') | _ => db' = db end.
Proof.
  intros attempt. unfold run_with_mvcc_retry.
  destruct (retry_loop_spec attempt max max r db) as (n & r' & Hn & Hbefore & Hl & Hmax); [apply in_tx_op_atomic|lia|].
  rewrite Hl. simpl. exists n. split_and!; [lia|intros k Hk; apply Hbefore; lia|done|by destruct (attempt n db)|].
  destruct (attempt n db) as [o db'] eqn:Ho. destruct (in_tx_atomic _ _ _ _ _ _ Ho) as [(v & -> & Hb)|[Hd ->]]; [done|].
  by destruct o.
Qed.

(** The probe asks at most four times, never again after an answer or an
    error that does not pass, and never runs out of its loop. *)
Lemma probe_loop_spec query rest :
  (rest ≤ DURABILITY_PROBE_MAX_RETRIES)%nat →
  ∃ n o, (DURABILITY_PROBE_MAX_RETRIES - rest ≤ n ≤ DURABILITY_PROBE_MAX_RETRIES)%nat ∧
    probe_loop (T := T) query rest = Some o ∧ o = match query n with inl e => Failed e | inr o => o end ∧
    ∀ k, (DURABILITY_PROBE_MAX_RETRIES - rest ≤ k < n)%nat → ∃ e, query k = inr (Failed e) ∧ is_probe_transient_busy e = true.
Proof.
  intros Hrest. induction rest as [|rest IH]; cbn [probe_loop];
    [set (n0 := (DURABILITY_PROBE_MAX_RETRIES - 0)%nat)|set (n0 := (DURABILITY_PROBE_MAX_RETRIES - Datatypes.S rest)%nat)].
  all: destruct (query n0) as [e|[v|e| |]] eqn:Hq; try (exists n0; eexists; split_and!; [lia|lia|done|by rewrite Hq|lia]).
  all: destruct (is_probe_transient_busy e && (n0 <? _)%nat) eqn:Hb;
    try (exists n0; eexists; split_and!; [lia|lia|done|by rewrite Hq|lia]).
  all: apply andb_true_iff in Hb as [Hb Hlt%Nat.ltb_lt]; try (subst n0; lia).
  destruct IH as (n & o & Hn & Hl & Ho & Hbefore); [lia|].
  exists n, o. split_and!; [lia|lia|done|done|]. intros k Hk.
  destruct (decide (k = n0)) as [->|]; [eauto|apply Hbefore; lia].
Qed.
End facts.
