(* ===== verification/ReadCache.v ===== *)
(** * The read cache ([mcp-agent-mail-db/src/cache.rs])

    Rows of projects and agents and inbox counters are kept in five S3-FIFO
    caches with a time limit that each use extends.  A lookup works in two
    phases, under a read lock and, for an expired or every fourth entry, under
    a write lock; the phases are separate functions here, so that calls can
    interleave between them ([AgentLookup]).  Times are nanoseconds of a
    monotonic clock. *)

From stdpp Require Import base numbers tactics list sorting gmap strings.
From S2P Require Import Prelude S3Fifo.
Import S3Fifo.
Open Scope Z_scope.

Module ReadCache.

Definition PROJECT_TTL : Z := 300 * 1000000000.
Definition AGENT_TTL : Z := 300 * 1000000000.
Definition INBOX_STATS_TTL : Z := 30 * 1000000000.
Definition MAX_ENTRIES_PER_CATEGORY : Z := 16384.
Definition ADAPTIVE_TTL_THRESHOLD : Z := 5.
Definition HIT_WRITE_MAINTENANCE_INTERVAL : Z := 4.

(** ** Entries *)

Record CacheEntry (T : Type) := { value : T; last_accessed : Z; access_count : Z }.
#[global] Arguments value {T} c.
#[global] Arguments last_accessed {T} c.
#[global] Arguments access_count {T} c.
#[global] Arguments Build_CacheEntry {T}.

Definition new_entry {T} (v : T) (now : Z) : CacheEntry T := {| value := v; last_accessed := now; access_count := 0 |}.

Definition effective_ttl {T} (base_ttl : Z) (e : CacheEntry T) : Z :=
  if ADAPTIVE_TTL_THRESHOLD <=? access_count e then base_ttl * 2 else base_ttl.

(** [elapsed] is zero for a time ahead of the clock. *)
Definition is_expired {T} (base_ttl now : Z) (e : CacheEntry T) : bool :=
  effective_ttl base_ttl e <? Z.max 0 (now - last_accessed e).

Definition touch {T} (now : Z) (e : CacheEntry T) : CacheEntry T :=
  {| value := value e; last_accessed := now; access_count := Z.min u32_max (access_count e + 1) |}.

(** ** One category *)

Section category.
Context {K : Type} `{Countable K} {T : Type}.
Abbreviation Cache := (S3FifoCache K (CacheEntry T)).

(** What the phase under the read lock sees. *)
Inductive Seen := Absent | Fresh (v : T) | Stale.

Definition peek_entry (ttl now : Z) (k : K) (c : Cache) : Seen :=
  match peek k c with
  | None => Absent
  | Some e => if is_expired ttl now e then Stale else Fresh (value e)
  end.

(** Under the write lock: touch the entry, or remove it when it has expired
    ([Some true]); the two clock readings are [now] and [now']. *)
Definition touch_or_remove (ttl now now' : Z) (k : K) (c : Cache) : option bool * Cache :=
  let '(e, c) := get_mut k (λ e, if is_expired ttl now e then e else touch now' e) c in
  match e with
  | None => (None, c)
  | Some e => if is_expired ttl now e then (Some true, (remove k c).2) else (Some false, c)
  end.

(** The counters of hits and misses. *)
Record Metrics := { hits : Z; misses : Z }.
Definition record_hit (m : Metrics) : Metrics := {| hits := u64_wrap (hits m + 1); misses := misses m |}.
Definition record_miss (m : Metrics) : Metrics := {| hits := hits m; misses := u64_wrap (misses m + 1) |}.
(** [record_*_hit_sampled]: is the hit one of every four? *)
Definition sampled (m : Metrics) : bool := u64_wrap (hits m + 1) mod HIT_WRITE_MAINTENANCE_INTERVAL =? 0.

(** The first phase: the answer, if it is settled, and whether the second
    phase follows. *)
Definition lookup_fast (ttl now : Z) (k : K) (c : Cache) (m : Metrics) : option (option T) * bool * Metrics :=
  match peek_entry ttl now k c with
  | Absent => (Some None, false, record_miss m)
  | Fresh v => (Some (Some v), sampled m, record_hit m)
  | Stale => (None, true, m)
  end.

(** The second phase after an answer: maintenance only. *)
Definition maintain (ttl now now' : Z) (k : K) (c : Cache) : Cache := (touch_or_remove ttl now now' k c).2.

(** The second phase without one. *)
Definition lookup_slow (ttl now now' : Z) (k : K) (c : Cache) (m : Metrics) : option T * Cache * Metrics :=
  match touch_or_remove ttl now now' k c with
  | (Some false, c) => (value <$> peek k c, c, record_hit m)
  | (_, c) => (None, c, record_miss m)
  end.

(** A lookup that nothing interrupts. *)
Definition lookup_entry (ttl now : Z) (k : K) (c : Cache) (m : Metrics) : option T * Cache * Metrics :=
  match lookup_fast ttl now k c m with
  | (Some r, true, m) => (r, maintain ttl now now k c, m)
  | (Some r, false, m) => (r, c, m)
  | (None, _, m) => lookup_slow ttl now now k c m
  end.

(** The counters of inboxes are neither sampled nor counted. *)
Definition lookup_unsampled (ttl now : Z) (k : K) (c : Cache) : option T * Cache :=
  match peek_entry ttl now k c with
  | Absent => (None, c)
  | Fresh v => (Some v, c)
  | Stale =>
      match touch_or_remove ttl now now k c with
      | (Some false, c) => (value <$> peek k c, c)
      | (_, c) => (None, c)
      end
  end.
End category.
#[global] Arguments Seen T : clear implicits.

(** ** Rows and keys *)

Record ProjectRow := { project_row_id : option Z; slug : str; human_key : str; created_at : Z }.

Record AgentRow := {
  id : option Z;
  project_id : Z;
  name : str;
  program : str;
  model : str;
  task_description : str;
  inception_ts : Z;
  last_active_ts : Z;
  attachments_policy : str;
  contact_policy : str;
  reaper_exempt : Z;
  registration_token : option str;
}.

Record InboxStatsRow := {
  agent_id : Z;
  total_count : Z;
  unread_count : Z;
  ack_pending_count : Z;
  last_message_ts : option Z;
}.

(** The fields of [ReadCache] without the touch queue (see
    [DeferredTouches]), and the process-wide counters. *)
Record ReadCache := {
  projects_by_slug : S3FifoCache (Z * str) (CacheEntry ProjectRow);
  projects_by_human_key : S3FifoCache (Z * str) (CacheEntry ProjectRow);
  agents_by_key : S3FifoCache (Z * Z * str) (CacheEntry AgentRow);
  agents_by_id : S3FifoCache (Z * Z) (CacheEntry AgentRow);
  inbox_stats : S3FifoCache (Z * Z) (CacheEntry InboxStatsRow);
  project_metrics : Metrics;
  agent_metrics : Metrics;
}.

(** [with_capacity]; [None] is the panic of a cache without room. *)
Definition with_capacity (capacity : Z) : option ReadCache :=
  c1 ← new capacity; c2 ← new capacity; c3 ← new capacity; c4 ← new capacity; c5 ← new capacity;
  Some {| projects_by_slug := c1; projects_by_human_key := c2; agents_by_key := c3; agents_by_id := c4; inbox_stats := c5;
          project_metrics := {| hits := 0; misses := 0 |}; agent_metrics := {| hits := 0; misses := 0 |} |}.

(** [ReadCache::new]. *)
Definition read_cache : option ReadCache := with_capacity MAX_ENTRIES_PER_CATEGORY.

Definition set_slugs c m (r : ReadCache) : ReadCache :=
  {| projects_by_slug := c; projects_by_human_key := projects_by_human_key r; agents_by_key := agents_by_key r;
     agents_by_id := agents_by_id r; inbox_stats := inbox_stats r; project_metrics := m; agent_metrics := agent_metrics r |}.
Definition set_human_keys c m (r : ReadCache) : ReadCache :=
  {| projects_by_slug := projects_by_slug r; projects_by_human_key := c; agents_by_key := agents_by_key r;
     agents_by_id := agents_by_id r; inbox_stats := inbox_stats r; project_metrics := m; agent_metrics := agent_metrics r |}.
Definition set_keys c m (r : ReadCache) : ReadCache :=
  {| projects_by_slug := projects_by_slug r; projects_by_human_key := projects_by_human_key r; agents_by_key := c;
     agents_by_id := agents_by_id r; inbox_stats := inbox_stats r; project_metrics := project_metrics r; agent_metrics := m |}.
Definition set_ids c m (r : ReadCache) : ReadCache :=
  {| projects_by_slug := projects_by_slug r; projects_by_human_key := projects_by_human_key r; agents_by_key := agents_by_key r;
     agents_by_id := c; inbox_stats := inbox_stats r; project_metrics := project_metrics r; agent_metrics := m |}.
Definition set_stats c (r : ReadCache) : ReadCache :=
  {| projects_by_slug := projects_by_slug r; projects_by_human_key := projects_by_human_key r; agents_by_key := agents_by_key r;
     agents_by_id := agents_by_id r; inbox_stats := c; project_metrics := project_metrics r; agent_metrics := agent_metrics r |}.

Section scoped.
(** A 64-bit hash of the database's identity. *)
Context (scope_fingerprint : str → Z).

Definition agent_key (scope : str) (pid : Z) (nm : str) : Z * Z * str := (scope_fingerprint scope, pid, to_ascii_lowercase nm).

(** ** Projects *)

Definition get_project_scoped (scope sl : str) (now : Z) (r : ReadCache) : option ProjectRow * ReadCache :=
  let '(v, c, m) := lookup_entry PROJECT_TTL now (scope_fingerprint scope, sl) (projects_by_slug r) (project_metrics r) in
  (v, set_slugs c m r).

Definition get_project_by_human_key_scoped (scope hk : str) (now : Z) (r : ReadCache) : option ProjectRow * ReadCache :=
  let '(v, c, m) := lookup_entry PROJECT_TTL now (scope_fingerprint scope, hk) (projects_by_human_key r) (project_metrics r) in
  (v, set_human_keys c m r).

Definition put_project_scoped (scope : str) (p : ProjectRow) (now now' : Z) (r : ReadCache) : ReadCache :=
  let r := set_slugs (insert (scope_fingerprint scope, slug p) (new_entry p now) (projects_by_slug r)) (project_metrics r) r in
  set_human_keys (insert (scope_fingerprint scope, human_key p) (new_entry p now') (projects_by_human_key r)) (project_metrics r) r.

Definition warm_projects_scoped (scope : str) (ps : list ProjectRow) (now : Z) (r : ReadCache) : ReadCache :=
  let fp := scope_fingerprint scope in
  let r := set_slugs (foldl (λ c p, insert (fp, slug p) (new_entry p now) c) (projects_by_slug r) ps) (project_metrics r) r in
  set_human_keys (foldl (λ c p, insert (fp, human_key p) (new_entry p now) c) (projects_by_human_key r) ps) (project_metrics r) r.

(** ** Agents *)

Definition get_agent_scoped (scope : str) (pid : Z) (nm : str) (now : Z) (r : ReadCache) : option AgentRow * ReadCache :=
  let '(v, c, m) := lookup_entry AGENT_TTL now (agent_key scope pid nm) (agents_by_key r) (agent_metrics r) in
  (v, set_keys c m r).

Definition get_agent_by_id_scoped (scope : str) (aid : Z) (now : Z) (r : ReadCache) : option AgentRow * ReadCache :=
  let '(v, c, m) := lookup_entry AGENT_TTL now (scope_fingerprint scope, aid) (agents_by_id r) (agent_metrics r) in
  (v, set_ids c m r).

(** The two inserts of [put_agent_scoped], each under its own lock. *)
Definition put_agent_key (scope : str) (a : AgentRow) (now : Z) (r : ReadCache) : ReadCache :=
  set_keys (insert (agent_key scope (project_id a) (name a)) (new_entry a now) (agents_by_key r)) (agent_metrics r) r.
Definition put_agent_id (scope : str) (a : AgentRow) (now : Z) (r : ReadCache) : ReadCache :=
  match id a with
  | Some i => set_ids (insert (scope_fingerprint scope, i) (new_entry a now) (agents_by_id r)) (agent_metrics r) r
  | None => r
  end.
Definition put_agent_scoped (scope : str) (a : AgentRow) (now now' : Z) (r : ReadCache) : ReadCache :=
  put_agent_id scope a now' (put_agent_key scope a now r).

Definition warm_agents_scoped (scope : str) (ags : list AgentRow) (now : Z) (r : ReadCache) : ReadCache :=
  let r := foldl (λ r a, put_agent_key scope a now r) r ags in
  foldl (λ r a, put_agent_id scope a now r) r ags.

(** [invalidate_agent_scoped]: the key, then the identifiers; the scan of
    all identifiers only when none is given. *)
Definition remove_agent_key (scope : str) (pid : Z) (nm : str) (r : ReadCache) : option Z * ReadCache :=
  let '(e, c) := remove (agent_key scope pid nm) (agents_by_key r) in
  (e ≫= λ e, id (value e), set_keys c (agent_metrics r) r).

Definition same_agent (pid : Z) (nm : str) (a : AgentRow) : bool :=
  (project_id a =? pid) && eq_ignore_ascii_case (name a) nm.

Definition scan_ids (scope : str) (pid : Z) (nm : str) (r : ReadCache) : list Z :=
  omap (λ k : Z * Z,
    if k.1 =? scope_fingerprint scope then
      e ← peek k (agents_by_id r); if same_agent pid nm (value e) then Some k.2 else None
    else None) (elements (keys (agents_by_id r))).

Definition ids_to_remove (aid removed : option Z) (scanned : list Z) : list Z :=
  dedup (merge_sort Z.le (option_list (match aid with Some _ => aid | None => removed end) ++ scanned)).

Definition remove_ids (scope : str) (ids : list Z) (r : ReadCache) : ReadCache :=
  set_ids (foldl (λ c i, (remove (scope_fingerprint scope, i) c).2) (agents_by_id r) ids) (agent_metrics r) r.

Definition invalidate_agent_scoped (scope : str) (pid : Z) (nm : str) (aid : option Z) (r : ReadCache) : ReadCache :=
  let '(removed, r) := remove_agent_key scope pid nm r in
  let scanned := match aid with None => scan_ids scope pid nm r | Some _ => [] end in
  remove_ids scope (ids_to_remove aid removed scanned) r.

(** ** Inbox counters *)

Definition get_inbox_stats_scoped (scope : str) (aid now : Z) (r : ReadCache) : option InboxStatsRow * ReadCache :=
  let '(v, c) := lookup_unsampled INBOX_STATS_TTL now (scope_fingerprint scope, aid) (inbox_stats r) in
  (v, set_stats c r).

Definition put_inbox_stats_scoped (scope : str) (s : InboxStatsRow) (now : Z) (r : ReadCache) : ReadCache :=
  set_stats (insert (scope_fingerprint scope, agent_id s) (new_entry s now) (inbox_stats r)) r.

Definition invalidate_inbox_stats_scoped (scope : str) (aid : Z) (r : ReadCache) : ReadCache :=
  set_stats (remove (scope_fingerprint scope, aid) (inbox_stats r)).2 r.

Definition invalidate_all_inbox_stats_scoped (scope : str) (r : ReadCache) : ReadCache :=
  let to_remove := filter (λ k : Z * Z, k.1 = scope_fingerprint scope) (elements (keys (inbox_stats r))) in
  set_stats (foldl (λ c k, (remove k c).2) (inbox_stats r) to_remove) r.
End scoped.
End ReadCache.
