(* ===== verification/ReadCacheFacts.v ===== *)
(** * What the read cache serves

    The theorems about [ReadCache]: whatever sections of calls interleave, a
    cached row is the last one put under its key and was used within the time
    limit; invalidation removes an agent under every key that leads to it;
    and a row in constant use never expires. *)

From stdpp Require Import base numbers tactics list sorting gmap strings.
From S2P Require Import Prelude S3Fifo S3FifoFacts ReadCache.
Import S3Fifo ReadCache.
Open Scope Z_scope.

(** ** One category under any history *)

Section category.
Context {K : Type} `{Countable K} {T : Type} (ttl : Z).
Abbreviation Cache := (S3FifoCache K (CacheEntry T)).
Implicit Types (c : Cache) (k : K) (e : CacheEntry T).

(** The critical sections that change a cache: [put] and [warm] insert, the
    second phase of a lookup touches, invalidation removes. *)
Inductive Event := EPut k (v : T) (now : Z) | ETouch k (now now' : Z) | ERemove k.

Definition run_event c (ev : Event) : Cache :=
  match ev with
  | EPut k v now => insert k (new_entry v now) c
  | ETouch k now now' => (touch_or_remove ttl now now' k c).2
  | ERemove k => (remove k c).2
  end.

(** The same on a map that forgets nothing by itself. *)
Definition spec_event (m : gmap K (CacheEntry T)) (ev : Event) : gmap K (CacheEntry T) :=
  match ev with
  | EPut k v now => <[k := new_entry v now]> m
  | ETouch k now now' => partial_alter (λ o, e ← o; if is_expired ttl now e then None else Some (touch now' e)) k m
  | ERemove k => delete k m
  end.

Definition run_events (evs : list Event) c : Cache := foldl run_event c evs.
Definition spec_events (evs : list Event) : gmap K (CacheEntry T) := foldl spec_event ∅ evs.

Lemma touch_or_remove_result now now' k c :
  wf c →
  let '(r, c') := touch_or_remove ttl now now' k c in
  wf c' ∧ (∀ κ, cap κ c' = cap κ c) ∧ (∀ k', k' ≠ k → peek k' c' = peek k' c) ∧
  match peek k c with
  | None => r = None ∧ peek k c' = None
  | Some e => if is_expired ttl now e then r = Some true ∧ peek k c' = None else r = Some false ∧ peek k c' = Some (touch now' e)
  end.
Proof.
  intros Hwf. unfold touch_or_remove. set (f := λ e, _).
  pose proof (get_mut_result k f c Hwf) as Hg. destruct (get_mut k f c) as [o c1].
  destruct Hg as (Hwf1 & Hc1 & -> & Hp). destruct (peek k c) as [e|] eqn:Hk.
  - destruct (is_expired ttl now e) eqn:He.
    + pose proof (remove_result k c1 Hwf1) as Hr. destruct (remove k c1) as [o c2]. simpl.
      destruct Hr as (? & Hc2 & _ & Hn & Ho). split_and!; [done| |intros k' Hne|done|done].
      * intros κ. by rewrite Hc2.
      * by rewrite Ho, Hp, decide_False.
    + split_and!; [done|done|intros k' Hne; by rewrite Hp, decide_False|done|].
      rewrite Hp, decide_True, Hk by done. simpl. unfold f. by rewrite He.
  - split_and!; [done|done|intros k' Hne; by rewrite Hp, decide_False|done|]. by rewrite Hp, decide_True, Hk.
Qed.

Lemma event_result ev c m :
  wf c → agrees c m → wf (run_event c ev) ∧ (∀ κ, cap κ (run_event c ev) = cap κ c) ∧ agrees (run_event c ev) (spec_event m ev).
Proof.
  intros Hwf Ha. destruct ev as [k v now|k now now'|k]; simpl.
  - apply (op_result (OInsert k (new_entry v now)) c m Hwf Ha).
  - pose proof (touch_or_remove_result now now' k c Hwf) as Ht. destruct (touch_or_remove _ _ _ _ _) as [r c']. simpl.
    destruct Ht as (? & ? & Ho & Hk). split_and!; [done|done|]. intros k' e'. destruct (decide (k' = k)) as [->|Hne].
    + intros Hp. rewrite lookup_partial_alter_eq. destruct (peek k c) as [e|] eqn:He.
      * rewrite (Ha k e He). simpl. destruct (is_expired ttl now e); destruct Hk as [_ Hk]; congruence.
      * destruct Hk; congruence.
    + rewrite Ho, lookup_partial_alter_ne by done. apply Ha.
  - apply (op_result (ORemove k) c m Hwf Ha).
Qed.

Lemma events_result evs c m :
  wf c → agrees c m →
  wf (run_events evs c) ∧ (∀ κ, cap κ (run_events evs c) = cap κ c) ∧ agrees (run_events evs c) (foldl spec_event m evs).
Proof.
  revert c m. induction evs as [|ev evs IH]; intros c m Hwf Ha; simpl; [done|].
  destruct (event_result ev c m Hwf Ha) as (Hwf1 & Hc1 & Ha1). destruct (IH _ _ Hwf1 Ha1) as (? & Hc & ?).
  split_and!; [done| |done]. intros κ. by rewrite Hc, Hc1.
Qed.

(** *** What the map holds, read off the history *)

(** The row last put under a key and not removed since. *)
Definition last_put k (evs : list Event) : option T :=
  foldl (λ o ev, match ev with
    | EPut k' v _ => if decide (k' = k) then Some v else o
    | ERemove k' => if decide (k' = k) then None else o
    | ETouch _ _ _ => o end) None evs.

(** The key was put or used at a time. *)
Definition used_at k (t : Z) (evs : list Event) : Prop :=
  (∃ v, EPut k v t ∈ evs) ∨ ∃ now, ETouch k now t ∈ evs.

Lemma spec_events_snoc evs ev : spec_events (evs ++ [ev]) = spec_event (spec_events evs) ev.
Proof. unfold spec_events. by rewrite foldl_app. Qed.

Lemma used_at_snoc k t evs ev : used_at k t evs → used_at k t (evs ++ [ev]).
Proof. intros [[v Hv]|[n Hn]]; [left|right]; eexists; apply elem_of_app; by left. Qed.

Lemma spec_events_last k evs e :
  spec_events evs !! k = Some e → last_put k evs = Some (value e) ∧ used_at k (last_accessed e) evs.
Proof.
  revert e. induction evs as [|ev evs IH] using rev_ind; intros e; [done|]. rewrite spec_events_snoc.
  unfold last_put. rewrite foldl_app. fold (last_put k evs). simpl. destruct ev as [k' v now|k' now now'|k']; simpl.
  - destruct (decide (k' = k)) as [->|Hne].
    + rewrite lookup_insert_eq. intros [= <-]. split; [done|]. left. exists v. apply elem_of_app. right. left.
    + rewrite lookup_insert_ne by done. intros [? ?]%IH. split; [done|by apply used_at_snoc].
  - destruct (decide (k' = k)) as [->|Hne].
    + rewrite lookup_partial_alter_eq. intros (e0 & He0 & He)%bind_Some. destruct (IH e0 He0) as [Hl Hu].
      destruct (is_expired ttl now e0); [done|]. injection He as <-. split; [done|]. right. exists now. apply elem_of_app. right. left.
    + rewrite lookup_partial_alter_ne by done. intros [? ?]%IH. split; [done|by apply used_at_snoc].
  - destruct (decide (k' = k)) as [->|Hne].
    + by rewrite lookup_delete_eq.
    + rewrite lookup_delete_ne by done. intros [? ?]%IH. split; [done|by apply used_at_snoc].
Qed.

Lemma peek_entry_fresh now k c v : peek_entry ttl now k c = Fresh v → ∃ e, peek k c = Some e ∧ value e = v ∧ is_expired ttl now e = false.
Proof. unfold peek_entry. destruct (peek k c) as [e|]; [|done]. destruct (is_expired ttl now e) eqn:He; [done|]. intros [= <-]. by exists e. Qed.

Lemma not_expired now e : 0 ≤ ttl → is_expired ttl now e = false → now - last_accessed e ≤ 2 * ttl.
Proof. unfold is_expired, effective_ttl. intros ? Hx%Z.ltb_ge. destruct (_ <=? _); lia. Qed.

(** How long an entry used [n] times is good for. *)
Definition allowance (n : Z) : Z := if 5 <=? n then 2 * ttl else ttl.

(** What the history leaves of a key where nothing is evicted: the row last
    put, when it was last put or used while it was good, and how often it was
    used; a use that comes too late drops it. *)
Definition kept k (evs : list Event) : option (T * Z * Z) :=
  foldl (λ o ev, match ev with
    | EPut k' v now => if decide (k' = k) then Some (v, now, 0) else o
    | ERemove k' => if decide (k' = k) then None else o
    | ETouch k' now now' =>
        if decide (k' = k) then
          '(v, t, n) ← o; if allowance n <? now - t then None else Some (v, now', Z.min u32_max (n + 1))
        else o
    end) None evs.

Lemma expired_allowance now e : 0 ≤ ttl → is_expired ttl now e = (allowance (access_count e) <? now - last_accessed e).
Proof.
  intros Ht. unfold is_expired, effective_ttl, allowance, ADAPTIVE_TTL_THRESHOLD.
  destruct (5 <=? access_count e); destruct (Z.ltb_spec (ttl * 2) (Z.max 0 (now - last_accessed e))), (Z.ltb_spec (2 * ttl) (now - last_accessed e)),
    (Z.ltb_spec ttl (Z.max 0 (now - last_accessed e))), (Z.ltb_spec ttl (now - last_accessed e)); try done; lia.
Qed.

Lemma kept_spec k evs : 0 ≤ ttl → kept k evs = (λ e, (value e, last_accessed e, access_count e)) <$> spec_events evs !! k.
Proof.
  intros Ht. induction evs as [|ev evs IH] using rev_ind; [done|]. rewrite spec_events_snoc.
  unfold kept. rewrite foldl_app. fold (kept k evs). simpl. rewrite IH. destruct ev as [k' v now|k' now now'|k']; simpl.
  - destruct (decide (k' = k)) as [->|Hne]; [by rewrite lookup_insert_eq|by rewrite lookup_insert_ne].
  - destruct (decide (k' = k)) as [->|Hne]; [|by rewrite lookup_partial_alter_ne].
    rewrite lookup_partial_alter_eq. destruct (spec_events evs !! k) as [e|]; [|done]. simpl.
    rewrite expired_allowance by done. by destruct (_ <? _).
  - destruct (decide (k' = k)) as [->|Hne]; [by rewrite lookup_delete_eq|by rewrite lookup_delete_ne].
Qed.

(** A row is served: by the first phase of a lookup, by the second, by the
    lookup of counters, or by one that nothing interrupts. *)
Definition served (now now' : Z) k c (m : Metrics) (v : T) : Prop :=
  (lookup_fast ttl now k c m).1.1 = Some (Some v) ∨ (lookup_slow ttl now now' k c m).1.1 = Some v ∨
  (lookup_unsampled ttl now k c).1 = Some v ∨ (lookup_entry ttl now k c m).1.1 = Some v.

(** What the second phase does to the entry it finds. *)
Lemma lookup_slow_result now now' k c m :
  wf c →
  let r := lookup_slow ttl now now' k c m in
  match peek k c with
  | None => r.1.1 = None ∧ peek k r.1.2 = None
  | Some e => if is_expired ttl now e then r.1.1 = None ∧ peek k r.1.2 = None else r.1.1 = Some (value e)
  end.
Proof.
  intros Hwf. unfold lookup_slow. pose proof (touch_or_remove_result now now' k c Hwf) as Hr.
  destruct (touch_or_remove _ _ _ _ _) as [r c']. destruct Hr as (_ & _ & _ & Hr).
  destruct (peek k c) as [e|]; [destruct (is_expired ttl now e)|]; destruct Hr as [-> Hp]; simpl; [done| |done].
  by rewrite Hp.
Qed.

Lemma served_live now now' k c m v :
  wf c → served now now' k c m v → ∃ e, peek k c = Some e ∧ value e = v ∧ is_expired ttl now e = false.
Proof.
  intros Hwf. pose proof (lookup_slow_result now now' k c m Hwf) as Hs. pose proof (lookup_slow_result now now k c m Hwf) as Hs'.
  unfold served, lookup_entry, lookup_unsampled, lookup_fast, peek_entry. cbv zeta in *.
  assert (∀ r, (lookup_slow ttl now now k c m).1.1 = r →
    match touch_or_remove ttl now now k c with (Some false, c) => (value <$> peek k c, c) | (_, c) => (None, c) end.1 = r) as Hun.
  { intros r. unfold lookup_slow. by destruct (touch_or_remove _ _ _ _ _) as [[[]|] c']. }
  destruct (peek k c) as [e|]; [|destruct Hs, Hs'; naive_solver].
  destruct (is_expired ttl now e) eqn:He.
  - destruct Hs as [-> _], Hs' as [Hs' _]. rewrite (Hun _ Hs'), Hs'. naive_solver.
  - rewrite Hs. exists e. split_and!; [done| |done]. by destruct (sampled m); naive_solver.
Qed.

(** C36: A lookup serves the last row put, and only while it is good.  Whatever
    critical sections of any callers came before, a row that any phase of a
    lookup serves is the one last put under the key and not removed since, and
    by the clock the phase reads it was put, or used while it was good, no
    longer ago than the time limit, twice the limit after five uses; the second
    phase drops an entry that is too old instead of serving it; and the cache
    holds no more entries than its capacity. *)
Theorem lookup_serves_last_put z c0 evs now now' k v (m : Metrics) :
  new z = Some c0 → z ≤ u64_max → 0 ≤ ttl →
  let c := run_events evs c0 in
  (served now now' k c m v →
   last_put k evs = Some v ∧ ∃ t n, kept k evs = Some (v, t, n) ∧ used_at k t evs ∧ now - t ≤ allowance n) ∧
  (∀ t n, kept k evs = Some (v, t, n) → allowance n < now - t →
   (lookup_slow ttl now now' k c m).1.1 = None ∧ peek k (lookup_slow ttl now now' k c m).1.2 = None) ∧
  len c ≤ z.
Proof.
  intros Hnew Hz Httl c. destruct (new_wf z c0 Hnew Hz) as (Hwf & Hcap & He).
  destruct (events_result evs c0 ∅ Hwf) as (Hwf' & Hc & Ha).
  { intros k' v'. unfold peek. by rewrite He, lookup_empty. }
  fold c in Hwf', Hc, Ha. split_and!.
  - intros (e & Hp & <- & Hx)%served_live; [|done]. apply Ha in Hp. destruct (spec_events_last k evs e Hp) as [Hlast Hu].
    split; [done|]. exists (last_accessed e), (access_count e). rewrite kept_spec by done.
    fold (spec_events evs) in Hp. rewrite Hp. split_and!; [done|done|]. rewrite expired_allowance in Hx by done. by apply Z.ltb_ge.
  - intros t n Hk Hx. rewrite kept_spec in Hk by done.
    pose proof (lookup_slow_result now now' k c m Hwf') as Hs. cbv zeta in Hs.
    destruct (peek k c) as [e|] eqn:Hp.
    + apply Ha in Hp. fold (spec_events evs) in Hp. rewrite Hp in Hk. injection Hk as _ <- <-.
      rewrite expired_allowance, (proj2 (Z.ltb_lt _ _)) in Hs by done. exact Hs.
    + exact Hs.
  - destruct Hwf' as [Hi _]. unfold len. pose proof (inv_le _ _ Hi KSmall) as H1. pose proof (inv_le _ _ Hi KMain) as H2.
    destruct (inv_caps _ _ Hi) as (_ & _ & Hg & _). pose proof (Hc KGhost) as Hg'. rewrite Hcap in Hg'. simpl in *. lia.
Qed.

(** *** The limit slides *)

(** The touches of a reader that comes back every [d]. *)
Fixpoint touches k (t d : Z) (n : nat) c : Cache :=
  match n with O => c | S n => touches k (t + d) d n (run_event c (ETouch k (t + d) (t + d))) end.

Lemma touches_live k t d n c v :
  wf c → 0 ≤ d ≤ ttl → (∃ e, peek k c = Some e ∧ value e = v ∧ last_accessed e = t) →
  ∃ e, peek k (touches k t d n c) = Some e ∧ value e = v ∧ last_accessed e = t + Z.of_nat n * d.
Proof.
  intros Hwf Hd. revert t c Hwf. induction n as [|n IH]; intros t c Hwf (e & He & Hv & Ht); cbn [touches].
  - exists e. split_and!; [done|done|lia].
  - destruct (IH (t + d) (run_event c (ETouch k (t + d) (t + d)))) as (e' & ? & ? & ?); [| |exists e'; split_and!; [done|done|lia]].
    + simpl. pose proof (touch_or_remove_result (t + d) (t + d) k c Hwf) as Hr. destruct (touch_or_remove _ _ _ _ _). by destruct Hr.
    + simpl. pose proof (touch_or_remove_result (t + d) (t + d) k c Hwf) as Hr. destruct (touch_or_remove _ _ _ _ _) as [r c'].
      destruct Hr as (_ & _ & _ & Hk). rewrite He in Hk.
      assert (is_expired ttl (t + d) e = false) as Hx.
      { unfold is_expired, effective_ttl. apply Z.ltb_ge. destruct (_ <=? _); lia. }
      rewrite Hx in Hk. destruct Hk as [_ Hk]. simpl. exists (touch (t + d) e). by rewrite Hk.
Qed.

(** A row in use never expires.  Put once and used at intervals within
    the time limit, it is served after any number of them, however long ago it
    was read from the database. *)
Theorem hot_row_never_expires z c0 k v t d n :
  new z = Some c0 → z ≤ u64_max → 0 ≤ d ≤ ttl →
  peek_entry ttl (t + Z.of_nat n * d + d) k (touches k t d n (insert k (new_entry v t) c0)) = Fresh v.
Proof.
  intros Hnew Hz Hd. destruct (new_wf z c0 Hnew Hz) as (Hwf & _ & He).
  destruct (insert_result k (new_entry v t) c0 Hwf) as (Hwf' & _ & _ & Hi). rewrite He, lookup_empty in Hi.
  destruct (touches_live k t d n (insert k (new_entry v t) c0) v Hwf' Hd) as (e & Hp & <- & Hl).
  { exists (new_entry v t). unfold peek. by rewrite Hi. }
  unfold peek_entry. rewrite Hp. assert (is_expired ttl (t + Z.of_nat n * d + d) e = false) as ->; [|done].
  unfold is_expired, effective_ttl. apply Z.ltb_ge. destruct (_ <=? _); lia.
Qed.
End category.

(** ** Invalidation *)

Section removes.
Context {K : Type} `{Countable K} {V : Type}.
Implicit Types c : S3FifoCache K V.

Lemma removes_result ks c :
  wf c → let c' := foldl (λ c k, (remove k c).2) c ks in
  wf c' ∧ ∀ k, peek k c' = if decide (k ∈ ks) then None else peek k c.
Proof.
  revert c. induction ks as [|k0 ks IH]; intros c Hwf; cbn [foldl].
  - split; [done|]. intros k. rewrite decide_False; [done|apply not_elem_of_nil].
  - pose proof (remove_result k0 c Hwf) as Hr. destruct (remove k0 c) as [o c1]. destruct Hr as (Hwf1 & _ & _ & Hn & Ho). cbn [snd].
    destruct (IH c1 Hwf1) as [Hwf2 Hp]. split; [done|]. intros k. rewrite Hp.
    destruct (decide (k ∈ ks)) as [|Hk]; [by rewrite decide_True by (by right)|].
    destruct (decide (k = k0)) as [->|Hne]; [by rewrite decide_True by left|].
    rewrite decide_False; [by apply Ho|]. by intros [?|?]%elem_of_cons.
Qed.

Lemma keys_peek k c : k ∈ keys c ↔ is_Some (peek k c).
Proof.
  unfold keys, peek. rewrite elem_of_dom. unfold is_Some. setoid_rewrite map_lookup_filter_Some. split.
  - intros (n & -> & Hv). destruct n; try done; by eexists.
  - intros [v Hv]. destruct (index c !! k) as [[]|] eqn:Hk; try done; eexists; (split; [done|done]).
Qed.
End removes.

Section agents.
Context (scope_fingerprint : str → Z).
Abbreviation fp := scope_fingerprint.

(** The caches of agents are well formed. *)
Definition agents_wf (r : ReadCache) : Prop := wf (agents_by_key r) ∧ wf (agents_by_id r).

(** The two ways to find an agent's row. *)
Definition by_key (scope : str) (pid : Z) (nm : str) (r : ReadCache) : option AgentRow :=
  value <$> peek (agent_key fp scope pid nm) (agents_by_key r).
Definition by_id (scope : str) (i : Z) (r : ReadCache) : option AgentRow := value <$> peek (fp scope, i) (agents_by_id r).

Lemma ids_to_remove_elem aid removed scanned i :
  i ∈ ids_to_remove aid removed scanned ↔ (match aid with Some _ => aid | None => removed end) = Some i ∨ i ∈ scanned.
Proof.
  unfold ids_to_remove. rewrite elem_of_dedup, merge_sort_Permutation, elem_of_app.
  destruct (match aid with Some _ => aid | None => removed end) as [j|]; simpl; rewrite ?elem_of_cons, ?elem_of_nil; naive_solver.
Qed.

Lemma scan_ids_elem scope pid nm r i :
  i ∈ scan_ids fp scope pid nm r ↔ ∃ e, peek (fp scope, i) (agents_by_id r) = Some e ∧ same_agent pid nm (value e) = true.
Proof.
  unfold scan_ids. rewrite list_elem_of_omap. split.
  - intros ([f j] & Hk & Hs). simpl in Hs. destruct (Z.eqb_spec f (fp scope)) as [->|]; [|done].
    destruct (peek (fp scope, j) (agents_by_id r)) as [e|] eqn:He; [|done]. simpl in Hs.
    destruct (same_agent pid nm (value e)) eqn:Hsame; [|done]. injection Hs as ->. by exists e.
  - intros (e & He & Hs). exists (fp scope, i). split.
    + apply elem_of_elements, keys_peek. by eexists.
    + simpl. by rewrite Z.eqb_refl, He; simpl; rewrite Hs.
Qed.

(** Invalidation forgets an agent.  Afterwards the agent is not found
    by its name in any capitalisation, nor by the identifier given; when none
    is given, neither by the identifier of the forgotten entry nor by any whose
    row is of the same project and name.  Everything else stays as it was,
    scopes with other fingerprints included. *)
Theorem invalidate_agent_complete scope pid nm aid r :
  agents_wf r →
  let r' := invalidate_agent_scoped fp scope pid nm aid r in
  agents_wf r' ∧
  (∀ nm', eq_ignore_ascii_case nm' nm = true → by_key scope pid nm' r' = None) ∧
  (∀ i, aid = Some i ∨ aid = None ∧ by_key scope pid nm r ≫= id = Some i → by_id scope i r' = None) ∧
  (aid = None → ∀ i a, by_id scope i r' = Some a → same_agent pid nm a = false) ∧
  (∀ sc p n, agent_key fp sc p n ≠ agent_key fp scope pid nm → by_key sc p n r' = by_key sc p n r) ∧
  (∀ sc i, fp sc ≠ fp scope → by_id sc i r' = by_id sc i r).
Proof.
  intros [Hk Hi]. unfold invalidate_agent_scoped, remove_agent_key.
  pose proof (remove_result (agent_key fp scope pid nm) (agents_by_key r) Hk) as Hr.
  destruct (remove _ (agents_by_key r)) as [o c1]. destruct Hr as (Hwf1 & _ & -> & Hn & Ho).
  set (removed := _ ≫= _). set (r1 := set_keys c1 _ r). set (scanned := match aid with None => _ | Some _ => [] end).
  set (ids := ids_to_remove aid removed scanned).
  destruct (removes_result ((λ i, (fp scope, i)) <$> ids) (agents_by_id r1) Hi) as [Hwf2 Hp]. rewrite foldl_fmap in Hwf2, Hp.
  assert (∀ i, i ∈ ids → by_id scope i (remove_ids fp scope ids r1) = None) as Hgone.
  { intros i Hin. unfold by_id, remove_ids. simpl. rewrite Hp, decide_True; [done|]. apply list_elem_of_fmap. by exists i. }
  split_and!.
  - done.
  - intros nm' Hnm. unfold by_key. simpl. assert (agent_key fp scope pid nm' = agent_key fp scope pid nm) as ->; [|by rewrite Hn].
    unfold agent_key. f_equal. by apply bool_decide_eq_true in Hnm.
  - intros i Hid. apply Hgone, ids_to_remove_elem. left. destruct Hid as [->|[-> Hid]]; [done|]. unfold removed.
    unfold by_key in Hid. by destruct (peek _ (agents_by_key r)).
  - intros -> i a Ha. apply not_true_iff_false. intros Hs.
    assert (i ∈ ids) as Hin; [|by rewrite (Hgone i Hin) in Ha].
    apply ids_to_remove_elem. right. unfold scanned. apply scan_ids_elem. unfold by_id, remove_ids in Ha. simpl in Ha.
    rewrite Hp in Ha. case_decide; [done|]. apply fmap_Some in Ha as (e & He & ->). by exists e.
  - intros sc p n Hne. unfold by_key. simpl. by rewrite Ho.
  - intros sc i Hne. unfold by_id, remove_ids. simpl. rewrite Hp, decide_False; [done|].
    intros (j & [= ? ->] & _)%list_elem_of_fmap. congruence.
Qed.
End agents.

(** ** Runs *)

Module CacheRuns.

Definition fingerprint (s : str) : Z := Zpos (encode s).
Definition scope : str := lit "storage.sqlite3".

(** A small cache of one category and one of all. *)
Definition small : option (S3FifoCache Z (CacheEntry Z)) := new 4.
Definition no_metrics : Metrics := {| hits := 3; misses := 0 |}.

(** Put, replaced, used, and another row removed. *)
Definition history : list (Event (K := Z) (T := Z)) :=
  [EPut 7 70 0; EPut 8 80 1; EPut 7 71 2; ETouch 7 20 21; ERemove 8].

Definition blue_lake : AgentRow :=
  {| id := Some 5; project_id := 1; name := lit "BlueLake"; program := lit "cli"; model := lit "m"; task_description := [];
     inception_ts := 0; last_active_ts := 0; attachments_policy := lit "auto"; contact_policy := lit "open"; reaper_exempt := 0;
     registration_token := None |}.

Definition cached : option ReadCache :=
  c ← with_capacity 8; Some (put_agent_scoped fingerprint scope blue_lake 0 0 c).

Lemma with_capacity_wf z c : with_capacity z = Some c → z ≤ u64_max → agents_wf c.
Proof.
  unfold with_capacity. intros (c1 & _ & (c2 & _ & (c3 & H3 & (c4 & H4 & (c5 & _ & [= <-])%bind_Some)%bind_Some)%bind_Some)%bind_Some)%bind_Some Hz.
  split; simpl; by eapply new_wf.
Qed.

Lemma cached_wf c : cached = Some c → agents_wf c.
Proof.
  intros (c0 & Hc & [= <-])%bind_Some. destruct (with_capacity_wf 8 c0 Hc) as [Hk Hi]; [by vm_compute|].
  unfold put_agent_scoped, put_agent_id, put_agent_key. simpl. split; simpl; by apply insert_result.
Qed.

Lemma cached_view : by_key fingerprint scope 1 (lit "bluelake") <$> cached = Some (Some blue_lake).
Proof. vm_compute; reflexivity. Qed.

Example lookup_serves_last_put_witness :
  ∃ c0, small = Some c0 ∧ served 100 40 41 7 (run_events 100 history c0) no_metrics 71 ∧
    last_put 7 history = Some 71 ∧ (∃ t n, kept 100 7 history = Some (71, t, n) ∧ used_at 7 t history ∧ 40 - t ≤ allowance 100 n) ∧
    peek 7 (lookup_slow 100 200 201 7 (run_events 100 history c0) no_metrics).1.2 = None ∧ len (run_events 100 history c0) ≤ 4.
Proof.
  destruct small as [c0|] eqn:Hs; [|by vm_compute in Hs]. exists c0. split; [done|].
  assert (served 100 40 41 7 (run_events 100 history c0) no_metrics 71) as Hl.
  { right. left. vm_compute in Hs. injection Hs as <-. by vm_compute. }
  split; [exact Hl|].
  destruct (lookup_serves_last_put 100 4 c0 history 40 41 7 71 no_metrics Hs ltac:(by vm_compute) ltac:(lia)) as (H1 & _ & H3).
  destruct (H1 Hl) as [H4 H5]. split; [exact H4|]. split; [exact H5|].
  destruct (lookup_serves_last_put 100 4 c0 history 200 201 7 71 no_metrics Hs ltac:(by vm_compute) ltac:(lia)) as (_ & H2 & _).
  split; [|exact H3]. apply (H2 21 1); [by vm_compute|by vm_compute].
Defined.

Example hot_row_never_expires_witness :
  ∃ c0, small = Some c0 ∧ peek_entry 100 1000 7 (touches 100 7 0 100 9 (insert 7 (new_entry 70 0) c0)) = Fresh 70.
Proof.
  destruct small as [c0|] eqn:Hs; [|by vm_compute in Hs]. exists c0. split; [done|].
  apply (hot_row_never_expires 100 4 c0 7 70 0 100 9 Hs); [by vm_compute|lia].
Defined.

Example invalidate_agent_complete_witness :
  ∃ c, cached = Some c ∧ by_key fingerprint scope 1 (lit "bluelake") c = Some blue_lake ∧
    by_key fingerprint scope 1 (lit "BLUELAKE") (invalidate_agent_scoped fingerprint scope 1 (lit "bluelake") None c) = None ∧
    by_id fingerprint scope 5 (invalidate_agent_scoped fingerprint scope 1 (lit "bluelake") None c) = None.
Proof.
  destruct cached as [c|] eqn:Hs; [|exfalso; pose proof cached_view as Hb; by rewrite Hs in Hb]. exists c. split; [done|].
  pose proof cached_view as Hb. rewrite Hs in Hb. injection Hb as Hb. split; [exact Hb|]. destruct (invalidate_agent_complete fingerprint scope 1 (lit "bluelake") None c (cached_wf c Hs)) as (_ & Hn & Hi & _).
  split; [by apply Hn|]. apply Hi. right. split; [done|]. by rewrite Hb.
Defined.
End CacheRuns.
