(* ===== verification/AgentLookup.v ===== *)
(** * Agents through the read cache ([get_agent], [get_agent_by_id],
      [set_agent_contact_policy], [set_agent_contact_policy_by_name] and the
      removal of an agent, [mcp-agent-mail-db/src/queries.rs])

    The table of agents and the cache in front of it, with any number of calls
    interleaved at the locks of the cache and at their statements.  A
    transaction is one step (see [Transactions]); whether a query or a
    transaction succeeds is up to the world.  One database, hence one scope of
    the cache, is modelled. *)

From stdpp Require Import base numbers tactics list gmap strings.
From S2P Require Import Prelude S3Fifo S3FifoFacts ReadCache ReadCacheFacts.
Import S3Fifo ReadCache.
Open Scope Z_scope.

Module AgentLookup.

Inductive Request :=
  | ByName (pid : Z) (nm : str)
  | ById (i : Z)
  | SetPolicy (i : Z) (policy : str)
  | SetPolicyByName (pid : Z) (nm policy : str)
  | Remove (i pid : Z) (nm : str).

(** Where a call is.  [Answered]: the row it returned, or none. *)
Inductive Phase :=
  | Fast
  | Maintain (a : AgentRow)
  | Slow
  | Statement
  | PutKey (a : AgentRow)
  | PutId (a : AgentRow)
  | ForgetKey
  | ForgetIds (removed : option Z)
  | Answered (a : option AgentRow).

(** [versions]: the rows the table ever held, for the statements. *)
Record Sys := {
  table : list AgentRow;
  cache : ReadCache;
  threads : gmap nat (Request * Phase);
  versions : list AgentRow;
}.

Record World := { instant : Z; later : Z; micros : Z; succeeds : bool }.

Definition set_thread (t : nat) (p : Request * Phase) (s : Sys) : Sys :=
  {| table := table s; cache := cache s; threads := <[t := p]> (threads s); versions := versions s |}.
Definition set_cache (c : ReadCache) (s : Sys) : Sys :=
  {| table := table s; cache := c; threads := threads s; versions := versions s |}.
Definition set_table (tb : list AgentRow) (s : Sys) : Sys :=
  {| table := tb; cache := cache s; threads := threads s; versions := versions s ++ tb |}.

(** ** Statements *)

Definition named (pid : Z) (nm : str) (a : AgentRow) : bool := (project_id a =? pid) && eq_ignore_ascii_case (name a) nm.
Definition has_id (i : Z) (a : AgentRow) : bool := bool_decide (id a = Some i).

(** [SELECT ... COLLATE NOCASE ORDER BY id ASC LIMIT 1]; the table is in the
    order of its identifiers. *)
Definition select_by_name (pid : Z) (nm : str) (tb : list AgentRow) : option AgentRow :=
  head (filter (λ a, named pid nm a = true) tb).
Definition select_by_id (i : Z) (tb : list AgentRow) : option AgentRow := head (filter (λ a, has_id i a = true) tb).

(** [ORDER BY last_active_ts DESC, id DESC LIMIT 1]. *)
Definition select_active (pid : Z) (nm : str) (tb : list AgentRow) : option AgentRow :=
  foldl (λ best a, match best with
    | Some b => if last_active_ts b <=? last_active_ts a then Some a else Some b
    | None => Some a end) None (filter (λ a, named pid nm a = true) tb).

Definition with_policy (policy : str) (now : Z) (a : AgentRow) : AgentRow :=
  {| id := id a; project_id := project_id a; name := name a; program := program a; model := model a;
     task_description := task_description a; inception_ts := inception_ts a; last_active_ts := now;
     attachments_policy := attachments_policy a; contact_policy := policy; reaper_exempt := reaper_exempt a;
     registration_token := registration_token a |}.

Definition update_policy (i : Z) (policy : str) (now : Z) (tb : list AgentRow) : list AgentRow :=
  (λ a, if has_id i a then with_policy policy now a else a) <$> tb.

(** The transaction of [set_agent_contact_policy]: the row it returns and the
    table it commits; without a row it rolls back. *)
Definition set_policy_tx (i : Z) (policy : str) (now : Z) (tb : list AgentRow) : option AgentRow * list AgentRow :=
  let tb' := update_policy i policy now tb in
  match select_by_id i tb' with Some a => (Some a, tb') | None => (None, tb) end.

(** The same for [set_agent_contact_policy_by_name]. *)
Definition set_policy_by_name_tx (pid : Z) (nm policy : str) (now : Z) (tb : list AgentRow) : option AgentRow * list AgentRow :=
  match trim nm with
  | [] => (None, tb)
  | nm =>
      match select_active pid nm tb ≫= id with
      | Some i => set_policy_tx i policy now tb
      | None => (None, tb)
      end
  end.

Section lookup.
Context (scope_fingerprint : str → Z) (scope : str).
Abbreviation fp := (scope_fingerprint scope).

(** ** The phases of a call *)

(** The first phase of [get_agent_scoped] and [get_agent_by_id_scoped]. *)
Definition after_fast {T} (r : option (option AgentRow) * bool * T) : Phase :=
  match r.1 with
  | (Some (Some a), true) => Maintain a
  | (Some (Some a), false) => Answered (Some a)
  | (Some None, _) => Statement
  | (None, _) => Slow
  end.
Definition after_slow (r : option AgentRow) : Phase := match r with Some a => Answered (Some a) | None => Statement end.
Definition after_select (r : option AgentRow) : Phase := match r with Some a => PutKey a | None => Answered None end.

Definition advance (t : nat) (x : World) (q : Request) (p : Phase) (s : Sys) : option Sys :=
  let c := cache s in
  let to p := set_thread t (q, p) in
  match p, q with
  | Fast, ByName pid nm =>
      let r := lookup_fast AGENT_TTL (instant x) (agent_key scope_fingerprint scope pid nm) (agents_by_key c) (agent_metrics c) in
      Some (to (after_fast r) (set_cache (set_keys (agents_by_key c) r.2 c) s))
  | Fast, ById i =>
      let r := lookup_fast AGENT_TTL (instant x) (fp, i) (agents_by_id c) (agent_metrics c) in
      Some (to (after_fast r) (set_cache (set_ids (agents_by_id c) r.2 c) s))
  | Fast, _ => Some (to Statement s)
  | Maintain a, ByName pid nm =>
      let k := maintain AGENT_TTL (instant x) (later x) (agent_key scope_fingerprint scope pid nm) (agents_by_key c) in
      Some (to (Answered (Some a)) (set_cache (set_keys k (agent_metrics c) c) s))
  | Maintain a, ById i =>
      let k := maintain AGENT_TTL (instant x) (later x) (fp, i) (agents_by_id c) in
      Some (to (Answered (Some a)) (set_cache (set_ids k (agent_metrics c) c) s))
  | Slow, ByName pid nm =>
      let '(r, k, m) := lookup_slow AGENT_TTL (instant x) (later x) (agent_key scope_fingerprint scope pid nm) (agents_by_key c) (agent_metrics c) in
      Some (to (after_slow r) (set_cache (set_keys k m c) s))
  | Slow, ById i =>
      let '(r, k, m) := lookup_slow AGENT_TTL (instant x) (later x) (fp, i) (agents_by_id c) (agent_metrics c) in
      Some (to (after_slow r) (set_cache (set_ids k m c) s))
  | Statement, ByName pid nm => Some (to (if succeeds x then after_select (select_by_name pid nm (table s)) else Answered None) s)
  | Statement, ById i => Some (to (if succeeds x then after_select (select_by_id i (table s)) else Answered None) s)
  | Statement, SetPolicy i policy =>
      let '(r, tb) := set_policy_tx i policy (micros x) (table s) in
      Some (if succeeds x then to (after_select r) (set_table tb s) else to (Answered None) s)
  | Statement, SetPolicyByName pid nm policy =>
      let '(r, tb) := set_policy_by_name_tx pid nm policy (micros x) (table s) in
      Some (if succeeds x then to (after_select r) (set_table tb s) else to (Answered None) s)
  | Statement, Remove i pid nm =>
      Some (if succeeds x then to ForgetKey (set_table (filter (λ a, ¬ (id a = Some i ∧ project_id a = pid)) (table s)) s)
            else to (Answered None) s)
  | PutKey a, _ => Some (to (PutId a) (set_cache (put_agent_key scope_fingerprint scope a (instant x) c) s))
  | PutId a, _ => Some (to (Answered (Some a)) (set_cache (put_agent_id scope_fingerprint scope a (instant x) c) s))
  | ForgetKey, Remove i pid nm =>
      let '(removed, c) := remove_agent_key scope_fingerprint scope pid nm c in
      Some (to (ForgetIds removed) (set_cache c s))
  | ForgetIds removed, Remove i _ _ =>
      Some (to (Answered None) (set_cache (remove_ids scope_fingerprint scope (ids_to_remove (Some i) removed []) c) s))
  | _, _ => None
  end.

(** [get_agent_by_id], when nothing interrupts it. *)
Definition get_agent_by_id (succeeds : bool) (i now : Z) (tb : list AgentRow) (c : ReadCache) : option AgentRow * ReadCache :=
  match get_agent_by_id_scoped scope_fingerprint scope i now c with
  | (Some a, c) => (Some a, c)
  | (None, c) =>
      match (if succeeds then select_by_id i tb else None) with
      | Some a => (Some a, put_agent_scoped scope_fingerprint scope a now now c)
      | None => (None, c)
      end
  end.

Inductive Label := LCall (t : nat) (q : Request) | LStep (t : nat) (x : World).

Definition run_label (l : Label) (s : Sys) : option Sys :=
  match l with
  | LCall t q => match threads s !! t with None => Some (set_thread t (q, Fast) s) | Some _ => None end
  | LStep t x => '(q, p) ← threads s !! t; advance t x q p s
  end.

Definition initial (tb : list AgentRow) (c : ReadCache) : Sys := {| table := tb; cache := c; threads := ∅; versions := tb |}.

Definition step (s s' : Sys) : Prop := ∃ l, run_label l s = Some s'.
End lookup.
End AgentLookup.
