(* ===== verification/AgentLookupFacts.v ===== *)
(** * What lookups of agents return

    The theorems about [AgentLookup]: a row that is served was the table's row
    for that name or identifier at some time; and a call that read it before a
    change of policy can leave the old row in the cache, where it stays as
    long as it is used. *)

From stdpp Require Import base numbers tactics list gmap strings.
From S2P Require Import Prelude S3Fifo S3FifoFacts ReadCache ReadCacheFacts AgentLookup.
Import S3Fifo ReadCache AgentLookup.
Open Scope Z_scope.

(** ** All entries of a cache *)

Section entries.
Context {K : Type} `{Countable K} {T : Type} (P : K → T → Prop).
Abbreviation Cache := (S3FifoCache K (CacheEntry T)).
Implicit Types c : Cache.

Definition entries (c : Cache) : Prop := wf c ∧ ∀ k e, peek k c = Some e → P k (value e).

Lemma entries_insert k v now c : entries c → P k v → entries (insert k (new_entry v now) c).
Proof.
  intros [Hwf Hc] Hv. destruct (insert_result k (new_entry v now) c Hwf) as (Hwf' & _ & Ho & Hk). split; [done|].
  intros k' e He. destruct (decide (k' = k)) as [->|Hne]; [|by apply (Hc k' e), Ho].
  assert (e = new_entry v now) as ->; [|done]. revert He Hk. unfold peek at 1.
  destruct (index c !! k) as [[]|]; intros He Hk; rewrite Hk, ?lookup_insert_eq in He; try congruence.
  destruct (main_capacity c =? 0); congruence.
Qed.

Lemma entries_touch ttl now now' k c : entries c → entries (touch_or_remove ttl now now' k c).2.
Proof.
  intros [Hwf Hc]. pose proof (touch_or_remove_result ttl now now' k c Hwf) as Hr.
  destruct (touch_or_remove _ _ _ _ _) as [r c']. destruct Hr as (Hwf' & _ & Ho & Hk). split; [done|].
  intros k' e. simpl. destruct (decide (k' = k)) as [->|Hne]; [|rewrite Ho by done; apply Hc].
  destruct (peek k c) as [e0|] eqn:He0; [|destruct Hk; congruence].
  destruct (is_expired ttl now e0); destruct Hk as [_ ->]; [done|]. intros [= <-]. by apply (Hc k e0).
Qed.

Lemma entries_remove k c : entries c → entries (remove k c).2.
Proof.
  intros [Hwf Hc]. pose proof (remove_result k c Hwf) as Hr. destruct (remove k c) as [o c'].
  destruct Hr as (Hwf' & _ & _ & Hn & Ho). split; [done|]. intros k' e. simpl.
  destruct (decide (k' = k)) as [->|Hne]; [congruence|rewrite Ho by done; apply Hc].
Qed.

Lemma entries_removes ks c : entries c → entries (foldl (λ c k, (remove k c).2) c ks).
Proof. revert c. induction ks as [|k ks IH]; intros c Hc; [done|]. by apply IH, entries_remove. Qed.

(** The rows the phases of a lookup return are entries. *)
Lemma lookup_fast_entry ttl now k c m v b m' : entries c → lookup_fast ttl now k c m = (Some (Some v), b, m') → P k v.
Proof.
  intros [_ Hc]. unfold lookup_fast. destruct (peek_entry ttl now k c) as [|v0|] eqn:Hp; try done.
  intros [= -> _ _]. apply peek_entry_fresh in Hp as (e & He & <- & _). by apply Hc.
Qed.

Lemma lookup_slow_entries ttl now now' k c m r c' m' :
  entries c → lookup_slow ttl now now' k c m = (r, c', m') → entries c' ∧ ∀ v, r = Some v → P k v.
Proof.
  intros Hc. pose proof (entries_touch ttl now now' k c Hc) as Ht. unfold lookup_slow.
  destruct (touch_or_remove _ _ _ _ _) as [[[]|] c1]; simpl in Ht; intros [= <- <- <-]; (split; [done|]); try done.
  intros v (e & He & ->)%fmap_Some. by apply Ht.
Qed.
End entries.

Lemma entries_impl {K} `{Countable K} {T} (P Q : K → T → Prop) c : (∀ k v, P k v → Q k v) → entries P c → entries Q c.
Proof. intros HPQ [? Hc]. split; [done|]. intros k e He. by apply HPQ, Hc. Qed.

Lemma entries_new {K} `{Countable K} {T} (P : K → T → Prop) z c : new z = Some c → z ≤ u64_max → entries P c.
Proof. intros Hn Hz. destruct (new_wf z c Hn Hz) as (? & _ & He). split; [done|]. intros k e. unfold peek. by rewrite He, lookup_empty. Qed.

(** ** Statements *)

Lemma head_filter_elem {A} (P : A → Prop) `{∀ x, Decision (P x)} l x : head (filter P l) = Some x → P x ∧ x ∈ l.
Proof.
  destruct (filter P l) as [|y ys] eqn:Hf; [done|]. intros [= ->].
  assert (x ∈ filter P l) as Hx by (rewrite Hf; left). by apply list_elem_of_filter in Hx.
Qed.

Lemma select_active_elem pid nm tb a : select_active pid nm tb = Some a → named pid nm a = true ∧ a ∈ tb.
Proof.
  intros Ha. assert (a ∈ filter (λ a, named pid nm a = true) tb) as Hx; [|by apply list_elem_of_filter in Hx].
  unfold select_active in Ha. revert a Ha. induction (filter _ tb) as [|b l IH] using rev_ind; intros a; [done|].
  rewrite foldl_app. simpl. destruct (foldl _ None l) as [c|].
  - case_if; intros [= <-]; [apply elem_of_app; right; left|apply elem_of_app; left; by apply IH].
  - intros [= <-]. apply elem_of_app. right. left.
Qed.

Lemma set_policy_tx_spec i policy now tb r tb' :
  set_policy_tx i policy now tb = (r, tb') →
  match r with Some a => a ∈ tb' ∧ id a = Some i ∧ contact_policy a = policy | None => tb' = tb end.
Proof.
  unfold set_policy_tx. destruct (select_by_id i (update_policy i policy now tb)) as [a|] eqn:Hs; intros [= <- <-]; [|done].
  apply head_filter_elem in Hs as [Hid Hin]. unfold has_id in Hid. apply bool_decide_eq_true in Hid. split_and!; [done|done|].
  apply list_elem_of_fmap in Hin as (b & -> & Hb). revert Hid. unfold has_id. case_bool_decide; [done|]. by intros ?.
Qed.

(** ** The invariant *)

Section facts.
Context (scope_fingerprint : str → Z) (scope : str).
Abbreviation fp := (scope_fingerprint scope).
Implicit Types s : Sys.

(** The row answers the request. *)
Definition answers (q : Request) (a : AgentRow) : Prop :=
  match q with
  | ByName pid nm => named pid nm a = true
  | ById i => id a = Some i
  | SetPolicy i policy => id a = Some i ∧ contact_policy a = policy
  | SetPolicyByName _ _ policy => contact_policy a = policy
  | Remove _ _ _ => False
  end.

Definition good (vs : list AgentRow) (q : Request) (p : Phase) : Prop :=
  match p with
  | Maintain a | PutKey a | PutId a | Answered (Some a) => a ∈ vs ∧ answers q a
  | _ => True
  end.

Definition key_ok (vs : list AgentRow) (k : Z * Z * str) (a : AgentRow) : Prop :=
  a ∈ vs ∧ k = agent_key scope_fingerprint scope (project_id a) (name a).
Definition id_ok (vs : list AgentRow) (k : Z * Z) (a : AgentRow) : Prop := a ∈ vs ∧ ∃ i, id a = Some i ∧ k = (fp, i).

Record inv s : Prop := {
  inv_keys : entries (key_ok (versions s)) (agents_by_key (cache s));
  inv_ids : entries (id_ok (versions s)) (agents_by_id (cache s));
  inv_table a : a ∈ table s → a ∈ versions s;
  inv_threads t q p : threads s !! t = Some (q, p) → good (versions s) q p;
}.

Lemma key_answers vs pid nm a : key_ok vs (agent_key scope_fingerprint scope pid nm) a → a ∈ vs ∧ answers (ByName pid nm) a.
Proof.
  intros [Ha [= -> Hn]]. split; [done|]. simpl. unfold named, eq_ignore_ascii_case.
  by rewrite Z.eqb_refl, bool_decide_eq_true_2.
Qed.

Lemma id_answers vs i a : id_ok vs (fp, i) a → a ∈ vs ∧ answers (ById i) a.
Proof. intros [Ha (j & Hj & [= ->])]. done. Qed.

Lemma good_mono vs vs' q p : (∀ a, a ∈ vs → a ∈ vs') → good vs q p → good vs' q p.
Proof. intros Hv. destruct p as [|a| | |a|a| | |[a|]]; simpl; try done; intros []; auto. Qed.

(** A step that keeps the table. *)
Lemma inv_cache_step s t q p c :
  inv s → entries (key_ok (versions s)) (agents_by_key c) → entries (id_ok (versions s)) (agents_by_id c) →
  good (versions s) q p → inv (set_thread t (q, p) (set_cache c s)).
Proof.
  intros [I1 I2 I3 I4] Hk Hi Hg. split; simpl; [done|done|done|]. intros t' q' p'.
  destruct (decide (t' = t)) as [->|Hne]; [rewrite lookup_insert_eq; by intros [= <- <-]|rewrite lookup_insert_ne by done; apply I4].
Qed.

Lemma inv_thread_step s t q p : inv s → good (versions s) q p → inv (set_thread t (q, p) s).
Proof. intros Hi Hg. exact (inv_cache_step s t q p (cache s) Hi (inv_keys _ Hi) (inv_ids _ Hi) Hg). Qed.

(** A transaction. *)
Lemma inv_table_step s t q p tb : inv s → good (versions s ++ tb) q p → inv (set_thread t (q, p) (set_table tb s)).
Proof.
  intros [I1 I2 I3 I4] Hg. assert (∀ a, a ∈ versions s → a ∈ versions s ++ tb) as Hv by (intros; apply elem_of_app; by left).
  split; simpl.
  - eapply entries_impl; [|exact I1]. intros k a [? ?]. split; [auto|done].
  - eapply entries_impl; [|exact I2]. intros k a [? ?]. split; [auto|done].
  - intros a Ha. apply elem_of_app. by right.
  - intros t' q' p'. destruct (decide (t' = t)) as [->|Hne].
    + rewrite lookup_insert_eq. by intros [= <- <-].
    + rewrite lookup_insert_ne by done. intros Ht. eapply good_mono; [exact Hv|by apply (I4 t')].
Qed.

Lemma after_select_good vs q r : (∀ a, r = Some a → a ∈ vs ∧ answers q a) → good vs q (after_select r).
Proof. destruct r as [a|]; simpl; [auto|done]. Qed.

Lemma agent_advance_inv t x q p s s' :
  inv s → threads s !! t = Some (q, p) → advance scope_fingerprint scope t x q p s = Some s' → inv s'.
Proof.
  intros Hi Ht Ha. pose proof (inv_keys _ Hi) as Hk. pose proof (inv_ids _ Hi) as Hd. pose proof (inv_threads _ Hi _ _ _ Ht) as Hg.
  destruct p as [|a| | |a|a| |removed|]; cbn [advance] in Ha.
  - destruct q as [pid nm|i| | |].
    3-5: injection Ha as <-; by apply inv_thread_step.
    + injection Ha as <-. apply inv_cache_step; [done|done|done|].
      destruct (lookup_fast _ _ _ _ _) as [[[[a|]|] b] m'] eqn:Hl; [|done|done].
      apply (lookup_fast_entry _ _ _ _ _ _ _ _ _ Hk), key_answers in Hl. by destruct b.
    + injection Ha as <-. apply inv_cache_step; [done|done|done|].
      destruct (lookup_fast _ _ _ _ _) as [[[[a|]|] b] m'] eqn:Hl; [|done|done].
      apply (lookup_fast_entry _ _ _ _ _ _ _ _ _ Hd), id_answers in Hl. by destruct b.
  - destruct q as [pid nm|i| | |]; [..|done|done|done]; injection Ha as <-; apply inv_cache_step; try done; by apply entries_touch.
  - destruct q as [pid nm|i| | |]; [..|done|done|done].
    + destruct (lookup_slow _ _ _ _ _ _) as [[r k] m'] eqn:Hl. injection Ha as <-.
      apply (lookup_slow_entries _ _ _ _ _ _ _ _ _ _ Hk) in Hl as [Hk' Hr]. apply inv_cache_step; [done|done|done|].
      destruct r as [a|]; [|done]. by apply key_answers, Hr.
    + destruct (lookup_slow _ _ _ _ _ _) as [[r k] m'] eqn:Hl. injection Ha as <-.
      apply (lookup_slow_entries _ _ _ _ _ _ _ _ _ _ Hd) in Hl as [Hk' Hr]. apply inv_cache_step; [done|done|done|].
      destruct r as [a|]; [|done]. by apply id_answers, Hr.
  - destruct q as [pid nm|i|i policy|pid nm policy|i pid nm].
    + injection Ha as <-. apply inv_thread_step; [done|]. destruct (succeeds x); [|done]. apply after_select_good.
      intros a [Hn Hin]%head_filter_elem. split; [by apply (inv_table _ Hi)|done].
    + injection Ha as <-. apply inv_thread_step; [done|]. destruct (succeeds x); [|done]. apply after_select_good.
      intros a [Hn Hin]%head_filter_elem. split; [by apply (inv_table _ Hi)|]. unfold has_id in Hn. by apply bool_decide_eq_true in Hn.
    + destruct (set_policy_tx _ _ _ _) as [r tb] eqn:Hx. injection Ha as <-. destruct (succeeds x); [|by apply inv_thread_step].
      apply inv_table_step; [done|]. apply after_select_good. intros a ->. apply set_policy_tx_spec in Hx as (? & ? & ?).
      split; [apply elem_of_app; by right|done].
    + destruct (set_policy_by_name_tx _ _ _ _ _) as [r tb] eqn:Hx. injection Ha as <-. destruct (succeeds x); [|by apply inv_thread_step].
      apply inv_table_step; [done|]. apply after_select_good. intros a ->. unfold set_policy_by_name_tx in Hx.
      destruct (trim nm) as [|c w]; [done|]. destruct (select_active pid (c :: w) (table s) ≫= id) as [i|]; [|done].
      apply set_policy_tx_spec in Hx as (? & ? & ?). split; [apply elem_of_app; by right|done].
    + injection Ha as <-. destruct (succeeds x); [|by apply inv_thread_step]. by apply inv_table_step.
  - injection Ha as <-. apply inv_cache_step; [done| |done|done]. apply entries_insert; [done|]. by destruct Hg.
  - injection Ha as <-. apply inv_cache_step; [done| | |done]; unfold put_agent_id; destruct (id a) as [i|] eqn:Hia; simpl; try done.
    apply entries_insert; [done|]. destruct Hg. split; [done|]. by exists i.
  - destruct q as [| | | |i pid nm]; try done. unfold remove_agent_key in Ha.
    pose proof (entries_remove _ (agent_key scope_fingerprint scope pid nm) _ Hk) as Hr. destruct (remove _ _) as [o k]. injection Ha as <-.
    by apply inv_cache_step.
  - destruct q as [| | | |i pid nm]; try done. injection Ha as <-. apply inv_cache_step; [done|done| |done].
    unfold remove_ids. simpl. pose proof (entries_removes _ ((λ j, (fp, j)) <$> ids_to_remove (Some i) removed []) _ Hd) as Hr.
    by rewrite foldl_fmap in Hr.
  - done.
Qed.

Definition lookups_reachable tb c s : Prop := rtc (step scope_fingerprint scope) (initial tb c) s.

Lemma lookups_reachable_inv z tb c s : with_capacity z = Some c → z ≤ u64_max → lookups_reachable tb c s → inv s.
Proof.
  intros Hc Hz Hs. assert (inv (initial tb c)) as H0.
  { unfold with_capacity in Hc. apply bind_Some in Hc as (c1 & N1 & Hc). apply bind_Some in Hc as (c2 & N2 & Hc).
    apply bind_Some in Hc as (c3 & N3 & Hc). apply bind_Some in Hc as (c4 & N4 & Hc). apply bind_Some in Hc as (c5 & N5 & Hc).
    injection Hc as <-. split; simpl; [by eapply entries_new|by eapply entries_new|done|by intros ? ? ?; rewrite lookup_empty]. }
  revert H0. unfold lookups_reachable in Hs. induction Hs as [|a b d [l Hl] _ IH]; [done|]. intros Hi. apply IH.
  destruct l as [t q|t x]; simpl in Hl.
  - destruct (threads a !! t) eqn:Ht; [done|]. injection Hl as <-. by apply inv_thread_step.
  - destruct (threads a !! t) as [[q p]|] eqn:Ht; [simpl in Hl|done]. by eapply agent_advance_inv.
Qed.

(** What is served was true.  However lookups, changes of policy and
    removals interleave, a row a call returns was in the table at some time and
    answers the request: it has the project and, up to ASCII case, the name
    asked for, or the identifier, or the policy just set. *)
Theorem served_rows_were_true z tb c s t q a :
  with_capacity z = Some c → z ≤ u64_max → lookups_reachable tb c s →
  threads s !! t = Some (q, Answered (Some a)) → a ∈ versions s ∧ answers q a.
Proof. intros Hc Hz Hs Ht. apply (lookups_reachable_inv z tb c s Hc Hz) in Hs. exact (inv_threads _ Hs t q _ Ht). Qed.
End facts.

(** ** Runs *)

Module LookupRuns.

Definition fingerprint (s : str) : Z := Zpos (encode s).
Definition scope : str := lit "storage.sqlite3".

Definition bob (policy : str) (now : Z) : AgentRow :=
  {| id := Some 1; project_id := 1; name := lit "BlueLake"; program := lit "cli"; model := lit "m"; task_description := [];
     inception_ts := 0; last_active_ts := now; attachments_policy := lit "auto"; contact_policy := policy; reaper_exempt := 0;
     registration_token := None |}.
Definition old_row : AgentRow := bob (lit "open") 0.
Definition new_row : AgentRow := bob (lit "block_all") 9.

Definition second (n : Z) : World := {| instant := n * 1000000000; later := n * 1000000000; micros := 9; succeeds := true |}.

Definition get : Request := ByName 1 (lit "bluelake").
Definition block : Request := SetPolicyByName 1 (lit "BlueLake") (lit "block_all").

(** A lookup reads the row; the policy is set; the lookup puts what it
    read. *)
Definition race : list Label :=
  LCall 1 get :: replicate 2 (LStep 1 (second 1)) ++ LCall 2 block :: replicate 4 (LStep 2 (second 2)) ++ replicate 2 (LStep 1 (second 3)).
(** A lookup long after. *)
Definition lookup_later : list Label := [LCall 3 get; LStep 3 (second 300)].

Fixpoint runs (ls : list Label) (s : Sys) : option Sys :=
  match ls with [] => Some s | l :: ls => run_label fingerprint scope l s ≫= runs ls end.

Lemma lookup_runs_rtc ls s s' : runs ls s = Some s' → rtc (step fingerprint scope) s s'.
Proof.
  revert s. induction ls as [|l ls IH]; intros s; simpl; [intros [= ->]; done|].
  destruct (run_label _ _ l s) as [a|] eqn:Hl; [simpl|done]. intros Ha. eapply rtc_l; [by exists l|by apply IH].
Qed.

(** From an empty cache: the state after a run, if there is one. *)
Definition after (ls : list Label) : option Sys := c ← with_capacity 8; runs ls (initial [old_row] c).

Lemma lookup_after_reachable ls s : after ls = Some s → ∃ c, with_capacity 8 = Some c ∧ lookups_reachable fingerprint scope [old_row] c s.
Proof. intros (c & Hc & Hs)%bind_Some. exists c. split; [done|]. by apply (lookup_runs_rtc ls). Qed.

(** What the two runs come to. *)
Lemma race_views :
  table <$> after race = Some [new_row] ∧
  (λ s, threads s !! 2%nat) <$> after race = Some (Some (block, Answered (Some new_row))) ∧
  (λ s, threads s !! 3%nat) <$> after race = Some None.
Proof. split_and!; vm_compute; reflexivity. Qed.

Lemma race_later_view :
  (λ s, threads s !! 3%nat) <$> (after race ≫= runs lookup_later) = Some (Some (get, Answered (Some old_row))).
Proof. vm_compute; reflexivity. Qed.

(** A change of policy can go unseen.  There is a run in which the call
    that blocks all senders has returned the blocking row, which is the only
    row of the table, and a lookup that starts afterwards is answered with the
    row that lets everybody in: a lookup that read the table before the change
    has put its row after it. *)
Theorem stale_policy_served :
  ∃ c s1 s2, with_capacity 8 = Some c ∧ lookups_reachable fingerprint scope [old_row] c s1 ∧
    table s1 = [new_row] ∧ threads s1 !! 2%nat = Some (block, Answered (Some new_row)) ∧ threads s1 !! 3%nat = None ∧
    rtc (step fingerprint scope) s1 s2 ∧ threads s2 !! 3%nat = Some (get, Answered (Some old_row)) ∧
    contact_policy old_row = lit "open" ∧ contact_policy new_row = lit "block_all".
Proof.
  pose proof race_views as (Ht & H2 & H3). pose proof race_later_view as Hl.
  destruct (after race) as [s1|] eqn:H1; [|discriminate Ht]. simpl in Ht, H2, H3.
  change ((λ s, threads s !! 3%nat) <$> runs lookup_later s1 = Some (Some (get, Answered (Some old_row)))) in Hl.
  destruct (runs lookup_later s1) as [s2|] eqn:Hr2; [|discriminate Hl]. simpl in Hl.
  destruct (lookup_after_reachable _ _ H1) as (c & Hc & Hr). apply lookup_runs_rtc in Hr2.
  exists c, s1, s2. split_and!; [exact Hc|exact Hr|congruence|congruence|congruence|exact Hr2|congruence|reflexivity|reflexivity].
Qed.

Example served_rows_were_true_witness : ∃ s a, after race = Some s ∧ threads s !! 2%nat = Some (block, Answered (Some a)) ∧ a ∈ versions s.
Proof.
  pose proof race_views as (_ & H2 & _). destruct (after race) as [s|] eqn:H1; [|discriminate H2]. simpl in H2. injection H2 as H2.
  destruct (lookup_after_reachable _ _ H1) as (c & Hc & Hr). exists s, new_row. split; [reflexivity|]. split; [exact H2|].
  apply (served_rows_were_true fingerprint scope 8 [old_row] c s 2 block new_row Hc); [by vm_compute|exact Hr|exact H2].
Defined.
End LookupRuns.
