(* ===== verification/AgentNames.v ===== *)
(** * Names of agents ([mcp-agent-mail-core/src/models.rs])

    A valid name is an adjective and a noun of two fixed lists.  Here are the
    lists, the normal form of a name with the cache in front of it, the
    generator, and the tests that guess what an invalid name was meant for; of
    their answers only the kind is modelled, not the text. *)

From stdpp Require Import base tactics list sorting gmap strings.
From S2P Require Import Prelude KeyedBuckets DbErrors.

Import DbErrors.

Module AgentNames.

(** ** Vocabulary *)

Definition VALID_ADJECTIVES : list str :=
  lit <$> [
   "red"; "orange"; "yellow"; "pink"; "black"; "purple"; "blue"; "brown"; "white"; "green"; "chartreuse"; "lilac"; "fuchsia"; "azure"; "amber"; "coral";
   "crimson"; "cyan"; "gold"; "golden"; "gray"; "indigo"; "ivory"; "jade"; "lavender"; "magenta"; "maroon"; "navy"; "olive"; "pearl"; "rose"; "ruby";
   "sage"; "scarlet"; "silver"; "teal"; "topaz"; "violet"; "cobalt"; "copper"; "bronze"; "emerald"; "sapphire"; "turquoise"; "beige"; "tan"; "cream";
   "peach"; "plum"; "sunny"; "misty"; "foggy"; "stormy"; "windy"; "frosty"; "dusty"; "hazy"; "cloudy"; "rainy"; "snowy"; "icy"; "mossy"; "sandy";
   "swift"; "quiet"; "bold"; "calm"; "bright"; "dark"; "wild"; "silent"; "gentle"; "rustic"; "noble"; "proud"]%string.

Definition VALID_NOUNS : list str :=
  lit <$> [
   "stone"; "lake"; "creek"; "pond"; "mountain"; "hill"; "snow"; "castle"; "river"; "forest"; "valley"; "canyon"; "meadow"; "prairie"; "desert";
   "island"; "cliff"; "cave"; "glacier"; "waterfall"; "spring"; "stream"; "reef"; "dune"; "ridge"; "peak"; "gorge"; "marsh"; "brook"; "glen"; "grove";
   "fern"; "hollow"; "basin"; "cove"; "bay"; "harbor"; "coast"; "shore"; "bluff"; "knoll"; "summit"; "plateau"; "dog"; "cat"; "bear"; "fox"; "wolf";
   "deer"; "elk"; "moose"; "otter"; "beaver"; "badger"; "lynx"; "puma"; "squirrel"; "rabbit"; "hare"; "mouse"; "mink"; "seal"; "horse"; "lion"; "tiger";
   "panther"; "leopard"; "jaguar"; "coyote"; "bison"; "ox"; "hawk"; "eagle"; "owl"; "falcon"; "raven"; "heron"; "crane"; "finch"; "robin"; "sparrow";
   "duck"; "goose"; "swan"; "dove"; "wren"; "jay"; "lark"; "kite"; "condor"; "osprey"; "pelican"; "gull"; "tern"; "stork"; "ibis"; "cardinal"; "oriole";
   "thrush"; "trout"; "salmon"; "bass"; "pike"; "carp"; "turtle"; "frog"; "pine"; "oak"; "maple"; "birch"; "cedar"; "willow"; "aspen"; "elm"; "orchid";
   "lotus"; "ivy"; "tower"; "bridge"; "forge"; "mill"; "barn"; "gate"; "anchor"; "lantern"; "beacon"; "compass"; "horizon"; "spire"; "chapel"; "citadel";
   "fortress"]%string.

(** [sort_unstable]. *)
Definition VALID_ADJECTIVE_LOOKUP : list str := merge_sort str_le VALID_ADJECTIVES.
Definition VALID_NOUN_LOOKUP : list str := merge_sort str_le VALID_NOUNS.

Definition VALID_ADJECTIVE_LENGTHS_DESC : list nat := reverse (dedup (merge_sort le (length <$> VALID_ADJECTIVES))).

Definition MIN_VALID_AGENT_NAME_LEN : nat := 5.

(** [slice::binary_search]: [size] halves until one candidate is left. *)
Fixpoint narrow (fuel : nat) (l : list str) (x : str) (base size : nat) : nat :=
  match fuel with
  | O => base
  | S fuel =>
      if (size <=? 1)%nat then base
      else
        let half := Nat.div2 size in
        let base := match str_compare (l !!! (base + half)%nat) x with Gt => base | _ => (base + half)%nat end in
        narrow fuel l x base (size - half)
  end.

Definition binary_search (l : list str) (x : str) : option nat :=
  match l with
  | [] => None
  | _ => let base := narrow (length l) l x 0 (length l) in
         match str_compare (l !!! base) x with Eq => Some base | _ => None end
  end.

(** ** Normal form *)

Definition is_ascii (s : str) : bool := forallb (λ c, (c <? 128)%N) s.

(** [to_uppercase] of a letter of the vocabulary. *)
Definition ascii_upper (c : N) : N := if ((97 <=? c) && (c <=? 122))%N then (c - 32)%N else c.

Definition pascal_case_word (word : str) : str := match word with [] => [] | c :: w => ascii_upper c :: w end.

Definition pascal_case_agent_name (adjective noun : str) : str := pascal_case_word adjective ++ pascal_case_word noun.

(** The split at one length of adjective. *)
Definition split_at_length (lower_name : str) (adjective_len : nat) : option (str * str) :=
  if (length lower_name <=? adjective_len)%nat then None
  else
    adj_idx ← binary_search VALID_ADJECTIVE_LOOKUP (take adjective_len lower_name);
    noun_idx ← binary_search VALID_NOUN_LOOKUP (drop adjective_len lower_name);
    Some (VALID_ADJECTIVE_LOOKUP !!! adj_idx, VALID_NOUN_LOOKUP !!! noun_idx).

Fixpoint first_split (lower_name : str) (lengths : list nat) : option (str * str) :=
  match lengths with
  | [] => None
  | n :: lengths => match split_at_length lower_name n with Some r => Some r | None => first_split lower_name lengths end
  end.

Definition split_valid_agent_name (name : str) : option (str * str) :=
  if negb (is_ascii name) || (length name <? MIN_VALID_AGENT_NAME_LEN)%nat then None
  else first_split (to_ascii_lowercase name) VALID_ADJECTIVE_LENGTHS_DESC.

(** The cache of the thread, and what a call makes of it. *)
Abbreviation NormCache := (gmap str str).

Definition normalize_agent_name (cache : NormCache) (name : str) : option str * NormCache :=
  let name := trim name in
  if negb (is_ascii name) || (length name <? MIN_VALID_AGENT_NAME_LEN)%nat then (None, cache)
  else
    let lower := to_ascii_lowercase name in
    match cache !! lower with
    | Some cached => (Some cached, cache)
    | None =>
        match split_valid_agent_name lower with
        | None => (None, cache)
        | Some (adjective, noun) =>
            let normalized := pascal_case_agent_name adjective noun in
            let cache := if (8192 <=? Z.of_nat (size cache))%Z then ∅ else cache in
            (Some normalized, <[lower := normalized]> cache)
        end
    end.

(** The calls of a thread, one after the other. *)
Fixpoint normalize_all (cache : NormCache) (names : list str) : list (option str) * NormCache :=
  match names with
  | [] => ([], cache)
  | name :: names =>
      let '(r, cache) := normalize_agent_name cache name in
      let '(rs, cache) := normalize_all cache names in (r :: rs, cache)
  end.

Definition is_valid_agent_name (cache : NormCache) (name : str) : bool := bool_decide (is_Some (normalize_agent_name cache name).1).

(** [generate_agent_name] of 64 random bits. *)
Definition generate_agent_name (hash : Z) : str :=
  let adj_idx := Z.to_nat (hash `mod` Z.of_nat (length VALID_ADJECTIVES)) in
  let noun_idx := Z.to_nat (Z.shiftr hash 32 `mod` Z.of_nat (length VALID_NOUNS)) in
  pascal_case_agent_name (VALID_ADJECTIVES !!! adj_idx) (VALID_NOUNS !!! noun_idx).

(** ** What an invalid name was meant for *)

Definition KNOWN_PROGRAM_NAMES : list string :=
  ["claude-code"; "claude"; "codex-cli"; "codex"; "cursor"; "windsurf"; "cline"; "aider"; "copilot"; "github-copilot"; "gemini-cli";
   "gemini"; "opencode"; "vscode"; "neovim"; "vim"; "emacs"; "zed"; "continue"]%string.

Definition MODEL_NAME_PATTERNS : list string :=
  ["gpt-"; "gpt4"; "gpt3"; "claude-"; "opus"; "sonnet"; "haiku"; "gemini-"; "llama"; "mistral"; "codestral"; "o1-"; "o3-"]%string.

Definition BROADCAST_TOKENS : list string := ["all"; "everyone"; "broadcast"; "*"]%string.

Definition DESCRIPTIVE_NAME_KEYWORDS : list string :=
  ["dev"; "developer"; "agent"; "worker"; "assistant"; "helper"; "bot"; "user"; "manager"; "lead"; "engineer"]%string.

Definition one_of (names : list string) (value : str) : bool :=
  let value := trim value in bool_decide (value ≠ []) && bool_decide (to_ascii_lowercase value ∈ lit <$> names).
Definition mentions (patterns : list string) (value : str) : bool :=
  let value := trim value in bool_decide (value ≠ []) && contains_any patterns (to_ascii_lowercase value).

Definition looks_like_program_name : str → bool := one_of KNOWN_PROGRAM_NAMES.
Definition looks_like_model_name : str → bool := mentions MODEL_NAME_PATTERNS.
Definition looks_like_broadcast : str → bool := one_of BROADCAST_TOKENS.
Definition looks_like_descriptive_name : str → bool := mentions DESCRIPTIVE_NAME_KEYWORDS.

(** [str::rsplit_once]. *)
Fixpoint rsplit_once (sep : N) (s : str) : option (str * str) :=
  match s with
  | [] => None
  | c :: s' =>
      match rsplit_once sep s' with
      | Some (a, b) => Some (c :: a, b)
      | None => if (c =? sep)%N then Some ([], s') else None
      end
  end.

Definition looks_like_email (value : str) : bool :=
  match rsplit_once 64 value with
  | Some (local, domain) =>
      if bool_decide (local = []) then false
      else match rsplit_once ch_dot domain with
           | Some (domain_part, tld_part) => bool_decide (domain_part ≠ []) && bool_decide (tld_part ≠ [])
           | None => false
           end
  | None => false
  end.

(** After the test of its characters the value is ASCII. *)
Definition looks_like_unix_username (value : str) : bool :=
  let value := trim value in
  if bool_decide (value = [])
     || negb ((2 <=? length value)%nat && (length value <=? 16)%nat)
     || negb (forallb (λ c, ((97 <=? c) && (c <=? 122))%N || is_ascii_digit c) value) then false
  else negb (bool_decide (value ∈ VALID_ADJECTIVE_LOOKUP)) && negb (bool_decide (value ∈ VALID_NOUN_LOOKUP)).

Inductive Mistake :=
  | PROGRAM_NAME_AS_AGENT | MODEL_NAME_AS_AGENT | EMAIL_AS_AGENT | BROADCAST_ATTEMPT | DESCRIPTIVE_NAME | UNIX_USERNAME_AS_AGENT.
#[global] Instance Mistake_eq_dec : EqDecision Mistake.
Proof. solve_decision. Defined.

Definition detect_agent_name_mistake (value : str) : option Mistake :=
  if looks_like_program_name value then Some PROGRAM_NAME_AS_AGENT
  else if looks_like_model_name value then Some MODEL_NAME_AS_AGENT
  else if looks_like_email value then Some EMAIL_AS_AGENT
  else if looks_like_broadcast value then Some BROADCAST_ATTEMPT
  else if looks_like_descriptive_name value then Some DESCRIPTIVE_NAME
  else if looks_like_unix_username value then Some UNIX_USERNAME_AS_AGENT
  else None.
End AgentNames.
