(* ===== verification/AgentNamesFacts.v ===== *)
(** * What names of agents guarantee

    The theorems about [AgentNames]: the normal form and its cache, that a name
    comes from one adjective and one noun, the generator, and the valid names
    that are taken for mistakes. *)

From stdpp Require Import base tactics list sorting gmap strings.
From S2P Require Import Prelude KeyedBuckets DbErrors AgentNames.
Import AgentNames.

(** ** Binary search *)

Lemma sorted_lookup {A} (R : A → A → Prop) l i j x y :
  StronglySorted R l → l !! i = Some x → l !! j = Some y → (i < j)%nat → R x y.
Proof.
  intros Hs. revert i j. induction Hs as [|z l Hs IH Hz]; intros [|i] [|j]; simpl; try done; try lia.
  - intros [= ->] Hj _. rewrite Forall_forall in Hz. apply Hz, list_elem_of_lookup. by exists j.
  - intros Hi Hj ?. apply (IH i j); [done..|lia].
Qed.

Lemma total_lookup (l : list str) i : (i < length l)%nat → l !! i = Some (l !!! i).
Proof. intros Hi. by apply list_lookup_lookup_total_lt. Qed.

(** The candidate stays in range, and at or before it lies what is looked for. *)
Lemma narrow_spec fuel l x base size :
  StronglySorted str_le l → (1 ≤ size)%nat → (base + size ≤ length l)%nat → (size ≤ fuel)%nat →
  (narrow fuel l x base size < length l)%nat ∧
  ((∃ i, base ≤ i < base + size ∧ l !! i = Some x)%nat → l !! narrow fuel l x base size = Some x).
Proof.
  intros Hs. revert base size. induction fuel as [|fuel IH]; intros base size H1 H2 Hf; [lia|]. simpl.
  destruct (size <=? 1)%nat eqn:Hle.
  { apply Nat.leb_le in Hle. split; [lia|]. intros (i & Hi & Hx). by assert (i = base) as -> by lia. }
  apply Nat.leb_gt in Hle. pose proof (Nat.div2_odd size) as Hodd. set (half := Nat.div2 size) in *.
  assert (1 ≤ half ∧ 2 * half ≤ size)%nat as [Hh1 Hh2] by (destruct (Nat.odd size); simpl in Hodd; lia).
  pose proof (total_lookup l (base + half) ltac:(lia)) as Hmid.
  destruct (str_compare (l !!! (base + half)%nat) x) eqn:Hc.
  1,2: destruct (IH (base + half)%nat (size - half)%nat) as [Hr Hx]; [lia..|]; split; [done|]; intros (i & Hi & Hix); apply Hx;
    destruct (decide (base + half ≤ i)%nat) as [|Hlt]; [exists i; split; [lia|done]|];
    pose proof (sorted_lookup _ _ _ _ _ _ Hs Hix Hmid ltac:(lia)) as Hxm; exists (base + half)%nat; (split; [lia|]); rewrite Hmid; f_equal.
  - by apply str_compare_eq.
  - apply str_le_lt in Hxm as [Hxm|]; [|done]. by destruct (str_lt_irrefl x (str_lt_trans _ _ _ Hxm Hc)).
  - destruct (IH base (size - half)%nat) as [Hr Hx]; [lia..|]. split; [done|]. intros (i & Hi & Hix). apply Hx.
    destruct (decide (i < base + half)%nat) as [|Hge]; [exists i; split; [lia|done]|exfalso]. apply str_compare_gt in Hc.
    destruct (decide (i = base + half)%nat) as [->|Hne]; [rewrite Hmid in Hix; injection Hix as Hix; rewrite Hix in Hc; by destruct (str_lt_irrefl x)|].
    pose proof (sorted_lookup _ _ _ _ _ _ Hs Hmid Hix ltac:(lia)) as Hxm. apply str_le_lt in Hxm as [Hxm|Hxm].
    + by destruct (str_lt_irrefl x (str_lt_trans _ _ _ Hc Hxm)).
    + rewrite Hxm in Hc. by destruct (str_lt_irrefl x).
Qed.

Lemma binary_search_found l x i : binary_search l x = Some i → l !!! i = x.
Proof.
  unfold binary_search. destruct l; [done|]. destruct (str_compare _ _) eqn:Hc; [|done..]. intros [= <-]. by apply str_compare_eq.
Qed.

Lemma binary_search_iff l x : StronglySorted str_le l → is_Some (binary_search l x) ↔ x ∈ l.
Proof.
  intros Hs. unfold binary_search. destruct l as [|y l']; [split; [by intros []|by intros ?%elem_of_nil]|].
  set (l := y :: l') in *. destruct (narrow_spec (length l) l x 0 (length l) Hs) as [Hr Hx]; [subst l; simpl; lia|lia|lia|].
  pose proof (total_lookup l _ Hr) as Hn. generalize dependent (narrow (length l) l x 0 (length l)). intros k _ Hx Hn. split.
  - destruct (str_compare _ _) eqn:Hc; [|by intros []..]. intros _. apply str_compare_eq in Hc. rewrite Hc in Hn.
    apply list_elem_of_lookup. eauto.
  - intros [i Hi]%list_elem_of_lookup. assert (i < length l)%nat by by eapply lookup_lt_Some.
    rewrite Hx in Hn by (exists i; split; [lia|done]). injection Hn as Hn. rewrite <-Hn, (proj2 (str_compare_eq x x) eq_refl). done.
Qed.

Lemma adjective_lookup x : is_Some (binary_search VALID_ADJECTIVE_LOOKUP x) ↔ x ∈ VALID_ADJECTIVES.
Proof.
  rewrite binary_search_iff by apply (StronglySorted_merge_sort str_le). unfold VALID_ADJECTIVE_LOOKUP. by rewrite merge_sort_Permutation.
Qed.

Lemma noun_lookup x : is_Some (binary_search VALID_NOUN_LOOKUP x) ↔ x ∈ VALID_NOUNS.
Proof.
  rewrite binary_search_iff by apply (StronglySorted_merge_sort str_le). unfold VALID_NOUN_LOOKUP. by rewrite merge_sort_Permutation.
Qed.

(** ** The vocabulary *)

Definition lower_word (w : str) : bool := bool_decide (w ≠ []) && forallb (λ c, (97 <=? c) && (c <=? 122))%N w.

(** No adjective followed by the start of a noun reads as another adjective. *)
Definition no_overlap (a a' : str) : bool :=
  negb (starts_with a a') || bool_decide (a = a') || forallb (λ n, negb (starts_with (drop (length a) a') n)) VALID_NOUNS.

Lemma vocabulary_lower w : w ∈ VALID_ADJECTIVES ∨ w ∈ VALID_NOUNS → lower_word w = true.
Proof.
  assert (forallb lower_word (VALID_ADJECTIVES ++ VALID_NOUNS) = true) as Hall by (vm_compute; reflexivity).
  intros Hw. eapply forallb_forall in Hall; [exact Hall|]. apply list_elem_of_In, elem_of_app. tauto.
Qed.

Lemma adjectives_apart a a' : a ∈ VALID_ADJECTIVES → a' ∈ VALID_ADJECTIVES → no_overlap a a' = true.
Proof.
  assert (forallb (λ a, forallb (no_overlap a) VALID_ADJECTIVES) VALID_ADJECTIVES = true) as Hall by (vm_compute; reflexivity).
  intros Ha Ha'. eapply forallb_forall in Hall; [|by apply list_elem_of_In, Ha]. eapply forallb_forall in Hall; [exact Hall|].
  by apply list_elem_of_In.
Qed.

(** Every name has five letters or more. *)
Lemma vocabulary_length a n : a ∈ VALID_ADJECTIVES → n ∈ VALID_NOUNS → (5 ≤ length (a ++ n))%nat.
Proof.
  assert (forallb (λ w : str, 3 <=? length w)%nat VALID_ADJECTIVES = true) as HA by (vm_compute; reflexivity).
  assert (forallb (λ w : str, 2 <=? length w)%nat VALID_NOUNS = true) as HN by (vm_compute; reflexivity).
  intros Ha Hn. eapply forallb_forall in HA; [|by apply list_elem_of_In, Ha]. eapply forallb_forall in HN; [|by apply list_elem_of_In, Hn].
  apply Nat.leb_le in HA, HN. rewrite length_app. lia.
Qed.

Lemma pairs_shorter a n a' n' :
  a ∈ VALID_ADJECTIVES → a' ∈ VALID_ADJECTIVES → n ∈ VALID_NOUNS → (length a ≤ length a')%nat → a ++ n = a' ++ n' → a = a' ∧ n = n'.
Proof.
  intros Ha Ha' Hn Hlen Heq.
  assert (a' = a ++ drop (length a) a') as Hd.
  { rewrite <-(take_drop (length a) a') at 1. f_equal. rewrite <-(take_app_le a' n') by done. by rewrite <-Heq, take_app_length. }
  assert (n = drop (length a) a' ++ n') as Hn'.
  { apply (app_inv_head a). by rewrite Heq, (assoc_L (++)), <-Hd. }
  pose proof (adjectives_apart a a' Ha Ha') as Ho. unfold no_overlap in Ho. apply orb_true_iff in Ho as [Ho|Ho].
  - apply orb_true_iff in Ho as [Ho|Ho].
    + exfalso. apply negb_true_iff in Ho. unfold starts_with in Ho. apply bool_decide_eq_false in Ho. apply Ho. by exists (drop (length a) a').
    + apply bool_decide_eq_true in Ho as <-. split; [done|]. by apply app_inv_head in Heq.
  - exfalso. eapply forallb_forall in Ho; [|by apply list_elem_of_In, Hn]. apply negb_true_iff in Ho. unfold starts_with in Ho.
    apply bool_decide_eq_false in Ho. apply Ho. rewrite Hn' at 1. by exists n'.
Qed.

Lemma pairs_unique a n a' n' :
  a ∈ VALID_ADJECTIVES → a' ∈ VALID_ADJECTIVES → n ∈ VALID_NOUNS → n' ∈ VALID_NOUNS → a ++ n = a' ++ n' → a = a' ∧ n = n'.
Proof.
  intros Ha Ha' Hn Hn' Heq. destruct (decide (length a ≤ length a')%nat) as [Hl|Hl]; [by apply pairs_shorter|].
  destruct (pairs_shorter a' n' a n) as [-> ->]; [done..|lia|done|done].
Qed.

(** ** Splitting *)

Lemma split_at_length_spec s k a n :
  split_at_length s k = Some (a, n) ↔ a ∈ VALID_ADJECTIVES ∧ n ∈ VALID_NOUNS ∧ s = a ++ n ∧ k = length a.
Proof.
  unfold split_at_length. split.
  - destruct (length s <=? k)%nat eqn:Hk; [done|]. apply Nat.leb_gt in Hk.
    intros (i & Hi & (j & Hj & [= <- <-])%bind_Some)%bind_Some.
    rewrite (binary_search_found _ _ _ Hi), (binary_search_found _ _ _ Hj). split_and!.
    + apply adjective_lookup. eauto.
    + apply noun_lookup. eauto.
    + by rewrite take_drop.
    + rewrite length_take. lia.
  - intros (Ha & Hn & -> & ->). rewrite (proj2 (Nat.leb_gt _ _)).
    2: { rewrite length_app. apply (or_intror (A := n ∈ VALID_ADJECTIVES)), vocabulary_lower in Hn. destruct n; [done|simpl; lia]. }
    rewrite take_app_length, drop_app_length. destruct (proj2 (adjective_lookup a) Ha) as [i Hi]. destruct (proj2 (noun_lookup n) Hn) as [j Hj].
    rewrite Hi, Hj. simpl. by rewrite (binary_search_found _ _ _ Hi), (binary_search_found _ _ _ Hj).
Qed.

Lemma first_split_spec s lengths a n :
  first_split s lengths = Some (a, n) ↔ a ∈ VALID_ADJECTIVES ∧ n ∈ VALID_NOUNS ∧ s = a ++ n ∧ length a ∈ lengths.
Proof.
  induction lengths as [|k lengths IH]; simpl; [split; [done|intros (_ & _ & _ & []%elem_of_nil)]|].
  destruct (split_at_length s k) as [[a' n']|] eqn:Hs.
  - apply split_at_length_spec in Hs as (Ha' & Hn' & -> & ->). split.
    + intros [= <- <-]. split_and!; [done..|left].
    + intros (Ha & Hn & Heq & _). by destruct (pairs_unique a' n' a n) as [-> ->].
  - rewrite IH. split; intros (Ha & Hn & He & Hl); split_and!; try done; [by right|].
    apply elem_of_cons in Hl as [<-|]; [|done]. by rewrite (proj2 (split_at_length_spec s (length a) a n)) in Hs.
Qed.

Lemma lengths_complete a : a ∈ VALID_ADJECTIVES → length a ∈ VALID_ADJECTIVE_LENGTHS_DESC.
Proof.
  intros Ha. unfold VALID_ADJECTIVE_LENGTHS_DESC. rewrite elem_of_reverse, elem_of_dedup, merge_sort_Permutation. by apply list_elem_of_fmap_2.
Qed.

(** ** Case *)

(** Tests of characters, as inequalities. *)
Ltac char_tests :=
  repeat match goal with
  | H : (_ && _) = true |- _ => apply andb_true_iff in H as [? ?]
  | H : (_ && _) = false |- _ => apply andb_false_iff in H as [?|?]
  | H : (_ || _) = true |- _ => apply orb_true_iff in H as [?|?]
  | H : (_ <=? _)%N = true |- _ => apply N.leb_le in H
  | H : (_ <=? _)%N = false |- _ => apply N.leb_gt in H
  | H : (_ =? _)%N = true |- _ => apply N.eqb_eq in H
  | |- (_ <? _)%N = true => apply N.ltb_lt
  end; try lia.

Lemma ascii_lower_idem c : ascii_lower (ascii_lower c) = ascii_lower c.
Proof. unfold ascii_lower. destruct ((65 <=? c) && (c <=? 90))%N eqn:E; [|by rewrite E]. case_if; [|done]. char_tests. Qed.

Lemma to_ascii_lowercase_idem s : to_ascii_lowercase (to_ascii_lowercase s) = to_ascii_lowercase s.
Proof. unfold to_ascii_lowercase. rewrite <-list_fmap_compose. apply list_fmap_ext. intros i c _. apply ascii_lower_idem. Qed.

Definition lower_char (c : N) : bool := ((97 <=? c) && (c <=? 122))%N.

Lemma pair_lower a n : a ∈ VALID_ADJECTIVES → n ∈ VALID_NOUNS → forallb lower_char (a ++ n) = true ∧ a ≠ [] ∧ n ≠ [].
Proof.
  intros Ha%(or_introl (B := a ∈ VALID_NOUNS))%vocabulary_lower Hn%(or_intror (A := n ∈ VALID_ADJECTIVES))%vocabulary_lower.
  unfold lower_word in *. apply andb_true_iff in Ha as [Ha1%bool_decide_eq_true Ha], Hn as [Hn1%bool_decide_eq_true Hn].
  rewrite forallb_app, andb_true_iff. done.
Qed.

Lemma lower_chars_ascii s : forallb lower_char (to_ascii_lowercase s) = true → is_ascii s = true.
Proof.
  unfold is_ascii. induction s as [|c s IH]; [done|]. cbn [forallb to_ascii_lowercase fmap list_fmap].
  rewrite !andb_true_iff. intros [Hc Hs]. split; [|by apply IH]. unfold lower_char, ascii_lower in Hc. destruct ((65 <=? c) && (c <=? 90))%N eqn:E; char_tests.
Qed.

Lemma lower_chars_id s : forallb lower_char s = true → to_ascii_lowercase s = s.
Proof.
  induction s as [|c s IH]; [done|]. cbn [forallb to_ascii_lowercase fmap list_fmap]. rewrite andb_true_iff. intros [Hc Hs].
  f_equal; [|by apply IH]. unfold lower_char, ascii_lower in *. case_if; [char_tests|done].
Qed.

Lemma pascal_word_lower w : forallb lower_char w = true → to_ascii_lowercase (pascal_case_word w) = w.
Proof.
  destruct w as [|c w]; [done|]. cbn [forallb pascal_case_word to_ascii_lowercase fmap list_fmap]. rewrite andb_true_iff. intros [Hc Hw].
  f_equal; [|by apply lower_chars_id]. unfold lower_char, ascii_upper, ascii_lower in *. rewrite Hc. case_if; char_tests.
Qed.

Lemma pascal_lower a n : a ∈ VALID_ADJECTIVES → n ∈ VALID_NOUNS → to_ascii_lowercase (pascal_case_agent_name a n) = a ++ n.
Proof.
  intros Ha Hn. destruct (pair_lower a n Ha Hn) as (Hl & _ & _). rewrite forallb_app, andb_true_iff in Hl. destruct Hl as [Hla Hln].
  unfold pascal_case_agent_name, to_ascii_lowercase. rewrite fmap_app. f_equal; by apply pascal_word_lower.
Qed.

(** A valid name has no white space to trim. *)
Lemma trim_letters s : forallb lower_char (to_ascii_lowercase s) = true → trim s = s.
Proof.
  assert (∀ s, forallb lower_char (to_ascii_lowercase s) = true → trim_start s = s) as Hstart.
  { intros [|c t]; [done|]. cbn [forallb to_ascii_lowercase fmap list_fmap]. rewrite andb_true_iff. intros [Hc _]. simpl.
    destruct (is_whitespace c) eqn:Hw; [exfalso|done]. unfold is_whitespace, lower_char, ascii_lower in *.
    destruct ((65 <=? c) && (c <=? 90))%N eqn:E; char_tests. }
  intros Hs. unfold trim, trim_end. rewrite (Hstart s Hs), Hstart; [apply reverse_involutive|].
  apply forallb_forall. intros c. rewrite <-list_elem_of_In. unfold to_ascii_lowercase. rewrite list_elem_of_fmap.
  intros (d & -> & Hd). rewrite elem_of_reverse in Hd. rewrite forallb_forall in Hs. apply Hs, list_elem_of_In.
  by apply (list_elem_of_fmap_2 ascii_lower).
Qed.

Lemma pascal_trim a n : a ∈ VALID_ADJECTIVES → n ∈ VALID_NOUNS → trim (pascal_case_agent_name a n) = pascal_case_agent_name a n.
Proof. intros Ha Hn. apply trim_letters. rewrite pascal_lower by done. by apply pair_lower. Qed.

Lemma trim_start_suffix s : trim_start s `suffix_of` s.
Proof. induction s as [|c s IH]; [done|]. simpl. case_if; [by apply suffix_cons_r|done]. Qed.

Lemma trim_start_idem s : trim_start (trim_start s) = trim_start s.
Proof. induction s as [|c s IH]; [done|]. simpl. destruct (is_whitespace c) eqn:Hc; [done|]. simpl. by rewrite Hc. Qed.

Lemma trim_start_prefix s p : p `prefix_of` s → trim_start s = s → trim_start p = p.
Proof.
  intros [t ->]. destruct p as [|c p]; [done|]. simpl. destruct (is_whitespace c); [|done]. intros Heq.
  pose proof (suffix_length _ _ (trim_start_suffix (p ++ t))) as Hl. rewrite Heq in Hl. simpl in Hl. lia.
Qed.

Lemma trim_idem s : trim (trim s) = trim s.
Proof.
  assert (trim_start (trim s) = trim s) as Hs.
  { apply (trim_start_prefix (trim_start s)); [|apply trim_start_idem]. unfold trim, trim_end.
    destruct (trim_start_suffix (reverse (trim_start s))) as [t Ht]. exists (reverse t). rewrite <-reverse_app, <-Ht. by rewrite reverse_involutive. }
  unfold trim at 1. rewrite Hs. unfold trim, trim_end. by rewrite reverse_involutive, trim_start_idem.
Qed.

(** ** Normal form *)

Lemma pair_guard s a n :
  a ∈ VALID_ADJECTIVES → n ∈ VALID_NOUNS → to_ascii_lowercase s = a ++ n →
  negb (is_ascii s) || (length s <? MIN_VALID_AGENT_NAME_LEN)%nat = false.
Proof.
  intros Ha Hn Hs. rewrite lower_chars_ascii by (rewrite Hs; by apply pair_lower). simpl. apply Nat.ltb_ge.
  pose proof (vocabulary_length a n Ha Hn) as Hl. rewrite <-Hs in Hl. unfold to_ascii_lowercase in Hl. rewrite length_fmap in Hl.
  unfold MIN_VALID_AGENT_NAME_LEN. lia.
Qed.

Lemma split_valid_spec s a n :
  split_valid_agent_name s = Some (a, n) ↔ a ∈ VALID_ADJECTIVES ∧ n ∈ VALID_NOUNS ∧ to_ascii_lowercase s = a ++ n.
Proof.
  unfold split_valid_agent_name. split.
  - case_if; [done|]. rewrite first_split_spec. tauto.
  - intros (Ha & Hn & Hs). rewrite (pair_guard s a n) by done. apply first_split_spec. split_and!; [done..|by apply lengths_complete].
Qed.

Definition form (s p : str) : Prop :=
  ∃ a n, a ∈ VALID_ADJECTIVES ∧ n ∈ VALID_NOUNS ∧ to_ascii_lowercase s = a ++ n ∧ p = pascal_case_agent_name a n.

Definition cache_ok (c : NormCache) : Prop := (Z.of_nat (size c) ≤ 8192)%Z ∧ ∀ k v, c !! k = Some v → form k v.

Lemma form_fun s p q : form s p → form s q → p = q.
Proof. intros (a & n & Ha & Hn & Hs & ->) (a' & n' & Ha' & Hn' & Hs' & ->). rewrite Hs in Hs'. by destruct (pairs_unique a n a' n') as [-> ->]. Qed.

Lemma form_lower s p : form (to_ascii_lowercase s) p ↔ form s p.
Proof. unfold form. by rewrite to_ascii_lowercase_idem. Qed.

Lemma normalize_step c name r c' :
  cache_ok c → normalize_agent_name c name = (r, c') → cache_ok c' ∧ ∀ p, r = Some p ↔ form (trim name) p.
Proof.
  intros Hc. unfold normalize_agent_name. set (s := trim name). destruct (negb (is_ascii s) || _) eqn:Hg.
  { intros [= <- <-]. split; [done|]. intros p. split; [done|]. intros (a & n & Ha & Hn & Hs & _). by rewrite (pair_guard s a n) in Hg. }
  destruct (c !! to_ascii_lowercase s) as [v|] eqn:Hv.
  { intros [= <- <-]. split; [done|]. destruct Hc as [_ Hc]. apply Hc in Hv. rewrite form_lower in Hv. intros p. split; [by intros [= <-]|].
    intros Hp. f_equal. by eapply form_fun. }
  destruct (split_valid_agent_name (to_ascii_lowercase s)) as [[a n]|] eqn:Hs.
  - apply split_valid_spec in Hs as (Ha & Hn & Hs). rewrite to_ascii_lowercase_idem in Hs.
    assert (form s (pascal_case_agent_name a n)) as Hf by (exists a, n; done). intros [= <- <-]. split.
    + destruct Hc as [Hsz Hc]. split.
      * destruct (8192 <=? Z.of_nat (size c))%Z eqn:Hfull; [rewrite map_size_insert, lookup_empty, map_size_empty; simpl; lia|].
        apply Z.leb_gt in Hfull. rewrite map_size_insert. destruct (c !! _); simpl; lia.
      * intros k v. destruct (decide (k = to_ascii_lowercase s)) as [->|Hne].
        { rewrite lookup_insert_eq. intros [= <-]. by apply form_lower. }
        rewrite lookup_insert_ne by done. destruct (8192 <=? Z.of_nat (size c))%Z; [by rewrite lookup_empty|apply Hc].
    + intros p. split; [by intros [= <-]|]. intros Hp. f_equal. by eapply form_fun.
  - intros [= <- <-]. split; [done|]. intros p. split; [done|]. intros (a & n & Ha & Hn & Hl & _).
    rewrite (proj2 (split_valid_spec (to_ascii_lowercase s) a n)) in Hs; [done|]. by rewrite to_ascii_lowercase_idem.
Qed.

Lemma cache_ok_empty : cache_ok ∅.
Proof. split; [rewrite map_size_empty; lia|]. intros k v. by rewrite lookup_empty. Qed.

Lemma normalize_all_ok c names : cache_ok c → cache_ok (normalize_all c names).2.
Proof.
  revert c. induction names as [|name names IH]; intros c Hc; [done|]. simpl. destruct (normalize_agent_name c name) as [r c'] eqn:Hr.
  destruct (normalize_step c name r c' Hc Hr) as [Hc' _]. specialize (IH c' Hc'). by destruct (normalize_all c' names).
Qed.

(** C31: The cache in front of the normal form changes nothing.  Whatever names
    a thread has asked for, the next answer is [Some p] exactly when the
    trimmed name is, in any capitalisation, an adjective of the one list
    followed by a noun of the other, and [p] is these two words, capitalised;
    no name reads as two different pairs.  The cache holds at most 8192
    names. *)
Theorem normalize_agent_name_spec before name :
  let cache := (normalize_all ∅ before).2 in
  (Z.of_nat (size cache) ≤ 8192)%Z ∧
  ∀ p, (normalize_agent_name cache name).1 = Some p ↔
    exists! pair : str * str, pair.1 ∈ VALID_ADJECTIVES ∧ pair.2 ∈ VALID_NOUNS ∧
      to_ascii_lowercase (trim name) = pair.1 ++ pair.2 ∧ p = pascal_case_agent_name pair.1 pair.2.
Proof.
  intros cache. pose proof (normalize_all_ok ∅ before cache_ok_empty) as Hc. fold cache in Hc. split; [apply Hc|].
  intros p. destruct (normalize_agent_name cache name) as [r c'] eqn:Hr.
  destruct (normalize_step cache name r c' Hc Hr) as [_ Hp]. simpl. rewrite Hp. split.
  - intros (a & n & Ha & Hn & Hs & ->). exists (a, n). split; [done|]. intros [a' n'] (Ha' & Hn' & Hs' & _). simpl in *.
    rewrite Hs in Hs'. by destruct (pairs_unique a n a' n') as [-> ->].
  - intros ([a n] & (Ha & Hn & Hs & ->) & _). by exists a, n.
Qed.

Lemma generated_pair a n hash :
  a = VALID_ADJECTIVES !!! Z.to_nat (hash `mod` Z.of_nat (length VALID_ADJECTIVES)) →
  n = VALID_NOUNS !!! Z.to_nat (Z.shiftr hash 32 `mod` Z.of_nat (length VALID_NOUNS)) →
  a ∈ VALID_ADJECTIVES ∧ n ∈ VALID_NOUNS.
Proof.
  intros -> ->. split; apply list_elem_of_lookup_total_2.
  - pose proof (Z.mod_pos_bound hash (Z.of_nat (length VALID_ADJECTIVES)) ltac:(by vm_compute)). lia.
  - pose proof (Z.mod_pos_bound (Z.shiftr hash 32) (Z.of_nat (length VALID_NOUNS)) ltac:(by vm_compute)). lia.
Qed.

(** Random bits for a pair of indices. *)
Lemma seed_for i j :
  (i < 75)%nat → (j < 132)%nat → ∃ hash, (0 ≤ hash ≤ u64_max ∧ hash `mod` 75 = Z.of_nat i ∧ Z.shiftr hash 32 `mod` 132 = Z.of_nat j)%Z.
Proof.
  intros Hi Hj. set (hi := (Z.of_nat j * 2 ^ 32)%Z). set (lo := ((Z.of_nat i - hi) `mod` 75)%Z). exists (hi + lo)%Z.
  pose proof (Z.mod_pos_bound (Z.of_nat i - hi) 75 ltac:(lia)) as Hlo. fold lo in Hlo. split_and!.
  - lia.
  - unfold u64_max. lia.
  - unfold lo. rewrite Zplus_mod_idemp_r. replace (hi + (Z.of_nat i - hi))%Z with (Z.of_nat i) by lia. apply Z.mod_small. lia.
  - rewrite Z.shiftr_div_pow2 by lia. unfold hi. rewrite Z.div_add_l by lia. rewrite (Z.div_small lo) by lia. rewrite Z.add_0_r. apply Z.mod_small. lia.
Qed.

(** Every pair is generated for some bits. *)
Lemma pair_generated a n :
  a ∈ VALID_ADJECTIVES → n ∈ VALID_NOUNS → ∃ hash, (0 ≤ hash ≤ u64_max)%Z ∧ generate_agent_name hash = pascal_case_agent_name a n.
Proof.
  intros Ha Hn. destruct (proj1 (list_elem_of_lookup _ _) Ha) as [i Hi]. destruct (proj1 (list_elem_of_lookup _ _) Hn) as [j Hj].
  assert (length VALID_ADJECTIVES = 75%nat) as HA by (vm_compute; reflexivity).
  assert (length VALID_NOUNS = 132%nat) as HN by (vm_compute; reflexivity).
  destruct (seed_for i j) as (hash & Hh & Hhi & Hhj); [rewrite <-HA; by eapply lookup_lt_Some|rewrite <-HN; by eapply lookup_lt_Some|].
  exists hash. split; [done|]. unfold generate_agent_name. rewrite HA, HN. change (Z.of_nat 75) with 75%Z. change (Z.of_nat 132) with 132%Z.
  rewrite Hhi, Hhj, !Nat2Z.id. by rewrite (list_lookup_total_correct _ _ _ Hi), (list_lookup_total_correct _ _ _ Hj).
Qed.

Lemma pascal_form a n : a ∈ VALID_ADJECTIVES → n ∈ VALID_NOUNS → form (trim (pascal_case_agent_name a n)) (pascal_case_agent_name a n).
Proof. intros Ha Hn. exists a, n. by rewrite pascal_trim, pascal_lower. Qed.

Lemma pascal_normal before a n :
  a ∈ VALID_ADJECTIVES → n ∈ VALID_NOUNS →
  (normalize_agent_name (normalize_all ∅ before).2 (pascal_case_agent_name a n)).1 = Some (pascal_case_agent_name a n).
Proof.
  intros Ha Hn. destruct (normalize_agent_name _ _) as [r c'] eqn:Hr.
  apply (normalize_step _ _ r c' (normalize_all_ok ∅ before cache_ok_empty)) in Hr as [_ Hr]. by apply Hr, pascal_form.
Qed.

(** The generator makes valid names and all of them.  Whatever the random
    bits, a generated name is its own normal form; and every adjective with
    every noun is generated for some 64 bits, and splits into them again. *)
Theorem generate_agent_name_spec before :
  let cache := (normalize_all ∅ before).2 in
  (∀ hash, (normalize_agent_name cache (generate_agent_name hash)).1 = Some (generate_agent_name hash)) ∧
  (∀ a n, a ∈ VALID_ADJECTIVES → n ∈ VALID_NOUNS →
    ∃ hash, (0 ≤ hash ≤ u64_max)%Z ∧ generate_agent_name hash = pascal_case_agent_name a n ∧
      split_valid_agent_name (generate_agent_name hash) = Some (a, n)).
Proof.
  intros cache. split.
  - intros hash. destruct (generated_pair _ _ hash eq_refl eq_refl) as [Ha Hn]. by apply pascal_normal.
  - intros a n Ha Hn. destruct (pair_generated a n Ha Hn) as (hash & Hh & Hg). exists hash. split; [done|]. split; [done|].
    rewrite Hg. apply split_valid_spec. by rewrite pascal_lower.
Qed.

(** ** Mistakes *)

(** A name the system hands out itself can be called a mistake: [Magenta]
    contains [agent], so every name of that adjective is a descriptive one to
    [detect_agent_name_mistake], as are [ChartreuseRiver] and [JadeValley]. *)
Theorem valid_name_called_mistake n :
  n ∈ VALID_NOUNS →
  split_valid_agent_name (pascal_case_agent_name (lit "magenta") n) = Some (lit "magenta", n) ∧
  detect_agent_name_mistake (pascal_case_agent_name (lit "magenta") n) = Some DESCRIPTIVE_NAME ∧
  detect_agent_name_mistake (lit "ChartreuseRiver") = Some DESCRIPTIVE_NAME ∧
  detect_agent_name_mistake (lit "JadeValley") = Some DESCRIPTIVE_NAME.
Proof.
  intros Hn.
  assert (forallb (λ n, bool_decide (detect_agent_name_mistake (pascal_case_agent_name (lit "magenta") n) = Some DESCRIPTIVE_NAME)) VALID_NOUNS = true)
    as Hall by (vm_compute; reflexivity).
  assert (lit "magenta" ∈ VALID_ADJECTIVES) as Ha by (apply (bool_decide_unpack _); vm_compute; exact I).
  rewrite forallb_forall in Hall.
  split_and!; [|apply (bool_decide_eq_true _), Hall, list_elem_of_In, Hn|vm_compute; reflexivity..].
  apply split_valid_spec. by rewrite pascal_lower.
Qed.

Module NameRuns.
Example valid_name_called_mistake_witness :
  lit "lake" ∈ VALID_NOUNS ∧ detect_agent_name_mistake (lit "MagentaLake") = Some DESCRIPTIVE_NAME.
Proof.
  assert (lit "lake" ∈ VALID_NOUNS) as H by (apply (bool_decide_unpack _); vm_compute; exact I).
  split; [exact H|]. apply (valid_name_called_mistake (lit "lake") H).
Defined.

Example generate_agent_name_spec_witness :
  ∃ hash, (0 ≤ hash ≤ u64_max)%Z ∧ generate_agent_name hash = lit "BlueLake".
Proof.
  assert (lit "blue" ∈ VALID_ADJECTIVES) as Ha by (apply (bool_decide_unpack _); vm_compute; exact I).
  assert (lit "lake" ∈ VALID_NOUNS) as Hn by (apply (bool_decide_unpack _); vm_compute; exact I).
  destruct (proj2 (generate_agent_name_spec []) (lit "blue") (lit "lake") Ha Hn) as (hash & Hh & Hg & _). exists hash.
  split; [exact Hh|]. rewrite Hg. vm_compute. reflexivity.
Defined.

(** Blanks and capitals do not matter, other words do. *)
Example normal_forms :
  (normalize_all ∅ [lit " bluelake "; lit "BLUELAKE"; lit "goldenriver"; lit "BackendHarmonizer"; lit "tanox"]).1 =
  [Some (lit "BlueLake"); Some (lit "BlueLake"); Some (lit "GoldenRiver"); None; Some (lit "TanOx")].
Proof. vm_compute. reflexivity. Qed.
End NameRuns.
