(* ===== verification/Registration.v ===== *)
(** * Registration of agents ([mcp-agent-mail-tools/src/identity.rs],
      [register_agent], [create_agent] and the token of
      [mcp-agent-mail-db/src/queries.rs], [resolve_agent] of
      [mcp-agent-mail-tools/src/lib.rs])

    An agent takes a name, or a new one is made for it, and gets a token that
    proves who sends later.  A registration updates the row of that name or
    inserts one, in a transaction that is retried; then a probe looks whether
    the row is there, and a row that is not is deleted again.  What the engine
    answers to each statement, and what other connections commit before the
    probe, are arguments. *)

From stdpp Require Import base numbers tactics list gmap strings.
From S2P Require Import Prelude DbErrors Transactions S3Fifo ReadCache AgentLookup AgentNames.
Import DbErrors Transactions ReadCache AgentLookup AgentNames.
Open Scope Z_scope.

Module Registration.

(** ** Tokens ([mcp-agent-mail-core/src/setup.rs]) *)

Definition ALPHABET : str := lit "ABCDEFGHIJKLMNOPQRSTUVWXYZabcdefghijklmnopqrstuvwxyz0123456789-_".

Definition sextet (n : Z) (shift : Z) : N := ALPHABET !!! Z.to_nat (Z.land (Z.shiftr n shift) 63).

Definition encode_chunk (chunk : list Z) : str :=
  let b0 := chunk !!! 0%nat in
  let b1 := default 0 (chunk !! 1%nat) in
  let b2 := default 0 (chunk !! 2%nat) in
  let n := Z.lor (Z.lor (Z.shiftl b0 16) (Z.shiftl b1 8)) b2 in
  [sextet n 18; sextet n 12]
  ++ (if (1 <? length chunk)%nat then [sextet n 6] else [])
  ++ (if (2 <? length chunk)%nat then [sextet n 0] else []).

Definition base64url_encode_nopad (input : list Z) : str := chunks 3 input ≫= encode_chunk.

(** [generate_registration_token] of 32 random bytes. *)
Definition generate_registration_token (bytes : list Z) : str := base64url_encode_nopad bytes.

(** The bytes of a character. *)
Definition utf8 (c : N) : list Z :=
  let c := Z.of_N c in
  if c <? 128 then [c]
  else if c <? 2048 then [192 + Z.shiftr c 6; 128 + Z.land c 63]
  else if c <? 65536 then [224 + Z.shiftr c 12; 128 + Z.land (Z.shiftr c 6) 63; 128 + Z.land c 63]
  else [240 + Z.shiftr c 18; 128 + Z.land (Z.shiftr c 12) 63; 128 + Z.land (Z.shiftr c 6) 63; 128 + Z.land c 63].

Definition as_bytes (s : str) : list Z := s ≫= utf8.

Definition constant_time_eq (a b : list Z) : bool :=
  if negb (length a =? length b)%nat then false
  else foldl (λ (diff : Z) (p : Z * Z), Z.lor diff (Z.lxor p.1 p.2)) 0 (zip a b) =? 0.

Definition constant_time_str_eq (a b : str) : bool := constant_time_eq (as_bytes a) (as_bytes b).

(** ** The table *)

(** [next_id] is the key [AUTOINCREMENT] gives next. *)
Record Db := { agents : list AgentRow; next_id : Z }.

Definition or_auto (s : str) : str := if bool_decide (s = []) then lit "auto" else s.

Definition decode_agent_row (a : AgentRow) : AgentRow :=
  {| id := id a; project_id := project_id a; name := name a; program := program a; model := model a;
     task_description := task_description a; inception_ts := inception_ts a; last_active_ts := last_active_ts a;
     attachments_policy := or_auto (attachments_policy a); contact_policy := or_auto (contact_policy a); reaper_exempt := reaper_exempt a;
     registration_token := t ← registration_token a; if bool_decide (t = []) then None else Some t |}.

(** The arguments of a registration. *)
Record Profile := {
  p_name : str;
  p_program : str;
  p_model : str;
  p_task : option str;
  p_policy : option str;
  p_exempt : option bool;
}.

(** The columns the update sets. *)
Definition apply_profile (p : Profile) (now : Z) (a : AgentRow) : AgentRow :=
  {| id := id a; project_id := project_id a; name := name a; program := p_program p; model := p_model p;
     task_description := default [] (p_task p); inception_ts := inception_ts a; last_active_ts := now;
     attachments_policy := default (attachments_policy a) (p_policy p); contact_policy := contact_policy a;
     reaper_exempt := from_option Z.b2z (reaper_exempt a) (p_exempt p); registration_token := registration_token a |}.

Definition new_row (i pid : Z) (p : Profile) (now : Z) : AgentRow :=
  {| id := Some i; project_id := pid; name := p_name p; program := p_program p; model := p_model p;
     task_description := default [] (p_task p); inception_ts := now; last_active_ts := now;
     attachments_policy := default (lit "auto") (p_policy p); contact_policy := lit "auto";
     reaper_exempt := Z.b2z (default false (p_exempt p)); registration_token := None |}.

Definition update_profile (pid : Z) (p : Profile) (now : Z) (d : Db) : Db :=
  {| agents := (λ a, if named pid (p_name p) a then apply_profile p now a else a) <$> agents d; next_id := next_id d |}.

Definition insert_agent (pid : Z) (p : Profile) (now : Z) (d : Db) : Db :=
  {| agents := agents d ++ [new_row (next_id d) pid p now]; next_id := next_id d + 1 |}.

Definition delete_agent (i pid : Z) (d : Db) : Db :=
  {| agents := filter (λ a, ¬ (id a = Some i ∧ project_id a = pid)) (agents d); next_id := next_id d |}.

Definition set_token (i : Z) (token : str) (a : AgentRow) : AgentRow :=
  if has_id i a then
    {| id := id a; project_id := project_id a; name := name a; program := program a; model := model a;
       task_description := task_description a; inception_ts := inception_ts a; last_active_ts := last_active_ts a;
       attachments_policy := attachments_policy a; contact_policy := contact_policy a; reaper_exempt := reaper_exempt a;
       registration_token := Some token |}
  else a.

(** ** What the engine answers

    [Done]: the statement does what it says. *)
Record Answers := {
  on_update : Outcome ();
  on_select : Outcome ();
  on_insert : Outcome ();
  on_update_again : Outcome ();
  on_select_again : Outcome ();
}.

(** The deletion of a row that could not be seen. *)
Record Removal := { on_connect : Outcome (); on_begin : Outcome (); on_delete : Outcome (); on_commit : Outcome () }.

Record World := {
  conn : Outcome ();
  now : Z;
  max_retries : nat;
  engine : nat → Engine;
  answers : nat → Answers;
  meanwhile : Db → Db;
  in_memory : bool;
  probe : nat → DbError + Outcome ();
  removal : Removal;
  instant : Z;
  instant' : Z;
}.

(** Error texts that are put together from others. *)
Inductive Text :=
  | InvalidName (name : str)
  | ReselectFailed (pid : Z) (name : str)
  | NotVisible (pid : Z) (name : str)
  | ProbeCancelled
  | ProbePanicked
  | RemovalFailed (error : DbError) (o : Outcome ())
  | Taken (pid : Z) (name : str)
  | Absent (pid : Z) (name : str).

Definition is_agent_unique_violation (e : DbError) : bool :=
  match e with
  | Sqlite msg =>
      let msg := to_ascii_lowercase msg in
      contains (lit "unique constraint failed") msg && (contains (lit "project_id") msg || contains (lit "name") msg)
  | _ => false
  end.

Definition is_unique_violation (e : DbError) : bool :=
  match e with
  | Sqlite msg =>
      let msg := to_ascii_lowercase msg in
      contains (lit "unique constraint failed") msg && (contains (lit "agents.project_id") msg || contains (lit "agents.name") msg)
  | _ => false
  end.

Section registration.
Context (scope_fingerprint : str → Z) (scope : str) (text : Text → str).

(** ** The transactions *)

(** The row of the name, once the transaction wrote it. *)
Definition reselect {T} (f : AgentRow → T) (pid : Z) (nm : str) (o : Outcome ()) (d : Db) : Outcome T * Db :=
  match o with
  | Done _ =>
      match select_by_name pid nm (agents d) with
      | Some fresh => (Done (f (decode_agent_row fresh)), d)
      | None => (Failed (Internal (text (ReselectFailed pid nm))), d)
      end
  | o => (not_done o, d)
  end.

(** The statements of [register_agent]; [true]: a row was inserted. *)
Definition register_body (pid : Z) (p : Profile) (now : Z) (x : Answers) (d : Db) : Outcome (AgentRow * bool) * Db :=
  match on_update x with
  | Done _ =>
      let d := update_profile pid p now d in
      match on_select x with
      | Done _ =>
          match select_by_name pid (p_name p) (agents d) with
          | Some existing => (Done (decode_agent_row existing, false), d)
          | None =>
              match on_insert x with
              | Done _ => reselect (λ a, (a, true)) pid (p_name p) (on_select_again x) (insert_agent pid p now d)
              | Failed e =>
                  if is_agent_unique_violation e then
                    match on_update_again x with
                    | Done _ => reselect (λ a, (a, false)) pid (p_name p) (on_select_again x) (update_profile pid p now d)
                    | o => (not_done o, d)
                    end
                  else (Failed e, d)
              | o => (not_done o, d)
              end
          end
      | o => (not_done o, d)
      end
  | o => (not_done o, d)
  end.

(** The statements of [create_agent]. *)
Definition create_body (pid : Z) (p : Profile) (now : Z) (x : Answers) (d : Db) : Outcome AgentRow * Db :=
  match on_select x with
  | Done _ =>
      match select_by_name pid (p_name p) (agents d) with
      | Some _ => (Failed (Duplicate (lit "agent") (text (Taken pid (p_name p)))), d)
      | None =>
          match on_insert x with
          | Done _ => reselect (λ a, a) pid (p_name p) (on_select_again x) (insert_agent pid p now d)
          | Failed e => (Failed (if is_unique_violation e then Duplicate (lit "agent") (text (Taken pid (p_name p))) else e), d)
          | o => (not_done o, d)
          end
      end
  | o => (not_done o, d)
  end.

(** ** After the commit *)

Definition verify_agent_visible_after_commit (w : World) (pid : Z) (nm : str) (d : Db) : Outcome AgentRow :=
  let query n :=
    match probe w n with
    | inl e => inl e
    | inr (Done _) => inr (Done (select_by_name pid nm (agents d)))
    | inr o => inr (not_done o)
    end in
  match durability_probe_query (in_memory w) query with
  | Done (Some a) => Done (decode_agent_row a)
  | Done None => Failed (Internal (text (NotVisible pid nm)))
  | o => not_done o
  end.

Definition cleanup_committed_agent_after_consistency_failure (v : Removal) (pid i : Z) (nm : str) (d : Db) (c : ReadCache)
    : Outcome () * Db * ReadCache :=
  match on_connect v with
  | Done _ =>
      let body d := match on_delete v with Done _ => (Done (), delete_agent i pid d) | o => (not_done o, d) end in
      match in_tx (on_begin v) body (on_commit v) d with
      | (Done _, d) => (Done (), d, invalidate_agent_scoped scope_fingerprint scope pid nm (Some i) c)
      | (o, d) => (not_done o, d, c)
      end
  | o => (not_done o, d, c)
  end.

Definition cleanup_created_agent_after_post_commit_probe_failure (v : Removal) (pid i : Z) (nm : str) (error : DbError) (d : Db) (c : ReadCache)
    : DbError * Db * ReadCache :=
  match cleanup_committed_agent_after_consistency_failure v pid i nm d c with
  | (Done _, d, c) => (error, d, c)
  | (o, d, c) => (Internal (text (RemovalFailed error o)), d, c)
  end.

(** The error of a probe that found nothing. *)
Definition probe_error {T} (o : Outcome T) : DbError :=
  match o with
  | Failed e => e
  | Panicked => Internal (text ProbePanicked)
  | _ => ResourceBusy (text ProbeCancelled)
  end.

Definition remove_unseen {T} (w : World) (pid : Z) (a : AgentRow) (nm : str) (o : Outcome T) (d : Db) (c : ReadCache)
    : Outcome (option AgentRow) * Db * ReadCache :=
  let '(e, d, c) := cleanup_created_agent_after_post_commit_probe_failure (removal w) pid (default 0 (id a)) nm (probe_error o) d c in
  (Failed e, d, c).

Definition finalize_register_agent_post_commit_probe (w : World) (pid : Z) (nm : str) (provisional : AgentRow) (inserted_new : bool)
    (probe_result : Outcome AgentRow) (d : Db) (c : ReadCache) : Outcome (option AgentRow) * Db * ReadCache :=
  match probe_result with
  | Done agent => (Done (Some agent), d, c)
  | o => if inserted_new then remove_unseen w pid provisional nm o d c else (Done None, d, c)
  end.

(** Put what is returned into the cache. *)
Definition conclude (w : World) (provisional : AgentRow) (r : Outcome (option AgentRow) * Db * ReadCache) : Outcome AgentRow * Db * ReadCache :=
  match r with
  | (Done durable, d, c) =>
      let final := default provisional durable in
      (Done final, d, put_agent_scoped scope_fingerprint scope final (instant w) (instant' w) c)
  | (o, d, c) => (not_done o, d, c)
  end.

Definition no_retries : Retries := {| retries_total := 0; exhausted_total := 0 |}.

Definition register_tx (w : World) (pid : Z) (p : Profile) (n : nat) (d : Db) : Outcome (AgentRow * bool) * Db :=
  in_tx (begin_concurrent_tx (engine w n)) (register_body pid p (now w) (answers w n)) (commit (engine w n)) d.

Definition register_agent (w : World) (pid : Z) (p : Profile) (d : Db) (c : ReadCache) : Outcome AgentRow * Db * ReadCache :=
  if negb (is_valid_agent_name ∅ (p_name p)) then (Failed (InvalidArgument (lit "name") (text (InvalidName (p_name p)))), d, c)
  else
    match conn w with
    | Done _ =>
        match run_with_mvcc_retry (max_retries w) (register_tx w pid p) no_retries d with
        | (Done (provisional, inserted_new), _, d) =>
            let d := meanwhile w d in
            conclude w provisional (finalize_register_agent_post_commit_probe w pid (p_name p) provisional inserted_new
              (verify_agent_visible_after_commit w pid (p_name p) d) d c)
        | (o, _, d) => (not_done o, d, c)
        end
    | o => (not_done o, d, c)
    end.

Definition create_agent (w : World) (pid : Z) (p : Profile) (d : Db) (c : ReadCache) : Outcome AgentRow * Db * ReadCache :=
  if negb (is_valid_agent_name ∅ (p_name p)) then (Failed (InvalidArgument (lit "name") (text (InvalidName (p_name p)))), d, c)
  else
    match conn w with
    | Done _ =>
        match in_tx (begin_immediate (engine w 0)) (create_body pid p (now w) (answers w 0)) (commit (engine w 0)) d with
        | (Done provisional, d) =>
            let d := meanwhile w d in
            conclude w provisional
              match verify_agent_visible_after_commit w pid (p_name p) d with
              | Done agent => (Done (Some agent), d, c)
              | o => remove_unseen w pid provisional (p_name p) o d c
              end
        | (o, d) => (not_done o, d, c)
        end
    | o => (not_done o, d, c)
    end.

(** [written]: the connection and the statement. *)
Definition update_agent_registration_token (written : Outcome ()) (i : Z) (token : str) (d : Db) : Outcome () * Db :=
  match written with
  | Done _ => (Done (), {| agents := set_token i token <$> agents d; next_id := next_id d |})
  | o => (o, d)
  end.

(** [get_agent], when nothing interrupts it. *)
Definition get_agent (selected : Outcome ()) (pid : Z) (nm : str) (now : Z) (d : Db) (c : ReadCache) : Outcome AgentRow * ReadCache :=
  match get_agent_scoped scope_fingerprint scope pid nm now c with
  | (Some cached, c) => (Done cached, c)
  | (None, c) =>
      match selected with
      | Done _ =>
          match select_by_name pid nm (agents d) with
          | Some row =>
              let agent := decode_agent_row row in
              (Done agent, put_agent_scoped scope_fingerprint scope agent now now c)
          | None => (Failed (NotFound (lit "Agent") (text (Absent pid nm))), c)
          end
      | o => (not_done o, c)
      end
  end.

(** ** The tools *)

Inductive ToolError :=
  | EMPTY_PROGRAM | EMPTY_MODEL
  | PROJECT
  | NAME (mistake : option Mistake)
  | POLICY
  | NAME_TAKEN
  | DATABASE (o : Outcome ())
  | EMPTY_NAME
  | PLACEHOLDER
  | UNKNOWN_AGENT (mistake : option Mistake).

(** What a call was given, and the random bits it draws. *)
Record Call := {
  c_program : str;
  c_model : str;
  c_project : option Z;
  c_name : option str;
  c_task : option str;
  c_policy : option str;
  c_exempt : option bool;
  c_bits : Z;
  c_token_bytes : list Z;
  c_token_written : Outcome ();
  c_instant : Z;
}.

(** The registration and the token of an answer; the rest of the row's fields
    are its own. *)
Record Reply := { row : AgentRow; token : str }.

Definition is_valid_attachments_policy (policy : str) : bool := bool_decide (policy ∈ lit <$> ["auto"; "inline"; "file"; "none"]%string).

Definition agent_name_of (given : option str) (bits : Z) : ToolError + str :=
  match given with
  | None => inr (generate_agent_name bits)
  | Some n =>
      let n := trim n in
      if bool_decide (n = []) then inr (generate_agent_name bits)
      else match (normalize_agent_name ∅ n).1 with
           | Some normalized => inr normalized
           | None => inl (NAME (detect_agent_name_mistake n))
           end
  end.

(** The checks of a call, in their order. *)
Definition checked (k : Call) : ToolError + (Z * Profile) :=
  let program := trim (c_program k) in
  let model := trim (c_model k) in
  if bool_decide (program = []) then inl EMPTY_PROGRAM
  else if bool_decide (model = []) then inl EMPTY_MODEL
  else
    match c_project k with
    | None => inl PROJECT
    | Some pid =>
        match agent_name_of (c_name k) (c_bits k) with
        | inl e => inl e
        | inr nm =>
            let policy := to_ascii_lowercase (trim (default (lit "auto") (c_policy k))) in
            if is_valid_attachments_policy policy then
              inr (pid, {| p_name := nm; p_program := program; p_model := model; p_task := c_task k; p_policy := Some policy; p_exempt := c_exempt k |})
            else inl POLICY
        end
    end.

Definition with_token (token : str) (a : AgentRow) : AgentRow :=
  if bool_decide (token = []) then a
  else {| id := id a; project_id := project_id a; name := name a; program := program a; model := model a;
          task_description := task_description a; inception_ts := inception_ts a; last_active_ts := last_active_ts a;
          attachments_policy := attachments_policy a; contact_policy := contact_policy a; reaper_exempt := reaper_exempt a;
          registration_token := Some token |}.

(** From the row on: a new token for it, and the entry of the unscoped cache. *)
Definition issue_token (k : Call) (pid : Z) (a : AgentRow) (d : Db) (c : ReadCache) : Reply * Db * ReadCache :=
  let token := generate_registration_token (c_token_bytes k) in
  let '(token, d) :=
    match id a with
    | Some i => match update_agent_registration_token (c_token_written k) i token d with (Done _, d) => (token, d) | (_, d) => ([], d) end
    | None => (token, d)
    end in
  let a := with_token token a in
  let c := invalidate_agent_scoped scope_fingerprint [] pid (name a) (id a) c in
  ({| row := a; token := token |}, d, put_agent_scoped scope_fingerprint [] a (c_instant k) (c_instant k) c).

Definition register_agent_tool (w : World) (k : Call) (d : Db) (c : ReadCache) : (ToolError + Reply) * Db * ReadCache :=
  match checked k with
  | inl e => (inl e, d, c)
  | inr (pid, p) =>
      match register_agent w pid p d c with
      | (Done a, d, c) => let '(r, d, c) := issue_token k pid a d c in (inr r, d, c)
      | (o, d, c) => (inl (DATABASE (not_done o)), d, c)
      end
  end.

(** [c_exempt] is not an argument of this tool. *)
Definition create_agent_identity (w : World) (k : Call) (d : Db) (c : ReadCache) : (ToolError + Reply) * Db * ReadCache :=
  match checked k with
  | inl e => (inl e, d, c)
  | inr (pid, p) =>
      match create_agent w pid p d c with
      | (Done a, d, c) => let '(r, d, c) := issue_token k pid a d c in (inr r, d, c)
      | (Failed (Duplicate _ _), d, c) => (inl NAME_TAKEN, d, c)
      | (o, d, c) => (inl (DATABASE (not_done o)), d, c)
      end
  end.

(** ** Finding an agent, and who sends *)

Definition AGENT_PLACEHOLDER_PATTERNS : list string :=
  ["YOUR_AGENT"; "YOUR_AGENT_NAME"; "AGENT_NAME"; "PLACEHOLDER"; "<AGENT>"; "{AGENT}"; "$AGENT"]%string.

Definition to_ascii_uppercase (s : str) : str := ascii_upper <$> s.

(** The name looked for: the normal form, or the name as it is. *)
Definition resolved_name (agent_name : str) : str :=
  let name_raw := trim agent_name in default name_raw (normalize_agent_name ∅ name_raw).1.

Definition resolve_agent (selected : Outcome ()) (pid : Z) (agent_name : str) (now : Z) (d : Db) (c : ReadCache) : (ToolError + AgentRow) * ReadCache :=
  if bool_decide (trim agent_name = []) then (inl EMPTY_NAME, c)
  else
    let nm := resolved_name agent_name in
    if contains_any AGENT_PLACEHOLDER_PATTERNS (to_ascii_uppercase nm) then (inl PLACEHOLDER, c)
    else
      match get_agent_scoped scope_fingerprint [] pid nm now c with
      | (Some cached, c) => (inr cached, c)
      | (None, c) =>
          match get_agent selected pid nm now d c with
          | (Done agent, c) => (inr agent, put_agent_scoped scope_fingerprint [] agent now now c)
          | (Failed (NotFound _ _), c) => (inl (UNKNOWN_AGENT (detect_agent_name_mistake nm)), c)
          | (o, c) => (inl (DATABASE (not_done o)), c)
          end
      end.

(** [Some verified], or the refusal [SENDER_TOKEN_MISMATCH]. *)
Definition verified_sender (sender_token : option str) (sender : AgentRow) : option bool :=
  match sender_token with
  | Some token =>
      match registration_token sender with
      | Some stored_token => if constant_time_str_eq token stored_token then Some true else None
      | None => Some false
      end
  | None => Some false
  end.
End registration.
End Registration.
