(* ===== verification/RegistrationFacts.v ===== *)
(** * What registration of agents guarantees

    The theorems about [Registration]: tokens are as different as the bits they
    are made of and are compared exactly; a registration changes one row and
    keeps names unique; a creation overwrites nothing; what an agent can prove
    after it registered, and how it can lose that. *)

From stdpp Require Import base numbers tactics list gmap strings.
From S2P Require Import Prelude KeyedBuckets DbErrors Transactions S3Fifo S3FifoFacts ReadCache ReadCacheFacts AgentLookup AgentNames AgentNamesFacts Registration.
Import DbErrors Transactions ReadCache AgentLookup AgentNames Registration.
Open Scope Z_scope.

(** ** Comparison *)

Lemma fold_diff l d :
  foldl (λ (diff : Z) (p : Z * Z), Z.lor diff (Z.lxor p.1 p.2)) d l = 0 ↔ d = 0 ∧ Forall (λ p : Z * Z, p.1 = p.2) l.
Proof.
  revert d. induction l as [|[x y] l IH]; intros d; simpl; [split; [by split|by intros []]|].
  rewrite IH, Z.lor_eq_0_iff, Z.lxor_eq_0_iff, Forall_cons. simpl. tauto.
Qed.

Lemma zip_diagonal (a b : list Z) : length a = length b → Forall (λ p : Z * Z, p.1 = p.2) (zip a b) ↔ a = b.
Proof.
  revert b. induction a as [|x a IH]; intros [|y b]; try done. simpl. intros Hl.
  injection Hl as Hl. rewrite Forall_cons, IH by done. simpl. split; [by intros [-> ->]|by intros [= -> ->]].
Qed.

Lemma constant_time_eq_iff a b : constant_time_eq a b = true ↔ a = b.
Proof.
  unfold constant_time_eq. destruct (Nat.eqb_spec (length a) (length b)) as [Hl|Hl]; simpl.
  - by rewrite Z.eqb_eq, fold_diff, <-zip_diagonal by done; naive_solver.
  - split; [done|]. by intros ->.
Qed.

(** The first byte of a character tells whether it is ASCII. *)
Lemma utf8_head c : ∃ b bs, utf8 c = b :: bs ∧ ((c < 128)%N ∧ b = Z.of_N c ∧ bs = [] ∨ (128 ≤ c)%N ∧ 128 ≤ b).
Proof.
  unfold utf8. destruct (Z.ltb_spec (Z.of_N c) 128); [eexists _, _; split; [done|left; split_and!; [lia|done..]]|].
  repeat case_if; eexists _, _; (split; [done|right]); (split; [lia|]);
    match goal with |- context [Z.shiftr ?x ?k] => pose proof (proj2 (Z.shiftr_nonneg x k)) as Hs end; lia.
Qed.

Lemma as_bytes_ascii a b : is_ascii b = true → as_bytes a = as_bytes b → a = b.
Proof.
  unfold is_ascii. revert b. induction a as [|c a IH]; intros [|d b]; cbn [forallb as_bytes]; try done.
  - intros _. unfold as_bytes. rewrite bind_cons. by destruct (utf8_head d) as (? & ? & -> & _).
  - intros _. unfold as_bytes. rewrite bind_cons. by destruct (utf8_head c) as (? & ? & -> & _).
  - intros [Hd%N.ltb_lt Hb]%andb_true_iff. unfold as_bytes. rewrite !bind_cons.
    destruct (utf8_head c) as (x & xs & -> & Hx), (utf8_head d) as (y & ys & -> & Hy).
    destruct Hy as [(_ & -> & ->)|[? _]]; [|lia]. simpl. intros [= -> Heq].
    destruct Hx as [(_ & Hx & ->)|[_ ?]]; [|lia]. apply N2Z.inj in Hx as ->. f_equal. by apply IH.
Qed.

(** An ASCII text equals only itself. *)
Lemma constant_time_str_eq_iff a b : is_ascii b = true → constant_time_str_eq a b = true ↔ a = b.
Proof. intros Hb. unfold constant_time_str_eq. rewrite constant_time_eq_iff. split; [by apply as_bytes_ascii|by intros ->]. Qed.

(** ** Tokens *)

Definition is_byte (b : Z) : Prop := 0 ≤ b < 256.

Lemma lor_add a b k : 0 ≤ k → 0 ≤ b < 2 ^ k → Z.lor (a * 2 ^ k) b = a * 2 ^ k + b.
Proof.
  intros Hk Hb. rewrite <-Z.add_lor_land. replace (Z.land (a * 2 ^ k) b) with 0; [lia|]. symmetry. apply Z.bits_inj'. intros n Hn.
  rewrite Z.land_spec, Z.bits_0, Z.testbit_eqb by done. destruct (decide (n < k)) as [Hlt|Hge].
  - replace (a * 2 ^ k / 2 ^ n) with (a * 2 ^ (k - n - 1) * 2).
    + by rewrite Z.mod_mul by lia.
    + rewrite (Z.div_unique (a * 2 ^ k) (2 ^ n) (a * 2 ^ (k - n - 1) * 2) 0); [done|left; pose proof (Z.pow_pos_nonneg 2 n); lia|].
      rewrite Z.add_0_r. replace k with (n + ((k - n - 1) + 1)) at 1 by lia. rewrite !Z.pow_add_r by lia. lia.
  - rewrite (Z.testbit_eqb b n) by done. rewrite (Z.div_small b (2 ^ n)); [by rewrite andb_false_r|].
    pose proof (Z.pow_le_mono_r 2 k n). lia.
Qed.

Lemma triple_sum b0 b1 b2 : is_byte b0 → is_byte b1 → is_byte b2 →
  Z.lor (Z.lor (Z.shiftl b0 16) (Z.shiftl b1 8)) b2 = b0 * 65536 + b1 * 256 + b2.
Proof.
  unfold is_byte. intros H0 H1 H2. rewrite !Z.shiftl_mul_pow2 by lia. rewrite (lor_add b0 (b1 * 2 ^ 8) 16) by lia.
  replace (b0 * 2 ^ 16 + b1 * 2 ^ 8) with ((b0 * 2 ^ 8 + b1) * 2 ^ 8) by lia. rewrite lor_add by lia. lia.
Qed.

Lemma sextet_div n k : 0 ≤ k → sextet n k = ALPHABET !!! Z.to_nat ((n / 2 ^ k) `mod` 64).
Proof. intros Hk. unfold sextet. rewrite Z.shiftr_div_pow2 by done. by change 63 with (Z.ones 6); rewrite Z.land_ones by lia. Qed.

Lemma alphabet_distinct i j : (i < 64)%nat → (j < 64)%nat → ALPHABET !!! i = ALPHABET !!! j → i = j.
Proof.
  intros Hi Hj Heq. assert (NoDup ALPHABET) as Hnd by (apply (bool_decide_unpack _); vm_compute; exact I).
  assert (length ALPHABET = 64%nat) as Hl by (vm_compute; reflexivity).
  pose proof (list_lookup_lookup_total_lt ALPHABET i ltac:(lia)) as H1. pose proof (list_lookup_lookup_total_lt ALPHABET j ltac:(lia)) as H2.
  rewrite Heq in H1. by eapply NoDup_lookup.
Qed.

Lemma sextet_inj n m k : 0 ≤ k → sextet n k = sextet m k → (n / 2 ^ k) `mod` 64 = (m / 2 ^ k) `mod` 64.
Proof.
  intros Hk. rewrite !sextet_div by done. pose proof (Z.mod_pos_bound (n / 2 ^ k) 64). pose proof (Z.mod_pos_bound (m / 2 ^ k) 64).
  intros Heq%alphabet_distinct; lia.
Qed.

(** The leading six bits and the next ones make the number. *)
Lemma sextets_join n m k : 0 ≤ k → n / 2 ^ (k + 6) = m / 2 ^ (k + 6) → (n / 2 ^ k) `mod` 64 = (m / 2 ^ k) `mod` 64 → n / 2 ^ k = m / 2 ^ k.
Proof.
  intros Hk. rewrite Z.pow_add_r, <-!Z.div_div by lia. change (2 ^ 6) with 64. intros H1 H2.
  rewrite (Z.div_mod (n / 2 ^ k) 64), (Z.div_mod (m / 2 ^ k) 64) by lia. by rewrite H1, H2.
Qed.

Lemma sextet_char n k : 0 ≤ k → sextet n k ∈ ALPHABET.
Proof.
  intros Hk. rewrite sextet_div by done. apply list_elem_of_lookup_total_2. pose proof (Z.mod_pos_bound (n / 2 ^ k) 64).
  assert (length ALPHABET = 64%nat) as -> by (vm_compute; reflexivity). lia.
Qed.

Lemma encode_chunk_length c : length (encode_chunk c) = (2 + (if (1 <? length c)%nat then 1 else 0) + (if (2 <? length c)%nat then 1 else 0))%nat.
Proof. unfold encode_chunk. by destruct (1 <? length c)%nat, (2 <? length c)%nat. Qed.

Lemma encode_chunk_chars c x : x ∈ encode_chunk c → x ∈ ALPHABET.
Proof.
  unfold encode_chunk. rewrite !elem_of_app, !elem_of_cons. pose proof (λ n k, sextet_char n k).
  destruct (1 <? length c)%nat, (2 <? length c)%nat; rewrite ?list_elem_of_singleton, ?elem_of_nil; intros Hx; destruct_or?; subst; try done; apply sextet_char; lia.
Qed.

Lemma encode_chunk_inj c d :
  (1 ≤ length c ≤ 3)%nat → length c = length d → Forall is_byte c → Forall is_byte d → encode_chunk c = encode_chunk d → c = d.
Proof.
  intros Hc Hl Hbc Hbd.
  assert (∀ b0 b1 b2 e0 e1 e2, is_byte b0 → is_byte b1 → is_byte b2 → is_byte e0 → is_byte e1 → is_byte e2 →
    let n := Z.lor (Z.lor (Z.shiftl b0 16) (Z.shiftl b1 8)) b2 in let m := Z.lor (Z.lor (Z.shiftl e0 16) (Z.shiftl e1 8)) e2 in
    sextet n 18 = sextet m 18 → sextet n 12 = sextet m 12 → n / 2 ^ 12 = m / 2 ^ 12 ∧ n = b0 * 65536 + b1 * 256 + b2 ∧ m = e0 * 65536 + e1 * 256 + e2) as Hfirst.
  { intros b0 b1 b2 e0 e1 e2 H0 H1 H2 G0 G1 G2 n m H18 H12. pose proof (triple_sum b0 b1 b2 H0 H1 H2) as Hn. pose proof (triple_sum e0 e1 e2 G0 G1 G2) as Hm.
    fold n in Hn. fold m in Hm. unfold is_byte in *. split; [|done]. apply sextet_inj in H18; [|lia]. apply sextet_inj in H12; [|lia].
    apply sextets_join; [lia| |done]. apply sextets_join; [lia| |done]. change (2 ^ (12 + 6 + 6)) with 16777216. rewrite !Z.div_small by lia. done. }
  unfold encode_chunk.
  destruct c as [|b0 [|b1 [|b2 [|]]]], d as [|e0 [|e1 [|e2 [|]]]]; simpl in Hc, Hl; try lia; simpl;
    repeat match goal with H : Forall _ (_ :: _) |- _ => apply Forall_cons in H as [? H] end.
  - intros [= H18 H12]. destruct (Hfirst b0 0 0 e0 0 0) as (Hq & Hn & Hm); [done || (unfold is_byte; lia)..|].
    unfold is_byte in *. rewrite Hn, Hm in Hq. change (2 ^ 12) with 4096 in Hq. f_equal. clear -Hq H H0. Z.to_euclidean_division_equations. lia.
  - intros [= H18 H12 H6]. destruct (Hfirst b0 b1 0 e0 e1 0) as (Hq & Hn & Hm); [done || (unfold is_byte; lia)..|].
    apply sextet_inj in H6; [|lia]. apply (sextets_join _ _ 6) in Hq; [|lia|done]. unfold is_byte in *. rewrite Hn, Hm in Hq.
    change (2 ^ 6) with 64 in Hq. assert (b0 = e0 ∧ b1 = e1) as [-> ->]; [|done]. clear -Hq H H0 H1 H2. Z.to_euclidean_division_equations. lia.
  - intros [= H18 H12 H6 H0']. destruct (Hfirst b0 b1 b2 e0 e1 e2) as (Hq & Hn & Hm); [done..|].
    apply sextet_inj in H6, H0'; [|lia..]. apply (sextets_join _ _ 6) in Hq; [|lia|done]. apply (sextets_join _ _ 0) in Hq; [|lia|done].
    rewrite !Z.div_1_r in Hq. rewrite Hn, Hm in Hq. unfold is_byte in *. assert (b0 = e0 ∧ b1 = e1 ∧ b2 = e2) as (-> & -> & ->) by lia. done.
Qed.

Lemma encode_inj_fuel fuel a b :
  (length a ≤ fuel)%nat → length a = length b → Forall is_byte a → Forall is_byte b →
  chunks_fuel fuel 3 a ≫= encode_chunk = chunks_fuel fuel 3 b ≫= encode_chunk → a = b.
Proof.
  revert a b. induction fuel as [|fuel IH]; intros [|x a] [|y b] Hf Hl Ha Hb; try done; [simpl in Hf; lia|].
  cbn [chunks_fuel]. rewrite !bind_cons. intros Heq. set (s := x :: a) in *. set (t := y :: b) in *.
  assert (length (take 3 s) = length (take 3 t)) as Ht by (rewrite !length_take; by rewrite Hl).
  apply app_inj_1 in Heq as [H1 H2]; [|by rewrite !encode_chunk_length, Ht].
  rewrite <-(take_drop 3 s), <-(take_drop 3 t). f_equal.
  - apply encode_chunk_inj; [|done|by apply Forall_take..|done]. rewrite length_take. change (length s) with (S (length a)). lia.
  - apply IH; [|rewrite !length_drop; lia|by apply Forall_drop..|done]. rewrite length_drop. change (length s) with (S (length a)) in *. lia.
Qed.

Lemma token_chars bytes x : x ∈ generate_registration_token bytes → x ∈ ALPHABET.
Proof. unfold generate_registration_token, base64url_encode_nopad. rewrite list_elem_of_bind. intros (c & Hx & _). by eapply encode_chunk_chars. Qed.

Lemma token_ascii bytes : is_ascii (generate_registration_token bytes) = true.
Proof.
  apply forallb_forall. intros x Hx%list_elem_of_In%token_chars.
  assert (forallb (λ c, (c <? 128)%N) ALPHABET = true) as Hall by (vm_compute; reflexivity). rewrite forallb_forall in Hall. by apply Hall, list_elem_of_In.
Qed.

(** Of 32 bytes: eleven chunks. *)
Lemma token_length bytes : length bytes = 32%nat → length (generate_registration_token bytes) = 43%nat.
Proof.
  intros Hl. do 32 (destruct bytes as [|? bytes]; [done|]). destruct bytes; [|done]. reflexivity.
Qed.

(** Tokens are as good as the bits they come from.  A token of 32 random
    bytes has 43 characters of the URL-safe alphabet, different bytes give
    different tokens, and the comparison of a presented token accepts exactly
    the stored one, whatever text is presented. *)
Theorem registration_tokens_distinct a b presented :
  length a = 32%nat → length b = 32%nat → Forall is_byte a → Forall is_byte b →
  length (generate_registration_token a) = 43%nat ∧ (∀ c, c ∈ generate_registration_token a → c ∈ ALPHABET) ∧
  (generate_registration_token a = generate_registration_token b ↔ a = b) ∧
  (constant_time_str_eq presented (generate_registration_token a) = true ↔ presented = generate_registration_token a).
Proof.
  intros Hla Hlb Ha Hb. split_and!; [by apply token_length|apply token_chars| |apply constant_time_str_eq_iff, token_ascii].
  split; [|by intros ->]. unfold generate_registration_token, base64url_encode_nopad, chunks. rewrite Hla, Hlb.
  apply encode_inj_fuel; [lia|congruence|done|done].
Qed.

(** ** The table *)

Definition row_key (a : AgentRow) : Z * str := (project_id a, to_ascii_lowercase (name a)).

(** Names are unique in a project whatever their capitals, identifiers are
    unique, and the next identifier is new. *)
Record wf (d : Db) : Prop := {
  wf_names : NoDup (row_key <$> agents d);
  wf_ids : NoDup (id <$> agents d);
  wf_next a : a ∈ agents d → ∃ i, id a = Some i ∧ i < next_id d;
}.

Lemma named_key pid nm a : named pid nm a = true ↔ row_key a = (pid, to_ascii_lowercase nm).
Proof.
  unfold named, row_key, eq_ignore_ascii_case. rewrite andb_true_iff, Z.eqb_eq, bool_decide_eq_true. split; [by intros [-> ->]|by intros [= -> ->]].
Qed.

Lemma nodup_fmap_same {A B} (f : A → B) l x y : NoDup (f <$> l) → x ∈ l → y ∈ l → f x = f y → x = y.
Proof.
  intros Hnd [i Hi]%list_elem_of_lookup [j Hj]%list_elem_of_lookup Heq. assert (i = j) as ->.
  { eapply NoDup_lookup; [exact Hnd|rewrite list_lookup_fmap, Hi; simpl; reflexivity|rewrite list_lookup_fmap, Hj; simpl; by rewrite Heq]. }
  congruence.
Qed.

Lemma select_some pid nm tb a : select_by_name pid nm tb = Some a → named pid nm a = true ∧ a ∈ tb.
Proof.
  unfold select_by_name. destruct (filter _ tb) as [|b l] eqn:Hf; [done|]. intros [= ->].
  assert (a ∈ filter (λ a, named pid nm a = true) tb) as Ha by (rewrite Hf; left). by apply list_elem_of_filter in Ha.
Qed.

Lemma select_none pid nm tb : select_by_name pid nm tb = None ↔ ∀ a, a ∈ tb → named pid nm a = false.
Proof.
  unfold select_by_name. split.
  - intros Hn a Ha. apply not_true_iff_false. intros Hnm. assert (a ∈ filter (λ a, named pid nm a = true) tb) as Hf by by apply list_elem_of_filter.
    destruct (filter _ tb); [by apply elem_of_nil in Hf|done].
  - intros Hall. destruct (filter _ tb) as [|b l] eqn:Hf; [done|].
    assert (b ∈ filter (λ a, named pid nm a = true) tb) as Hb by (rewrite Hf; left). apply list_elem_of_filter in Hb as [Hnm Hb].
    by rewrite Hall in Hnm.
Qed.

Lemma select_the d pid nm a : wf d → a ∈ agents d → named pid nm a = true → select_by_name pid nm (agents d) = Some a.
Proof.
  intros Hwf Ha Hn. destruct (select_by_name pid nm (agents d)) as [b|] eqn:Hs.
  - apply select_some in Hs as [Hb Hin]. f_equal. apply (nodup_fmap_same row_key (agents d)); [apply Hwf|done..|].
    apply named_key in Hn, Hb. congruence.
  - by rewrite (proj1 (select_none _ _ _) Hs a Ha) in Hn.
Qed.

(** Updates that keep keys and identifiers keep the table well formed. *)
Lemma agents_fmap_wf (f : AgentRow → AgentRow) d :
  (∀ a, row_key (f a) = row_key a) → (∀ a, id (f a) = id a) → wf d → wf {| agents := f <$> agents d; next_id := next_id d |}.
Proof.
  intros Hk Hi Hwf. split; simpl.
  - rewrite <-list_fmap_compose. erewrite list_fmap_ext; [apply Hwf|]. intros _ a _. apply Hk.
  - rewrite <-list_fmap_compose. erewrite list_fmap_ext; [apply Hwf|]. intros _ a _. apply Hi.
  - intros a (b & -> & Hb)%list_elem_of_fmap. rewrite Hi. by apply Hwf.
Qed.

Lemma profile_update_wf pid p now d : wf d → wf (update_profile pid p now d).
Proof. apply agents_fmap_wf; intros a; by case_if. Qed.

Lemma wf_token i token d : wf d → wf {| agents := set_token i token <$> agents d; next_id := next_id d |}.
Proof. apply agents_fmap_wf; intros a; unfold set_token; by case_if. Qed.

Lemma nodup_fmap_filter {A B} (f : A → B) (P : A → Prop) `{∀ x, Decision (P x)} l : NoDup (f <$> l) → NoDup (f <$> filter P l).
Proof.
  induction l as [|x l IH]; [done|]. rewrite fmap_cons, NoDup_cons, filter_cons. intros [Hx Hl]. case_decide; [|by apply IH].
  rewrite fmap_cons, NoDup_cons. split; [|by apply IH]. intros (y & Hy & [_ Hin]%list_elem_of_filter)%list_elem_of_fmap.
  apply Hx. rewrite Hy. by apply list_elem_of_fmap_2.
Qed.

Lemma wf_delete i pid d : wf d → wf (delete_agent i pid d).
Proof.
  intros Hwf. split; simpl; [apply nodup_fmap_filter, Hwf..|]. intros a [_ Ha]%list_elem_of_filter. by apply Hwf.
Qed.

Lemma wf_insert pid p now d : wf d → select_by_name pid (p_name p) (agents d) = None → wf (insert_agent pid p now d).
Proof.
  intros Hwf Hn. pose proof (proj1 (select_none _ _ _) Hn) as Hnone. split; simpl.
  - rewrite fmap_app. apply NoDup_app. split_and!; [apply Hwf| |apply NoDup_singleton].
    intros k (a & -> & Ha)%list_elem_of_fmap Hk. apply list_elem_of_singleton in Hk. specialize (Hnone a Ha).
    by rewrite (proj2 (named_key pid (p_name p) a)) in Hnone.
  - rewrite fmap_app. apply NoDup_app. split_and!; [apply Hwf| |apply NoDup_singleton].
    intros k (a & -> & Ha)%list_elem_of_fmap Hk. apply list_elem_of_singleton in Hk. destruct (wf_next d Hwf a Ha) as (i & Hi & Hlt).
    rewrite Hi in Hk. injection Hk. lia.
  - intros a [Ha|Ha]%elem_of_app; [destruct (wf_next d Hwf a Ha) as (i & Hi & Hlt); exists i; split; [done|lia]|].
    apply list_elem_of_singleton in Ha as ->. eexists. split; [done|]. lia.
Qed.

(** What a registration leaves in the table. *)
Definition upserted (pid : Z) (p : Profile) (now : Z) (d : Db) : Db :=
  match select_by_name pid (p_name p) (agents d) with
  | Some _ => update_profile pid p now d
  | None => insert_agent pid p now d
  end.

Lemma update_none pid p now d : select_by_name pid (p_name p) (agents d) = None → update_profile pid p now d = d.
Proof.
  intros Hn. destruct d as [tb i]. unfold update_profile. simpl in *. f_equal. rewrite <-(list_fmap_id tb) at 2.
  apply list_fmap_ext. intros k a Ha. rewrite (proj1 (select_none _ _ _) Hn a); [done|]. apply list_elem_of_lookup. eauto.
Qed.

Lemma named_apply pid nm p now a : named pid nm (apply_profile p now a) = named pid nm a.
Proof. done. Qed.

Lemma select_update pid p now d :
  select_by_name pid (p_name p) (agents (update_profile pid p now d)) = apply_profile p now <$> select_by_name pid (p_name p) (agents d).
Proof.
  unfold select_by_name, update_profile. simpl. induction (agents d) as [|a tb IH]; [done|]. rewrite fmap_cons, !filter_cons.
  destruct (named pid (p_name p) a) eqn:Ha.
  - rewrite !decide_True; [done|done|]. by rewrite named_apply.
  - rewrite !decide_False; [apply IH|done|by rewrite Ha].
Qed.

Lemma new_row_named i pid p now : named pid (p_name p) (new_row i pid p now) = true.
Proof. by apply named_key. Qed.

Lemma select_insert pid p now d :
  select_by_name pid (p_name p) (agents d) = None →
  select_by_name pid (p_name p) (agents (insert_agent pid p now d)) = Some (new_row (next_id d) pid p now).
Proof.
  unfold select_by_name, insert_agent. simpl. rewrite filter_app. intros Hn.
  destruct (filter _ (agents d)) as [|a l] eqn:Hf; [|done]. simpl. rewrite filter_cons, decide_True; [done|]. apply new_row_named.
Qed.

Lemma upserted_row pid p now d :
  select_by_name pid (p_name p) (agents (upserted pid p now d)) =
    Some (from_option (apply_profile p now) (new_row (next_id d) pid p now) (select_by_name pid (p_name p) (agents d))).
Proof.
  unfold upserted. destruct (select_by_name pid (p_name p) (agents d)) as [old|] eqn:Hs; [by rewrite select_update, Hs|by apply select_insert].
Qed.

Lemma upserted_others pid p now d b : named pid (p_name p) b = false → b ∈ agents (upserted pid p now d) ↔ b ∈ agents d.
Proof.
  intros Hb. unfold upserted. destruct (select_by_name pid (p_name p) (agents d)) as [old|].
  - simpl. rewrite list_elem_of_fmap. split.
    + intros (a & -> & Ha). destruct (named pid (p_name p) a) eqn:Hn; [|done]. by rewrite named_apply, Hn in Hb.
    + intros Hin. exists b. by rewrite Hb.
  - simpl. rewrite elem_of_app, list_elem_of_singleton. split; [|by left]. intros [?| ->]; [done|]. by rewrite new_row_named in Hb.
Qed.

Lemma wf_upserted pid p now d : wf d → wf (upserted pid p now d).
Proof.
  intros Hwf. unfold upserted. destruct (select_by_name _ _ _) eqn:Hs; [by apply profile_update_wf|by apply wf_insert].
Qed.

(** ** The transactions *)

Lemma upserted_some pid p now d old : select_by_name pid (p_name p) (agents d) = Some old → upserted pid p now d = update_profile pid p now d.
Proof. unfold upserted. by intros ->. Qed.
Lemma upserted_none pid p now d : select_by_name pid (p_name p) (agents d) = None → upserted pid p now d = insert_agent pid p now d.
Proof. unfold upserted. by intros ->. Qed.

(** A committed attempt of a transaction that is retried. *)
Lemma retried_result {S T} max (begin commit : nat → Outcome ()) (body : nat → S → Outcome T * S) (r : Retries) (d : S) o r' d' :
  run_with_mvcc_retry max (λ n, in_tx (begin n) (body n) (commit n)) r d = (o, r', d') →
  (∃ n v, o = Done v ∧ body n d = (Done v, d')) ∨ (is_done o = false ∧ d' = d).
Proof.
  intros Hr. unfold run_with_mvcc_retry in Hr.
  destruct (retry_loop_spec (λ n, in_tx (begin n) (body n) (commit n)) max max r d) as (n & r1 & _ & _ & Hl & _); [|lia|].
  - intros n db. destruct (in_tx (begin n) (body n) (commit n) db) as [o1 d1] eqn:Ho.
    by destruct (in_tx_atomic _ _ _ _ _ _ Ho) as [(v & -> & _)|[_ ->]].
  - rewrite Hl in Hr. simpl in Hr. destruct (in_tx (begin n) (body n) (commit n) d) as [o1 d1] eqn:Ho. simpl in Hr. injection Hr as <- _ <-.
    destruct (in_tx_atomic _ _ _ _ _ _ Ho) as [(v & -> & Hb)|?]; [left; by exists n, v|by right].
Qed.

Section facts.
Context (scope_fingerprint : str → Z) (scope : str) (text : Text → str).
Implicit Types (w : World) (d : Db) (c : ReadCache).

Lemma not_done_false {A T} (o : Outcome A) : is_done (not_done (T := T) o) = false.
Proof. by destruct o. Qed.

Lemma reselect_done {T} (f : AgentRow → T) pid nm o d v d' :
  reselect text f pid nm o d = (Done v, d') → d' = d ∧ ∃ row, select_by_name pid nm (agents d) = Some row ∧ v = f (decode_agent_row row).
Proof.
  unfold reselect. destruct o; [|done..]. destruct (select_by_name pid nm (agents d)) as [row|]; [|done]. intros [= <- <-]. eauto.
Qed.

(** The row a registration commits to. *)
Definition upserted_agent (pid : Z) (p : Profile) (now : Z) (d : Db) : AgentRow :=
  from_option (apply_profile p now) (new_row (next_id d) pid p now) (select_by_name pid (p_name p) (agents d)).

Lemma register_body_done pid p now x d a b d' :
  register_body text pid p now x d = (Done (a, b), d') →
  d' = upserted pid p now d ∧ a = decode_agent_row (upserted_agent pid p now d) ∧ (b = true ↔ select_by_name pid (p_name p) (agents d) = None).
Proof.
  unfold register_body, upserted_agent. destruct (on_update x); [|done..]. destruct (on_select x); [|done..]. rewrite select_update.
  destruct (select_by_name pid (p_name p) (agents d)) as [old|] eqn:Hs; simpl.
  { intros [= <- <- <-]. by rewrite (upserted_some _ _ _ _ _ Hs). }
  rewrite !(update_none pid p now d) by done. destruct (on_insert x) as [ins|e| |]; [| |done..].
  - intros (-> & row & Hrow & [= -> ->])%reselect_done. rewrite select_insert in Hrow by done. injection Hrow as <-. by rewrite upserted_none.
  - destruct (is_agent_unique_violation e); [|done]. destruct (on_update_again x); [|done..].
    intros (_ & row & Hrow & _)%reselect_done. congruence.
Qed.

Lemma create_body_done pid p now x d a d' :
  create_body text pid p now x d = (Done a, d') →
  select_by_name pid (p_name p) (agents d) = None ∧ d' = insert_agent pid p now d ∧ a = decode_agent_row (new_row (next_id d) pid p now).
Proof.
  unfold create_body. destruct (on_select x); [|done..]. destruct (select_by_name pid (p_name p) (agents d)) as [old|] eqn:Hs; [done|].
  destruct (on_insert x) as [ins|e| |]; [|done..].
  intros (-> & row & Hrow & ->)%reselect_done. rewrite select_insert in Hrow by done. injection Hrow as <-. done.
Qed.

(** ** After the commit *)

Lemma durability_probe_done {T} mem (query : nat → DbError + Outcome T) v :
  durability_probe_query mem query = Done v → ∃ n, query n = inr (Done v).
Proof.
  unfold durability_probe_query. destruct mem; [destruct (query 0%nat) eqn:Hq; [done|]; intros ->; eauto|].
  destruct (probe_loop_spec query DURABILITY_PROBE_MAX_RETRIES) as (n & o & _ & -> & Ho & _); [lia|]. simpl. intros ->.
  exists n. destruct (query n); [done|]. by subst.
Qed.

Lemma verify_done w pid nm d a :
  verify_agent_visible_after_commit text w pid nm d = Done a → ∃ row, select_by_name pid nm (agents d) = Some row ∧ a = decode_agent_row row.
Proof.
  unfold verify_agent_visible_after_commit. destruct (durability_probe_query _ _) as [[row|]|e| |] eqn:Hq; try done. intros [= <-].
  apply durability_probe_done in Hq as (n & Hn). destruct (probe w n) as [|[]]; try done. injection Hn as Hn. eauto.
Qed.

(** A row that could not be seen is removed, or the error says it was not. *)
Definition removed w (pid i : Z) (nm : str) (e : DbError) (d : Db) (c : ReadCache) (e' : DbError) (d' : Db) (c' : ReadCache) : Prop :=
  (e' = e ∧ d' = delete_agent i pid d ∧ c' = invalidate_agent_scoped scope_fingerprint scope pid nm (Some i) c) ∨
  (∃ o, is_done o = false ∧ e' = Internal (text (RemovalFailed e o)) ∧ d' = d ∧ c' = c).

Lemma removal_failed w pid i nm e d c o : is_done o = false → removed w pid i nm e d c (Internal (text (RemovalFailed e o))) d c.
Proof. intros Ho. right. by exists o. Qed.

Lemma cleanup_cases w pid i nm e d c e' d' c' :
  cleanup_created_agent_after_post_commit_probe_failure scope_fingerprint scope text (removal w) pid i nm e d c = (e', d', c') →
  removed w pid i nm e d c e' d' c'.
Proof.
  unfold cleanup_created_agent_after_post_commit_probe_failure, cleanup_committed_agent_after_consistency_failure.
  destruct (on_connect (removal w)) as [[]|e1| |]; [|by intros [= <- <- <-]; apply removal_failed..].
  destruct (in_tx _ _ _ d) as [o d1] eqn:Ho. destruct (in_tx_atomic _ _ _ _ _ _ Ho) as [(v & -> & Hb)|[Hd ->]].
  - destruct (on_delete (removal w)); [|done..]. injection Hb as <- <-. intros [= <- <- <-]. by left.
  - destruct o; [done|..]; by intros [= <- <- <-]; apply removal_failed.
Qed.

Lemma conclude_cases w provisional r o d' c' :
  conclude scope_fingerprint scope w provisional r = (o, d', c') →
  (∃ durable c, r = (Done durable, d', c) ∧ o = Done (default provisional durable) ∧
    c' = put_agent_scoped scope_fingerprint scope (default provisional durable) (instant w) (instant' w) c) ∨
  (∃ o', r = (o', d', c') ∧ is_done o' = false ∧ o = not_done o').
Proof.
  unfold conclude. destruct r as [[[durable|e| |] d1] c1]; intros [= <- <- <-]; [left; by exists durable, c1|right; eexists; split_and!; [reflexivity|done..]..].
Qed.

(** How a call ends: without effect; with the row; or with the new row removed
    because it was not seen. *)
Definition register_end w pid p d c (r : Outcome AgentRow) d' c' : Prop :=
  let committed := meanwhile w (upserted pid p (now w) d) in
  (is_done r = false ∧ d' = d ∧ c' = c) ∨
  (∃ a, r = Done a ∧ d' = committed ∧ c' = put_agent_scoped scope_fingerprint scope a (instant w) (instant' w) c ∧
    (select_by_name pid (p_name p) (agents d) = None → ∃ row, select_by_name pid (p_name p) (agents committed) = Some row ∧ a = decode_agent_row row) ∧
    ∃ row, a = decode_agent_row row ∧
      (row = upserted_agent pid p (now w) d ∨ select_by_name pid (p_name p) (agents committed) = Some row)) ∨
  (∃ e e', r = Failed e' ∧ select_by_name pid (p_name p) (agents d) = None ∧ removed w pid (next_id d) (p_name p) e committed c e' d' c').

Lemma remove_unseen_cases {T} w pid a nm (o : Outcome T) d c r d' c' :
  remove_unseen scope_fingerprint scope text w pid a nm o d c = (r, d', c') →
  ∃ e, r = Failed e ∧ removed w pid (default 0 (id a)) nm (probe_error text o) d c e d' c'.
Proof.
  unfold remove_unseen. destruct (cleanup_created_agent_after_post_commit_probe_failure _ _ _ _ _ _ _ _ _ _) as [[e d1] c1] eqn:Hc.
  intros [= <- <- <-]. exists e. split; [done|]. by apply cleanup_cases.
Qed.

Lemma register_agent_cases w pid p d c r d' c' :
  register_agent scope_fingerprint scope text w pid p d c = (r, d', c') → register_end w pid p d c r d' c'.
Proof.
  unfold register_agent, register_end. destruct (is_valid_agent_name ∅ (p_name p)); simpl; [|intros [= <- <- <-]; by left].
  destruct (conn w) as [[]|e| |]; [|intros [= <- <- <-]; by left..].
  destruct (run_with_mvcc_retry _ _ _ _) as [[o rs] d1] eqn:Hrun.
  destruct (retried_result (max_retries w) (λ n, begin_concurrent_tx (engine w n)) (λ n, commit (engine w n))
    (λ n, register_body text pid p (now w) (answers w n)) no_retries d o rs d1 Hrun) as [(n & [a b] & -> & Hb)|[Hd ->]].
  2: { intros Hr. left. destruct o; [done|..]; by injection Hr as <- <- <-. }
  apply register_body_done in Hb as (-> & -> & Hnew). intros Hr. right.
  set (committed := meanwhile w _) in *. apply conclude_cases in Hr as [(durable & c1 & Hf & -> & ->)|(o & Hf & Ho & ->)].
  - left. unfold finalize_register_agent_post_commit_probe in Hf.
    destruct (verify_agent_visible_after_commit text w pid (p_name p) committed) as [a|e| |] eqn:Hv.
    { injection Hf as <- <- <-. apply verify_done in Hv as (row & Hrow & ->). simpl. eexists. split_and!; try done; eauto. }
    all: destruct b; [by apply remove_unseen_cases in Hf as (? & ? & _)|]; injection Hf as <- <- <-; simpl; eexists; split_and!; try done;
      [intros Hn; by apply Hnew in Hn|eauto].
  - right. unfold finalize_register_agent_post_commit_probe in Hf.
    destruct (verify_agent_visible_after_commit text w pid (p_name p) committed) as [a|e| |] eqn:Hv; [injection Hf as <- <- <-; done|..].
    all: destruct b; [|injection Hf as <- <- <-; done]; apply remove_unseen_cases in Hf as (e' & -> & Hrem);
      pose proof (proj1 Hnew eq_refl) as Hn; unfold upserted_agent in Hrem; rewrite Hn in Hrem; eexists _, e'; by split_and!.
Qed.

Lemma create_agent_cases w pid p d c r d' c' :
  create_agent scope_fingerprint scope text w pid p d c = (r, d', c') →
  (is_done r = false ∧ d' = d ∧ c' = c) ∨ (select_by_name pid (p_name p) (agents d) = None ∧ register_end w pid p d c r d' c').
Proof.
  unfold create_agent, register_end. destruct (is_valid_agent_name ∅ (p_name p)); simpl; [|intros [= <- <- <-]; by left].
  destruct (conn w) as [[]|e| |]; [|intros [= <- <- <-]; by left..].
  destruct (in_tx _ _ _ d) as [o d1] eqn:Ho. destruct (in_tx_atomic _ _ _ _ _ _ Ho) as [(a & -> & Hb)|[Hd ->]].
  2: { intros Hr. left. destruct o; [done|..]; by injection Hr as <- <- <-. }
  apply create_body_done in Hb as (Hn & -> & ->). intros Hr. right. split; [done|right]. rewrite upserted_none by done.
  set (committed := meanwhile w _) in *. apply conclude_cases in Hr as [(durable & c1 & Hf & -> & ->)|(o & Hf & Ho' & ->)];
    destruct (verify_agent_visible_after_commit text w pid (p_name p) committed) as [a|e| |] eqn:Hv.
  - left. injection Hf as <- <- <-. apply verify_done in Hv as (row & Hrow & ->). simpl. eexists. split_and!; try done; eauto.
  - by apply remove_unseen_cases in Hf as (? & ? & _).
  - by apply remove_unseen_cases in Hf as (? & ? & _).
  - by apply remove_unseen_cases in Hf as (? & ? & _).
  - by injection Hf as <- <- <-.
  - right. apply remove_unseen_cases in Hf as (e' & -> & Hrem). by eexists _, e'.
  - right. apply remove_unseen_cases in Hf as (e' & -> & Hrem). by eexists _, e'.
  - right. apply remove_unseen_cases in Hf as (e' & -> & Hrem). by eexists _, e'.
Qed.

(** C27: A registration changes one row.  When it succeeds, the table is, up to
    what others commit before the probe, the one before with the row of that
    name brought up to date, or with a new row when there was none; the answer
    is that row, or the one the probe saw.  A row that was there keeps its
    identifier, spelling, first time, contact policy and token; every other row
    stays.  When it fails, either nothing happened, or the row was new, the
    probe did not see it, and it is deleted again, or the error says that this
    failed too. *)
Theorem register_agent_spec w pid p d c r d' c' :
  register_agent scope_fingerprint scope text w pid p d c = (r, d', c') →
  let written := upserted pid p (now w) d in
  let row := upserted_agent pid p (now w) d in
  match r with
  | Done a => d' = meanwhile w written ∧ c' = put_agent_scoped scope_fingerprint scope a (instant w) (instant' w) c ∧
      (a = decode_agent_row row ∨ ∃ seen, select_by_name pid (p_name p) (agents d') = Some seen ∧ a = decode_agent_row seen)
  | _ => (d' = d ∧ c' = c) ∨
      (select_by_name pid (p_name p) (agents d) = None ∧
       ∃ e e', r = Failed e' ∧ removed w pid (next_id d) (p_name p) e (meanwhile w written) c e' d' c')
  end ∧
  select_by_name pid (p_name p) (agents written) = Some row ∧
  (∀ b, named pid (p_name p) b = false → b ∈ agents written ↔ b ∈ agents d) ∧
  match select_by_name pid (p_name p) (agents d) with
  | Some old => id row = id old ∧ name row = name old ∧ inception_ts row = inception_ts old ∧
      contact_policy row = contact_policy old ∧ registration_token row = registration_token old
  | None => id row = Some (next_id d) ∧ name row = p_name p ∧ inception_ts row = now w ∧ registration_token row = None
  end.
Proof.
  intros Hr%register_agent_cases written row. split; [|split; [apply upserted_row|split]].
  - destruct Hr as [(Hf & -> & ->)|[(a & -> & -> & -> & _ & seen & -> & Hseen)|(e & e' & -> & Hn & Hrem)]].
    + destruct r; [done|by left..].
    + split_and!; [done..|]. destruct Hseen as [->|Hs]; [by left|right; eauto].
    + right. split; [done|]. eauto.
  - intros b. apply upserted_others.
  - unfold row, upserted_agent. by destruct (select_by_name pid (p_name p) (agents d)).
Qed.

Lemma delete_inserted pid p now d : wf d → agents (delete_agent (next_id d) pid (insert_agent pid p now d)) = agents d.
Proof.
  intros Hwf. unfold delete_agent, insert_agent. simpl. rewrite filter_app, filter_cons, decide_False, filter_nil, app_nil_r.
  - pose proof (wf_next d Hwf) as Hall. induction (agents d) as [|a tb IH]; [done|]. rewrite filter_cons, decide_True.
    + f_equal. apply IH. intros b Hb. apply Hall. by right.
    + intros [Hi _]. destruct (Hall a) as (i & Hi' & Hlt); [left|]. rewrite Hi in Hi'. injection Hi'. lia.
  - intros Hn. by apply Hn.
Qed.

(** A creation overwrites nothing.  It succeeds only when no row of the
    project has the name in any capitalisation, and then adds one row; when the
    name is taken and the engine answers, the error is [Duplicate]; and in
    every failure the table is what others made of the one before, at most with
    the new row in it when its deletion failed as well. *)
Theorem create_never_overwrites w pid p d c r d' c' :
  wf d → create_agent scope_fingerprint scope text w pid p d c = (r, d', c') →
  agents (delete_agent (next_id d) pid (insert_agent pid p (now w) d)) = agents d ∧
  match r with
  | Done a => select_by_name pid (p_name p) (agents d) = None ∧ d' = meanwhile w (insert_agent pid p (now w) d) ∧
      ∃ seen, select_by_name pid (p_name p) (agents d') = Some seen ∧ a = decode_agent_row seen
  | _ => d' = d ∨ (select_by_name pid (p_name p) (agents d) = None ∧
      (d' = delete_agent (next_id d) pid (meanwhile w (insert_agent pid p (now w) d)) ∨
       d' = meanwhile w (insert_agent pid p (now w) d) ∧ ∃ e o, is_done o = false ∧ r = Failed (Internal (text (RemovalFailed e o)))))
  end ∧
  (is_valid_agent_name ∅ (p_name p) = true → conn w = Done () → begin_immediate (engine w 0) = Done () → on_select (answers w 0) = Done () →
   select_by_name pid (p_name p) (agents d) ≠ None → r = Failed (Duplicate (lit "agent") (text (Taken pid (p_name p)))) ∧ d' = d).
Proof.
  intros Hwf Hr. split; [by apply delete_inserted|]. split.
  - apply create_agent_cases in Hr as [(Hf & -> & _)|[Hn Hr]]; [destruct r; [done|by left..]|].
    unfold register_end in Hr. rewrite upserted_none in Hr by done.
    destruct Hr as [(Hf & -> & ->)|[(a & -> & -> & -> & Hseen & _)|(e & e' & -> & _ & Hrem)]].
    + destruct r; [done|by left..].
    + split_and!; [done..|]. by apply Hseen.
    + right. split; [done|]. destruct Hrem as [(_ & -> & _)|(o & Ho & -> & -> & _)]; [by left|right; split; [done|eauto]].
  - intros Hv Hc Hb Hs Hsel. unfold create_agent in Hr. rewrite Hv, Hc in Hr. simpl in Hr. unfold in_tx in Hr. rewrite Hb in Hr.
    unfold create_body in Hr. rewrite Hs in Hr. destruct (select_by_name pid (p_name p) (agents d)); [|done]. by injection Hr as <- <- <-.
Qed.

(** ** Every table a history of calls leads to *)

Lemma wf_register_end w pid p d c r d' c' :
  (∀ d, wf d → wf (meanwhile w d)) → wf d → register_end w pid p d c r d' c' → wf d'.
Proof.
  intros Hm Hwf. pose proof (Hm _ (wf_upserted pid p (now w) d Hwf)) as Hc.
  intros [(_ & -> & _)|[(a & _ & -> & _)|(e & e' & _ & _ & [(_ & -> & _)|(o & _ & _ & -> & _)])]]; [done..|by apply wf_delete|done].
Qed.

Lemma issue_token_wf k pid a d c r d' c' : wf d → issue_token scope_fingerprint k pid a d c = (r, d', c') → wf d'.
Proof.
  intros Hwf. unfold issue_token. destruct (id a) as [i|]; [|by intros [= _ <- _]].
  unfold update_agent_registration_token. destruct (c_token_written k); intros [= _ <- _]; [by apply wf_token|done..].
Qed.

(** A call of one of the two tools. *)
Record Request := { creates : bool; rq_world : World; rq_call : Call }.

Definition serve (q : Request) (s : Db * ReadCache) : Db * ReadCache :=
  let '(_, d, c) :=
    (if creates q then create_agent_identity else register_agent_tool) scope_fingerprint scope text (rq_world q) (rq_call q) s.1 s.2 in (d, c).

Lemma serve_wf q s : (∀ d, wf d → wf (meanwhile (rq_world q) d)) → wf s.1 → wf (serve q s).1.
Proof.
  intros Hm Hwf. destruct s as [d c]. unfold serve. simpl in *. destruct (creates q).
  - unfold create_agent_identity. destruct (checked (rq_call q)) as [e|[pid p]]; [done|].
    destruct (create_agent _ _ _ _ _ _ _ _) as [[o d1] c1] eqn:Hr.
    assert (wf d1) as Hwf1 by (apply create_agent_cases in Hr as [(_ & -> & _)|[_ Hr]]; [done|by eapply wf_register_end]).
    destruct o as [a|[]| |]; try done. destruct (issue_token _ _ _ _ _ _) as [[r d2] c2] eqn:Hi. by eapply issue_token_wf.
  - unfold register_agent_tool. destruct (checked (rq_call q)) as [e|[pid p]]; [done|].
    destruct (register_agent _ _ _ _ _ _ _ _) as [[o d1] c1] eqn:Hr.
    assert (wf d1) as Hwf1 by (eapply wf_register_end; [done..|by apply register_agent_cases]).
    destruct o as [a|e| |]; try done. destruct (issue_token _ _ _ _ _ _) as [[r d2] c2] eqn:Hi. by eapply issue_token_wf.
Qed.

(** C26: Whatever registrations and creations come, fail half-way, are retried
    or cleaned up, no project ever has two agents whose names differ only in
    their capitals, no two agents share an identifier, and the next identifier
    is above all of them. *)
Theorem names_stay_unique requests d c :
  wf d → Forall (λ q, ∀ d, wf d → wf (meanwhile (rq_world q) d)) requests →
  let '(d', _) := foldl (λ s q, serve q s) (d, c) requests in
  (∀ a b, a ∈ agents d' → b ∈ agents d' → project_id a = project_id b → eq_ignore_ascii_case (name a) (name b) = true → a = b) ∧
  (∀ a b, a ∈ agents d' → b ∈ agents d' → id a = id b → a = b) ∧ (∀ a, a ∈ agents d' → ∃ i, id a = Some i ∧ i < next_id d').
Proof.
  intros Hwf Hall. assert (∀ s, wf s.1 → wf (foldl (λ s q, serve q s) s requests).1) as Hrun.
  { induction Hall as [|q qs Hq _ IH]; intros s Hs; [done|]. apply IH, serve_wf; done. }
  specialize (Hrun (d, c) Hwf). destruct (foldl _ _ requests) as [d' c']. simpl in Hrun. split_and!.
  - intros a b Ha Hb Hp Hn. apply (nodup_fmap_same row_key (agents d')); [apply Hrun|done..|].
    unfold row_key. apply bool_decide_eq_true in Hn. congruence.
  - intros a b Ha Hb. apply (nodup_fmap_same id (agents d')); [apply Hrun|done..].
  - apply Hrun.
Qed.

(** ** Tokens of a registration *)

Lemma insert_peek {K} `{Countable K} {V} (k : K) (v : V) (c : S3Fifo.S3FifoCache K V) : S3FifoFacts.wf c → S3Fifo.peek k (S3Fifo.insert k v c) = Some v.
Proof.
  intros Hwf. destruct (insert_result k v c Hwf) as (_ & _ & _ & Hk). revert Hk. unfold S3Fifo.peek.
  destruct (S3Fifo.index c !! k) as [[]|]; intros Hk; rewrite Hk, ?lookup_insert_eq; try done. by destruct (_ =? 0).
Qed.

Lemma put_key_wf sc a t c : agents_wf c → agents_wf (put_agent_key scope_fingerprint sc a t c).
Proof. intros [Hk Hi]. split; [|done]. by apply insert_result. Qed.

Lemma put_id_wf sc a t c : agents_wf c → agents_wf (put_agent_id scope_fingerprint sc a t c).
Proof. intros [Hk Hi]. unfold put_agent_id. destruct (id a); [|done]. split; [done|]. by apply insert_result. Qed.

Lemma put_agent_wf sc a t t' c : agents_wf c → agents_wf (put_agent_scoped scope_fingerprint sc a t t' c).
Proof. intros Hc. by apply put_id_wf, put_key_wf. Qed.

Lemma invalidate_wf sc pid nm i c : agents_wf c → agents_wf (invalidate_agent_scoped scope_fingerprint sc pid nm i c).
Proof.
  intros [Hk Hi]. unfold invalidate_agent_scoped, remove_agent_key.
  pose proof (remove_result (agent_key scope_fingerprint sc pid nm) (agents_by_key c) Hk) as Hr.
  destruct (S3Fifo.remove _ (agents_by_key c)) as [o c1]. destruct Hr as (Hwf1 & _). split; [done|].
  unfold remove_ids. simpl. match goal with |- S3FifoFacts.wf (foldl _ _ ?l) => generalize l end. intros ids. revert Hi. generalize (agents_by_id c).
  induction ids as [|j ids IH]; intros b Hb; [done|]. apply IH. pose proof (remove_result (scope_fingerprint sc, j) b Hb) as Hrem.
  destruct (S3Fifo.remove _ b). by destruct Hrem.
Qed.

Lemma put_lookup sc a t now c pid nm :
  agents_wf c → project_id a = pid → to_ascii_lowercase (name a) = to_ascii_lowercase nm → t ≤ now ≤ t + AGENT_TTL →
  (get_agent_scoped scope_fingerprint sc pid nm now (put_agent_scoped scope_fingerprint sc a t t c)).1 = Some a.
Proof.
  intros [Hk Hi] Hpid Hnm Ht. unfold get_agent_scoped, lookup_entry, lookup_fast, peek_entry.
  assert (agents_by_key (put_agent_scoped scope_fingerprint sc a t t c) =
    S3Fifo.insert (agent_key scope_fingerprint sc pid nm) (new_entry a t) (agents_by_key c)) as ->.
  { unfold put_agent_scoped, put_agent_id, put_agent_key, agent_key. rewrite Hpid, Hnm. by destruct (id a). }
  rewrite insert_peek by done. replace (is_expired AGENT_TTL now (new_entry a t)) with false.
  - by destruct (sampled _).
  - symmetry. unfold is_expired, effective_ttl. simpl. apply Z.ltb_ge. unfold AGENT_TTL in *. lia.
Qed.

(** A row of the project and name of the registration. *)
Lemma select_key pid nm tb a : select_by_name pid nm tb = Some a → project_id a = pid ∧ to_ascii_lowercase (name a) = to_ascii_lowercase nm.
Proof. intros [Hn _]%select_some. apply named_key in Hn. unfold row_key in Hn. by injection Hn. Qed.

Lemma register_end_row w pid p d c a d' c' :
  register_end w pid p d c (Done a) d' c' →
  project_id a = pid ∧ to_ascii_lowercase (name a) = to_ascii_lowercase (p_name p) ∧
  c' = put_agent_scoped scope_fingerprint scope a (instant w) (instant' w) c.
Proof.
  intros [(? & _)|[(a' & [= <-] & _ & -> & _ & row & -> & Hrow)|(e & e' & ? & _)]]; [done| |done].
  assert (project_id row = pid ∧ to_ascii_lowercase (name row) = to_ascii_lowercase (p_name p)) as [H1 H2]; [|done].
  destruct Hrow as [->|Hs]; [|by eapply select_key]. eapply (select_key _ _ (agents (upserted pid p (now w) d))).
  rewrite upserted_row. done.
Qed.

(** The name looked for differs from the one given in capitals and blanks only. *)
Lemma resolved_lower nm : to_ascii_lowercase (resolved_name nm) = to_ascii_lowercase (trim nm).
Proof.
  unfold resolved_name. destruct (normalize_agent_name ∅ (trim nm)) as [[q|] cache] eqn:Hn; [|done]. simpl.
  destruct (proj1 (proj2 (normalize_step ∅ (trim nm) (Some q) cache cache_ok_empty Hn) q) eq_refl) as (a & n & Ha & Hn' & Hl & ->).
  rewrite trim_idem in Hl. by rewrite Hl, pascal_lower.
Qed.

(** C28: Who has just registered can prove it.  After a call that answered with
    a token, the agent is found under its name in any capitalisation for the
    next five minutes with this token, and among all texts presented exactly
    this token verifies: any other is refused. *)
Theorem fresh_token_verifies w k d c reply d' c' sel nm t presented :
  agents_wf c → register_agent_tool scope_fingerprint scope text w k d c = (inr reply, d', c') → token reply ≠ [] →
  eq_ignore_ascii_case (trim nm) (name (row reply)) = true → trim nm ≠ [] →
  contains_any AGENT_PLACEHOLDER_PATTERNS (to_ascii_uppercase (resolved_name nm)) = false →
  c_instant k ≤ t ≤ c_instant k + AGENT_TTL →
  (resolve_agent scope_fingerprint scope text sel (project_id (row reply)) nm t d' c').1 = inr (row reply) ∧
  token reply = generate_registration_token (c_token_bytes k) ∧
  verified_sender (Some presented) (row reply) = (if decide (presented = token reply) then Some true else None).
Proof.
  intros Hwf Ht Htok Hnm Hne Hph Htime. unfold register_agent_tool in Ht. destruct (checked k) as [e|[pid p]] eqn:Hk; [done|].
  destruct (register_agent _ _ _ _ _ _ _ _) as [[o d1] c1] eqn:Hr. apply register_agent_cases in Hr.
  destruct o as [a|e| |]; [|done..]. destruct (register_end_row _ _ _ _ _ _ _ _ Hr) as (Hpid & _ & ->).
  unfold issue_token in Ht. set (tok := generate_registration_token (c_token_bytes k)) in *.
  set (written := match id a with Some _ => _ | None => _ end) in Ht. destruct written as [tk d2] eqn:Hw. injection Ht as <- <- <-.
  cbn [row token] in *. apply bool_decide_eq_true in Hnm.
  assert (tk = tok) as ->.
  { unfold written, update_agent_registration_token in Hw. destruct (id a), (c_token_written k); injection Hw as <- _; try done; by destruct (Htok eq_refl). }
  assert (project_id (with_token tok a) = pid) as Hp by (unfold with_token; by case_bool_decide).
  assert (registration_token (with_token tok a) = Some tok) as Hrt by (unfold with_token; by rewrite bool_decide_false).
  split_and!; [|done|].
  - unfold resolve_agent. rewrite bool_decide_false, Hph by done. set (c2 := invalidate_agent_scoped _ _ _ _ _ _).
    assert (agents_wf c2) as Hwf2 by by apply invalidate_wf, put_agent_wf.
    pose proof (put_lookup [] (with_token tok a) (c_instant k) t c2 pid (resolved_name nm) Hwf2 Hp) as Hg.
    rewrite resolved_lower, Hp in *. specialize (Hg (eq_sym Hnm) Htime). destruct (get_agent_scoped _ _ _ _ _ _) as [g c3]. simpl in Hg. by subst g.
  - unfold verified_sender. rewrite Hrt. pose proof (constant_time_str_eq_iff presented tok (token_ascii _)) as Hiff.
    case_decide as Hd; [by rewrite (proj2 Hiff Hd)|]. destruct (constant_time_str_eq presented tok); [by destruct (Hd (proj1 Hiff eq_refl))|done].
Qed.

(** ** When nothing fails *)

Definition calm_engine : Engine :=
  {| concurrent_mode_enabled := true; begin_concurrent := Done (); begin_immediate := Done (); commit := Done () |}.
Definition calm (now instant : Z) : World :=
  {| conn := Done (); now := now; max_retries := 5; engine := λ _, calm_engine;
     answers := λ _, {| on_update := Done (); on_select := Done (); on_insert := Done (); on_update_again := Done (); on_select_again := Done () |};
     meanwhile := λ d, d; in_memory := false; probe := λ _, inr (Done ());
     removal := {| on_connect := Done (); on_begin := Done (); on_delete := Done (); on_commit := Done () |};
     instant := instant; instant' := instant |}.

Lemma calm_body pid p t d :
  ∃ b, register_body text pid p t (answers (calm 0 0) 0) d = (Done (decode_agent_row (upserted_agent pid p t d), b), upserted pid p t d).
Proof.
  unfold register_body, upserted_agent, upserted, reselect. cbn [calm answers on_update on_select on_insert on_select_again]. rewrite select_update.
  destruct (select_by_name pid (p_name p) (agents d)) as [old|] eqn:Hs; cbn [fmap option_fmap option_map from_option]; [by eexists|].
  rewrite (update_none pid p t d Hs). rewrite select_insert by done. by eexists.
Qed.

Lemma calm_register t i pid p d c :
  is_valid_agent_name ∅ (p_name p) = true →
  let a := decode_agent_row (upserted_agent pid p t d) in
  register_agent scope_fingerprint scope text (calm t i) pid p d c =
    (Done a, upserted pid p t d, put_agent_scoped scope_fingerprint scope a i i c).
Proof.
  intros Hv a. unfold register_agent. rewrite Hv. destruct (calm_body pid p t d) as [b Hb].
  assert (∀ n, register_tx text (calm t i) pid p n d = (Done (a, b), upserted pid p t d)) as Htx.
  { intros n. unfold register_tx, in_tx, begin_concurrent_tx. cbn [engine calm calm_engine concurrent_mode_enabled begin_concurrent commit now answers].
    cbn [answers calm] in Hb. by rewrite Hb. }
  cbn [conn calm negb max_retries]. unfold run_with_mvcc_retry. cbn [retry_loop]. rewrite Htx. cbn [after_attempt from_option Datatypes.id meanwhile calm].
  unfold verify_agent_visible_after_commit, durability_probe_query, DURABILITY_PROBE_MAX_RETRIES. cbn [probe_loop probe calm in_memory from_option Datatypes.id].
  rewrite upserted_row. done.
Qed.

Definition with_bits (bits : Z) (k : Call) : Call :=
  {| c_program := c_program k; c_model := c_model k; c_project := c_project k; c_name := c_name k; c_task := c_task k; c_policy := c_policy k;
     c_exempt := c_exempt k; c_bits := bits; c_token_bytes := c_token_bytes k; c_token_written := c_token_written k; c_instant := c_instant k |}.

Lemma select_set_token i tok pid nm tb row :
  select_by_name pid nm tb = Some row → set_token i tok row ∈ set_token i tok <$> tb.
Proof. intros [_ Hin]%select_some. by apply list_elem_of_fmap_2. Qed.

(** A call without a name can take over another agent.  The tool draws a
    name and registers it without looking whether it is taken: for every agent
    with a valid name there are random bits with which a call that gives no
    name answers with that agent's identifier and name, sets the program to its
    own, the policy to [auto], and replaces the token, when nothing fails. *)
Theorem omitted_name_takes_over k d c pid a n old i t ins :
  a ∈ VALID_ADJECTIVES → n ∈ VALID_NOUNS →
  select_by_name pid (pascal_case_agent_name a n) (agents d) = Some old → id old = Some i →
  trim (c_program k) ≠ [] → trim (c_model k) ≠ [] → c_project k = Some pid → c_name k = None → c_policy k = None → c_token_written k = Done () →
  ∃ bits reply d' c', 0 ≤ bits ≤ u64_max ∧
    register_agent_tool scope_fingerprint scope text (calm t ins) (with_bits bits k) d c = (inr reply, d', c') ∧
    id (row reply) = Some i ∧ name (row reply) = name old ∧ token reply = generate_registration_token (c_token_bytes k) ∧
    ∃ taken, taken ∈ agents d' ∧ id taken = Some i ∧ registration_token taken = Some (token reply) ∧
      program taken = trim (c_program k) ∧ attachments_policy taken = lit "auto".
Proof.
  intros Ha Hn Hsel Hid Hprog Hmodel Hproj Hname Hpol Htok. destruct (pair_generated a n Ha Hn) as (bits & Hbits & Hg).
  unfold register_agent_tool, checked. cbn [with_bits c_program c_model c_project c_name c_bits c_policy c_task c_exempt].
  set (p := {| p_name := pascal_case_agent_name a n; p_program := trim (c_program k); p_model := trim (c_model k); p_task := c_task k;
               p_policy := Some (lit "auto"); p_exempt := c_exempt k |}).
  assert (is_valid_agent_name ∅ (p_name p) = true) as Hv.
  { apply bool_decide_eq_true. exists (pascal_case_agent_name a n). exact (pascal_normal [] a n Ha Hn). }
  assert (upserted_agent pid p t d = apply_profile p t old) as Hup.
  { unfold upserted_agent. change (p_name p) with (pascal_case_agent_name a n). by rewrite Hsel. }
  pose proof (upserted_row pid p t d) as Hrow. fold (upserted_agent pid p t d) in Hrow. rewrite Hup in Hrow.
  pose proof (calm_register t ins pid p d c Hv) as Hr. rewrite Hup in Hr. cbn zeta in Hr.
  eexists bits, _, _, _. split; [done|]. split.
  - rewrite !bool_decide_false by done. rewrite Hproj, Hname, Hpol. cbn [agent_name_of]. rewrite Hg.
    replace (to_ascii_lowercase _) with (lit "auto") by (vm_compute; reflexivity). replace (is_valid_attachments_policy _) with true by (vm_compute; reflexivity).
    fold p. rewrite Hr. unfold issue_token. cbn [id decode_agent_row apply_profile with_bits c_token_bytes c_token_written]. rewrite Hid, Htok. reflexivity.
  - cbn [row token]. assert (∀ tk b, id (with_token tk b) = id b ∧ name (with_token tk b) = name b) as Hw by (intros tk b; unfold with_token; by case_bool_decide).
    split; [by rewrite (proj1 (Hw _ _))|]. split; [by rewrite (proj2 (Hw _ _))|]. split; [done|].
    exists (set_token i (generate_registration_token (c_token_bytes k)) (apply_profile p t old)). split; [by eapply select_set_token|].
    unfold set_token, has_id. cbn [id apply_profile]. rewrite bool_decide_true by done. done.
Qed.
End facts.

(** ** Runs *)

Module RegistrationRuns.

Definition fingerprint (s : str) : Z := Zpos (encode s).
Definition scope : str := lit "storage.sqlite3".
Definition text (t : Text) : str := [].

Definition empty_db : Db := {| agents := []; next_id := 1 |}.
Definition second : Z := 1000000000.
Definition blue_lake : str := lit "BlueLake".

(** A call for [nm] with the policy [policy] that draws the bits [bits] and
    token bytes [tok], in second [t]. *)
Definition call (nm policy : option str) (bits tok t : Z) : Call :=
  {| c_program := lit "codex-cli"; c_model := lit "m1"; c_project := Some 1; c_name := nm; c_task := None; c_policy := policy; c_exempt := None;
     c_bits := bits; c_token_bytes := replicate 32 tok; c_token_written := Done (); c_instant := t * second |}.

Definition registered (k : Call) (t : Z) (s : Db * ReadCache) : (ToolError + Reply) * (Db * ReadCache) :=
  let '(r, d, c) := register_agent_tool fingerprint scope text (calm (t * 1000000) (t * second)) k s.1 s.2 in (r, (d, c)).

(** Mail to the agent in second [t] looks its row up. *)
Definition mailed (s : Db * ReadCache) (t : Z) : Db * ReadCache :=
  (s.1, (get_agent fingerprint scope text (Done ()) 1 blue_lake (t * second) s.1 s.2).2).

Definition sender (s : Db * ReadCache) (t : Z) : ToolError + AgentRow :=
  (resolve_agent fingerprint scope text (Done ()) 1 blue_lake (t * second) s.1 s.2).1.

(** What becomes of a message sent in second [t] with a token. *)
Definition sent (s : Db * ReadCache) (t : Z) (presented : str) : ToolError + option bool :=
  match sender s t with inl e => inl e | inr a => inr (verified_sender (Some presented) a) end.

Definition old_token : str := generate_registration_token (replicate 32 1).
Definition new_token : str := generate_registration_token (replicate 32 2).

(** Registered at second 0 and, by the next session, at second 10; then mail
    to the agent every minute, and at second 610 the agent answers. *)
Definition rotated : option (Db * ReadCache) :=
  c ← read_cache;
  let s := (registered (call (Some blue_lake) (Some (lit "inline")) 0 1 0) 0 (empty_db, c)).2 in
  let s := (registered (call (Some blue_lake) None 0 2 10) 10 s).2 in
  Some (foldl mailed s [70; 130; 190; 250; 310; 370; 430; 490; 550]).

(** A new token can be refused and the old one accepted.  The rotated token
    goes to the table and to the entry of the unscoped cache, but the entry of
    the scoped cache keeps the row with the old one.  When the unscoped entry
    expires while mail to the agent keeps the scoped one in use, the agent's
    own message is refused and one with the replaced token is verified,
    although the table has the new token. *)
Theorem rotated_token_refused :
  ∃ d c, rotated = Some (d, c) ∧
    (λ a, registration_token a) <$> agents d = [Some new_token] ∧
    sent (d, c) 300 new_token = inr (Some true) ∧
    sent (d, c) 610 new_token = inr None ∧ sent (d, c) 610 old_token = inr (Some true).
Proof.
  assert ((λ s : Db * ReadCache, ((λ a, registration_token a) <$> agents s.1, sent s 300 new_token, sent s 610 new_token, sent s 610 old_token)) <$> rotated =
    Some ([Some new_token], inr (Some true), inr None, inr (Some true))) as Hv by (vm_compute; reflexivity).
  destruct rotated as [[d c]|]; [|done]. exists d, c. cbn [fmap option_fmap option_map fst] in Hv.
  split_and!; congruence.
Qed.

(** A registration that does not mention the policy resets it. *)
Example omitted_policy_resets :
  (λ s : Db * ReadCache, attachments_policy <$> agents s.1) <$> rotated = Some [lit "auto"].
Proof. vm_compute. reflexivity. Qed.

(** After the first registration no token is known to the scoped entry, and
    any text passes, unverified. *)
Definition registered_once : option (Db * ReadCache) :=
  c ← read_cache;
  Some (foldl mailed (registered (call (Some blue_lake) None 0 1 0) 0 (empty_db, c)).2 [60; 120; 180; 240; 300; 360]).

Example forged_token_passes :
  (λ s, (sent s 100 (lit "forged"), sent s 400 (lit "forged"))) <$> registered_once = Some (inr None, inr (Some false)).
Proof. vm_compute. reflexivity. Qed.

(** *** Witnesses *)

Definition profile (nm : str) : Profile :=
  {| p_name := nm; p_program := lit "codex-cli"; p_model := lit "m1"; p_task := None; p_policy := None; p_exempt := None |}.

(** The table with one agent. *)
Definition one_agent : Db := insert_agent 1 (profile blue_lake) 7 empty_db.

Lemma no_agents_wf : wf empty_db.
Proof. split; [constructor..|]. by intros a ?%elem_of_nil. Qed.

Lemma one_agent_wf : wf one_agent.
Proof. apply wf_insert; [apply no_agents_wf|done]. Qed.

Lemma some_cache : ∃ c, read_cache = Some c.
Proof. destruct read_cache eqn:Hc; [eauto|by vm_compute in Hc]. Qed.

Lemma read_cache_wf c : read_cache = Some c → agents_wf c.
Proof. intros Hc. eapply CacheRuns.with_capacity_wf; [exact Hc|by vm_compute]. Qed.

Lemma valid_blue_lake : is_valid_agent_name ∅ blue_lake = true.
Proof. vm_compute. reflexivity. Qed.

Example registration_tokens_distinct_witness :
  old_token ≠ new_token ∧ length old_token = 43%nat ∧ constant_time_str_eq (lit "forged") old_token ≠ true.
Proof.
  assert (Forall is_byte (replicate 32 1)) as H1 by (apply Forall_replicate; unfold is_byte; lia).
  assert (Forall is_byte (replicate 32 2)) as H2 by (apply Forall_replicate; unfold is_byte; lia).
  destruct (registration_tokens_distinct (replicate 32 1) (replicate 32 2) (lit "forged") eq_refl eq_refl H1 H2) as (Hl & _ & Hd & Hp).
  split_and!; [by intros Heq%Hd|exact Hl|]. rewrite Hp. intros Heq. apply (f_equal length) in Heq. rewrite Hl in Heq. done.
Defined.

Example register_agent_spec_witness :
  ∃ c r d' c', read_cache = Some c ∧ register_agent fingerprint scope text (calm 9 9) 1 (profile (lit "bluelake")) one_agent c = (r, d', c') ∧
    is_done r = true ∧ (λ a, (id a, name a, last_active_ts a)) <$> agents d' = [(Some 1, blue_lake, 9)].
Proof.
  destruct some_cache as [c Hc]. eexists c, _, _, _. split; [exact Hc|].
  assert (is_valid_agent_name ∅ (p_name (profile (lit "bluelake"))) = true) as Hv by (vm_compute; reflexivity).
  pose proof (calm_register fingerprint scope text 9 9 1 (profile (lit "bluelake")) one_agent c Hv) as Hr.
  destruct (register_agent_spec fingerprint scope text (calm 9 9) 1 (profile (lit "bluelake")) one_agent c _ _ _ Hr) as ((Hd & _) & _).
  split; [exact Hr|]. split; [reflexivity|]. rewrite Hd. vm_compute. reflexivity.
Defined.

Example create_never_overwrites_witness :
  ∃ c, read_cache = Some c ∧
    (create_agent fingerprint scope text (calm 9 9) 1 (profile (lit "BLUELAKE")) one_agent c).1 = (Failed (Duplicate (lit "agent") []), one_agent).
Proof.
  destruct some_cache as [c Hc]. exists c. split; [exact Hc|].
  destruct (create_agent fingerprint scope text (calm 9 9) 1 (profile (lit "BLUELAKE")) one_agent c) as [[r d'] c'] eqn:Hr.
  destruct (create_never_overwrites fingerprint scope text (calm 9 9) 1 (profile (lit "BLUELAKE")) one_agent c r d' c' one_agent_wf Hr) as (_ & _ & Ht).
  destruct Ht as [-> ->]; [vm_compute; reflexivity|reflexivity|reflexivity|reflexivity|by vm_compute|reflexivity].
Defined.

(** Two sessions of one agent and a creation under its name. *)
Definition requests : list Request :=
  [{| creates := false; rq_world := calm 1 1; rq_call := call (Some blue_lake) None 0 1 0 |};
   {| creates := true; rq_world := calm 2 2; rq_call := call (Some (lit "bluelake")) None 0 2 0 |};
   {| creates := false; rq_world := calm 3 3; rq_call := call (Some (lit "BLUELAKE")) None 0 3 0 |}].

Example names_stay_unique_witness :
  ∃ c, read_cache = Some c ∧ ∀ a b, let d := (foldl (λ s q, serve fingerprint scope text q s) (empty_db, c) requests).1 in
    a ∈ agents d → b ∈ agents d → id a = id b → a = b.
Proof.
  destruct some_cache as [c Hc]. exists c. split; [exact Hc|]. intros a b.
  assert (Forall (λ q, ∀ d, wf d → wf (meanwhile (rq_world q) d)) requests) as Hall.
  { constructor; [by intros d ?|]. constructor; [by intros d ?|]. constructor; [by intros d ?|constructor]. }
  pose proof (names_stay_unique fingerprint scope text requests empty_db c no_agents_wf Hall) as H.
  destruct (foldl _ _ requests) as [d' c']. destruct H as (_ & H & _). apply H.
Defined.

Lemma first_reply :
  match read_cache with
  | Some c => match (register_agent_tool fingerprint scope text (calm 0 0) (call (Some blue_lake) None 0 1 0) empty_db c).1.1 with
              | inr reply => Some (token reply, name (row reply), project_id (row reply)) | inl _ => None end
  | None => None
  end = Some (old_token, blue_lake, 1).
Proof. vm_compute. reflexivity. Qed.

Example fresh_token_verifies_witness :
  ∃ c reply d' c', read_cache = Some c ∧
    register_agent_tool fingerprint scope text (calm 0 0) (call (Some blue_lake) None 0 1 0) empty_db c = (inr reply, d', c') ∧
    (resolve_agent fingerprint scope text (Done ()) (project_id (row reply)) (lit " bluelake") (200 * second) d' c').1 = inr (row reply) ∧
    verified_sender (Some (lit "forged")) (row reply) = None.
Proof.
  destruct some_cache as [c Hc]. pose proof first_reply as Hf. rewrite Hc in Hf.
  destruct (register_agent_tool _ _ _ _ _ empty_db c) as [[[e|reply] d'] c'] eqn:Hr; [discriminate Hf|]. exists c, reply, d', c'.
  cbn [fst] in Hf. assert (token reply = old_token ∧ name (row reply) = blue_lake) as [Htok Hn] by (split; congruence).
  destruct (fresh_token_verifies fingerprint scope text (calm 0 0) _ empty_db c reply d' c' (Done ()) (lit " bluelake") (200 * second)
    (lit "forged") (read_cache_wf c Hc) Hr) as (H1 & _ & H2).
  - rewrite Htok. clear. by vm_compute.
  - rewrite Hn. clear. vm_compute. reflexivity.
  - clear. by vm_compute.
  - clear. vm_compute. reflexivity.
  - clear. split; apply Z.leb_le; vm_compute; reflexivity.
  - split; [exact Hc|]. split; [exact Hr|]. split; [exact H1|]. rewrite H2, Htok. rewrite decide_False; [reflexivity|clear; by vm_compute].
Defined.

Example omitted_name_takes_over_witness :
  ∃ c bits reply d' c', read_cache = Some c ∧ 0 ≤ bits ≤ u64_max ∧
    register_agent_tool fingerprint scope text (calm 9 9) (with_bits bits (call None None 0 2 0)) one_agent c = (inr reply, d', c') ∧
    id (row reply) = Some 1 ∧ token reply = new_token.
Proof.
  destruct some_cache as [c Hc]. exists c.
  destruct (omitted_name_takes_over fingerprint scope text (call None None 0 2 0) one_agent c 1 (lit "blue") (lit "lake")
    (new_row 1 1 (profile blue_lake) 7) 1 9 9) as (bits & reply & d' & c' & Hb & Hr & Hi & _ & Ht & _).
  - apply (bool_decide_unpack _). vm_compute. exact I.
  - apply (bool_decide_unpack _). vm_compute. exact I.
  - vm_compute. reflexivity.
  - reflexivity.
  - by vm_compute.
  - by vm_compute.
  - reflexivity.
  - reflexivity.
  - reflexivity.
  - reflexivity.
  - exists bits, reply, d', c'. split_and!; [exact Hc|apply Hb|apply Hb|exact Hr|exact Hi|exact Ht].
Defined.
End RegistrationRuns.
