(* ===== verification/DeferredTouches.v ===== *)
(** * Deferred touches ([mcp-agent-mail-db/src/cache.rs], "Deferred touch queue",
      and [touch_agent], [flush_deferred_touches] of [queries.rs])

    Every tool call marks its agent as active.  The times are kept in sixteen
    locked maps and written to the database in batches, by whichever call
    finds that half a minute has passed, in a retried transaction; what could
    not be written is put back.  The threads are interleaved at the locks, the
    atomic flag and the transactions. *)

From stdpp Require Import base numbers tactics list gmap strings.
From S2P Require Import Prelude DbErrors Transactions.
Import Transactions.
Open Scope Z_scope.

Module DeferredTouches.

Definition NUM_TOUCH_SHARDS : nat := 16.
(** In nanoseconds. *)
Definition TOUCH_FLUSH_INTERVAL : Z := 30 * 1000000000.

(** [shard_idx] of a scope's fingerprint and an agent. *)
Definition shard_idx (scope_fp agent_id : Z) : nat :=
  Z.to_nat (Z.lxor scope_fp (u64_wrap agent_id) mod Z.of_nat NUM_TOUCH_SHARDS).

(** [entry(k).and_modify(max).or_insert(ts)]. *)
Definition insert_max {K} `{Countable K} (k : K) (ts : Z) (m : gmap K Z) : gmap K Z :=
  <[k := match m !! k with Some existing => if existing <? ts then ts else existing | None => ts end]> m.

Abbreviation Shard := (gmap (Z * Z) Z).

(** [retain] on one shard: what is merged, what stays. *)
Definition drain_shard (scope_fp : Z) (m : Shard) (merged : gmap Z Z) : gmap Z Z * Shard :=
  (foldr (λ kv merged, if bool_decide (kv.1.1 = scope_fp) then insert_max kv.1.2 kv.2 merged else merged) merged (map_to_list m),
   filter (λ kv, kv.1.1 ≠ scope_fp) m).

(** The agents of a database with their [last_active_ts]. *)
Abbreviation Agents := (gmap Z Z).

(** [UPDATE agents SET last_active_ts = MAX(last_active_ts, new_ts)] over a
    chunk. *)
Definition update_chunk (chunk : list (Z * Z)) (db : Agents) : Agents :=
  foldr (λ kv db, alter (λ old, Z.max old kv.2) kv.1 db) db chunk.

(** The statements of a flush; [answers]: the engine's answer to each. *)
Fixpoint flush_chunks (answers : nat → Outcome ()) (n : nat) (cs : list (list (Z * Z))) (db : Agents) : Outcome () * Agents :=
  match cs with
  | [] => (Done (), db)
  | c :: cs =>
      match answers n with
      | Done _ => flush_chunks answers (S n) cs (update_chunk c db)
      | o => (o, db)
      end
  end.

Definition flush_tx (g : Engine) (answers : nat → Outcome ()) (entries : list (Z * Z)) (db : Agents) : Outcome () * Agents :=
  in_tx (begin_concurrent_tx g) (flush_chunks answers 0 (chunks 400 entries)) (commit g) db.

(** ** The threads *)

Inductive PC :=
  | TouchInsert (scope : str) (agent_id now : Z)
  | TouchFlag (scope : str)
  | TouchClock (scope : str)
  | FlushCheck (scope : str)
  | DrainClear (scope : str)
  | DrainShard (scope : str) (i : nat) (merged : gmap Z Z) (has_remaining : bool)
  | DrainRestore (scope : str) (merged : gmap Z Z) (has_remaining : bool)
  | DrainClock (scope : str) (merged : gmap Z Z)
  | Acquire (scope : str) (pending : list (Z * Z))
  | Attempt (scope : str) (pending : list (Z * Z)) (n : nat)
  | ReInsert (scope : str) (pending : list (Z * Z)) (out : Outcome ())
  | ReFlag (scope : str) (pending : list (Z * Z)) (out : Outcome ())
  | ReClock (scope : str) (pending : list (Z * Z)) (out : Outcome ())
  | Returned (out : Outcome ()).

(** [requested]: the latest time each agent was touched at, for the
    statements. *)
Record Sys := {
  deferred_touch_shards : list Shard;
  last_touch_flush : Z;
  has_pending : bool;
  retries : Retries;
  dbs : gmap str Agents;
  threads : gmap nat PC;
  requested : gmap (str * Z) Z;
}.

(** What the world decides in a step. *)
Record World := {
  instant : Z;
  order : list (Z * Z);
  connection : Outcome ();
  engine : Engine;
  answers : nat → Outcome ();
}.

Definition set_thread (t : nat) (p : PC) (s : Sys) : Sys :=
  {| deferred_touch_shards := deferred_touch_shards s; last_touch_flush := last_touch_flush s; has_pending := has_pending s;
     retries := retries s; dbs := dbs s; threads := <[t := p]> (threads s); requested := requested s |}.
Definition set_shards (x : list Shard) (s : Sys) : Sys :=
  {| deferred_touch_shards := x; last_touch_flush := last_touch_flush s; has_pending := has_pending s;
     retries := retries s; dbs := dbs s; threads := threads s; requested := requested s |}.
Definition set_flag (b : bool) (s : Sys) : Sys :=
  {| deferred_touch_shards := deferred_touch_shards s; last_touch_flush := last_touch_flush s; has_pending := b;
     retries := retries s; dbs := dbs s; threads := threads s; requested := requested s |}.
Definition set_clock (x : Z) (s : Sys) : Sys :=
  {| deferred_touch_shards := deferred_touch_shards s; last_touch_flush := x; has_pending := has_pending s;
     retries := retries s; dbs := dbs s; threads := threads s; requested := requested s |}.
Definition set_db (r : Retries) (scope : str) (db : Agents) (s : Sys) : Sys :=
  {| deferred_touch_shards := deferred_touch_shards s; last_touch_flush := last_touch_flush s; has_pending := has_pending s;
     retries := r; dbs := <[scope := db]> (dbs s); threads := threads s; requested := requested s |}.
Definition request (scope : str) (agent_id now : Z) (s : Sys) : Sys :=
  {| deferred_touch_shards := deferred_touch_shards s; last_touch_flush := last_touch_flush s; has_pending := has_pending s;
     retries := retries s; dbs := dbs s; threads := threads s; requested := insert_max (scope, agent_id) now (requested s) |}.

Section touches.
(** The fingerprint of a scope, a 64-bit hash, and [MVCC_MAX_RETRIES]. *)
Context (scope_fingerprint : str → Z) (mvcc_max_retries : nat).

Definition db_of (scope : str) (s : Sys) : Agents := default ∅ (dbs s !! scope).

(** The map update of [enqueue_touch_scoped]. *)
Definition enqueue_touch (scope : str) (agent_id ts : Z) (s : Sys) : Sys :=
  let fp := scope_fingerprint scope in
  set_shards (alter (insert_max (fp, agent_id) ts) (shard_idx fp agent_id) (deferred_touch_shards s)) s.

Definition should_flush (x : World) (s : Sys) : bool := TOUCH_FLUSH_INTERVAL <=? instant x - last_touch_flush s.

(** The end of a flush that did not succeed: put back, then report. *)
Definition give_back (scope : str) (pending : list (Z * Z)) (out : Outcome ()) : PC :=
  match pending with [] => Returned out | _ => ReInsert scope pending out end.

Definition advance (t : nat) (x : World) (p : PC) (s : Sys) : option Sys :=
  match p with
  | TouchInsert scope agent_id now => Some (set_thread t (TouchFlag scope) (enqueue_touch scope agent_id now s))
  | TouchFlag scope => Some (set_thread t (TouchClock scope) (set_flag true s))
  | TouchClock scope => Some (set_thread t (if should_flush x s then FlushCheck scope else Returned (Done ())) s)
  | FlushCheck scope => Some (set_thread t (if has_pending s then DrainClear scope else Returned (Done ())) s)
  | DrainClear scope => Some (set_thread t (DrainShard scope 0 ∅ false) (set_flag false s))
  | DrainShard scope i merged has_remaining =>
      match deferred_touch_shards s !! i with
      | None => Some (set_thread t (DrainRestore scope merged has_remaining) s)
      | Some m =>
          let '(merged, m) := drain_shard (scope_fingerprint scope) m merged in
          Some (set_thread t (DrainShard scope (S i) merged (has_remaining || negb (bool_decide (m = ∅))))
                  (set_shards (<[i := m]> (deferred_touch_shards s)) s))
      end
  | DrainRestore scope merged has_remaining =>
      Some (set_thread t (DrainClock scope merged) (if has_remaining then set_flag true s else s))
  | DrainClock scope merged =>
      if bool_decide (merged = ∅) then Some (set_thread t (Returned (Done ())) (set_clock (instant x) s))
      else if bool_decide (order x ≡ₚ map_to_list merged) then
        Some (set_thread t (Acquire scope (order x)) (set_clock (instant x) s))
      else None
  | Acquire scope pending =>
      Some (set_thread t (match connection x with Done _ => Attempt scope pending 0 | o => give_back scope pending o end) s)
  | Attempt scope pending n =>
      let '(o, db) := flush_tx (engine x) (answers x) pending (db_of scope s) in
      Some (match after_attempt mvcc_max_retries n o with
            | Again conflict => set_thread t (Attempt scope pending (S n)) (set_db (count_retry conflict (retries s)) scope db s)
            | Return exhausted =>
                set_thread t (match o with Done _ => Returned (Done ()) | _ => give_back scope pending o end)
                  (set_db (count_exhausted exhausted (retries s)) scope db s)
            end)
  | ReInsert scope ((agent_id, ts) :: pending) out => Some (set_thread t (ReFlag scope pending out) (enqueue_touch scope agent_id ts s))
  | ReInsert scope [] out => Some (set_thread t (Returned out) s)
  | ReFlag scope pending out => Some (set_thread t (ReClock scope pending out) (set_flag true s))
  | ReClock scope pending out => Some (set_thread t (give_back scope pending out) s)
  | Returned _ => None
  end.

(** A call of [touch_agent] or of [flush_deferred_touches]. *)
Inductive Label := LTouch (t : nat) (scope : str) (agent_id now : Z) | LFlush (t : nat) (scope : str) | LStep (t : nat) (x : World).

Definition run_label (l : Label) (s : Sys) : option Sys :=
  match l with
  | LTouch t scope agent_id now =>
      match threads s !! t with
      | None => Some (set_thread t (TouchInsert scope agent_id now) (request scope agent_id now s))
      | Some _ => None
      end
  | LFlush t scope => match threads s !! t with None => Some (set_thread t (FlushCheck scope) s) | Some _ => None end
  | LStep t x => p ← threads s !! t; advance t x p s
  end.

Definition initial (start : Z) (dbs0 : gmap str Agents) : Sys :=
  {| deferred_touch_shards := replicate NUM_TOUCH_SHARDS ∅; last_touch_flush := start; has_pending := false;
     retries := {| retries_total := 0; exhausted_total := 0 |}; dbs := dbs0; threads := ∅; requested := ∅ |}.

Definition step (s s' : Sys) : Prop := ∃ l, run_label l s = Some s'.

End touches.
End DeferredTouches.
