(* ===== verification/DeferredTouchesFacts.v ===== *)
(** * What the deferred touches guarantee

    The theorems about [DeferredTouches]: no touch is lost, whatever fails and
    however the threads interleave; when all calls have returned, the
    database and the queue together hold exactly the latest time of every
    agent; and a queue that holds something is flagged. *)

From stdpp Require Import base numbers tactics list gmap strings.
From S2P Require Import Prelude DbErrors Transactions DeferredTouches.
Import Transactions DeferredTouches.
Open Scope Z_scope.

(** ** Maps that keep the latest *)

Section insert_max.
Context {K : Type} `{Countable K}.
Implicit Types m : gmap K Z.

Lemma insert_max_eq k ts m : ∃ y, insert_max k ts m !! k = Some y ∧ ts ≤ y ∧ (y = ts ∨ m !! k = Some y) ∧ ∀ x, m !! k = Some x → x ≤ y.
Proof.
  unfold insert_max. rewrite lookup_insert_eq. eexists; split; [done|]. destruct (m !! k) as [e|]; [|naive_solver lia].
  destruct (e <? ts) eqn:He; rewrite ?Z.ltb_lt, ?Z.ltb_ge in *; naive_solver lia.
Qed.

Lemma insert_max_ne k k' ts m : k ≠ k' → insert_max k ts m !! k' = m !! k'.
Proof. intros ?. unfold insert_max. by rewrite lookup_insert_ne. Qed.

(** What was there stays or is overtaken. *)
Lemma insert_max_grows k ts m k' x : m !! k' = Some x → ∃ y, insert_max k ts m !! k' = Some y ∧ x ≤ y.
Proof.
  intros Hx. destruct (decide (k = k')) as [<-|]; [|rewrite insert_max_ne by done; naive_solver lia].
  destruct (insert_max_eq k ts m) as (y & ? & _ & _ & Hy). exists y. auto.
Qed.

Lemma insert_max_inv k ts m k' y : insert_max k ts m !! k' = Some y → (k' = k ∧ y = ts) ∨ m !! k' = Some y.
Proof.
  destruct (decide (k = k')) as [<-|]; [|rewrite insert_max_ne by done; by right].
  destruct (insert_max_eq k ts m) as (y' & -> & _ & Ho & _). intros [= ->]. naive_solver.
Qed.
End insert_max.

Section drain.
Context (fp : Z).

Let add (kv : (Z * Z) * Z) (merged : gmap Z Z) : gmap Z Z :=
  if bool_decide (kv.1.1 = fp) then insert_max kv.1.2 kv.2 merged else merged.

Lemma fold_grows l merged a x : merged !! a = Some x → ∃ y, foldr add merged l !! a = Some y ∧ x ≤ y.
Proof.
  intros Hx. induction l as [|[[f b] ts] l (y & Hy & Hle)]; simpl; [naive_solver lia|]. unfold add at 1. simpl.
  case_bool_decide; [|by exists y]. destruct (insert_max_grows b ts _ _ _ Hy) as (y' & ? & ?). exists y'. split; [done|lia].
Qed.

Lemma fold_takes l merged a x : ((fp, a), x) ∈ l → ∃ y, foldr add merged l !! a = Some y ∧ x ≤ y.
Proof.
  induction l as [|[[f b] ts] l IH]; [by intros ?%elem_of_nil|]. intros [[= <- <- <-]|Hl]%elem_of_cons; simpl; unfold add at 1; simpl.
  - rewrite bool_decide_eq_true_2 by done. destruct (insert_max_eq a x (foldr add merged l)) as (y & ? & ? & _). eauto.
  - destruct (IH Hl) as (y & Hy & Hle). case_bool_decide; [|by exists y].
    destruct (insert_max_grows b ts _ _ _ Hy) as (y' & ? & ?). exists y'. split; [done|lia].
Qed.

Lemma fold_from l merged a y : foldr add merged l !! a = Some y → merged !! a = Some y ∨ ((fp, a), y) ∈ l.
Proof.
  induction l as [|[[f b] ts] l IH]; simpl; [by left|]. unfold add at 1. simpl. case_bool_decide as Hf.
  - simpl in Hf. subst f. intros [[-> ->]|Hy]%insert_max_inv; [right; left|]. destruct (IH Hy); [by left|right; by right].
  - intros Hy. destruct (IH Hy); [by left|right; by right].
Qed.
End drain.

(** Draining a shard moves the entries of the scope. *)
Lemma drain_shard_spec fp m merged merged' m' :
  drain_shard fp m merged = (merged', m') →
  (∀ a x, merged !! a = Some x → ∃ y, merged' !! a = Some y ∧ x ≤ y) ∧
  (∀ a x, m !! (fp, a) = Some x → ∃ y, merged' !! a = Some y ∧ x ≤ y) ∧
  (∀ a y, merged' !! a = Some y → merged !! a = Some y ∨ m !! (fp, a) = Some y) ∧
  (∀ f a x, m' !! (f, a) = Some x ↔ f ≠ fp ∧ m !! (f, a) = Some x).
Proof.
  unfold drain_shard. intros [= <- <-]. split_and!.
  - intros a x Hx. by apply fold_grows.
  - intros a x Hx. apply fold_takes. by apply elem_of_map_to_list.
  - intros a y [?|Hy]%fold_from; [by left|right]. by apply elem_of_map_to_list in Hy.
  - intros f a x. rewrite map_lookup_filter_Some. naive_solver.
Qed.

(** ** The database *)

Lemma update_chunk_spec c db a v :
  db !! a = Some v →
  ∃ v', update_chunk c db !! a = Some v' ∧ v ≤ v' ∧ (v' = v ∨ (a, v') ∈ c) ∧ ∀ ts, (a, ts) ∈ c → ts ≤ v'.
Proof.
  intros Hv. induction c as [|[b ts] c (v' & Hv' & Hle & Ho & Hts)]; simpl.
  - exists v. split_and!; [done|done|by left|by intros ? ?%elem_of_nil].
  - destruct (decide (b = a)) as [->|Hne].
    + exists (Z.max v' ts). rewrite lookup_alter_eq, Hv'. split_and!; [done|lia| |].
      * destruct (Z.max_spec v' ts) as [[_ ->]|[_ ->]]; [right; left|].
        destruct Ho as [->|?]; [by left|right; by right].
      * intros ts' [[= <-]|Hc]%elem_of_cons; [lia|]. specialize (Hts _ Hc). lia.
    + exists v'. rewrite lookup_alter_ne by done. split_and!; [done|done| |].
      * destruct Ho as [->|?]; [by left|right; by right].
      * intros ts' [[= -> _]|Hc]%elem_of_cons; [done|auto].
Qed.

Lemma update_chunk_none c db a : db !! a = None → update_chunk c db !! a = None.
Proof.
  intros Hv. induction c as [|[b ts] c IH]; simpl; [done|].
  destruct (decide (b = a)) as [->|]; [by rewrite lookup_alter_eq, IH|by rewrite lookup_alter_ne].
Qed.

Lemma flush_chunks_done ans n cs db db' : flush_chunks ans n cs db = (Done (), db') → db' = foldl (λ db c, update_chunk c db) db cs.
Proof.
  revert n db. induction cs as [|c cs IH]; intros n db; simpl; [by intros [= ->]|].
  destruct (ans n) as [[]|e| |]; try done. apply IH.
Qed.

Lemma flush_all_spec cs db a :
  match db !! a with
  | Some v => ∃ v', foldl (λ db c, update_chunk c db) db cs !! a = Some v' ∧ v ≤ v' ∧ (v' = v ∨ (a, v') ∈ concat cs) ∧
      ∀ ts, (a, ts) ∈ concat cs → ts ≤ v'
  | None => foldl (λ db c, update_chunk c db) db cs !! a = None
  end.
Proof.
  revert db. induction cs as [|c cs IH]; intros db; simpl.
  - destruct (db !! a) as [v|]; [|done]. exists v. split_and!; [done|done|by left|by intros ? ?%elem_of_nil].
  - specialize (IH (update_chunk c db)). destruct (db !! a) as [v|] eqn:Hv.
    + destruct (update_chunk_spec c db a v Hv) as (v1 & Hv1 & Hle & Ho & Hts). rewrite Hv1 in IH.
      destruct IH as (v' & Hv' & Hle' & Ho' & Hts'). exists v'. split_and!; [done|lia| |].
      * rewrite elem_of_app. destruct Ho' as [->|?]; [|by auto]. destruct Ho as [->|?]; auto.
      * intros ts [Hc|Hc]%elem_of_app; [specialize (Hts _ Hc); lia|auto].
    + by rewrite (update_chunk_none c db a Hv) in IH.
Qed.

(** A flush is done and has raised every agent of its entries, or it has left
    the database alone. *)
Lemma flush_tx_spec g ans entries db o db' :
  flush_tx g ans entries db = (o, db') →
  (is_done o = false ∧ db' = db) ∨
  (o = Done () ∧ ∀ a, match db !! a with
     | Some v => ∃ v', db' !! a = Some v' ∧ v ≤ v' ∧ (v' = v ∨ (a, v') ∈ entries) ∧ ∀ ts, (a, ts) ∈ entries → ts ≤ v'
     | None => db' !! a = None
     end).
Proof.
  unfold flush_tx. intros [([] & -> & Hb)|?]%in_tx_atomic; [right|by left]. split; [done|]. intros a.
  apply flush_chunks_done in Hb as ->. pose proof (flush_all_spec (chunks 400 entries) db a) as H.
  by rewrite chunks_concat in H by lia.
Qed.

(** ** The invariant *)

Section facts.
Context (scope_fingerprint : str → Z) (mvcc_max_retries : nat).
Context `{!Inj (=) (=) scope_fingerprint}.
Context (dbs0 : gmap str Agents).

Implicit Types s : Sys.
Abbreviation fp := scope_fingerprint.

(** The queued time of an agent. *)
Definition queued s (scope : str) (a : Z) : option Z :=
  m ← deferred_touch_shards s !! shard_idx (fp scope) a; m !! (fp scope, a).

(** The times a thread carries. *)
Definition tag (scope : str) (kv : Z * Z) : str * Z * Z := (scope, kv.1, kv.2).

Definition load (p : PC) : list (str * Z * Z) :=
  match p with
  | TouchInsert scope a now => [(scope, a, now)]
  | DrainShard scope _ merged _ | DrainRestore scope merged _ | DrainClock scope merged => tag scope <$> map_to_list merged
  | Acquire scope l | Attempt scope l _ | ReInsert scope l _ | ReFlag scope l _ | ReClock scope l _ => tag scope <$> l
  | _ => []
  end.

Lemma load_list scope (l : list (Z * Z)) sc a x : (sc, a, x) ∈ tag scope <$> l ↔ sc = scope ∧ (a, x) ∈ l.
Proof. rewrite list_elem_of_fmap. split; [intros ([??] & [= -> -> ->] & ?); done|intros [-> ?]; by exists (a, x)]. Qed.

Lemma load_map scope (m : gmap Z Z) sc a x : (sc, a, x) ∈ tag scope <$> map_to_list m ↔ sc = scope ∧ m !! a = Some x.
Proof. by rewrite load_list, elem_of_map_to_list. Qed.

Definition token s (scope : str) (a x : Z) : Prop :=
  queued s scope a = Some x ∨ ∃ t p, threads s !! t = Some p ∧ (scope, a, x) ∈ load p.

(** What every later state does for the agent [a] of [scope]: its row is still
    there and no older. *)
Definition active s (scope : str) (a : Z) : option Z := db_of scope s !! a.

(** Every entry is in its own shard. *)
Definition placed s : Prop :=
  ∀ i m f a, deferred_touch_shards s !! i = Some m → is_Some (m !! (f, a)) → shard_idx f a = i.

Record inv s : Prop := {
  inv_placed : placed s;
  inv_shards : length (deferred_touch_shards s) = NUM_TOUCH_SHARDS;
  inv_rows sc a : match default ∅ (dbs0 !! sc) !! a with
    | Some v0 => ∃ v, active s sc a = Some v ∧ v0 ≤ v ∧ (v = v0 ∨ ∃ T, requested s !! (sc, a) = Some T ∧ v ≤ T)
    | None => active s sc a = None end;
  inv_covered sc a T v : requested s !! (sc, a) = Some T → active s sc a = Some v → T ≤ v ∨ ∃ x, T ≤ x ∧ token s sc a x;
  inv_bounded sc a x : token s sc a x → ∃ T, requested s !! (sc, a) = Some T ∧ x ≤ T;
}.

(** A step of one thread that moves what it carries. *)
Record moves s s' (p p' : PC) : Prop := {
  mv_placed : placed s → placed s';
  mv_shards : length (deferred_touch_shards s') = length (deferred_touch_shards s);
  mv_keep sc a x v : (sc, a, x) ∈ load p ∨ queued s sc a = Some x → active s sc a = Some v →
    (∃ v', active s' sc a = Some v' ∧ x ≤ v') ∨ ∃ y, x ≤ y ∧ ((sc, a, y) ∈ load p' ∨ queued s' sc a = Some y);
  mv_from sc a x : (sc, a, x) ∈ load p' ∨ queued s' sc a = Some x → (sc, a, x) ∈ load p ∨ queued s sc a = Some x;
  mv_rows sc a : match active s sc a with
    | Some v => ∃ v', active s' sc a = Some v' ∧ v ≤ v' ∧ (v' = v ∨ (sc, a, v') ∈ load p)
    | None => active s' sc a = None end;
}.

Lemma inv_moves s s' t p p' :
  threads s !! t = Some p → threads s' = <[t := p']> (threads s) → requested s' = requested s →
  moves s s' p p' → inv s → inv s'.
Proof.
  intros Ht Ht' Hreq [M0 M1 M2 M3 M4] [I0 I1 I2 I3 I4].
  assert (∀ sc a x, (sc, a, x) ∈ load p ∨ queued s sc a = Some x → token s sc a x) as Htok.
  { intros sc a x [?|?]; [right; eauto|by left]. }
  assert (∀ sc a x, token s' sc a x → token s sc a x) as Hback.
  { intros sc a x [Hq|(t' & q & Hq & Hl)]; [by apply Htok, M3; right|]. rewrite Ht' in Hq.
    destruct (decide (t' = t)) as [->|Hne].
    - rewrite lookup_insert_eq in Hq. injection Hq as <-. apply Htok, M3. by left.
    - rewrite lookup_insert_ne in Hq by done. right. eauto. }
  split.
  - by apply M0.
  - congruence.
  - intros sc a. specialize (I2 sc a). specialize (M4 sc a). rewrite Hreq. destruct (default ∅ (dbs0 !! sc) !! a) as [v0|].
    + destruct I2 as (v & Hv & Hle & Ho). rewrite Hv in M4. destruct M4 as (v' & Hv' & Hle' & Ho').
      exists v'. split_and!; [done|lia|]. destruct Ho' as [->|Hl]; [done|]. right. by apply I4, Htok; left.
    + by rewrite I2 in M4.
  - intros sc a T v' HT Hv'. rewrite Hreq in HT. specialize (M4 sc a). destruct (active s sc a) as [v|] eqn:Hv; [|congruence].
    destruct M4 as (v1 & Hv1 & Hle & _). assert (v1 = v') as -> by congruence.
    destruct (I3 sc a T v HT Hv) as [|(x & HTx & Hx)]; [left; lia|].
    assert ((∃ y, x ≤ y ∧ token s' sc a y) ∨ ∃ w, active s' sc a = Some w ∧ x ≤ w) as [(y & ? & ?)|(w & Hw & ?)].
    { assert (((sc, a, x) ∈ load p ∨ queued s sc a = Some x) ∨ ∃ t' q, t' ≠ t ∧ threads s !! t' = Some q ∧ (sc, a, x) ∈ load q) as Hcase.
      { destruct Hx as [?|(t' & q & Hq & Hl)]; [by left; right|]. destruct (decide (t' = t)) as [->|]; [left; left; congruence|right; eauto]. }
      destruct Hcase as [Hc|(t' & q & Hne & Hq & Hl)].
      - destruct (M2 sc a x v Hc Hv) as [?|(y & ? & Hy)]; [by right|left]. exists y. split; [done|].
        destruct Hy; [right; exists t, p'; by rewrite Ht', lookup_insert_eq|by left].
      - left. exists x. split; [done|]. right. exists t', q. by rewrite Ht', lookup_insert_ne by done. }
    + right. exists y. split; [lia|done].
    + left. assert (w = v') as -> by congruence. lia.
  - intros sc a x Hx. rewrite Hreq. by apply I4, Hback.
Qed.

(** A step that neither touches the queue nor the database. *)
Lemma moves_same s s' p p' :
  deferred_touch_shards s' = deferred_touch_shards s → dbs s' = dbs s →
  (∀ sc a x, (sc, a, x) ∈ load p' ↔ (sc, a, x) ∈ load p) → moves s s' p p'.
Proof.
  intros Hsh Hdb Hl. assert (∀ sc a, queued s' sc a = queued s sc a) as Hq by (intros; unfold queued; by rewrite Hsh).
  assert (∀ sc a, active s' sc a = active s sc a) as Ha by (intros; unfold active, db_of; by rewrite Hdb).
  split.
  - unfold placed. by rewrite Hsh.
  - by rewrite Hsh.
  - intros sc a x v Hx _. right. exists x. rewrite Hq, Hl. done.
  - intros sc a x. by rewrite Hq, Hl.
  - intros sc a. rewrite Ha. destruct (active s sc a) as [v|]; [|done]. exists v. split_and!; [done|done|by left].
Qed.

Lemma queued_enqueue s scope a ts sc b :
  length (deferred_touch_shards s) = NUM_TOUCH_SHARDS →
  queued (enqueue_touch fp scope a ts s) sc b =
    if decide ((sc, b) = (scope, a)) then Some (match queued s sc b with Some e => if e <? ts then ts else e | None => ts end)
    else queued s sc b.
Proof.
  intros Hlen. unfold queued, enqueue_touch. simpl. set (i := shard_idx (fp scope) a).
  assert (is_Some (deferred_touch_shards s !! i)) as [m Hm].
  { apply lookup_lt_is_Some. rewrite Hlen. unfold i, shard_idx, NUM_TOUCH_SHARDS.
    pose proof (Z.mod_pos_bound (Z.lxor (fp scope) (u64_wrap a)) 16). lia. }
  destruct (decide (shard_idx (fp sc) b = i)) as [He|Hne].
  - rewrite He, list_lookup_alter_eq, Hm. simpl. unfold insert_max. destruct (decide ((sc, b) = (scope, a))) as [[= -> ->]|Hd].
    + by rewrite lookup_insert_eq.
    + rewrite lookup_insert_ne; [done|]. intros [= Hf ->]. apply Hd. by apply (inj _) in Hf as ->.
  - rewrite list_lookup_alter_ne by done. destruct (decide ((sc, b) = (scope, a))) as [[= -> ->]|Hd]; done.
Qed.

(** Adding to the queue what the thread carried. *)
Lemma moves_enqueue s s' p p' scope a ts :
  length (deferred_touch_shards s) = NUM_TOUCH_SHARDS →
  deferred_touch_shards s' = deferred_touch_shards (enqueue_touch fp scope a ts s) → dbs s' = dbs s →
  (∀ sc b x, (sc, b, x) ∈ load p ↔ (sc, b, x) = (scope, a, ts) ∨ (sc, b, x) ∈ load p') → moves s s' p p'.
Proof.
  intros Hlen Hsh Hdb Hl.
  assert (∀ sc b, queued s' sc b = queued (enqueue_touch fp scope a ts s) sc b) as Hq by (intros; unfold queued; by rewrite Hsh).
  assert (∀ sc b, active s' sc b = active s sc b) as Ha by (intros; unfold active, db_of; by rewrite Hdb).
  split.
  - intros Hp i m f b. rewrite Hsh. unfold enqueue_touch. simpl. intros Hm Hb.
    destruct (decide (i = shard_idx (fp scope) a)) as [->|Hne]; [|rewrite list_lookup_alter_ne in Hm by done; by eapply Hp].
    rewrite list_lookup_alter_eq in Hm. apply fmap_Some in Hm as (m0 & Hm & ->). destruct Hb as [x Hb].
    apply insert_max_inv in Hb as [[[= -> ->] _]|Hb]; [done|]. by eapply Hp.
  - rewrite Hsh. unfold enqueue_touch. simpl. apply length_alter.
  - intros sc b x v Hx _. right. rewrite Hl in Hx.
    assert ((sc, b, x) ∈ load p' ∨ ∃ y, x ≤ y ∧ queued s' sc b = Some y) as [?|(y & ? & ?)]; [|exists x; split; [done|by left]|exists y; split; [done|by right]].
    rewrite Hq, queued_enqueue by done. destruct (decide ((sc, b) = (scope, a))) as [[= -> ->]|Hd].
    + destruct Hx as [[Hx|Hx]|Hx]; [right|by left|right]; eexists; (split; [|done]).
      * injection Hx as ->. destruct (queued s scope a) as [e|]; [|lia]. destruct (e <? ts) eqn:?; rewrite ?Z.ltb_lt, ?Z.ltb_ge in *; lia.
      * rewrite Hx. destruct (x <? ts) eqn:?; rewrite ?Z.ltb_lt, ?Z.ltb_ge in *; lia.
    + destruct Hx as [[Hx|Hx]|Hx]; [congruence|by left|right; by exists x].
  - intros sc b x. rewrite Hl, Hq, queued_enqueue by done. destruct (decide ((sc, b) = (scope, a))) as [[= -> ->]|Hd]; [|by intros [?|?]; auto].
    intros [?|[= <-]]; [by auto|]. destruct (queued s scope a) as [e|]; [|by auto].
    destruct (e <? ts); by auto.
  - intros sc b. rewrite Ha. destruct (active s sc b) as [v|]; [|done]. exists v. split_and!; [done|done|by left].
Qed.

(** The drain of one shard. *)
Lemma moves_drain s s' scope i merged rem rem' m merged' m' :
  placed s →
  deferred_touch_shards s !! i = Some m → drain_shard (fp scope) m merged = (merged', m') →
  deferred_touch_shards s' = <[i := m']> (deferred_touch_shards s) → dbs s' = dbs s →
  moves s s' (DrainShard scope i merged rem) (DrainShard scope (S i) merged' rem').
Proof.
  intros Hplaced Hm (D1 & D2 & D3 & D4)%drain_shard_spec Hsh Hdb.
  assert (∀ sc b, active s' sc b = active s sc b) as Ha by (intros; unfold active, db_of; by rewrite Hdb).
  assert (∀ sc b, queued s' sc b = if decide (shard_idx (fp sc) b = i ∧ sc = scope) then None else queued s sc b) as Hq.
  { intros sc b. unfold queued. rewrite Hsh. destruct (decide (shard_idx (fp sc) b = i)) as [He|Hne].
    - rewrite He, list_lookup_insert_eq, Hm by (by eapply lookup_lt_Some). simpl. case_decide as Hd.
      + destruct Hd as [_ ->]. apply eq_None_not_Some. intros [x Hx]. by apply D4 in Hx as [[] _].
      + apply option_eq. intros x. rewrite D4. split; [by intros []|]. intros Hx. split; [|done].
        intros Hf. apply Hd. by apply (inj _) in Hf.
    - rewrite list_lookup_insert_ne by done. rewrite decide_False; [done|]. by intros []. }
  split.
  - intros _ j n f b. rewrite Hsh. destruct (decide (j = i)) as [->|Hne]; [|rewrite list_lookup_insert_ne by done; by eapply Hplaced].
    rewrite list_lookup_insert_eq by (by eapply lookup_lt_Some). intros [= <-] [x Hx]. apply D4 in Hx as [_ Hx]. by eapply Hplaced.
  - rewrite Hsh. apply length_insert.
  - intros sc a x v Hx _. right. simpl in *. setoid_rewrite Hq. setoid_rewrite load_map. rewrite load_map in Hx. destruct Hx as [[-> Hx]|Hx].
    + destruct (D1 _ _ Hx) as (y & ? & ?). exists y. split; [done|by left].
    + case_decide as Hd; [|exists x; split; [done|by right]]. destruct Hd as [Hi ->]. unfold queued in Hx. rewrite Hi, Hm in Hx. simpl in Hx.
      destruct (D2 _ _ Hx) as (y & ? & ?). exists y. split; [done|by left].
  - intros sc a x. simpl. rewrite !load_map, Hq. intros [[-> Hx]|Hx].
    + destruct (D3 _ _ Hx) as [?|Hx']; [by auto|]. right. unfold queued.
      by rewrite (Hplaced i m (fp scope) a), Hm by eauto.
    + case_decide; [done|by right].
  - intros sc b. rewrite Ha. destruct (active s sc b) as [v|]; [|done]. exists v. split_and!; [done|done|by left].
Qed.

(** A transaction of a flush: what was carried is written or still carried. *)
Lemma moves_attempt s s' g ans scope l n p' o db :
  flush_tx g ans l (db_of scope s) = (o, db) →
  deferred_touch_shards s' = deferred_touch_shards s → dbs s' = <[scope := db]> (dbs s) →
  (∀ sc a x, (sc, a, x) ∈ load p' → (sc, a, x) ∈ load (Attempt scope l n)) →
  (o ≠ Done () → ∀ sc a x, (sc, a, x) ∈ load (Attempt scope l n) → (sc, a, x) ∈ load p') →
  moves s s' (Attempt scope l n) p'.
Proof.
  intros Hf Hsh Hdb Hfrom Hkeep.
  assert (∀ sc a, queued s' sc a = queued s sc a) as Hq by (intros; unfold queued; by rewrite Hsh).
  assert (∀ sc a, active s' sc a = if decide (sc = scope) then db !! a else active s sc a) as Ha.
  { intros sc a. unfold active, db_of. rewrite Hdb. case_decide as Hd; [subst; by rewrite lookup_insert_eq|by rewrite lookup_insert_ne]. }
  apply flush_tx_spec in Hf.
  assert (∀ sc a, match active s sc a with
    | Some v => ∃ v', active s' sc a = Some v' ∧ v ≤ v' ∧ (v' = v ∨ (sc, a, v') ∈ load (Attempt scope l n)) ∧
        (o = Done () → ∀ x, (sc, a, x) ∈ load (Attempt scope l n) → x ≤ v')
    | None => active s' sc a = None end) as Hrows.
  { intros sc a. rewrite Ha. pose proof (load_list scope l) as Hload. case_decide as Hd.
    - subst sc. unfold active. destruct Hf as [[Hno ->]|[-> Hf]].
      + destruct (db_of scope s !! a) as [v|]; [|done]. exists v. split_and!; [done|done|by left|by intros ->].
      + specialize (Hf a). destruct (db_of scope s !! a) as [v|]; [|done]. destruct Hf as (v' & ? & ? & Ho & Hts).
        exists v'. split_and!; [done|done| |].
        * destruct Ho; [by left|right]. by apply Hload.
        * intros _ x [_ ?]%Hload. auto.
    - destruct (active s sc a) as [v|]; [|done]. exists v. split_and!; [done|done|by left|]. by intros _ x [? _]%Hload. }
  split.
  - unfold placed. by rewrite Hsh.
  - by rewrite Hsh.
  - intros sc a x v Hx Hv. specialize (Hrows sc a). rewrite Hv in Hrows. destruct Hrows as (v' & Hv' & _ & _ & Hup).
    destruct Hx as [Hx|Hx]; [|right; exists x; split; [done|right; by rewrite Hq]].
    destruct o as [[]|e| |]; [left; eauto|right; exists x; split; [done|left; by apply Hkeep]..].
  - intros sc a x [Hx|Hx]; [left; auto|right; by rewrite <-Hq].
  - intros sc a. specialize (Hrows sc a). destruct (active s sc a) as [v|]; [|done]. naive_solver.
Qed.

Lemma load_give_back scope l out : load (give_back scope l out) = tag scope <$> l.
Proof. by destruct l. Qed.

Lemma advance_inv s s' t x p :
  inv s → threads s !! t = Some p → advance fp mvcc_max_retries t x p s = Some s' → inv s'.
Proof.
  intros Hi Ht Ha. pose proof (inv_shards _ Hi) as Hlen.
  assert (∀ p', threads s' = <[t := p']> (threads s) → requested s' = requested s → moves s s' p p' → inv s') as Hmove.
  { intros p' ? ? ?. by eapply inv_moves. }
  destruct p; cbn [advance] in Ha.
  - injection Ha as <-. eapply Hmove; [done|done|]. eapply moves_enqueue; [done|done|done|].
    intros sc b y. simpl. rewrite elem_of_cons, elem_of_nil. tauto.
  - injection Ha as <-. eapply Hmove; [done|done|]. by apply moves_same.
  - injection Ha as <-. eapply Hmove; [done|done|]. apply moves_same; [done|done|]. by destruct (should_flush x s).
  - injection Ha as <-. eapply Hmove; [done|done|]. apply moves_same; [done|done|]. by destruct (has_pending s).
  - injection Ha as <-. eapply Hmove; [done|done|]. by apply moves_same.
  - destruct (deferred_touch_shards s !! i) as [m|] eqn:Hm.
    + destruct (drain_shard _ m merged) as [merged' m'] eqn:Hd. injection Ha as <-. eapply Hmove; [done|done|].
      eapply moves_drain; [apply Hi|done|done|done|done].
    + injection Ha as <-. eapply Hmove; [done|done|]. by apply moves_same.
  - injection Ha as <-. destruct has_remaining; (eapply Hmove; [done|done|]); by apply moves_same.
  - case_bool_decide as He; [|case_bool_decide as Ho; [|done]]; injection Ha as <-; (eapply Hmove; [done|done|]); apply moves_same; try done.
    + intros sc b y. by rewrite He.
    + intros sc b y. simpl. by rewrite Ho.
  - injection Ha as <-. eapply Hmove; [done|done|]. apply moves_same; [done|done|].
    destruct (connection x); simpl; by rewrite ?load_give_back.
  - destruct (flush_tx _ _ _ _) as [o db] eqn:Hf. destruct (after_attempt _ _ o) as [c|b] eqn:Hv; injection Ha as <-.
    + eapply Hmove; [done|done|]. by eapply moves_attempt.
    + eapply Hmove; [done|done|]. eapply moves_attempt; [done|done|done| |].
      * destruct o; rewrite ?load_give_back; [by intros ??? ?%elem_of_nil|done..].
      * destruct o as [[]| | |]; rewrite ?load_give_back; done.
  - destruct pending as [|[b ts] l]; injection Ha as <-; (eapply Hmove; [done|done|]).
    + by apply moves_same.
    + eapply moves_enqueue; [done|done|done|]. intros sc a y. simpl. by rewrite elem_of_cons.
  - injection Ha as <-. eapply Hmove; [done|done|]. by apply moves_same.
  - injection Ha as <-. eapply Hmove; [done|done|]. apply moves_same; [done|done|]. by rewrite load_give_back.
  - done.
Qed.

Lemma touch_label_inv l s s' : inv s → run_label fp mvcc_max_retries l s = Some s' → inv s'.
Proof.
  intros Hi. destruct l as [t scope a now|t scope|t x]; simpl.
  - destruct (threads s !! t) eqn:Ht; [done|]. intros [= <-]. destruct Hi as [I0 I1 I2 I3 I4].
    assert (∀ sc b x, token s sc b x → token (set_thread t (TouchInsert scope a now) (request scope a now s)) sc b x) as Hold.
    { intros sc b x [?|(t' & q & Hq & ?)]; [by left|right]. exists t', q. simpl. rewrite lookup_insert_ne; [done|congruence]. }
    split; simpl; [done|done| | |].
    + intros sc b. specialize (I2 sc b). destruct (default ∅ (dbs0 !! sc) !! b); [|done].
      destruct I2 as (v & ? & ? & Ho). exists v. split_and!; [done|done|]. destruct Ho as [|(T & HT & ?)]; [by left|right].
      destruct (insert_max_grows (scope, a) now _ _ _ HT) as (T' & ? & ?). exists T'. split; [done|lia].
    + intros sc b T v [[[= -> ->] ->]|HT]%insert_max_inv Hv.
      * right. exists now. split; [done|]. right. exists t, (TouchInsert scope a now). simpl. rewrite lookup_insert_eq. split; [done|left].
      * destruct (I3 sc b T v HT Hv) as [|(x & ? & Hx)]; [by left|right]. exists x. split; [done|]. by apply Hold.
    + intros sc b x Hx. assert ((sc, b, x) = (scope, a, now) ∨ token s sc b x) as [[= -> -> ->]|Hs].
      { destruct Hx as [?|(t' & q & Hq & Hl)]; [by right; left|]. simpl in Hq. destruct (decide (t' = t)) as [->|Hne].
        - rewrite lookup_insert_eq in Hq. injection Hq as <-. apply list_elem_of_singleton in Hl. by left.
        - rewrite lookup_insert_ne in Hq by done. right. right. eauto. }
      * destruct (insert_max_eq (scope, a) now (requested s)) as (y & ? & ? & _). eauto.
      * destruct (I4 _ _ _ Hs) as (T & HT & ?). destruct (insert_max_grows (scope, a) now _ _ _ HT) as (T' & ? & ?).
        exists T'. split; [done|lia].
  - destruct (threads s !! t) eqn:Ht; [done|]. intros [= <-].
    assert (∀ sc b x, token (set_thread t (FlushCheck scope) s) sc b x ↔ token s sc b x) as Htok.
    { intros sc b x. split; (intros [?|(t' & q & Hq & Hl)]; [by left|right]); simpl in *.
      - destruct (decide (t' = t)) as [->|Hne]; [|rewrite lookup_insert_ne in Hq by done; eauto].
        rewrite lookup_insert_eq in Hq. injection Hq as <-. by apply elem_of_nil in Hl.
      - exists t', q. rewrite lookup_insert_ne; [done|congruence]. }
    destruct Hi as [I0 I1 I2 I3 I4]. split; simpl; [done|done|done| |].
    + intros sc b T v HT Hv. destruct (I3 sc b T v HT Hv) as [|(x & ? & Hx)]; [by left|right]. exists x. by rewrite Htok.
    + intros sc b x Hx. by apply I4, Htok.
  - destruct (threads s !! t) as [p|] eqn:Ht; [simpl|done]. by apply advance_inv.
Qed.

(** ** The flag *)

(** The thread will set the flag if shard [i] holds something. *)
Definition will_flag (i : nat) (p : PC) : Prop :=
  match p with
  | TouchFlag _ | ReFlag _ _ _ => True
  | DrainShard _ j _ has_remaining => has_remaining = true ∨ (j ≤ i)%nat
  | DrainRestore _ _ has_remaining => has_remaining = true
  | _ => False
  end.

Definition noticed s : Prop :=
  ∀ i m, deferred_touch_shards s !! i = Some m → m ≠ ∅ →
    has_pending s = true ∨ ∃ t p, threads s !! t = Some p ∧ will_flag i p.

Lemma noticed_step s s' t p p' :
  threads s !! t = Some p → threads s' = <[t := p']> (threads s) →
  (∀ i m', deferred_touch_shards s' !! i = Some m' → m' ≠ ∅ →
    (has_pending s' = true ∨ will_flag i p') ∨
    deferred_touch_shards s !! i = Some m' ∧
    (has_pending s = true → has_pending s' = true ∨ will_flag i p') ∧ (will_flag i p → has_pending s' = true ∨ will_flag i p')) →
  noticed s → noticed s'.
Proof.
  intros Ht Ht' Hs Hn i m' Hm' Hne.
  assert (has_pending s' = true ∨ will_flag i p' → has_pending s' = true ∨ ∃ t0 p0, threads s' !! t0 = Some p0 ∧ will_flag i p0) as Hend.
  { intros [?|?]; [by left|right]. exists t, p'. by rewrite Ht', lookup_insert_eq. }
  destruct (Hs i m' Hm' Hne) as [?|(Hm & H1 & H2)]; [by apply Hend|].
  destruct (Hn i m' Hm Hne) as [Hf|(t0 & p0 & Hp0 & Hw)]; [by apply Hend, H1|].
  destruct (decide (t0 = t)) as [->|Hne0]; [apply Hend, H2; congruence|].
  right. exists t0, p0. by rewrite Ht', lookup_insert_ne.
Qed.

(** Steps that leave queue and flag alone. *)
Lemma noticed_same s s' t p p' :
  threads s !! t = Some p → threads s' = <[t := p']> (threads s) →
  deferred_touch_shards s' = deferred_touch_shards s → has_pending s' = has_pending s → (∀ i, ¬ will_flag i p) →
  noticed s → noticed s'.
Proof.
  intros Ht Ht' Hsh Hf Hw. apply (noticed_step s s' t p p' Ht Ht'). intros i m' Hm' _. right. rewrite <-Hsh, Hf.
  split_and!; [done|by left|]. intros H. by destruct (Hw i).
Qed.

Lemma advance_noticed s s' t x p :
  noticed s → threads s !! t = Some p → advance fp mvcc_max_retries t x p s = Some s' → noticed s'.
Proof.
  intros Hn Ht Ha.
  assert (∀ p', threads s' = <[t := p']> (threads s) → deferred_touch_shards s' = deferred_touch_shards s →
    has_pending s' = has_pending s → (∀ i, ¬ will_flag i p) → noticed s') as Hsame by (intros; by eapply noticed_same).
  assert (∀ p', threads s' = <[t := p']> (threads s) → (∀ i, has_pending s' = true ∨ will_flag i p') → noticed s') as Hset.
  { intros p' Ht' Hp'. eapply noticed_step; [done|done| |done]. intros i m' _ _. left. apply Hp'. }
  destruct p; cbn [advance] in Ha.
  - injection Ha as <-. eapply Hset; [done|]. by right.
  - injection Ha as <-. eapply Hset; [done|]. by left.
  - injection Ha as <-. eapply Hsame; try done; by intros ? ?.
  - injection Ha as <-. eapply Hsame; try done; by intros ? ?.
  - injection Ha as <-. eapply Hset; [done|]. intros i. right. right. lia.
  - destruct (deferred_touch_shards s !! i) as [m|] eqn:Hm.
    + destruct (drain_shard _ m merged) as [merged' m'] eqn:Hd. injection Ha as <-. eapply noticed_step; [done|done| |done].
      simpl. intros j n Hn' Hne. destruct (decide (j = i)) as [->|Hji].
      * rewrite list_lookup_insert_eq in Hn' by (by eapply lookup_lt_Some). injection Hn' as <-. left. right. left.
        rewrite bool_decide_eq_false_2 by done. apply orb_true_r.
      * rewrite list_lookup_insert_ne in Hn' by done. right. split_and!; [done|by left|].
        intros [->|]; [right; by left|right; right; lia].
    + injection Ha as <-. eapply noticed_step; [done|done| |done]. simpl. intros j n Hn' _. right. split_and!; [done|by left|].
      intros [->|Hle]; [by right|]. apply lookup_ge_None in Hm. apply lookup_lt_Some in Hn'. lia.
  - destruct has_remaining; injection Ha as <-; [eapply Hset; [done|]; by left|(eapply Hsame; try done; by intros ? ?)].
  - case_bool_decide; [|case_bool_decide; [|done]]; injection Ha as <-; (eapply Hsame; try done; by intros ? ?).
  - injection Ha as <-. (eapply Hsame; try done; by intros ? ?).
  - destruct (flush_tx _ _ _ _) as [o db]. destruct (after_attempt _ _ o); injection Ha as <-; (eapply Hsame; try done; by intros ? ?).
  - destruct pending as [|[b ts] l]; injection Ha as <-; [(eapply Hsame; try done; by intros ? ?)|]. eapply Hset; [done|]. by right.
  - injection Ha as <-. eapply Hset; [done|]. by left.
  - injection Ha as <-. (eapply Hsame; try done; by intros ? ?).
  - done.
Qed.

Lemma label_noticed l s s' : noticed s → run_label fp mvcc_max_retries l s = Some s' → noticed s'.
Proof.
  intros Hn. destruct l as [t scope a now|t scope|t x]; simpl.
  1,2: destruct (threads s !! t) eqn:Ht; [done|]; intros [= <-] i m Hm Hne;
    (destruct (Hn i m Hm Hne) as [|(t0 & p0 & Hp0 & ?)]; [by left|right]);
    exists t0, p0; simpl; (rewrite lookup_insert_ne; [done|congruence]).
  destruct (threads s !! t) as [p|] eqn:Ht; [simpl|done]. by apply advance_noticed.
Qed.

Lemma initial_inv start : inv (initial start dbs0) ∧ noticed (initial start dbs0).
Proof.
  assert (∀ sc a, queued (initial start dbs0) sc a = None) as Hq.
  { intros sc a. unfold queued. destruct (deferred_touch_shards _ !! _) as [m|] eqn:Hm; [|done].
    apply lookup_replicate in Hm as [-> _]. simpl. by rewrite lookup_empty. }
  split; [split|]; simpl.
  - intros i m f a [-> _]%lookup_replicate [x Hx]. by rewrite lookup_empty in Hx.
  - done.
  - intros sc a. unfold active, db_of. simpl. destruct (default ∅ (dbs0 !! sc) !! a) as [v|]; [|done].
    exists v. split_and!; [done|done|by left].
  - intros sc a T v. by rewrite lookup_empty.
  - intros sc a x [Hx|(t & p & Hp & _)]; [by rewrite Hq in Hx|simpl in Hp; by rewrite lookup_empty in Hp].
  - by intros i m [-> _]%lookup_replicate.
Qed.

Definition touches_reachable start s : Prop := rtc (step fp mvcc_max_retries) (initial start dbs0) s.

Lemma touches_reachable_inv start s : touches_reachable start s → inv s ∧ noticed s.
Proof.
  intros Hs. pose proof (initial_inv start) as H0. revert H0. unfold touches_reachable in Hs.
  induction Hs as [|a b c [l Hl] _ IH]; [done|]. intros [Hi Hn].
  apply IH. split; [by eapply touch_label_inv|by eapply label_noticed].
Qed.

(** ** The properties *)

(** No touch is lost.  Whatever transactions fail, are retried or
    cancelled, and however calls interleave: an agent that was in its
    database stays there, its time never goes back, and the latest time it
    was touched at is written, queued, or carried by a call that will write it
    or put it back. *)
Theorem touches_kept start s sc a v0 T :
  touches_reachable start s → default ∅ (dbs0 !! sc) !! a = Some v0 → requested s !! (sc, a) = Some T →
  ∃ v, active s sc a = Some v ∧ v0 ≤ v ∧ v ≤ Z.max v0 T ∧ (T ≤ v ∨ ∃ x, T ≤ x ∧ token s sc a x).
Proof.
  intros [Hi _]%touches_reachable_inv Hv0 HT. pose proof (inv_rows _ Hi sc a) as Hr. rewrite Hv0 in Hr.
  destruct Hr as (v & Hv & Hle & Ho). exists v. split_and!; [done|done| |by apply (inv_covered _ Hi)].
  destruct Ho as [->|(T' & HT' & ?)]; [lia|]. assert (T' = T) as -> by congruence. lia.
Qed.

(** At rest the books are closed.  When every call has returned, the
    later of an agent's time in the database and in the queue is exactly the
    later of its first time and the latest it was touched at; and if the
    queue holds anything the flag is set, so that the next flush sees it. *)
Theorem touches_settle start s :
  touches_reachable start s → map_Forall (λ _ p, ∃ out, p = Returned out) (threads s) →
  (∀ sc a v0, default ∅ (dbs0 !! sc) !! a = Some v0 →
     ∃ v, active s sc a = Some v ∧ Z.max v (default v (queued s sc a)) = Z.max v0 (default v0 (requested s !! (sc, a)))) ∧
  (has_pending s = false → ∀ i m, deferred_touch_shards s !! i = Some m → m = ∅).
Proof.
  intros [Hi Hn]%touches_reachable_inv Hret. split.
  - intros sc a v0 Hv0. pose proof (inv_rows _ Hi sc a) as Hr. rewrite Hv0 in Hr. destruct Hr as (v & Hv & Hle & Ho).
    exists v. split; [done|].
    assert (∀ x, token s sc a x → queued s sc a = Some x) as Hq.
    { intros x [?|(t & p & Hp & Hl)]; [done|]. destruct (Hret _ _ Hp) as [out ->]. by apply elem_of_nil in Hl. }
    assert (∀ x, queued s sc a = Some x → ∃ T, requested s !! (sc, a) = Some T ∧ x ≤ T) as Hb by (intros x ?; apply (inv_bounded _ Hi); by left).
    destruct (requested s !! (sc, a)) as [T|] eqn:HT; simpl.
    + destruct (inv_covered _ Hi _ _ _ _ HT Hv) as [?|(x & ? & Hx%Hq)].
      * destruct Ho as [->|(T' & [= <-] & ?)]; destruct (queued s sc a) as [x|]; simpl;
          try (destruct (Hb x eq_refl) as (? & [= <-] & ?)); lia.
      * rewrite Hx. simpl. destruct (Hb x Hx) as (? & [= <-] & ?). destruct Ho as [->|(T' & [= <-] & ?)]; lia.
    + destruct Ho as [->|(T' & ? & ?)]; [|done]. destruct (queued s sc a) as [x|]; [|done].
      by destruct (Hb x eq_refl) as (? & ? & _).
  - intros Hf i m Hm. destruct (decide (m = ∅)) as [|Hne]; [done|exfalso].
    destruct (Hn i m Hm Hne) as [?|(t & p & Hp & Hw)]; [congruence|]. by destruct (Hret _ _ Hp) as [out ->].
Qed.
End facts.

(** ** A run *)

Module TouchRuns.

(** Scopes are told apart by their codes. *)
Definition fingerprint (s : str) : Z := Zpos (encode s).

#[export] Instance fingerprint_inj : Inj (=) (=) fingerprint.
Proof. intros x y [= H]. by apply (inj encode). Qed.

Definition healthy : Engine :=
  {| concurrent_mode_enabled := false; begin_concurrent := Done (); begin_immediate := Done (); commit := Done () |}.
Definition locked : Engine :=
  {| concurrent_mode_enabled := false; begin_concurrent := Done ();
     begin_immediate := Failed (DbErrors.Sqlite (lit "database is locked")); commit := Done () |}.

Definition world (now : Z) (e : Engine) : World :=
  {| instant := now; order := [(7, 500)]; connection := Done (); engine := e; answers := λ _, Done () |}.

(** Agent 7 is touched; a minute later a flush meets a locked database once,
    then writes; agent 7 is touched again. *)
Definition minute : Z := 60 * 1000000000.
Definition run : list Label :=
  LTouch 1 (lit "db") 7 500 :: replicate 3 (LStep 1 (world 0 healthy)) ++ LFlush 2 (lit "db") ::
  replicate 21 (LStep 2 (world minute healthy)) ++ [LStep 2 (world minute locked); LStep 2 (world minute healthy)] ++
  LTouch 3 (lit "db") 7 900 :: replicate 3 (LStep 3 (world minute healthy)).

Definition dbs0 : gmap str Agents := {[ lit "db" := {[ 7 := 100 ]} ]}.

Fixpoint runs (ls : list Label) (s : Sys) : option Sys :=
  match ls with [] => Some s | l :: ls => run_label fingerprint 8 l s ≫= runs ls end.

Definition after (ls : list Label) : Sys := default (initial 0 dbs0) (runs ls (initial 0 dbs0)).

Lemma touch_runs_rtc ls s s' : runs ls s = Some s' → rtc (step fingerprint 8) s s'.
Proof.
  revert s. induction ls as [|l ls IH]; intros s; simpl; [intros [= ->]; done|].
  destruct (run_label _ _ l s) as [a|] eqn:Hl; [simpl|done]. intros Ha. eapply rtc_l; [by exists l|by apply IH].
Qed.

Lemma touch_after_reachable ls : is_Some (runs ls (initial 0 dbs0)) → touches_reachable fingerprint 8 dbs0 0 (after ls).
Proof. intros [s Hs]. unfold after. rewrite Hs. by apply (touch_runs_rtc ls). Qed.

Example touches_kept_witness : ∃ v, active (after run) (lit "db") 7 = Some v ∧ v ≤ Z.max 100 900.
Proof.
  destruct (touches_kept fingerprint 8 dbs0 0 (after run) (lit "db") 7 100 900) as (v & Hv & _ & Hle & _).
  - apply touch_after_reachable. vm_compute. by eexists.
  - by vm_compute.
  - by vm_compute.
  - exists v. split; assumption.
Defined.

Example touches_settle_witness : ∃ v, active (after run) (lit "db") 7 = Some v ∧ Z.max v (default v (queued fingerprint (after run) (lit "db") 7)) = 900.
Proof.
  destruct (touches_settle fingerprint 8 dbs0 0 (after run)) as [H _].
  - apply touch_after_reachable. vm_compute. by eexists.
  - apply map_Forall_to_list. vm_compute. repeat constructor; by eexists.
  - destruct (H (lit "db") 7 100) as (v & Hv & Hm); [by vm_compute|]. exists v. split; [assumption|]. rewrite Hm. by vm_compute.
Defined.

Example run_writes : active (after run) (lit "db") 7 = Some 500.
Proof. by vm_compute. Qed.
End TouchRuns.
