(* ===== verification/Guard.v ===== *)
(** * The commit guard ([mcp-agent-mail-guard/src/lib.rs])

    The hooks check the paths a commit or push touches against the reservations
    other agents hold.  This file models the decision: the gates, the reading of
    the reservation records in the archive, the conflict detection, and the
    parsing of git's output.  [globset], [git2], [serde_json], [chrono], the
    directory listing and the git processes are parameters. *)

From stdpp Require Import base tactics list gmap strings sorting.
From S2P Require Import Prelude PatternOverlap KeyedBuckets Timestamps.
Open Scope Z_scope.

(** ** Parameters *)

(** [globset] with [literal_separator(true)]; the first argument is
    [case_insensitive].  A set reports the positions of its patterns that
    match. *)
Class GuardGlobset := {
  guard_glob_build : bool → str → bool;
  guard_glob_match : bool → str → str → bool;
  guard_set_build : bool → list str → bool;
  guard_set_matches : bool → list str → str → list nat;
}.

(** Text without a glob metacharacter stands for itself. *)
Definition literal_text (s : str) : Prop :=
  Forall (λ c, c ∉ [ch_star; ch_question; ch_lbracket; ch_rbracket; ch_lbrace; ch_rbrace; ch_backslash]) s.

(** Nothing is promised about the building of a set: it can exceed the limits of
    the library even when every pattern of it is valid. *)
Class GuardGlobsetLaws `{GuardGlobset} := {
  guard_glob_literal ic p :
    literal_text p → guard_glob_build ic p = true ∧ guard_glob_match ic p p = true;
  guard_set_matches_spec ic ps path i :
    i ∈ guard_set_matches ic ps path ↔
      ∃ p, ps !! i = Some p ∧ guard_glob_match ic p path = true;
}.

(** Dates as texts, for [chrono]: the two formats tried without a zone are
    [%Y-%m-%dT%H:%M:%S%.f] and the same without a fraction. *)
Class ChronoText `{Timestamps.Chrono} := {
  parse_from_rfc3339 : str → option Timestamps.DateTime;
  parse_naive_fraction : str → option Timestamps.DateTime;
  parse_naive_seconds : str → option Timestamps.DateTime;
  to_rfc3339 : Timestamps.DateTime → str;
  date_le : Timestamps.DateTime → Timestamps.DateTime → bool;
}.

(** A process: it could not be started, or exited with a status. *)
Inductive GitOutput := SpawnError | Exited (success : bool) (stdout : str).

Class Git := git : list str → GitOutput.

Module Guard.

Inductive GuardError :=
  | InvalidReservationPattern (pattern : str)
  | MissingAgentName
  | Io.

Inductive GuardResult (A : Type) :=
  | Ok (a : A)
  | Err (e : GuardError).
#[global] Arguments Ok {A} a.
#[global] Arguments Err {A} e.

Inductive GuardMode := Block | Warn.

Definition Env : Type := str → option str.

Definition from_env (env : Env) : GuardMode :=
  if bool_decide (to_ascii_lowercase (trim (default (lit "block") (env (lit "AGENT_MAIL_GUARD_MODE"))))
                  = lit "warn")
  then Warn else Block.

Record GuardConflict := {
  conflict_path : str;
  conflict_pattern : str;
  holder : str;
  conflict_expires_ts : str;
}.

Record FileReservationRecord := {
  path_pattern : str;
  agent_name : str;
  exclusive : bool;
  expires_ts : str;
  normalized_pattern : str;
  has_glob : bool;
}.

Record GuardCheckResult := {
  conflicts : list GuardConflict;
  guard_mode : GuardMode;
  bypassed : bool;
  gated : bool;
}.

(** ** Gates *)

Definition is_truthy_value (value : option str) : bool :=
  match value with
  | Some v =>
      bool_decide (to_ascii_lowercase (trim v) ∈ [lit "1"; lit "true"; lit "t"; lit "yes"; lit "y"])
  | None => false
  end.

Definition is_guard_gated_from_values (enforcement_enabled worktrees_enabled git_identity_enabled :
    option str) : bool :=
  match enforcement_enabled with
  | Some val => is_truthy_value (Some val)
  | None => true
  end.

Definition is_guard_gated (env : Env) : bool :=
  is_guard_gated_from_values (env (lit "FILE_RESERVATIONS_ENFORCEMENT_ENABLED"))
    (env (lit "WORKTREES_ENABLED")) (env (lit "GIT_IDENTITY_ENABLED")).

Definition is_bypass_active (env : Env) : bool := is_truthy_value (env (lit "AGENT_MAIL_BYPASS")).

(** ** Paths *)

Definition contains_glob (s : str) : bool :=
  existsb (λ c, (c =? ch_star)%N || (c =? ch_question)%N || (c =? ch_lbracket)%N || (c =? ch_lbrace)%N) s.

Definition replace_backslash (s : str) : str :=
  (λ c, if (c =? ch_backslash)%N then ch_slash else c) <$> s.

Section paths.
(** [str::to_lowercase], with its Unicode tables. *)
Context (lower : str → str).

(** The loop is the one of [normalize_pattern]. *)
Definition normalize_path (path : str) (ignorecase : bool) : str :=
  let normalized :=
    join_slash (fold_left PatternOverlap.push_component
                  (split_on is_slash (replace_backslash path)) []) in
  if ignorecase then lower normalized else normalized.

(** ** Conflicts *)

Context `{GuardGlobset}.

(** The reservations of other agents whose pattern compiles. *)
Definition active_indices (ignorecase : bool) (self_agent : str)
    (reservations : list FileReservationRecord) : list FileReservationRecord :=
  filter (λ r, exclusive r && negb (eq_ignore_ascii_case (agent_name r) self_agent)
               && guard_glob_build ignorecase (normalized_pattern r)) reservations.

(** The path is a directory above the pattern. *)
Definition path_above (normalized : str) (r : FileReservationRecord) : bool :=
  starts_with normalized (normalized_pattern r) &&
  (bool_decide (normalized = []) ||
   bool_decide (normalized_pattern r !! length normalized = Some ch_slash)).

(** The path is below a literal reservation. *)
Definition path_below (normalized : str) (r : FileReservationRecord) : bool :=
  negb (has_glob r) && starts_with (normalized_pattern r) normalized &&
  (bool_decide (normalized_pattern r = []) ||
   bool_decide (normalized !! length (normalized_pattern r) = Some ch_slash)).

Definition conflict_with (path : str) (r : FileReservationRecord) : GuardConflict :=
  {| conflict_path := path; conflict_pattern := path_pattern r; holder := agent_name r;
     conflict_expires_ts := expires_ts r |}.

(** The body of the loop over the paths: the outer [option] is the panic of an
    index out of range, the inner one tells whether the path conflicts. *)
Definition path_conflict (ignorecase : bool) (active : list FileReservationRecord) (path : str) :
    option (option GuardConflict) :=
  let normalized := normalize_path path ignorecase in
  match guard_set_matches ignorecase (normalized_pattern <$> active) normalized with
  | idx :: _ => r ← active !! idx; Some (Some (conflict_with path r))
  | [] =>
      Some (conflict_with path <$>
              head (filter (λ r, path_above normalized r || path_below normalized r) active))
  end.

Fixpoint path_conflicts (ignorecase : bool) (active : list FileReservationRecord) (paths : list str) :
    option (list GuardConflict) :=
  match paths with
  | [] => Some []
  | path :: paths =>
      c ← path_conflict ignorecase active path;
      cs ← path_conflicts ignorecase active paths;
      Some (option_list c ++ cs)
  end.

Definition check_path_conflicts (paths : list str) (reservations : list FileReservationRecord)
    (self_agent : str) (ignorecase : bool) : option (GuardResult (list GuardConflict)) :=
  let active := active_indices ignorecase self_agent reservations in
  if guard_set_build ignorecase (normalized_pattern <$> active)
  then Ok <$> path_conflicts ignorecase active paths
  else Some (Err (InvalidReservationPattern (lit "<globset>"))).
End paths.

(** ** Reservation records *)

(** [serde_json::Value]; a float is its mantissa times a power of two. *)
Inductive Value :=
  | Null
  | Bool (b : bool)
  | PosInt (n : Z)
  | NegInt (z : Z)
  | Float (mantissa exponent : Z)
  | String (s : str)
  | Array (vs : list Value)
  | Object (fields : list (str * Value)).

(** [val["key"]]: [Null] for a missing key or another type. *)
Definition field (key : str) (v : Value) : Value :=
  match v with
  | Object fields =>
      from_option snd Null (head (filter (λ kv : str * Value, bool_decide (kv.1 = key)) fields))
  | _ => Null
  end.

Definition as_str (v : Value) : option str := match v with String s => Some s | _ => None end.
Definition as_bool (v : Value) : option bool := match v with Bool b => Some b | _ => None end.
Definition as_i64 (v : Value) : option Z :=
  match v with
  | PosInt n => if n <=? i64_max then Some n else None
  | NegInt z => Some z
  | _ => None
  end.

(** [as_f64] of a number is positive. *)
Definition number_positive (v : Value) : bool :=
  match v with PosInt n => 0 <? n | Float m _ => 0 <? m | _ => false end.

Definition numeric_char (c : N) : bool :=
  is_ascii_digit c || (c =? 46)%N || (c =? 43)%N || (c =? 45)%N.

(** The integer and fractional digits of a numeral without a sign. *)
Definition numeral_parts (s : str) : option (str * str) :=
  match split_on (λ c, (c =? 46)%N) s with
  | [i] => if forallb is_ascii_digit i && bool_decide (i ≠ []) then Some (i, []) else None
  | [i; f] =>
      if forallb is_ascii_digit (i ++ f) && bool_decide (i ++ f ≠ []) then Some (i, f) else None
  | _ => None
  end.

(** [parse::<f64>().is_ok_and(|v| v > 0.0)] for a text of numeric characters.
    The parser rounds to nearest, ties to even: a positive value becomes zero
    when it is at most half the smallest subnormal, [2^-1075]. *)
Definition parse_f64_positive (s : str) : bool :=
  match s with
  | 45%N :: _ => false
  | _ =>
      let unsigned := match s with 43%N :: s' => s' | _ => s end in
      match numeral_parts unsigned with
      | Some (i, f) => 10 ^ Z.of_nat (length f) <? digits_value (i ++ f) * 2 ^ 1075
      | None => false
      end
  end.

Definition released_ts_marks_record_released (v : Value) : bool :=
  match v with
  | Null => false
  | PosInt _ | NegInt _ | Float _ _ => number_positive v
  | String text =>
      let trimmed := trim text in
      if bool_decide (trimmed = []) || eq_ignore_ascii_case trimmed (lit "null")
         || eq_ignore_ascii_case trimmed (lit "none") || bool_decide (trimmed = lit "0")
      then false
      else if forallb numeric_char trimmed then parse_f64_positive trimmed
      else true
  | _ => false
  end.

Record DirEntry := {
  file_type : option (bool * bool);
  extension : option str;
  metadata_len : option Z;
  content : option str;
}.

(** [reservations_dir] as the process finds it; an entry that cannot be read
    is [None]. *)
Inductive Dir := NotADirectory | Unreadable | Entries (es : list (option DirEntry)).

Section records.
Context (lower : str → str) `{ChronoText} (from_json : str → option Value).

Definition is_expired (ts : str) (now : Timestamps.DateTime) : bool :=
  match parse_from_rfc3339 ts with
  | Some dt => date_le dt now
  | None =>
      match parse_naive_fraction ts with
      | Some dt => date_le dt now
      | None =>
          match parse_naive_seconds ts with
          | Some dt => date_le dt now
          | None =>
              match parse_i64 ts with
              | Some num => num <=? Timestamps.timestamp_micros now
              | None => false
              end
          end
      end
  end.

(** The text of the [expires_ts] field; [None]: the record is skipped. *)
Definition expires_text (v : Value) (now : Timestamps.DateTime) : option str :=
  match as_str v with
  | Some s => Some s
  | None =>
      num ← as_i64 v;
      if num <=? Timestamps.timestamp_micros now then None
      else to_rfc3339 <$> Timestamps.timestamp_opt (Z.quot num 1000000)
                            (u32_wrap (Z.rem num 1000000 * 1000))
  end.

Definition str_field (val : Value) (key fallback : str) : str :=
  trim (default [] (match as_str (field key val) with
                    | Some s => Some s
                    | None => as_str (field fallback val)
                    end)).

(** The rest of the loop body for a parsed file. *)
Definition record_of (val : Value) (now : Timestamps.DateTime) (ignorecase : bool) :
    option FileReservationRecord :=
  if released_ts_marks_record_released (field (lit "released_ts") val) then None
  else
    expires_str ← expires_text (field (lit "expires_ts") val) now;
    if is_expired expires_str now then None
    else
      let pattern := str_field val (lit "path_pattern") (lit "path") in
      if bool_decide (pattern = []) then None
      else
        excl ← as_bool (field (lit "exclusive") val);
        let agent := str_field val (lit "agent_name") (lit "agent") in
        if bool_decide (agent = []) then None
        else Some {| path_pattern := pattern; agent_name := agent; exclusive := excl;
                     expires_ts := expires_str;
                     normalized_pattern := normalize_path lower pattern ignorecase;
                     has_glob := contains_glob pattern |}.

(** A directory entry up to its JSON value. *)
Definition entry_value (e : DirEntry) : option Value :=
  '(is_file, is_symlink) ← file_type e;
  if negb is_file || is_symlink || negb (bool_decide (extension e = Some (lit "json"))) then None
  else if match metadata_len e with Some len => 1024 * 1024 <? len | None => false end then None
  else text ← content e; from_json text.

Fixpoint read_entries (es : list (option DirEntry)) (now : Timestamps.DateTime) (ignorecase : bool) :
    GuardResult (list FileReservationRecord) :=
  match es with
  | [] => Ok []
  | None :: _ => Err Io
  | Some e :: es =>
      match read_entries es now ignorecase with
      | Ok records =>
          Ok (option_list (val ← entry_value e; record_of val now ignorecase) ++ records)
      | Err err => Err err
      end
  end.

Definition read_active_reservations_from_archive (dir : Dir) (now : Timestamps.DateTime)
    (ignorecase : bool) : GuardResult (list FileReservationRecord) :=
  match dir with
  | NotADirectory => Ok []
  | Unreadable => Err Io
  | Entries es => read_entries es now ignorecase
  end.

Context `{GuardGlobset}.

(** [None] is a panic. *)
Definition guard_check_full (env : Env) (dir : Dir) (now : Timestamps.DateTime) (ignorecase : bool)
    (paths : list str) : option (GuardResult GuardCheckResult) :=
  let mode := from_env env in
  if is_bypass_active env then
    Some (Ok {| conflicts := []; guard_mode := mode; bypassed := true; gated := false |})
  else if negb (is_guard_gated env) then
    Some (Ok {| conflicts := []; guard_mode := mode; bypassed := false; gated := true |})
  else
    let agent_name := default [] (env (lit "AGENT_NAME")) in
    if bool_decide (agent_name = []) then Some (Err MissingAgentName)
    else
      match read_active_reservations_from_archive dir now ignorecase with
      | Err e => Some (Err e)
      | Ok reservations =>
          r ← check_path_conflicts lower paths reservations agent_name ignorecase;
          Some (match r with
                | Ok cs => Ok {| conflicts := cs; guard_mode := mode; bypassed := false; gated := false |}
                | Err e => Err e
                end)
      end.

Definition guard_check (env : Env) (dir : Dir) (now : Timestamps.DateTime) (ignorecase : bool)
    (paths : list str) : option (GuardResult (list GuardConflict)) :=
  let agent_name := default [] (env (lit "AGENT_NAME")) in
  if bool_decide (agent_name = []) then Some (Err MissingAgentName)
  else
    match read_active_reservations_from_archive dir now ignorecase with
    | Err e => Some (Err e)
    | Ok reservations => check_path_conflicts lower paths reservations agent_name ignorecase
    end.
End records.

(** ** The paths git reports *)

Fixpoint parse_parts (parts : list str) : list str :=
  match parts with
  | [] => []
  | part :: rest =>
      match trim part with
      | [] => parse_parts rest
      | first_char :: _ =>
          if (first_char =? 82)%N || (first_char =? 67)%N then
            match rest with
            | [] => []
            | old_p :: rest =>
                (if bool_decide (old_p = []) then [] else [old_p]) ++
                match rest with
                | [] => []
                | new_p :: rest => (if bool_decide (new_p = []) then [] else [new_p]) ++ parse_parts rest
                end
            end
          else
            match rest with
            | [] => []
            | p :: rest => (if bool_decide (p = []) then [] else [p]) ++ parse_parts rest
            end
      end
  end.

Definition is_nul (c : N) : bool := (c =? 0)%N.

(** On the text after [from_utf8_lossy]. *)
Definition parse_name_status_z (text : str) : list str := parse_parts (split_on is_nul text).

(** [str::lines]: a carriage return belongs to the line end only before a line
    feed. *)
Definition strip_cr (s : str) : str :=
  match reverse s with 13%N :: r => reverse r | _ => s end.

Definition lines (s : str) : list str :=
  let ls := split_on (λ c, (c =? 10)%N) s in
  (strip_cr <$> removelast ls) ++
  match last ls with Some [] | None => [] | Some l => [l] end.

Definition split_whitespace (s : str) : list str :=
  filter (λ w, w ≠ []) (split_on is_whitespace s).

Definition all_zeros (s : str) : bool := forallb (λ c, (c =? 48)%N) s.

Section git.
Context `{Git}.

Definition get_staged_paths : GuardResult (list str) :=
  match git [lit "diff"; lit "--cached"; lit "--name-status"; lit "-M"; lit "-z"] with
  | Exited true stdout => Ok (parse_name_status_z stdout)
  | _ => Err Io
  end.

Definition diff_tree (sha : str) : list str :=
  [lit "diff-tree"; lit "-r"; lit "--no-commit-id"; lit "--name-status"; lit "-M"; lit "--no-ext-diff";
   lit "--diff-filter=ACMRDTU"; lit "-z"; lit "-m"; sha].

(** The loop over the commits of [rev-list]. *)
Fixpoint commit_paths (shas : list str) : GuardResult (list str) :=
  match shas with
  | [] => Ok []
  | sha :: shas =>
      match git (diff_tree sha) with
      | Exited true stdout =>
          match commit_paths shas with
          | Ok paths => Ok (parse_name_status_z stdout ++ paths)
          | Err e => Err e
          end
      | _ => Err Io
      end
  end.

Definition range (remote_sha local_sha : str) : str := remote_sha ++ lit ".." ++ local_sha.

Definition rev_list (remote_sha local_sha : str) : list str :=
  [lit "rev-list"; lit "--topo-order"] ++
  (if all_zeros remote_sha then [local_sha; lit "--not"; lit "--remotes"] else [range remote_sha local_sha]).

Definition shas_of (stdout : str) : list str := filter (λ s, s ≠ []) (trim <$> lines stdout).

(** The body of the loop over the pushed refs. *)
Definition ref_paths (line : str) : GuardResult (list str) :=
  match split_whitespace line with
  | _ :: local_sha :: _ :: remote_sha :: _ =>
      if all_zeros local_sha then Ok []
      else
        match git (rev_list remote_sha local_sha) with
        | SpawnError => Err Io
        | Exited true stdout => commit_paths (shas_of stdout)
        | Exited false _ =>
            if all_zeros remote_sha then Ok []
            else
              match git [lit "diff"; lit "--name-status"; lit "-M"; lit "-z"; range remote_sha local_sha] with
              | Exited true stdout => Ok (parse_name_status_z stdout)
              | _ => Err Io
              end
        end
  | _ => Ok []
  end.

Fixpoint all_ref_paths (ls : list str) : GuardResult (list str) :=
  match ls with
  | [] => Ok []
  | l :: ls =>
      match ref_paths l with
      | Ok paths => match all_ref_paths ls with Ok more => Ok (paths ++ more) | Err e => Err e end
      | Err e => Err e
      end
  end.

Definition get_push_paths (stdin_lines : str) : GuardResult (list str) :=
  match all_ref_paths (lines stdin_lines) with
  | Ok paths => Ok (dedup (merge_sort str_le paths))
  | Err e => Err e
  end.
End git.
End Guard.
