(* ===== verification/GuardFacts.v ===== *)
(** * What the commit guard guarantees

    The theorems about [Guard]: which paths are reported, what a literal
    reservation protects, when nothing can be reported, which records count,
    and which paths of git's output are checked. *)

From stdpp Require Import base tactics list gmap strings sorting.
From S2P Require Import Prelude PatternOverlap RefGlob KeyedBuckets Timestamps ReservationDb Guard.
Import Guard.
Open Scope Z_scope.

(** ** Conflicts *)

Section conflicts.
Context (lower : str → str) `{GuardGlobsetLaws}.

(** The test the guard applies to one path and one reservation. *)
Definition blocks (ignorecase : bool) (self_agent : str) (path : str) (r : FileReservationRecord) : bool :=
  let n := normalize_path lower path ignorecase in
  exclusive r && negb (eq_ignore_ascii_case (agent_name r) self_agent) &&
  guard_glob_build ignorecase (normalized_pattern r) &&
  (guard_glob_match ignorecase (normalized_pattern r) n || path_above n r || path_below n r).

Lemma existsb_filter {A} (p q : A → bool) l :
  existsb q (filter (λ x, p x) l) = existsb (λ x, p x && q x) l.
Proof.
  induction l as [|x l IH]; [done|]. rewrite filter_cons. case_decide as E; simpl; rewrite IH.
  - by rewrite (Is_true_true_1 _ E).
  - by destruct (p x).
Qed.

Lemma set_matches_nil ic ps path :
  guard_set_matches ic ps path = [] → ∀ p, p ∈ ps → guard_glob_match ic p path = false.
Proof.
  intros Hnil p [i Hi]%list_elem_of_lookup. apply not_true_iff_false. intros Hm.
  assert (i ∈ guard_set_matches ic ps path) as Hin by (apply guard_set_matches_spec; eauto).
  rewrite Hnil in Hin. by apply elem_of_nil in Hin.
Qed.

(** One path against the active reservations. *)
Lemma path_conflict_spec ic active path :
  let n := normalize_path lower path ic in
  let hit r := guard_glob_match ic (normalized_pattern r) n || path_above n r || path_below n r in
  ∃ c, path_conflict lower ic active path = Some c ∧
    match c with
    | Some c => ∃ r, r ∈ active ∧ hit r = true ∧ c = conflict_with path r
    | None => ∀ r, r ∈ active → hit r = false
    end.
Proof.
  intros n hit. unfold path_conflict. fold n.
  destruct (guard_set_matches ic (normalized_pattern <$> active) n) as [|idx rest] eqn:Hm.
  - eexists. split; [reflexivity|].
    destruct (filter _ active) as [|r rs] eqn:Hf; simpl.
    + intros r Hr. unfold hit. rewrite (set_matches_nil _ _ _ Hm) by (apply list_elem_of_fmap; eauto). simpl.
      apply not_true_iff_false. intros Ht.
      assert (r ∈ filter (λ r, path_above n r || path_below n r) active) as Hin
        by (apply list_elem_of_filter; split; [by apply Is_true_true_2|done]).
      rewrite Hf in Hin. by apply elem_of_nil in Hin.
    + assert (r ∈ filter (λ r, path_above n r || path_below n r) active) as Hin by (rewrite Hf; left).
      apply list_elem_of_filter in Hin as [Ht%Is_true_true_1 Hr]. exists r. split_and!; [done| |done].
      unfold hit. by rewrite <-orb_assoc, Ht, orb_true_r.
  - assert (idx ∈ guard_set_matches ic (normalized_pattern <$> active) n) as Hin by (rewrite Hm; left).
    apply guard_set_matches_spec in Hin as (p & Hp & Hmatch).
    apply list_lookup_fmap_Some in Hp as (r & -> & Hr). rewrite Hr. simpl. eexists. split; [reflexivity|].
    exists r. split_and!; [by eapply list_elem_of_lookup_2| |done]. unfold hit. by rewrite Hmatch.
Qed.

Lemma active_blocks ic self reservations path r :
  r ∈ active_indices ic self reservations →
  blocks ic self path r =
    (let n := normalize_path lower path ic in
     guard_glob_match ic (normalized_pattern r) n || path_above n r || path_below n r).
Proof.
  intros [Hr%Is_true_true_1 _]%list_elem_of_filter. unfold blocks. by rewrite Hr.
Qed.

Lemma blocked_active ic self reservations path :
  existsb (blocks ic self path) reservations =
  existsb (blocks ic self path) (active_indices ic self reservations).
Proof.
  unfold active_indices. rewrite existsb_filter.
  induction reservations as [|r rs IH]; [done|]. simpl. rewrite IH. f_equal. unfold blocks.
  by destruct (exclusive r && _ && _).
Qed.

Lemma path_conflicts_spec ic self reservations paths :
  let active := active_indices ic self reservations in
  ∃ cs, path_conflicts lower ic active paths = Some cs ∧
    conflict_path <$> cs = filter (λ p, existsb (blocks ic self p) reservations) paths ∧
    ∀ c, c ∈ cs → ∃ r, r ∈ reservations ∧ blocks ic self (conflict_path c) r = true ∧
      c = conflict_with (conflict_path c) r.
Proof.
  intros active. induction paths as [|path paths (cs & Hcs & Hfilter & Hall)].
  { exists []. split_and!; [done|done|]. by intros c ?%elem_of_nil. }
  destruct (path_conflict_spec ic active path) as (c & Hc & Hspec).
  exists (option_list c ++ cs). simpl. rewrite Hc. simpl. rewrite Hcs. simpl. split; [done|].
  rewrite filter_cons, fmap_app, Hfilter. destruct c as [c|]; simpl.
  - destruct Hspec as (r & Hr & Hhit & ->).
    assert (blocks ic self path r = true) as Hb by (by erewrite active_blocks).
    assert (r ∈ reservations) as Hin by (by apply list_elem_of_filter in Hr as [_ ?]).
    rewrite decide_True by (apply Is_true_true_2, existsb_exists; exists r; by rewrite <-list_elem_of_In).
    split; [done|]. intros c [->|Hc']%elem_of_cons; [|by apply Hall]. exists r. by split_and!.
  - rewrite decide_False; [done|]. rewrite Is_true_true, blocked_active, existsb_exists.
    intros (r & Hr%list_elem_of_In & Hb). rewrite (active_blocks ic self reservations) in Hb by done.
    specialize (Hspec r Hr). simpl in Hb, Hspec. congruence.
Qed.

(** The set of the patterns that count builds. *)
Definition set_builds (ic : bool) (self : str) (reservations : list FileReservationRecord) : bool :=
  guard_set_build ic (normalized_pattern <$> active_indices ic self reservations).

Lemma check_result paths reservations self ic :
  match check_path_conflicts lower paths reservations self ic with
  | Some (Ok cs) =>
      set_builds ic self reservations = true ∧
      conflict_path <$> cs = filter (λ p, existsb (blocks ic self p) reservations) paths ∧
      ∀ c, c ∈ cs → ∃ r, r ∈ reservations ∧ blocks ic self (conflict_path c) r = true ∧
        c = conflict_with (conflict_path c) r
  | Some (Err e) => set_builds ic self reservations = false ∧ e = InvalidReservationPattern (lit "<globset>")
  | None => False
  end.
Proof.
  destruct (path_conflicts_spec ic self reservations paths) as (cs & Hcs & Hf & Hall).
  unfold check_path_conflicts. fold (set_builds ic self reservations).
  destruct (set_builds ic self reservations); [|done]. by rewrite Hcs.
Qed.

Lemma check_reports paths reservations self ic path r :
  path ∈ paths → r ∈ reservations → blocks ic self path r = true →
  match check_path_conflicts lower paths reservations self ic with
  | Some (Ok cs) => path ∈ conflict_path <$> cs
  | Some (Err e) => set_builds ic self reservations = false ∧ e = InvalidReservationPattern (lit "<globset>")
  | None => False
  end.
Proof.
  intros Hp Hr Hb. pose proof (check_result paths reservations self ic) as Hc.
  destruct (check_path_conflicts _ _ _ _ _) as [[cs|e]|]; [|done..].
  destruct Hc as (_ & -> & _). apply list_elem_of_filter. split; [|done].
  apply Is_true_true_2, existsb_exists. exists r. by rewrite <-list_elem_of_In.
Qed.

(** the guard reports exactly the paths some reservation of another agent
    covers, in order, each with a reservation that covers it, unless the set of
    patterns does not build, which is an error.  It never panics, and never
    reports an agent's own or a shared reservation. *)
Theorem check_path_conflicts_spec paths reservations self ic :
  match check_path_conflicts lower paths reservations self ic with
  | Some (Ok cs) =>
      conflict_path <$> cs = filter (λ p, existsb (blocks ic self p) reservations) paths ∧
      ∀ c, c ∈ cs → ∃ r, r ∈ reservations ∧ exclusive r = true ∧
        eq_ignore_ascii_case (agent_name r) self = false ∧
        blocks ic self (conflict_path c) r = true ∧ c = conflict_with (conflict_path c) r
  | Some (Err e) => set_builds ic self reservations = false ∧ e = InvalidReservationPattern (lit "<globset>")
  | None => False
  end.
Proof.
  pose proof (check_result paths reservations self ic) as Hc.
  destruct (check_path_conflicts _ _ _ _ _) as [[cs|e]|]; [|done..].
  destruct Hc as (_ & Hf & Hall). split; [done|]. intros c Hin. destruct (Hall c Hin) as (r & Hr & Hb & Heq).
  exists r. split_and!; [done| | |done|done]; unfold blocks in Hb;
    rewrite !andb_true_iff, negb_true_iff in Hb; tauto.
Qed.

(** *** Components *)

Definition path_comps (path : str) : list str :=
  fold_left PatternOverlap.push_component (split_on is_slash (replace_backslash path)) [].

Lemma path_comps_ok path : Forall PatternOverlap.component_ok (path_comps path).
Proof.
  apply PatternOverlap.fold_push_ok; [constructor|]. intros w Hw c Hc.
  unfold PatternOverlap.is_path_separator. apply orb_false_iff. split; [by eapply (split_on_pieces is_slash)|].
  apply (split_on_elem _ _ _ _ Hw) in Hc. unfold replace_backslash in Hc.
  apply list_elem_of_fmap in Hc as (d & -> & _). case_match eqn:E; [done|]. done.
Qed.

(** Lowercasing works component by component: a slash ends a word. *)
Context (lower_join : ∀ ws, Forall PatternOverlap.component_ok ws →
  lower (join_slash ws) = join_slash (lower <$> ws)).

Lemma normalize_path_comps path ic :
  normalize_path lower path ic = join_slash ((if ic then lower else id) <$> path_comps path).
Proof.
  unfold normalize_path. fold (path_comps path). destruct ic; [by apply lower_join, path_comps_ok|].
  by rewrite list_fmap_id.
Qed.

Lemma join_slash_app ps qs :
  ps ≠ [] → qs ≠ [] → join_slash (ps ++ qs) = join_slash ps ++ ch_slash :: join_slash qs.
Proof.
  intros Hp Hq. induction ps as [|p [|p' ps] IH]; [done| |].
  - destruct qs; [done|]. done.
  - change ((p :: p' :: ps) ++ qs) with (p :: p' :: (ps ++ qs)). rewrite !join_slash_cons2.
    change (p' :: ps ++ qs) with ((p' :: ps) ++ qs). rewrite IH by done. by rewrite <-(assoc_L (++)).
Qed.

(** [starts_with] with the separator test, on normalised paths. *)
Lemma join_prefix ps qs :
  qs ≠ [] →
  starts_with (join_slash ps) (join_slash (ps ++ qs)) = true ∧
  (bool_decide (join_slash ps = []) ||
   bool_decide (join_slash (ps ++ qs) !! length (join_slash ps) = Some ch_slash)) = true.
Proof.
  intros Hq. unfold starts_with. destruct (decide (ps = [])) as [->|Hp].
  - by split.
  - rewrite join_slash_app by done. split; [apply bool_decide_eq_true; by eexists|].
    rewrite lookup_app_r, Nat.sub_diag by done. simpl. apply orb_true_r.
Qed.

(** C6: a reservation protects its whole neighbourhood.  When an agent holds an
    exclusive reservation on a literal path, every path another agent touches
    at or below it is reported, however the two paths are spelled (dots,
    doubled or backward slashes, and letter case where git ignores it); and
    whatever the pattern, so is every directory above it.  The check never
    panics, and fails only if the set of patterns does not build. *)
Theorem reservation_covers_subtree paths reservations self ic path raw r rest :
  path ∈ paths → r ∈ reservations → exclusive r = true →
  eq_ignore_ascii_case (agent_name r) self = false →
  normalized_pattern r = normalize_path lower raw ic → has_glob r = contains_glob raw →
  (contains_glob raw = false ∧ literal_text (normalized_pattern r) ∧
     path_comps path = path_comps raw ++ rest ∨
   guard_glob_build ic (normalized_pattern r) = true ∧ rest ≠ [] ∧
     path_comps raw = path_comps path ++ rest) →
  match check_path_conflicts lower paths reservations self ic with
  | Some (Ok cs) => path ∈ conflict_path <$> cs
  | Some (Err e) => set_builds ic self reservations = false ∧ e = InvalidReservationPattern (lit "<globset>")
  | None => False
  end.
Proof.
  intros Hpath Hr Hex Hself Hnorm Hglob Hcase. apply (check_reports _ _ _ _ _ r); [done|done|].
  unfold blocks. rewrite Hex, Hself. simpl. unfold path_above, path_below. rewrite Hglob.
  rewrite normalize_path_comps in Hnorm. rewrite (normalize_path_comps path).
  destruct Hcase as [(Hng & Hlit & Hcomps)|(Hbuild & Hrest & Hcomps)].
  - destruct (guard_glob_literal ic _ Hlit) as [-> Hself']. simpl. rewrite Hng, Hcomps, Hnorm in *. simpl.
    rewrite fmap_app. destruct (decide (rest = [])) as [->|Hrest].
    { simpl. rewrite app_nil_r. by rewrite Hself'. }
    edestruct (join_prefix ((if ic then lower else id) <$> path_comps raw)
      ((if ic then lower else id) <$> rest)) as [-> ->].
    + by intros ?%fmap_nil_inv.
    + simpl. by rewrite !orb_true_r.
  - rewrite Hbuild, Hnorm, Hcomps, fmap_app. simpl.
    edestruct (join_prefix ((if ic then lower else id) <$> path_comps path)
      ((if ic then lower else id) <$> rest)) as [-> ->].
    + by intros ?%fmap_nil_inv.
    + simpl. by rewrite !orb_true_r.
Qed.
End conflicts.

(** ** The whole check *)

Section check.
Context (lower : str → str) `{ChronoText} (from_json : str → option Value) `{GuardGlobsetLaws}.

(** *** Which records count *)

(** An archive that could be read: the records of its entries, in order. *)
Lemma read_entries_ok es now ic records :
  read_entries lower from_json es now ic = Ok records →
  None ∉ es ∧
  records = omap (λ e, e ← e; val ← entry_value from_json e; record_of lower val now ic) es.
Proof.
  revert records. induction es as [|[e|] es IH]; intros records; simpl; [|..|done].
  { intros [= <-]. split; [apply not_elem_of_nil|done]. }
  destruct (read_entries _ _ es now ic) as [more|]; [|done]. intros [= <-].
  destruct (IH more eq_refl) as [Hno ->]. split; [by apply not_elem_of_cons|]. by case_match.
Qed.

Lemma read_entries_err es now ic e :
  read_entries lower from_json es now ic = Err e → e = Io ∧ None ∈ es.
Proof.
  induction es as [|[x|] es IH]; simpl; [done| |].
  - destruct (read_entries _ _ es now ic) as [more|e']; [done|]. intros [= ->].
    destruct (IH eq_refl) as [-> ?]. split; [done|by right].
  - intros [= <-]. split; [done|left].
Qed.

(** The records the guard sees: none when there is no directory; otherwise
    those of the record files that can be read and parsed. *)
Definition archive_records (dir : Dir) now (ic : bool) : list FileReservationRecord :=
  match dir with
  | Entries es => omap (λ e, e ← e; val ← entry_value from_json e; record_of lower val now ic) es
  | _ => []
  end.

(** The listing of the directory fails, at its start or on an entry. *)
Definition listing_fails (dir : Dir) : Prop :=
  match dir with NotADirectory => False | Unreadable => True | Entries es => None ∈ es end.

Lemma archive_result dir now ic :
  match read_active_reservations_from_archive lower from_json dir now ic with
  | Ok records => ¬ listing_fails dir ∧ records = archive_records dir now ic
  | Err e => listing_fails dir ∧ e = Io
  end.
Proof.
  destruct dir as [| |es]; simpl; [by split; [intros []|]|done|].
  destruct (read_entries _ _ es now ic) as [records|e] eqn:E.
  - by apply read_entries_ok in E.
  - by apply read_entries_err in E as [-> ?].
Qed.

(** C23: when the guard stops a commit.  It never panics, and it lets
    everything pass only when it is bypassed or disabled by the environment.
    Otherwise an unknown agent, a directory whose listing fails and a set of
    patterns that does not build are errors, the only ones; and where none of
    them occurs, exactly the paths covered by a record of the archive are
    reported.  A directory that is missing has no records, and a record file
    that cannot be read or parsed is skipped. *)
Theorem guard_fails_closed env dir now ic paths :
  let agent := default [] (env (lit "AGENT_NAME")) in
  let records := archive_records dir now ic in
  ∃ res, guard_check_full lower from_json env dir now ic paths = Some res ∧
    if is_bypass_active env then
      res = Ok {| conflicts := []; guard_mode := from_env env; bypassed := true; gated := false |}
    else if negb (is_guard_gated env) then
      res = Ok {| conflicts := []; guard_mode := from_env env; bypassed := false; gated := true |}
    else
      match res with
      | Ok r =>
          agent ≠ [] ∧ ¬ listing_fails dir ∧ set_builds ic agent records = true ∧
          bypassed r = false ∧ gated r = false ∧
          conflict_path <$> conflicts r = filter (λ p, existsb (blocks lower ic agent p) records) paths
      | Err MissingAgentName => agent = []
      | Err Io => agent ≠ [] ∧ listing_fails dir
      | Err (InvalidReservationPattern p) =>
          agent ≠ [] ∧ ¬ listing_fails dir ∧ set_builds ic agent records = false ∧ p = lit "<globset>"
      end.
Proof.
  intros agent records. unfold guard_check_full. destruct (is_bypass_active env); [by eexists|].
  destruct (is_guard_gated env); cbn [negb]; [|by eexists]. fold agent.
  case_bool_decide as Ha; [by eexists|]. pose proof (archive_result dir now ic) as Hd.
  destruct (read_active_reservations_from_archive _ _ _ _ _) as [rs|e].
  2: { destruct Hd as [? ->]. by eexists. }
  destruct Hd as [Hl ->]. fold records. pose proof (check_result lower paths records agent ic) as Hc.
  destruct (check_path_conflicts _ _ _ _ _) as [[cs|e]|]; [|..|done]; simpl.
  - destruct Hc as (? & ? & _). by eexists.
  - destruct Hc as [? ->]. by eexists.
Qed.

(** [chrono] prints a date so that it reads it back, and orders dates by
    time. *)
Context (rfc3339_roundtrip : ∀ d, parse_from_rfc3339 (to_rfc3339 d) = Some d)
  (date_le_micros : ∀ d1 d2, date_le d1 d2 = true →
     Timestamps.timestamp_micros d1 ≤ Timestamps.timestamp_micros d2)
  `{!Timestamps.ChronoLaws}.

(** a record whose expiry is a number of microseconds counts exactly until
    that instant: at the boundary it has expired, and going through the textual
    date does not lose a live record. *)
Theorem numeric_expiry_exact val n excl now ic :
  field (lit "expires_ts") val = PosInt n → 0 ≤ n ≤ i64_max →
  is_Some (Timestamps.timestamp_opt (n `div` 1000000) (n `mod` 1000000 * 1000)) →
  released_ts_marks_record_released (field (lit "released_ts") val) = false →
  as_bool (field (lit "exclusive") val) = Some excl →
  str_field val (lit "path_pattern") (lit "path") ≠ [] → str_field val (lit "agent_name") (lit "agent") ≠ [] →
  is_Some (record_of lower val now ic) ↔ Timestamps.timestamp_micros now < n.
Proof.
  intros Hexp Hn [d Hd] Hrel Hex Hpat Hag. unfold record_of. rewrite Hrel, Hexp. unfold expires_text.
  simpl. rewrite (proj2 (Z.leb_le _ _)) by lia. simpl. rewrite Hex. simpl.
  rewrite !(bool_decide_false (_ = [])) by done.
  destruct (Z.leb_spec n (Timestamps.timestamp_micros now)); simpl.
  { split; [intros [? ?]; done|lia]. }
  split; [done|]. intros _. pose proof (Z.mod_pos_bound n 1000000 ltac:(lia)).
  rewrite Z.quot_div_nonneg, Z.rem_mod_nonneg by lia. unfold u32_wrap. rewrite Z.mod_small by lia.
  rewrite Hd. simpl. unfold is_expired. rewrite rfc3339_roundtrip.
  pose proof (Timestamps.timestamp_micros_opt (n `div` 1000000) (n `mod` 1000000 * 1000) d ltac:(lia) Hd) as Hm.
  rewrite Z.div_mul in Hm by lia. pose proof (Z.div_mod n 1000000 ltac:(lia)).
  destruct (date_le d now) eqn:Hle; [|by eexists]. apply date_le_micros in Hle. lia.
Qed.
End check.

(** ** Release markers *)

Definition cell_of (v : Value) : option ReservationDb.Cell :=
  match v with
  | Null => Some ReservationDb.CNull
  | PosInt n => Some (ReservationDb.CInteger n)
  | NegInt z => if z <? 0 then Some (ReservationDb.CInteger z) else None
  | String s => Some (ReservationDb.CText s)
  | _ => None
  end.

Lemma digits_value_from ds acc :
  forallb is_ascii_digit ds = true → 0 ≤ acc →
  let v := foldl (λ a c, a * 10 + (Z.of_N c - 48)) acc ds in
  0 ≤ v ∧ (v = 0 ↔ acc = 0 ∧ forallb (λ c, (c =? 48)%N) ds = true).
Proof.
  revert acc. induction ds as [|c ds IH]; intros acc; simpl; [intros _ ?; tauto|].
  intros [Hc Hds]%andb_true_iff Hacc. unfold is_ascii_digit in Hc.
  apply andb_true_iff in Hc as [Hc1%N.leb_le Hc2%N.leb_le].
  destruct (IH (acc * 10 + (Z.of_N c - 48)) Hds ltac:(lia)) as [Hv Hz]. split; [done|].
  rewrite Hz, andb_true_iff, N.eqb_eq. split.
  - intros [? ?]. split_and!; [lia|lia|done].
  - intros (? & ? & ?). split; [lia|done].
Qed.

Lemma digits_value_pos ds :
  forallb is_ascii_digit ds = true →
  (0 <? digits_value ds) = negb (forallb (λ c, (c =? 48)%N) ds).
Proof.
  intros Hds. destruct (digits_value_from ds 0 Hds ltac:(lia)) as [Hv Hz]. fold (digits_value ds) in *.
  destruct (forallb (λ c, (c =? 48)%N) ds); simpl.
  - apply Z.ltb_ge. assert (digits_value ds = 0) as -> by tauto. done.
  - apply Z.ltb_lt. enough (digits_value ds ≠ 0) by lia. intros [_ ?]%Hz. done.
Qed.

Lemma digit_not_dot ds c : forallb is_ascii_digit ds = true → c ∈ ds → (c =? 46)%N = false.
Proof.
  intros Hds Hc%list_elem_of_In. rewrite forallb_forall in Hds. specialize (Hds c Hc).
  unfold is_ascii_digit in Hds. apply andb_true_iff in Hds as [?%N.leb_le _]. apply N.eqb_neq. lia.
Qed.

Lemma numeral_parts_digits ds :
  forallb is_ascii_digit ds = true → ds ≠ [] → numeral_parts ds = Some (ds, []).
Proof.
  intros Hds Hne. unfold numeral_parts. rewrite split_on_id by (intros; by eapply digit_not_dot).
  by rewrite Hds, bool_decide_true.
Qed.

(** A text of digits with an optional sign. *)
Definition signed_integer (s : str) : Prop :=
  ∃ ds, forallb is_ascii_digit ds = true ∧ ds ≠ [] ∧ (s = ds ∨ s = 45%N :: ds ∨ s = 43%N :: ds).

Lemma digits_head ds :
  forallb is_ascii_digit ds = true → ds ≠ [] → ∃ c ds', ds = c :: ds' ∧ (48 ≤ c ≤ 57)%N.
Proof.
  destruct ds as [|c ds]; [done|]. simpl. intros [Hc _]%andb_true_iff _. exists c, ds. split; [done|].
  unfold is_ascii_digit in Hc. apply andb_true_iff in Hc as [?%N.leb_le ?%N.leb_le]. done.
Qed.

(** The ten digits. *)
Ltac digit_cases c :=
  destruct c as [|c]; [lia|]; do 6 (destruct c as [c|c|]; try lia; try done).

Lemma parse_f64_positive_plain (ds s : str) :
  forallb is_ascii_digit ds = true → ds ≠ [] → (s = ds ∨ s = 43%N :: ds) →
  parse_f64_positive s = (0 <? digits_value ds).
Proof.
  intros Hds Hne Hs. assert (parse_f64_positive s =
    match numeral_parts ds with
    | Some (i, f) => 10 ^ Z.of_nat (length f) <? digits_value (i ++ f) * 2 ^ 1075
    | None => false
    end) as ->.
  { destruct Hs as [->| ->]; [|done]. destruct (digits_head ds Hds Hne) as (c & ds' & -> & Hc).
    digit_cases c. }
  rewrite numeral_parts_digits by done. rewrite app_nil_r. change (10 ^ Z.of_nat (length [])) with 1.
  assert (1 < 2 ^ 1075) by (apply Z.pow_gt_1; lia). generalize dependent (2 ^ 1075). intros k Hk.
  destruct (digits_value_from ds 0 Hds ltac:(lia)) as [Hv _]. fold (digits_value ds) in Hv.
  destruct (Z.ltb_spec 0 (digits_value ds)); [apply Z.ltb_lt|apply Z.ltb_ge]; nia.
Qed.

Lemma decimal_prefix_digits ds dot :
  forallb is_ascii_digit ds = true → ReservationDb.decimal_prefix dot ds = ds.
Proof.
  induction ds as [|c ds IH]; [done|]. simpl. intros [Hc Hds]%andb_true_iff.
  by rewrite Hc, IH.
Qed.

Lemma zeros_or_dots ds :
  forallb is_ascii_digit ds = true →
  forallb (λ c, (c =? 48) || (c =? 46))%N ds = forallb (λ c, (c =? 48)%N) ds.
Proof.
  intros Hds. apply eq_true_iff_eq. rewrite !forallb_forall. split; intros Hz c Hc; specialize (Hz c Hc).
  - rewrite (digit_not_dot ds c Hds), orb_false_r in Hz by (by apply list_elem_of_In). done.
  - by rewrite Hz.
Qed.

(** On a signed integer both readings come down to its sign and digits. *)
Lemma signed_integer_agree s :
  signed_integer s →
  forallb numeric_char s = true ∧ existsb is_ascii_digit s = true ∧
  ReservationDb.cast_real_le_zero s = negb (parse_f64_positive s).
Proof.
  intros (ds & Hds & Hne & Hs).
  assert (forallb numeric_char ds = true ∧ existsb is_ascii_digit ds = true) as [Hnum Hex].
  { destruct ds as [|c ds]; [done|]. simpl in *. apply andb_true_iff in Hds as [Hc Hds].
    change (is_ascii_digit c) with (is_ascii_digit c). unfold numeric_char at 1. rewrite Hc.
    split; [|done]. simpl. apply forallb_forall. rewrite forallb_forall in Hds. intros d Hd. unfold numeric_char.
    by rewrite (Hds d Hd). }
  destruct Hs as [->|[->| ->]].
  - split_and!; [done|done|]. rewrite (parse_f64_positive_plain ds) by auto.
    rewrite digits_value_pos, negb_involutive by done.
    destruct (digits_head ds Hds Hne) as (c & ds' & -> & Hc). unfold ReservationDb.cast_real_le_zero.
    rewrite decimal_prefix_digits, zeros_or_dots by done. digit_cases c.
  - split_and!; [by simpl; rewrite Hnum|by simpl|done].
  - split_and!; [by simpl; rewrite Hnum|by simpl|]. rewrite (parse_f64_positive_plain ds) by auto.
    rewrite digits_value_pos, negb_involutive by done. unfold ReservationDb.cast_real_le_zero.
    by rewrite decimal_prefix_digits, zeros_or_dots.
Qed.

Lemma text_markers s :
  to_ascii_lowercase s ∈ [[]; lit "0"; lit "null"; lit "none"] ↔
  s = [] ∨ s = lit "0" ∨ to_ascii_lowercase s = lit "null" ∨ to_ascii_lowercase s = lit "none".
Proof.
  rewrite !elem_of_cons, elem_of_nil.
  assert (to_ascii_lowercase s = [] ↔ s = []) as -> by (split; [apply fmap_nil_inv|by intros ->]).
  assert (to_ascii_lowercase s = lit "0" ↔ s = lit "0") as ->; [|tauto].
  split; [|by intros ->]. destruct s as [|c [|? ?]]; try done. intros Hc.
  change ([ascii_lower c] = [48%N]) in Hc. assert (ascii_lower c = 48%N) as Hc' by congruence. clear Hc.
  unfold ascii_lower in Hc'. destruct ((65 <=? c) && (c <=? 90))%N eqn:E; [|by subst].
  apply andb_true_iff in E as [?%N.leb_le ?%N.leb_le]. lia.
Qed.

(** the archive and the database agree on what is released, for the markers
    the system writes: null, integers, and texts without blanks around them
    that are empty, "null", "none", an integer with an optional sign, or
    contain a character no number has (a date). *)
Theorem released_markers_agree v c :
  cell_of v = Some c →
  (∀ s, v = String s → trim s = s ∧ ReservationDb.sql_trim s = s ∧
     (signed_integer s ∨ s = [] ∨ forallb numeric_char s = false)) →
  released_ts_marks_record_released v = negb (ReservationDb.legacy_active c).
Proof.
  intros Hc Hs. destruct v as [| |n|z| |s| |]; simpl in Hc; try done.
  - by injection Hc as <-.
  - injection Hc as <-. simpl. by rewrite Z.leb_antisym, negb_involutive.
  - destruct (Z.ltb_spec z 0); [|done]. injection Hc as <-. simpl.
    by rewrite (proj2 (Z.leb_le z 0)) by lia.
  - injection Hc as <-. destruct (Hs s eq_refl) as (Ht & Hq & Hcase). simpl. rewrite Ht, Hq.
    rewrite (bool_decide_ext (to_ascii_lowercase s ∈ _)
      (s = [] ∨ s = lit "0" ∨ to_ascii_lowercase s = lit "null" ∨ to_ascii_lowercase s = lit "none"))
      by apply text_markers.
    unfold eq_ignore_ascii_case. repeat case_bool_decide; simpl; try tauto.
    all: destruct Hcase as [(Hnum & Hex & Hcast)%signed_integer_agree|[?|Hnum]]; [|tauto|].
    all: change ReservationDb.numeric_char with numeric_char.
    all: rewrite ?Hnum, ?Hex, ?Hcast, ?andb_false_r; simpl; rewrite ?negb_involutive; done.
Qed.

(** Two texts on which they do not: a hyphen alone and a truncated date. *)
Example released_markers_differ :
  (λ s, (released_ts_marks_record_released (String s), ReservationDb.legacy_active (ReservationDb.CText s)))
    <$> [lit "-"; lit "1-2"] = [(false, false); (false, false)].
Proof. reflexivity. Qed.

(** ** One normal form *)

Lemma split_on_map_sep s :
  split_on is_slash (replace_backslash s) = split_on PatternOverlap.is_path_separator s.
Proof.
  induction s as [|c s IH]; [done|].
  change (replace_backslash (c :: s))
    with ((if (c =? ch_backslash)%N then ch_slash else c) :: replace_backslash s).
  cbn [split_on]. rewrite IH.
  unfold PatternOverlap.is_path_separator, is_slash.
  destruct (c =? ch_backslash)%N eqn:E; [by rewrite orb_true_r|]. rewrite orb_false_r.
  by destruct (c =? ch_slash)%N.
Qed.

(** The guard and the server agree on what a pattern means before globs
    come in: for a trimmed pattern, and no case folding, the hook's
    normalisation is the one the reservation index compiles. *)
Theorem normalizers_agree lower pattern :
  normalize_path lower (trim pattern) false = PatternOverlap.normalize_pattern pattern.
Proof.
  unfold normalize_path, PatternOverlap.normalize_pattern. by rewrite split_on_map_sep.
Qed.

(** ** Git's output *)

Inductive Change :=
  | Modified (status path : str)
  | Renamed (status old_path new_path : str).

Definition nul : N := 0.

(** The [-z] format. *)
Definition encode (c : Change) : str :=
  match c with
  | Modified st p => st ++ nul :: p ++ nul :: []
  | Renamed st o n => st ++ nul :: o ++ nul :: n ++ nul :: []
  end.

Definition encode_all (cs : list Change) : str := cs ≫= encode.

Definition paths_of (c : Change) : list str :=
  match c with Modified _ p => [p] | Renamed _ o n => [o; n] end.

Definition rename_status (st : str) : bool :=
  match trim st with c :: _ => (c =? 82)%N || (c =? 67)%N | [] => false end.

Definition change_ok (c : Change) : Prop :=
  match c with
  | Modified st p => trim st ≠ [] ∧ rename_status st = false ∧ nul ∉ st ∧ nul ∉ p ∧ p ≠ []
  | Renamed st o n =>
      rename_status st = true ∧ nul ∉ st ∧ nul ∉ o ∧ nul ∉ n ∧ o ≠ [] ∧ n ≠ []
  end.

Lemma split_nul w s : nul ∉ w → split_on is_nul (w ++ nul :: s) = w :: split_on is_nul s.
Proof.
  intros Hw. apply split_on_app_sep; [|done]. intros c Hc. apply N.eqb_neq. by intros ->.
Qed.

Lemma parse_encode c s :
  change_ok c →
  parse_parts (split_on is_nul (encode c ++ s)) = paths_of c ++ parse_parts (split_on is_nul s).
Proof.
  destruct c as [st p|st o n]; simpl.
  - intros (Hst & Hr & H1 & H2 & Hp). rewrite <-(assoc_L (++)). simpl. rewrite split_nul by done.
    rewrite <-(assoc_L (++)). simpl. rewrite split_nul by done. simpl. unfold rename_status in Hr.
    destruct (trim st) as [|c0 t0]; [done|]. rewrite Hr. by rewrite bool_decide_false.
  - intros (Hr & H1 & H2 & H3 & Ho & Hn). rewrite <-(assoc_L (++)). simpl. rewrite split_nul by done.
    rewrite <-(assoc_L (++)). simpl. rewrite split_nul by done.
    rewrite <-(assoc_L (++)). simpl. rewrite split_nul by done. simpl. unfold rename_status in Hr.
    destruct (trim st) as [|c0 t0]; [done|]. rewrite Hr. by rewrite !bool_decide_false.
Qed.

(** C37: the paths of git's NUL-delimited name-status output are all recovered:
    parsing what git prints for any list of changes gives every changed path in
    order, both names of a rename or copy included, whatever spaces or other
    characters they have. *)
Theorem parse_name_status_roundtrip cs :
  Forall change_ok cs → parse_name_status_z (encode_all cs) = cs ≫= paths_of.
Proof.
  unfold parse_name_status_z, encode_all. induction 1 as [|c cs Hc _ IH]; [done|].
  rewrite bind_cons, parse_encode by done. by rewrite IH.
Qed.

(** *** Pushes *)

Section pushes.
Context `{Git}.

Lemma commit_paths_ok shas paths :
  commit_paths shas = Ok paths →
  ∀ sha, sha ∈ shas → ∃ out, git (diff_tree sha) = Exited true out ∧
    ∀ p, p ∈ parse_name_status_z out → p ∈ paths.
Proof.
  revert paths. induction shas as [|s shas IH]; intros paths; simpl; [set_solver|].
  destruct (git (diff_tree s)) as [|[] out] eqn:Hg; try done.
  destruct (commit_paths shas) as [more|]; [|done]. intros [= <-] sha [->|Hin]%elem_of_cons.
  - exists out. split; [done|]. set_solver.
  - destruct (IH more eq_refl sha Hin) as (out' & ? & ?). exists out'. split; [done|]. set_solver.
Qed.

Lemma all_ref_paths_ok ls paths :
  all_ref_paths ls = Ok paths →
  ∀ l, l ∈ ls → ∃ ps, ref_paths l = Ok ps ∧ ∀ p, p ∈ ps → p ∈ paths.
Proof.
  revert paths. induction ls as [|l ls IH]; intros paths; simpl; [set_solver|].
  destruct (ref_paths l) as [ps|] eqn:Hl; [|done].
  destruct (all_ref_paths ls) as [more|]; [|done]. intros [= <-] l' [->|Hin]%elem_of_cons.
  - exists ps. split; [done|]. set_solver.
  - destruct (IH more eq_refl l' Hin) as (ps' & ? & ?). exists ps'. split; [done|]. set_solver.
Qed.

(** a push is checked commit by commit: when the paths of a push are
    determined at all, they are sorted without duplicates, and for every
    pushed ref whose commits git lists, every path of every such commit is
    among them, paths the net difference does not show included. *)
Theorem push_paths_complete stdin paths :
  get_push_paths stdin = Ok paths →
  StronglySorted str_lt paths ∧
  ∀ line a local_sha b remote_sha more revs sha,
    line ∈ lines stdin → split_whitespace line = a :: local_sha :: b :: remote_sha :: more →
    all_zeros local_sha = false → git (rev_list remote_sha local_sha) = Exited true revs →
    sha ∈ shas_of revs →
    ∃ out, git (diff_tree sha) = Exited true out ∧ ∀ p, p ∈ parse_name_status_z out → p ∈ paths.
Proof.
  unfold get_push_paths. destruct (all_ref_paths (lines stdin)) as [all|] eqn:Hall; [|done].
  intros [= <-]. split.
  { apply (dedup_sorted str_le str_lt); [intros x y Hxy; by apply str_le_lt|]. apply (StronglySorted_merge_sort str_le). }
  intros line a local_sha b remote_sha more revs sha Hline Hsplit Hlocal Hrev Hsha.
  destruct (all_ref_paths_ok _ _ Hall line Hline) as (ps & Hps & Hsub).
  unfold ref_paths in Hps. rewrite Hsplit, Hlocal, Hrev in Hps.
  destruct (commit_paths_ok _ _ Hps sha Hsha) as (out & Hout & Hp). exists out. split; [done|].
  intros p Hin. apply elem_of_dedup. rewrite merge_sort_Permutation. auto.
Qed.

(** the gap in that check: when git cannot list the commits of a branch
    that is new to the remote, the push passes with no path checked, although
    every other failure of git is an error. *)
Theorem new_branch_gap line a local_sha b remote_sha more out :
  split_whitespace line = a :: local_sha :: b :: remote_sha :: more →
  all_zeros local_sha = false → all_zeros remote_sha = true →
  git (rev_list remote_sha local_sha) = Exited false out →
  ref_paths line = Ok [] ∧
  ∀ remote', all_zeros remote' = false → git (rev_list remote' local_sha) = Exited false out →
    (∀ o, git [lit "diff"; lit "--name-status"; lit "-M"; lit "-z"; range remote' local_sha] ≠ Exited true o) →
    ∀ line', split_whitespace line' = a :: local_sha :: b :: remote' :: more → ref_paths line' = Err Io.
Proof.
  intros Hsplit Hlocal Hremote Hrev. split.
  - unfold ref_paths. by rewrite Hsplit, Hlocal, Hrev, Hremote.
  - intros remote' Hr' Hrev' Hdiff line' Hsplit'. unfold ref_paths. rewrite Hsplit', Hlocal, Hrev', Hr'.
    specialize (Hdiff). destruct (git [_; _; _; _; range remote' local_sha]) as [|[|] o]; [done| |done].
    by destruct (Hdiff o).
Qed.
End pushes.

(** ** Instances *)

Module GuardRuns.

Definition literalb (s : str) : bool :=
  forallb (λ c, bool_decide (c ∉ [ch_star; ch_question; ch_lbracket; ch_rbracket; ch_lbrace;
    ch_rbrace; ch_backslash])) s.

Lemma literalb_spec s : literal_text s → literalb s = true.
Proof.
  intros Hs. apply forallb_forall. intros c Hc%list_elem_of_In. apply bool_decide_eq_true.
  unfold literal_text in Hs. rewrite Forall_forall in Hs. by apply Hs.
Qed.

Definition plain_match (p path : str) : bool :=
  if literalb p then bool_decide (p = path) else RefGlob.ref_match p path.

#[export] Instance plain_globset : GuardGlobset := {
  guard_glob_build _ _ := true;
  guard_glob_match _ := plain_match;
  guard_set_build _ _ := true;
  guard_set_matches _ ps path :=
    omap (λ ip : nat * str, if plain_match ip.2 path then Some ip.1 else None) (imap pair ps);
}.

#[export] Instance plain_globset_laws : GuardGlobsetLaws.
Proof.
  split.
  - intros ic p Hp. split; [done|]. simpl. unfold plain_match. rewrite literalb_spec by done.
    by apply bool_decide_eq_true.
  - intros ic ps path i. simpl. rewrite list_elem_of_omap. split.
    + intros ([j p] & Hj & Hi). simpl in Hi. case_match eqn:Hm; [|done]. injection Hi as ->.
      apply list_elem_of_lookup in Hj as [k Hk]. apply list_lookup_imap_Some in Hk as (p' & Hp & [= -> ->]).
      by exists p'.
    + intros (p & Hp & Hm). exists (i, p). simpl. rewrite Hm. split; [|done].
      apply list_elem_of_lookup. exists i. apply list_lookup_imap_Some. by exists p.
Qed.

(** A date as a mark and two numbers. *)
Definition to_N (z : Z) : N := if z <? 0 then Z.to_N (2 * - z + 1) else Z.to_N (2 * z).
Definition of_N (n : N) : Z := if N.odd n then - (Z.of_N n `div` 2) else Z.of_N n `div` 2.

Lemma of_to_N z : of_N (to_N z) = z.
Proof.
  unfold of_N, to_N. destruct (Z.ltb_spec z 0).
  - replace (Z.to_N (2 * - z + 1)) with (2 * Z.to_N (- z) + 1)%N by lia.
    rewrite N.odd_odd. rewrite N2Z.inj_add, N2Z.inj_mul, Z2N.id by lia.
    replace (Z.of_N 2 * - z + Z.of_N 1) with (1 + - z * 2) by lia. rewrite Z.div_add by lia.
    change (1 `div` 2) with 0. lia.
  - replace (Z.to_N (2 * z)) with (2 * Z.to_N z)%N by lia. rewrite N.odd_even.
    rewrite N2Z.inj_mul, Z2N.id by lia. replace (Z.of_N 2 * z) with (z * 2) by lia. by apply Z.div_mul.
Qed.

#[export] Instance sample_chrono : Timestamps.Chrono := Timestamps.plain_chrono.

#[export] Instance sample_chrono_laws : Timestamps.ChronoLaws := Timestamps.plain_chrono_laws.

#[export] Instance plain_text : ChronoText := {
  parse_from_rfc3339 s := match s with [68%N; a; b] => Some (of_N a, of_N b) | _ => None end;
  parse_naive_fraction _ := None;
  parse_naive_seconds _ := None;
  to_rfc3339 d := [68%N; to_N d.1; to_N d.2];
  date_le d1 d2 := Timestamps.timestamp_micros (Chrono := Timestamps.plain_chrono) d1 <=?
                   Timestamps.timestamp_micros (Chrono := Timestamps.plain_chrono) d2;
}.

Lemma plain_roundtrip d : parse_from_rfc3339 (to_rfc3339 d) = Some d.
Proof. destruct d as [a b]. simpl. by rewrite !of_to_N. Qed.

Lemma plain_date_le d1 d2 :
  date_le d1 d2 = true → Timestamps.timestamp_micros d1 ≤ Timestamps.timestamp_micros d2.
Proof. simpl. apply Z.leb_le. Qed.

Definition record_for (pattern agent : str) : FileReservationRecord :=
  {| path_pattern := pattern; agent_name := agent; exclusive := true; expires_ts := lit "2099";
     normalized_pattern := normalize_path id pattern false; has_glob := contains_glob pattern |}.

Definition held : list FileReservationRecord :=
  [record_for (lit "src/api") (lit "BlueLake"); record_for (lit "docs/*.md") (lit "RedHill")].

Example sample_check :
  (λ r, match r with Some (Ok cs) => conflict_path <$> cs | _ => [] end)
    (check_path_conflicts id
       [lit "src/api/v1/mod.rs"; lit "./docs/a.md"; lit "src/apiary.rs"; lit "docs"; lit "README"]
       held (lit "GreenFox") false) = [lit "src/api/v1/mod.rs"; lit "./docs/a.md"; lit "docs"].
Proof. reflexivity. Qed.

Lemma join_id ws : Forall PatternOverlap.component_ok ws → id (join_slash ws) = join_slash (id <$> ws).
Proof. intros _. by rewrite list_fmap_id. Qed.

Lemma check_path_conflicts_spec_witness :
  ∃ cs, check_path_conflicts id [lit "src/api/v1/mod.rs"; lit "README"] held (lit "GreenFox") false = Some (Ok cs) ∧
    conflict_path <$> cs = [lit "src/api/v1/mod.rs"].
Proof.
  pose proof (check_path_conflicts_spec id [lit "src/api/v1/mod.rs"; lit "README"] held (lit "GreenFox") false) as Hc.
  destruct (check_path_conflicts _ _ _ _ _) as [[cs|e]|] eqn:E; [|vm_compute in E; discriminate..].
  destruct Hc as [Hf _]. exists cs. split; [reflexivity|]. rewrite Hf. reflexivity.
Defined.

Lemma reservation_covers_subtree_witness :
  ∃ cs, check_path_conflicts id [lit "./src//api/x.rs"] held (lit "GreenFox") false = Some (Ok cs) ∧
    lit "./src//api/x.rs" ∈ conflict_path <$> cs.
Proof.
  eassert (match check_path_conflicts id [lit "./src//api/x.rs"] held (lit "GreenFox") false with
          | Some (Ok cs) => lit "./src//api/x.rs" ∈ conflict_path <$> cs | Some (Err e) => _ | None => False end) as Hc.
  2: { destruct (check_path_conflicts _ _ _ _ _) as [[cs|e]|] eqn:E; [by exists cs|vm_compute in E; discriminate..]. }
  apply (reservation_covers_subtree id join_id [lit "./src//api/x.rs"] held (lit "GreenFox") false
    (lit "./src//api/x.rs") (lit "src/api") (record_for (lit "src/api") (lit "BlueLake")) [lit "x.rs"]);
    try reflexivity.
  - left.
  - left.
  - left. split; [reflexivity|]. split; [|reflexivity].
    vm_compute. repeat constructor; intros Hc; repeat (apply elem_of_cons in Hc as [Hc|Hc]; [discriminate Hc|]);
      by apply elem_of_nil in Hc.
Defined.

Definition agent_env : Env := λ name, if bool_decide (name = lit "AGENT_NAME") then Some (lit "GreenFox") else None.

Definition json_record : Value :=
  Object [(lit "path_pattern", String (lit "src/api")); (lit "agent", String (lit "BlueLake"));
          (lit "exclusive", Bool true); (lit "expires_ts", PosInt 5000000); (lit "released_ts", Null)].

Definition archive : Dir :=
  Entries [Some {| file_type := Some (true, false); extension := Some (lit "json");
                   metadata_len := Some 200; content := Some [] |}].

Definition at_four : @Timestamps.DateTime sample_chrono := (4, 0).

Lemma guard_fails_closed_witness :
  ∃ res, guard_check_full id (λ _, Some json_record) agent_env archive at_four false [lit "src/api/x.rs"] = Some res ∧
    match res with Ok r => conflict_path <$> conflicts r = [lit "src/api/x.rs"] | Err _ => False end.
Proof.
  destruct (guard_fails_closed id (λ _, Some json_record) agent_env archive at_four false [lit "src/api/x.rs"])
    as (res & Hres & Hspec).
  exists res. split; [exact Hres|]. destruct res as [r|e].
  - destruct Hspec as (_ & _ & _ & _ & _ & ->). reflexivity.
  - vm_compute in Hres. discriminate Hres.
Defined.

Lemma numeric_expiry_exact_witness :
  is_Some (record_of id json_record at_four false) ↔ 4000000 < 5000000.
Proof.
  apply (numeric_expiry_exact id plain_roundtrip plain_date_le json_record 5000000 true at_four false);
    try reflexivity; try discriminate; [split; discriminate|eexists; reflexivity].
Defined.

Lemma released_markers_agree_witness :
  released_ts_marks_record_released (String (lit "2024-01-02T03:04:05Z")) =
    negb (ReservationDb.legacy_active (ReservationDb.CText (lit "2024-01-02T03:04:05Z"))).
Proof.
  apply released_markers_agree; [reflexivity|]. intros s Hs. injection Hs as <-.
  split; [reflexivity|]. split; [reflexivity|]. right. right. reflexivity.
Defined.

Definition sample_changes : list Change :=
  [Modified (lit "M") (lit "a b.rs"); Renamed (lit "R100") (lit "old.rs") (lit "new.rs")].

Lemma sample_changes_ok : Forall change_ok sample_changes.
Proof.
  repeat constructor; try discriminate; vm_compute; intros Hc;
    repeat (apply elem_of_cons in Hc as [Hc|Hc]; [discriminate Hc|]); by apply elem_of_nil in Hc.
Qed.

Lemma parse_name_status_roundtrip_witness :
  parse_name_status_z (encode_all sample_changes) = [lit "a b.rs"; lit "old.rs"; lit "new.rs"].
Proof. exact (parse_name_status_roundtrip sample_changes sample_changes_ok). Defined.

(** One commit that changes one file; no commits can be listed for a new
    branch. *)
Definition sample_git : Git := λ args,
  if bool_decide (args = rev_list (lit "1") (lit "2")) then Exited true (lit "2")
  else if bool_decide (args = diff_tree (lit "2")) then Exited true (encode_all sample_changes)
  else Exited false [].

Definition pushed : str := lit "main 2 main 1".

Lemma push_paths_complete_witness :
  ∃ out, sample_git (diff_tree (lit "2")) = Exited true out ∧
    ∀ p, p ∈ parse_name_status_z out → p ∈ [lit "a b.rs"; lit "new.rs"; lit "old.rs"].
Proof.
  apply (push_paths_complete (H := sample_git) pushed [lit "a b.rs"; lit "new.rs"; lit "old.rs"] eq_refl)
    with (line := pushed) (a := lit "main") (local_sha := lit "2") (b := lit "main")
         (remote_sha := lit "1") (more := []) (revs := lit "2"); try reflexivity; left.
Defined.

Lemma new_branch_gap_witness : ref_paths (H := sample_git) (lit "main 2 main 0") = Ok [].
Proof.
  apply (new_branch_gap (H := sample_git) (lit "main 2 main 0") (lit "main") (lit "2") (lit "main") (lit "0") [] []);
    reflexivity.
Defined.
End GuardRuns.
