(* ===== verification/Coalesce.v ===== *)
(** * Request coalescing ([mcp-agent-mail-db/src/coalesce.rs])

    Concurrent calls with the same key share one execution: the first is the
    leader, later ones join its slot.  The calls are modelled as a transition
    system whose steps are the critical sections of the source: the lookup and
    registration under the shard's lock, the completion of the slot, the
    conditional removal, and the ways a waiting joiner goes on.  The closure's
    results are arbitrary.  Hashing is a parameter, and so is the message a
    failed leader leaves in its slot. *)

From stdpp Require Import base tactics list gmap numbers.
From S2P Require Import Prelude.

Module Coalesce.

Section coalesce.
Context `{Countable K} {V E : Type}.

Inductive SlotState := Pending | Ready (v : V) | Failed.

(** What the closure did. *)
Inductive Result := ROk (v : V) | RErr (e : E) | RPanic.

(** What [execute_or_join] returned, or that it panicked. *)
Inductive CoalesceOutcome := Executed (v : V) | Joined (v : V) | Error (e : E) | Panicked.

Inductive Role := Leader (slot : nat) | Joiner (slot : nat).

(** [Running]: inside the closure; [Finished]: the slot is complete, the map
    not yet updated; [Blocked]: in [Slot::wait]. *)
Inductive Phase := Blocked | Running | Finished (r : Result) | Returned (o : CoalesceOutcome).

Record Call := { key : K; role : Role; phase : Phase }.

Record CoalesceMetrics := {
  leader_count : Z;
  joined_count : Z;
  timeout_count : Z;
  leader_failed_count : Z;
}.

(** [slots]: the slots ever allocated, by number; [calls]: the calls ever
    made; [evictions] counts them, for the statements. *)
Record Sys := {
  shards : list (gmap K nat);
  slots : list SlotState;
  calls : gmap nat Call;
  metrics : CoalesceMetrics;
  evictions : nat;
}.

Definition metrics_new : CoalesceMetrics :=
  {| leader_count := 0; joined_count := 0; timeout_count := 0; leader_failed_count := 0 |}.

Definition count_leader (m : CoalesceMetrics) : CoalesceMetrics :=
  {| leader_count := u64_wrap (leader_count m + 1); joined_count := joined_count m;
     timeout_count := timeout_count m; leader_failed_count := leader_failed_count m |}.
Definition count_joined (m : CoalesceMetrics) : CoalesceMetrics :=
  {| leader_count := leader_count m; joined_count := u64_wrap (joined_count m + 1);
     timeout_count := timeout_count m; leader_failed_count := leader_failed_count m |}.
Definition count_timeout (m : CoalesceMetrics) : CoalesceMetrics :=
  {| leader_count := u64_wrap (leader_count m + 1); joined_count := joined_count m;
     timeout_count := u64_wrap (timeout_count m + 1); leader_failed_count := leader_failed_count m |}.
Definition count_leader_failed (m : CoalesceMetrics) : CoalesceMetrics :=
  {| leader_count := u64_wrap (leader_count m + 1); joined_count := joined_count m;
     timeout_count := timeout_count m; leader_failed_count := u64_wrap (leader_failed_count m + 1) |}.

(** [default_num_shards] for a machine that reports its parallelism, and the
    share of each shard. *)
Definition default_num_shards (parallelism : option nat) : nat :=
  match parallelism with None => 4 | Some n => Nat.max 4 (Nat.min 64 n) end.

Definition per_shard (max_entries num_shards : nat) : nat := (max_entries + (num_shards - 1)) / num_shards.

Context (num_shards max_entries_per_shard : nat) (hash : K → nat).

Definition new : Sys :=
  {| shards := replicate num_shards ∅; slots := []; calls := ∅; metrics := metrics_new; evictions := 0 |}.

Definition shard_index (k : K) : nat := hash k mod num_shards.

(** [Arc::strong_count]: the map's reference and those of the calls that still
    hold the slot. *)
Definition holds (slot : nat) (c : Call) : Prop :=
  (role c = Leader slot ∧ match phase c with Running | Finished _ => True | _ => False end) ∨
  (role c = Joiner slot ∧ phase c = Blocked).

#[export] Instance holds_dec slot c : Decision (holds slot c).
Proof.
  unfold holds. apply or_dec; apply and_dec.
  - destruct (role c) as [s|s]; [destruct (decide (s = slot)); [left|right]; congruence|by right].
  - destruct (phase c); apply _.
  - destruct (role c) as [s|s]; [by right|destruct (decide (s = slot)); [left|right]; congruence].
  - destruct (phase c); by (left + right).
Defined.

Definition strong_count (s : Sys) (slot : nat) : nat :=
  S (size (filter (λ kc : nat * Call, holds slot kc.2) (calls s))).

(** The entry to evict: one without joiners where there is one, else any. *)
Definition victim (s : Sys) (m : gmap K nat) (k : K) : Prop :=
  ∃ slot, m !! k = Some slot ∧
    ((∃ k' slot', m !! k' = Some slot' ∧ strong_count s slot' = 2) → strong_count s slot = 2).

(** The shard's map with room for one more entry. *)
Inductive make_room (s : Sys) (m : gmap K nat) : gmap K nat → nat → Prop :=
  | room_enough : size m < max_entries_per_shard → make_room s m m 0
  | room_empty : max_entries_per_shard ≤ size m → m = ∅ → make_room s m m 0
  | room_evict k :
      max_entries_per_shard ≤ size m → victim s m k → make_room s m (delete k m) 1.

Definition slot_of (r : Result) : SlotState := match r with ROk v => Ready v | _ => Failed end.

Definition outcome_of (r : Result) : CoalesceOutcome :=
  match r with ROk v => Executed v | RErr e => Error e | RPanic => Panicked end.

Definition set_call (t : nat) (c : Call) (s : Sys) : Sys :=
  {| shards := shards s; slots := slots s; calls := <[t := c]> (calls s); metrics := metrics s;
     evictions := evictions s |}.

Definition set_metrics (f : CoalesceMetrics → CoalesceMetrics) (s : Sys) : Sys :=
  {| shards := shards s; slots := slots s; calls := calls s; metrics := f (metrics s);
     evictions := evictions s |}.

Inductive step : Sys → Sys → Prop :=
  (** the key is in flight: join its slot *)
  | step_join s t k m slot :
      calls s !! t = None → shards s !! shard_index k = Some m → m !! k = Some slot →
      step s (set_call t {| key := k; role := Joiner slot; phase := Blocked |} s)
  (** it is not: lead with a new slot *)
  | step_lead s t k m m' n :
      calls s !! t = None → shards s !! shard_index k = Some m → m !! k = None →
      make_room s m m' n →
      step s {| shards := <[shard_index k := <[k := length (slots s)]> m']> (shards s);
                slots := slots s ++ [Pending];
                calls := <[t := {| key := k; role := Leader (length (slots s)); phase := Running |}]> (calls s);
                metrics := count_leader (metrics s); evictions := n + evictions s |}
  (** the leader's closure ends, in a panic too, and the slot is completed *)
  | step_complete s t k slot r :
      calls s !! t = Some {| key := k; role := Leader slot; phase := Running |} →
      step s {| shards := shards s; slots := <[slot := slot_of r]> (slots s);
                calls := <[t := {| key := k; role := Leader slot; phase := Finished r |}]> (calls s);
                metrics := metrics s; evictions := evictions s |}
  (** it removes its entry unless it was replaced, and returns *)
  | step_remove s t k slot r m :
      calls s !! t = Some {| key := k; role := Leader slot; phase := Finished r |} →
      shards s !! shard_index k = Some m →
      step s {| shards := <[shard_index k := if decide (m !! k = Some slot) then delete k m else m]> (shards s);
                slots := slots s;
                calls := <[t := {| key := k; role := Leader slot; phase := Returned (outcome_of r) |}]> (calls s);
                metrics := metrics s; evictions := evictions s |}
  (** a joiner sees the slot completed *)
  | step_joined s t k slot v :
      calls s !! t = Some {| key := k; role := Joiner slot; phase := Blocked |} →
      slots s !! slot = Some (Ready v) →
      step s (set_metrics count_joined
        (set_call t {| key := k; role := Joiner slot; phase := Returned (Joined v) |} s))
  | step_leader_failed s t k slot :
      calls s !! t = Some {| key := k; role := Joiner slot; phase := Blocked |} →
      slots s !! slot = Some Failed →
      step s (set_metrics count_leader_failed
        (set_call t {| key := k; role := Joiner slot; phase := Running |} s))
  (** or gives up waiting, and runs the closure itself *)
  | step_timeout s t k slot :
      calls s !! t = Some {| key := k; role := Joiner slot; phase := Blocked |} →
      slots s !! slot = Some Pending →
      step s (set_metrics count_timeout
        (set_call t {| key := k; role := Joiner slot; phase := Running |} s))
  | step_fallback s t k slot r :
      calls s !! t = Some {| key := k; role := Joiner slot; phase := Running |} →
      step s (set_call t {| key := k; role := Joiner slot; phase := Returned (outcome_of r) |} s)
  (** the counters are reset *)
  | step_reset_metrics s : step s (set_metrics (λ _, metrics_new) s).

Definition into_inner (o : CoalesceOutcome) : option V :=
  match o with Executed v | Joined v => Some v | _ => None end.
Definition was_joined (o : CoalesceOutcome) : bool := match o with Joined _ => true | _ => false end.

Definition inflight_count (s : Sys) : nat := sum_list (size <$> shards s).

Definition reachable (s : Sys) : Prop := rtc step new s.

(** ** The invariant *)

Definition live (ph : Phase) : Prop := match ph with Running | Finished _ => True | _ => False end.

(** What the slot of a leader holds in each phase. *)
Definition slot_matches (ph : Phase) (st : SlotState) : Prop :=
  match ph with
  | Blocked => False
  | Running => st = Pending
  | Finished r => st = slot_of r
  | Returned o => ∃ r, o = outcome_of r ∧ st = slot_of r
  end.

Definition leads (s : Sys) (t : nat) (k : K) (slot : nat) (ph : Phase) : Prop :=
  calls s !! t = Some {| key := k; role := Leader slot; phase := ph |}.

Record inv (s : Sys) : Prop := {
  inv_entry i m k slot :
    shards s !! i = Some m → m !! k = Some slot →
    i = shard_index k ∧ ∃ t ph, leads s t k slot ph ∧ live ph;
  inv_leader t k slot ph :
    leads s t k slot ph → ∃ st, slots s !! slot = Some st ∧ slot_matches ph st;
  inv_unique t1 t2 k1 k2 slot ph1 ph2 :
    leads s t1 k1 slot ph1 → leads s t2 k2 slot ph2 → t1 = t2;
  inv_joiner t k slot ph :
    calls s !! t = Some {| key := k; role := Joiner slot; phase := ph |} →
    (∃ l ph', leads s l k slot ph') ∧ (∀ r, ph ≠ Finished r) ∧
    ∀ v, ph = Returned (Joined v) → slots s !! slot = Some (Ready v);
  inv_size i m : shards s !! i = Some m → size m ≤ Nat.max 1 max_entries_per_shard;
  inv_length : length (shards s) = num_shards;
  inv_single t k slot ph :
    evictions s = 0 → leads s t k slot ph → live ph →
    ∃ m, shards s !! shard_index k = Some m ∧ m !! k = Some slot;
}.

Lemma inv_metrics f s : inv s → inv (set_metrics f s).
Proof. intros []. by split. Qed.

(** A step of a joiner, its arrival included. *)
Lemma inv_set_joiner s t k slot ph :
  inv s →
  match calls s !! t with
  | Some c => ∃ ph0, c = {| key := k; role := Joiner slot; phase := ph0 |}
  | None => True
  end →
  (∃ l ph', leads s l k slot ph') → (∀ r, ph ≠ Finished r) →
  (∀ v, ph = Returned (Joined v) → slots s !! slot = Some (Ready v)) →
  inv (set_call t {| key := k; role := Joiner slot; phase := ph |} s).
Proof.
  intros [He Hl Hu Hj Hs Hlen Hsi] Ht Hlead Hnf Hv.
  assert (∀ t' k' sl' ph', leads (set_call t {| key := k; role := Joiner slot; phase := ph |} s) t' k' sl' ph' ↔
    leads s t' k' sl' ph') as Heq.
  { intros t' k' sl' ph'. unfold leads. simpl. rewrite lookup_insert. case_decide; [|done]. subst t'.
    split; [done|]. intros Hc. rewrite Hc in Ht. by destruct Ht. }
  split; simpl.
  - intros i m k0 sl Hm Hk. destruct (He i m k0 sl Hm Hk) as (-> & t' & ph' & Hle & Hlive).
    split; [done|]. exists t', ph'. by rewrite Heq.
  - intros t' k' sl' ph' Hle%Heq. by eapply Hl.
  - intros t1 t2 k1 k2 sl ph1 ph2 H1%Heq H2%Heq. by eapply Hu.
  - intros t' k' sl' ph'. rewrite lookup_insert. case_decide.
    + intros [= <- <- <-]. split; [|done]. destruct Hlead as (l & phl & Hle). exists l, phl. by rewrite Heq.
    + intros Hc. destruct (Hj _ _ _ _ Hc) as [(l & phl & Hle) Hv']. split; [|done].
      exists l, phl. by rewrite Heq.
  - done.
  - done.
  - intros t' k' sl' ph' Hev Hle%Heq. by eapply Hsi.
Qed.

(** A leader moves on in its phases. *)
Lemma leads_move s sh sl m ev t k slot ph ph' :
  leads s t k slot ph →
  ∀ t0 k0 slot0 ph0,
    leads {| shards := sh; slots := sl;
             calls := <[t := {| key := k; role := Leader slot; phase := ph' |}]> (calls s);
             metrics := m; evictions := ev |} t0 k0 slot0 ph0 ↔
    (t0 = t ∧ k0 = k ∧ slot0 = slot ∧ ph0 = ph') ∨ (t0 ≠ t ∧ leads s t0 k0 slot0 ph0).
Proof.
  intros Ht t0 k0 slot0 ph0. unfold leads. simpl. rewrite lookup_insert. case_decide.
  - subst t0. split; [intros [= -> -> ->]; by left|]. intros [(_ & -> & -> & ->)|[? _]]; done.
  - split; [intros ?; right; split; [congruence|done]|]. intros [(-> & _)|[_ ?]]; done.
Qed.

Lemma inv_complete s t k slot r :
  inv s → leads s t k slot Running →
  inv {| shards := shards s; slots := <[slot := slot_of r]> (slots s);
         calls := <[t := {| key := k; role := Leader slot; phase := Finished r |}]> (calls s);
         metrics := metrics s; evictions := evictions s |}.
Proof.
  intros [He Hl Hu Hj Hs Hlen Hsi] Ht.
  pose proof (leads_move s (shards s) (<[slot := slot_of r]> (slots s)) (metrics s) (evictions s)
    t k slot Running (Finished r) Ht) as Heq.
  destruct (Hl _ _ _ _ Ht) as (st & Hst & ->).
  assert (slot < length (slots s)) as Hlt by by eapply lookup_lt_Some.
  split; simpl.
  - intros i m k0 sl Hm Hk. destruct (He i m k0 sl Hm Hk) as (-> & t' & ph' & Hle & Hlive). split; [done|].
    destruct (decide (t' = t)) as [->|].
    + exists t, (Finished r). split; [|done]. apply Heq. left.
      unfold leads in *. rewrite Ht in Hle. by injection Hle as -> -> _.
    + exists t', ph'. split; [|done]. apply Heq. by right.
  - intros t' k' sl' ph' Hle. apply Heq in Hle as [(-> & -> & -> & ->)|[Hne Hle]].
    + exists (slot_of r). split; [|done]. by rewrite list_lookup_insert_eq.
    + destruct (Hl _ _ _ _ Hle) as (st & Hst' & Hm). exists st. split; [|done].
      rewrite list_lookup_insert_ne; [done|]. intros ->. apply Hne. by eapply Hu.
  - intros t1 t2 k1 k2 sl ph1 ph2 H1 H2.
    apply Heq in H1 as [(-> & -> & -> & ->)|[? H1]]; apply Heq in H2 as [(-> & -> & ? & ->)|[? H2]];
      subst; try done; by eapply Hu.
  - intros t' k' sl' ph'. rewrite lookup_insert. case_decide; [done|]. intros Hc.
    destruct (Hj _ _ _ _ Hc) as [(l & phl & Hle) Hv]. split.
    + destruct (decide (l = t)) as [->|].
      * exists t, (Finished r). apply Heq. left. unfold leads in *. rewrite Ht in Hle.
        by injection Hle as -> -> _.
      * exists l, phl. apply Heq. by right.
    + split; [by apply Hv|]. intros v ->. destruct Hv as [_ Hv]. specialize (Hv v eq_refl).
      rewrite list_lookup_insert_ne; [done|]. intros ->. congruence.
  - done.
  - done.
  - intros t' k' sl' ph' Hev Hle Hlive. apply Heq in Hle as [(-> & -> & -> & ->)|[_ Hle]]; by eapply Hsi.
Qed.

Lemma size_delete_le (m : gmap K nat) k : size (delete k m) ≤ size m.
Proof. rewrite map_size_delete. destruct (m !! k); simpl; unfold id; lia. Qed.

Lemma size_insert_le (m : gmap K nat) k x : size (<[k := x]> m) ≤ S (size m).
Proof. rewrite map_size_insert. destruct (m !! k); simpl; unfold id; lia. Qed.

(** A shard's map replaced by a smaller one. *)
Lemma shards_update (sh : list (gmap K nat)) i m m' j m0 :
  sh !! i = Some m → <[i := m']> sh !! j = Some m0 → (j = i ∧ m0 = m') ∨ (j ≠ i ∧ sh !! j = Some m0).
Proof.
  intros Hi. assert (i < length sh) by by eapply lookup_lt_Some.
  destruct (decide (j = i)) as [->|Hne]; [rewrite list_lookup_insert_eq by done; intros [= <-]; by left|].
  rewrite list_lookup_insert_ne by done. by right.
Qed.

Lemma inv_remove s t k slot r m :
  inv s → leads s t k slot (Finished r) → shards s !! shard_index k = Some m →
  inv {| shards := <[shard_index k := if decide (m !! k = Some slot) then delete k m else m]> (shards s);
         slots := slots s;
         calls := <[t := {| key := k; role := Leader slot; phase := Returned (outcome_of r) |}]> (calls s);
         metrics := metrics s; evictions := evictions s |}.
Proof.
  intros [He Hl Hu Hj Hs Hlen Hsi] Ht Hm. set (m' := if decide _ then _ else _).
  assert (∀ k0 sl0, m' !! k0 = Some sl0 → m !! k0 = Some sl0 ∧ (k0, sl0) ≠ (k, slot)) as Hsub.
  { intros k0 sl0. unfold m'. case_decide as Hk; [|intros ?; split; congruence].
    intros [? ?]%lookup_delete_Some. split; congruence. }
  pose proof (leads_move s (<[shard_index k := m']> (shards s)) (slots s) (metrics s) (evictions s)
    t k slot _ (Returned (outcome_of r)) Ht) as Heq.
  assert (∀ t' k0 sl0 ph, leads s t' k0 sl0 ph → (k0, sl0) ≠ (k, slot) → t' ≠ t) as Hne.
  { intros t' k0 sl0 ph Hle Hne ->. unfold leads in *. rewrite Ht in Hle. by injection Hle as -> -> _. }
  split; simpl.
  - intros i m0 k0 sl Hi Hk. assert (∃ m1, shards s !! i = Some m1 ∧ m1 !! k0 = Some sl ∧
      ((k0, sl) = (k, slot) → i ≠ shard_index k)) as (m1 & Hi1 & Hk1 & Hx).
    { destruct (shards_update _ _ _ _ _ _ Hm Hi) as [[-> ->]|[? ?]]; [|by exists m0].
      apply Hsub in Hk as [? ?]. exists m. by split_and!. }
    destruct (He i m1 k0 sl Hi1 Hk1) as (-> & t' & ph' & Hle & Hlive). split; [done|].
    exists t', ph'. split; [|done]. apply Heq. right. split; [|done].
    eapply Hne; [done|]. intros [= -> ->]. by apply Hx.
  - intros t' k' sl' ph' Hle. apply Heq in Hle as [(-> & -> & -> & ->)|[_ Hle]]; [|by eapply Hl].
    destruct (Hl _ _ _ _ Ht) as (st & Hst & ->). exists (slot_of r). split; [done|]. by exists r.
  - intros t1 t2 k1 k2 sl ph1 ph2 H1 H2.
    apply Heq in H1 as [(-> & -> & -> & ->)|[? H1]]; apply Heq in H2 as [(-> & -> & ? & ->)|[? H2]];
      subst; try done; by eapply Hu.
  - intros t' k' sl' ph'. rewrite lookup_insert. case_decide; [done|]. intros Hc.
    destruct (Hj _ _ _ _ Hc) as [(l & phl & Hle) Hv]. split; [|done]. destruct (decide (l = t)) as [->|].
    + exists t, (Returned (outcome_of r)). apply Heq. left. unfold leads in *. rewrite Ht in Hle.
      by injection Hle as -> -> _.
    + exists l, phl. apply Heq. by right.
  - intros i m0 Hi. destruct (shards_update _ _ _ _ _ _ Hm Hi) as [[-> ->]|[_ Hi']]; [|by eapply Hs].
    specialize (Hs _ _ Hm). unfold m'. case_decide; [|done]. etransitivity; [apply size_delete_le|done].
  - by rewrite length_insert.
  - intros t' k' sl' ph' Hev Hle Hlive. apply Heq in Hle as [(-> & -> & -> & ->)|[Hne' Hle]]; [done|].
    destruct (Hsi _ _ _ _ Hev Hle Hlive) as (m0 & Hm0 & Hk0).
    destruct (decide (shard_index k' = shard_index k)) as [Heqs|?].
    + rewrite Heqs in Hm0 |- *. exists m'. rewrite list_lookup_insert_eq by by eapply lookup_lt_Some.
      split; [done|]. assert (m0 = m) as -> by congruence. unfold m'. case_decide as Hdel; [|done].
      rewrite lookup_delete_ne; [done|]. intros ->. apply Hne'. rewrite Hdel in Hk0. injection Hk0 as ->.
      by eapply Hu.
    + exists m0. by rewrite list_lookup_insert_ne.
Qed.

Lemma make_room_spec s m m' n :
  make_room s m m' n →
  m' ⊆ m ∧ (n = 0 → m' = m) ∧
  (size m ≤ Nat.max 1 max_entries_per_shard → S (size m') ≤ Nat.max 1 max_entries_per_shard).
Proof.
  destruct 1 as [Hlt|Hle ->|k Hle (slot & Hk & _)].
  - split_and!; [done|done|lia].
  - rewrite map_size_empty. split_and!; [done|done|lia].
  - assert (size m ≠ 0) by (intros Hz%map_size_empty_inv; subst; by rewrite lookup_empty in Hk).
    rewrite map_size_delete_Some by done. split_and!; [apply delete_subseteq|done|lia].
Qed.

Lemma leads_new s sh sl m ev t k slot :
  calls s !! t = None →
  ∀ t0 k0 slot0 ph0,
    leads {| shards := sh; slots := sl;
             calls := <[t := {| key := k; role := Leader slot; phase := Running |}]> (calls s);
             metrics := m; evictions := ev |} t0 k0 slot0 ph0 ↔
    (t0 = t ∧ k0 = k ∧ slot0 = slot ∧ ph0 = Running) ∨ leads s t0 k0 slot0 ph0.
Proof.
  intros Ht t0 k0 slot0 ph0. unfold leads. simpl. rewrite lookup_insert. case_decide.
  - subst t0. rewrite Ht. split; [intros [= -> -> ->]; by left|]. by intros [(_ & -> & -> & ->)|?].
  - split; [by right|]. intros [(-> & _)|?]; done.
Qed.

Lemma inv_lead s t k m m' n :
  inv s → calls s !! t = None → shards s !! shard_index k = Some m → m !! k = None →
  make_room s m m' n →
  inv {| shards := <[shard_index k := <[k := length (slots s)]> m']> (shards s);
         slots := slots s ++ [Pending];
         calls := <[t := {| key := k; role := Leader (length (slots s)); phase := Running |}]> (calls s);
         metrics := count_leader (metrics s); evictions := n + evictions s |}.
Proof.
  intros [He Hl Hu Hj Hs Hlen Hsi] Ht Hm Hk (Hsub & Hn & Hsize)%make_room_spec.
  pose proof (leads_new s (<[shard_index k := <[k := length (slots s)]> m']> (shards s)) (slots s ++ [Pending])
    (count_leader (metrics s)) (n + evictions s) t k (length (slots s)) Ht) as Heq.
  assert (∀ t0 k0 sl0 ph0, leads s t0 k0 sl0 ph0 → sl0 < length (slots s)) as Hold.
  { intros t0 k0 sl0 ph0 (st & Hst & _)%Hl. by eapply lookup_lt_Some. }
  assert (∀ k0 sl0, m' !! k0 = Some sl0 → m !! k0 = Some sl0) as Hsub' by
    (intros; by eapply lookup_weaken).
  split; simpl.
  - intros i m0 k0 sl Hi Hk0. destruct (shards_update _ _ _ _ _ _ Hm Hi) as [[-> ->]|[_ Hi']].
    + rewrite lookup_insert in Hk0. case_decide.
      * injection Hk0 as <-. subst k0. split; [done|]. exists t, Running. split; [|done].
        apply Heq. by left.
      * apply Hsub' in Hk0. destruct (He _ m k0 sl Hm Hk0) as (Hi' & t' & ph' & Hle & Hlive).
        split; [done|]. exists t', ph'. split; [|done]. apply Heq. by right.
    + destruct (He i m0 k0 sl Hi' Hk0) as (-> & t' & ph' & Hle & Hlive). split; [done|].
      exists t', ph'. split; [|done]. apply Heq. by right.
  - intros t' k' sl' ph' Hle. apply Heq in Hle as [(-> & -> & -> & ->)|Hle].
    + exists Pending. split; [|done]. by rewrite lookup_app_r, Nat.sub_diag by done.
    + destruct (Hl _ _ _ _ Hle) as (st & Hst & Hmt). exists st. split; [|done].
      by apply lookup_app_l_Some.
  - intros t1 t2 k1 k2 sl ph1 ph2 H1 H2.
    apply Heq in H1 as [(-> & -> & -> & ->)|H1]; apply Heq in H2 as [(-> & -> & Hx & ->)|H2];
      try done; [by apply Hold in H2; lia|subst; by apply Hold in H1; lia|by eapply Hu].
  - intros t' k' sl' ph'. rewrite lookup_insert. case_decide; [done|]. intros Hc.
    destruct (Hj _ _ _ _ Hc) as [(l & phl & Hle) Hv]. split; [exists l, phl; apply Heq; by right|].
    destruct Hv as [? Hv]. split; [done|]. intros v Hv'. apply lookup_app_l_Some. auto.
  - intros i m0 Hi. destruct (shards_update _ _ _ _ _ _ Hm Hi) as [[-> ->]|[_ Hi']]; [|by eapply Hs].
    specialize (Hsize (Hs _ _ Hm)). etransitivity; [apply size_insert_le|done].
  - by rewrite length_insert.
  - intros t' k' sl' ph' Hev Hle Hlive. rewrite (Hn ltac:(lia)) in *.
    assert (shard_index k < length (shards s)) by by eapply lookup_lt_Some.
    apply Heq in Hle as [(-> & -> & -> & ->)|Hle].
    + eexists. by rewrite list_lookup_insert_eq, lookup_insert_eq.
    + destruct (Hsi _ _ _ _ ltac:(lia) Hle Hlive) as (m0 & Hm0 & Hk0).
      destruct (decide (shard_index k' = shard_index k)) as [Heqs|?].
      * rewrite Heqs in *. assert (m0 = m) as -> by congruence. eexists.
        rewrite list_lookup_insert_eq by done. split; [done|]. rewrite lookup_insert_ne; [done|congruence].
      * exists m0. by rewrite list_lookup_insert_ne.
Qed.

Lemma new_inv : inv new.
Proof.
  assert (∀ i m, shards new !! i = Some m → m = ∅) as Hm.
  { intros i m Hi. simpl in Hi. by apply lookup_replicate in Hi as [-> _]. }
  split; simpl.
  - intros i m k slot ->%Hm. by rewrite lookup_empty.
  - intros t k slot ph. unfold leads. simpl. by rewrite lookup_empty.
  - intros t1 t2 k1 k2 slot ph1 ph2. unfold leads. simpl. by rewrite lookup_empty.
  - intros t k slot ph. by rewrite lookup_empty.
  - intros i m ->%Hm. rewrite map_size_empty. lia.
  - apply length_replicate.
  - intros t k slot ph _. unfold leads. simpl. by rewrite lookup_empty.
Qed.

Lemma coalesce_step_inv s s' : step s s' → inv s → inv s'.
Proof.
  destruct 1 as [s t k m slot Ht Hm Hk|s t k m m' n Ht Hm Hk Hr|s t k slot r Ht|s t k slot r m Ht Hm
    |s t k slot v Ht Hsl|s t k slot Ht Hsl|s t k slot Ht Hsl|s t k slot r Ht|s]; intros Hi.
  - apply inv_set_joiner; [done|by rewrite Ht| |done|done].
    destruct (inv_entry _ Hi _ _ _ _ Hm Hk) as (_ & l & ph & Hle & _). eauto.
  - by eapply inv_lead.
  - by apply inv_complete.
  - by apply inv_remove.
  - apply inv_metrics, inv_set_joiner; [done|rewrite Ht; eauto| |done|by intros ? [= ->]].
    by eapply (inv_joiner _ Hi).
  - apply inv_metrics, inv_set_joiner; [done|rewrite Ht; eauto| |done|done]. by eapply (inv_joiner _ Hi).
  - apply inv_metrics, inv_set_joiner; [done|rewrite Ht; eauto| |done|done]. by eapply (inv_joiner _ Hi).
  - apply inv_set_joiner; [done|rewrite Ht; eauto| |done|by destruct r].
    by eapply (inv_joiner _ Hi).
  - by apply inv_metrics.
Qed.

Lemma coalesce_reachable_inv s : reachable s → inv s.
Proof.
  intros Hr. pose proof new_inv as H0. unfold reachable in Hr.
  induction Hr as [|s1 s2 s3 Hs _ IH]; [done|]. by eapply IH, coalesce_step_inv.
Qed.

(** sharing is sound: a value a call obtained by joining is the value the
    closure of its leader returned, for the same key; and whoever joins finds a
    leader whose call has not returned yet, so the two calls overlap. *)
Theorem joined_value_from_leader s :
  reachable s →
  (∀ t k slot v,
     calls s !! t = Some {| key := k; role := Joiner slot; phase := Returned (Joined v) |} →
     ∃ l ph, leads s l k slot ph ∧ (ph = Finished (ROk v) ∨ ph = Returned (Executed v))) ∧
  (∀ s' t k slot,
     step s s' → calls s !! t = None →
     calls s' !! t = Some {| key := k; role := Joiner slot; phase := Blocked |} →
     ∃ l ph, leads s l k slot ph ∧ live ph).
Proof.
  intros Hi%coalesce_reachable_inv. split.
  - intros t k slot v Ht. destruct (inv_joiner _ Hi _ _ _ _ Ht) as [(l & ph & Hle) [_ Hv]].
    specialize (Hv v eq_refl). exists l, ph. split; [done|].
    destruct (inv_leader _ Hi _ _ _ _ Hle) as (st & Hst & Hm). rewrite Hv in Hst. injection Hst as <-.
    destruct ph as [| |r|o]; simpl in Hm; try done.
    + left. destruct r; simpl in Hm; congruence.
    + destruct Hm as (r & -> & Hr). right. destruct r; simpl in Hr; simplify_eq; done.
  - intros s' t k slot Hs Hn Hb.
    assert (∃ m, shards s !! shard_index k = Some m ∧ m !! k = Some slot) as (m & Hm & Hk).
    { destruct Hs; simpl in Hb; try congruence; rewrite lookup_insert in Hb; case_decide; simplify_eq; eauto. }
    by destruct (inv_entry _ Hi _ _ _ _ Hm Hk) as (_ & ?).
Qed.

Lemma sum_list_zero l : Forall (λ n, n = 0) l → sum_list l = 0.
Proof. induction 1; simpl; lia. Qed.

(** the in-flight table is bounded and leaks nothing: no shard exceeds its
    share (a single entry when the share is zero), every entry belongs to a
    leader that has not returned, so the table is empty when no call is in
    progress, panics of closures included; and as long as nothing was evicted
    two leaders never execute for the same key at once. *)
Theorem inflight_table s :
  reachable s →
  (∀ i m, shards s !! i = Some m → size m ≤ Nat.max 1 max_entries_per_shard) ∧
  ((∀ t c, calls s !! t = Some c → ∃ o, phase c = Returned o) → inflight_count s = 0) ∧
  (evictions s = 0 → ∀ l1 l2 k slot1 slot2 ph1 ph2,
     leads s l1 k slot1 ph1 → live ph1 → leads s l2 k slot2 ph2 → live ph2 → l1 = l2).
Proof.
  intros Hi%coalesce_reachable_inv. split_and!.
  - apply (inv_size _ Hi).
  - intros Hret. apply sum_list_zero, Forall_fmap, Forall_lookup. intros i m Hm. simpl.
    apply map_size_empty_iff, map_empty. intros k. destruct (m !! k) as [slot|] eqn:Hk; [|done].
    destruct (inv_entry _ Hi _ _ _ _ Hm Hk) as (_ & t & ph & Hle & Hlive).
    destruct (Hret _ _ Hle) as [o Ho]. simpl in Ho. by subst.
  - intros Hev l1 l2 k slot1 slot2 ph1 ph2 H1 Hl1 H2 Hl2.
    destruct (inv_single _ Hi _ _ _ _ Hev H1 Hl1) as (m1 & Hm1 & Hk1).
    destruct (inv_single _ Hi _ _ _ _ Hev H2 Hl2) as (m2 & Hm2 & Hk2). simplify_eq.
    by eapply (inv_unique _ Hi).
Qed.

(** no call is ever stuck: in every reachable state each call that has not
    returned can take a step of its own, whatever happened to its leader. *)
Theorem call_never_stuck s t c :
  0 < num_shards → reachable s → calls s !! t = Some c → (∀ o, phase c ≠ Returned o) →
  ∃ s', step s s' ∧ calls s' !! t ≠ Some c.
Proof.
  intros Hn Hi%coalesce_reachable_inv Ht Hnr. destruct c as [k [slot|slot] ph].
  - destruct (inv_leader _ Hi _ _ _ _ Ht) as (st & Hst & Hm). destruct ph as [| |r|o]; [done| | |by destruct (Hnr o)].
    + eexists. split; [apply (step_complete s t k slot RPanic Ht)|]. simpl. by rewrite lookup_insert_eq.
    + assert (shard_index k < length (shards s)) as [m Hmk]%lookup_lt_is_Some.
      { rewrite (inv_length _ Hi). apply Nat.mod_upper_bound. lia. }
      eexists. split; [apply (step_remove s t k slot r m Ht Hmk)|]. simpl. by rewrite lookup_insert_eq.
  - destruct (inv_joiner _ Hi _ _ _ _ Ht) as [(l & phl & Hle) [Hnf _]].
    destruct (inv_leader _ Hi _ _ _ _ Hle) as (st & Hst & _).
    destruct ph as [| |r|o]; [|..|by destruct (Hnf r)|by destruct (Hnr o)].
    + destruct st as [|v|]; eexists;
        (split; [first [by eapply step_timeout|by eapply step_joined|by eapply step_leader_failed]|]);
        simpl; by rewrite lookup_insert_eq.
    + eexists. split; [apply (step_fallback s t k slot RPanic Ht)|]. simpl. by rewrite lookup_insert_eq.
Qed.
End coalesce.

(** ** An instance *)

(** Four shards of one entry, keys that hash to themselves.  Call 1 leads for
    key 7, call 2 joins it, the closure returns 42, both return. *)
Abbreviation sample_step := (step (K := nat) (V := nat) (E := nat) 4 1 id).

Definition call_of (k : nat) (r : Role) (ph : Phase (V := nat) (E := nat)) : Call (K := nat) :=
  {| key := k; role := r; phase := ph |}.

Definition led : Sys (K := nat) (V := nat) (E := nat) :=
  {| shards := <[3 := <[7 := 0]> ∅]> (replicate 4 ∅); slots := [Pending];
     calls := <[1 := call_of 7 (Leader 0) Running]> ∅; metrics := count_leader metrics_new; evictions := 0 |}.
Definition joined : Sys (K := nat) (V := nat) (E := nat) := set_call 2 (call_of 7 (Joiner 0) Blocked) led.
Definition completed : Sys (K := nat) (V := nat) (E := nat) :=
  {| shards := shards joined; slots := [Ready 42];
     calls := <[1 := call_of 7 (Leader 0) (Finished (ROk 42))]> (calls joined);
     metrics := metrics joined; evictions := evictions joined |}.
Definition shared : Sys (K := nat) (V := nat) (E := nat) :=
  set_metrics count_joined (set_call 2 (call_of 7 (Joiner 0) (Returned (Joined 42))) completed).

Lemma led_reachable : reachable 4 1 id led.
Proof.
  eapply rtc_l; [|apply rtc_refl].
  refine (step_lead 4 1 id (new 4) 1 7 ∅ ∅ 0 _ _ _ _); [reflexivity|reflexivity|reflexivity|].
  apply room_enough. rewrite map_size_empty. lia.
Qed.

Lemma joined_step : sample_step led joined.
Proof. by apply (step_join 4 1 id led 2 7 (<[7 := 0]> ∅) 0). Qed.

Lemma joined_reachable : reachable 4 1 id joined.
Proof. eapply rtc_r; [apply led_reachable|apply joined_step]. Qed.

Lemma shared_reachable : reachable 4 1 id shared.
Proof.
  eapply rtc_r; [eapply rtc_r; [apply joined_reachable|]|].
  - by apply (step_complete 4 1 id joined 1 7 0 (ROk 42)).
  - by apply (step_joined 4 1 id completed 2 7 0 42).
Qed.

Lemma joined_value_from_leader_witness :
  ∃ l ph, leads shared l 7 0 ph ∧ (ph = Finished (ROk 42) ∨ ph = Returned (Executed 42)).
Proof.
  apply (proj1 (joined_value_from_leader 4 1 id shared shared_reachable) 2 7 0 42). reflexivity.
Defined.

Lemma inflight_table_witness : Forall (λ m, size m ≤ 1) (shards joined).
Proof. apply Forall_lookup. apply (inflight_table 4 1 id joined joined_reachable). Defined.

Lemma call_never_stuck_witness :
  ∃ s', sample_step joined s' ∧ calls s' !! 2 ≠ Some (call_of 7 (Joiner 0) Blocked).
Proof.
  apply (call_never_stuck 4 1 id joined 2 (call_of 7 (Joiner 0) Blocked)); [lia|exact joined_reachable|reflexivity|].
  discriminate.
Defined.
End Coalesce.
