(* ===== verification/Contacts.v ===== *)
(** * Contacts ([mcp-agent-mail-db/src/queries.rs], [mcp-agent-mail-tools/src/contacts.rs],
    [macros.rs] and [messaging.rs])

    Agents ask each other for permission to send mail.  The table of links is a
    list of rows with a unique pair and an increasing key; requests, responses
    and the queries that decide whether mail may pass are modelled on it, and
    the policy gate of [send_message] on top.  A transaction is one step:
    the engine serialises them, retrying on a conflict, and a failed one
    leaves the table alone. *)

From stdpp Require Import base numbers tactics list gmap strings sorting.
From S2P Require Import Prelude DbErrors ReservationDb ReservationRelease.
Import DbErrors.
Open Scope Z_scope.

Module Contacts.

(** ** Rows *)

(** Project and agent of both sides. *)
Record Pair := { a_project_id : Z; a_agent_id : Z; b_project_id : Z; b_agent_id : Z }.

#[export] Instance Pair_eq_dec : EqDecision Pair.
Proof. solve_decision. Defined.

#[export] Instance Pair_countable : Countable Pair.
Proof.
  refine (inj_countable' (λ p, (a_project_id p, a_agent_id p, b_project_id p, b_agent_id p))
    (λ '(a, b, c, d), {| a_project_id := a; a_agent_id := b; b_project_id := c; b_agent_id := d |}) _).
  by intros [].
Defined.

Definition reverse_pair (p : Pair) : Pair :=
  {| a_project_id := b_project_id p; a_agent_id := b_agent_id p;
     b_project_id := a_project_id p; b_agent_id := a_agent_id p |}.

Record AgentLinkRow := {
  id : Z;
  pair : Pair;
  status : str;
  reason : str;
  created_ts : Z;
  updated_ts : Z;
  expires_ts : option Z;
}.

(** The columns of [agents] the queries read; a policy that is not a text is
    [None]. *)
Record AgentRow := {
  agent_id : Z;
  agent_project : Z;
  name : str;
  contact_policy : option str;
}.

Record Db := {
  links : list AgentLinkRow;
  sequence : Z;
  agents : list AgentRow;
}.

Definition set_links (f : list AgentLinkRow → list AgentLinkRow) (d : Db) : Db :=
  {| links := f (links d); sequence := sequence d; agents := agents d |}.

Definition find_link (p : Pair) (d : Db) : option AgentLinkRow :=
  head (filter (λ r, pair r = p) (links d)).

(** ** Requests and responses *)

Definition expiry (now ttl_seconds : Z) : option Z :=
  if 0 <? ttl_seconds then Some (i64_saturating_add now (i64_saturating_mul ttl_seconds 1000000)) else None.

(** [INSERT]: [None] is the violation of the unique pair. *)
Definition insert_link (now : Z) (p : Pair) (reason : str) (expires : option Z) (d : Db) : option Db :=
  match find_link p d with
  | Some _ => None
  | None =>
      Some {| links := links d ++
                [{| id := sequence d + 1; pair := p; status := lit "pending"; reason := reason;
                    created_ts := now; updated_ts := now; expires_ts := expires |}];
              sequence := sequence d + 1; agents := agents d |}
  end.

(** The [UPDATE] that refreshes a link that is not blocked. *)
Definition refresh_row (now : Z) (p : Pair) (reason : str) (expires : option Z) (r : AgentLinkRow) : AgentLinkRow :=
  if bool_decide (pair r = p ∧ status r ≠ lit "blocked") then
    {| id := id r; pair := pair r; status := lit "pending"; reason := reason;
       created_ts := created_ts r; updated_ts := now; expires_ts := expires |}
  else r.

Definition request_contact (now : Z) (p : Pair) (reason : str) (ttl_seconds : Z) (d : Db) :
    DbResult AgentLinkRow * Db :=
  let expires := expiry now ttl_seconds in
  let d' := match insert_link now p reason expires d with
            | Some d' => d'
            | None => set_links (fmap (refresh_row now p reason expires)) d
            end in
  match find_link p d' with
  | Some row => (Ok row, d')
  | None => (Err (NotFound (lit "AgentLink") (lit "inserted/refreshed row")), d)
  end.

Definition respond_status (accept : bool) : str := if accept then lit "approved" else lit "blocked".

Definition update_row (row : AgentLinkRow) (r : AgentLinkRow) : AgentLinkRow :=
  if bool_decide (id r = id row) then
    {| id := id r; pair := pair r; status := status row; reason := reason r; created_ts := created_ts r;
       updated_ts := updated_ts row; expires_ts := expires_ts row |}
  else r.

(** Returns the number of rows updated with the row. *)
Definition respond_contact (now : Z) (p : Pair) (accept : bool) (ttl_seconds : Z) (d : Db) :
    DbResult (Z * AgentLinkRow) * Db :=
  let expires := if (0 <? ttl_seconds) && accept then expiry now ttl_seconds else None in
  match find_link p d with
  | None => (Err (NotFound (lit "AgentLink") []), d)
  | Some existing =>
      let row := {| id := id existing; pair := pair existing; status := respond_status accept;
                    reason := reason existing; created_ts := created_ts existing;
                    updated_ts := now; expires_ts := expires |} in
      (Ok (Z.of_nat (length (filter (λ r, id r = id row) (links d))), row),
       set_links (fmap (update_row row)) d)
  end.

Definition list_contacts (project agent : Z) (d : Db) : list AgentLinkRow * list AgentLinkRow :=
  (filter (λ r, a_project_id (pair r) = project ∧ a_agent_id (pair r) = agent) (links d),
   filter (λ r, b_project_id (pair r) = project ∧ b_agent_id (pair r) = agent) (links d)).

(** ** Who may send *)

Definition link_is_valid (now : Z) (r : AgentLinkRow) : bool :=
  match expires_ts r with None => true | Some ts => now <? ts end.

(** The approved link of a pair, by the query with [LIMIT 1]. *)
Definition approved_link (p : Pair) (d : Db) : option AgentLinkRow :=
  head (filter (λ r, pair r = p ∧ status r = lit "approved") (links d)).

Definition is_contact_allowed (now : Z) (p : Pair) (d : Db) : bool :=
  if from_option (link_is_valid now) false (approved_link p d) then true
  else if from_option (link_is_valid now) false (approved_link (reverse_pair p) d) then true
  else
    let rows := filter (λ a, agent_project a = b_project_id p ∧ agent_id a = b_agent_id p) (agents d) in
    let policy := default [] (a ← head rows; contact_policy a) in
    bool_decide (policy ∈ [lit "auto"; lit "open"]).

(** The rows of [approved_contact_sql]. *)
Definition approved_rows (now project sender : Z) (chunk : list Z) (d : Db) : list Z :=
  (λ r, b_agent_id (pair r)) <$>
    filter (λ r, a_project_id (pair r) = project ∧ a_agent_id (pair r) = sender ∧
                 b_project_id (pair r) = project ∧ status r = lit "approved" ∧
                 link_is_valid now r = true ∧ b_agent_id (pair r) ∈ chunk) (links d).

(** Each chunk reads the clock. *)
Definition list_approved_contact_ids (clock : nat → Z) (project sender : Z) (candidate_ids : list Z)
    (d : Db) : list Z :=
  dedup (merge_sort Z.le
    (concat (imap (λ i chunk, approved_rows (clock i) project sender chunk d)
               (chunks (Z.to_nat ReservationDb.MAX_IN_CLAUSE_ITEMS) candidate_ids)))).

(** ** The tools *)

(** [request_contact], [respond_contact] and the handshake macro bound their
    time to live differently. *)
Definition request_ttl (ttl_seconds : option Z) : Z :=
  match ttl_seconds with Some t => if 0 <? t then Z.max t 60 else 604800 | None => 604800 end.
Definition respond_ttl (ttl_seconds : option Z) : Z :=
  match ttl_seconds with Some t => if 0 <? t then Z.max t 60 else 2592000 | None => 2592000 end.
Definition handshake_ttl (ttl_seconds : option Z) : Z :=
  match ttl_seconds with Some t => if 0 <? t then clamp 60 31536000 t else 604800 | None => 604800 end.

(** [macro_contact_handshake] once its names are resolved: a request, then,
    with [auto_accept], a response on behalf of the target. *)
Definition contact_handshake (now1 now2 : Z) (p : Pair) (reason : str) (auto_accept : option bool)
    (ttl_seconds : option Z) (d : Db) : DbResult AgentLinkRow * Db :=
  let ttl := handshake_ttl ttl_seconds in
  match request_contact now1 p reason (request_ttl (Some ttl)) d with
  | (Err e, d') => (Err e, d')
  | (Ok row, d') =>
      if default false auto_accept then
        match respond_contact now2 p true (respond_ttl (Some ttl)) d' with
        | (Err e, d'') => (Err e, d'')
        | (Ok (_, row'), d'') => (Ok row', d'')
        end
      else (Ok row, d')
  end.

Definition VALID_CONTACT_POLICIES : list str :=
  [lit "open"; lit "auto"; lit "contacts_only"; lit "block_all"].

Definition normalize_contact_policy (raw : str) : str :=
  to_ascii_lowercase (trim (filter (λ c, c ≠ 0%N) raw)).

Definition parse_contact_policy (raw : str) : str :=
  let norm := normalize_contact_policy raw in
  if bool_decide (norm ∈ VALID_CONTACT_POLICIES) then norm else lit "auto".

Inductive ContactPolicyDecision := Allow | RequireApproval | BlockAll.

#[export] Instance ContactPolicyDecision_eq_dec : EqDecision ContactPolicyDecision.
Proof. solve_decision. Defined.

Definition contact_policy_decision (sender_name recipient_name policy_raw : str)
    (recent_ok approved : bool) : ContactPolicyDecision :=
  if bool_decide (recipient_name = sender_name) then Allow
  else
    let lowered := to_lowercase policy_raw in
    let policy := if bool_decide (lowered ∈ VALID_CONTACT_POLICIES) then lowered else lit "auto" in
    if bool_decide (policy = lit "block_all") then BlockAll
    else if bool_decide (policy = lit "open") then Allow
    else if bool_decide (policy = lit "auto") && recent_ok then Allow
    else if approved then Allow
    else RequireApproval.

(** [str::split_once]. *)
Fixpoint split_once (c : N) (s : str) : option (str * str) :=
  match s with
  | [] => None
  | d :: s' => if (d =? c)%N then Some ([], s') else (λ '(a, b), (d :: a, b)) <$> split_once c s'
  end.

Record ContactTargetResolution := {
  project_key : str;
  agent_name : str;
  explicit_project : bool;
}.

Definition ch_colon : N := 58.
Definition ch_hash : N := 35.

Definition shorthand (to_agent : str) : option (str * str) :=
  if starts_with (lit "project:") to_agent && bool_decide (ch_hash ∈ to_agent) then
    '(_, rest) ← split_once ch_colon to_agent;
    '(slug, agent) ← split_once ch_hash rest;
    if bool_decide (trim slug = []) || bool_decide (trim agent = []) then None
    else Some (trim slug, trim agent)
  else None.

Definition resolve_contact_target (to_agent : str) (to_project : option str) (default_project : str) :
    ContactTargetResolution :=
  let '(project, agent, short) :=
    match shorthand to_agent with
    | Some (slug, agent) => (slug, agent, true)
    | None => (default_project, to_agent, false)
    end in
  {| project_key := default project to_project; agent_name := agent;
     explicit_project := short || bool_decide (is_Some to_project) |}.
End Contacts.
