(* ===== verification/ContactsFacts.v ===== *)
(** * What contact links guarantee

    The theorems about [Contacts]: the table of links implements a map of
    statuses, what a status says about the history, when contact is allowed,
    and what the handshake does to a block. *)

From stdpp Require Import base numbers tactics list gmap strings sorting.
From S2P Require Import Prelude DbErrors ReservationDb ReservationRelease Contacts.
Import DbErrors Contacts.
Open Scope Z_scope.

(** ** The contract *)

Inductive Status := Pending | Approved | Blocked.

#[export] Instance Status_eq_dec : EqDecision Status.
Proof. solve_decision. Defined.

Definition status_text (s : Status) : str :=
  match s with Pending => lit "pending" | Approved => lit "approved" | Blocked => lit "blocked" end.

Lemma status_text_inj s t : status_text s = status_text t → s = t.
Proof. by destruct s, t. Qed.

(** The status and the expiry of every pair. *)
Abbreviation Spec := (gmap Pair (Status * option Z)).

Inductive Op :=
  | Request (now : Z) (p : Pair) (reason : str) (ttl_seconds : Z)
  | Respond (now : Z) (p : Pair) (accept : bool) (ttl_seconds : Z).

Definition op_pair (o : Op) : Pair := match o with Request _ p _ _ | Respond _ p _ _ => p end.

(** A request makes the link pending unless it is blocked; a response decides
    it, and fails without one. *)
Definition spec_op (o : Op) (m : Spec) : option (Status * option Z) * Spec :=
  match o with
  | Request now p _ ttl =>
      match m !! p with
      | Some (Blocked, e) => (Some (Blocked, e), m)
      | _ => (Some (Pending, expiry now ttl), <[p := (Pending, expiry now ttl)]> m)
      end
  | Respond now p accept ttl =>
      match m !! p with
      | None => (None, m)
      | Some _ =>
          let v := if accept then (Approved, expiry now ttl) else (Blocked, None) in (Some v, <[p := v]> m)
      end
  end.

(** The status and expiry of the row an operation returns. *)
Definition run_op (o : Op) (d : Db) : option (str * option Z) * Db :=
  match o with
  | Request now p reason ttl =>
      match request_contact now p reason ttl d with
      | (Ok r, d') => (Some (status r, expires_ts r), d')
      | (Err _, d') => (None, d')
      end
  | Respond now p accept ttl =>
      match respond_contact now p accept ttl d with
      | (Ok (_, r), d') => (Some (status r, expires_ts r), d')
      | (Err _, d') => (None, d')
      end
  end.

Fixpoint run_ops (os : list Op) (d : Db) : list (option (str * option Z)) * Db :=
  match os with
  | [] => ([], d)
  | o :: os => let '(x, d') := run_op o d in let '(xs, d'') := run_ops os d' in (x :: xs, d'')
  end.

Fixpoint spec_ops (os : list Op) (m : Spec) : list (option (Status * option Z)) * Spec :=
  match os with
  | [] => ([], m)
  | o :: os => let '(x, m') := spec_op o m in let '(xs, m'') := spec_ops os m' in (x :: xs, m'')
  end.

Definition as_text (v : Status * option Z) : str * option Z := (status_text v.1, v.2).
Definition shown (x : option (Status * option Z)) : option (str * option Z) := as_text <$> x.

(** ** The table *)

Record wf (d : Db) : Prop := {
  wf_pairs : NoDup (pair <$> links d);
  wf_ids : NoDup (id <$> links d);
  wf_sequence : Forall (λ r, id r ≤ sequence d) (links d);
}.

Record represents (d : Db) (m : Spec) : Prop := {
  represents_wf : wf d;
  represents_links p : (λ r, (status r, expires_ts r)) <$> find_link p d = as_text <$> m !! p;
}.

Lemma find_link_some d p r : wf d → find_link p d = Some r ↔ r ∈ links d ∧ pair r = p.
Proof.
  intros [Hp _ _]. unfold find_link. split.
  - intros Hh. assert (r ∈ filter (λ r, pair r = p) (links d)) as Hin
      by (destruct (filter _ _); [done|]; injection Hh as ->; left).
    apply list_elem_of_filter in Hin as [? ?]. done.
  - intros [Hr <-]. induction (links d) as [|r0 l IH]; [by apply elem_of_nil in Hr|].
    rewrite fmap_cons in Hp. apply NoDup_cons in Hp as [Hn Hp]. rewrite filter_cons. case_decide as He; simpl.
    + apply elem_of_cons in Hr as [->|Hr]; [done|]. destruct Hn. rewrite He. by apply list_elem_of_fmap_2.
    + apply elem_of_cons in Hr as [->|Hr]; [done|]. by apply IH.
Qed.

Lemma find_link_fmap f p d :
  (∀ r, pair (f r) = pair r) → find_link p (set_links (fmap f) d) = f <$> find_link p d.
Proof.
  intros Hf. unfold find_link, set_links. simpl. induction (links d) as [|r l IH]; [done|].
  rewrite fmap_cons, !filter_cons, Hf. case_decide; [done|]. exact IH.
Qed.

Lemma wf_fmap f d :
  (∀ r, pair (f r) = pair r) → (∀ r, id (f r) = id r) → wf d → wf (set_links (fmap f) d).
Proof.
  intros Hp Hi [H1 H2 H3]. split; simpl.
  - rewrite <-list_fmap_compose. rewrite (list_fmap_ext _ pair (links d)); [done|]. intros; apply Hp.
  - rewrite <-list_fmap_compose. rewrite (list_fmap_ext _ id (links d)); [done|]. intros; apply Hi.
  - apply Forall_fmap. eapply Forall_impl; [exact H3|]. intros r Hr. simpl. by rewrite Hi.
Qed.

Lemma id_unique d r r' : wf d → r ∈ links d → r' ∈ links d → id r = id r' → r = r'.
Proof.
  intros [_ Hi _]. induction (links d) as [|r0 l IH]; [by intros ?%elem_of_nil|].
  rewrite fmap_cons in Hi. apply NoDup_cons in Hi as [Hn Hi].
  intros [->|Hr]%elem_of_cons [->|Hr']%elem_of_cons He; [done| | |by apply IH];
    destruct Hn; [rewrite He|rewrite <-He]; by apply list_elem_of_fmap_2.
Qed.

Lemma empty_represents ags : represents {| links := []; sequence := 0; agents := ags |} ∅.
Proof.
  split; [split; constructor|]. intros p. by rewrite lookup_empty.
Qed.

(** ** The operations implement the contract *)

Lemma insert_represents d m now p rsn v :
  represents d m → find_link p d = None →
  ∃ d', insert_link now p rsn v d = Some d' ∧ represents d' (<[p := (Pending, v)]> m).
Proof.
  intros [Hwf Hl] Hn. unfold insert_link. rewrite Hn. eexists. split; [done|].
  assert (p ∉ pair <$> links d) as Hp.
  { intros (r & -> & Hr)%list_elem_of_fmap. pose proof (proj2 (find_link_some d (pair r) r Hwf)). naive_solver. }
  split.
  - destruct Hwf as [H1 H2 H3]. split; simpl.
    + rewrite fmap_app. apply NoDup_app. split_and!; [done| |apply NoDup_singleton].
      intros q Hq ->%list_elem_of_singleton. done.
    + rewrite fmap_app. apply NoDup_app. split_and!; [done| |apply NoDup_singleton].
      intros i Hi ->%list_elem_of_singleton. apply list_elem_of_fmap in Hi as (r & Hid & Hr).
      rewrite Forall_forall in H3. specialize (H3 r Hr). simpl in Hid. lia.
    + apply Forall_app. split; [|apply Forall_singleton; simpl; lia].
      eapply Forall_impl; [exact H3|]. intros r Hr. simpl in *. lia.
  - intros q. unfold find_link. simpl. rewrite filter_app. destruct (decide (p = q)) as [<-|Hq].
    + rewrite lookup_insert_eq. unfold find_link in Hn. destruct (filter _ (links d)); [|done].
      by rewrite filter_cons_True by done.
    + rewrite lookup_insert_ne by done. rewrite filter_cons_False by done.
      rewrite filter_nil, app_nil_r. apply Hl.
Qed.

(** Rewriting the row of a pair. *)
Lemma update_represents d m f p r v :
  represents d m → find_link p d = Some r →
  (∀ r, pair (f r) = pair r) → (∀ r, id (f r) = id r) →
  (status (f r), expires_ts (f r)) = as_text v →
  (∀ r', r' ∈ links d → pair r' ≠ p → f r' = r') →
  represents (set_links (fmap f) d) (<[p := v]> m) ∧ find_link p (set_links (fmap f) d) = Some (f r).
Proof.
  intros [Hwf Hl] Hr Hp Hi Hv Hother. split; [split; [by apply wf_fmap|]|].
  - intros q. rewrite find_link_fmap by done. rewrite lookup_insert. case_decide as Hq.
    + subst q. rewrite Hr. simpl. by rewrite Hv.
    + rewrite <-Hl. destruct (find_link q d) as [r'|] eqn:Hf; [|done]. simpl.
      apply (find_link_some d q r' Hwf) in Hf as [Hin Hpq]. by rewrite Hother by (done || congruence).
  - rewrite find_link_fmap by done. by rewrite Hr.
Qed.

Lemma request_represents d m now p rsn ttl :
  represents d m →
  ∃ v d', run_op (Request now p rsn ttl) d = (Some (as_text v), d') ∧
    spec_op (Request now p rsn ttl) m = (Some v, (spec_op (Request now p rsn ttl) m).2) ∧
    represents d' (spec_op (Request now p rsn ttl) m).2.
Proof.
  intros Hrep. pose proof (represents_links _ _ Hrep p) as Hp. simpl. unfold request_contact.
  destruct (find_link p d) as [r|] eqn:Hf.
  - unfold insert_link. rewrite Hf. simpl in Hp. destruct (m !! p) as [[st e]|] eqn:Hm; [|done].
    unfold as_text in Hp. simpl in Hp. injection Hp as Hst He.
    rewrite find_link_fmap by (intros r'; unfold refresh_row; by case_bool_decide). rewrite Hf. simpl.
    destruct (decide (st = Blocked)) as [->|Hnb].
    + exists (Blocked, e). eexists. split_and!; [|done|].
      { unfold refresh_row at 1 2. rewrite !bool_decide_false by (rewrite Hst; naive_solver).
        by rewrite Hst, He. }
      replace m with (<[p := (Blocked, e)]> m) by by apply insert_id.
      eapply update_represents; [done|done| | | |].
      * intros r'. unfold refresh_row. by case_bool_decide.
      * intros r'. unfold refresh_row. by case_bool_decide.
      * unfold refresh_row. rewrite bool_decide_false by (rewrite Hst; naive_solver). by rewrite Hst, He.
      * intros r' _ Hne. unfold refresh_row. rewrite bool_decide_false; [done|]. naive_solver.
    + assert (pair r = p) as Hpr by (by apply (find_link_some d p r (represents_wf _ _ Hrep)) in Hf as [_ ?]).
      assert (status r ≠ lit "blocked") as Hsb by (rewrite Hst; by destruct st).
      exists (Pending, expiry now ttl). eexists. split_and!.
      { unfold refresh_row at 1 2. by rewrite !bool_decide_true by done. }
      { by destruct st. }
      assert (match st with Blocked => m | _ => <[p:=(Pending, expiry now ttl)]> m end =
        <[p:=(Pending, expiry now ttl)]> m) as Hsp by (by destruct st).
      destruct st; try done; simpl;
        (eapply update_represents; [done|done| | | |];
         [intros r'; unfold refresh_row; by case_bool_decide
         |intros r'; unfold refresh_row; by case_bool_decide
         |unfold refresh_row; by rewrite bool_decide_true by done
         |intros r' _ Hne; unfold refresh_row; rewrite bool_decide_false; [done|naive_solver]]).
  - destruct (insert_represents d m now p rsn (expiry now ttl) Hrep Hf) as (d' & -> & Hrep').
    destruct (m !! p) as [|] eqn:Hm; [done|].
    pose proof (represents_links _ _ Hrep' p) as Hp'. rewrite lookup_insert_eq in Hp'.
    destruct (find_link p d') as [r|] eqn:Hf'; [|done]. simpl in Hp'. injection Hp' as Hst He.
    exists (Pending, expiry now ttl), d'. split_and!; [|done|done]. by rewrite Hst, He.
Qed.

Lemma update_row_pair row r : pair (update_row row r) = pair r.
Proof. unfold update_row. by case_bool_decide. Qed.

Lemma update_row_id row r : id (update_row row r) = id r.
Proof. unfold update_row. by case_bool_decide. Qed.

Lemma respond_represents d m now p accept ttl :
  represents d m →
  ∃ d', run_op (Respond now p accept ttl) d = (as_text <$> (spec_op (Respond now p accept ttl) m).1, d') ∧
    represents d' (spec_op (Respond now p accept ttl) m).2.
Proof.
  intros Hrep. pose proof (represents_links _ _ Hrep p) as Hp. simpl. unfold respond_contact.
  destruct (find_link p d) as [r|] eqn:Hf; destruct (m !! p) as [v|] eqn:Hm; try done; [|by exists d].
  set (row := {| id := id r |}). eexists. split.
  { f_equal. unfold row, as_text, expiry. simpl. by destruct accept, (0 <? ttl). }
  apply (find_link_some d p r (represents_wf _ _ Hrep)) in Hf as Hin. destruct Hin as [Hin Hpr].
  eapply (update_represents d m (update_row row) p r _ Hrep Hf).
  - apply update_row_pair.
  - apply update_row_id.
  - unfold update_row. rewrite bool_decide_true by done. destruct accept; simpl; [|by rewrite andb_false_r].
    rewrite andb_true_r. unfold expiry. by destruct (0 <? ttl).
  - intros r' Hr' Hne. unfold update_row. rewrite bool_decide_false; [done|].
    intros He. apply Hne. rewrite (id_unique d r' r (represents_wf _ _ Hrep) Hr' Hin He). done.
Qed.

Lemma run_op_represents o d m :
  represents d m →
  ∃ d', run_op o d = (as_text <$> (spec_op o m).1, d') ∧ represents d' (spec_op o m).2.
Proof.
  destruct o as [now p rsn ttl|now p accept ttl]; intros Hrep; [|by apply respond_represents].
  destruct (request_represents d m now p rsn ttl Hrep) as (v & d' & -> & -> & Hd). by exists d'.
Qed.

Lemma run_ops_represents os d m :
  represents d m →
  (run_ops os d).1 = shown <$> (spec_ops os m).1 ∧
  represents (run_ops os d).2 (spec_ops os m).2.
Proof.
  revert d m. induction os as [|o os IH]; intros d m Hrep; [done|]. simpl.
  destruct (run_op_represents o d m Hrep) as (d' & -> & Hd).
  destruct (spec_op o m) as [x m'] eqn:Ho. simpl in *. specialize (IH d' m' Hd).
  destruct (run_ops os d') as [xs d''], (spec_ops os m') as [ys m'']. simpl in *.
  destruct IH as [-> ?]. done.
Qed.

Definition empty_db (ags : list AgentRow) : Db := {| links := []; sequence := 0; agents := ags |}.

(** C21: Any sequence of contact requests and responses on an empty table of
    links returns what the map of statuses returns, step by step: a request
    makes its link pending with its own expiry and leaves a blocked link as it
    was, a response approves with its expiry or blocks without one and fails
    when no link exists.  The table keeps one row per pair, keys that are
    never used twice and, for every pair, the status and expiry of the map. *)
Theorem contacts_refine ags os :
  (run_ops os (empty_db ags)).1 = shown <$> (spec_ops os ∅).1 ∧
  represents (run_ops os (empty_db ags)).2 (spec_ops os ∅).2.
Proof. apply run_ops_represents, empty_represents. Qed.

(** ** What a status says about the history *)

Definition is_request_for (p : Pair) (o : Op) : Prop :=
  match o with Request _ q _ _ => q = p | Respond _ _ _ _ => False end.

Definition is_response_for (p : Pair) (o : Op) : Prop :=
  match o with Request _ _ _ _ => False | Respond _ q _ _ => q = p end.

(** How a pair came to its status and expiry. *)
Definition history (p : Pair) (os : list Op) (v : Status * option Z) : Prop :=
  (∃ o, o ∈ os ∧ is_request_for p o) ∧
  match v with
  | (Pending, e) =>
      ∃ pre now rsn ttl post, os = pre ++ Request now p rsn ttl :: post ∧
        Forall (λ o, op_pair o ≠ p) post ∧ e = expiry now ttl
  | (Approved, e) =>
      ∃ pre now ttl post, os = pre ++ Respond now p true ttl :: post ∧
        Forall (λ o, op_pair o ≠ p) post ∧ e = expiry now ttl
  | (Blocked, e) =>
      ∃ pre now ttl post, os = pre ++ Respond now p false ttl :: post ∧
        Forall (λ o, ¬ is_response_for p o) post ∧ e = None
  end.

Lemma spec_ops_snoc os o m : (spec_ops (os ++ [o]) m).2 = (spec_op o (spec_ops os m).2).2.
Proof.
  revert m. induction os as [|o' os IH]; intros m; simpl; [by destruct (spec_op o m)|].
  destruct (spec_op o' m) as [x m']. specialize (IH m').
  destruct (spec_ops (os ++ [o]) m') as [xs m1], (spec_ops os m') as [ys m2]. exact IH.
Qed.

(** An operation on another pair changes no history. *)
Lemma history_other p os o v : op_pair o ≠ p → history p os v → history p (os ++ [o]) v.
Proof.
  intros Ho [(o' & Hin & Hreq) Hv]. split; [exists o'; set_solver|].
  assert (¬ is_response_for p o) as Hr by (destruct o; naive_solver).
  destruct v as [[] e].
  - destruct Hv as (pre & now & rsn & ttl & post & -> & Hp & ->). exists pre, now, rsn, ttl, (post ++ [o]).
    rewrite <-app_assoc. split_and!; [done| |done]. apply Forall_app. by split; [|apply Forall_singleton].
  - destruct Hv as (pre & now & ttl & post & -> & Hp & ->). exists pre, now, ttl, (post ++ [o]).
    rewrite <-app_assoc. split_and!; [done| |done]. apply Forall_app. by split; [|apply Forall_singleton].
  - destruct Hv as (pre & now & ttl & post & -> & Hp & ->). exists pre, now, ttl, (post ++ [o]).
    rewrite <-app_assoc. split_and!; [done| |done]. apply Forall_app. by split; [|apply Forall_singleton].
Qed.

Lemma spec_history p os v : (spec_ops os ∅).2 !! p = Some v → history p os v.
Proof.
  revert v. induction os as [|o os IH] using rev_ind; intros v; [simpl; by rewrite lookup_empty|].
  rewrite spec_ops_snoc. set (m := (spec_ops os ∅).2) in *.
  destruct (decide (op_pair o = p)) as [Hp|Hp].
  - destruct o as [now q rsn ttl|now q accept ttl]; simpl in *; subst q.
    + assert ((∃ o, o ∈ os ++ [Request now p rsn ttl] ∧ is_request_for p o)) as Hreq
        by (eexists; split; [apply elem_of_app; right; left|done]).
      assert (history p (os ++ [Request now p rsn ttl]) (Pending, expiry now ttl)) as Hpend.
      { split; [done|]. by exists os, now, rsn, ttl, []. }
      destruct (m !! p) as [[[] e]|] eqn:Hm; simpl; rewrite ?lookup_insert_eq;
        [by intros [= <-]|by intros [= <-]| |by intros [= <-]].
      rewrite Hm. intros [= <-]. destruct (IH _ eq_refl) as [_ (pre & now' & ttl' & post & -> & Hpost & ->)].
      split; [done|]. exists pre, now', ttl', (post ++ [Request now p rsn ttl]). rewrite <-app_assoc.
      split_and!; [done| |done]. apply Forall_app. split; [done|]. apply Forall_singleton. by intros [].
    + destruct (m !! p) as [w|] eqn:Hm; simpl; [|by rewrite Hm]. rewrite lookup_insert_eq. intros [= <-].
      destruct (IH _ eq_refl) as [(o' & Hin & Ho') _]. destruct accept; (split; [exists o'; set_solver|]);
        by exists os, now, ttl, [].
  - intros Hv. apply history_other; [done|]. apply IH. revert Hv.
    destruct o as [now q rsn ttl|now q accept ttl]; simpl in *.
    + destruct (m !! q) as [[[] e]|]; simpl; rewrite ?lookup_insert_ne by done; done.
    + destruct (m !! q) as [w|]; simpl; rewrite ?lookup_insert_ne by done; done.
Qed.

(** What the row of a pair says about the operations that led to it, on a
    table that began empty.  A row exists only if the pair was requested.  Its
    status is one of the three texts; an approved row is the trace of an
    accepting response after which the pair was not touched, and it expires
    as that response said; a blocked row never expires and no response has
    followed the rejection, however often contact was requested again; a
    pending row is the trace of the last request. *)
Theorem link_history ags os p row :
  find_link p (run_ops os (empty_db ags)).2 = Some row →
  ∃ st, status row = status_text st ∧ history p os (st, expires_ts row).
Proof.
  intros Hf. pose proof (represents_links _ _ (proj2 (run_ops_represents os _ _ (empty_represents ags))) p) as Hp.
  unfold empty_db in Hf. rewrite Hf in Hp. simpl in Hp.
  destruct ((spec_ops os ∅).2 !! p) as [[st e]|] eqn:Hm; [|done]. injection Hp as Hst He.
  exists st. split; [done|]. rewrite He. by apply spec_history.
Qed.

(** ** Who may send *)

Lemma status_approved st : status_text st = lit "approved" ↔ st = Approved.
Proof. by destruct st. Qed.

Lemma status_blocked st : status_text st = lit "blocked" ↔ st = Blocked.
Proof. by destruct st. Qed.

(** The query for an approved link finds the row of the pair, if approved. *)
Lemma approved_link_find p d :
  wf d → approved_link p d = r ← find_link p d; if bool_decide (status r = lit "approved") then Some r else None.
Proof.
  intros [Hp _ _]. unfold approved_link, find_link. induction (links d) as [|r l IH]; [done|].
  rewrite fmap_cons in Hp. apply NoDup_cons in Hp as [Hn Hp]. rewrite !filter_cons.
  destruct (decide (pair r = p)) as [He|He]; simpl; [|rewrite decide_False by naive_solver; by apply IH].
  case_bool_decide as Hs; [by rewrite decide_True by done|]. rewrite decide_False by naive_solver.
  destruct (filter _ l) as [|r' l'] eqn:Hf; [done|]. exfalso. apply Hn.
  assert (r' ∈ filter (λ r, pair r = p ∧ status r = lit "approved") l) as Hr' by (rewrite Hf; left).
  apply list_elem_of_filter in Hr' as [[Hpr _] Hr']. rewrite He, <-Hpr. by apply list_elem_of_fmap_2.
Qed.

(** The map approves a pair at a time. *)
Definition approves (now : Z) (m : Spec) (p : Pair) : Prop :=
  ∃ e, m !! p = Some (Approved, e) ∧ from_option (λ ts, now < ts) True e.

Lemma link_valid_spec now r : link_is_valid now r = true ↔ from_option (λ ts, now < ts) True (expires_ts r).
Proof. unfold link_is_valid. destruct (expires_ts r); simpl; [lia|done]. Qed.

Lemma approved_link_spec now d m p :
  represents d m → from_option (link_is_valid now) false (approved_link p d) = true ↔ approves now m p.
Proof.
  intros [Hwf Hl]. rewrite approved_link_find by done. specialize (Hl p). unfold approves.
  destruct (find_link p d) as [r|]; destruct (m !! p) as [[st e]|]; try done; simpl.
  - injection Hl as Hst He. rewrite Hst. case_bool_decide as Hs; simpl.
    + apply status_approved in Hs as ->. rewrite link_valid_spec, He. naive_solver.
    + rewrite status_approved in Hs. naive_solver.
  - naive_solver.
Qed.

(** The policy of the recipient, as its row has it. *)
Definition recipient_policy (p : Pair) (d : Db) : str :=
  default [] (a ← head (filter (λ a, agent_project a = b_project_id p ∧ agent_id a = b_agent_id p) (agents d));
              contact_policy a).

Lemma contact_allowed_iff now p d m :
  represents d m →
  is_contact_allowed now p d = true ↔
    approves now m p ∨ approves now m (reverse_pair p) ∨
    recipient_policy p d = lit "auto" ∨ recipient_policy p d = lit "open".
Proof.
  intros Hrep. unfold is_contact_allowed.
  pose proof (approved_link_spec now d m p Hrep) as H1.
  pose proof (approved_link_spec now d m (reverse_pair p) Hrep) as H2.
  destruct (from_option _ false (approved_link p d)); [naive_solver|].
  destruct (from_option _ false (approved_link (reverse_pair p) d)); [naive_solver|].
  fold (recipient_policy p d). rewrite bool_decide_eq_true, !elem_of_cons, elem_of_nil. naive_solver.
Qed.

(** Mail may pass from one agent to another exactly when the link between
    them is approved and unexpired in one of its directions, or the
    recipient's policy is automatic or open.  A blocked link alone does not
    stop it. *)
Theorem is_contact_allowed_spec now p d m :
  represents d m →
  is_contact_allowed now p d = true ↔
    approves now m p ∨ approves now m (reverse_pair p) ∨
    recipient_policy p d = lit "auto" ∨ recipient_policy p d = lit "open".
Proof. apply contact_allowed_iff. Qed.

Definition direct (project sender x : Z) : Pair :=
  {| a_project_id := project; a_agent_id := sender; b_project_id := project; b_agent_id := x |}.

Lemma approved_rows_spec now project sender chunk d m x :
  represents d m →
  x ∈ approved_rows now project sender chunk d ↔ x ∈ chunk ∧ approves now m (direct project sender x).
Proof.
  intros Hrep. pose proof (represents_links _ _ Hrep (direct project sender x)) as Hl.
  unfold approved_rows. rewrite list_elem_of_fmap. setoid_rewrite list_elem_of_filter. split.
  - intros (r & -> & (Ha & Hs & Hb & Hst & Hv & Hc) & Hr). split; [done|].
    assert (pair r = direct project sender (b_agent_id (pair r))) as Hpr by (destruct (pair r); unfold direct; simpl in *; congruence).
    rewrite (proj2 (find_link_some d _ r (represents_wf _ _ Hrep)) (conj Hr Hpr)) in Hl.
    destruct (m !! _) as [[st e]|] eqn:Hm; [|done]. injection Hl as Hst' He.
    rewrite Hst in Hst'. symmetry in Hst'. apply status_approved in Hst' as ->.
    exists e. split; [done|]. apply link_valid_spec in Hv. by rewrite He in Hv.
  - intros [Hc (e & Hm & Hv)]. rewrite Hm in Hl. destruct (find_link _ d) as [r|] eqn:Hf; [|done].
    injection Hl as Hst He. apply (find_link_some d _ r (represents_wf _ _ Hrep)) in Hf as [Hr Hpr].
    exists r. rewrite Hpr. simpl. split; [done|]. split; [|done]. split_and!; try done.
    apply link_valid_spec. by rewrite He.
Qed.

Lemma elem_of_approved_ids clock project sender cs d m x :
  represents d m →
  x ∈ list_approved_contact_ids clock project sender cs d ↔
  ∃ i c, chunks (Z.to_nat ReservationDb.MAX_IN_CLAUSE_ITEMS) cs !! i = Some c ∧ x ∈ c ∧
    approves (clock i) m (direct project sender x).
Proof.
  intros Hrep. unfold list_approved_contact_ids. rewrite elem_of_dedup, merge_sort_Permutation.
  rewrite list_elem_of_In, in_concat. setoid_rewrite <-list_elem_of_In. split.
  - intros (l & (i & c & -> & Hc)%elem_of_lookup_imap_1 & Hx). exists i, c.
    by rewrite (approved_rows_spec _ _ _ _ _ _ _ Hrep) in Hx.
  - intros (i & c & Hc & Hx). eexists. split.
    + by apply (elem_of_lookup_imap_2 (λ i c, approved_rows (clock i) project sender c d)).
    + by apply (approved_rows_spec _ _ _ _ _ _ _ Hrep).
Qed.

Lemma in_clause_pos : (1 ≤ Z.to_nat ReservationDb.MAX_IN_CLAUSE_ITEMS)%nat.
Proof. apply Nat.leb_le. vm_compute. reflexivity. Qed.

(** An approval outlives every earlier time. *)
Lemma approves_earlier t t' m p : t ≤ t' → approves t' m p → approves t m p.
Proof. intros Ht (e & Hm & Hv). exists e. split; [done|]. destruct e; simpl in *; lia. Qed.

Lemma approved_ids_sound clock t0 project sender cs d m x :
  represents d m → (∀ i, t0 ≤ clock i) → x ∈ list_approved_contact_ids clock project sender cs d →
  x ∈ cs ∧ approves t0 m (direct project sender x).
Proof.
  intros Hrep Ht (i & c & Hc & Hx & Ha)%(elem_of_approved_ids _ _ _ _ _ _ _ Hrep). split.
  - apply (chunks_elem _ _ _ in_clause_pos). exists c. split; [by eapply list_elem_of_lookup_2|done].
  - eapply approves_earlier; [apply Ht|exact Ha].
Qed.

Lemma approved_ids_complete clock project sender cs d m x :
  represents d m → x ∈ cs → (∀ i, approves (clock i) m (direct project sender x)) →
  x ∈ list_approved_contact_ids clock project sender cs d.
Proof.
  intros Hrep (c & (i & Hi)%list_elem_of_lookup & Hx)%(chunks_elem _ _ _ in_clause_pos) Ha.
  apply (elem_of_approved_ids _ _ _ _ _ _ _ Hrep). by exists i, c.
Qed.

(** The candidates of a sender that have an approved link.  The result is
    strictly increasing, without duplicates however many chunks the list was
    cut into; every entry is a candidate with a link that was approved and
    unexpired at the earliest clock reading, and a candidate whose approved
    link is still unexpired at the latest is never missed. *)
Theorem list_approved_contact_ids_spec clock t0 t1 project sender cs d m :
  represents d m → (∀ i, t0 ≤ clock i ≤ t1) →
  let ids := list_approved_contact_ids clock project sender cs d in
  StronglySorted Z.lt ids ∧
  (∀ x, x ∈ ids → x ∈ cs ∧ approves t0 m (direct project sender x)) ∧
  (∀ x, x ∈ cs → approves t1 m (direct project sender x) → x ∈ ids).
Proof.
  intros Hrep Hclock ids. split_and!.
  - apply (dedup_sorted Z.le Z.lt); [intros; lia|]. apply StronglySorted_merge_sort; apply _.
  - intros x. apply approved_ids_sound; [done|]. intros i. apply Hclock.
  - intros x Hx Ha. eapply approved_ids_complete; [done|done|]. intros i. eapply approves_earlier; [|done]. apply Hclock.
Qed.

(** ** The handshake *)

Lemma run_op_request now p rsn ttl d x d' :
  run_op (Request now p rsn ttl) d = (Some x, d') →
  ∃ r, request_contact now p rsn ttl d = (Ok r, d') ∧ x = (status r, expires_ts r).
Proof. simpl. destruct (request_contact _ _ _ _ _) as [[r|] d1]; [|done]. intros [= <- <-]. by exists r. Qed.

Lemma run_op_respond now p accept ttl d x d' :
  run_op (Respond now p accept ttl) d = (Some x, d') →
  ∃ n r, respond_contact now p accept ttl d = (Ok (n, r), d') ∧ x = (status r, expires_ts r).
Proof. simpl. destruct (respond_contact _ _ _ _ _) as [[[n r]|] d1]; [|done]. intros [= <- <-]. by exists n, r. Qed.

Lemma handshake_ttl_bounds ttl : 60 ≤ handshake_ttl ttl ≤ 31536000.
Proof. unfold handshake_ttl, clamp. destruct ttl as [t|]; [destruct (0 <? t)|]; lia. Qed.

Lemma tool_ttl_handshake ttl :
  request_ttl (Some (handshake_ttl ttl)) = handshake_ttl ttl ∧
  respond_ttl (Some (handshake_ttl ttl)) = handshake_ttl ttl.
Proof.
  pose proof (handshake_ttl_bounds ttl). unfold request_ttl, respond_ttl.
  rewrite (proj2 (Z.ltb_lt 0 (handshake_ttl ttl))) by lia. lia.
Qed.

Lemma handshake_expiry now ttl :
  expiry now (handshake_ttl ttl) = Some (i64_saturating_add now (handshake_ttl ttl * 1000000)).
Proof.
  pose proof (handshake_ttl_bounds ttl). unfold expiry. rewrite (proj2 (Z.ltb_lt 0 _)) by lia.
  do 2 f_equal. unfold i64_saturating_mul, i64_sat, i64_max, i64_min. lia.
Qed.

Lemma spec_request_some now p rsn ttl m : is_Some ((spec_op (Request now p rsn ttl) m).2 !! p).
Proof.
  simpl. destruct (m !! p) as [[[] e]|] eqn:Hm; simpl; rewrite ?lookup_insert_eq, ?Hm; by eexists.
Qed.

Lemma handshake_effect now1 now2 p rsn auto ttl d m :
  represents d m →
  ∃ row d', contact_handshake now1 now2 p rsn auto ttl d = (Ok row, d') ∧
  if default false auto then
    let until := i64_saturating_add now2 (handshake_ttl ttl * 1000000) in
    status row = lit "approved" ∧ represents d' (<[p := (Approved, Some until)]> m) ∧
    ∀ t, t < until → is_contact_allowed t p d' = true ∧ is_contact_allowed t (reverse_pair p) d' = true
  else
    represents d' (spec_op (Request now1 p rsn (handshake_ttl ttl)) m).2 ∧
    Some (status row, expires_ts row) = shown (spec_op (Request now1 p rsn (handshake_ttl ttl)) m).1.
Proof.
  intros Hrep. unfold contact_handshake. destruct (tool_ttl_handshake ttl) as [-> ->].
  destruct (request_represents d m now1 p rsn (handshake_ttl ttl) Hrep) as (v & d1 & Hrun & Hsp & Hrep1).
  apply run_op_request in Hrun as (r & -> & Hr). rewrite Hsp in *.
  destruct (default false auto).
  2:{ exists r, d1. simpl. split_and!; [done|done|]. by rewrite Hr. }
  destruct (respond_represents _ _ now2 p true (handshake_ttl ttl) Hrep1) as (d2 & Hrun & Hrep2).
  destruct (spec_request_some now1 p rsn (handshake_ttl ttl) m) as [w Hw]. rewrite Hsp in Hw.
  cbn [spec_op fst snd] in Hrun, Hrep2, Hw. rewrite Hw in Hrun, Hrep2.
  apply run_op_respond in Hrun as (n & row & -> & Hrow). rewrite handshake_expiry in Hrow, Hrep2. injection Hrow as Hst He.
  assert (∀ v, <[p:=v]> (spec_op (Request now1 p rsn (handshake_ttl ttl)) m).2 = <[p:=v]> m) as Hins.
  { intros v'. simpl. destruct (m !! p) as [[[] ?]|]; simpl; by rewrite ?insert_insert_eq. }
  simpl in Hins, Hrep2. rewrite Hins in Hrep2.
  exists row, d2. split_and!; [done|by rewrite <-Hst|done|]. intros t Ht.
  assert (approves t (<[p:=(Approved, Some (i64_saturating_add now2 (handshake_ttl ttl * 1000000)))]> m) p) as Ha.
  { eexists. split; [apply lookup_insert_eq|done]. }
  split; apply (contact_allowed_iff _ _ _ _ Hrep2); [by left|]. right; left. by destruct p.
Qed.

(** The handshake never fails once its names are resolved.  Without
    automatic acceptance it is a request: a blocked link stays blocked.  With
    it the link is approved whatever it was before, a block included, for the
    clamped time to live from the second clock reading, and until then mail
    may pass in both directions whatever the policy of the recipient. *)
Theorem contact_handshake_spec now1 now2 p rsn auto ttl d m :
  represents d m →
  ∃ row d', contact_handshake now1 now2 p rsn auto ttl d = (Ok row, d') ∧
  if default false auto then
    let until := i64_saturating_add now2 (handshake_ttl ttl * 1000000) in
    status row = lit "approved" ∧ represents d' (<[p := (Approved, Some until)]> m) ∧
    ∀ t, t < until → is_contact_allowed t p d' = true ∧ is_contact_allowed t (reverse_pair p) d' = true
  else
    represents d' (spec_op (Request now1 p rsn (handshake_ttl ttl)) m).2 ∧
    Some (status row, expires_ts row) = shown (spec_op (Request now1 p rsn (handshake_ttl ttl)) m).1.
Proof. apply handshake_effect. Qed.

(** ** The gate and the address *)

Lemma block_all_stops s r recent approved :
  r ≠ s → contact_policy_decision s r (lit "BLOCK_ALL") recent approved = BlockAll.
Proof. intros Hn. unfold contact_policy_decision. by rewrite bool_decide_false. Qed.

Lemma contacts_only_needs_link s r recent approved :
  contact_policy_decision s r (lit "contacts_only") recent approved = Allow ↔ r = s ∨ approved = true.
Proof.
  unfold contact_policy_decision. case_bool_decide as Hn; [naive_solver|].
  destruct recent, approved; vm_compute; naive_solver.
Qed.

Lemma parse_contact_policy_valid raw : parse_contact_policy raw ∈ VALID_CONTACT_POLICIES.
Proof. unfold parse_contact_policy. case_bool_decide; [done|]. right; left. Qed.

(** ** The theorems at work *)

Module ContactRuns.

Definition p : Pair := {| a_project_id := 1; a_agent_id := 7; b_project_id := 1; b_agent_id := 9 |}.
Definition ags : list AgentRow :=
  [{| agent_id := 9; agent_project := 1; name := lit "BlueLake"; contact_policy := Some (lit "contacts_only") |}].

(** Contact is requested, refused and requested again. *)
Definition ops : list Op :=
  [Request 10 p (lit "review") 60; Respond 20 p false 0; Request 30 p (lit "again") 60].
Definition d := (run_ops ops (empty_db ags)).2.
Definition m := (spec_ops ops ∅).2.

Lemma d_represents : represents d m.
Proof. apply run_ops_represents, empty_represents. Qed.

Lemma link_history_witness :
  ∃ row, find_link p d = Some row ∧ status row = lit "blocked" ∧
    ∃ st, status row = status_text st ∧ history p ops (st, expires_ts row).
Proof.
  eexists. split; [vm_compute; reflexivity|]. split; [vm_compute; reflexivity|].
  apply (link_history ags). vm_compute. reflexivity.
Defined.

Lemma is_contact_allowed_spec_witness :
  represents d m ∧ is_contact_allowed 40 p d = false ∧
  (is_contact_allowed 40 p d = true ↔
    approves 40 m p ∨ approves 40 m (reverse_pair p) ∨
    recipient_policy p d = lit "auto" ∨ recipient_policy p d = lit "open").
Proof.
  split; [apply d_represents|]. split; [vm_compute; reflexivity|].
  apply is_contact_allowed_spec, d_represents.
Defined.

Definition after := (contact_handshake 40 50 p [] (Some true) None d).2.
Definition after_map := <[p := (Approved, Some (i64_saturating_add 50 (604800 * 1000000)))]> m.

(** The handshake approves the link that was blocked. *)
Lemma contact_handshake_spec_witness :
  status <$> find_link p d = Some (lit "blocked") ∧
  (∃ row, (contact_handshake 40 50 p [] (Some true) None d).1 = Ok row ∧ status row = lit "approved" ∧
    is_contact_allowed 60 p after = true).
Proof.
  split; [vm_compute; reflexivity|].
  destruct (contact_handshake_spec 40 50 p [] (Some true) None d m d_represents) as (row & d' & He & Hs & _ & Ha).
  exists row. split; [by rewrite He|]. split; [done|]. unfold after. rewrite He. apply Ha. reflexivity.
Defined.

Lemma after_represents : represents after after_map.
Proof. apply (run_ops_represents [Request 40 p [] 604800; Respond 50 p true 604800] d m d_represents). Qed.

Lemma list_approved_contact_ids_spec_witness :
  list_approved_contact_ids (λ i, 60 + Z.of_nat i mod 5) 1 7 [12; 9; 9] after = [9] ∧
  StronglySorted Z.lt (list_approved_contact_ids (λ i, 60 + Z.of_nat i mod 5) 1 7 [12; 9; 9] after).
Proof.
  split; [vm_compute; reflexivity|].
  apply (list_approved_contact_ids_spec _ 60 65 1 7 _ _ after_map after_represents).
  intros i. pose proof (Z.mod_pos_bound (Z.of_nat i) 5). lia.
Defined.

End ContactRuns.
