(* ===== verification/Mail.v ===== *)
(** * Messages, recipients and inbox counters
    ([mcp-agent-mail-db/src/queries.rs], [schema.rs] and [sync.rs])

    A table is a finite map from its primary key to the row.  A transaction is
    one step: the engine serialises them, retrying on a conflict, and a failed
    one leaves the tables alone.  Foreign keys are off, as the schema sets
    them.  The counters are kept twice: by triggers, which an engine may lack,
    and by a rebuild at the end of every transaction; which triggers exist is
    a parameter.  Rows that compare equal under [ORDER BY] may come in any
    order; the model keeps the order of the keys. *)

From stdpp Require Import base numbers tactics list gmap strings sorting.
From S2P Require Import Prelude DbErrors ReservationDb.
Import DbErrors.
Open Scope Z_scope.

Module Mail.

(** ** Tables *)

(** The object of names that is stored as a JSON text. *)
Record RecipientsJson := { json_to : list str; json_cc : list str; json_bcc : list str }.

Record MessageRow := {
  project_id : Z;
  sender_id : Z;
  thread_id : option str;
  subject : str;
  body_md : str;
  importance : str;
  ack_required : Z;
  created_ts : Z;
  recipients_json : option RecipientsJson;
  attachments : str;
}.

(** Its key is the message and the agent. *)
Record MessageRecipientRow := { kind : str; read_ts : option Z; ack_ts : option Z }.

Record InboxStatsRow := {
  total_count : Z;
  unread_count : Z;
  ack_pending_count : Z;
  last_message_ts : option Z;
}.

Record Db := {
  messages : gmap Z MessageRow;
  message_sequence : Z;
  recipients : gmap (Z * Z) MessageRecipientRow;
  inbox_stats : gmap Z InboxStatsRow;
  agent_names : gmap Z str;
}.

Definition empty_db (names : gmap Z str) : Db :=
  {| messages := ∅; message_sequence := 0; recipients := ∅; inbox_stats := ∅; agent_names := names |}.

Definition set_recipients (f : gmap (Z * Z) MessageRecipientRow → gmap (Z * Z) MessageRecipientRow) (d : Db) : Db :=
  {| messages := messages d; message_sequence := message_sequence d; recipients := f (recipients d);
     inbox_stats := inbox_stats d; agent_names := agent_names d |}.

Definition set_stats (f : gmap Z InboxStatsRow → gmap Z InboxStatsRow) (d : Db) : Db :=
  {| messages := messages d; message_sequence := message_sequence d; recipients := recipients d;
     inbox_stats := f (inbox_stats d); agent_names := agent_names d |}.

(** ** The triggers *)

Inductive InsertTrigger := Canonical | Compat.

Record Triggers := { on_insert : option InsertTrigger; on_read : bool; on_ack : bool }.

Definition b2z (b : bool) : Z := if b then 1 else 0.

(** After an insert into the recipients.  [None] is the violation of
    [NOT NULL] when the message does not exist. *)
Definition fire_insert (trigger : option InsertTrigger) (m : option MessageRow) (agent : Z)
    (stats : gmap Z InboxStatsRow) : option (gmap Z InboxStatsRow) :=
  match trigger with
  | None => Some stats
  | Some Canonical =>
      m ← m;
      let ack := b2z (bool_decide (ack_required m = 1)) in
      Some (<[agent :=
        match stats !! agent with
        | None => {| total_count := 1; unread_count := 1; ack_pending_count := ack;
                     last_message_ts := Some (created_ts m) |}
        | Some s => {| total_count := total_count s + 1; unread_count := unread_count s + 1;
                       ack_pending_count := ack_pending_count s + ack;
                       last_message_ts := Some (Z.max (default 0 (last_message_ts s)) (created_ts m)) |}
        end]> stats)
  | Some Compat =>
      let s := default {| total_count := 0; unread_count := 0; ack_pending_count := 0;
                          last_message_ts := created_ts <$> m |} (stats !! agent) in
      Some (<[agent :=
        {| total_count := total_count s + 1; unread_count := unread_count s + 1;
           ack_pending_count := ack_pending_count s + default 0 (ack_required <$> m);
           last_message_ts := Some (Z.max (default 0 (last_message_ts s)) (default 0 (created_ts <$> m))) |}]> stats)
  end.

(** After an update of one recipient row. *)
Definition fire_update (tr : Triggers) (agent : Z) (old new : MessageRecipientRow)
    (stats : gmap Z InboxStatsRow) : gmap Z InboxStatsRow :=
  let fires (on : bool) (o n : option Z) := on && bool_decide (o = None) && negb (bool_decide (n = None)) in
  alter (λ s,
    {| total_count := total_count s;
       unread_count := if fires (on_read tr) (read_ts old) (read_ts new)
                       then Z.max 0 (unread_count s - 1) else unread_count s;
       ack_pending_count := if fires (on_ack tr) (ack_ts old) (ack_ts new)
                            then Z.max 0 (ack_pending_count s - 1) else ack_pending_count s;
       last_message_ts := last_message_ts s |}) agent stats.

(** ** Rebuilding the counters *)

(** The recipient rows of an agent joined with their messages. *)
Definition delivery (agent : Z) (d : Db) (kr : (Z * Z) * MessageRecipientRow) :
    option (MessageRecipientRow * MessageRow) :=
  if decide (kr.1.2 = agent) then (λ m, (kr.2, m)) <$> messages d !! kr.1.1 else None.

Definition deliveries (agent : Z) (d : Db) : list (MessageRecipientRow * MessageRow) :=
  omap (delivery agent d) (map_to_list (recipients d)).

Definition is_unread (rm : MessageRecipientRow * MessageRow) : bool := bool_decide (read_ts rm.1 = None).
Definition is_ack_pending (rm : MessageRecipientRow * MessageRow) : bool :=
  bool_decide (ack_required rm.2 = 1) && bool_decide (ack_ts rm.1 = None).

Definition max_ts (l : list Z) : option Z :=
  foldr (λ x acc, Some (from_option (Z.max x) x acc)) None l.

(** The aggregates of [GROUP BY]: no group, no row. *)
Definition aggregate (l : list (MessageRecipientRow * MessageRow)) : option InboxStatsRow :=
  match l with
  | [] => None
  | _ => Some {| total_count := Z.of_nat (length l);
                 unread_count := Z.of_nat (length (filter (λ rm, is_unread rm = true) l));
                 ack_pending_count := Z.of_nat (length (filter (λ rm, is_ack_pending rm = true) l));
                 last_message_ts := max_ts ((λ rm, created_ts rm.2) <$> l) |}
  end.

(** Insert the group of an agent. *)
Definition put_group (d : Db) (stats : gmap Z InboxStatsRow) (a : Z) : gmap Z InboxStatsRow :=
  match aggregate (deliveries a d) with Some row => <[a := row]> stats | None => stats end.

(** [DELETE] and [INSERT … SELECT … GROUP BY] for one chunk of agents. *)
Definition rebuild_chunk (d : Db) (chunk : list Z) : Db :=
  set_stats (λ stats, foldl (put_group d) (filter (λ kv, kv.1 ∉ chunk) stats) chunk) d.

Definition rebuild_agents_inbox_stats_in_tx (agent_ids : list Z) (d : Db) : Db :=
  foldl rebuild_chunk d
    (chunks (Z.to_nat ReservationDb.MAX_IN_CLAUSE_ITEMS) (dedup (merge_sort Z.le agent_ids))).

Definition rebuild_all_inbox_stats (d : Db) : Db :=
  set_stats (λ _, foldl (put_group d) ∅ (elements (set_map (D := gset Z) snd (dom (recipients d))))) d.

(** ** Sending *)

(** [INSERT INTO messages]: the key is drawn from the table's sequence. *)
Definition insert_message (row : MessageRow) (d : Db) : Z * Db :=
  let message_id := message_sequence d + 1 in
  (message_id,
   {| messages := <[message_id := row]> (messages d); message_sequence := message_id;
      recipients := recipients d; inbox_stats := inbox_stats d; agent_names := agent_names d |}).

Definition unique_violation : DbError :=
  Sqlite (lit "UNIQUE constraint failed: message_recipients.message_id, message_recipients.agent_id").
Definition not_null_violation : DbError := Sqlite (lit "NOT NULL constraint failed: inbox_stats.ack_pending_count").

Definition insert_recipient (tr : Triggers) (message agent : Z) (k : str) (d : Db) : DbResult Db :=
  match recipients d !! (message, agent) with
  | Some _ => Err unique_violation
  | None =>
      match fire_insert (on_insert tr) (messages d !! message) agent (inbox_stats d) with
      | None => Err not_null_violation
      | Some stats =>
          Ok (set_stats (λ _, stats)
            (set_recipients (insert (message, agent) {| kind := k; read_ts := None; ack_ts := None |}) d))
      end
  end.

Fixpoint insert_recipients (tr : Triggers) (message : Z) (rs : list (Z * str)) (d : Db) : DbResult Db :=
  match rs with
  | [] => Ok d
  | (agent, k) :: rs =>
      match insert_recipient tr message agent k d with
      | Err e => Err e
      | Ok d' => insert_recipients tr message rs d'
      end
  end.

(** The statement has one placeholder per recipient up to the limit, and the
    engine ignores parameters beyond its placeholders. *)
Definition name_map (rs : list (Z * str)) (d : Db) : gmap Z str :=
  filter (λ kv, kv.1 ∈ take (Z.to_nat ReservationDb.MAX_IN_CLAUSE_ITEMS) (fst <$> rs)) (agent_names d).

Inductive Bucket := To | Cc | Bcc.

#[export] Instance Bucket_eq_dec : EqDecision Bucket.
Proof. solve_decision. Defined.

Definition bucket_of (k : str) : Bucket :=
  if bool_decide (k = lit "cc") then Cc else if bool_decide (k = lit "bcc") then Bcc else To.

Definition bucket_names (b : Bucket) (rs : list (Z * str)) (names : gmap Z str) : list str :=
  omap (λ '(a, k), if bool_decide (bucket_of k = b) then names !! a else None) rs.

Definition recipients_json_of (rs : list (Z * str)) (d : Db) : RecipientsJson :=
  {| json_to := bucket_names To rs (name_map rs d); json_cc := bucket_names Cc rs (name_map rs d);
     json_bcc := bucket_names Bcc rs (name_map rs d) |}.

(** What the caller says of a message. *)
Record Draft := {
  draft_project : Z;
  draft_sender : Z;
  draft_subject : str;
  draft_body : str;
  draft_thread : option str;
  draft_importance : str;
  draft_ack : bool;
  draft_attachments : str;
}.

Definition message_row (now : Z) (m : Draft) (json : option RecipientsJson) : MessageRow :=
  {| project_id := draft_project m; sender_id := draft_sender m; thread_id := draft_thread m;
     subject := draft_subject m; body_md := draft_body m; importance := draft_importance m;
     ack_required := b2z (draft_ack m); created_ts := now; recipients_json := json;
     attachments := draft_attachments m |}.

Definition create_message (now : Z) (m : Draft) (d : Db) : Z * MessageRow * Db :=
  let row := message_row now m None in
  let '(message_id, d') := insert_message row d in (message_id, row, d').

Definition create_message_with_recipients_tx (tr : Triggers) (now : Z) (m : Draft) (rs : list (Z * str))
    (d : Db) : DbResult (Z * MessageRow) * Db :=
  let row := message_row now m (Some (recipients_json_of rs d)) in
  let '(message_id, d1) := insert_message row d in
  match insert_recipients tr message_id rs d1 with
  | Err e => (Err e, d)
  | Ok d2 => (Ok (message_id, row), rebuild_agents_inbox_stats_in_tx (fst <$> rs) d2)
  end.

(** ** The check after the commit *)

Definition invisible : DbError := Internal (lit "not visible after commit").

(** Sorted and deduplicated lists are compared as sets. *)
Definition verify_message_recipients_visible (view : Db) (project message : Z) (expected : list (Z * str)) :
    DbResult unit :=
  if bool_decide (project_id <$> messages view !! message = Some project) then
    let actual := omap (λ '((mid, aid), r), if decide (mid = message) then Some (aid, kind r) else None)
                    (map_to_list (recipients view)) in
    if bool_decide (list_to_set (C := gset (Z * str)) actual = list_to_set expected) then Ok tt else Err invisible
  else Err invisible.

(** What undoes a message whose check failed. *)
Definition cleanup_committed_message (project message : Z) (agents : list Z) (d : Db) : Db :=
  let rows := omap (λ '((mid, aid), _), if decide (mid = message) then Some aid else None)
                (map_to_list (recipients d)) in
  let d1 := set_recipients (filter (λ kr, kr.1.1 ≠ message)) d in
  let d2 := {| messages := filter (λ kv, ¬ (kv.1 = message ∧ project_id kv.2 = project)) (messages d1);
               message_sequence := message_sequence d1; recipients := recipients d1;
               inbox_stats := inbox_stats d1; agent_names := agent_names d1 |} in
  rebuild_agents_inbox_stats_in_tx (agents ++ rows) d2.

(** The world after the commit: what the probe's connection sees, or its
    error, and whether the clean-up succeeds. *)
Record AfterCommit := { probe : Db → DbResult Db; cleanup_fails : option DbError }.

Definition create_message_with_recipients (tr : Triggers) (env : AfterCommit) (now : Z) (m : Draft)
    (rs : list (Z * str)) (d : Db) : DbResult (Z * MessageRow) * Db :=
  match create_message_with_recipients_tx tr now m rs d with
  | (Err e, d') => (Err e, d')
  | (Ok (message_id, row), d') =>
      let verified :=
        match probe env d' with
        | Err e => Err e
        | Ok view => verify_message_recipients_visible view (draft_project m) message_id rs
        end in
      match verified with
      | Ok _ => (Ok (message_id, row), d')
      | Err e =>
          match cleanup_fails env with
          | None => (Err e, cleanup_committed_message (draft_project m) message_id (fst <$> rs) d')
          | Some _ => (Err (Internal (lit "post-commit recipient visibility failed; cleanup failed")), d')
          end
      end
  end.

(** A message that exists gets more recipients; the counters are left to the
    trigger. *)
Definition add_recipients (tr : Triggers) (message : Z) (rs : list (Z * str)) (d : Db) : DbResult unit * Db :=
  match insert_recipients tr message rs d with Err e => (Err e, d) | Ok d' => (Ok tt, d') end.

(** ** Reading and acknowledging *)

(** [UPDATE message_recipients]: rows chosen by [sel] become [f] of what they
    were, and the triggers fire row by row. *)
Definition update_rows (tr : Triggers) (sel : Z * Z → MessageRecipientRow → bool)
    (f : Z * Z → MessageRecipientRow → MessageRecipientRow) (d : Db) : Db :=
  set_stats (λ stats, foldl (λ s '(k, r), if sel k r then fire_update tr k.2 r (f k r) s else s) stats
                        (map_to_list (recipients d)))
    (set_recipients (map_imap (λ k r, Some (if sel k r then f k r else r))) d).

(** Reading a message that asks for an acknowledgement acknowledges it. *)
Definition mark_read (now : Z) (d : Db) (k : Z * Z) (r : MessageRecipientRow) : MessageRecipientRow :=
  {| kind := kind r; read_ts := Some (default now (read_ts r));
     ack_ts := match ack_ts r with
               | Some t => Some t
               | None => if bool_decide (ack_required <$> messages d !! k.1 = Some 1) then Some now else None
               end |}.

Definition acknowledge (now : Z) (k : Z * Z) (r : MessageRecipientRow) : MessageRecipientRow :=
  {| kind := kind r; read_ts := Some (default now (read_ts r)); ack_ts := Some (default now (ack_ts r)) |}.

Definition recipient_not_found : DbError := NotFound (lit "MessageRecipient") [].

Definition mark_message_read (tr : Triggers) (now agent message : Z) (d : Db) : DbResult Z * Db :=
  let d1 := update_rows tr (λ k _, bool_decide (k = (message, agent))) (mark_read now d) d in
  let d2 := rebuild_agents_inbox_stats_in_tx [agent] d1 in
  match recipients d2 !! (message, agent) with
  | None => (Err recipient_not_found, d)
  | Some r => (Ok (default now (read_ts r)), d2)
  end.

Definition mark_chunk (tr : Triggers) (now agent : Z) (d : Db) (chunk : list Z) : Db :=
  update_rows tr (λ k _, bool_decide (k.2 = agent ∧ k.1 ∈ chunk)) (mark_read now d) d.

Definition mark_messages_read_batch (tr : Triggers) (now agent : Z) (message_ids : list Z) (d : Db) :
    DbResult unit * Db :=
  match message_ids with
  | [] => (Ok tt, d)
  | _ =>
      let d1 := foldl (mark_chunk tr now agent) d (chunks (Z.to_nat ReservationDb.MAX_IN_CLAUSE_ITEMS) message_ids) in
      (Ok tt, rebuild_agents_inbox_stats_in_tx [agent] d1)
  end.

(** What the inbox tool uses instead ([db/src/sync.rs]): duplicates are dropped,
    and the counters are rebuilt for the one agent. *)
Definition MAX_SYNC_IN_CLAUSE_ITEMS : Z := 500.

Definition rebuild_agent_inbox_stats_sync (agent : Z) (d : Db) : Db := rebuild_chunk d [agent].

Definition mark_messages_read_batch_sync (tr : Triggers) (now agent : Z) (message_ids : list Z) (d : Db) : Db :=
  match message_ids with
  | [] => d
  | _ =>
      let unique_message_ids := dedup (merge_sort Z.le message_ids) in
      rebuild_agent_inbox_stats_sync agent
        (foldl (mark_chunk tr now agent) d (chunks (Z.to_nat MAX_SYNC_IN_CLAUSE_ITEMS) unique_message_ids))
  end.

(** An unread row of an agent whose message is in a project; on such a row the
    statement that sets the time is the one that keeps an earlier one. *)
Definition unread_in_project (project agent : Z) (d : Db) (k : Z * Z) (r : MessageRecipientRow) : bool :=
  bool_decide (k.2 = agent) && bool_decide (read_ts r = None) &&
  bool_decide (project_id <$> messages d !! k.1 = Some project).

Definition mark_all_messages_read_in_project (tr : Triggers) (now project agent : Z) (d : Db) : DbResult Z * Db :=
  let unread := filter (λ kr, unread_in_project project agent d kr.1 kr.2 = true) (map_to_list (recipients d)) in
  let count := length unread in
  (Ok (Z.of_nat count),
   if (0 <? count)%nat then
     rebuild_agents_inbox_stats_in_tx [agent]
       (update_rows tr (unread_in_project project agent d) (mark_read now d) d)
   else d).

Definition acknowledge_message (tr : Triggers) (now agent message : Z) (d : Db) : DbResult (Z * Z) * Db :=
  let d1 := update_rows tr (λ k _, bool_decide (k = (message, agent))) (acknowledge now) d in
  let d2 := rebuild_agents_inbox_stats_in_tx [agent] d1 in
  match recipients d2 !! (message, agent) with
  | None => (Err recipient_not_found, d)
  | Some r => (Ok (default now (read_ts r), default now (ack_ts r)), d2)
  end.

(** ** Queries *)

Definition get_inbox_stats (agent : Z) (d : Db) : option InboxStatsRow := inbox_stats d !! agent.

Record InboxRow := {
  message_id : Z;
  message : MessageRow;
  recipient : MessageRecipientRow;
  sender_name : str;
}.

(** The recipient rows of an agent in a project joined with message and
    sender. *)
Definition inbox_join (project agent : Z) (d : Db) : list InboxRow :=
  omap (λ '((mid, aid), r),
    m ← messages d !! mid;
    s ← agent_names d !! sender_id m;
    if bool_decide (aid = agent ∧ project_id m = project) then
      Some {| message_id := mid; message := m; recipient := r; sender_name := s |}
    else None) (map_to_list (recipients d)).

Definition inbox_filter (urgent_only unread_only ack_required_only : bool) (since_ts : option Z) (row : InboxRow) : bool :=
  (negb urgent_only || bool_decide (importance (message row) ∈ [lit "high"; lit "urgent"])) &&
  (negb unread_only || bool_decide (read_ts (recipient row) = None)) &&
  (negb ack_required_only ||
     bool_decide (ack_required (message row) = 1) && bool_decide (ack_ts (recipient row) = None)) &&
  match since_ts with Some ts => ts <? created_ts (message row) | None => true end.

Definition newest_first (a b : InboxRow) : Prop := created_ts (message b) ≤ created_ts (message a).
Definition oldest_first (a b : InboxRow) : Prop := created_ts (message a) ≤ created_ts (message b).

#[export] Instance newest_first_dec a b : Decision (newest_first a b).
Proof. unfold newest_first. apply _. Defined.
#[export] Instance oldest_first_dec a b : Decision (oldest_first a b).
Proof. unfold oldest_first. apply _. Defined.

Definition limit_error : DbError := InvalidArgument (lit "limit") (lit "limit exceeds i64::MAX").

Definition fetch_inbox_rows (project agent : Z) (urgent_only unread_only ack_required_only : bool)
    (since_ts : option Z) (limit : Z) (d : Db) : DbResult (list InboxRow) :=
  if limit <=? i64_max then
    Ok (take (Z.to_nat limit)
          (merge_sort newest_first
             (filter (λ row, inbox_filter urgent_only unread_only ack_required_only since_ts row = true)
                (inbox_join project agent d))))
  else Err limit_error.

Definition fetch_inbox (project agent : Z) (urgent_only : bool) (since_ts : option Z) (limit : Z) :=
  fetch_inbox_rows project agent urgent_only false false since_ts limit.
Definition fetch_inbox_unread (project agent : Z) (urgent_only : bool) (since_ts : option Z) (limit : Z) :=
  fetch_inbox_rows project agent urgent_only true false since_ts limit.
Definition fetch_inbox_ack_required (project agent : Z) (limit : Z) :=
  fetch_inbox_rows project agent false false true None limit.

Definition fetch_unacked_for_agent (project agent limit : Z) (d : Db) : DbResult (list InboxRow) :=
  if limit <=? i64_max then
    Ok (take (Z.to_nat limit)
          (merge_sort oldest_first
             (filter (λ row, bool_decide (ack_required (message row) = 1) && bool_decide (ack_ts (recipient row) = None) = true)
                (inbox_join project agent d))))
  else Err limit_error.

(** Message, project, time and agent of what waits for an acknowledgement. *)
Definition unacked_rows (d : Db) : list (Z * Z * Z * Z) :=
  omap (λ '((mid, aid), r),
    m ← messages d !! mid;
    if bool_decide (ack_required m = 1 ∧ ack_ts r = None) then Some (mid, project_id m, created_ts m, aid) else None)
    (map_to_list (recipients d)).

Definition list_unacknowledged_messages (d : Db) : list (Z * Z * Z * Z) := take 10000 (unacked_rows d).

Definition list_overdue_unacknowledged_messages (overdue_before_ts : Z) (d : Db) : list (Z * Z * Z * Z) :=
  take 10000 (filter (λ '(_, _, ts, _), ts ≤ overdue_before_ts) (unacked_rows d)).

(** Both halves of the [UNION]: the recipients of the sender's messages and
    the senders of the messages to it. *)
Definition recent_contact_rows (project sender since : Z) (chunk : list Z) (d : Db) : list Z :=
  omap (λ '((mid, aid), _),
    m ← messages d !! mid;
    if bool_decide (project_id m = project ∧ sender_id m = sender ∧ since < created_ts m ∧ aid ∈ chunk)
    then Some aid else None) (map_to_list (recipients d)) ++
  omap (λ '((mid, aid), _),
    m ← messages d !! mid;
    if bool_decide (project_id m = project ∧ aid = sender ∧ since < created_ts m ∧ sender_id m ∈ chunk)
    then Some (sender_id m) else None) (map_to_list (recipients d)).

Definition list_recent_contact_agent_ids (project sender : Z) (candidate_ids : list Z) (since_ts : Z) (d : Db) : list Z :=
  dedup (merge_sort Z.le
    (chunks (Z.to_nat ReservationDb.MAX_IN_CLAUSE_ITEMS) candidate_ids ≫=
       λ chunk, recent_contact_rows project sender since_ts chunk d)).

(** A thread named by a number is the message of that key and its replies. *)
Definition in_thread (project : Z) (thread : str) (mid : Z) (m : MessageRow) : bool :=
  bool_decide (project_id m = project) &&
  match parse_i64 thread with
  | Some root => bool_decide (mid = root) || bool_decide (thread_id m = Some thread)
  | None => bool_decide (thread_id m = Some thread)
  end.

(** Key, row and sender of a message of a thread. *)
Definition ThreadMessageRow : Type := Z * MessageRow * str.

Definition thread_order (a b : ThreadMessageRow) : Prop :=
  created_ts a.1.2 < created_ts b.1.2 ∨ (created_ts a.1.2 = created_ts b.1.2 ∧ a.1.1 ≤ b.1.1).

#[export] Instance thread_order_dec a b : Decision (thread_order a b).
Proof. unfold thread_order. apply _. Defined.

Definition thread_rows (project : Z) (thread : str) (d : Db) : list ThreadMessageRow :=
  omap (λ '(mid, m), s ← agent_names d !! sender_id m;
    if in_thread project thread mid m then Some (mid, m, s) else None) (map_to_list (messages d)).

(** With a limit the newest rows are selected in descending order and
    reversed. *)
Definition list_thread_messages (project : Z) (thread : str) (limit : option Z) (d : Db) :
    DbResult (list ThreadMessageRow) :=
  match limit with
  | None => Ok (merge_sort thread_order (thread_rows project thread d))
  | Some lim =>
      if lim <=? i64_max then
        Ok (reverse (take (Z.to_nat lim) (merge_sort (flip thread_order) (thread_rows project thread d))))
      else Err limit_error
  end.

(** The order of texts does not matter to a caller that collects them. *)
Definition list_message_recipient_names_for_messages (project : Z) (message_ids : list Z) (d : Db) : gset str :=
  list_to_set (chunks (Z.to_nat ReservationDb.MAX_IN_CLAUSE_ITEMS) message_ids ≫= λ chunk,
    omap (λ '((mid, aid), _),
      a ← agent_names d !! aid;
      m ← messages d !! mid;
      if bool_decide (project_id m = project ∧ mid ∈ chunk) then Some a else None)
      (map_to_list (recipients d))).

(** The latest of what an agent sent, read or acknowledged in a project. *)
Definition get_agent_last_mail_activity (agent project : Z) (d : Db) : option Z :=
  let sent := max_ts (omap (λ '(_, m), if bool_decide (sender_id m = agent ∧ project_id m = project)
                                       then Some (created_ts m) else None) (map_to_list (messages d))) in
  let touched := max_ts (omap (λ '((mid, aid), r), m ← messages d !! mid;
                   if bool_decide (aid = agent ∧ project_id m = project)
                   then Some (Z.max (default 0 (read_ts r)) (default 0 (ack_ts r))) else None)
                   (map_to_list (recipients d))) in
  ts ← max_ts (option_list sent ++ option_list touched);
  if 0 <? ts then Some ts else None.

End Mail.
