(* ===== verification/MailFacts.v ===== *)
(** * What the message store guarantees

    The theorems about [Mail]: the inbox counters are exact whatever triggers
    exist, a message is delivered to all or to none, receipts stay, and what
    the inbox, thread and contact queries return. *)

From stdpp Require Import base numbers tactics list gmap strings sorting.
From S2P Require Import Prelude DbErrors ReservationDb Mail.
Import DbErrors Mail.
Open Scope Z_scope.

(** ** Aggregates *)

#[export] Instance max_ts_perm : Proper ((≡ₚ) ==> (=)) max_ts.
Proof.
  intros l l'. unfold max_ts. induction 1 as [|x l l' _ IH|x y l|]; simpl; [done|by rewrite IH| |congruence].
  match goal with |- context [foldr ?f None l] => destruct (foldr f None l) end; simpl; f_equal; lia.
Qed.

#[export] Instance aggregate_perm : Proper ((≡ₚ) ==> (=)) aggregate.
Proof.
  intros l l' Hp. unfold aggregate. destruct l as [|x l], l' as [|x' l']; try done.
  - by apply Permutation_nil_cons in Hp.
  - symmetry in Hp. by apply Permutation_nil_cons in Hp.
  - by rewrite Hp.
Qed.

Lemma delivery_other a d kr : kr.1.2 ≠ a → delivery a d kr = None.
Proof. intros Hn. unfold delivery. by rewrite decide_False. Qed.

Lemma omap_filter_irrel {A B} (P : A → Prop) `{∀ x, Decision (P x)} (f : A → option B) (l : list A) :
  (∀ x, ¬ P x → f x = None) → omap f l = omap f (filter P l).
Proof.
  intros Hf. induction l as [|x l IH]; [done|]. rewrite filter_cons. case_decide as Hx; csimpl.
  - by rewrite IH.
  - by rewrite Hf, IH.
Qed.

Lemma map_to_list_filter_perm {A} (P : (Z * Z) * A → Prop) `{∀ x, Decision (P x)} (m : gmap (Z * Z) A) :
  map_to_list (filter P m) ≡ₚ filter P (map_to_list m).
Proof.
  apply NoDup_Permutation.
  - apply NoDup_map_to_list.
  - apply NoDup_filter, NoDup_map_to_list.
  - intros [k r]. rewrite list_elem_of_filter, !elem_of_map_to_list, map_lookup_filter_Some. tauto.
Qed.

(** The deliveries of an agent depend on its own rows only. *)
Lemma deliveries_local a d d' :
  (∀ mid, recipients d' !! (mid, a) = recipients d !! (mid, a)) →
  (∀ mid r, recipients d !! (mid, a) = Some r → messages d' !! mid = messages d !! mid) →
  deliveries a d' ≡ₚ deliveries a d.
Proof.
  intros Hr Hm. unfold deliveries.
  rewrite (omap_filter_irrel (λ kr, kr.1.2 = a) (delivery a d')) by apply delivery_other.
  rewrite (omap_filter_irrel (λ kr, kr.1.2 = a) (delivery a d)) by apply delivery_other.
  rewrite <-!map_to_list_filter_perm.
  assert (filter (λ kr, kr.1.2 = a) (recipients d') = filter (λ kr, kr.1.2 = a) (recipients d)) as ->.
  { apply map_eq. intros [mid b]. apply option_eq. intros r. rewrite !map_lookup_filter_Some. simpl.
    split; intros [? ->]; (split; [|done]); [rewrite <-Hr|rewrite Hr]; done. }
  rewrite (list_omap_ext (delivery a d') (delivery a d) _ (map_to_list (filter (λ kr, kr.1.2 = a) (recipients d)))); [done|].
  apply Forall_Forall2_diag, Forall_forall. intros [[mid b] r] Hin%elem_of_map_to_list. apply map_lookup_filter_Some in Hin as [Hin Hb]. simpl in Hb. subst b.
  unfold delivery. simpl. by rewrite (Hm _ _ Hin).
Qed.

Lemma deliveries_insert a d d' mid b r :
  messages d' = messages d → recipients d' = <[(mid, b) := r]> (recipients d) → recipients d !! (mid, b) = None →
  deliveries a d' ≡ₚ option_list (delivery a d ((mid, b), r)) ++ deliveries a d.
Proof.
  intros Hm Hr Hn. unfold deliveries. rewrite Hr, map_to_list_insert by done. simpl.
  assert (∀ kr, delivery a d' kr = delivery a d kr) as Hd by (intros kr; unfold delivery; by rewrite Hm).
  rewrite Hd. rewrite (list_omap_ext (delivery a d') (delivery a d) _ (map_to_list (recipients d))).
  - by destruct (delivery a d _).
  - apply Forall_Forall2_diag, Forall_forall. intros; apply Hd.
Qed.

(** ** The rebuild *)

Lemma rebuild_fold_lookup d chunk s a :
  foldl (put_group d) s chunk !! a =
  if decide (a ∈ chunk) then match aggregate (deliveries a d) with Some row => Some row | None => s !! a end else s !! a.
Proof.
  revert s. induction chunk as [|b chunk IH]; intros s; [done|]. cbn [foldl]. rewrite IH. unfold put_group.
  destruct (decide (a = b)) as [->|Hb].
  - rewrite (decide_True (P := b ∈ b :: chunk)) by left.
    destruct (aggregate (deliveries b d)); [rewrite lookup_insert_eq|]; by case_decide.
  - assert (a ∈ b :: chunk ↔ a ∈ chunk) as Hiff by (rewrite elem_of_cons; naive_solver).
    destruct (decide (a ∈ chunk)), (decide (a ∈ b :: chunk)); try tauto;
      (destruct (aggregate (deliveries b d)); [rewrite lookup_insert_ne by done|]; done).
Qed.

Lemma rebuild_chunk_lookup d chunk a :
  inbox_stats (rebuild_chunk d chunk) !! a =
  if decide (a ∈ chunk) then aggregate (deliveries a d) else inbox_stats d !! a.
Proof.
  unfold rebuild_chunk. simpl. rewrite rebuild_fold_lookup. case_decide as Ha.
  - destruct (aggregate _); [done|]. apply map_lookup_filter_None_2. right. intros x _ Hx. by apply Hx.
  - destruct (inbox_stats d !! a) as [x|] eqn:Hx.
    + by apply map_lookup_filter_Some_2.
    + apply map_lookup_filter_None_2. by left.
Qed.

Lemma rebuild_chunks_lookup cs d a :
  inbox_stats (foldl rebuild_chunk d cs) !! a =
  (if decide (a ∈ concat cs) then aggregate (deliveries a d) else inbox_stats d !! a) ∧
  messages (foldl rebuild_chunk d cs) = messages d ∧ recipients (foldl rebuild_chunk d cs) = recipients d ∧
  message_sequence (foldl rebuild_chunk d cs) = message_sequence d ∧
  agent_names (foldl rebuild_chunk d cs) = agent_names d.
Proof.
  revert d. induction cs as [|c cs IH]; intros d; [done|]. cbn [foldl concat].
  destruct (IH (rebuild_chunk d c)) as (-> & Hm & Hr & Hs & Hn). split; [|done].
  change (deliveries a (rebuild_chunk d c)) with (deliveries a d). rewrite rebuild_chunk_lookup.
  destruct (decide (a ∈ concat cs)), (decide (a ∈ c)).
  all: try rewrite (decide_True (P := a ∈ c ++ concat cs)) by (apply elem_of_app; tauto); try done.
  by rewrite (decide_False (P := a ∈ c ++ concat cs)) by (rewrite elem_of_app; tauto).
Qed.

Lemma limit_pos : (1 ≤ Z.to_nat ReservationDb.MAX_IN_CLAUSE_ITEMS)%nat.
Proof. apply Nat.leb_le. vm_compute. reflexivity. Qed.

Lemma rebuild_lookup ids d a :
  inbox_stats (rebuild_agents_inbox_stats_in_tx ids d) !! a =
  if decide (a ∈ ids) then aggregate (deliveries a d) else inbox_stats d !! a.
Proof.
  unfold rebuild_agents_inbox_stats_in_tx. destruct (rebuild_chunks_lookup
    (chunks (Z.to_nat ReservationDb.MAX_IN_CLAUSE_ITEMS) (dedup (merge_sort Z.le ids))) d a) as [-> _].
  rewrite chunks_concat by apply limit_pos. apply decide_ext. by rewrite elem_of_dedup, merge_sort_Permutation.
Qed.

Lemma rebuild_tables ids d :
  messages (rebuild_agents_inbox_stats_in_tx ids d) = messages d ∧
  recipients (rebuild_agents_inbox_stats_in_tx ids d) = recipients d ∧
  message_sequence (rebuild_agents_inbox_stats_in_tx ids d) = message_sequence d ∧
  agent_names (rebuild_agents_inbox_stats_in_tx ids d) = agent_names d.
Proof. apply (rebuild_chunks_lookup _ _ 0). Qed.

Lemma deliveries_tables a d d' :
  messages d' = messages d → recipients d' = recipients d → deliveries a d' = deliveries a d.
Proof. unfold deliveries, delivery. by intros -> ->. Qed.

(** ** The counters are exact *)

(** Every row counts what its agent was sent, and an agent without a row was
    sent nothing. *)
Definition exact (d : Db) : Prop := ∀ a, inbox_stats d !! a = aggregate (deliveries a d).

(** Every recipient row has its message, and no key is in the sequence's
    future. *)
Record wf (d : Db) : Prop := {
  wf_sequence i : is_Some (messages d !! i) → i ≤ message_sequence d;
  wf_recipient i a : is_Some (recipients d !! (i, a)) → is_Some (messages d !! i);
}.

(** The agents outside [ids] see no difference. *)
Record same_outside (ids : list Z) (d d' : Db) : Prop := {
  outside_stats a : a ∉ ids → inbox_stats d' !! a = inbox_stats d !! a;
  outside_rows a mid : a ∉ ids → recipients d' !! (mid, a) = recipients d !! (mid, a);
  outside_messages a mid :
    a ∉ ids → is_Some (recipients d !! (mid, a)) → messages d' !! mid = messages d !! mid;
}.

Lemma exact_rebuild ids d d' :
  exact d → same_outside ids d d' → exact (rebuild_agents_inbox_stats_in_tx ids d').
Proof.
  intros Hd [Hs Hr Hm] a. destruct (rebuild_tables ids d') as (Htm & Htr & _).
  rewrite (deliveries_tables _ _ _ Htm Htr), rebuild_lookup. case_decide as Ha; [done|].
  rewrite Hs, Hd by done. apply aggregate_perm. symmetry. apply deliveries_local.
  - intros mid. by apply Hr.
  - intros mid r Hk. apply (Hm a); [done|by eexists].
Qed.

Lemma same_outside_refl ids d : same_outside ids d d.
Proof. done. Qed.

Lemma same_outside_trans ids d1 d2 d3 :
  same_outside ids d1 d2 → same_outside ids d2 d3 → same_outside ids d1 d3.
Proof.
  intros [Hs1 Hr1 Hm1] [Hs2 Hr2 Hm2]. split.
  - intros a Ha. by rewrite Hs2, Hs1.
  - intros a mid Ha. by rewrite Hr2, Hr1.
  - intros a mid Ha Hk. rewrite (Hm2 a), (Hm1 a); [done| | | |]; try done. by rewrite Hr1.
Qed.

Lemma fire_insert_other t m b stats stats' a :
  fire_insert t m b stats = Some stats' → a ≠ b → stats' !! a = stats !! a.
Proof.
  intros Hf Hn. destruct t as [[|]|]; simpl in Hf; [destruct m; simpl in Hf; [|done]| |];
    injection Hf as <-; by rewrite ?lookup_insert_ne by done.
Qed.

(** What the inserts of the recipients do to the tables. *)
Lemma insert_recipients_spec tr mid rs d d' :
  insert_recipients tr mid rs d = Ok d' →
  messages d' = messages d ∧ message_sequence d' = message_sequence d ∧ agent_names d' = agent_names d ∧
  same_outside (fst <$> rs) d d' ∧ NoDup (fst <$> rs) ∧
  (∀ a, a ∈ (fst <$> rs) → recipients d !! (mid, a) = None) ∧
  ∀ i a, recipients d' !! (i, a) =
    if decide (i = mid ∧ a ∈ (fst <$> rs))
    then (λ k, {| kind := k; read_ts := None; ack_ts := None |}) <$> (list_to_map rs : gmap Z str) !! a
    else recipients d !! (i, a).
Proof.
  revert d. induction rs as [|[b k] rs IH]; intros d; csimpl.
  - intros [= <-]. split_and!; try done; [constructor|by intros ? ?%elem_of_nil|].
    intros i a. by rewrite decide_False by (intros [_ Ha]; by apply elem_of_nil in Ha).
  - unfold insert_recipient. destruct (recipients d !! (mid, b)) eqn:Hb; [done|].
    destruct (fire_insert _ _ _ _) as [stats|] eqn:Hf; [|done].
    intros Hok. apply IH in Hok as (Hm & Hs & Hn & Hout & Hnd & Hnone & Hrows). csimpl in *.
    assert (b ∉ (fst <$> rs)) as Hbn by (intros Hin%Hnone; by rewrite lookup_insert_eq in Hin).
    split_and!; try done.
    + apply (same_outside_trans _ _ (set_stats (λ _, stats)
        (set_recipients (insert (mid, b) {| kind := k; read_ts := None; ack_ts := None |}) d))).
      * split; simpl; [intros a [Ha _]%not_elem_of_cons; by eapply fire_insert_other| |done].
        intros a i [Ha _]%not_elem_of_cons. by rewrite lookup_insert_ne by congruence.
      * destruct Hout as [H1 H2 H3]. split; simpl in *.
        -- intros a [_ Ha]%not_elem_of_cons. by apply H1.
        -- intros a i [_ Ha]%not_elem_of_cons. by apply H2.
        -- intros a i [_ Ha]%not_elem_of_cons. by apply H3.
    + by constructor.
    + intros a [->|Ha]%elem_of_cons; [done|]. specialize (Hnone a Ha).
      destruct (decide (a = b)) as [->|]; [done|]. by rewrite lookup_insert_ne in Hnone by congruence.
    + intros i a. rewrite Hrows. destruct (decide (a = b)) as [->|Hab].
      * rewrite decide_False by tauto. rewrite lookup_insert_eq. destruct (decide (i = mid)) as [->|Hi].
        -- rewrite lookup_insert_eq, decide_True by (split; [done|left]). done.
        -- rewrite lookup_insert_ne by congruence. by rewrite decide_False by tauto.
      * rewrite !lookup_insert_ne by congruence.
        assert (a ∈ b :: (fst <$> rs) ↔ a ∈ (fst <$> rs)) as Hiff by (rewrite elem_of_cons; tauto).
        destruct (decide (i = mid ∧ a ∈ (fst <$> rs))), (decide (i = mid ∧ a ∈ b :: (fst <$> rs))); first [done|tauto].
Qed.

(** ** Every operation keeps the counters exact *)

Lemma insert_message_frame row d ids :
  wf d → same_outside ids d (insert_message row d).2.
Proof.
  intros Hwf. split; simpl; [done|done|]. intros a mid _ Hk.
  rewrite lookup_insert_ne; [done|]. pose proof (wf_sequence _ Hwf mid (wf_recipient _ Hwf _ _ Hk)). lia.
Qed.

Lemma insert_message_fresh d : wf d → messages d !! (message_sequence d + 1) = None.
Proof.
  intros Hwf. destruct (messages d !! _) eqn:Hm; [|done].
  pose proof (wf_sequence _ Hwf _ (ex_intro _ _ Hm)). lia.
Qed.

Lemma insert_message_wf row d : wf d → wf (insert_message row d).2.
Proof.
  intros Hwf. split; simpl.
  - intros i [x Hi]. apply lookup_insert_Some in Hi as [[<- _]|[_ Hi]]; [lia|].
    pose proof (wf_sequence _ Hwf i (ex_intro _ _ Hi)). lia.
  - intros i a Hk. apply lookup_insert_is_Some'. right. by eapply wf_recipient.
Qed.

Lemma wf_tables d d' :
  messages d' = messages d → message_sequence d' = message_sequence d →
  (∀ i a, is_Some (recipients d' !! (i, a)) → is_Some (recipients d !! (i, a)) ∨ is_Some (messages d !! i)) →
  wf d → wf d'.
Proof.
  intros Hm Hs Hr [H1 H2]. split.
  - intros i. rewrite Hm, Hs. apply H1.
  - intros i a Hk. rewrite Hm. destruct (Hr i a Hk) as [|]; [by eapply H2|done].
Qed.

Lemma rebuild_wf ids d : wf d → wf (rebuild_agents_inbox_stats_in_tx ids d).
Proof.
  destruct (rebuild_tables ids d) as (Hm & Hr & Hs & _). apply wf_tables; [done|done|].
  intros i a. rewrite Hr. by left.
Qed.

Lemma insert_recipients_wf tr mid rs d d' :
  is_Some (messages d !! mid) → insert_recipients tr mid rs d = Ok d' → wf d → wf d'.
Proof.
  intros Hmid (Hm & Hs & _ & _ & _ & _ & Hr)%insert_recipients_spec. apply wf_tables; [done|done|].
  intros i a. rewrite Hr. case_decide as Hc; [|by left]. destruct Hc as [-> _]. by right.
Qed.

Lemma new_message_exists row d : is_Some (messages (insert_message row d).2 !! (message_sequence d + 1)).
Proof. simpl. rewrite lookup_insert_eq. by eexists. Qed.

Lemma create_tx_unfold tr now m rs d :
  create_message_with_recipients_tx tr now m rs d =
  let row := message_row now m (Some (recipients_json_of rs d)) in
  match insert_recipients tr (message_sequence d + 1) rs (insert_message row d).2 with
  | Err e => (Err e, d)
  | Ok d2 => (Ok (message_sequence d + 1, row), rebuild_agents_inbox_stats_in_tx (fst <$> rs) d2)
  end.
Proof. done. Qed.

Lemma create_tx_wf tr now m rs d : wf d → wf (create_message_with_recipients_tx tr now m rs d).2.
Proof.
  intros Hwf. rewrite create_tx_unfold. set (row := message_row _ _ _). cbv zeta.
  destruct (insert_recipients tr _ rs (insert_message row d).2) as [d2|e] eqn:Hi; [|done].
  apply rebuild_wf. eapply insert_recipients_wf; [|exact Hi|by apply insert_message_wf]. apply new_message_exists.
Qed.

Lemma create_tx_exact tr now m rs d :
  wf d → exact d → exact (create_message_with_recipients_tx tr now m rs d).2.
Proof.
  intros Hwf Hex. rewrite create_tx_unfold. set (row := message_row _ _ _). cbv zeta.
  destruct (insert_recipients tr _ rs (insert_message row d).2) as [d2|e] eqn:Hi; [|done].
  apply (exact_rebuild _ d); [done|]. apply insert_recipients_spec in Hi as (_ & _ & _ & Hout & _).
  eapply same_outside_trans; [by apply (insert_message_frame row)|done].
Qed.

Lemma cleanup_wf project mid agents d : wf d → wf (cleanup_committed_message project mid agents d).
Proof.
  intros Hwf. unfold cleanup_committed_message. apply rebuild_wf. split; simpl.
  - intros i [x Hi]. apply map_lookup_filter_Some in Hi as [Hi _]. by apply (wf_sequence _ Hwf).
  - intros i a [r Hr]. apply map_lookup_filter_Some in Hr as [Hr Hne]. simpl in Hne.
    destruct (wf_recipient _ Hwf i a (ex_intro _ _ Hr)) as [x Hx]. exists x.
    apply map_lookup_filter_Some. split; [done|]. simpl. naive_solver.
Qed.

Lemma cleanup_exact project mid agents d :
  wf d → exact d → exact (cleanup_committed_message project mid agents d).
Proof.
  intros Hwf Hex. unfold cleanup_committed_message. set (rows := omap _ _).
  assert (∀ a, is_Some (recipients d !! (mid, a)) → a ∈ agents ++ rows) as Hrows.
  { intros a [r Hr]. apply elem_of_app. right. apply list_elem_of_omap. exists ((mid, a), r).
    split; [by apply elem_of_map_to_list|]. by rewrite decide_True. }
  apply (exact_rebuild _ d); [done|]. split; simpl; [done| |].
  - intros a i Ha. destruct (decide (i = mid)) as [->|Hi].
    + destruct (recipients d !! (mid, a)) as [r|] eqn:Hr; [|apply map_lookup_filter_None; by left].
      destruct Ha. apply Hrows. by eexists.
    + destruct (recipients d !! (i, a)) as [r|] eqn:Hr; [|apply map_lookup_filter_None; by left].
      by apply map_lookup_filter_Some.
  - intros a i Ha Hk. assert (i ≠ mid) as Hi by (intros ->; by apply Ha, Hrows).
    destruct (messages d !! i) as [x|] eqn:Hx; [|apply map_lookup_filter_None; by left].
    apply map_lookup_filter_Some. naive_solver.
Qed.

Lemma send_wf tr env now m rs d : wf d → wf (create_message_with_recipients tr env now m rs d).2.
Proof.
  intros Hwf. pose proof (create_tx_wf tr now m rs d Hwf) as Htx. unfold create_message_with_recipients.
  destruct (create_message_with_recipients_tx tr now m rs d) as [[[mid row]|e] d']; [|done]. simpl in Htx.
  destruct (match probe env d' with Ok _ => _ | Err _ => _ end); [done|].
  destruct (cleanup_fails env); [done|]. by apply cleanup_wf.
Qed.

Lemma send_exact tr env now m rs d :
  wf d → exact d → exact (create_message_with_recipients tr env now m rs d).2.
Proof.
  intros Hwf Hex. pose proof (create_tx_exact tr now m rs d Hwf Hex) as Htx. pose proof (create_tx_wf tr now m rs d Hwf) as Hwf'.
  unfold create_message_with_recipients.
  destruct (create_message_with_recipients_tx tr now m rs d) as [[[mid row]|e] d']; [|done]. simpl in Htx, Hwf'.
  destruct (match probe env d' with Ok _ => _ | Err _ => _ end); [done|].
  destruct (cleanup_fails env); [done|]. by apply cleanup_exact.
Qed.

Lemma fire_update_other tr b old new s a : a ≠ b → fire_update tr b old new s !! a = s !! a.
Proof. intros Hn. unfold fire_update. by apply lookup_alter_ne. Qed.

Lemma update_rows_lookup tr sel f d k :
  recipients (update_rows tr sel f d) !! k = (λ r, if sel k r then f k r else r) <$> recipients d !! k.
Proof. unfold update_rows. simpl. rewrite map_lookup_imap. by destruct (recipients d !! k). Qed.

(** An update of one agent's rows is invisible to the others. *)
Lemma update_rows_frame tr sel f d agent :
  (∀ k r, sel k r = true → k.2 = agent) → same_outside [agent] d (update_rows tr sel f d).
Proof.
  intros Hsel. split; [| |done].
  - intros a Ha%not_elem_of_cons. simpl. generalize (map_to_list (recipients d)) as l.
    generalize (inbox_stats d) as s. intros s l. revert s. induction l as [|[k r] l IH]; intros s; [done|].
    simpl. rewrite IH. destruct (sel k r) eqn:Hs; [|done]. apply fire_update_other.
    rewrite (Hsel k r Hs). tauto.
  - intros a i Ha%not_elem_of_cons. rewrite update_rows_lookup.
    destruct (recipients d !! (i, a)) as [r|]; [|done]. simpl. destruct (sel (i, a) r) eqn:Hs; [|done].
    apply Hsel in Hs. simpl in Hs. tauto.
Qed.

Lemma update_rows_wf tr sel f d : wf d → wf (update_rows tr sel f d).
Proof.
  apply wf_tables; [done|done|]. intros i a. rewrite update_rows_lookup, fmap_is_Some. by left.
Qed.

Lemma update_exact tr sel f agent d :
  (∀ k r, sel k r = true → k.2 = agent) → exact d →
  exact (rebuild_agents_inbox_stats_in_tx [agent] (update_rows tr sel f d)).
Proof.
  intros Hsel Hex. apply (exact_rebuild _ d); [done|]. by apply update_rows_frame.
Qed.

(** The updates of a batch, chunk by chunk. *)
Lemma batch_frame tr now agent cs d :
  let d' := foldl (mark_chunk tr now agent) d cs in
  (wf d → wf d') ∧ same_outside [agent] d d'.
Proof.
  revert d. induction cs as [|c cs IH]; intros d; simpl; [done|]. destruct (IH (mark_chunk tr now agent d c)) as [Hwf Hout]. split.
  - intros. by apply Hwf, update_rows_wf.
  - eapply same_outside_trans; [|exact Hout]. apply update_rows_frame.
    intros k r [? _]%bool_decide_eq_true. done.
Qed.

Lemma rebuild_all_lookup d a : inbox_stats (rebuild_all_inbox_stats d) !! a = aggregate (deliveries a d).
Proof.
  unfold rebuild_all_inbox_stats. simpl. rewrite rebuild_fold_lookup. case_decide as Ha.
  - destruct (aggregate _); [done|]. apply lookup_empty.
  - assert (deliveries a d = []) as ->; [|apply lookup_empty].
    unfold deliveries. apply elem_of_nil_inv. intros rm Hin. apply Ha.
    apply list_elem_of_omap in Hin as ([[i b] r] & Hk%elem_of_map_to_list & Hd).
    unfold delivery in Hd. simpl in Hd. case_decide as Hb; [|done]. subst b.
    apply elem_of_elements, elem_of_map. exists (i, a). split; [done|]. apply elem_of_dom. by eexists.
Qed.

(** The batch of the inbox tool is the other one without the duplicates. *)
Lemma mark_batch_sync tr now agent ids d :
  mark_messages_read_batch_sync tr now agent ids d = (mark_messages_read_batch tr now agent (dedup (merge_sort Z.le ids)) d).2.
Proof.
  unfold mark_messages_read_batch_sync. destruct ids as [|i ids]; [done|]. set (u := dedup _).
  assert (i ∈ u) as Hi by (unfold u; rewrite elem_of_dedup, merge_sort_Permutation; left).
  unfold mark_messages_read_batch. destruct u as [|j u]; [by apply elem_of_nil in Hi|]. done.
Qed.

(** ** The store as a machine *)

Inductive Op :=
  | CreateMessage (now : Z) (m : Draft)
  | Send (env : AfterCommit) (now : Z) (m : Draft) (rs : list (Z * str))
  | MarkRead (now agent message : Z)
  | MarkReadBatch (now agent : Z) (message_ids : list Z)
  | MarkAllRead (now project agent : Z)
  | Acknowledge (now agent message : Z)
  | RebuildAll.

Definition run_op (tr : Triggers) (o : Op) (d : Db) : Db :=
  match o with
  | CreateMessage now m => (create_message now m d).2
  | Send env now m rs => (create_message_with_recipients tr env now m rs d).2
  | MarkRead now agent message => (mark_message_read tr now agent message d).2
  | MarkReadBatch now agent ids => (mark_messages_read_batch tr now agent ids d).2
  | MarkAllRead now project agent => (mark_all_messages_read_in_project tr now project agent d).2
  | Acknowledge now agent message => (acknowledge_message tr now agent message d).2
  | RebuildAll => rebuild_all_inbox_stats d
  end.

Definition run_ops (tr : Triggers) (os : list Op) (d : Db) : Db := foldl (λ d o, run_op tr o d) d os.

Lemma run_op_wf tr o d : wf d → wf (run_op tr o d).
Proof.
  intros Hwf. destruct o as [now m|env now m rs|now agent mid|now agent ids|now project agent|now agent mid|]; simpl.
  - by apply (insert_message_wf _ d).
  - by apply send_wf.
  - unfold mark_message_read. destruct (recipients _ !! (mid, agent)); simpl; [by apply rebuild_wf, update_rows_wf|done].
  - unfold mark_messages_read_batch. destruct ids as [|i ids]; [done|]. simpl. apply rebuild_wf.
    by apply (batch_frame tr now agent (chunks (Z.to_nat ReservationDb.MAX_IN_CLAUSE_ITEMS) (i :: ids)) d).
  - case_match; [|done]. by apply rebuild_wf, update_rows_wf.
  - unfold acknowledge_message. destruct (recipients _ !! (mid, agent)); simpl; [by apply rebuild_wf, update_rows_wf|done].
  - apply (wf_tables d); [done|done|by left|done].
Qed.

Lemma run_op_exact tr o d : wf d → exact d → wf (run_op tr o d) ∧ exact (run_op tr o d).
Proof.
  intros Hwf Hex. split; [by apply run_op_wf|].
  destruct o as [now m|env now m rs|now agent mid|now agent ids|now project agent|now agent mid|]; simpl.
  - intros a. simpl. rewrite Hex. apply aggregate_perm. symmetry.
    apply deliveries_local; [done|]. intros mid r Hr.
    apply (outside_messages [] d (insert_message (message_row now m None) d).2) with a;
      [by apply insert_message_frame|by intros ?%elem_of_nil|by eexists].
  - by apply send_exact.
  - unfold mark_message_read. destruct (recipients _ !! (mid, agent)); simpl; [|done].
    apply update_exact; [|done]. by intros k r ->%bool_decide_eq_true.
  - unfold mark_messages_read_batch. destruct ids as [|i ids]; [done|]. simpl.
    apply (exact_rebuild _ d); [done|].
    apply (batch_frame tr now agent (chunks (Z.to_nat ReservationDb.MAX_IN_CLAUSE_ITEMS) (i :: ids)) d).
  - case_match; [|done]. apply update_exact; [|done]. intros k r.
    unfold unread_in_project. rewrite !andb_true_iff, !bool_decide_eq_true. tauto.
  - unfold acknowledge_message. destruct (recipients _ !! (mid, agent)); simpl; [|done].
    apply update_exact; [|done]. by intros k r ->%bool_decide_eq_true.
  - intros a. by rewrite rebuild_all_lookup.
Qed.

Lemma run_ops_exact tr os d : wf d → exact d → wf (run_ops tr os d) ∧ exact (run_ops tr os d).
Proof.
  revert d. induction os as [|o os IH]; intros d Hwf Hex; [done|]. simpl.
  destruct (run_op_exact tr o d Hwf Hex). by apply IH.
Qed.

Lemma empty_wf names : wf (empty_db names).
Proof. split; [intros i [x Hx]|intros i a [x Hx]]; simpl in Hx; by rewrite lookup_empty in Hx. Qed.

Lemma empty_exact names : exact (empty_db names).
Proof. intros a. simpl. unfold deliveries. simpl. by rewrite lookup_empty, map_to_list_empty. Qed.

(** C22: The inbox counters are exact whatever triggers the database engine
    has.  After any sequence of sends (failed ones, undone ones and those whose
    clean-up fails included), reads, batches, acknowledgements and rebuilds
    from an empty store, the row of every agent holds the number of its
    deliveries, of those unread and of those whose acknowledgement is pending,
    and the time of the latest; and an agent has no row exactly when it has no
    delivery. *)
Theorem inbox_stats_exact tr names os a :
  let d := run_ops tr os (empty_db names) in
  get_inbox_stats a d = aggregate (deliveries a d).
Proof. apply run_ops_exact; [apply empty_wf|apply empty_exact]. Qed.

(** ** All or nothing *)

(** A draft is delivered: the message is new, its recipients are its own, and
    no other row changed. *)
Definition delivered (rs : list (Z * str)) (mid : Z) (row : MessageRow) (d d' : Db) : Prop :=
  messages d !! mid = None ∧ messages d' = <[mid := row]> (messages d) ∧
  ∀ i a, recipients d' !! (i, a) =
    if decide (i = mid ∧ a ∈ (fst <$> rs))
    then (λ k, {| kind := k; read_ts := None; ack_ts := None |}) <$> (list_to_map rs : gmap Z str) !! a
    else recipients d !! (i, a).

Lemma insert_recipient_ok tr mid a k d :
  is_Some (messages d !! mid) → recipients d !! (mid, a) = None →
  ∃ d', insert_recipient tr mid a k d = Ok d' ∧ messages d' = messages d ∧
    recipients d' = <[(mid, a) := {| kind := k; read_ts := None; ack_ts := None |}]> (recipients d).
Proof.
  intros [x Hx] Hn. unfold insert_recipient. rewrite Hn, Hx.
  destruct (on_insert tr) as [[|]|]; simpl; by eexists.
Qed.

(** Only a repeated recipient makes the inserts fail. *)
Lemma insert_recipients_ok tr mid rs d :
  is_Some (messages d !! mid) → NoDup (fst <$> rs) → (∀ a, a ∈ (fst <$> rs) → recipients d !! (mid, a) = None) →
  ∃ d', insert_recipients tr mid rs d = Ok d'.
Proof.
  revert d. induction rs as [|[a k] rs IH]; intros d Hm Hnd Hn; [by exists d|]. csimpl in *.
  apply NoDup_cons in Hnd as [Ha Hnd].
  destruct (insert_recipient_ok tr mid a k d Hm) as (d1 & -> & Hm1 & Hr1); [apply Hn; left|].
  apply IH; [by rewrite Hm1|done|]. intros b Hb. rewrite Hr1, lookup_insert_ne; [apply Hn; by right|].
  intros [= <-]. done.
Qed.

Lemma create_tx_spec tr now m rs d :
  wf d →
  let row := message_row now m (Some (recipients_json_of rs d)) in
  if decide (NoDup (fst <$> rs)) then
    ∃ d', create_message_with_recipients_tx tr now m rs d = (Ok (message_sequence d + 1, row), d') ∧
      delivered rs (message_sequence d + 1) row d d'
  else ∃ e, create_message_with_recipients_tx tr now m rs d = (Err e, d).
Proof.
  intros Hwf row. rewrite create_tx_unfold. cbv zeta. fold row. set (mid := message_sequence d + 1).
  assert (∀ a, recipients d !! (mid, a) = None) as Hnone.
  { intros a. destruct (recipients d !! (mid, a)) eqn:Hr; [|done].
    destruct (wf_recipient _ Hwf mid a (ex_intro _ _ Hr)) as [x Hx].
    by rewrite (insert_message_fresh d Hwf : messages d !! mid = None) in Hx. }
  destruct (insert_recipients tr mid rs _) as [d2|e] eqn:Hi.
  - apply insert_recipients_spec in Hi as (Hm & _ & _ & _ & Hnd & _ & Hr). rewrite decide_True by done.
    eexists. split; [done|]. destruct (rebuild_tables (fst <$> rs) d2) as (Htm & Htr & _).
    split_and!; [by apply insert_message_fresh|by rewrite Htm, Hm|]. intros i a. by rewrite Htr, Hr.
  - case_decide as Hnd; [|by exists e].
    destruct (insert_recipients_ok tr mid rs (insert_message row d).2) as [d2 Hd2]; [|done|done|by rewrite Hd2 in Hi].
    apply new_message_exists.
Qed.

(** The check after the commit passes on what was committed. *)
Lemma verify_delivered rs mid row d d' :
  wf d → NoDup (fst <$> rs) → delivered rs mid row d d' →
  verify_message_recipients_visible d' (project_id row) mid rs = Ok tt.
Proof.
  intros Hwf Hnd (Hfresh & Hm & Hr). unfold verify_message_recipients_visible.
  rewrite Hm, lookup_insert_eq, bool_decide_true by done. rewrite bool_decide_true; [done|].
  apply set_eq. intros [a k]. rewrite !elem_of_list_to_set, list_elem_of_omap. split.
  - intros ([[i b] r] & Hin%elem_of_map_to_list & Hk). case_decide as Hi; [|done]. injection Hk as -> <-.
    subst i. rewrite Hr in Hin. destruct (decide (a ∈ (fst <$> rs))) as [Ha|Ha].
    + rewrite decide_True in Hin by done. apply fmap_Some in Hin as (k & Hk & ->).
      by apply elem_of_list_to_map in Hk.
    + rewrite decide_False in Hin by tauto. destruct (wf_recipient _ Hwf mid a (ex_intro _ _ Hin)) as [x Hx]. congruence.
  - intros Hin. exists ((mid, a), {| kind := k; read_ts := None; ack_ts := None |}).
    split; [|by rewrite decide_True]. apply elem_of_map_to_list. rewrite Hr, decide_True.
    + by apply (elem_of_list_to_map (M := gmap Z)) in Hin as ->.
    + split; [done|]. apply list_elem_of_fmap. by exists (a, k).
Qed.

(** Undoing a delivery gives the tables back. *)
Lemma cleanup_delivered rs mid row agents d d' :
  wf d → delivered rs mid row d d' →
  messages (cleanup_committed_message (project_id row) mid agents d') = messages d ∧
  recipients (cleanup_committed_message (project_id row) mid agents d') = recipients d.
Proof.
  intros Hwf (Hfresh & Hm & Hr). unfold cleanup_committed_message.
  set (d2 := {| messages := _ |}). destruct (rebuild_tables (agents ++ omap (λ '(mid0, aid, _), if decide (mid0 = mid)
    then Some aid else None) (map_to_list (recipients d'))) d2) as (-> & -> & _). simpl. rewrite Hm. split.
  - apply map_eq. intros i. apply option_eq. intros x. rewrite map_lookup_filter_Some. simpl.
    destruct (decide (i = mid)) as [->|Hi].
    + rewrite lookup_insert_eq, Hfresh. naive_solver.
    + rewrite lookup_insert_ne by done. naive_solver.
  - apply map_eq. intros [i a]. apply option_eq. intros x. rewrite map_lookup_filter_Some, Hr. simpl.
    destruct (decide (i = mid)) as [->|Hi].
    + split; [by intros [_ ?]|]. intros Hx. destruct (wf_recipient _ Hwf mid a (ex_intro _ _ Hx)). congruence.
    + rewrite decide_False by tauto. naive_solver.
Qed.

(** What a success means. *)
Lemma send_ok tr env now m rs d mid row d' :
  wf d → create_message_with_recipients tr env now m rs d = (Ok (mid, row), d') →
  NoDup (fst <$> rs) ∧ delivered rs mid row d d'.
Proof.
  intros Hwf. pose proof (create_tx_spec tr now m rs d Hwf) as Htx. cbv zeta in Htx.
  unfold create_message_with_recipients. case_decide as Hnd; [|by destruct Htx as [e ->]].
  destruct Htx as (d1 & -> & Hdel).
  destruct (match probe env d1 with Ok _ => _ | Err _ => _ end); [|by destruct (cleanup_fails env)].
  by intros [= <- <- <-].
Qed.

(** What a failure means: nothing is left of the message, or the clean-up of a
    commit that could not be seen failed, and the message is delivered. *)
Definition cleanup_failed : DbError := Internal (lit "post-commit recipient visibility failed; cleanup failed").

Lemma send_failed tr env now m rs d e d' :
  wf d → create_message_with_recipients tr env now m rs d = (Err e, d') →
  messages d' = messages d ∧ recipients d' = recipients d ∨
  cleanup_fails env ≠ None ∧ e = cleanup_failed ∧ NoDup (fst <$> rs) ∧
  ∃ mid, delivered rs mid (message_row now m (Some (recipients_json_of rs d))) d d'.
Proof.
  intros Hwf. pose proof (create_tx_spec tr now m rs d Hwf) as Htx. cbv zeta in Htx.
  unfold create_message_with_recipients. case_decide as Hnd.
  2:{ destruct Htx as [e0 ->]. intros [= <- <-]. by left. }
  destruct Htx as (d1 & -> & Hdel). set (row := message_row _ _ _) in *.
  destruct (match probe env d1 with Ok _ => _ | Err _ => _ end) as [[]|e0]; [done|].
  destruct (cleanup_fails env); intros [= <- <-]; [right; split_and!; [done..|by eexists]|left].
  by apply (cleanup_delivered rs _ row (fst <$> rs) d d1 Hwf Hdel).
Qed.

(** C24: A message is delivered to all its recipients or to none.  When
    sending succeeds, the key of the message was never used, its row is the
    draft with the clock's time, each recipient has one unread row of its kind
    and no other row changed.  When sending fails, messages, recipients and
    counters are what they were, unless the clean-up failed too.  And with a
    connection that sees what was committed it succeeds exactly when no
    recipient is repeated. *)
Theorem send_all_or_nothing tr env now m rs d :
  wf d → exact d →
  match create_message_with_recipients tr env now m rs d with
  | (Ok (mid, row), d') =>
      row = message_row now m (Some (recipients_json_of rs d)) ∧ NoDup (fst <$> rs) ∧ delivered rs mid row d d'
  | (Err _, d') =>
      cleanup_fails env = None →
      messages d' = messages d ∧ recipients d' = recipients d ∧ ∀ a, get_inbox_stats a d' = get_inbox_stats a d
  end ∧
  ((∀ d', probe env d' = Ok d') →
   (∃ x d', create_message_with_recipients tr env now m rs d = (Ok x, d')) ↔ NoDup (fst <$> rs)).
Proof.
  intros Hwf Hex. pose proof (create_tx_spec tr now m rs d Hwf) as Htx. cbv zeta in Htx.
  pose proof (send_exact tr env now m rs d Hwf Hex) as Hex'. revert Hex'.
  unfold create_message_with_recipients. case_decide as Hnd.
  2:{ destruct Htx as [e ->]. split; [done|]. intros _. split; [by intros (x & d' & [=])|done]. }
  destruct Htx as (d1 & -> & Hdel). set (row := message_row _ _ _) in *.
  pose proof (verify_delivered rs _ row d d1 Hwf Hnd Hdel) as Hver.
  intros Hex'. split.
  - revert Hex'. destruct (match probe env d1 with Ok _ => _ | Err _ => _ end) as [[]|e]; [done|].
    destruct (cleanup_fails env); simpl; [done|]. intros Hex' _.
    destruct (cleanup_delivered rs _ row (fst <$> rs) d d1 Hwf Hdel) as [Hm Hr].
    change (project_id row) with (draft_project m) in Hm, Hr.
    split_and!; [done|done|]. intros a. unfold get_inbox_stats. rewrite Hex, Hex'.
    by rewrite (deliveries_tables a d _ Hm Hr).
  - intros Hp. rewrite Hp. split; [done|]. intros _. change (draft_project m) with (project_id row).
    rewrite Hver. by eexists _, _.
Qed.

(** ** Receipts *)

(** A row only gains receipts. *)
Definition receipt_le (r r' : MessageRecipientRow) : Prop :=
  kind r' = kind r ∧ (∀ t, read_ts r = Some t → read_ts r' = Some t) ∧ (∀ t, ack_ts r = Some t → ack_ts r' = Some t).

#[export] Instance receipt_le_preorder : PreOrder receipt_le.
Proof.
  split; [done|]. intros x y z (Hk1 & Hr1 & Ha1) (Hk2 & Hr2 & Ha2). split_and!; [congruence| |]; naive_solver.
Qed.

(** Acknowledged is read, and read is acknowledged where that was asked. *)
Definition receipt_ok (d : Db) (i : Z) (r : MessageRecipientRow) : Prop :=
  (ack_ts r ≠ None → read_ts r ≠ None) ∧
  (ack_required <$> messages d !! i = Some 1 → read_ts r ≠ None → ack_ts r ≠ None).

Record receipts (d d' : Db) : Prop := {
  receipts_keep k r : recipients d !! k = Some r → ∃ r', recipients d' !! k = Some r' ∧ receipt_le r r';
  receipts_ok :
    (∀ i a r, recipients d !! (i, a) = Some r → receipt_ok d i r) →
    ∀ i a r, recipients d' !! (i, a) = Some r → receipt_ok d' i r;
}.

Lemma receipts_refl d : receipts d d.
Proof. split; [|done]. intros k r Hr. by exists r. Qed.

Lemma receipts_trans d1 d2 d3 : receipts d1 d2 → receipts d2 d3 → receipts d1 d3.
Proof.
  intros [Hk1 Ho1] [Hk2 Ho2]. split; [|intros Hok; by apply Ho2, Ho1].
  intros k r Hr. destruct (Hk1 k r Hr) as (r2 & Hr2 & Hle2). destruct (Hk2 k r2 Hr2) as (r3 & Hr3 & Hle3).
  exists r3. split; [done|]. by etransitivity.
Qed.

Lemma receipts_tables d d' : messages d' = messages d → recipients d' = recipients d → receipts d d'.
Proof.
  intros Hm Hr. split; unfold receipt_ok; rewrite Hr, ?Hm; [intros k r Hk; by exists r|done].
Qed.

Lemma receipts_rebuild ids d d' : receipts d d' → receipts d (rebuild_agents_inbox_stats_in_tx ids d').
Proof.
  intros Hr. eapply receipts_trans; [done|]. destruct (rebuild_tables ids d') as (? & ? & _). by apply receipts_tables.
Qed.

Lemma receipts_update tr sel f d :
  (∀ k r, recipients d !! k = Some r → sel k r = true → receipt_le r (f k r) ∧ receipt_ok d k.1 (f k r)) →
  receipts d (update_rows tr sel f d).
Proof.
  intros Hf. split.
  - intros k r Hr. rewrite update_rows_lookup, Hr. simpl. eexists. split; [done|].
    destruct (sel k r) eqn:Hs; [by apply Hf|done].
  - intros Hok i a r'. rewrite update_rows_lookup. intros (r & Hr & ->)%fmap_Some.
    destruct (sel (i, a) r) eqn:Hs; [by apply (Hf (i, a))|by eapply Hok].
Qed.

Lemma mark_read_receipt now d k r : receipt_le r (mark_read now d k r) ∧ receipt_ok d k.1 (mark_read now d k r).
Proof.
  unfold receipt_le, receipt_ok, mark_read. simpl. split_and!; [done|by intros t ->|by intros t ->|done|].
  intros -> _. by destruct (ack_ts r).
Qed.

Lemma acknowledge_receipt now d k r : receipt_le r (acknowledge now k r) ∧ receipt_ok d k.1 (acknowledge now k r).
Proof. unfold receipt_le, receipt_ok, acknowledge. simpl. split_and!; [done|by intros t ->|by intros t ->|done|done]. Qed.

Lemma receipts_delivered rs mid row d d' : wf d → delivered rs mid row d d' → receipts d d'.
Proof.
  intros Hwf (Hfresh & Hm & Hr). split.
  - intros [i a] r Hk. exists r. split; [|done]. rewrite Hr, decide_False; [done|].
    intros [-> _]. destruct (wf_recipient _ Hwf mid a (ex_intro _ _ Hk)). congruence.
  - intros Hok i a r. rewrite Hr. case_decide as Hi.
    + intros (k & _ & ->)%fmap_Some. done.
    + intros Hk. unfold receipt_ok. rewrite Hm, lookup_insert_ne; [by eapply Hok|].
      intros ->. destruct (wf_recipient _ Hwf i a (ex_intro _ _ Hk)). congruence.
Qed.

Lemma receipts_batch tr now agent cs d : receipts d (foldl (mark_chunk tr now agent) d cs).
Proof.
  revert d. induction cs as [|c cs IH]; intros d; [apply receipts_refl|].
  eapply receipts_trans; [|apply IH]. apply receipts_update. intros; apply mark_read_receipt.
Qed.

Lemma run_op_receipts tr o d : wf d → exact d → receipts d (run_op tr o d).
Proof.
  intros Hwf Hex. destruct o as [now m|env now m rs|now agent mid|now agent ids|now project agent|now agent mid|]; simpl.
  - eapply (receipts_delivered [] (message_sequence d + 1)); [done|]. split_and!;
      [by apply insert_message_fresh|done|]. intros i a. by rewrite decide_False by (intros [_ Ha]; by apply elem_of_nil in Ha).
  - pose proof (create_tx_spec tr now m rs d Hwf) as Htx. cbv zeta in Htx. unfold create_message_with_recipients.
    case_decide; [|destruct Htx as [e ->]; apply receipts_refl]. destruct Htx as (d1 & -> & Hdel).
    pose proof (receipts_delivered _ _ _ _ _ Hwf Hdel) as Hrec.
    destruct (match probe env d1 with Ok _ => _ | Err _ => _ end); [done|]. destruct (cleanup_fails env); [done|].
    destruct (cleanup_delivered rs _ _ (fst <$> rs) d d1 Hwf Hdel) as [Hm Hr]. by apply receipts_tables.
  - unfold mark_message_read. destruct (recipients _ !! (mid, agent)); [|apply receipts_refl].
    apply receipts_rebuild, receipts_update. intros; apply mark_read_receipt.
  - unfold mark_messages_read_batch. destruct ids as [|i ids]; [apply receipts_refl|]. apply receipts_rebuild, receipts_batch.
  - case_match; [|apply receipts_refl]. apply receipts_rebuild, receipts_update. intros; apply mark_read_receipt.
  - unfold acknowledge_message. destruct (recipients _ !! (mid, agent)); [|apply receipts_refl].
    apply receipts_rebuild, receipts_update. intros; apply acknowledge_receipt.
  - by apply receipts_tables.
Qed.

Lemma run_ops_receipts tr os d : wf d → exact d → receipts d (run_ops tr os d).
Proof.
  revert d. induction os as [|o os IH]; intros d Hwf Hex; [apply receipts_refl|]. simpl.
  destruct (run_op_exact tr o d Hwf Hex). eapply receipts_trans; [by apply run_op_receipts|by apply IH].
Qed.

Lemma run_ops_app tr os1 os2 d : run_ops tr (os1 ++ os2) d = run_ops tr os2 (run_ops tr os1 d).
Proof. apply foldl_app. Qed.

(** Receipts are kept and consistent.  Once delivered a row never goes
    away: its kind, and its read and acknowledgement times once set, stay the
    same under every operation, so the first reading counts.  In a store that
    began empty what is acknowledged is read, and what is read is acknowledged
    where the message asked for it. *)
Theorem receipts_stick tr names os1 os2 i a r :
  let d := run_ops tr os1 (empty_db names) in
  recipients d !! (i, a) = Some r →
  (∃ r', recipients (run_ops tr (os1 ++ os2) (empty_db names)) !! (i, a) = Some r' ∧ receipt_le r r') ∧
  (ack_ts r ≠ None → read_ts r ≠ None) ∧
  (ack_required <$> messages d !! i = Some 1 → read_ts r ≠ None → ack_ts r ≠ None).
Proof.
  intros d Hr. destruct (run_ops_exact tr os1 _ (empty_wf names) (empty_exact names)) as [Hwf Hex]. split.
  - rewrite run_ops_app. by apply (receipts_keep _ _ (run_ops_receipts tr os2 _ Hwf Hex)).
  - eapply (receipts_ok _ _ (run_ops_receipts tr os1 _ (empty_wf names) (empty_exact names))); [|exact Hr].
    intros ? ? ? Hk. simpl in Hk. by rewrite lookup_empty in Hk.
Qed.

(** What waits for an acknowledgement has not been read. *)
Lemma unacked_unread tr names os project agent limit rows :
  let d := run_ops tr os (empty_db names) in
  fetch_unacked_for_agent project agent limit d = Ok rows →
  Forall (λ row, read_ts (recipient row) = None) rows.
Proof.
  intros d. unfold fetch_unacked_for_agent. destruct (limit <=? i64_max); [|done]. intros [= <-].
  apply Forall_take, Forall_forall. intros row Hrow.
  rewrite merge_sort_Permutation in Hrow. apply list_elem_of_filter in Hrow as [Hf Hrow].
  unfold inbox_join in Hrow. apply list_elem_of_omap in Hrow as ([[i a] r] & Hk%elem_of_map_to_list & Hb).
  destruct (messages d !! i) as [m|] eqn:Hm; [|done]. simpl in Hb. destruct (agent_names d !! _); [|done].
  simpl in Hb. case_bool_decide; [|done]. injection Hb as <-. simpl in *.
  destruct (read_ts r) as [t|] eqn:Ht; [|done]. exfalso.
  apply andb_true_iff in Hf as [Hf1%bool_decide_eq_true Hf2%bool_decide_eq_true].
  assert (receipt_ok d i r) as [_ Hok]; [|apply Hok; [by rewrite Hm; simpl; rewrite Hf1|congruence|done]].
  eapply (receipts_ok _ _ (run_ops_receipts tr os _ (empty_wf names) (empty_exact names))); [|exact Hk].
  intros ? ? ? Hk'. simpl in Hk'. by rewrite lookup_empty in Hk'.
Qed.

(** ** What the queries return *)

Definition in_inbox (project agent : Z) (d : Db) (row : InboxRow) : Prop :=
  recipients d !! (message_id row, agent) = Some (recipient row) ∧
  messages d !! message_id row = Some (message row) ∧ project_id (message row) = project ∧
  agent_names d !! sender_id (message row) = Some (sender_name row).

Lemma elem_of_inbox_join project agent d row : row ∈ inbox_join project agent d ↔ in_inbox project agent d row.
Proof.
  unfold inbox_join, in_inbox. rewrite list_elem_of_omap. split.
  - intros ([[i a] r] & Hk%elem_of_map_to_list & Hb).
    destruct (messages d !! i) as [m|] eqn:Hm; [|done]. simpl in Hb.
    destruct (agent_names d !! sender_id m) eqn:Hs; [|done]. simpl in Hb.
    case_bool_decide as Hc; [|done]. destruct Hc as [-> Hp]. by injection Hb as <-.
  - intros (Hr & Hm & Hp & Hs). exists ((message_id row, agent), recipient row).
    split; [by apply elem_of_map_to_list|]. rewrite Hm. simpl. rewrite Hs. simpl.
    rewrite bool_decide_true by done. by destruct row.
Qed.

Lemma inbox_join_nodup project agent d : NoDup (inbox_join project agent d).
Proof.
  unfold inbox_join. pose proof (NoDup_fst_map_to_list (recipients d)) as Hnd. revert Hnd.
  generalize (map_to_list (recipients d)) as l. induction l as [|[[i a] r] l IH]; [intros _; apply NoDup_nil_2|].
  rewrite fmap_cons. intros [Hn Hnd]%NoDup_cons. csimpl. specialize (IH Hnd).
  destruct (messages d !! i) as [m|]; [|done]. simpl. destruct (agent_names d !! _); [|done]. simpl.
  case_bool_decide as Hc; [|done]. destruct Hc as [-> _]. apply NoDup_cons. split; [|done].
  intros ([[j b] r'] & Hk & Hb)%list_elem_of_omap. destruct (messages d !! j); [|done]. simpl in Hb.
  destruct (agent_names d !! _); [|done]. simpl in Hb. case_bool_decide as Hc; [|done]. destruct Hc as [-> _].
  injection Hb as <- _ _ _. apply Hn, list_elem_of_fmap. eexists. by split; [|exact Hk].
Qed.

#[export] Instance newest_first_trans : Transitive newest_first.
Proof. intros x y z. unfold newest_first. lia. Qed.
#[export] Instance newest_first_total : Total newest_first.
Proof. intros x y. unfold newest_first. lia. Qed.

(** Cutting a sorted list keeps the front. *)
Lemma take_sorted {A} (R : relation A) `{∀ x y, Decision (R x y)} `{!Transitive R, !Total R} (l : list A) n :
  let r := take n (merge_sort R l) in
  StronglySorted R r ∧ (length r ≤ n)%nat ∧ (NoDup l → NoDup r) ∧ (∀ x, x ∈ r → x ∈ l) ∧
  ∀ x, x ∈ l → x ∈ r ∨ length r = n ∧ ∀ y, y ∈ r → R y x.
Proof.
  intros r. pose proof (StronglySorted_merge_sort R l) as Hs. pose proof (merge_sort_Permutation R l) as Hp.
  rewrite <-(take_drop n (merge_sort R l)) in Hs, Hp. fold r in Hs, Hp.
  split_and!.
  - by eapply StronglySorted_app_1_l.
  - unfold r. rewrite length_take. lia.
  - intros Hnd. rewrite <-Hp in Hnd. by apply NoDup_app in Hnd as [? _].
  - intros x Hx. rewrite <-Hp. apply elem_of_app. by left.
  - intros x Hx. rewrite <-Hp in Hx. apply elem_of_app in Hx as [Hx|Hx]; [by left|]. right. split.
    + unfold r. rewrite length_take. apply list_elem_of_lookup_1 in Hx as [j Hj].
      apply lookup_lt_Some in Hj. rewrite length_drop in Hj. lia.
    + intros y Hy. by eapply StronglySorted_app_1_elem_of.
Qed.

(** What an inbox query returns, for every combination of its filters.
    The rows are in order of time, newest first, each once, at most as many as
    the limit; every row is a delivery to the agent in the project that passes
    the filters; and a delivery that passes and is missing was cut by the
    limit, being no newer than anything returned.  A limit beyond the database
    integers is an error. *)
Theorem fetch_inbox_rows_spec project agent urgent unread ack since limit d :
  0 ≤ limit →
  match fetch_inbox_rows project agent urgent unread ack since limit d with
  | Err e => i64_max < limit ∧ e = limit_error
  | Ok rows =>
      limit ≤ i64_max ∧ StronglySorted newest_first rows ∧ NoDup rows ∧ Z.of_nat (length rows) ≤ limit ∧
      (∀ row, row ∈ rows → in_inbox project agent d row ∧ inbox_filter urgent unread ack since row = true) ∧
      ∀ row, in_inbox project agent d row → inbox_filter urgent unread ack since row = true →
        row ∈ rows ∨ Z.of_nat (length rows) = limit ∧ ∀ other, other ∈ rows → newest_first other row
  end.
Proof.
  intros Hl. unfold fetch_inbox_rows. destruct (Z.leb_spec limit i64_max); [|done].
  set (l := filter _ _). destruct (take_sorted newest_first l (Z.to_nat limit)) as (Hs & Hlen & Hnd & Hin & Hcut).
  split_and!; [done|done| |lia| |].
  - apply Hnd, NoDup_filter, inbox_join_nodup.
  - intros row Hr%Hin. apply list_elem_of_filter in Hr as [Hf Hr]. by apply elem_of_inbox_join in Hr.
  - intros row Hr Hf. destruct (Hcut row) as [|[Hc Ho]]; [|by left|right; split; [lia|done]].
    apply list_elem_of_filter. split; [done|]. by apply elem_of_inbox_join.
Qed.

(** Mail between two agents in a project since a time. *)
Definition mail_since (project since : Z) (d : Db) (from to : Z) : Prop :=
  ∃ i m, messages d !! i = Some m ∧ project_id m = project ∧ sender_id m = from ∧ since < created_ts m ∧
    is_Some (recipients d !! (i, to)).

Lemma recent_contact_rows_spec project sender since chunk d x :
  x ∈ recent_contact_rows project sender since chunk d ↔
  x ∈ chunk ∧ (mail_since project since d sender x ∨ mail_since project since d x sender).
Proof.
  unfold recent_contact_rows, mail_since. rewrite elem_of_app, !list_elem_of_omap. split.
  - intros [([[i a] r] & Hk%elem_of_map_to_list & Hb)|([[i a] r] & Hk%elem_of_map_to_list & Hb)];
      (destruct (messages d !! i) as [m|] eqn:Hm; [|done]); simpl in Hb; (case_bool_decide as Hc; [|done]);
      injection Hb as <-; destruct Hc as (Hp & Hs & Ht & Hc); (split; [done|]); [left|right]; exists i, m.
    + split_and!; (done || by eexists).
    + subst a. split_and!; (done || by eexists).
  - intros [Hc [(i & m & Hm & Hp & Hs & Ht & [r Hr])|(i & m & Hm & Hp & Hs & Ht & [r Hr])]]; [left|right].
    + exists ((i, x), r). split; [by apply elem_of_map_to_list|]. rewrite Hm. simpl. by rewrite bool_decide_true.
    + exists ((i, sender), r). split; [by apply elem_of_map_to_list|]. rewrite Hm. simpl.
      rewrite bool_decide_true by (by rewrite Hs). by rewrite Hs.
Qed.

Lemma elem_of_recent_contacts project sender cs since d x :
  x ∈ list_recent_contact_agent_ids project sender cs since d ↔
  x ∈ cs ∧ (mail_since project since d sender x ∨ mail_since project since d x sender).
Proof.
  unfold list_recent_contact_agent_ids. rewrite elem_of_dedup, merge_sort_Permutation, list_elem_of_bind.
  setoid_rewrite recent_contact_rows_spec. rewrite (chunks_elem (Z.to_nat ReservationDb.MAX_IN_CLAUSE_ITEMS) cs x limit_pos).
  naive_solver.
Qed.

(** Recent contact is mutual.  Among the candidates exactly those are
    returned who were sent mail by the agent, or sent it mail, in the project
    after the given time, in increasing order; so of two agents either both
    find each other or neither does. *)
Theorem recent_contacts_mutual project since d a b ca cb :
  StronglySorted Z.lt (list_recent_contact_agent_ids project a ca since d) ∧
  (b ∈ list_recent_contact_agent_ids project a ca since d ↔
    b ∈ ca ∧ (mail_since project since d a b ∨ mail_since project since d b a)) ∧
  (b ∈ ca → a ∈ cb →
    b ∈ list_recent_contact_agent_ids project a ca since d ↔ a ∈ list_recent_contact_agent_ids project b cb since d).
Proof.
  split_and!.
  - apply (dedup_sorted Z.le Z.lt); [intros; lia|]. apply StronglySorted_merge_sort; apply _.
  - apply elem_of_recent_contacts.
  - intros Hb Ha. rewrite !elem_of_recent_contacts. naive_solver.
Qed.

#[export] Instance thread_order_trans : Transitive thread_order.
Proof. intros x y z. unfold thread_order. lia. Qed.
#[export] Instance thread_order_total : Total thread_order.
Proof. intros x y. unfold thread_order. lia. Qed.

Lemma elem_of_thread_rows project thread d mid m s :
  (mid, m, s) ∈ thread_rows project thread d ↔
  messages d !! mid = Some m ∧ agent_names d !! sender_id m = Some s ∧ in_thread project thread mid m = true.
Proof.
  unfold thread_rows. rewrite list_elem_of_omap. split.
  - intros ([i x] & Hk%elem_of_map_to_list & Hb). destruct (agent_names d !! _) eqn:Hs; [|done]. simpl in Hb.
    destruct (in_thread project thread i x) eqn:Ht; [|done]. by injection Hb as <- <- <-.
  - intros (Hm & Hs & Ht). exists (mid, m). split; [by apply elem_of_map_to_list|]. rewrite Hs. simpl. by rewrite Ht.
Qed.

Lemma take_reverse {A} n (l : list A) : reverse (take n (reverse l)) = drop (length l - n) l.
Proof.
  unfold reverse. rewrite <-!rev_alt, firstn_rev, rev_involutive. done.
Qed.

Lemma sort_flip {A} (R : relation A) `{∀ x y, Decision (R x y)} `{!Transitive R, !Total R} (l : list A) :
  (∀ x y, x ∈ l → y ∈ l → R x y → R y x → x = y) → merge_sort (flip R) l = reverse (merge_sort R l).
Proof.
  intros Ha. assert (StronglySorted (flip R) (reverse (merge_sort R l))) as Hrev.
  { pose proof (StronglySorted_merge_sort R l) as Hs. revert Hs. generalize (merge_sort R l) as k.
    induction k as [|x k IH]; [constructor|]. intros [Hx Hk]%StronglySorted_cons. rewrite reverse_cons.
    apply StronglySorted_app_2; [|by apply IH|repeat constructor].
    intros y z Hy ->%list_elem_of_singleton. rewrite Forall_forall in Hx. apply Hx. by rewrite <-elem_of_reverse. }
  apply (StronglySorted_unique_strong (flip R)); [|apply StronglySorted_merge_sort|done|].
  - intros x y Hx Hy. rewrite merge_sort_Permutation in Hx. rewrite elem_of_reverse, merge_sort_Permutation in Hy.
    intros H1 H2. by apply Ha.
  - intros x y z Hxy Hyz. unfold flip in *. by trans y.
  - intros x y. unfold flip. destruct (total R x y); tauto.
  - rewrite reverse_Permutation, !merge_sort_Permutation. done.
Qed.

(** A thread without a limit is its messages in the order of time and
    key; and with a limit it is the end of that list: the query that selects
    the newest messages in descending order and reverses them agrees with the
    plain one. *)
Theorem thread_limit_is_suffix project thread lim d :
  lim ≤ i64_max →
  ∃ all, list_thread_messages project thread None d = Ok all ∧ StronglySorted thread_order all ∧
    (∀ mid m s, (mid, m, s) ∈ all ↔
       messages d !! mid = Some m ∧ agent_names d !! sender_id m = Some s ∧ in_thread project thread mid m = true) ∧
    list_thread_messages project thread (Some lim) d = Ok (drop (length all - Z.to_nat lim) all).
Proof.
  intros Hl. eexists. split; [done|]. split_and!.
  - apply StronglySorted_merge_sort; apply _.
  - intros mid m s. rewrite merge_sort_Permutation. apply elem_of_thread_rows.
  - unfold list_thread_messages. rewrite (proj2 (Z.leb_le _ _) Hl), sort_flip, take_reverse; [done|apply _|apply _|].
    intros [[i x] s] [[j y] t] (Hx & Hs & _)%elem_of_thread_rows (Hy & Ht & _)%elem_of_thread_rows.
    unfold thread_order. simpl. intros ? ?. assert (i = j) as -> by lia. congruence.
Qed.

(** ** Well-formed stores *)

(** The rows as the schema means them: keys drawn from the sequence, flags of
    0 or 1, and no orphan recipients. *)
Record typed (d : Db) : Prop := {
  typed_sequence : 0 ≤ message_sequence d;
  typed_message i x : messages d !! i = Some x →
    0 < i ≤ message_sequence d ∧ (ack_required x = 0 ∨ ack_required x = 1);
  typed_recipient i a r : recipients d !! (i, a) = Some r → is_Some (messages d !! i);
}.

(** Counters that no trigger has driven below zero or above the total. *)
Definition counters_bounded (d : Db) : Prop := ∀ a s,
  inbox_stats d !! a = Some s →
  0 < total_count s ∧ 0 ≤ unread_count s ≤ total_count s ∧ 0 ≤ ack_pending_count s ≤ total_count s ∧
  is_Some (last_message_ts s).

Lemma aggregate_bounds l s :
  aggregate l = Some s →
  0 < total_count s ∧ 0 ≤ unread_count s ≤ total_count s ∧ 0 ≤ ack_pending_count s ≤ total_count s ∧
  is_Some (last_message_ts s).
Proof.
  unfold aggregate. destruct l as [|x l]; [done|]. intros [= <-]. cbn [total_count unread_count ack_pending_count last_message_ts].
  pose proof (length_filter (λ rm, is_unread rm = true) (x :: l)) as Hu.
  pose proof (length_filter (λ rm, is_ack_pending rm = true) (x :: l)) as Ha.
  simpl length in *. split_and!; try lia. by eexists.
Qed.

(** What only changes rows of other tables keeps the messages. *)
Definition stored (d : Db) : gmap Z MessageRow * Z := (messages d, message_sequence d).

Lemma rebuild_kept ids d : stored (rebuild_agents_inbox_stats_in_tx ids d) = stored d.
Proof. unfold stored. destruct (rebuild_tables ids d) as (-> & _ & -> & _). done. Qed.

Lemma kept_messages (d d' : Db) (P : Z → MessageRow → Prop) :
  stored d' = stored d →
  message_sequence d ≤ message_sequence d' ∧ ∀ i x, messages d' !! i = Some x → messages d !! i = Some x ∨ P i x.
Proof. unfold stored. intros [= -> ->]. split; [done|by left]. Qed.

Lemma flag_ok now m json : ack_required (message_row now m json) = 0 ∨ ack_required (message_row now m json) = 1.
Proof. simpl. destruct (draft_ack m); [by right|by left]. Qed.

(** Where the messages of a later store come from. *)
Lemma run_op_messages tr o d :
  wf d →
  message_sequence d ≤ message_sequence (run_op tr o d) ∧
  ∀ i x, messages (run_op tr o d) !! i = Some x →
    messages d !! i = Some x ∨
    (i = message_sequence d + 1 ∧ i ≤ message_sequence (run_op tr o d) ∧ (ack_required x = 0 ∨ ack_required x = 1)).
Proof.
  intros Hwf. destruct o as [now m|env now m rs|now agent mid|now agent ids|now project agent|now agent mid|]; simpl.
  - split; [lia|]. intros i x [[<- <-]|[_ ?]]%lookup_insert_Some; [right|by left]. split_and!; [done|lia|apply flag_ok].
  - pose proof (create_tx_spec tr now m rs d Hwf) as Htx. cbv zeta in Htx. unfold create_message_with_recipients.
    case_decide as Hnd; [|destruct Htx as [e ->]; split; [done|by left]].
    destruct Htx as (d1 & Heq & Hdel). rewrite Heq.
    assert (message_sequence d1 = message_sequence d + 1) as Hseq.
    { rewrite create_tx_unfold in Heq. cbv zeta in Heq. destruct (insert_recipients _ _ _ _) as [d2|e] eqn:Hi; [|done].
      injection Heq as <-. destruct (rebuild_tables (fst <$> rs) d2) as (_ & _ & -> & _).
      apply insert_recipients_spec in Hi as (_ & -> & _). done. }
    destruct (match probe env d1 with Ok _ => _ | Err _ => _ end); [|destruct (cleanup_fails env)]; simpl.
    1-2: split; [lia|]; destruct Hdel as (_ & Hm & _); intros i x; rewrite Hm;
      (intros [[<- <-]|[_ ?]]%lookup_insert_Some; [right|by left]); split_and!; [done|lia|apply flag_ok].
    destruct (cleanup_delivered rs _ _ (fst <$> rs) d d1 Hwf Hdel) as [Hm _]. simpl in Hm. rewrite Hm.
    unfold cleanup_committed_message. split; [|by left].
    match goal with |- _ ≤ message_sequence (rebuild_agents_inbox_stats_in_tx ?l ?d2) =>
      destruct (rebuild_tables l d2) as (_ & _ & -> & _) end. simpl. lia.
  - apply kept_messages. unfold mark_message_read. by destruct (recipients _ !! (mid, agent)); rewrite ?rebuild_kept.
  - apply kept_messages. unfold mark_messages_read_batch. destruct ids as [|i ids]; [done|]. simpl fst. cbn [snd].
    rewrite rebuild_kept. generalize (chunks (Z.to_nat ReservationDb.MAX_IN_CLAUSE_ITEMS) (i :: ids)) as cs. clear.
    intros cs. revert d. induction cs as [|c cs IH]; intros d; [done|]. apply (IH (mark_chunk tr now agent d c)).
  - apply kept_messages. unfold mark_all_messages_read_in_project. cbn [snd]. by case_match; rewrite ?rebuild_kept.
  - apply kept_messages. unfold acknowledge_message. by destruct (recipients _ !! (mid, agent)); rewrite ?rebuild_kept.
  - by apply kept_messages.
Qed.

(** The operations together with the one that adds recipients to a message;
    it checks nothing and leaves the counters to the triggers. *)
Inductive StoreOp := Listed (o : Op) | AddRecipients (message : Z) (rs : list (Z * str)).

Definition run_store_op (tr : Triggers) (o : StoreOp) (d : Db) : Db :=
  match o with
  | Listed o => run_op tr o d
  | AddRecipients message rs => (add_recipients tr message rs d).2
  end.

Definition run_store (tr : Triggers) (os : list StoreOp) (d : Db) : Db := foldl (λ d o, run_store_op tr o d) d os.

(** Recipients are only added to messages that are there. *)
Fixpoint known_messages (tr : Triggers) (os : list StoreOp) (d : Db) : Prop :=
  match os with
  | [] => True
  | o :: os =>
      match o with AddRecipients message _ => is_Some (messages d !! message) | Listed _ => True end ∧
      known_messages tr os (run_store_op tr o d)
  end.

Definition is_listed (o : StoreOp) : Prop := match o with Listed _ => True | AddRecipients _ _ => False end.

Lemma store_op_typed tr o d :
  match o with AddRecipients message _ => is_Some (messages d !! message) | Listed _ => True end →
  wf d ∧ typed d → wf (run_store_op tr o d) ∧ typed (run_store_op tr o d).
Proof.
  intros Hm [Hwf Ht]. destruct o as [o|mid rs]; simpl.
  - destruct (run_op_messages tr o d Hwf) as [Hseq Hms]. pose proof (typed_sequence d Ht).
    split; [by apply run_op_wf|]. split; [lia| |].
    + intros i x [Hx|(-> & Hle & Hx)]%Hms; [|split; [lia|done]].
      destruct (typed_message d Ht i x Hx) as [Hi Hflag]. split; [lia|done].
    + intros i a r Hr. eapply wf_recipient; [by apply run_op_wf|by eexists].
  - unfold add_recipients. destruct (insert_recipients tr mid rs d) as [d'|e] eqn:Hi; [|done].
    assert (wf d') as Hwf' by by eapply insert_recipients_wf.
    apply insert_recipients_spec in Hi as (Hms & Hs & _). split; [done|]. split; simpl.
    + rewrite Hs. apply (typed_sequence _ Ht).
    + rewrite Hms, Hs. apply (typed_message _ Ht).
    + intros i a r Hr. eapply wf_recipient; [done|by eexists].
Qed.

Lemma store_ops_typed tr os d :
  known_messages tr os d → wf d ∧ typed d → wf (run_store tr os d) ∧ typed (run_store tr os d).
Proof.
  revert d. induction os as [|o os IH]; intros d; simpl; [done|]. intros [Ho Hos] Hd.
  by apply IH, store_op_typed.
Qed.

Lemma listed_ops tr os d :
  Forall is_listed os → wf d → exact d → exact (run_store tr os d).
Proof.
  intros Hl. revert d. induction Hl as [|[o|] os Ho _ IH]; intros d Hwf Hex; simpl; [done| |done].
  destruct (run_op_exact tr o d Hwf Hex). by apply IH.
Qed.

(** C40: Every store is well formed.  After any sequence of sends (undone ones
    included), reads, batches, acknowledgements, rebuilds and additions of
    recipients to messages that are there, from an empty store, each message
    has a positive key that the sequence has passed and a flag of 0 or 1, and
    each recipient row belongs to a message; and where no recipients were added
    afterwards, the counters of an inbox lie between zero and its total, which
    is not zero. *)
Theorem store_well_formed tr names os :
  known_messages tr os (empty_db names) →
  typed (run_store tr os (empty_db names)) ∧
  (Forall is_listed os → counters_bounded (run_store tr os (empty_db names))).
Proof.
  intros Hk. split.
  - apply store_ops_typed; [done|]. split; [apply empty_wf|]. split; simpl; [done|..]; intros *; by rewrite lookup_empty.
  - intros Hl a s. rewrite (listed_ops tr os _ Hl (empty_wf names) (empty_exact names) a). apply aggregate_bounds.
Qed.

(** ** The theorems at work *)

Module MailRuns.

Definition names : gmap Z str := <[1 := lit "BlueLake"]> (<[2 := lit "RedPeak"]> (<[3 := lit "GreenDog"]> ∅)).
Definition no_triggers : Triggers := {| on_insert := None; on_read := false; on_ack := false |}.
Definition draft : Draft :=
  {| draft_project := 1; draft_sender := 1; draft_subject := lit "plan"; draft_body := lit "text";
     draft_thread := Some (lit "T-1"); draft_importance := lit "high"; draft_ack := true; draft_attachments := lit "[]" |}.
Definition honest : AfterCommit := {| probe := Ok; cleanup_fails := None |}.
Definition blind : AfterCommit := {| probe := λ _, Err (ResourceBusy (lit "busy")); cleanup_fails := None |}.

(** A message to two agents, one lost to the probe, one read. *)
Definition ops : list Op :=
  [Send honest 100 draft [(2, lit "to"); (3, lit "cc")]; Send blind 150 draft [(2, lit "to")]; MarkRead 200 2 1].
Definition d := run_ops no_triggers ops (empty_db names).

(** The counters of the reader and of the other recipient. *)
Example counters_after_reading :
  get_inbox_stats 2 d =
    Some {| total_count := 1; unread_count := 0; ack_pending_count := 0; last_message_ts := Some 100 |} ∧
  get_inbox_stats 3 d =
    Some {| total_count := 1; unread_count := 1; ack_pending_count := 1; last_message_ts := Some 100 |}.
Proof. vm_compute. done. Qed.

Lemma d_wf : wf d ∧ exact d.
Proof. apply run_ops_exact; [apply empty_wf|apply empty_exact]. Qed.

Lemma send_all_or_nothing_witness :
  (∃ x d', create_message_with_recipients no_triggers honest 300 draft [(2, lit "to"); (3, lit "bcc")] d = (Ok x, d')) ∧
  ¬ (∃ x d', create_message_with_recipients no_triggers honest 300 draft [(2, lit "to"); (2, lit "cc")] d = (Ok x, d')).
Proof.
  destruct d_wf as [Hwf Hex]. split.
  - apply (send_all_or_nothing no_triggers honest 300 draft _ d Hwf Hex); [done|].
    by apply (bool_decide_unpack _).
  - intros Hs. apply (send_all_or_nothing no_triggers honest 300 draft _ d Hwf Hex) in Hs; [|done].
    by apply (bool_decide_pack _) in Hs.
Defined.

Lemma store_well_formed_witness :
  typed (run_store no_triggers ((Listed <$> ops) ++ [AddRecipients 1 [(1, lit "cc")]]) (empty_db names)).
Proof.
  apply store_well_formed. vm_compute. split_and!; try exact I. eexists. reflexivity.
Defined.

Lemma receipts_stick_witness :
  ∃ r, recipients (run_ops no_triggers (ops ++ [MarkAllRead 900 1 2]) (empty_db names)) !! (1, 2) = Some r ∧
    read_ts r = Some 200.
Proof.
  destruct (receipts_stick no_triggers names ops [MarkAllRead 900 1 2] 1 2
    {| kind := lit "to"; read_ts := Some 200; ack_ts := Some 200 |}) as [(r & Hr & _ & Hread & _) _].
  - vm_compute. reflexivity.
  - exists r. split; [exact Hr|]. by apply Hread.
Defined.

Lemma fetch_inbox_rows_spec_witness :
  match fetch_inbox_rows 1 3 true true true (Some 50) 10 d with
  | Err _ => False
  | Ok rows => length rows = 1%nat ∧ StronglySorted newest_first rows
  end.
Proof.
  pose proof (fetch_inbox_rows_spec 1 3 true true true (Some 50) 10 d ltac:(lia)) as Hs.
  destruct (fetch_inbox_rows 1 3 true true true (Some 50) 10 d) as [rows|e] eqn:Hf; [|by destruct Hs].
  destruct Hs as (_ & Hs & _). split; [|exact Hs]. vm_compute in Hf. by injection Hf as <-.
Defined.

Lemma thread_limit_is_suffix_witness :
  ∃ all, list_thread_messages 1 (lit "T-1") None d = Ok all ∧ length all = 1%nat ∧
    list_thread_messages 1 (lit "T-1") (Some 500) d = Ok (drop (length all - Z.to_nat 500) all).
Proof.
  destruct (thread_limit_is_suffix 1 (lit "T-1") 500 d) as (all & Hall & _ & _ & Hlim); [done|].
  exists all. split; [exact Hall|]. split; [|exact Hlim]. vm_compute in Hall. by injection Hall as <-.
Defined.

Lemma recent_contacts_mutual_witness :
  2 ∈ list_recent_contact_agent_ids 1 1 [2] 0 d ∧ 1 ∈ list_recent_contact_agent_ids 1 2 [1] 0 d.
Proof.
  assert (2 ∈ list_recent_contact_agent_ids 1 1 [2] 0 d) as Hin by (vm_compute; left).
  split; [exact Hin|]. apply (recent_contacts_mutual 1 0 d 1 2 [2] [1]); [left|left|exact Hin].
Defined.

End MailRuns.
