(* ===== verification/ContactGate.v ===== *)
(** * The contact gate of [send_message] and [reply_message]
    ([mcp-agent-mail-tools/src/messaging.rs])

    Before a message is stored its recipients are resolved and each passes the
    gate: the policies, recent contact, approved links and, when a recipient
    is refused, the automatic handshake.  The gate is the composition of the
    message store, the contact links, the reservations and the overlap of
    patterns.  The resolution of names is a parameter, and so is which queries
    and handshakes fail; names are ASCII, so that lowering them is exact. *)

From stdpp Require Import base numbers tactics list gmap strings sorting.
From S2P Require Import Prelude PatternOverlap DbErrors ReservationDb Contacts Mail.
Import PatternOverlap DbErrors Contacts.
Open Scope Z_scope.

Module ContactGate.

(** An agent as resolved. *)
Record Agent := { id : Z; name : str; contact_policy : str }.

Record Config := {
  contact_enforcement_enabled : bool;
  contact_auto_ttl_seconds : Z;
  messaging_auto_handshake_on_block : bool;
}.

(** ** Resolving recipients *)

Inductive Resolution := Found (a : Agent) | Missing | Failed.

Record Recipients := {
  recipient_map : gmap str Agent;
  all_recipients : list (Z * str);
}.

(** Adds to one of the lists of resolved names; the first occurrence of an
    agent wins. *)
Definition push_recipient (resolve : str → Resolution) (kind : str) (raw : str)
    (st : Recipients * list str) : (Recipients * list str) + Resolution :=
  let '(r, resolved) := st in
  let name' := trim raw in
  let pushed (m : gmap str Agent) (a : Agent) :=
    if bool_decide (id a ∈ (fst <$> all_recipients r))
    then ({| recipient_map := m; all_recipients := all_recipients r |}, resolved)
    else ({| recipient_map := m; all_recipients := all_recipients r ++ [(id a, kind)] |}, resolved ++ [name a]) in
  match recipient_map r !! to_lowercase name' with
  | Some a => inl (pushed (recipient_map r) a)
  | None =>
      match resolve name' with
      | Found a => inl (pushed (<[to_lowercase (name a) := a]> (recipient_map r)) a)
      | e => inr e
      end
  end.

(** The loop over one of the lists of names: names that are not registered are
    collected, another error ends it. *)
Fixpoint push_all (resolve : str → Resolution) (kind : str) (names : list str)
    (st : Recipients * list str) (missing : list str) : option (Recipients * list str * list str) :=
  match names with
  | [] => Some (st, missing)
  | n :: names =>
      match push_recipient resolve kind n st with
      | inl st' => push_all resolve kind names st' missing
      | inr Missing => push_all resolve kind names st (missing ++ [trim n])
      | _ => None
      end
  end.

Record Resolved := {
  recipients : Recipients;
  resolved_to : list str;
  resolved_cc : list str;
  resolved_bcc : list str;
}.

Inductive SendError :=
  | InvalidArgument
  | ResolveError
  | RecipientNotFound (missing : list str)
  | ContactBlocked
  | ContactRequired (blocked attempted : list str)
  | StoreError (e : DbError).

Definition resolve_recipients (resolve : str → Resolution) (to_names cc_names bcc_names : list str) :
    Resolved + SendError :=
  let none := {| recipient_map := ∅; all_recipients := [] |} in
  match push_all resolve (lit "to") to_names (none, []) [] with
  | None => inr ResolveError
  | Some (r1, rto, miss1) =>
      match push_all resolve (lit "cc") cc_names (r1, []) miss1 with
      | None => inr ResolveError
      | Some (r2, rcc, miss2) =>
          match push_all resolve (lit "bcc") bcc_names (r2, []) miss2 with
          | None => inr ResolveError
          | Some (r3, rbcc, missing) =>
              if bool_decide (missing = []) then
                inl {| recipients := r3; resolved_to := rto; resolved_cc := rcc; resolved_bcc := rbcc |}
              else inr (RecipientNotFound missing)
          end
      end
  end.

Definition has_any_recipients (to_names cc_names bcc_names : list str) : bool :=
  negb (bool_decide (to_names = []) && bool_decide (cc_names = []) && bool_decide (bcc_names = [])).

(** ** Grounds for contact *)

Section gate.
Context `{Globset} `{ReservationDb.CellDecode}.

Definition reservations_prove_shared_scope (sender_patterns recipient_patterns : list CompiledPattern) : bool :=
  existsb (λ p, existsb (λ q,
    if bool_decide (norm p = norm q) then is_matchable p && is_matchable q
    else if is_glob p && is_glob q then false
    else overlaps p q) recipient_patterns) sender_patterns.

(** Which queries fail. *)
Record Faults := {
  thread_fails : bool;
  names_fail : bool;
  reservations_fail : bool;
  recent_fails : bool;
  approved_fails : bool;
  approved_again_fails : bool;
}.

Definition no_faults : Faults :=
  {| thread_fails := false; names_fail := false; reservations_fail := false; recent_fails := false;
     approved_fails := false; approved_again_fails := false |}.

(** A failed query counts as one without rows. *)
Definition or_empty {A} (fails : bool) (r : DbResult (list A)) : list A :=
  match r with Ok l => if fails then [] else l | Err _ => [] end.

(** The names of who wrote to a thread or was written to in it; [send_message]
    trims the thread. *)
Definition thread_names (f : Faults) (project : Z) (thread : str) (md : Mail.Db) : gset str :=
  if bool_decide (thread = []) then ∅
  else
    let rows := or_empty (thread_fails f) (Mail.list_thread_messages project thread (Some 500) md) in
    list_to_set (snd <$> rows) ∪
    (if names_fail f then ∅
     else Mail.list_message_recipient_names_for_messages project ((λ r, r.1.1) <$> rows) md).

(** The compiled patterns of an agent's active reservations. *)
Definition patterns_of (agent : Z) (reservations : list (Z * str)) : list CompiledPattern :=
  compile <$> (snd <$> filter (λ r, r.1 = agent) reservations).

Definition active_patterns (f : Faults) (now project : Z) (rd : ReservationDb.Db) : list (Z * str) :=
  match ReservationDb.get_active_reservations now project rd with
  | ReservationDb.Ok rows =>
      if reservations_fail f then []
      else (λ r, (ReservationDb.fr_agent_id r, ReservationDb.fr_path_pattern r)) <$> rows
  | ReservationDb.Err _ => []
  end.

Definition scope_names (sender : Z) (recs : list Agent) (reservations : list (Z * str)) : gset str :=
  list_to_set (name <$> filter (λ a,
    reservations_prove_shared_scope (patterns_of sender reservations) (patterns_of (id a) reservations) = true) recs).

(** What the world is when the gate is passed: the databases, the clock
    readings and the handshakes that fail.  The message store at the time of
    the transaction may differ from the one the gate read, by the
    introductions of the handshakes if by nothing else. *)
Record World := {
  mail : Mail.Db;
  mail_at_store : Mail.Db;
  reservations : ReservationDb.Db;
  reservations_now : Z;
  since_now : Z;
  approved_clock : nat → Z;
  handshake_clock : nat → Z * Z;
  handshake_works : str → bool;
  approved_again_clock : nat → Z;
  faults : Faults;
}.

Definition auto_ok_names (w : World) (project sender : Z) (thread : str) (recs : list Agent) : gset str :=
  thread_names (faults w) project thread (mail w) ∪
  scope_names sender recs (active_patterns (faults w) (reservations_now w) project (reservations w)).

Definition ttl_seconds (c : Config) : Z := Z.min i64_max (contact_auto_ttl_seconds c).

Definition since_ts (c : Config) (now : Z) : Z := i64_saturating_sub now (i64_saturating_mul (ttl_seconds c) 1000000).

Definition candidate_ids (sender : Z) (recs : list Agent) : list Z :=
  dedup (merge_sort Z.le (filter (λ i, i ≠ sender) (id <$> recs))).

Definition recent_ids (c : Config) (w : World) (project sender : Z) (candidates : list Z) : list Z :=
  if recent_fails (faults w) then []
  else Mail.list_recent_contact_agent_ids project sender candidates (since_ts c (since_now w)) (mail w).

Definition approved_ids (fails : bool) (clock : nat → Z) (project sender : Z) (candidates : list Z) (ld : Contacts.Db) : list Z :=
  if fails then [] else list_approved_contact_ids clock project sender candidates ld.

(** ** The decisions *)

Definition decide_recipient (sender : Agent) (auto_ok : gset str) (recent approved : list Z) (a : Agent) :
    ContactPolicyDecision :=
  contact_policy_decision (name sender) (name a) (contact_policy a)
    (bool_decide (name a ∈ auto_ok) || bool_decide (id a ∈ recent)) (bool_decide (id a ∈ approved)).

(** The first recipient who takes no mail ends the loop; who wants approval is
    collected. *)
Fixpoint check_policies (dec : Agent → ContactPolicyDecision) (m : gmap str Agent) (names : list str)
    (blocked : list str) : option (list str) :=
  match names with
  | [] => Some blocked
  | n :: names =>
      match m !! to_lowercase n with
      | None => check_policies dec m names blocked
      | Some a =>
          match dec a with
          | Allow => check_policies dec m names blocked
          | BlockAll => None
          | RequireApproval => check_policies dec m names (blocked ++ [name a])
          end
      end
  end.

Definition effective_policy (raw : str) : str :=
  let lowered := to_lowercase raw in
  if bool_decide (lowered ∈ VALID_CONTACT_POLICIES) then lowered else lit "auto".

Definition still_blocked (approved : list Z) (m : gmap str Agent) (n : str) : bool :=
  match m !! to_lowercase n with
  | None => true
  | Some a =>
      let policy := effective_policy (contact_policy a) in
      if bool_decide (policy = lit "open") then false
      else if bool_decide (policy ∈ [lit "auto"; lit "contacts_only"]) then negb (bool_decide (id a ∈ approved))
      else true
  end.

(** The handshakes for the refused recipients, one after the other; those that
    work are the attempted. *)
Fixpoint handshakes (c : Config) (w : World) (project : Z) (sender : Z) (m : gmap str Agent) (i : nat)
    (blocked : list str) (ld : Contacts.Db) : list str * Contacts.Db :=
  match blocked with
  | [] => ([], ld)
  | n :: blocked =>
      match m !! to_lowercase n with
      | Some a =>
          if handshake_works w n then
            let p := {| a_project_id := project; a_agent_id := sender; b_project_id := project; b_agent_id := id a |} in
            match contact_handshake (handshake_clock w i).1 (handshake_clock w i).2 p
                    (lit "auto-handshake") (Some true) (Some (ttl_seconds c)) ld with
            | (Ok _, ld') =>
                let '(attempted, ld'') := handshakes c w project sender m (S i) blocked ld' in
                (n :: attempted, ld'')
            | (Err _, ld') => handshakes c w project sender m (S i) blocked ld'
            end
          else handshakes c w project sender m (S i) blocked ld
      | None => handshakes c w project sender m (S i) blocked ld
      end
  end.

(** The gate; [recheck] says when the approvals are read again after the
    handshakes. *)
Definition contact_gate (c : Config) (auto_contact : bool) (recheck : list str → bool) (w : World)
    (project : Z) (sender : Agent) (thread : str) (rs : Recipients) (names : list str) (ld : Contacts.Db) :
    option SendError * Contacts.Db :=
  if contact_enforcement_enabled c then
    let recs := (map_to_list (recipient_map rs)).*2 in
    let candidates := candidate_ids (id sender) recs in
    let auto_ok := auto_ok_names w project (id sender) thread recs in
    let recent := recent_ids c w project (id sender) candidates in
    let approved := approved_ids (approved_fails (faults w)) (approved_clock w) project (id sender) candidates ld in
    match check_policies (decide_recipient sender auto_ok recent approved) (recipient_map rs) names [] with
    | None => (Some ContactBlocked, ld)
    | Some [] => (None, ld)
    | Some blocked =>
        if auto_contact then
          let '(attempted, ld') := handshakes c w project (id sender) (recipient_map rs) 0 blocked ld in
          let blocked' :=
            if recheck attempted then
              let approved' := approved_ids (approved_again_fails (faults w)) (approved_again_clock w) project
                                 (id sender) candidates ld' in
              filter (λ n, still_blocked approved' (recipient_map rs) n = true) blocked
            else blocked in
          match blocked' with
          | [] => (None, ld')
          | _ => (Some (ContactRequired blocked' attempted), ld')
          end
        else (Some (ContactRequired blocked []), ld)
    end
  else (None, ld).

(** [send_message] reads the approvals again in any case, [reply_message] only
    when a handshake worked. *)
Definition send_gate (c : Config) (auto_contact_if_blocked : option bool) (w : World) (project : Z) (sender : Agent)
    (thread : option str) :=
  contact_gate c (default (messaging_auto_handshake_on_block c) auto_contact_if_blocked) (λ _, true) w project sender
    (trim (default [] thread)).

Definition reply_gate (c : Config) (w : World) (project : Z) (sender : Agent) (thread : str) :=
  contact_gate c (messaging_auto_handshake_on_block c) (λ attempted, negb (bool_decide (attempted = []))) w project
    sender thread.

(** ** Sending *)

(** [send_message] from its resolved sender to the stored message: recipients,
    gate, transaction.  The draft's sender is the sender. *)
Definition send_message (resolve : str → Resolution) (c : Config) (auto_contact_if_blocked : option bool) (w : World)
    (tr : Mail.Triggers) (env : Mail.AfterCommit) (now : Z) (sender : Agent) (to_names cc_names bcc_names : list str)
    (m : Mail.Draft) (ld : Contacts.Db) : (Z * Mail.MessageRow + SendError) * Mail.Db * Contacts.Db :=
  if has_any_recipients to_names cc_names bcc_names then
    match resolve_recipients resolve to_names cc_names bcc_names with
    | inr e => (inr e, mail_at_store w, ld)
    | inl r =>
        match send_gate c auto_contact_if_blocked w (Mail.draft_project m) sender (Mail.draft_thread m) (recipients r)
                (resolved_to r ++ resolved_cc r ++ resolved_bcc r) ld with
        | (Some e, ld') => (inr e, mail_at_store w, ld')
        | (None, ld') =>
            match Mail.create_message_with_recipients tr env now m (all_recipients (recipients r)) (mail_at_store w) with
            | (Ok x, md') => (inl x, md', ld')
            | (Err e, md') => (inr (StoreError e), md', ld')
            end
        end
    end
  else (inr InvalidArgument, mail_at_store w, ld).

End gate.
End ContactGate.
