(* ===== verification/ContactGateFacts.v ===== *)
(** * What the contact gate lets through

    The theorems about [ContactGate]: recipients are resolved without
    repetition, a stored message respects the policies when handshakes are
    off, failing queries never open the gate, and automatic handshakes open it
    for everybody but those who take no mail. *)

From stdpp Require Import base numbers tactics list gmap strings sorting.
From S2P Require Import Prelude PatternOverlap RefGlob DbErrors ReservationDb ReservationExclusion Contacts ContactsFacts.
From S2P Require Import Mail MailFacts ContactGate.
Import PatternOverlap DbErrors Contacts ContactGate.
Open Scope Z_scope.

(** ** Resolution *)

(** Names that lower to the same key, and keys, are those of one agent: the
    table has one row per name and per key. *)
Record consistent (resolve : str → Resolution) : Prop := {
  consistent_name n1 n2 a1 a2 :
    resolve n1 = Found a1 → resolve n2 = Found a2 → to_lowercase (name a1) = to_lowercase (name a2) → a1 = a2;
  consistent_id n1 n2 a1 a2 :
    resolve n1 = Found a1 → resolve n2 = Found a2 → id a1 = id a2 → a1 = a2;
}.

(** What the loops maintain: the map holds resolved agents under their lowered
    names, recipients are distinct, and recipients and names are those of the
    same agents. *)
Record resolved_ok (resolve : str → Resolution) (r : Recipients) (names : list str) : Prop := {
  ok_map k a : recipient_map r !! k = Some a → k = to_lowercase (name a) ∧ ∃ n, resolve n = Found a;
  ok_nodup : NoDup (fst <$> all_recipients r);
  ok_recipient i : i ∈ (fst <$> all_recipients r) ↔
    ∃ n a, n ∈ names ∧ recipient_map r !! to_lowercase n = Some a ∧ name a = n ∧ id a = i;
}.

Lemma resolved_ok_push resolve kind raw r all_names mine st' :
  consistent resolve → resolved_ok resolve r all_names →
  push_recipient resolve kind raw (r, mine) = inl st' →
  ∃ new, st'.2 = mine ++ new ∧ resolved_ok resolve st'.1 (all_names ++ new).
Proof.
  intros Hc Hok. unfold push_recipient.
  assert (∀ a m, (∃ n, resolve n = Found a) → m !! to_lowercase (name a) = Some a →
    (∀ k b, m !! k = Some b → recipient_map r !! k = Some b ∨ b = a ∧ k = to_lowercase (name a)) →
    (∀ k b, recipient_map r !! k = Some b → m !! k = Some b) →
    ∃ new,
      (if bool_decide (id a ∈ (fst <$> all_recipients r))
       then ({| recipient_map := m; all_recipients := all_recipients r |}, mine)
       else ({| recipient_map := m; all_recipients := all_recipients r ++ [(id a, kind)] |}, mine ++ [name a])).2
      = mine ++ new ∧
      resolved_ok resolve
      (if bool_decide (id a ∈ (fst <$> all_recipients r))
       then ({| recipient_map := m; all_recipients := all_recipients r |}, mine)
       else ({| recipient_map := m; all_recipients := all_recipients r ++ [(id a, kind)] |}, mine ++ [name a])).1
      (all_names ++ new)) as Hpush.
  { intros a m Ha Hma Hold Hkeep. destruct Hok as [Hm Hnd Hr].
    assert (∀ k b, m !! k = Some b → k = to_lowercase (name b) ∧ ∃ n, resolve n = Found b) as Hm'.
    { intros k b Hb. destruct (Hold k b Hb) as [|[-> ->]]; [by apply Hm|done]. }
    case_bool_decide as Hin; simpl.
    - exists []. rewrite !app_nil_r. split; [done|]. split; simpl; [done|done|]. intros i. rewrite Hr. split.
      + intros (n & b & Hn & Hb & Hnb & Hi). exists n, b. split_and!; [done|by apply Hkeep|done|done].
      + intros (n & b & Hn & Hb & Hnb & Hi). exists n, b. split_and!; try done.
        destruct (Hold _ _ Hb) as [|[-> Hk]]; [done|].
        apply Hr in Hin as (n' & b' & Hn' & Hb' & Hnb' & Hi').
        destruct (Hm _ _ Hb') as [_ [x Hx]]. destruct Ha as [y Hy].
        assert (b' = a) as -> by (by eapply (consistent_id _ Hc)). congruence.
    - exists [name a]. split; [done|]. split; simpl; [done| |].
      + rewrite fmap_app. apply NoDup_app. split_and!; [done| |apply NoDup_singleton].
        intros i Hi ->%list_elem_of_singleton. done.
      + intros i. rewrite fmap_app, elem_of_app, Hr. simpl. rewrite list_elem_of_singleton. split.
        * intros [(n & b & Hn & Hb & Hnb & Hi)| ->].
          -- exists n, b. split_and!; [apply elem_of_app; by left|by apply Hkeep|done|done].
          -- exists (name a), a. split_and!; try done. apply elem_of_app. right. by apply list_elem_of_singleton.
        * intros (n & b & [Hn|Hn]%elem_of_app & Hb & Hnb & Hi).
          -- destruct (Hold _ _ Hb) as [|[-> _]]; [left; by exists n, b|by right].
          -- apply list_elem_of_singleton in Hn. right. rewrite Hn in Hb. congruence. }
  destruct (recipient_map r !! to_lowercase (trim raw)) as [a|] eqn:Hlook.
  - intros [= <-]. destruct (ok_map _ _ _ Hok _ _ Hlook) as [Hk Hres]. rewrite Hk in Hlook.
    apply Hpush; [done|done|by left|done].
  - destruct (resolve (trim raw)) as [a| |] eqn:Hres; [|done|done]. intros [= <-]. apply Hpush.
    + by eexists.
    + apply lookup_insert_eq.
    + intros k b [[<- <-]|[_ ?]]%lookup_insert_Some; [by right|by left].
    + intros k b Hb. destruct (decide (k = to_lowercase (name a))) as [->|]; [|by rewrite lookup_insert_ne].
      rewrite lookup_insert_eq. destruct (ok_map _ _ _ Hok _ _ Hb) as [Hk [x Hx]].
      f_equal. by eapply (consistent_name _ Hc).
Qed.

Lemma resolved_ok_all resolve kind names r all_names mine missing r' mine' missing' :
  consistent resolve → resolved_ok resolve r all_names →
  push_all resolve kind names (r, mine) missing = Some (r', mine', missing') →
  ∃ new, mine' = mine ++ new ∧ resolved_ok resolve r' (all_names ++ new).
Proof.
  intros Hc. revert r all_names mine missing. induction names as [|n names IH]; intros r all_names mine missing Hok; cbn [push_all].
  - intros [= -> -> _]. exists []. by rewrite !app_nil_r.
  - destruct (push_recipient resolve kind n (r, mine)) as [[r1 mine1]|[a| |]] eqn:Hp; [|done|by apply IH|done].
    destruct (resolved_ok_push _ _ _ _ _ _ _ Hc Hok Hp) as (new & Hmine & Hok1). simpl in Hmine, Hok1. subst mine1.
    intros Hrest. destruct (IH _ _ _ _ Hok1 Hrest) as (new' & -> & Hok2).
    exists (new ++ new'). by rewrite !app_assoc.
Qed.

Lemma resolve_recipients_ok resolve tos ccs bccs r :
  consistent resolve → resolve_recipients resolve tos ccs bccs = inl r →
  resolved_ok resolve (recipients r) (resolved_to r ++ resolved_cc r ++ resolved_bcc r).
Proof.
  intros Hc. unfold resolve_recipients.
  assert (resolved_ok resolve {| recipient_map := ∅; all_recipients := [] |} []) as H0.
  { split; simpl; [intros k a; by rewrite lookup_empty|constructor|].
    intros i. split; [by intros ?%elem_of_nil|by intros (n & a & ?%elem_of_nil & _)]. }
  destruct (push_all resolve (lit "to") _ _ _) as [[[r1 l1] m1]|] eqn:H1; [|done].
  destruct (resolved_ok_all _ _ _ _ _ _ _ _ _ _ Hc H0 H1) as (? & -> & Hok1).
  destruct (push_all resolve (lit "cc") _ _ _) as [[[r2 l2] m2]|] eqn:H2; [|done].
  destruct (resolved_ok_all _ _ _ _ _ _ _ _ _ _ Hc Hok1 H2) as (? & -> & Hok2).
  destruct (push_all resolve (lit "bcc") _ _ _) as [[[r3 l3] m3]|] eqn:H3; [|done].
  destruct (resolved_ok_all _ _ _ _ _ _ _ _ _ _ Hc Hok2 H3) as (? & -> & Hok3).
  case_bool_decide; [|done]. intros [= <-]. simpl in *. by rewrite <-app_assoc in Hok3.
Qed.

(** ** Decisions *)

(** When a recipient takes mail from a sender, with or without recent contact
    and an approved link. *)
Definition permits (sender : Agent) (recent approved : Prop) (a : Agent) : Prop :=
  name a = name sender ∨
  effective_policy (contact_policy a) = lit "open" ∨
  (effective_policy (contact_policy a) = lit "auto" ∧ recent) ∨
  (effective_policy (contact_policy a) ∈ [lit "auto"; lit "contacts_only"] ∧ approved).

Lemma effective_policy_valid raw : effective_policy raw ∈ VALID_CONTACT_POLICIES.
Proof. unfold effective_policy. case_bool_decide; [done|]. right; left. Qed.

Lemma decision_cases sender r raw recent approved :
  let policy := effective_policy raw in
  contact_policy_decision sender r raw recent approved =
  if bool_decide (r = sender) then Allow
  else if bool_decide (policy = lit "block_all") then BlockAll
  else if bool_decide (policy = lit "open") then Allow
  else if bool_decide (policy = lit "auto") && recent then Allow
  else if approved then Allow else RequireApproval.
Proof. done. Qed.

(** Comparisons of literal texts are computed. *)
Ltac compute_literals :=
  repeat match goal with
  | |- context [bool_decide (lit ?x = lit ?y)] =>
      let b := eval vm_compute in (bool_decide (lit x = lit y)) in
      change (bool_decide (lit x = lit y)) with b
  end; cbn [andb orb].

Lemma decide_allow sender auto_ok recent approved a :
  decide_recipient sender auto_ok recent approved a = Allow ↔
  permits sender (name a ∈ auto_ok ∨ id a ∈ recent) (id a ∈ approved) a.
Proof.
  unfold decide_recipient, permits. rewrite decision_cases. cbv zeta.
  destruct (decide (name a = name sender)) as [Hs|Hs]; [rewrite bool_decide_true by done; naive_solver|].
  rewrite (bool_decide_false _ Hs). set (ok := _ || _).
  assert (name a ∈ auto_ok ∨ id a ∈ recent ↔ ok = true) as -> by (unfold ok; rewrite orb_true_iff, !bool_decide_eq_true; done).
  set (ap := bool_decide (id a ∈ approved)).
  assert (id a ∈ approved ↔ ap = true) as -> by (unfold ap; by rewrite bool_decide_eq_true).
  clearbody ok ap.
  pose proof (effective_policy_valid (contact_policy a)) as Hv. unfold VALID_CONTACT_POLICIES in Hv.
  rewrite !elem_of_cons, elem_of_nil in *. revert Hv. generalize (effective_policy (contact_policy a)) as pol.
  intros pol [->|[->|[->|[->|[]]]]]; destruct ok, ap; compute_literals; naive_solver.
Qed.

Lemma decide_block_all sender auto_ok recent approved a :
  decide_recipient sender auto_ok recent approved a = BlockAll ↔
  name a ≠ name sender ∧ effective_policy (contact_policy a) = lit "block_all".
Proof.
  unfold decide_recipient. rewrite decision_cases. cbv zeta.
  destruct (decide (name a = name sender)) as [Hs|Hs]; [rewrite bool_decide_true by done; naive_solver|].
  rewrite (bool_decide_false _ Hs). destruct (decide (effective_policy (contact_policy a) = lit "block_all")) as [->|]; [done|].
  rewrite bool_decide_false by done. repeat case_match; naive_solver.
Qed.

Definition refused (dec : Agent → ContactPolicyDecision) (m : gmap str Agent) (names : list str) : list str :=
  omap (λ n, a ← m !! to_lowercase n; if bool_decide (dec a = RequireApproval) then Some (name a) else None) names.

Definition none_blocks (dec : Agent → ContactPolicyDecision) (m : gmap str Agent) (names : list str) : Prop :=
  ∀ n a, n ∈ names → m !! to_lowercase n = Some a → dec a ≠ BlockAll.

Lemma check_policies_spec dec m names blocked bl :
  check_policies dec m names blocked = Some bl ↔ none_blocks dec m names ∧ bl = blocked ++ refused dec m names.
Proof.
  revert blocked. induction names as [|n names IH]; intros blocked; simpl.
  - unfold refused. simpl. rewrite app_nil_r. split; [|by intros [_ ->]]. intros [= ->].
    split; [|done]. by intros ? ? ?%elem_of_nil.
  - assert (∀ P, none_blocks dec m (n :: names) ∧ P ↔ (∀ a, m !! to_lowercase n = Some a → dec a ≠ BlockAll) ∧ none_blocks dec m names ∧ P) as Hnb.
    { intros P. unfold none_blocks. setoid_rewrite elem_of_cons. naive_solver. }
    rewrite Hnb. clear Hnb. unfold refused in *. csimpl. destruct (m !! to_lowercase n) as [a|] eqn:Hm; simpl.
    + assert ((∀ a0, Some a = Some a0 → dec a0 ≠ BlockAll) ↔ dec a ≠ BlockAll) as ->.
      { split; [intros Hall; by apply Hall|]. by intros ? ? [= <-]. }
      destruct (dec a) eqn:Hd; simpl.
      * rewrite IH. assert (Allow ≠ BlockAll) by done. tauto.
      * rewrite IH, <-app_assoc. simpl. assert (RequireApproval ≠ BlockAll) by done. tauto.
      * split; [done|]. by intros [? _].
    + rewrite IH. assert (∀ a0 : Agent, None = Some a0 → dec a0 ≠ BlockAll) by done. tauto.
Qed.

Lemma refused_nil dec m names :
  none_blocks dec m names → refused dec m names = [] →
  ∀ n a, n ∈ names → m !! to_lowercase n = Some a → dec a = Allow.
Proof.
  intros Hnb Hr n a Hn Ha. specialize (Hnb n a Hn Ha). destruct (dec a) eqn:Hd; [done| |done]. exfalso.
  assert (name a ∈ refused dec m names) as Hin; [|rewrite Hr in Hin; by apply elem_of_nil in Hin].
  apply list_elem_of_omap. exists n. split; [done|]. rewrite Ha. simpl. by rewrite bool_decide_true.
Qed.

(** ** A stored message respects the policies *)

Section gate.
Context `{Globset} `{ReservationDb.CellDecode}.

(** Two agents hold active reservations whose overlap is proved. *)
Definition share_scope (w : World) (project sender other : Z) : Prop :=
  let rs := active_patterns (faults w) (reservations_now w) project (reservations w) in
  reservations_prove_shared_scope (patterns_of sender rs) (patterns_of other rs) = true.

(** Recent contact as the gate counts it. *)
Definition recent_ground (c : Config) (w : World) (project : Z) (sender : Agent) (thread : str) (a : Agent) : Prop :=
  name a ∈ thread_names (faults w) project thread (mail w) ∨
  share_scope w project (id sender) (id a) ∨
  mail_since project (since_ts c (since_now w)) (mail w) (id sender) (id a) ∨
  mail_since project (since_ts c (since_now w)) (mail w) (id a) (id sender).

Lemma gate_grounds resolve c w project sender thread r names a :
  consistent resolve → resolved_ok resolve r names → (∃ k, recipient_map r !! k = Some a) →
  let recs := (map_to_list (recipient_map r)).*2 in
  name a ∈ auto_ok_names w project (id sender) thread recs ∨
    id a ∈ recent_ids c w project (id sender) (candidate_ids (id sender) recs) →
  recent_ground c w project sender thread a.
Proof.
  intros Hc Hok [k Hk] recs. unfold recent_ground, auto_ok_names, scope_names.
  rewrite elem_of_union, elem_of_list_to_set, list_elem_of_fmap. intros [[Hin|(b & Hb & Hin)]|Hin].
  - by left.
  - right; left. apply list_elem_of_filter in Hin as [Hs Hin]. unfold recs in Hin.
    apply list_elem_of_fmap in Hin as ([k' b'] & -> & Hin%elem_of_map_to_list). simpl in *.
    destruct (ok_map _ _ _ Hok _ _ Hk) as [_ [x Hx]], (ok_map _ _ _ Hok _ _ Hin) as [_ [y Hy]].
    assert (a = b') as -> by (eapply (consistent_name _ Hc); [exact Hx|exact Hy|by rewrite Hb]). exact Hs.
  - right; right. unfold recent_ids in Hin. destruct (recent_fails _); [by apply elem_of_nil in Hin|].
    by apply elem_of_recent_contacts in Hin as [_ Hm].
Qed.

(** The gate without handshakes. *)
Lemma gate_manual c recheck w project sender thread r names ld :
  contact_enforcement_enabled c = true →
  let recs := (map_to_list (recipient_map r)).*2 in
  let candidates := candidate_ids (id sender) recs in
  let dec := decide_recipient sender (auto_ok_names w project (id sender) thread recs)
    (recent_ids c w project (id sender) candidates)
    (approved_ids (approved_fails (faults w)) (approved_clock w) project (id sender) candidates ld) in
  (contact_gate c false recheck w project sender thread r names ld).2 = ld ∧
  ((contact_gate c false recheck w project sender thread r names ld).1 = None ↔
    ∀ n a, n ∈ names → recipient_map r !! to_lowercase n = Some a → dec a = Allow).
Proof.
  intros He recs candidates dec. unfold contact_gate. rewrite He. fold recs candidates dec.
  destruct (check_policies dec _ names []) as [bl|] eqn:Hcp.
  - apply check_policies_spec in Hcp as [Hnb ->]. simpl. destruct (refused dec (recipient_map r) names) as [|x l] eqn:Hr.
    + split; [done|]. split; [|done]. intros _. by apply refused_nil.
    + split; [done|]. split; [done|]. intros Hall. exfalso.
      assert (x ∈ refused dec (recipient_map r) names) as Hx by (rewrite Hr; left).
      apply list_elem_of_omap in Hx as (n & Hn & Hb). destruct (recipient_map r !! to_lowercase n) as [a|] eqn:Ha; [|done].
      simpl in Hb. by rewrite (Hall n a Hn Ha) in Hb.
  - split; [done|]. split; [done|]. intros Hall.
    assert (none_blocks dec (recipient_map r) names) as Hnb by (intros n a Hn Ha; by rewrite (Hall n a Hn Ha)).
    pose proof (proj2 (check_policies_spec dec (recipient_map r) names [] _) (conj Hnb eq_refl)). congruence.
Qed.

(** C12: A stored message respects the policies of its recipients.  With
    enforcement on and automatic handshakes off, a message that
    [send_message] stores has recipient rows only for resolved agents who take
    mail from the sender: the sender itself, an open policy, an automatic one
    with recent contact (a common thread, reservations whose overlap is
    proved, mail in either direction within the time window) or an approved
    and unexpired link, or one that wants contacts and has such a link.  The
    links are left alone. *)
Theorem send_message_respects_policies resolve c auto_contact w tr env now sender tos ccs bccs m ld lm t0 mid row md' ld' :
  consistent resolve → contact_enforcement_enabled c = true →
  default (messaging_auto_handshake_on_block c) auto_contact = false →
  represents ld lm → (∀ i, t0 ≤ approved_clock w i) → MailFacts.wf (mail_at_store w) →
  send_message resolve c auto_contact w tr env now sender tos ccs bccs m ld = (inl (mid, row), md', ld') →
  ld' = ld ∧
  ∀ i r, Mail.recipients md' !! (mid, i) = Some r →
    ∃ a, id a = i ∧ (∃ n, resolve n = Found a) ∧
      permits sender (recent_ground c w (Mail.draft_project m) sender (trim (default [] (Mail.draft_thread m))) a)
        (approves t0 lm (direct (Mail.draft_project m) (id sender) i)) a.
Proof.
  intros Hc He Hauto Hrep Ht Hwf. unfold send_message.
  destruct (has_any_recipients tos ccs bccs); [|done].
  destruct (resolve_recipients resolve tos ccs bccs) as [r|e] eqn:Hr; [|done].
  pose proof (resolve_recipients_ok _ _ _ _ _ Hc Hr) as Hok. unfold send_gate. rewrite Hauto.
  set (names := resolved_to r ++ resolved_cc r ++ resolved_bcc r) in *.
  set (project := Mail.draft_project m). set (thread := trim (default [] (Mail.draft_thread m))).
  destruct (gate_manual c (λ _, true) w project sender thread (recipients r) names ld He) as [Hld Hgate].
  destruct (contact_gate _ _ _ _ _ _ _ _ _ _) as [[e|] ld1] eqn:Hg; simpl in Hld, Hgate; [done|]. subst ld1.
  destruct (Mail.create_message_with_recipients _ _ _ _ _ _) as [[[mid1 row1]|e] md1] eqn:Hsend; [|done].
  intros [= <- <- <- <-]. split; [done|]. intros i x Hx.
  destruct (send_ok _ _ _ _ _ _ _ _ _ Hwf Hsend) as [_ (Hfresh & _ & Hrows)]. rewrite Hrows in Hx.
  case_decide as Hi.
  2:{ destruct (MailFacts.wf_recipient _ Hwf mid1 i (ex_intro _ _ Hx)) as [y Hy]. congruence. }
  destruct Hi as [_ Hi]. apply (ok_recipient _ _ _ Hok) in Hi as (n & a & Hn & Ha & Hna & <-).
  exists a. split; [done|]. split; [by apply (ok_map _ _ _ Hok) in Ha as [_ ?]|].
  pose proof (proj1 Hgate eq_refl n a Hn Ha) as Hallow. apply decide_allow in Hallow.
  destruct Hallow as [?|[?|[[? Hrec]|[? Happ]]]]; [by left|by right; left| |].
  - right; right; left. split; [done|]. by eapply gate_grounds; [| |exists (to_lowercase n)|].
  - right; right; right. split; [done|]. unfold approved_ids in Happ.
    destruct (approved_fails _); [by apply elem_of_nil in Happ|]. by eapply approved_ids_sound.
Qed.

(** ** Failing queries *)

Definition with_faults (f : Faults) (w : World) : World :=
  {| mail := mail w; mail_at_store := mail_at_store w; reservations := reservations w;
     reservations_now := reservations_now w; since_now := since_now w; approved_clock := approved_clock w;
     handshake_clock := handshake_clock w; handshake_works := handshake_works w;
     approved_again_clock := approved_again_clock w; faults := f |}.

Lemma or_empty_le {A} fails (r : DbResult (list A)) : or_empty fails r = [] ∨ or_empty fails r = or_empty false r.
Proof. destruct r; simpl; [destruct fails|]; auto. Qed.

Lemma thread_names_faults f project thread md :
  thread_names f project thread md ⊆ thread_names no_faults project thread md.
Proof.
  unfold thread_names. case_bool_decide; [done|]. cbn [thread_fails names_fail no_faults].
  destruct (or_empty_le (thread_fails f) (Mail.list_thread_messages project thread (Some 500) md)) as [->| ->].
  - assert (Mail.list_message_recipient_names_for_messages project ((λ r, r.1.1) <$> ([] : list Mail.ThreadMessageRow)) md = ∅) as -> by done.
    destruct (names_fail f); simpl; set_solver.
  - apply union_mono; [done|]. destruct (names_fail f); [apply empty_subseteq|done].
Qed.

Lemma shared_scope_nil_l ps : reservations_prove_shared_scope [] ps = false.
Proof. done. Qed.

Lemma auto_ok_faults w project sender thread recs :
  auto_ok_names w project sender thread recs ⊆ auto_ok_names (with_faults no_faults w) project sender thread recs.
Proof.
  unfold auto_ok_names. simpl. apply union_mono; [apply thread_names_faults|].
  unfold active_patterns. destruct (ReservationDb.get_active_reservations _ _ _) as [rows|e]; [|done]. simpl.
  destruct (reservations_fail (faults w)); [|done]. unfold scope_names. intros x Hx. exfalso.
  apply elem_of_list_to_set, list_elem_of_fmap in Hx as (a & _ & Ha). by apply list_elem_of_filter in Ha as [? _].
Qed.

Lemma permits_mono sender (r1 r2 p1 p2 : Prop) a :
  (r1 → r2) → (p1 → p2) → permits sender r1 p1 a → permits sender r2 p2 a.
Proof. unfold permits. tauto. Qed.

(** Failing queries never open the gate.  A message that passes while
    queries fail (without the handshakes, which write) passes when none does:
    a query that fails only takes grounds away. *)
Theorem failures_never_open_the_gate c recheck w project sender thread r names ld :
  (contact_gate c false recheck w project sender thread r names ld).1 = None →
  (contact_gate c false recheck (with_faults no_faults w) project sender thread r names ld).1 = None.
Proof.
  destruct (contact_enforcement_enabled c) eqn:He; [|by unfold contact_gate; rewrite He].
  destruct (gate_manual c recheck w project sender thread r names ld He) as [_ Hf].
  destruct (gate_manual c recheck (with_faults no_faults w) project sender thread r names ld He) as [_ Hn'].
  rewrite Hf, Hn'. intros Hall. clear Hf Hn'.
  intros n a Hn Ha. specialize (Hall n a Hn Ha). apply decide_allow in Hall. apply decide_allow.
  revert Hall. apply permits_mono.
  - intros [Hin|Hin]; [left; by apply auto_ok_faults|right]. revert Hin. unfold recent_ids. simpl.
    destruct (recent_fails (faults w)); [by intros ?%elem_of_nil|done].
  - unfold approved_ids. simpl. destruct (approved_fails (faults w)); [by intros ?%elem_of_nil|done].
Qed.

(** ** Automatic handshakes *)

(** The second reading of the clock of a handshake, and how long its approval
    lasts. *)
Definition approved_until (c : Config) (w : World) (i : nat) : Z :=
  i64_saturating_add (handshake_clock w i).2 (handshake_ttl (Some (ttl_seconds c)) * 1000000).

(** Approved beyond every reading of the clock by the second query. *)
Definition approved_again (w : World) (m : Spec) (p : Pair) : Prop :=
  ∃ u, m !! p = Some (Approved, Some u) ∧ ∀ i, approved_again_clock w i < u.

Lemma handshakes_approve c w project sender m blocked i ld lm :
  represents ld lm → (∀ n, handshake_works w n = true) → (∀ i j, approved_again_clock w i < approved_until c w j) →
  ∃ lm', represents (handshakes c w project sender m i blocked ld).2 lm' ∧
    (∀ p, approved_again w lm p → approved_again w lm' p) ∧
    ∀ n a, n ∈ blocked → m !! to_lowercase n = Some a → approved_again w lm' (direct project sender (id a)).
Proof.
  intros Hrep Hw Hclock. revert i ld lm Hrep. induction blocked as [|n blocked IH]; intros i ld lm Hrep; simpl.
  - exists lm. split_and!; [done|done|]. by intros n a ?%elem_of_nil.
  - destruct (m !! to_lowercase n) as [a|] eqn:Ha.
    + rewrite Hw. fold (direct project sender (id a)). destruct (handshake_effect (handshake_clock w i).1 (handshake_clock w i).2
        (direct project sender (id a)) (lit "auto-handshake") (Some true) (Some (ttl_seconds c)) ld lm Hrep)
        as (row & ld1 & Heq & _ & Hrep1 & _).
      rewrite Heq. clear Heq.
      destruct (IH (S i) ld1 _ Hrep1) as (lm' & Hrep' & Hkeep & Hall).
      destruct (handshakes c w project sender m (S i) blocked ld1) as [attempted ld2]. simpl in *.
      exists lm'. split; [done|].
      assert (approved_again w (<[direct project sender (id a) := (Approved, Some (approved_until c w i))]> lm)
        (direct project sender (id a))) as Hnew.
      { eexists. split; [apply lookup_insert_eq|]. intros j. apply Hclock. }
      split.
      * intros p [u Hp]. apply Hkeep. destruct (decide (p = direct project sender (id a))) as [->|Hne]; [done|].
        exists u. by rewrite lookup_insert_ne.
      * intros n' a' [->|Hn]%elem_of_cons Ha'; [|by eapply Hall]. rewrite Ha in Ha'. injection Ha' as <-. by apply Hkeep.
    + destruct (IH (S i) ld lm Hrep) as (lm' & Hrep' & Hkeep & Hall). exists lm'. split_and!; [done|done|].
      intros n' a' [->|Hn]%elem_of_cons Ha'; [congruence|by eapply Hall].
Qed.

Lemma candidate_in sender recs a : a ∈ recs → id a ≠ sender → id a ∈ candidate_ids sender recs.
Proof.
  intros Ha Hn. unfold candidate_ids. rewrite elem_of_dedup, merge_sort_Permutation. apply list_elem_of_filter.
  split; [done|]. by apply list_elem_of_fmap_2.
Qed.

(** Who is refused has a policy that an approved link satisfies. *)
Lemma refused_policy sender auto_ok recent approved a :
  decide_recipient sender auto_ok recent approved a = RequireApproval →
  name a ≠ name sender ∧ effective_policy (contact_policy a) ∈ [lit "auto"; lit "contacts_only"].
Proof.
  unfold decide_recipient. rewrite decision_cases. cbv zeta.
  pose proof (effective_policy_valid (contact_policy a)) as Hv. unfold VALID_CONTACT_POLICIES in Hv.
  rewrite !elem_of_cons, elem_of_nil in *.
  destruct (decide (name a = name sender)) as [Hs|Hs]; [by rewrite bool_decide_true|].
  rewrite (bool_decide_false _ Hs). split; [done|].
  destruct Hv as [E|[E|[E|[E|[]]]]]; rewrite E in *; [done|by left|by right; left|done].
Qed.

(** Automatic handshakes open the gate for everybody but those who take
    no mail.  When a refused recipient gets an automatic handshake (the
    default of [send_message] and [reply_message]), the handshakes work, the
    approvals are read again and still hold, then the gate is passed exactly
    when no recipient other than the sender blocks all mail: neither a policy
    that wants contacts nor a blocked link refuses anything. *)
Theorem auto_handshake_opens_the_gate resolve c recheck w project sender thread r names ld lm :
  consistent resolve → resolved_ok resolve r names → contact_enforcement_enabled c = true →
  represents ld lm → (∀ n, handshake_works w n = true) → (∀ l, recheck l = true) →
  approved_again_fails (faults w) = false →
  (∀ i j, approved_again_clock w i < approved_until c w j) →
  (∀ k a, recipient_map r !! k = Some a → id a = id sender → name a = name sender) →
  (contact_gate c true recheck w project sender thread r names ld).1 = None ↔
  ∀ n a, n ∈ names → recipient_map r !! to_lowercase n = Some a →
    name a = name sender ∨ effective_policy (contact_policy a) ≠ lit "block_all".
Proof.
  intros Hc Hok He Hrep Hw Hre Hf Hclock Hself. unfold contact_gate. rewrite He.
  set (recs := (map_to_list (recipient_map r)).*2). set (cands := candidate_ids (id sender) recs).
  set (dec := decide_recipient _ _ _ _).
  assert (none_blocks dec (recipient_map r) names ↔ ∀ n a, n ∈ names → recipient_map r !! to_lowercase n = Some a →
    name a = name sender ∨ effective_policy (contact_policy a) ≠ lit "block_all") as <-.
  { unfold none_blocks, dec. setoid_rewrite decide_block_all. split; intros Hall n a Hn Ha; specialize (Hall n a Hn Ha).
    - destruct (decide (name a = name sender)); [by left|]. right. naive_solver.
    - naive_solver. }
  destruct (check_policies dec (recipient_map r) names []) as [bl|] eqn:Hcp.
  2:{ split; [done|]. intros Hnb.
    pose proof (proj2 (check_policies_spec dec (recipient_map r) names [] _) (conj Hnb eq_refl)). congruence. }
  apply check_policies_spec in Hcp as [Hnb ->]. simpl. split; [done|]. intros _.
  destruct (refused dec (recipient_map r) names) as [|x l] eqn:Hbl; [done|]. rewrite <-Hbl.
  set (bl := refused dec (recipient_map r) names).
  destruct (handshakes_approve c w project (id sender) (recipient_map r) bl 0 ld lm Hrep Hw Hclock)
    as (lm' & Hrep' & _ & Hall).
  destruct (handshakes _ _ _ _ _ _ bl ld) as [attempted ld']. simpl in Hrep'. rewrite Hre, Hf.
  assert (∀ n, n ∈ bl → still_blocked (approved_ids false (approved_again_clock w) project (id sender) cands ld')
    (recipient_map r) n = false) as Hstill.
  { intros n Hn. assert (∃ a, recipient_map r !! to_lowercase n = Some a ∧ dec a = RequireApproval) as (a & Ha & Hd).
    { unfold bl, refused in Hn. apply list_elem_of_omap in Hn as (n0 & Hn0 & Hb).
      destruct (recipient_map r !! to_lowercase n0) as [a|] eqn:Ha; [|done]. simpl in Hb.
      case_bool_decide as Hd; [|done]. injection Hb as <-. exists a. split; [|done].
      destruct (ok_map _ _ _ Hok _ _ Ha) as [Hk _]. by rewrite <-Hk. }
    destruct (refused_policy _ _ _ _ _ Hd) as [Hne Hpol]. unfold still_blocked. rewrite Ha.
    case_bool_decide; [done|]. rewrite bool_decide_true by done.
    rewrite bool_decide_true; [done|]. unfold approved_ids.
    destruct (Hall n a Hn Ha) as (u & Hu & Hlt). apply (approved_ids_complete _ _ _ _ _ lm'); [done| |].
    - apply candidate_in; [|intros Hi; by apply Hne, (Hself _ _ Ha)].
      apply list_elem_of_fmap. exists (to_lowercase n, a). split; [done|]. by apply elem_of_map_to_list.
    - intros i. eexists. split; [exact Hu|]. simpl. apply Hlt. }
  destruct (filter _ bl) as [|y l'] eqn:Hfl; [done|]. exfalso.
  assert (y ∈ filter (λ n, still_blocked (approved_ids false (approved_again_clock w) project (id sender) cands ld')
    (recipient_map r) n = true) bl) as Hy by (rewrite Hfl; left).
  apply list_elem_of_filter in Hy as [Hy1 Hy2]. rewrite Hstill in Hy1; done.
Qed.

End gate.

(** ** The theorems at work *)

Module GateRuns.

#[local] Existing Instance RefGlob.ref_globset.
#[local] Existing Instance ReservationRuns.plain_decode.

Definition blue : Agent := {| id := 1; name := lit "BlueLake"; contact_policy := lit "auto" |}.
Definition red : Agent := {| id := 2; name := lit "RedPeak"; contact_policy := lit "contacts_only" |}.
Definition green : Agent := {| id := 3; name := lit "GreenDog"; contact_policy := lit "open" |}.

Definition resolve (n : str) : Resolution :=
  if bool_decide (n = lit "BlueLake") then Found blue
  else if bool_decide (n = lit "RedPeak") then Found red
  else if bool_decide (n = lit "GreenDog") then Found green else Missing.

Lemma resolve_consistent : consistent resolve.
Proof.
  assert (∀ n a, resolve n = Found a → a ∈ [blue; red; green]) as Hr.
  { intros n a. unfold resolve. repeat case_bool_decide; intros [= <-]; [left|right; left|right; right; left]. }
  split; intros n1 n2 a1 a2 H1%Hr H2%Hr; rewrite !elem_of_cons, elem_of_nil in H1, H2;
    destruct H1 as [->|[->|[->|[]]]], H2 as [->|[->|[->|[]]]]; by vm_compute.
Qed.

Definition config : Config :=
  {| contact_enforcement_enabled := true; contact_auto_ttl_seconds := 86400; messaging_auto_handshake_on_block := true |}.

Definition world : World :=
  {| mail := Mail.empty_db ∅; mail_at_store := Mail.empty_db ∅;
     reservations := {| ReservationDb.rows := []; ReservationDb.releases := ∅; ReservationDb.sequence := 0 |};
     reservations_now := 1000; since_now := 1000; approved_clock := λ _, 1000; handshake_clock := λ _, (1010, 1020);
     handshake_works := λ _, true; approved_again_clock := λ _, 1030; faults := no_faults |}.

Definition draft : Mail.Draft :=
  {| Mail.draft_project := 1; Mail.draft_sender := 1; Mail.draft_subject := lit "hello"; Mail.draft_body := [];
     Mail.draft_thread := None; Mail.draft_importance := lit "normal"; Mail.draft_ack := false;
     Mail.draft_attachments := lit "[]" |}.

Definition links : Contacts.Db := ContactsFacts.empty_db [].

Lemma links_represent : represents links ∅.
Proof. apply empty_represents. Qed.

(** To an open agent and to the sender, twice the same. *)
Definition sent := send_message resolve config (Some false) world MailRuns.no_triggers MailRuns.honest 2000 blue
  [lit "GreenDog"; lit " greendog "] [lit "BlueLake"] [] draft links.

Lemma send_message_respects_policies_witness :
  ∃ mid row md', sent = (inl (mid, row), md', links) ∧ is_Some (Mail.recipients md' !! (mid, 3)) ∧
    ∃ a, id a = 3 ∧ (∃ n, resolve n = Found a) ∧
      permits blue (recent_ground config world 1 blue [] a) (approves 1000 ∅ (direct 1 1 3)) a.
Proof.
  destruct sent as [[[[mid row]|e] md'] ld'] eqn:Hs; [|vm_compute in Hs; discriminate].
  destruct (send_message_respects_policies resolve config (Some false) world MailRuns.no_triggers MailRuns.honest 2000
    blue [lit "GreenDog"; lit " greendog "] [lit "BlueLake"] [] draft links ∅ 1000 mid row md' ld')
    as [-> Hall]; [apply resolve_consistent|reflexivity|reflexivity|apply links_represent|by intros|apply empty_wf|exact Hs|].
  exists mid, row, md'. split; [reflexivity|].
  assert (Mail.recipients md' !! (mid, 3) = Some {| Mail.kind := lit "to"; Mail.read_ts := None; Mail.ack_ts := None |}) as Hr.
  { vm_compute in Hs. injection Hs as <- _ <-. vm_compute. reflexivity. }
  split; [by rewrite Hr|]. exact (Hall 3 _ Hr).
Defined.

Definition to_red : Recipients :=
  {| recipient_map := <[to_lowercase (name red) := red]> ∅; all_recipients := [(2, lit "to")] |}.

Lemma to_red_ok : resolved_ok resolve to_red [lit "RedPeak"].
Proof.
  assert (resolve_recipients resolve [lit "RedPeak"] [] [] =
    inl {| recipients := to_red; resolved_to := [lit "RedPeak"]; resolved_cc := []; resolved_bcc := [] |}) as Hr
    by (vm_compute; reflexivity).
  apply (resolve_recipients_ok _ _ _ _ _ resolve_consistent Hr).
Qed.

(** The reservations cannot be read; an open recipient passes nevertheless. *)
Definition to_green : Recipients :=
  {| recipient_map := <[to_lowercase (name green) := green]> ∅; all_recipients := [(3, lit "to")] |}.
Definition failing : World :=
  with_faults {| thread_fails := true; names_fail := true; reservations_fail := true; recent_fails := true;
                 approved_fails := true; approved_again_fails := true |} world.

Lemma failures_never_open_the_gate_witness :
  (contact_gate config false (λ _, true) (with_faults no_faults failing) 1 blue [] to_green [lit "GreenDog"] links).1 = None.
Proof. apply failures_never_open_the_gate. vm_compute. reflexivity. Defined.

(** A stranger is refused by an agent that wants contacts, unless the
    handshake is automatic. *)
Lemma auto_handshake_opens_the_gate_witness :
  (contact_gate config false (λ _, true) world 1 blue [] to_red [lit "RedPeak"] links).1
    = Some (ContactRequired [lit "RedPeak"] []) ∧
  (contact_gate config true (λ _, true) world 1 blue [] to_red [lit "RedPeak"] links).1 = None.
Proof.
  split; [vm_compute; reflexivity|].
  apply (auto_handshake_opens_the_gate resolve config (λ _, true) world 1 blue [] to_red [lit "RedPeak"] links ∅).
  - apply resolve_consistent.
  - apply to_red_ok.
  - reflexivity.
  - apply links_represent.
  - reflexivity.
  - reflexivity.
  - reflexivity.
  - intros i j. vm_compute. reflexivity.
  - intros k a. unfold to_red. simpl. intros [[_ <-]|[_ Hk]]%lookup_insert_Some; [discriminate|by rewrite lookup_empty in Hk].
  - intros n a Hn Ha. apply list_elem_of_singleton in Hn as ->. vm_compute in Ha. injection Ha as <-. right. by vm_compute.
Defined.

End GateRuns.
