(* ===== verification/CommitCoalescer.v ===== *)
(** * The commit coalescer ([mcp-agent-mail-storage/src/lib.rs])

    Callers hand in commit requests and return at once; a pool of workers
    drains the queue of one repository at a time, merges what it drained into
    few commits and puts back what failed.  A repository has a queue, a spill
    buffer for what does not fit in it, a counter of both and a flag that one
    worker holds.

    Threads are interleaved at their accesses to shared memory: a step is one
    critical section of a lock or one atomic operation.  What the world
    decides is a parameter of the step: what git answers, the clock, the order
    in which a map is walked.  Panics unwind, as they do outside the release
    profile. *)

From stdpp Require Import base numbers tactics list gmap strings pretty.
From S2P Require Import Prelude.
Open Scope Z_scope.

Module CommitCoalescer.

(** ** Data *)

Record CommitFields := {
  enqueued_at : Z;
  author_name : str;
  author_email : str;
  message : str;
  rel_paths : list str;
}.

Record SpillRepo := {
  sp_pending : Z;
  sp_earliest : Z;
  dirty_all : bool;
  sp_paths : gset str;
  sp_author_name : str;
  sp_author_email : str;
  first_lines : list str;
  message_total : Z;
}.

Record SpilledWork := {
  w_pending : Z;
  w_earliest : Z;
  w_dirty_all : bool;
  w_paths : list str;
  w_author_name : str;
  w_author_email : str;
  w_first_lines : list str;
  w_message_total : Z;
}.

Record RepoMetrics := {
  enqueued_total : Z;
  drained_total : Z;
  commits_total : Z;
  errors_total : Z;
  latency_us_sum : Z;
  latency_us_count : Z;
}.

Record RepoQueue := {
  queue : list CommitFields;
  spill : option SpillRepo;
  depth : Z;
  processing : bool;
  last_serviced_us : Z;
  metrics : RepoMetrics;
}.

(** What is added up over all repositories; the average batch size, a
    floating-point number computed from [batch_sizes], is left out. *)
Record QueueStats := { enqueued : Z; batched : Z; commits : Z; errors : Z }.

(** The gauges of the process that the backpressure reads. *)
Record Gauges := { commit_pending_requests : Z; commit_peak_pending : Z; commit_over_80_since_us : Z }.

Definition COALESCER_MAX_BATCH_SIZE : nat := 10.
Definition COMMIT_COALESCER_SOFT_CAP : Z := 8192.
Definition COALESCER_MAX_WORKERS : nat := 32.
Definition COALESCER_SPILL_PATH_CAP : nat := 4096.
Definition COALESCER_SPILL_MESSAGE_CAP : nat := 32.
Definition COALESCER_SPILL_MESSAGE_LINE_MAX_CHARS : nat := 120.

Definition coalescer_worker_count (parallelism : option nat) : nat :=
  Nat.max 2 (Nat.min COALESCER_MAX_WORKERS (default 4%nat parallelism)).

Definition fetch_add (x n : Z) : Z := u64_wrap (x + n).
Definition saturating_add (x n : Z) : Z := Z.min u64_max (x + n).

(** ** The queue and the spill of a repository *)

Definition set_queue (q : list CommitFields) (d : Z) (rq : RepoQueue) : RepoQueue :=
  {| queue := q; spill := spill rq; depth := d; processing := processing rq;
     last_serviced_us := last_serviced_us rq; metrics := metrics rq |}.
Definition set_spill (sp : option SpillRepo) (d : Z) (rq : RepoQueue) : RepoQueue :=
  {| queue := queue rq; spill := sp; depth := d; processing := processing rq;
     last_serviced_us := last_serviced_us rq; metrics := metrics rq |}.
Definition set_depth (d : Z) (rq : RepoQueue) : RepoQueue := set_queue (queue rq) d rq.
Definition set_processing (b : bool) (rq : RepoQueue) : RepoQueue :=
  {| queue := queue rq; spill := spill rq; depth := depth rq; processing := b;
     last_serviced_us := last_serviced_us rq; metrics := metrics rq |}.
Definition set_serviced (now : Z) (rq : RepoQueue) : RepoQueue :=
  {| queue := queue rq; spill := spill rq; depth := depth rq; processing := processing rq;
     last_serviced_us := now; metrics := metrics rq |}.
Definition set_metrics (m : RepoMetrics) (rq : RepoQueue) : RepoQueue :=
  {| queue := queue rq; spill := spill rq; depth := depth rq; processing := processing rq;
     last_serviced_us := last_serviced_us rq; metrics := m |}.

Definition new_metrics : RepoMetrics :=
  {| enqueued_total := 0; drained_total := 0; commits_total := 0; errors_total := 0;
     latency_us_sum := 0; latency_us_count := 0 |}.
Definition new_repo : RepoQueue :=
  {| queue := []; spill := None; depth := 0; processing := false; last_serviced_us := 0; metrics := new_metrics |}.

(** [lines().next()]: up to the first line feed, without the carriage return
    before it. *)
Fixpoint first_line (s : str) : str :=
  match s with
  | [] => []
  | 10%N :: _ => []
  | 13%N :: 10%N :: _ => []
  | c :: s => c :: first_line s
  end.

(** [paths.insert] one by one until the cap is passed. *)
Fixpoint insert_paths (ps : list str) (paths : gset str) : bool * gset str :=
  match ps with
  | [] => (false, paths)
  | p :: ps =>
      let paths := {[p]} ∪ paths in
      if (COALESCER_SPILL_PATH_CAP <? size paths)%nat then (true, ∅) else insert_paths ps paths
  end.

Definition new_spill (at_ : Z) (name email : str) : SpillRepo :=
  {| sp_pending := 0; sp_earliest := at_; dirty_all := false; sp_paths := ∅; sp_author_name := name;
     sp_author_email := email; first_lines := []; message_total := 0 |}.

Definition add_to_spill (f : CommitFields) (e : SpillRepo) : SpillRepo :=
  let line := take COALESCER_SPILL_MESSAGE_LINE_MAX_CHARS (trim (first_line (message f))) in
  let '(dirty, ps) := if dirty_all e then (true, sp_paths e) else insert_paths (rel_paths f) (sp_paths e) in
  {| sp_pending := saturating_add (sp_pending e) 1;
     sp_earliest := if enqueued_at f <? sp_earliest e then enqueued_at f else sp_earliest e;
     dirty_all := dirty;
     sp_paths := ps;
     sp_author_name := author_name f;
     sp_author_email := author_email f;
     first_lines := if negb (bool_decide (line = [])) && (length (first_lines e) <? COALESCER_SPILL_MESSAGE_CAP)%nat
                    then first_lines e ++ [line] else first_lines e;
     message_total := saturating_add (message_total e) 1 |}.

Definition spill_to_repo (f : CommitFields) (rq : RepoQueue) : RepoQueue :=
  let e := default (new_spill (enqueued_at f) (author_name f) (author_email f)) (spill rq) in
  set_spill (Some (add_to_spill f e)) (fetch_add (depth rq) 1) rq.

(** [None]: the queue is full after all. *)
Definition push_back (cap : nat) (f : CommitFields) (rq : RepoQueue) : option RepoQueue :=
  if (length (queue rq) <? cap)%nat then Some (set_queue (queue rq ++ [f]) (fetch_add (depth rq) 1) rq) else None.

Definition coalescer_depth_decrement (d drained : Z) : Z := u64_saturating_sub d drained.

Definition same_author (a b : CommitFields) : bool :=
  bool_decide (author_name a = author_name b) && bool_decide (author_email a = author_email b).

(** The front of the queue that goes into one batch: [first] is the head of
    the batch, [room] what it may still take. *)
Fixpoint take_batch (first : option CommitFields) (room : nat) (q : list CommitFields) :
    list CommitFields * list CommitFields :=
  match room, q with
  | S room, f :: q' =>
      if match first with Some g => same_author f g | None => true end then
        let '(batch, rest) := take_batch (Some (default f first)) room q' in (f :: batch, rest)
      else ([], q)
  | _, _ => ([], q)
  end.

Definition drain_queue (rq : RepoQueue) : list CommitFields * bool * RepoQueue :=
  let '(batch, rest) := take_batch None COALESCER_MAX_BATCH_SIZE (queue rq) in
  let d := if bool_decide (batch = []) then depth rq
           else coalescer_depth_decrement (depth rq) (Z.of_nat (length batch)) in
  (batch, bool_decide (rest = []), set_queue rest d rq).

Definition spill_count (sp : option SpillRepo) : Z := from_option sp_pending 0 sp.
Definition work_count (w : option SpilledWork) : Z := from_option w_pending 0 w.

Definition coalescer_drain_repo_spill (rq : RepoQueue) : option SpilledWork * RepoQueue :=
  match spill rq with
  | None => (None, rq)
  | Some e =>
      if sp_pending e =? 0 then (None, set_spill None (depth rq) rq)
      else (Some {| w_pending := sp_pending e; w_earliest := sp_earliest e; w_dirty_all := dirty_all e;
                    w_paths := elements (sp_paths e); w_author_name := sp_author_name e;
                    w_author_email := sp_author_email e; w_first_lines := first_lines e;
                    w_message_total := message_total e |},
            set_spill None (coalescer_depth_decrement (depth rq) (sp_pending e)) rq)
  end.

Definition coalescer_requeue_requests (failed : list CommitFields) (rq : RepoQueue) : RepoQueue :=
  if bool_decide (failed = []) then rq
  else set_queue (failed ++ queue rq) (fetch_add (depth rq) (Z.of_nat (length failed))) rq.

Definition merge_spilled (w : SpilledWork) (e : SpillRepo) : SpillRepo :=
  let '(dirty, ps) :=
    if dirty_all e || w_dirty_all w then (true, ∅) else insert_paths (w_paths w) (sp_paths e) in
  {| sp_pending := saturating_add (sp_pending e) (w_pending w);
     sp_earliest := if w_earliest w <? sp_earliest e then w_earliest w else sp_earliest e;
     dirty_all := dirty;
     sp_paths := ps;
     sp_author_name := w_author_name w;
     sp_author_email := w_author_email w;
     first_lines := first_lines e ++ take (COALESCER_SPILL_MESSAGE_CAP - length (first_lines e)) (w_first_lines w);
     message_total := saturating_add (message_total e) (w_message_total w) |}.

Definition coalescer_restore_spilled_work (w : SpilledWork) (rq : RepoQueue) : RepoQueue :=
  if w_pending w =? 0 then rq
  else
    let e := default (new_spill (w_earliest w) (w_author_name w) (w_author_email w)) (spill rq) in
    set_spill (Some (merge_spilled w e)) (fetch_add (depth rq) (w_pending w)) rq.

(** ** Committing *)

(** What one call of [coalescer_commit_with_retry] or
    [coalescer_commit_all_with_retry] did. *)
Inductive GitResult := GitOk | GitErr | GitPanic.

(** A commit that was made; without paths it is one of everything. *)
Record Commit := {
  c_repo : str;
  c_author_name : str;
  c_author_email : str;
  c_message : str;
  c_paths : option (list str);
}.

Record CommitOutcome := { committed_requests : Z; committed_commits : Z; failed_requests : list CommitFields }.
Record SpillOutcome := { s_committed_requests : Z; s_committed_commits : Z; failed_work : option SpilledWork }.

(** No path occurs twice: [all_paths.insert] succeeds throughout. *)
Fixpoint distinct (seen : gset str) (ps : list str) : bool :=
  match ps with
  | [] => true
  | p :: ps => if decide (p ∈ seen) then false else distinct ({[p]} ∪ seen) ps
  end.

Definition can_merge (requests : list CommitFields) : bool := distinct ∅ (requests ≫= rel_paths).

Definition nl : str := [10%N].
Definition show (n : Z) : str := lit (pretty (Z.to_N n)).

Fixpoint join_lines (ls : list str) : str :=
  match ls with [] => [] | [l] => l | l :: ls => l ++ nl ++ join_lines ls end.

Definition combined_message (requests : list CommitFields) : str :=
  lit "batch: " ++ show (Z.of_nat (length requests)) ++ lit " ops coalesced" ++ nl ++ nl ++
  join_lines ((λ r, lit "- " ++ first_line (message r)) <$> requests).

Definition single_commit (repo : str) (r : CommitFields) : Commit :=
  {| c_repo := repo; c_author_name := author_name r; c_author_email := author_email r;
     c_message := message r; c_paths := Some (rel_paths r) |}.

Definition merged_commit (repo : str) (head : CommitFields) (requests : list CommitFields) : Commit :=
  {| c_repo := repo; c_author_name := author_name head; c_author_email := author_email head;
     c_message := combined_message requests; c_paths := Some (requests ≫= rel_paths) |}.

(** One commit per request; [None] in the last place is a panic. *)
Fixpoint sequential (repo : str) (git : nat → GitResult) (requests : list CommitFields) :
    list Commit * option (list CommitFields) :=
  match requests with
  | [] => ([], Some [])
  | r :: rs =>
      match git 0%nat with
      | GitPanic => ([], None)
      | GitOk => let '(log, failed) := sequential repo (λ n, git (S n)) rs in (single_commit repo r :: log, failed)
      | GitErr => let '(log, failed) := sequential repo (λ n, git (S n)) rs in (log, (cons r) <$> failed)
      end
  end.

Definition push_sizes (n size : nat) (sizes : list nat) : list nat :=
  let sizes := sizes ++ replicate n size in drop (length sizes - 100) sizes.

Definition add_stats (c b e : Z) (s : QueueStats) : QueueStats :=
  {| enqueued := enqueued s; batched := u64_wrap (batched s + b); commits := u64_wrap (commits s + c);
     errors := u64_wrap (errors s + e) |}.

Definition BatchResult : Type := list Commit * option CommitOutcome * (QueueStats * list nat).

Definition batch_ok (num_commits batched_items : nat) (st : QueueStats * list nat) : option CommitOutcome * (QueueStats * list nat) :=
  (Some {| committed_requests := Z.of_nat batched_items; committed_commits := Z.of_nat num_commits; failed_requests := [] |},
   (add_stats (Z.of_nat num_commits) (Z.of_nat batched_items) 0 st.1,
    push_sizes num_commits (batched_items / num_commits) st.2)).

Definition batch_err (requests : list CommitFields) (st : QueueStats * list nat) : option CommitOutcome * (QueueStats * list nat) :=
  (Some {| committed_requests := 0; committed_commits := 0; failed_requests := requests |}, (add_stats 0 0 1 st.1, st.2)).

(** The commits made, the outcome ([None] when git panicked) and the
    statistics. *)
Definition coalescer_commit_batch (repo : str) (git : nat → GitResult) (requests : list CommitFields)
    (st : QueueStats * list nat) : BatchResult :=
  match requests with
  | [] => ([], Some {| committed_requests := 0; committed_commits := 0; failed_requests := [] |}, st)
  | head :: _ =>
      let n := length requests in
      if can_merge requests && (1 <? n)%nat && (n <=? COALESCER_MAX_BATCH_SIZE)%nat then
        match git 0%nat with
        | GitOk => let '(o, st) := batch_ok 1 n st in ([merged_commit repo head requests], o, st)
        | GitErr => let '(o, st) := batch_err requests st in ([], o, st)
        | GitPanic => ([], None, st)
        end
      else if (n =? 1)%nat then
        match git 0%nat with
        | GitOk => let '(o, st) := batch_ok 1 1 st in ([single_commit repo head], o, st)
        | GitErr => let '(o, st) := batch_err requests st in ([], o, st)
        | GitPanic => ([], None, st)
        end
      else
        match sequential repo git requests with
        | (log, None) => (log, None, st)
        | (log, Some failed) =>
            let total := length log in
            if bool_decide (failed = []) then let '(o, st) := batch_ok total total st in (log, o, st)
            else
              (log,
               Some {| committed_requests := Z.of_nat (n - length failed);
                       committed_commits := Z.of_nat (n - length failed); failed_requests := failed |},
               (add_stats (Z.of_nat total) (Z.of_nat total) (Z.of_nat (length failed)) st.1,
                push_sizes total 1 st.2))
        end
  end.

Definition spill_message (w : SpilledWork) : str :=
  let visible := Z.of_nat (length (w_first_lines w)) in
  lit "spill: " ++ show (w_pending w) ++ lit " ops coalesced" ++
  (if w_dirty_all w then lit " (commit-all)" else []) ++ nl ++ nl ++
  (w_first_lines w ≫= λ l, lit "- " ++ l ++ nl) ++
  (if visible <? w_message_total w then lit "- ... (+" ++ show (w_message_total w - visible) ++ lit " more)" ++ nl else []).

Definition spill_commit (repo : str) (w : SpilledWork) : Commit :=
  {| c_repo := repo; c_author_name := w_author_name w; c_author_email := w_author_email w;
     c_message := spill_message w; c_paths := if w_dirty_all w then None else Some (w_paths w) |}.

Definition coalescer_commit_spilled_work (repo : str) (git : nat → GitResult) (w : SpilledWork)
    (st : QueueStats * list nat) : list Commit * option SpillOutcome * (QueueStats * list nat) :=
  let ok (count : Z) : option SpillOutcome * (QueueStats * list nat) :=
    (Some {| s_committed_requests := w_pending w; s_committed_commits := count; failed_work := None |},
     (add_stats count (w_pending w) 0 st.1,
      if 0 <? count then push_sizes 1 (Z.to_nat (w_pending w)) st.2 else st.2)) in
  if w_pending w =? 0 then ([], Some {| s_committed_requests := 0; s_committed_commits := 0; failed_work := None |}, st)
  else if negb (w_dirty_all w) && bool_decide (w_paths w = []) then let '(o, st) := ok 0 in ([], o, st)
  else
    match git 0%nat with
    | GitOk => let '(o, st) := ok 1 in ([spill_commit repo w], o, st)
    | GitErr =>
        ([], Some {| s_committed_requests := 0; s_committed_commits := 0; failed_work := Some w |},
         (add_stats 0 0 1 st.1, st.2))
    | GitPanic => ([], None, st)
    end.

(** ** One commit: attempts and waits *)

Module Retry.

Definition MAX_RETRIES : nat := 7.

(** What [commit_paths] or [commit_all] returned. *)
Inductive IndexResult := Done | IndexLocked | OtherError.

Inductive CommitError := OpenFailed | GitIndexLock | GitError.

(** The world, by attempt: whether the repository opens, what the commit
    without the lock and those with it return, whether a stale lock was
    removed and the microseconds of the clock; [open] is asked once more for
    the last resort. *)
Record World := {
  open : nat → bool;
  lockfree : bool;
  index : nat → IndexResult;
  stale_lock_removed : nat → bool;
  subsec_micros : nat → Z;
}.

Inductive Event := OpenRepo | LockfreeCommit | IndexCommit | CleanStaleLock | Sleep (ms : Z).

Definition base_ms (attempt : nat) : Z := 50 * Z.shiftl 1 (Z.of_nat (Nat.min attempt 5)).
Definition backoff (w : World) (attempt : nat) : Z :=
  base_ms attempt + (subsec_micros w attempt) `mod` (base_ms attempt / 2 + 1).

(** After the last attempt met the lock. *)
Definition last_resort (w : World) (attempt : nat) : option CommitError * list Event :=
  if stale_lock_removed w attempt then
    if open w (S attempt) then
      (match index w (S attempt) with Done => None | IndexLocked | OtherError => Some GitError end,
       [CleanStaleLock; OpenRepo; IndexCommit])
    else (Some OpenFailed, [CleanStaleLock; OpenRepo])
  else (Some GitIndexLock, [CleanStaleLock]).

(** [for attempt in 0..=MAX_RETRIES], with [budget] attempts left after this
    one. *)
Fixpoint index_loop (w : World) (budget attempt : nat) : option CommitError * list Event :=
  if open w attempt then
    match index w attempt with
    | Done => (None, [OpenRepo; IndexCommit])
    | OtherError => (Some GitError, [OpenRepo; IndexCommit])
    | IndexLocked =>
        match budget with
        | O => let '(r, ev) := last_resort w attempt in (r, OpenRepo :: IndexCommit :: ev)
        | S budget =>
            let '(r, ev) := index_loop w budget (S attempt) in
            (r, OpenRepo :: IndexCommit :: Sleep (backoff w attempt) ::
                (if (3 <=? attempt)%nat then [CleanStaleLock] else []) ++ ev)
        end
    end
  else (Some OpenFailed, [OpenRepo]).

(** [None] is success. *)
Definition coalescer_commit_all_with_retry (w : World) : option CommitError * list Event :=
  index_loop w MAX_RETRIES 0.

(** The repository is opened for the commit without the lock first. *)
Definition coalescer_commit_with_retry (opens : bool) (w : World) : option CommitError * list Event :=
  if opens then
    if lockfree w then (None, [OpenRepo; LockfreeCommit])
    else let '(r, ev) := index_loop w MAX_RETRIES 0 in (r, OpenRepo :: LockfreeCommit :: ev)
  else (Some OpenFailed, [OpenRepo]).

End Retry.

(** ** Threads *)

(** What a panic leaves to put back. *)
Inductive Drained := DBatch (l : list CommitFields) | DSpill (w : SpilledWork).

(** Where a thread is inside an operation on one repository. *)
Inductive PC :=
  (** [enqueue]: counted as pending; depth read; queue found full; stored *)
  | Counted (f : CommitFields) (cap : nat)
  | Measured (f : CommitFields) (cap : nat) (seen : Z)
  | Full (f : CommitFields)
  | Stored
  (** the gauges get the number of pending requests, then the thread goes on *)
  | Gauge (rise : bool) (p : Z) (next : PC)
  (** a worker: repository chosen; claimed; queue drained; all drained *)
  | Chosen
  | Claimed
  | QueueDrained (batch : list CommitFields) (queue_is_empty : bool)
  (** nothing was drained: the depth is recomputed *)
  | Reconcile
  | ReconcileSpill (queue_depth : Z)
  | ReconcileStore (actual : Z)
  (** the loop over the batch *)
  | Working (batch : list CommitFields) (w : option SpilledWork)
  | BatchDone (rest chunk : list CommitFields) (o : CommitOutcome) (w : option SpilledWork)
  | Requeue (rest failed : list CommitFields) (w : option SpilledWork)
  | SpillDone (w : SpilledWork) (o : SpillOutcome)
  | SpillSettle (committed : Z) (commits : Z)
  | Finishing
  (** the scan for more work; the flag is cleared last *)
  | Serviced
  | MoreWork (todo : list str)
  | Signal
  | Releasing
  (** the guards of a panicking worker *)
  | Unwind (items : list Drained) (restored : bool)
  | PanicSignal
  | PanicRelease.

(** A caller that returned; a worker at the top of its loop, on the condition
    variable, woken, about to pick a repository and picking it. *)
Inductive Thread :=
  | Returned
  | Waiting
  | Parked
  | Woken
  | Pick
  | Scanning (todo : list str) (best : option (str * Z))
  | At (repo : str) (pc : PC)
  | Exited.

(** What all threads share apart from the repositories; [log]: the commits
    made so far. *)
Record Shared := {
  pending_requests : Z;
  wake_tokens : Z;
  shutdown : bool;
  stats : QueueStats;
  batch_sizes : list nat;
  gauges : Gauges;
  log : list Commit;
}.

(** [accepted]: the requests counted so far, for the statements. *)
Record Sys := {
  repos : gmap str RepoQueue;
  shared : Shared;
  threads : gmap nat Thread;
  accepted : list (str * CommitFields);
}.

Definition set_pending (p : Z) (sh : Shared) : Shared :=
  {| pending_requests := p; wake_tokens := wake_tokens sh; shutdown := shutdown sh; stats := stats sh;
     batch_sizes := batch_sizes sh; gauges := gauges sh; log := log sh |}.
Definition set_tokens (n : Z) (sh : Shared) : Shared :=
  {| pending_requests := pending_requests sh; wake_tokens := n; shutdown := shutdown sh; stats := stats sh;
     batch_sizes := batch_sizes sh; gauges := gauges sh; log := log sh |}.
Definition set_gauges (g : Gauges) (sh : Shared) : Shared :=
  {| pending_requests := pending_requests sh; wake_tokens := wake_tokens sh; shutdown := shutdown sh; stats := stats sh;
     batch_sizes := batch_sizes sh; gauges := g; log := log sh |}.
Definition record_commits (cs : list Commit) (st : QueueStats * list nat) (sh : Shared) : Shared :=
  {| pending_requests := pending_requests sh; wake_tokens := wake_tokens sh; shutdown := shutdown sh; stats := st.1;
     batch_sizes := st.2; gauges := gauges sh; log := log sh ++ cs |}.

Definition over_80_threshold : Z := u64_saturating_mul COMMIT_COALESCER_SOFT_CAP 80 / 100.

(** The gauges after the number of pending requests changed; only [enqueue]
    raises the peak. *)
Definition note_pending (rise : bool) (p now : Z) (g : Gauges) : Gauges :=
  {| commit_pending_requests := p;
     commit_peak_pending := if rise then Z.max (commit_peak_pending g) p else commit_peak_pending g;
     commit_over_80_since_us :=
       if (0 <? over_80_threshold) && (over_80_threshold <=? p)
       then if commit_over_80_since_us g =? 0 then now else commit_over_80_since_us g
       else 0 |}.

Definition coalescer_update_pending (drained : Z) (sh : Shared) : Z * Shared :=
  let p := u64_saturating_sub (pending_requests sh) drained in (p, set_pending p sh).

(** A wake token, at most one per worker. *)
Definition coalescer_signal_worker (worker_count : nat) (sh : Shared) : Shared :=
  set_tokens (Z.min (saturating_add (wake_tokens sh) 1) (Z.of_nat worker_count)) sh.

Definition count_drained (committed commits failures : Z) (latencies : list Z) (m : RepoMetrics) : RepoMetrics :=
  {| enqueued_total := enqueued_total m;
     drained_total := fetch_add (drained_total m) committed;
     commits_total := fetch_add (commits_total m) commits;
     errors_total := fetch_add (errors_total m) failures;
     latency_us_sum := foldl fetch_add (latency_us_sum m) latencies;
     latency_us_count := fetch_add (latency_us_count m) (Z.of_nat (length latencies)) |}.

(** [coalescer_restore_drained_work_on_panic]: in this order. *)
Definition drained_work (pending_batch inflight_batch : list CommitFields)
    (pending_spilled inflight_spilled : option SpilledWork) : list Drained :=
  (if bool_decide (pending_batch = []) then [] else [DBatch pending_batch]) ++
  (if bool_decide (inflight_batch = []) then [] else [DBatch inflight_batch]) ++
  from_option (λ w, [DSpill w]) [] pending_spilled ++ from_option (λ w, [DSpill w]) [] inflight_spilled.

Definition restore (d : Drained) (rq : RepoQueue) : RepoQueue :=
  match d with
  | DBatch l => coalescer_requeue_requests l rq
  | DSpill w => coalescer_restore_spilled_work w rq
  end.

(** What the world decides in a step: git's answers, the time, the latencies
    measured. *)
Record World := { git : nat → GitResult; now : Z; latency : CommitFields → Z; spill_latency : Z; keys : list str }.

Section coalescer.
Context (worker_count : nat).

Definition after_drain (batch : list CommitFields) (w : option SpilledWork) : PC :=
  if Z.of_nat (length batch) + work_count w =? 0 then Reconcile else Working batch w.

(** One step of a thread on its repository.  The scan for more work looks at
    the others and is a step of the system. *)
Definition advance (x : World) (repo : str) (pc : PC) (rq : RepoQueue) (sh : Shared) :
    option (RepoQueue * Shared * Thread) :=
  match pc with
  | Counted f cap => Some (rq, sh, At repo (Measured f cap (depth rq)))
  | Measured f cap seen =>
      Some (if seen <? Z.of_nat cap then
              match push_back cap f rq with
              | Some rq => (rq, sh, At repo Stored)
              | None => (rq, sh, At repo (Full f))
              end
            else (rq, sh, At repo (Full f)))
  | Full f => Some (spill_to_repo f rq, sh, At repo Stored)
  | Stored => Some (rq, coalescer_signal_worker worker_count sh, Returned)
  | Gauge rise p next => Some (rq, set_gauges (note_pending rise p (now x) (gauges sh)) sh, At repo next)
  | Chosen =>
      Some (if processing rq then (rq, sh, Pick) else (set_processing true rq, sh, At repo Claimed))
  | Claimed =>
      let '(batch, queue_is_empty, rq) := drain_queue rq in
      Some (rq, sh, At repo (QueueDrained batch queue_is_empty))
  | QueueDrained batch queue_is_empty =>
      let '(w, rq) := if queue_is_empty then coalescer_drain_repo_spill rq else (None, rq) in
      Some (rq, sh, At repo (after_drain batch w))
  | Reconcile => Some (rq, sh, At repo (ReconcileSpill (Z.of_nat (length (queue rq)))))
  | ReconcileSpill n => Some (rq, sh, At repo (ReconcileStore (saturating_add n (spill_count (spill rq)))))
  | ReconcileStore n => Some (set_depth n rq, sh, At repo (Working [] None))
  | Working [] None => Some (rq, sh, At repo Finishing)
  | Working [] (Some w) =>
      let '(cs, o, st) := coalescer_commit_spilled_work repo (git x) w (stats sh, batch_sizes sh) in
      Some (rq, record_commits cs st sh,
            At repo match o with Some o => SpillDone w o | None => Unwind (drained_work [] [] None (Some w)) false end)
  | Working batch w =>
      let chunk := take COALESCER_MAX_BATCH_SIZE batch in
      let rest := drop COALESCER_MAX_BATCH_SIZE batch in
      let '(cs, o, st) := coalescer_commit_batch repo (git x) chunk (stats sh, batch_sizes sh) in
      Some (rq, record_commits cs st sh,
            At repo match o with Some o => BatchDone rest chunk o w | None => Unwind (drained_work rest chunk w None) false end)
  | BatchDone rest chunk o w =>
      let latencies := if committed_requests o =? Z.of_nat (length chunk) then latency x <$> chunk else [] in
      let rq := set_metrics (count_drained (committed_requests o) (committed_commits o)
                               (Z.of_nat (length (failed_requests o))) latencies (metrics rq)) rq in
      let next := Requeue rest (failed_requests o) w in
      if 0 <? committed_requests o then
        let '(p, sh) := coalescer_update_pending (committed_requests o) sh in Some (rq, sh, At repo (Gauge false p next))
      else Some (rq, sh, At repo next)
  | Requeue rest failed w => Some (coalescer_requeue_requests failed rq, sh, At repo (Working rest w))
  | SpillDone w o =>
      let rq := match failed_work o with
                | Some w => coalescer_restore_spilled_work w (set_metrics (count_drained 0 0 1 [] (metrics rq)) rq)
                | None => rq
                end in
      Some (rq, sh, At repo (SpillSettle (s_committed_requests o) (s_committed_commits o)))
  | SpillSettle committed n =>
      let latencies := if 0 <? committed then [spill_latency x] else [] in
      let rq := set_metrics (count_drained committed n 0 latencies (metrics rq)) rq in
      if 0 <? committed then
        let '(p, sh) := coalescer_update_pending committed sh in Some (rq, sh, At repo (Gauge false p Finishing))
      else Some (rq, sh, At repo Finishing)
  | Finishing => Some (set_serviced (now x) rq, sh, At repo Serviced)
  | Serviced | MoreWork _ => None
  | Signal => Some (rq, coalescer_signal_worker worker_count sh, At repo Releasing)
  | Releasing => Some (set_processing false rq, sh, Waiting)
  | Unwind [] restored => Some (rq, sh, At repo (if restored then PanicSignal else PanicRelease))
  | Unwind (d :: items) _ => Some (restore d rq, sh, At repo (Unwind items true))
  | PanicSignal => Some (rq, coalescer_signal_worker worker_count sh, At repo PanicRelease)
  | PanicRelease => Some (set_processing false rq, sh, Exited)
  end.

(** A repository in the scan for the least recently serviced one. *)
Definition consider (p : str) (rq : RepoQueue) (best : option (str * Z)) : option (str * Z) :=
  if (depth rq =? 0) || processing rq then best
  else match best with
       | Some (_, ts) => if last_serviced_us rq <? ts then Some (p, last_serviced_us rq) else best
       | None => Some (p, last_serviced_us rq)
       end.

Definition set_thread (t : nat) (th : Thread) (s : Sys) : Sys :=
  {| repos := repos s; shared := shared s; threads := <[t := th]> (threads s); accepted := accepted s |}.
Definition set_shared (sh : Shared) (s : Sys) : Sys :=
  {| repos := repos s; shared := sh; threads := threads s; accepted := accepted s |}.

Definition new : Sys :=
  {| repos := ∅;
     shared := {| pending_requests := 0; wake_tokens := 0; shutdown := false;
                  stats := {| enqueued := 0; batched := 0; commits := 0; errors := 0 |}; batch_sizes := [];
                  gauges := {| commit_pending_requests := 0; commit_peak_pending := 0; commit_over_80_since_us := 0 |};
                  log := [] |};
     threads := list_to_map ((λ i, (i, Waiting)) <$> seq 0 worker_count);
     accepted := [] |}.

Definition get_or_create_repo (repo : str) (s : Sys) : RepoQueue := default new_repo (repos s !! repo).

(** [enqueue] up to the count of pending requests. *)
Definition begin_enqueue (t : nat) (repo : str) (f : CommitFields) (cap : nat) (s : Sys) : Sys :=
  if bool_decide (rel_paths f = []) then set_thread t Returned s
  else
    let rq := get_or_create_repo repo s in
    let m := metrics rq in
    let rq := set_metrics {| enqueued_total := fetch_add (enqueued_total m) 1; drained_total := drained_total m;
                             commits_total := commits_total m; errors_total := errors_total m;
                             latency_us_sum := latency_us_sum m; latency_us_count := latency_us_count m |} rq in
    let sh := shared s in
    let p := fetch_add (pending_requests sh) 1 in
    {| repos := <[repo := rq]> (repos s);
       shared := {| pending_requests := p; wake_tokens := wake_tokens sh; shutdown := shutdown sh;
                    stats := {| enqueued := u64_wrap (enqueued (stats sh) + 1); batched := batched (stats sh);
                                commits := commits (stats sh); errors := errors (stats sh) |};
                    batch_sizes := batch_sizes sh; gauges := gauges sh; log := log sh |};
       threads := <[t := At repo (Gauge true (saturating_add (pending_requests sh) 1) (Counted f cap))]> (threads s);
       accepted := accepted s ++ [(repo, f)] |}.

Inductive Label :=
  | LEnqueue (t : nat) (repo : str) (f : CommitFields) (cap : nat)
  | LThread (t : nat) (x : World)
  | LFlush
  | LShutdown.

(** One step of a thread. *)
Definition run_thread (t : nat) (x : World) (s : Sys) : option Sys :=
  th ← threads s !! t;
  match th with
  | Returned | Exited => None
  | Waiting => Some (set_thread t (if shutdown (shared s) then Exited else Parked) s)
  | Parked =>
      if 0 <? wake_tokens (shared s) then
        Some (set_thread t Woken (set_shared (set_tokens (wake_tokens (shared s) - 1) (shared s)) s))
      else if shutdown (shared s) then Some (set_thread t Woken s)
      else None
  | Woken => Some (set_thread t (if shutdown (shared s) then Exited else Pick) s)
  | Pick =>
      if decide (keys x ≡ₚ elements (dom (repos s))) then Some (set_thread t (Scanning (keys x) None) s) else None
  | Scanning [] None => Some (set_thread t Waiting s)
  | Scanning [] (Some (p, _)) => Some (set_thread t (At p Chosen) s)
  | Scanning (p :: todo) best =>
      rq ← repos s !! p;
      Some (set_thread t (Scanning todo (consider p rq best)) s)
  | At repo Serviced =>
      if decide (keys x ≡ₚ elements (dom (repos s))) then Some (set_thread t (At repo (MoreWork (keys x))) s) else None
  | At repo (MoreWork []) => Some (set_thread t (At repo Releasing) s)
  | At repo (MoreWork (p :: todo)) =>
      rq ← repos s !! p;
      Some (set_thread t (At repo (if 0 <? depth rq then Signal else MoreWork todo)) s)
  | At repo pc =>
      rq ← repos s !! repo;
      '(rq', sh', th') ← advance x repo pc rq (shared s);
      Some {| repos := <[repo := rq']> (repos s); shared := sh'; threads := <[t := th']> (threads s);
              accepted := accepted s |}
  end.

Definition run_label (l : Label) (s : Sys) : option Sys :=
  match l with
  | LEnqueue t repo f cap =>
      match threads s !! t with None => Some (begin_enqueue t repo f cap s) | Some _ => None end
  | LThread t x => run_thread t x s
  | LFlush => Some (set_shared (set_tokens (Z.of_nat worker_count) (shared s)) s)
  | LShutdown =>
      Some (set_shared
        {| pending_requests := pending_requests (shared s); wake_tokens := wake_tokens (shared s); shutdown := true;
           stats := stats (shared s); batch_sizes := batch_sizes (shared s); gauges := gauges (shared s);
           log := log (shared s) |} s)
  end.

Definition step (s s' : Sys) : Prop := ∃ l, run_label l s = Some s'.
Definition reachable (s : Sys) : Prop := rtc step new s.

(** What [flush_sync] waits for. *)
Definition all_empty (s : Sys) : bool :=
  negb (0 <? pending_requests (shared s)) &&
  bool_decide (map_Forall (λ _ rq, depth rq = 0 ∧ processing rq = false) (repos s)).

(** [stats]: the number of requests queued or spilled; [per_repo_stats]: the
    mean latency of one repository. *)
Definition queue_size (s : Sys) : Z := msum depth (repos s).
Definition avg_commit_latency_us (m : RepoMetrics) : Z :=
  if latency_us_count m =? 0 then 0 else latency_us_sum m / latency_us_count m.

End coalescer.

End CommitCoalescer.
