(* ===== verification/CommitCoalescerFacts.v ===== *)
(** * What the commit coalescer keeps

    The theorems about [CommitCoalescer]: no request is lost, the count of
    pending requests is exact, one worker holds a repository, spills stay
    within their caps, and how two races strand a request. *)

From stdpp Require Import base numbers tactics list gmap strings pretty.
From S2P Require Import Prelude CommitCoalescer.
Import CommitCoalescer.
Open Scope Z_scope.

(** ** Where a request is *)

Definition commit_covers (c : Commit) (repo : str) (f : CommitFields) : Prop :=
  c_repo c = repo ∧ from_option (λ ps, rel_paths f ⊆ ps) True (c_paths c).

Definition spill_covers (e : SpillRepo) (f : CommitFields) : Prop :=
  dirty_all e = true ∨ ∀ p, p ∈ rel_paths f → p ∈ sp_paths e.

Definition work_covers (w : SpilledWork) (f : CommitFields) : Prop :=
  w_dirty_all w = true ∨ rel_paths f ⊆ w_paths w.

Definition opt_covers (w : option SpilledWork) (f : CommitFields) : Prop := from_option (λ w, work_covers w f) False w.

Definition drained_covers (f : CommitFields) (d : Drained) : Prop :=
  match d with DBatch l => f ∈ l | DSpill w => work_covers w f end.

(** A thread holds the request. *)
Fixpoint pc_holds (pc : PC) (f : CommitFields) : Prop :=
  match pc with
  | Counted g _ | Measured g _ _ | Full g => g = f
  | Gauge _ _ next => pc_holds next f
  | QueueDrained batch _ => f ∈ batch
  | Working batch w => f ∈ batch ∨ opt_covers w f
  | BatchDone rest _ o w => f ∈ rest ∨ f ∈ failed_requests o ∨ opt_covers w f
  | Requeue rest failed w => f ∈ rest ∨ f ∈ failed ∨ opt_covers w f
  | SpillDone _ o => opt_covers (failed_work o) f
  | Unwind items _ => Exists (drained_covers f) items
  | _ => False
  end.

Definition thread_holds (th : Thread) (repo : str) (f : CommitFields) : Prop :=
  match th with At r pc => r = repo ∧ pc_holds pc f | _ => False end.

Definition queued (rq : RepoQueue) (f : CommitFields) : Prop :=
  f ∈ queue rq ∨ from_option (λ e, spill_covers e f) False (spill rq).

Definition in_log (cs : list Commit) (repo : str) (f : CommitFields) : Prop :=
  Exists (λ c, commit_covers c repo f) cs.

(** ** How many requests there are *)

Definition rq_weight (rq : RepoQueue) : Z := Z.of_nat (length (queue rq)) + spill_count (spill rq).

Definition drained_weight (d : Drained) : Z :=
  match d with DBatch l => Z.of_nat (length l) | DSpill w => w_pending w end.

Fixpoint items_weight (items : list Drained) : Z :=
  match items with [] => 0 | d :: items => drained_weight d + items_weight items end.

Definition len {A} (l : list A) : Z := Z.of_nat (length l).

Fixpoint pc_weight (pc : PC) : Z :=
  match pc with
  | Counted _ _ | Measured _ _ _ | Full _ => 1
  | Gauge _ _ next => pc_weight next
  | QueueDrained batch _ => len batch
  | Working batch w => len batch + work_count w
  | BatchDone rest _ o w => len rest + committed_requests o + len (failed_requests o) + work_count w
  | Requeue rest failed w => len rest + len failed + work_count w
  | SpillDone _ o => s_committed_requests o + work_count (failed_work o)
  | SpillSettle committed _ => committed
  | Unwind items _ => items_weight items
  | _ => 0
  end.

Definition thread_weight (th : Thread) : Z := match th with At _ pc => pc_weight pc | _ => 0 end.

(** ** Well-formed spills *)

Definition lines_ok (ls : list str) : Prop :=
  (length ls ≤ COALESCER_SPILL_MESSAGE_CAP)%nat ∧
  Forall (λ l, (length l ≤ COALESCER_SPILL_MESSAGE_LINE_MAX_CHARS)%nat) ls.

Definition spill_ok (e : SpillRepo) : Prop :=
  0 < sp_pending e ∧ lines_ok (first_lines e) ∧ (size (sp_paths e) ≤ COALESCER_SPILL_PATH_CAP)%nat ∧
  (dirty_all e = true → sp_paths e = ∅).

Definition work_ok (w : SpilledWork) : Prop :=
  0 < w_pending w ∧ lines_ok (w_first_lines w) ∧ (length (w_paths w) ≤ COALESCER_SPILL_PATH_CAP)%nat ∧
  (w_dirty_all w = true → w_paths w = []).

Definition opt_ok (w : option SpilledWork) : Prop := from_option work_ok True w.
Definition rq_ok (rq : RepoQueue) : Prop := from_option spill_ok True (spill rq).
Definition drained_ok (d : Drained) : Prop := match d with DBatch _ => True | DSpill w => work_ok w end.

Fixpoint pc_ok (pc : PC) : Prop :=
  match pc with
  | Gauge _ _ next => pc_ok next
  | Working _ w | Requeue _ _ w => opt_ok w
  | BatchDone _ _ o w => 0 ≤ committed_requests o ∧ opt_ok w
  | SpillDone _ o => 0 ≤ s_committed_requests o ∧ opt_ok (failed_work o)
  | SpillSettle committed _ => 0 ≤ committed
  | Unwind items _ => Forall drained_ok items
  | _ => True
  end.

Definition thread_ok (th : Thread) : Prop := match th with At _ pc => pc_ok pc | _ => True end.

Lemma items_weight_nonneg items : Forall drained_ok items → 0 ≤ items_weight items.
Proof. induction 1 as [|[l|w] items Hd _ IH]; simpl in *; [done|lia|]. destruct Hd as [? _]. lia. Qed.

Lemma work_count_nonneg w : opt_ok w → 0 ≤ work_count w.
Proof. destruct w as [w|]; [|done]. intros [? _]. simpl. lia. Qed.

Lemma pc_weight_nonneg pc : pc_ok pc → 0 ≤ pc_weight pc.
Proof.
  induction pc; simpl; unfold len; intros Hok; try lia; try (by apply IHpc); try by apply items_weight_nonneg.
  - apply work_count_nonneg in Hok. lia.
  - destruct Hok as [? Hw%work_count_nonneg]. lia.
  - apply work_count_nonneg in Hok. lia.
  - destruct Hok as [? Hw%work_count_nonneg]. lia.
Qed.

Lemma rq_weight_nonneg rq : rq_ok rq → 0 ≤ rq_weight rq.
Proof. unfold rq_ok, rq_weight. destruct (spill rq) as [e|]; simpl; [intros [? _]|]; lia. Qed.

(** ** The spill *)

Lemma spill_paths_spec ps paths dirty ps' :
  insert_paths ps paths = (dirty, ps') → (size paths ≤ COALESCER_SPILL_PATH_CAP)%nat →
  (size ps' ≤ COALESCER_SPILL_PATH_CAP)%nat ∧ (dirty = true → ps' = ∅) ∧
  (dirty = true ∨ paths ⊆ ps' ∧ ∀ p, p ∈ ps → p ∈ ps').
Proof.
  revert paths. induction ps as [|p ps IH]; intros paths; simpl.
  - intros [= <- <-] Hs. split_and!; [done..|]. right. split; [done|]. by intros p ?%elem_of_nil.
  - case_if; [intros [= <- <-] _; split_and!; [rewrite size_empty; lia|done|by left]|].
    intros Hi Hs. apply Nat.ltb_ge in Heqb. destruct (IH _ Hi Heqb) as (? & ? & Hc).
    split_and!; [done..|]. destruct Hc as [?|[Hsub Hc]]; [by left|right]. split; [set_solver|].
    intros q [->|?]%elem_of_cons; [set_solver|by apply Hc].
Qed.

(** What holds of a spill that may have just been created. *)
Definition spill_pre (e : SpillRepo) : Prop :=
  0 ≤ sp_pending e ∧ lines_ok (first_lines e) ∧ (size (sp_paths e) ≤ COALESCER_SPILL_PATH_CAP)%nat ∧
  (dirty_all e = true → sp_paths e = ∅).

Lemma new_spill_pre at_ n m : spill_pre (new_spill at_ n m).
Proof.
  unfold spill_pre, lines_ok, new_spill. cbn [sp_pending first_lines sp_paths dirty_all length]. rewrite size_empty.
  split_and!; [done|lia|constructor|lia|done].
Qed.

Lemma spill_ok_pre e : spill_ok e → spill_pre e.
Proof. intros [? ?]. split; [lia|done]. Qed.

Lemma default_spill_pre rq at_ n m : rq_ok rq → spill_pre (default (new_spill at_ n m) (spill rq)).
Proof. unfold rq_ok. destruct (spill rq); simpl; [apply spill_ok_pre|intros; apply new_spill_pre]. Qed.

Lemma default_spill_count rq at_ n m : sp_pending (default (new_spill at_ n m) (spill rq)) = spill_count (spill rq).
Proof. by destruct (spill rq). Qed.

Lemma default_spill_covers rq at_ n m f :
  from_option (λ e, spill_covers e f) False (spill rq) → spill_covers (default (new_spill at_ n m) (spill rq)) f.
Proof. by destruct (spill rq). Qed.

Lemma saturating_add_pos x n : 0 ≤ x → 0 < n → 0 < saturating_add x n.
Proof. unfold saturating_add, u64_max. lia. Qed.

Lemma add_to_spill_ok f e : spill_pre e → spill_ok (add_to_spill f e).
Proof.
  intros (Hp & [Hl1 Hl2] & Hs & Hd). unfold add_to_spill.
  destruct (if dirty_all e then _ else _) as [dirty ps] eqn:Hi. split_and!; simpl; [by apply saturating_add_pos| | |].
  - case_if; [|done]. bool_to_prop. apply Nat.ltb_lt in H0. split; [rewrite length_app; simpl; lia|].
    apply Forall_app. split; [done|]. constructor; [|constructor]. rewrite length_take. lia.
  - destruct (dirty_all e); [by injection Hi as <- <-|]. by destruct (spill_paths_spec _ _ _ _ Hi Hs).
  - destruct (dirty_all e); [injection Hi as <- <-; intros _; by apply Hd|].
    by destruct (spill_paths_spec _ _ _ _ Hi Hs) as (_ & ? & _).
Qed.

Lemma add_to_spill_covers f e g :
  spill_pre e → g = f ∨ spill_covers e g → spill_covers (add_to_spill f e) g.
Proof.
  intros (_ & _ & Hs & _). unfold add_to_spill, spill_covers.
  destruct (if dirty_all e then _ else _) as [dirty ps] eqn:Hi. simpl.
  destruct (dirty_all e); [injection Hi as <- <-; by left|].
  destruct (spill_paths_spec _ _ _ _ Hi Hs) as (_ & _ & [?|[Hsub Hin]]); [by left|].
  intros [->|[?|Hc]]; [by right|done|right]. set_solver.
Qed.

Lemma merge_spilled_ok w e : spill_pre e → work_ok w → spill_ok (merge_spilled w e).
Proof.
  intros (Hp & [Hl1 Hl2] & Hs & Hd) (Hw & [_ Hwl] & _ & _). unfold merge_spilled.
  destruct (if _ || _ then _ else _) as [dirty ps] eqn:Hi. split_and!; simpl; [by apply saturating_add_pos| | |].
  - split; [rewrite length_app, length_take; lia|]. apply Forall_app. split; [done|]. by apply Forall_take.
  - destruct (_ || _); [injection Hi as <- <-; rewrite size_empty; lia|]. by destruct (spill_paths_spec _ _ _ _ Hi Hs).
  - destruct (_ || _); [by injection Hi as <- <-|]. by destruct (spill_paths_spec _ _ _ _ Hi Hs) as (_ & ? & _).
Qed.

Lemma merge_spilled_covers w e g :
  spill_pre e → work_covers w g ∨ spill_covers e g → spill_covers (merge_spilled w e) g.
Proof.
  intros (_ & _ & Hs & _). unfold merge_spilled, spill_covers, work_covers.
  destruct (if _ || _ then _ else _) as [dirty ps] eqn:Hi. simpl.
  destruct (dirty_all e); [injection Hi as <- <-; by left|].
  destruct (w_dirty_all w); [injection Hi as <- <-; by left|].
  destruct (spill_paths_spec _ _ _ _ Hi Hs) as (_ & _ & [?|[Hsub Hin]]); [by left|].
  intros [[?|Hc]|[?|Hc]]; [done|right|done|right]; [|set_solver]. intros p Hp%Hc. by apply Hin.
Qed.

(** ** Draining and putting back *)

Lemma take_batch_app first room q : (take_batch first room q).1 ++ (take_batch first room q).2 = q.
Proof.
  revert first q. induction room as [|room IH]; intros first [|f q]; simpl; try done.
  case_if; [|done]. specialize (IH (Some (default f first)) q).
  destruct (take_batch _ room q) as [b r]. simpl in *. by rewrite IH.
Qed.

Lemma take_batch_length first room q : (length (take_batch first room q).1 ≤ room)%nat.
Proof.
  revert first q. induction room as [|room IH]; intros first [|f q]; simpl; try lia.
  case_if; [|simpl; lia]. specialize (IH (Some (default f first)) q). destruct (take_batch _ room q). simpl in *. lia.
Qed.

(** An operation on a repository that moves requests between it and what the
    thread holds: [n] requests leave the repository (or come, when negative),
    and those [P] are held before, those [Q] after. *)
Record moves (P Q : CommitFields → Prop) (n : Z) (rq rq' : RepoQueue) : Prop := {
  moves_ok : rq_ok rq → rq_ok rq';
  moves_covers f : rq_ok rq → rel_paths f ≠ [] → queued rq f ∨ P f → queued rq' f ∨ Q f;
  moves_weight : rq_ok rq → rq_weight rq - n ≤ u64_max → rq_weight rq' = rq_weight rq - n;
  moves_depth : rq_ok rq → 0 ≤ rq_weight rq - n ≤ u64_max → depth rq = rq_weight rq → depth rq' = rq_weight rq - n;
}.

Lemma fetch_add_eq x n : 0 ≤ x + n ≤ u64_max → fetch_add x n = x + n.
Proof. unfold fetch_add. apply u64_wrap_small. Qed.

Lemma push_back_moves cap f rq rq' : push_back cap f rq = Some rq' → moves (eq f) (λ _, False) (-1) rq rq'.
Proof.
  unfold push_back. case_if; [|done]. intros [= <-]. split; simpl.
  - done.
  - unfold queued. simpl. set_solver.
  - intros _ _. unfold rq_weight. simpl. rewrite length_app. simpl. lia.
  - intros _ Hw ->. rewrite fetch_add_eq; lia.
Qed.

Lemma rq_weight_spill e d rq : rq_weight (set_spill (Some e) d rq) = rq_weight rq - spill_count (spill rq) + sp_pending e.
Proof. unfold rq_weight. simpl. lia. Qed.

Lemma rq_weight_count rq : rq_ok rq → 0 ≤ spill_count (spill rq) ≤ rq_weight rq.
Proof. unfold rq_ok, rq_weight. destruct (spill rq) as [e|]; simpl; [intros [? _]|]; lia. Qed.

Lemma spill_to_repo_moves f rq : moves (eq f) (λ _, False) (-1) rq (spill_to_repo f rq).
Proof.
  unfold spill_to_repo. set (e := default _ _).
  assert (sp_pending e = spill_count (spill rq)) as He by apply default_spill_count. split.
  - intros Hok. by apply add_to_spill_ok, default_spill_pre.
  - intros g Hok _ Hg. left. unfold queued. simpl.
    destruct Hg as [[?|Hsp]|Heq]; [by left|right..]; (apply add_to_spill_covers; [by apply default_spill_pre|]).
    + right. by apply default_spill_covers.
    + by left.
  - intros Hok Hw. pose proof (rq_weight_count rq Hok). rewrite rq_weight_spill, <-He.
    unfold add_to_spill. destruct (if dirty_all e then _ else _). simpl. unfold saturating_add. lia.
  - intros Hok Hw Hd. simpl. rewrite Hd, fetch_add_eq; lia.
Qed.

Lemma drain_queue_moves rq batch b rq' :
  drain_queue rq = (batch, b, rq') →
  moves (λ _, False) (λ f, f ∈ batch) (len batch) rq rq' ∧ spill rq' = spill rq ∧ (b = true → queue rq' = []).
Proof.
  unfold drain_queue. pose proof (take_batch_app None COALESCER_MAX_BATCH_SIZE (queue rq)) as Happ.
  destruct (take_batch _ _ _) as [l rest]. simpl in Happ. intros [= <- <- <-].
  split; [|split; [done|by intros ?%bool_decide_eq_true]]. split; simpl.
  - done.
  - intros f _ _. unfold queued. simpl. rewrite <-Happ, elem_of_app. tauto.
  - intros _ _. unfold rq_weight, len. simpl. rewrite <-Happ, length_app. lia.
  - intros _ Hw Hd. unfold coalescer_depth_decrement, u64_saturating_sub. unfold len in *.
    case_bool_decide as Hb; [rewrite Hb in *; simpl in *; lia|]. lia.
Qed.

Lemma drain_spill_moves rq w rq' :
  coalescer_drain_repo_spill rq = (w, rq') →
  moves (λ _, False) (λ f, opt_covers w f) (work_count w) rq rq' ∧ (rq_ok rq → opt_ok w).
Proof.
  unfold coalescer_drain_repo_spill. destruct (spill rq) as [e|] eqn:Hsp.
  - case_if; intros [= <- <-].
    + apply Z.eqb_eq in Heqb. split; [|done].
      assert (¬ rq_ok rq) as Hno by (unfold rq_ok; rewrite Hsp; intros [? _]; lia). by split.
    + split; [split|]; simpl.
      * done.
      * intros f Hok _. unfold queued. rewrite Hsp. simpl. intros [[?|Hc]|[]]; [by left; left|right].
        unfold opt_covers, work_covers. simpl. destruct Hc as [?|Hc]; [by left|right].
        intros p Hp. by apply elem_of_elements, Hc.
      * intros Hok _. unfold rq_weight. rewrite Hsp. simpl. lia.
      * intros Hok Hw Hd. unfold coalescer_depth_decrement, u64_saturating_sub. lia.
      * unfold rq_ok. rewrite Hsp. simpl. intros (Hp & Hl & Hs & Hd). unfold opt_ok, work_ok. simpl.
        split_and!; [done|done|done|]. intros ->%Hd. apply elements_empty.
  - intros [= <- <-]. split; [|done]. split; simpl; intros; (done || tauto || lia).
Qed.

Lemma requeue_moves failed rq : moves (λ f, f ∈ failed) (λ _, False) (- len failed) rq (coalescer_requeue_requests failed rq).
Proof.
  unfold coalescer_requeue_requests. case_bool_decide as Hf.
  - rewrite Hf. split; try done; unfold len; simpl.
    + intros f _ _ [?|[]%elem_of_nil]. by left.
    + intros; lia.
    + intros; lia.
  - split; try done; unfold len; simpl.
    + intros f _ _. unfold queued. simpl. rewrite elem_of_app. tauto.
    + intros _ _. unfold rq_weight. simpl. rewrite length_app. lia.
    + intros _ Hw ->. rewrite fetch_add_eq; lia.
Qed.

Lemma restore_spilled_moves w rq :
  work_ok w → moves (λ f, work_covers w f) (λ _, False) (- w_pending w) rq (coalescer_restore_spilled_work w rq).
Proof.
  intros Hwok. pose proof Hwok as [Hpos _]. unfold coalescer_restore_spilled_work. rewrite (proj2 (Z.eqb_neq _ _)) by lia.
  set (e := default _ _). assert (sp_pending e = spill_count (spill rq)) as He by apply default_spill_count. split.
  - intros Hok. apply merge_spilled_ok; [by apply default_spill_pre|done].
  - intros g Hok _ Hg. left. unfold queued. simpl.
    destruct Hg as [[?|Hsp]|Heq]; [by left|right..]; (apply merge_spilled_covers; [by apply default_spill_pre|]).
    + right. by apply default_spill_covers.
    + by left.
  - intros Hok Hw. pose proof (rq_weight_count rq Hok). rewrite rq_weight_spill, <-He.
    unfold merge_spilled. destruct (if _ || _ then _ else _). simpl. unfold saturating_add. lia.
  - intros Hok Hw Hd. simpl. rewrite Hd, fetch_add_eq; lia.
Qed.

Lemma restore_moves d rq : drained_ok d → moves (λ f, drained_covers f d) (λ _, False) (- drained_weight d) rq (restore d rq).
Proof. destruct d as [l|w]; simpl; [intros _; apply requeue_moves|apply restore_spilled_moves]. Qed.

(** ** Committing *)

Lemma single_covers repo f : commit_covers (single_commit repo f) repo f.
Proof. split; [done|]. by intros p. Qed.

Lemma merged_covers repo head rs f : f ∈ rs → commit_covers (merged_commit repo head rs) repo f.
Proof. intros Hf. split; [done|]. intros p Hp. apply list_elem_of_bind. by exists f. Qed.

Lemma sequential_spec repo g rs log failed :
  sequential repo g rs = (log, Some failed) →
  (length log + length failed = length rs)%nat ∧ failed `sublist_of` rs ∧
  ∀ f, f ∈ rs → f ∈ failed ∨ in_log log repo f.
Proof.
  revert g log failed. induction rs as [|r rs IH]; intros g log failed; simpl.
  - intros [= <- <-]. split_and!; [done..|]. by intros f ?%elem_of_nil.
  - destruct (g 0%nat); [| |done]; destruct (sequential repo _ rs) as [log' [failed'|]] eqn:Hs; try done;
      intros [= <- <-]; destruct (IH _ _ _ Hs) as (Hlen & Hsub & Hin); split_and!; simpl; try lia.
    + by apply sublist_cons.
    + intros f [->|Hf]%elem_of_cons; [right; left; apply single_covers|].
      destruct (Hin f Hf) as [?|?]; [by left|right; by right].
    + by apply sublist_skip.
    + intros f [->|Hf]%elem_of_cons; [left; left|]. destruct (Hin f Hf) as [?|?]; [left; by right|by right].
Qed.

(** Every request of a batch is committed or reported as failed, and their
    numbers add up. *)
Lemma commit_batch_partition repo g chunk st cs o st' :
  coalescer_commit_batch repo g chunk st = (cs, Some o, st') →
  0 ≤ committed_requests o ∧ committed_requests o + len (failed_requests o) = len chunk ∧
  ∀ f, f ∈ chunk → f ∈ failed_requests o ∨ in_log cs repo f.
Proof.
  unfold coalescer_commit_batch, len. destruct chunk as [|head rs] eqn:Hc.
  { intros [= <- <- <-]. split_and!; [done..|]. by intros f ?%elem_of_nil. }
  rewrite <-Hc. set (n := length chunk). assert (head ∈ chunk) as Hhead by (subst chunk; left).
  destruct (_ && _ && _).
  - destruct (g 0%nat); intros [= <- <- <-]; simpl; (split_and!; [lia|lia|]); intros f Hf; [right|by left].
    left. by apply merged_covers.
  - destruct (n =? 1)%nat eqn:Hn.
    + apply Nat.eqb_eq in Hn. assert (chunk = [head]) as Hone.
      { subst n. rewrite Hc in Hn |- *. destruct rs; [done|]. simpl in Hn. lia. }
      destruct (g 0%nat); intros [= <- <- <-]; simpl; (split_and!; [lia|lia|]); intros f Hf; [right|by left].
      rewrite Hone in Hf. apply list_elem_of_singleton in Hf as ->. left. apply single_covers.
    + destruct (sequential repo g chunk) as [log [failed|]] eqn:Hs; [|done].
      destruct (sequential_spec _ _ _ _ _ Hs) as (Hlen & _ & Hin).
      case_bool_decide as Hf; intros [= <- <- <-]; simpl; (split_and!; [lia| |]).
      * subst failed. simpl in *. lia.
      * intros f Hfc. right. destruct (Hin f Hfc) as [Hff|?]; [|done]. subst failed. by apply elem_of_nil in Hff.
      * lia.
      * done.
Qed.

Lemma commit_spilled_partition repo g w st cs o st' :
  coalescer_commit_spilled_work repo g w st = (cs, Some o, st') → work_ok w →
  0 ≤ s_committed_requests o ∧ opt_ok (failed_work o) ∧
  s_committed_requests o + work_count (failed_work o) = w_pending w ∧
  ∀ f, rel_paths f ≠ [] → work_covers w f → opt_covers (failed_work o) f ∨ in_log cs repo f.
Proof.
  unfold coalescer_commit_spilled_work. intros Heq Hok. pose proof Hok as (Hpos & _).
  rewrite (proj2 (Z.eqb_neq _ _)) in Heq by lia.
  destruct (negb (w_dirty_all w) && bool_decide (w_paths w = [])) eqn:Hb.
  - injection Heq as <- <- <-. simpl. split_and!; [lia|done|lia|]. bool_to_prop.
    intros f Hne [?|Hsub]; [congruence|]. rewrite H0 in Hsub. destruct (rel_paths f) as [|p ps]; [done|].
    destruct (not_elem_of_nil p). apply Hsub. left.
  - destruct (g 0%nat); [| |done]; injection Heq as <- <- <-; simpl; split_and!; try lia; try done.
    + intros f _ Hf. right. left. split; [done|]. unfold spill_commit. simpl.
      destruct Hf as [->|Hf]; [done|]. by destruct (w_dirty_all w).
    + intros f _ Hf. by left.
Qed.

Lemma items_of_work_ok rest chunk w1 w2 : opt_ok w1 → opt_ok w2 → Forall drained_ok (drained_work rest chunk w1 w2).
Proof.
  assert (∀ w, opt_ok w → Forall drained_ok (from_option (λ w, [DSpill w]) [] w)) as Hw.
  { intros [w|] Hok; [|constructor]. constructor; [done|constructor]. }
  assert (∀ l, Forall drained_ok (if bool_decide (l = []) then [] else [DBatch l])) as Hl.
  { intros l. case_bool_decide; [constructor|]. constructor; [done|constructor]. }
  intros H1 H2. unfold drained_work. rewrite !Forall_app. auto.
Qed.

Lemma items_of_work_weight rest chunk w1 w2 :
  items_weight (drained_work rest chunk w1 w2) = len rest + len chunk + work_count w1 + work_count w2.
Proof.
  unfold drained_work, len. case_bool_decide as H1; case_bool_decide as H2; rewrite ?H1, ?H2;
    destruct w1, w2; simpl; unfold len; lia.
Qed.

Lemma items_of_work_covers rest chunk w1 w2 f :
  f ∈ rest ∨ f ∈ chunk ∨ opt_covers w1 f ∨ opt_covers w2 f →
  Exists (drained_covers f) (drained_work rest chunk w1 w2).
Proof.
  unfold drained_work. rewrite !Exists_app. intros [H|[H|[H|H]]].
  - left. case_bool_decide as He; [rewrite He in H; by apply elem_of_nil in H|]. by left.
  - right; left. case_bool_decide as He; [rewrite He in H; by apply elem_of_nil in H|]. by left.
  - do 2 right; left. destruct w1; [by left|done].
  - do 3 right. destruct w2; [by left|done].
Qed.

(** ** One step of a thread *)

(** What a step of a thread at a repository preserves. *)
Record local (repo : str) (pc : PC) (rq : RepoQueue) (sh : Shared) (rq' : RepoQueue) (sh' : Shared) (th' : Thread) : Prop := {
  local_at pc' repo' : th' = At repo' pc' → repo' = repo;
  local_rq_ok : rq_ok rq';
  local_th_ok : thread_ok th';
  local_covers f :
    rel_paths f ≠ [] → queued rq f ∨ pc_holds pc f ∨ in_log (log sh) repo f →
    queued rq' f ∨ thread_holds th' repo f ∨ in_log (log sh') repo f;
  local_log : ∃ cs, log sh' = log sh ++ cs;
  local_weight :
    rq_weight rq + pc_weight pc ≤ pending_requests sh ≤ u64_max →
    rq_weight rq' + thread_weight th' - pending_requests sh' = rq_weight rq + pc_weight pc - pending_requests sh ∧
    pending_requests sh' ≤ pending_requests sh;
  local_depth :
    rq_weight rq + pc_weight pc ≤ u64_max → (∀ n, pc = ReconcileStore n → n = rq_weight rq) →
    depth rq = rq_weight rq → depth rq' = rq_weight rq';
}.

(** Steps that move requests between the repository and the thread. *)
Lemma local_moves repo pc rq sh rq' sh' th' P n :
  rq_ok rq → pc_ok pc →
  moves (pc_holds pc) P n rq rq' →
  (∀ f, P f → thread_holds th' repo f) → thread_ok th' → (∀ pc' repo', th' = At repo' pc' → repo' = repo) →
  thread_weight th' = pc_weight pc + n → log sh' = log sh → pending_requests sh' = pending_requests sh →
  local repo pc rq sh rq' sh' th'.
Proof.
  intros Hrq Hpc [Hok Hcov Hw Hd] HP Hth Hat Hwt Hlog Hp.
  pose proof (pc_weight_nonneg _ Hpc). pose proof (rq_weight_nonneg _ Hrq).
  assert (0 ≤ thread_weight th').
  { destruct th'; simpl in *; try lia. by apply pc_weight_nonneg. }
  split; [done|by apply Hok|done| |by exists []; rewrite Hlog, app_nil_r| |].
  - intros f Hne Hf. rewrite Hlog. destruct Hf as [Hf|[Hf|Hf]]; [| |by right; right].
    1: destruct (Hcov f Hrq Hne (or_introl Hf)) as [?|?%HP]; [by left|by right; left].
    destruct (Hcov f Hrq Hne (or_intror Hf)) as [?|?%HP]; [by left|by right; left].
  - intros Hle. rewrite Hw, Hwt, Hp by (done || lia). lia.
  - intros Hle _ Heq. pose proof (rq_weight_nonneg _ (Hok Hrq)) as Hpos. assert (rq_weight rq' = rq_weight rq - n) as E by (apply Hw; [done|lia]).
    rewrite E. apply Hd; [done|lia|done].
Qed.

(** Steps that leave the requests where they are. *)
Lemma moves_refl (P : CommitFields → Prop) rq rq' :
  queue rq' = queue rq → spill rq' = spill rq → depth rq' = depth rq →
  moves P P 0 rq rq'.
Proof.
  intros Hq Hs Hd. assert (rq_weight rq' = rq_weight rq) as Hw by (unfold rq_weight; by rewrite Hq, Hs).
  split.
  - unfold rq_ok. by rewrite Hs.
  - intros f _ _. unfold queued. by rewrite Hq, Hs.
  - intros _ _. lia.
  - intros _ _ Heq. lia.
Qed.

(** A step that only changes what no statement counts. *)
Lemma local_same repo pc rq sh rq' sh' th' :
  rq_ok rq → pc_ok pc →
  queue rq' = queue rq → spill rq' = spill rq → depth rq' = depth rq →
  (∀ f, pc_holds pc f → thread_holds th' repo f) → thread_ok th' → (∀ pc' repo', th' = At repo' pc' → repo' = repo) →
  thread_weight th' = pc_weight pc → log sh' = log sh → pending_requests sh' = pending_requests sh →
  local repo pc rq sh rq' sh' th'.
Proof.
  intros Hrq Hpc Hq Hs Hd HP Hth Hat Hw Hl Hpe. eapply (local_moves _ _ _ _ _ _ _ (pc_holds pc) 0); try done; [|lia].
  by apply moves_refl.
Qed.

(** The end of a commit: some requests are in the log now. *)
Lemma local_commit repo pc rq sh cs st pc' :
  rq_ok rq → pc_ok pc → pc_ok pc' →
  (∀ f, rel_paths f ≠ [] → pc_holds pc f → pc_holds pc' f ∨ in_log cs repo f) →
  pc_weight pc' = pc_weight pc → (∀ n, pc ≠ ReconcileStore n) →
  local repo pc rq sh rq (record_commits cs st sh) (At repo pc').
Proof.
  intros Hrq Hpc Hpc' Hcov Hw Hne. split; [by intros pc0 repo' [= -> ->]|done|done| |by exists cs| |done].
  - intros f Hf [?|[Hh|Hl]]; simpl; [by left| |].
    + right. destruct (Hcov f Hf Hh) as [?|?]; [by left|]. right. apply Exists_app. by right.
    + do 2 right. apply Exists_app. by left.
  - intros _. simpl. lia.
Qed.

(** The count of pending requests goes down by those committed. *)
Lemma local_settle repo pc rq sh rq' pc' committed :
  rq_ok rq → pc_ok pc → pc_ok pc' → 0 ≤ committed →
  queue rq' = queue rq → spill rq' = spill rq → depth rq' = depth rq →
  (∀ f, pc_holds pc f → pc_holds pc' f) → pc_weight pc' = pc_weight pc - committed → (∀ n, pc ≠ ReconcileStore n) →
  local repo pc rq sh rq' (coalescer_update_pending committed sh).2 (At repo pc').
Proof.
  intros Hrq Hpc Hpc' Hc Hq Hs Hd Hcov Hw Hne.
  assert (rq_weight rq' = rq_weight rq) as Hrw by (unfold rq_weight; by rewrite Hq, Hs).
  split; [by intros pc0 repo' [= -> ->]|by unfold rq_ok; rewrite Hs|done| |by exists []; rewrite app_nil_r| |].
  - intros f _. unfold queued. rewrite Hq, Hs. simpl. intros [?|[?%Hcov|?]]; [by left|by right; left|by right; right].
  - intros Hle. simpl. unfold u64_saturating_sub. rewrite Hrw, Hw.
    pose proof (pc_weight_nonneg _ Hpc'). pose proof (rq_weight_nonneg _ Hrq). lia.
  - intros _ _. by rewrite Hrw, Hd.
Qed.

Ltac at_same := intros ? ? [= <- <-]; done.

Lemma working_local x repo batch w rq sh cs o st :
  rq_ok rq → opt_ok w →
  coalescer_commit_batch repo (git x) (take COALESCER_MAX_BATCH_SIZE batch) (stats sh, batch_sizes sh) = (cs, o, st) →
  local repo (Working batch w) rq sh rq (record_commits cs st sh)
    (At repo match o with
             | Some o => BatchDone (drop COALESCER_MAX_BATCH_SIZE batch) (take COALESCER_MAX_BATCH_SIZE batch) o w
             | None => Unwind (drained_work (drop COALESCER_MAX_BATCH_SIZE batch)
                                 (take COALESCER_MAX_BATCH_SIZE batch) w None) false
             end).
Proof.
  intros Hrq Hw Hb.
  set (chunk := take COALESCER_MAX_BATCH_SIZE batch) in *. set (rest := drop COALESCER_MAX_BATCH_SIZE batch).
  assert (batch = chunk ++ rest) as Happ by (symmetry; apply take_drop).
  assert (len batch = len chunk + len rest) as Hlen by (unfold len; rewrite Happ, length_app; lia).
  destruct o as [o|].
  - destruct (commit_batch_partition _ _ _ _ _ _ _ Hb) as (Hc & Hsum & Hin). apply local_commit; [done..| | |done].
    + intros f _. simpl. rewrite Happ, elem_of_app. intros [[Hf|Hf]|Hf]; [|by left; left|by left; right; right].
      destruct (Hin f Hf) as [?|?]; [by left; right; left|by right].
    + simpl. lia.
  - apply local_commit; [done|done| | | |done].
    + by apply items_of_work_ok.
    + intros f _. simpl. rewrite Happ, elem_of_app. intros Hf. left. apply items_of_work_covers. tauto.
    + simpl. rewrite items_of_work_weight. simpl. lia.
Qed.

Lemma spilled_local x repo w rq sh cs o st :
  rq_ok rq → work_ok w →
  coalescer_commit_spilled_work repo (git x) w (stats sh, batch_sizes sh) = (cs, o, st) →
  local repo (Working [] (Some w)) rq sh rq (record_commits cs st sh)
    (At repo match o with Some o => SpillDone w o | None => Unwind (drained_work [] [] None (Some w)) false end).
Proof.
  intros Hrq Hw Hb. destruct o as [o|].
  - destruct (commit_spilled_partition _ _ _ _ _ _ _ Hb Hw) as (Hc & Hf & Hsum & Hin). apply local_commit; [done..| | |done].
    + intros f Hne. simpl. intros [[]%elem_of_nil|Hcov]. by apply Hin.
    + simpl. unfold len. simpl. lia.
  - apply local_commit; [done|done| | | |done].
    + by apply items_of_work_ok.
    + intros f _. simpl. intros [[]%elem_of_nil|Hcov]. left. apply items_of_work_covers. tauto.
    + simpl. unfold len. simpl. lia.
Qed.

Ltac same := apply local_same; try done; try at_same; try (simpl; unfold len; simpl; lia).

Lemma advance_local wc x repo pc rq sh rq' sh' th' :
  rq_ok rq → pc_ok pc → advance wc x repo pc rq sh = Some (rq', sh', th') → local repo pc rq sh rq' sh' th'.
Proof.
  intros Hrq Hpc. destruct pc; simpl.
  - intros [= <- <- <-]. same.
  - intros Heq. assert (local repo (Measured f cap seen) rq sh rq sh (At repo (Full f))) as Hfull by same.
    destruct (seen <? Z.of_nat cap); [|by injection Heq as <- <- <-].
    destruct (push_back cap f rq) as [rq0|] eqn:Hp; injection Heq as <- <- <-; [|done].
    eapply local_moves; [done|done|by eapply push_back_moves| |done|at_same|done|done|done]. done.
  - intros [= <- <- <-]. eapply local_moves; [done|done|apply spill_to_repo_moves| |done|at_same|done|done|done]. done.
  - intros [= <- <- <-]. same.
  - intros [= <- <- <-]. same.
  - case_if; intros [= <- <- <-]; same.
  - destruct (drain_queue rq) as [[batch b] rq0] eqn:Hd. intros [= <- <- <-].
    destruct (drain_queue_moves _ _ _ _ Hd) as (Hm & _).
    eapply local_moves; [done|done|exact Hm|done|done|at_same|done|done|done].
  - destruct (if queue_is_empty then _ else _) as [w rq0] eqn:Hd. intros [= <- <- <-].
    assert (moves (λ _, False) (λ f, opt_covers w f) (work_count w) rq rq0 ∧ opt_ok w) as [Hm Hok].
    { destruct queue_is_empty; [destruct (drain_spill_moves _ _ _ Hd) as [? Hw]; split; [done|by apply Hw]|].
      injection Hd as <- <-. split; [|done]. split; try done; simpl; intros; (tauto || lia). }
    assert (moves (λ f, f ∈ batch) (λ f, f ∈ batch ∨ opt_covers w f) (work_count w) rq rq0) as Hm'.
    { destruct Hm as [H1 H2 H3 H4]. split; try done. intros f Hf Hne. specialize (H2 f Hf Hne). tauto. }
    unfold after_drain. case_if.
    + apply Z.eqb_eq in Heqb. pose proof (work_count_nonneg _ Hok). assert (batch = []) as -> by (destruct batch; [done|simpl in *; lia]).
      assert (w = None) as -> by (destruct w as [w|]; [destruct Hok as [? _]; simpl in *; lia|done]).
      eapply local_moves; [done|done|exact Hm'| |done|at_same|done|done|done]. by intros f [?%elem_of_nil|?].
    + eapply local_moves; [done|done|exact Hm'|done|done|at_same|simpl; lia|done|done].
  - intros [= <- <- <-]. same.
  - intros [= <- <- <-]. same.
  - intros [= <- <- <-]. split; try done.
    + at_same.
    + intros f _ [?|[[]|?]]; [by left|by right; right].
    + exists []. by rewrite app_nil_r.
    + intros _ Hn _. change (actual = rq_weight rq). by apply Hn.
  - destruct batch as [|g batch].
    + destruct w as [w|]; [|intros [= <- <- <-]; same; simpl; by intros f [?%elem_of_nil|[]]].
      destruct (coalescer_commit_spilled_work _ _ _ _) as [[cs o] st] eqn:Hb. intros [= <- <- <-].
      by eapply spilled_local.
    + set (chunk := take _ _). destruct (coalescer_commit_batch _ _ _ _) as [[cs o] st] eqn:Hb. intros [= <- <- <-].
      by eapply working_local.
  - destruct Hpc as [Hc Hw]. case_if; intros [= <- <- <-].
    + apply (local_settle repo _ rq sh _ _ (committed_requests o)); try done; simpl; lia.
    + apply Z.ltb_ge in Heqb. same.
  - intros [= <- <- <-].
    assert (moves (λ f, f ∈ rest ∨ f ∈ failed ∨ opt_covers w f) (λ f, f ∈ rest ∨ opt_covers w f) (- len failed) rq
      (coalescer_requeue_requests failed rq)) as Hm.
    { destruct (requeue_moves failed rq) as [H1 H2 H3 H4]. split; try done. intros f Hf Hne. specialize (H2 f Hf Hne). tauto. }
    eapply local_moves; [done|done|exact Hm|done|done|at_same|simpl; lia|done|done].
  - pose proof Hpc as [Hc Hw]. intros [= <- <- <-]. destruct (failed_work o) as [w'|] eqn:Hf.
    + set (rq0 := set_metrics _ rq). assert (moves (opt_covers (Some w')) (λ _, False) (- w_pending w') rq
        (coalescer_restore_spilled_work w' rq0)) as Hm.
      { destruct (restore_spilled_moves w' rq0 Hw) as [H1 H2 H3 H4]. by split. }
      rewrite <-Hf in Hm. eapply local_moves; [done|done|exact Hm|done|done|at_same| |done|done].
      simpl. rewrite Hf. simpl. lia.
    + same; simpl; rewrite Hf; simpl; lia || done.
  - case_if; intros [= <- <- <-].
    + apply (local_settle repo _ rq sh _ _ committed); try done; simpl. lia.
    + apply Z.ltb_ge in Heqb. same. simpl in *. lia.
  - intros [= <- <- <-]. same.
  - done.
  - done.
  - intros [= <- <- <-]. same.
  - intros [= <- <- <-]. same.
  - destruct items as [|d items]; intros [= <- <- <-].
    + destruct restored; same; simpl; intros f Hf; by apply Exists_nil in Hf.
    + apply Forall_cons in Hpc as [Hd Hi].
      assert (moves (λ f, Exists (drained_covers f) (d :: items)) (λ f, Exists (drained_covers f) items)
        (- drained_weight d) rq (restore d rq)) as Hm.
      { destruct (restore_moves d rq Hd) as [H1 H2 H3 H4]. split; try done.
        intros f Hf Hne. rewrite Exists_cons. specialize (H2 f Hf Hne). tauto. }
      eapply local_moves; [done|by constructor|exact Hm|done|done|at_same|simpl; lia|done|done].
  - intros [= <- <- <-]. same.
  - intros [= <- <- <-]. same.
Qed.

(** ** Who holds a repository *)

(** The thread runs [self_process_repo]. *)
Fixpoint in_section (pc : PC) : bool :=
  match pc with
  | Counted _ _ | Measured _ _ _ | Full _ | Stored | Chosen => false
  | Gauge _ _ next => in_section next
  | _ => true
  end.

Definition owns (th : Thread) (repo : str) : Prop :=
  match th with At r pc => r = repo ∧ in_section pc = true | _ => False end.

Lemma advance_owner wc x repo pc rq sh rq' sh' th' :
  advance wc x repo pc rq sh = Some (rq', sh', th') →
  (processing rq' = processing rq ∧ ∀ r, owns th' r ↔ owns (At repo pc) r) ∨
  (processing rq = false ∧ processing rq' = true ∧ pc = Chosen ∧ th' = At repo Claimed) ∨
  (processing rq' = false ∧ in_section pc = true ∧ ∀ r, ¬ owns th' r).
Proof.
  destruct pc; simpl.
  - intros [= <- <- <-]. by left.
  - destruct (seen <? _); [unfold push_back; case_if|]; intros [= <- <- <-]; by left.
  - intros [= <- <- <-]. by left.
  - intros [= <- <- <-]. left. split; [done|]. intros r. simpl. naive_solver.
  - intros [= <- <- <-]. by left.
  - case_if; intros [= <- <- <-]; [left; split; [done|]; intros r; simpl; naive_solver|right; left; done].
  - unfold drain_queue. destruct (take_batch _ _ _) as [b r]. intros [= <- <- <-]. by left.
  - destruct queue_is_empty.
    + unfold coalescer_drain_repo_spill, after_drain. destruct (spill rq); [case_if|];
        case_if; intros [= <- <- <-]; by left.
    + unfold after_drain. case_if; intros [= <- <- <-]; by left.
  - intros [= <- <- <-]. by left.
  - intros [= <- <- <-]. by left.
  - intros [= <- <- <-]. by left.
  - destruct batch as [|g batch]; [destruct w as [w|]|].
    + destruct (coalescer_commit_spilled_work _ _ _ _) as [[cs [o|]] st]; intros [= <- <- <-]; by left.
    + intros [= <- <- <-]. by left.
    + destruct (coalescer_commit_batch _ _ _ _) as [[cs [o'|]] st]; intros [= <- <- <-]; by left.
  - case_if; intros [= <- <- <-]; by left.
  - unfold coalescer_requeue_requests. case_if; intros [= <- <- <-]; by left.
  - unfold coalescer_restore_spilled_work. destruct (failed_work o); [case_if|]; intros [= <- <- <-]; by left.
  - case_if; intros [= <- <- <-]; by left.
  - intros [= <- <- <-]. by left.
  - done.
  - done.
  - intros [= <- <- <-]. by left.
  - intros [= <- <- <-]. do 2 right. split_and!; [done|done|]. by intros r [].
  - destruct items as [|[l|w] items].
    + destruct restored; intros [= <- <- <-]; by left.
    + simpl. unfold coalescer_requeue_requests. case_if; intros [= <- <- <-]; by left.
    + simpl. unfold coalescer_restore_spilled_work. case_if; intros [= <- <- <-]; by left.
  - intros [= <- <- <-]. by left.
  - intros [= <- <- <-]. do 2 right. split_and!; [done|done|]. by intros r [].
Qed.

(** ** Steps of the system *)

(** The repository a thread is at or about to be at. *)
Definition thread_at (th : Thread) : option str :=
  match th with At r _ => Some r | Scanning _ best => fst <$> best | _ => None end.

(** A worker goes on without touching a request. *)
Record quiet (s : Sys) (th th' : Thread) : Prop := {
  quiet_idle repo f : ¬ thread_holds th repo f;
  quiet_weight : thread_weight th = 0 ∧ thread_weight th' = 0;
  quiet_ok : thread_ok th';
  quiet_owns repo : owns th' repo ↔ owns th repo;
  quiet_at repo : thread_at th' = Some repo → is_Some (repos s !! repo);
}.

Inductive shape (wc : nat) (s s' : Sys) : Prop :=
  | shape_enqueue t repo f cap :
      threads s !! t = None → rel_paths f ≠ [] → s' = begin_enqueue t repo f cap s → shape wc s s'
  | shape_return t : threads s !! t = None → s' = set_thread t Returned s → shape wc s s'
  | shape_quiet t th th' sh' :
      threads s !! t = Some th → quiet s th th' →
      log sh' = log (shared s) → pending_requests sh' = pending_requests (shared s) →
      s' = set_thread t th' (set_shared sh' s) → shape wc s s'
  | shape_local t x repo pc rq rq' sh' th' :
      threads s !! t = Some (At repo pc) → repos s !! repo = Some rq →
      advance wc x repo pc rq (shared s) = Some (rq', sh', th') →
      s' = {| repos := <[repo := rq']> (repos s); shared := sh'; threads := <[t := th']> (threads s);
              accepted := accepted s |} → shape wc s s'
  | shape_shared sh' :
      log sh' = log (shared s) → pending_requests sh' = pending_requests (shared s) →
      s' = set_shared sh' s → shape wc s s'.

Lemma set_shared_id s : set_shared (shared s) s = s.
Proof. by destruct s. Qed.

Ltac go_quiet :=
  split; [let H := fresh in intros ? ? H; by destruct H|done|done|by intros; simpl; naive_solver|simpl; try naive_solver].

Lemma run_thread_shape wc t x s s' :
  (∀ t th repo, threads s !! t = Some th → thread_at th = Some repo → is_Some (repos s !! repo)) →
  run_thread wc t x s = Some s' → shape wc s s'.
Proof.
  intros Hat. unfold run_thread. destruct (threads s !! t) as [th|] eqn:Ht; [simpl|done].
  assert (∀ th', quiet s th th' → s' = set_thread t th' s → shape wc s s') as Hquiet.
  { intros th' Hq ->. eapply (shape_quiet _ _ _ t th th' (shared s)); [done..|]. by rewrite set_shared_id. }
  assert (∀ repo, thread_at th = Some repo → is_Some (repos s !! repo)) as Hth by (intros; by eapply Hat).
  destruct th as [| | | | |todo best|repo pc|]; try done.
  - intros [= <-]. destruct (shutdown _); (eapply Hquiet; [|done]); go_quiet.
  - case_if; [intros [= <-]|destruct (shutdown _); [intros [= <-]|done]].
    + eapply shape_quiet; [done| |..|done]; [go_quiet|done|done].
    + eapply Hquiet; [|done]. go_quiet.
  - intros [= <-]. destruct (shutdown _); (eapply Hquiet; [|done]); go_quiet.
  - case_decide; [|done]. intros [= <-]. eapply Hquiet; [|done]. go_quiet.
  - destruct todo as [|p todo]; [destruct best as [[p ts]|]|].
    + intros [= <-]. eapply Hquiet; [|done]. go_quiet.
     
    + intros [= <-]. eapply Hquiet; [|done]. go_quiet.
    + destruct (repos s !! p) as [rq|] eqn:Hp; [simpl|done]. intros [= <-]. eapply Hquiet; [|done]. go_quiet.
      intros r. simpl. unfold consider. destruct (_ || _); [apply Hth|].
      destruct best as [[q ts]|]; [case_if; [|apply Hth]|]; simpl; intros [= <-]; by eexists.
  - assert (∀ rq rq' sh' th', repos s !! repo = Some rq → advance wc x repo pc rq (shared s) = Some (rq', sh', th') →
      s' = {| repos := <[repo := rq']> (repos s); shared := sh'; threads := <[t := th']> (threads s);
              accepted := accepted s |} → shape wc s s') as Hlocal by (intros; by eapply shape_local).
    destruct (Hth repo eq_refl) as [rq Hr]. rewrite Hr.
    destruct pc; cbn [mbind option_bind];
      try (destruct (advance wc x repo _ rq (shared s)) as [[[rq' sh'] th']|] eqn:Ha; [|done]; simpl; intros [= <-];
           by eapply Hlocal).
    + case_decide; [|done]. intros [= <-]. eapply Hquiet; [|done]. go_quiet.
    + destruct todo as [|p todo].
      * intros [= <-]. eapply Hquiet; [|done]. go_quiet.
      * destruct (repos s !! p) as [rqp|]; [simpl|done]. intros [= <-]. eapply Hquiet; [|done].
        case_if; go_quiet.
Qed.

Lemma step_shape wc s s' :
  (∀ t th repo, threads s !! t = Some th → thread_at th = Some repo → is_Some (repos s !! repo)) →
  step wc s s' → shape wc s s'.
Proof.
  intros Hat [[t repo f cap|t x| |] Hl]; simpl in Hl.
  - destruct (threads s !! t) eqn:Ht; [done|]. injection Hl as <-.
    destruct (decide (rel_paths f = [])) as [He|He]; [|by eapply shape_enqueue].
    eapply shape_return; [done|]. unfold begin_enqueue. by rewrite bool_decide_true.
  - by eapply run_thread_shape.
  - injection Hl as <-. eapply shape_shared; [| |reflexivity]; done.
  - injection Hl as <-. eapply shape_shared; [| |reflexivity]; done.
Qed.

(** ** The invariant *)

Definition covered (s : Sys) (repo : str) (f : CommitFields) : Prop :=
  (∃ rq, repos s !! repo = Some rq ∧ queued rq f) ∨
  (∃ t th, threads s !! t = Some th ∧ thread_holds th repo f) ∨
  in_log (log (shared s)) repo f.

Record inv (s : Sys) : Prop := {
  inv_rq : map_Forall (λ _ rq, rq_ok rq) (repos s);
  inv_th : map_Forall (λ _ th, thread_ok th) (threads s);
  inv_at t th repo : threads s !! t = Some th → thread_at th = Some repo → is_Some (repos s !! repo);
  inv_cov repo f : (repo, f) ∈ accepted s → rel_paths f ≠ [] ∧ covered s repo f;
  inv_count :
    len (accepted s) ≤ u64_max →
    pending_requests (shared s) = msum rq_weight (repos s) + msum thread_weight (threads s) ∧
    pending_requests (shared s) ≤ len (accepted s);
  inv_owner t1 t2 th1 th2 repo :
    threads s !! t1 = Some th1 → threads s !! t2 = Some th2 → owns th1 repo → owns th2 repo → t1 = t2;
  inv_lock repo rq :
    repos s !! repo = Some rq → processing rq = true ↔ ∃ t th, threads s !! t = Some th ∧ owns th repo;
}.

Lemma weights_nonneg s :
  inv s → map_Forall (λ _ rq, 0 ≤ rq_weight rq) (repos s) ∧ map_Forall (λ _ th, 0 ≤ thread_weight th) (threads s).
Proof.
  intros Hi. split; intros k x Hx.
  - by apply rq_weight_nonneg, (inv_rq _ Hi k).
  - pose proof (inv_th _ Hi k x Hx) as Hok. destruct x; simpl in *; try lia. by apply pc_weight_nonneg.
Qed.

(** What a thread and its repository hold is within the count. *)
Lemma local_bound s t repo pc rq :
  inv s → len (accepted s) ≤ u64_max → threads s !! t = Some (At repo pc) → repos s !! repo = Some rq →
  rq_weight rq + pc_weight pc ≤ pending_requests (shared s) ≤ u64_max.
Proof.
  intros Hi Hb Ht Hr. destruct (inv_count _ Hi Hb) as [Hp Hle]. destruct (weights_nonneg s Hi) as [H1 H2].
  pose proof (msum_le _ _ _ _ H1 Hr). pose proof (msum_le _ _ _ _ H2 Ht) as Hw. simpl in Hw. lia.
Qed.

Lemma commit_new_inv wc : inv (new wc).
Proof.
  assert (∀ t th, threads (new wc) !! t = Some th → th = Waiting) as Hw.
  { intros t th Ht%elem_of_list_to_map_2. apply list_elem_of_fmap in Ht as (i & [= -> ->] & _). done. }
  assert (msum thread_weight (threads (new wc)) = 0) as Hm.
  { revert Hw. generalize (threads (new wc)) as m. intros m. induction m as [|k x m Hk IH] using map_ind; [done|].
    intros Hall. rewrite msum_insert_new by done. rewrite IH.
    - rewrite (Hall k x); [done|apply lookup_insert_eq].
    - intros t th Ht. apply (Hall t). rewrite lookup_insert_ne; [done|congruence]. }
  split.
  - apply map_Forall_empty.
  - intros t th ->%Hw. done.
  - intros t th repo ->%Hw. done.
  - by intros repo f ?%elem_of_nil.
  - intros _. rewrite Hm. split; [|done]. simpl. by rewrite msum_empty.
  - intros t1 t2 th1 th2 repo ->%Hw. done.
  - intros repo rq. simpl. by rewrite lookup_empty.
Qed.

(** Replacing the threads at one place. *)
Lemma covered_mono s s' repo f :
  (∀ rq, repos s !! repo = Some rq → queued rq f → covered s' repo f) →
  (∀ t th, threads s !! t = Some th → thread_holds th repo f → covered s' repo f) →
  (in_log (log (shared s)) repo f → covered s' repo f) →
  covered s repo f → covered s' repo f.
Proof. intros H1 H2 H3 [(rq & ? & ?)|[(t & th & ? & ?)|?]]; [by eapply H1|by eapply H2|by apply H3]. Qed.

Lemma inv_set_shared s sh' :
  inv s → log sh' = log (shared s) → pending_requests sh' = pending_requests (shared s) → inv (set_shared sh' s).
Proof.
  intros [] Hl Hp. split; simpl; try done.
  - intros repo f Hf. unfold covered. simpl. rewrite Hl. by apply inv_cov0.
  - rewrite Hp. done.
Qed.

Lemma inv_set_quiet s t th th' :
  inv s → threads s !! t = Some th → quiet s th th' → inv (set_thread t th' s).
Proof.
  intros Hi Ht [Hidle [Hw0 Hw'] Hok Howns Hat]. split; simpl.
  - apply (inv_rq _ Hi).
  - apply map_Forall_insert_2; [done|apply (inv_th _ Hi)].
  - intros t' th0 repo [[<- <-]|[_ Hl]]%lookup_insert_Some; [apply Hat|by apply (inv_at _ Hi t')].
  - intros repo f Hf. destruct (inv_cov _ Hi _ _ Hf) as [Hne Hc]. split; [done|]. revert Hc. apply covered_mono.
    + intros rq Hr Hq. left. by exists rq.
    + intros t' th0 Hl Hh. right; left. exists t', th0. split; [|done]. simpl.
      rewrite lookup_insert_ne; [done|]. intros <-. rewrite Ht in Hl. injection Hl as ->. by eapply Hidle.
    + intros ?. by right; right.
  - intros Hb. destruct (inv_count _ Hi Hb) as [Hp Hle]. split; [|done].
    rewrite (msum_insert _ _ _ _ _ Ht). simpl in *. lia.
  - intros t1 t2 th1 th2 repo H1 H2 Ho1 Ho2.
    assert (∀ t0 th0, <[t:=th']> (threads s) !! t0 = Some th0 → owns th0 repo → ∃ th3, threads s !! t0 = Some th3 ∧ owns th3 repo) as Hback.
    { intros t0 th0 [[<- <-]|[_ Hl]]%lookup_insert_Some Ho; [exists th; split; [done|by apply Howns]|by exists th0]. }
    destruct (Hback _ _ H1 Ho1) as (? & ? & ?), (Hback _ _ H2 Ho2) as (? & ? & ?). by eapply (inv_owner _ Hi).
  - intros repo rq Hr. rewrite (inv_lock _ Hi _ _ Hr). split.
    + intros (t0 & th0 & Hl & Ho). destruct (decide (t0 = t)) as [->|Hne].
      * exists t, th'. rewrite lookup_insert_eq. split; [done|]. apply Howns. by simplify_eq.
      * exists t0, th0. by rewrite lookup_insert_ne.
    + intros (t0 & th0 & [[<- <-]|[_ Hl]]%lookup_insert_Some & Ho); [exists t, th|by exists t0, th0].
      split; [done|by apply Howns].
Qed.

Section one_step.
Context (wc : nat) (s : Sys) (t : nat) (x : World) (repo : str) (pc : PC) (rq rq' : RepoQueue) (sh' : Shared) (th' : Thread).
Context (Hi : inv s) (Ht : threads s !! t = Some (At repo pc)) (Hr : repos s !! repo = Some rq).
Context (Ha : advance wc x repo pc rq (shared s) = Some (rq', sh', th')).
Let s' : Sys :=
  {| repos := <[repo := rq']> (repos s); shared := sh'; threads := <[t := th']> (threads s); accepted := accepted s |}.

Lemma step_local : local repo pc rq (shared s) rq' sh' th'.
Proof. eapply advance_local; [by eapply (inv_rq _ Hi)|by apply (inv_th _ Hi _ _ Ht)|done]. Qed.

Lemma step_thread_at r : thread_at th' = Some r → is_Some (repos s' !! r).
Proof.
  intros Hth. simpl. assert (r = repo) as ->; [|rewrite lookup_insert_eq; by eexists].
  pose proof (local_at _ _ _ _ _ _ _ step_local) as Hat.
  assert (∀ todo best, th' ≠ Scanning todo best) as Hno.
  { revert Ha. clear. intros Ha todo best ->. revert Ha. destruct pc; simpl; try done;
      repeat (case_match; try done); intros [= <- <- ?]; done. }
  destruct th' as [| | | | |todo best|r' pc'|]; try done; simpl in Hth; [by destruct (Hno todo best)|].
  injection Hth as ->. by eapply Hat.
Qed.

Lemma step_owns t0 th0 r :
  t0 ≠ t → threads s !! t0 = Some th0 → owns th0 r → owns th' r → False.
Proof.
  intros Hne H0 Ho0 Ho. destruct (advance_owner _ _ _ _ _ _ _ _ _ Ha) as [[_ Heq]|[(Hp & _ & -> & ->)|(_ & _ & Hno)]].
  - apply Hne. eapply (inv_owner _ Hi); [done..|]. by apply Heq.
  - destruct Ho as [<- _]. pose proof (proj2 (inv_lock _ Hi _ _ Hr)) as Hl. rewrite Hp in Hl. discriminate Hl. by exists t0, th0.
  - by destruct (Hno r).
Qed.

Lemma inv_local : inv s'.
Proof.
  pose proof step_local as Hl. split; simpl.
  - apply map_Forall_insert_2; [apply (local_rq_ok _ _ _ _ _ _ _ Hl)|apply (inv_rq _ Hi)].
  - apply map_Forall_insert_2; [apply (local_th_ok _ _ _ _ _ _ _ Hl)|apply (inv_th _ Hi)].
  - intros t0 th0 r [[<- <-]|[_ H0]]%lookup_insert_Some Hat; [by apply step_thread_at|].
    destruct (decide (r = repo)) as [->|Hne]; [rewrite lookup_insert_eq; by eexists|].
    rewrite lookup_insert_ne by done. by eapply (inv_at _ Hi).
  - intros r f Hf. destruct (inv_cov _ Hi _ _ Hf) as [Hne Hc]. split; [done|].
    pose proof (local_covers _ _ _ _ _ _ _ Hl f Hne) as Hcov. destruct (local_log _ _ _ _ _ _ _ Hl) as [cs Hlog].
    assert (r = repo → queued rq f ∨ pc_holds pc f ∨ in_log (log (shared s)) repo f → covered s' repo f) as Hhere.
    { intros -> [?|[?|?]]%Hcov; [left; exists rq'; split; [apply lookup_insert_eq|done]| |by right; right].
      right; left. exists t, th'. split; [apply lookup_insert_eq|done]. }
    revert Hc. apply covered_mono.
    + intros rq0 Hrq0 Hq. destruct (decide (r = repo)) as [->|Hne'].
      * rewrite Hr in Hrq0. injection Hrq0 as <-. apply Hhere; [done|by left].
      * left. exists rq0. split; [|done]. simpl. by rewrite lookup_insert_ne.
    + intros t0 th0 H0 Hh. destruct (decide (t0 = t)) as [->|Hne'].
      * rewrite Ht in H0. injection H0 as <-. destruct Hh as [<- Hh]. apply Hhere; [done|by right; left].
      * right; left. exists t0, th0. split; [|done]. simpl. by rewrite lookup_insert_ne.
    + intros Hin. do 2 right. simpl. rewrite Hlog. apply Exists_app. by left.
  - intros Hb. destruct (inv_count _ Hi Hb) as [Hp Hle].
    destruct (local_weight _ _ _ _ _ _ _ Hl (local_bound _ _ _ _ _ Hi Hb Ht Hr)) as [Hw Hle'].
    rewrite (msum_insert _ _ _ _ _ Hr), (msum_insert _ _ _ _ _ Ht). simpl in *. lia.
  - intros t1 t2 th1 th2 r [[<- <-]|[Hne1 H1]]%lookup_insert_Some [[<- <-]|[Hne2 H2]]%lookup_insert_Some Ho1 Ho2; [done| | |].
    + exfalso. by eapply (step_owns t2 th2).
    + exfalso. by eapply (step_owns t1 th1).
    + by eapply (inv_owner _ Hi).
  - intros r rq0. destruct (decide (r = repo)) as [->|Hne].
    + rewrite lookup_insert_eq. intros [= <-].
      destruct (advance_owner _ _ _ _ _ _ _ _ _ Ha) as [[-> Heq]|[(Hp & -> & -> & ->)|(-> & Hsec & Hno)]].
      * rewrite (inv_lock _ Hi _ _ Hr). split; intros (t0 & th0 & H0 & Ho).
        -- destruct (decide (t0 = t)) as [->|Hne]; [|exists t0, th0; by rewrite lookup_insert_ne].
           rewrite Ht in H0. injection H0 as <-. exists t, th'. rewrite lookup_insert_eq. split; [done|by apply Heq].
        -- apply lookup_insert_Some in H0 as [[<- <-]|[_ H0]]; [|by exists t0, th0].
           exists t, (At repo pc). split; [done|by apply Heq].
      * split; [|done]. intros _. exists t, (At repo Claimed). by rewrite lookup_insert_eq.
      * split; [done|]. intros (t0 & th0 & [[<- <-]|[Hne H0]]%lookup_insert_Some & Ho); [by destruct (Hno repo)|].
        destruct Hne. by eapply (inv_owner _ Hi t t0).
    + rewrite lookup_insert_ne by done. intros H0. rewrite (inv_lock _ Hi _ _ H0).
      assert (owns th' r → owns (At repo pc) r) as Hnew.
      { destruct (advance_owner _ _ _ _ _ _ _ _ _ Ha) as [[_ Heq]|[(_ & _ & _ & ->)|(_ & _ & Hno)]];
          [by apply Heq|by intros [<- _]|by intros ?%Hno]. }
      split; intros (t0 & th0 & Hl0 & Ho).
      * destruct (decide (t0 = t)) as [->|Hne']; [|exists t0, th0; by rewrite lookup_insert_ne].
        rewrite Ht in Hl0. injection Hl0 as <-. by destruct Ho as [<- _].
      * apply lookup_insert_Some in Hl0 as [[<- <-]|[_ Hl0]]; [|by exists t0, th0].
        apply Hnew in Ho as [<- _]. done.
Qed.
End one_step.

Lemma inv_enqueue s t repo f cap :
  inv s → threads s !! t = None → rel_paths f ≠ [] → inv (begin_enqueue t repo f cap s).
Proof.
  intros Hi Ht Hne. unfold begin_enqueue. rewrite bool_decide_false by done.
  set (rq := get_or_create_repo repo s). set (rq' := set_metrics _ rq). set (th := At repo _).
  assert (rq_ok rq') as Hok.
  { change (rq_ok rq). unfold rq, get_or_create_repo. destruct (repos s !! repo) eqn:Hr; [|done]. by apply (inv_rq _ Hi repo). }
  assert (rq_weight rq' = from_option rq_weight 0 (repos s !! repo)) as Hw.
  { change (rq_weight rq = from_option rq_weight 0 (repos s !! repo)). unfold rq, get_or_create_repo.
    by destruct (repos s !! repo). }
  assert (∀ t0 th0 r, <[t:=th]> (threads s) !! t0 = Some th0 → owns th0 r → t0 ≠ t ∧ threads s !! t0 = Some th0) as Hown.
  { intros t0 th0 r [[<- <-]|[? ?]]%lookup_insert_Some Ho; [by destruct Ho|done]. }
  split; simpl.
  - apply map_Forall_insert_2; [done|apply (inv_rq _ Hi)].
  - apply map_Forall_insert_2; [done|apply (inv_th _ Hi)].
  - intros t0 th0 r [[<- <-]|[_ H0]]%lookup_insert_Some Hat.
    + injection Hat as <-. rewrite lookup_insert_eq. by eexists.
    + destruct (decide (r = repo)) as [->|]; [rewrite lookup_insert_eq; by eexists|].
      rewrite lookup_insert_ne by done. by eapply (inv_at _ Hi).
  - intros r g [Hg|[= -> ->]%list_elem_of_singleton]%elem_of_app.
    + destruct (inv_cov _ Hi _ _ Hg) as [Hgne Hc]. split; [done|]. revert Hc. apply covered_mono.
      * intros rq0 H0 Hq. left. destruct (decide (r = repo)) as [->|].
        -- exists rq'. split; [apply lookup_insert_eq|]. unfold rq', rq, get_or_create_repo. by rewrite H0.
        -- exists rq0. split; [simpl; by rewrite lookup_insert_ne|done].
      * intros t0 th0 H0 Hh. right; left. exists t0, th0. split; [|done]. simpl.
        rewrite lookup_insert_ne; [done|congruence].
      * intros ?. by right; right.
    + split; [done|]. right; left. exists t, th. split; [apply lookup_insert_eq|by split].
  - unfold len. rewrite length_app. simpl. intros Hb. destruct (inv_count _ Hi) as [Hp Hle]; [unfold len; lia|].
    unfold len in *. destruct (weights_nonneg s Hi) as [H1 H2].
    pose proof (msum_nonneg _ _ H1). pose proof (msum_nonneg _ _ H2).
    rewrite fetch_add_eq by lia. split; [|lia]. rewrite (msum_insert_new _ _ _ _ Ht). simpl.
    destruct (repos s !! repo) as [rq0|] eqn:Hr; simpl in Hw.
    + rewrite (msum_insert _ _ _ _ _ Hr). lia.
    + rewrite (msum_insert_new _ _ _ _ Hr). lia.
  - intros t1 t2 th1 th2 r H1 H2 Ho1 Ho2. destruct (Hown _ _ _ H1 Ho1) as [_ Hx], (Hown _ _ _ H2 Ho2) as [_ Hy].
    by apply (inv_owner _ Hi t1 t2 th1 th2 r).
  - assert (∀ r, (∃ t0 th0, <[t:=th]> (threads s) !! t0 = Some th0 ∧ owns th0 r) ↔
      ∃ t0 th0, threads s !! t0 = Some th0 ∧ owns th0 r) as Heq.
    { intros r. split; intros (t0 & th0 & H0 & Ho); exists t0, th0.
      - by destruct (Hown _ _ _ H0 Ho) as [_ Hx].
      - rewrite lookup_insert_ne; [done|congruence]. }
    intros r rq0 [[<- <-]|[_ H0]]%lookup_insert_Some; rewrite Heq; [|by apply (inv_lock _ Hi)].
    unfold rq', rq, get_or_create_repo. destruct (repos s !! repo) as [rq0|] eqn:Hr; [exact (inv_lock _ Hi _ _ Hr)|].
    split; [done|]. intros (t0 & th0 & H0 & Ho). exfalso. destruct th0; try done. destruct Ho as [-> _].
    destruct (inv_at _ Hi t0 _ repo H0 eq_refl). congruence.
Qed.

Lemma commit_step_inv wc s s' : inv s → step wc s s' → inv s'.
Proof.
  intros Hi Hs. destruct (step_shape wc s s' (inv_at _ Hi) Hs) as
    [t repo f cap Ht Hne ->|t Ht ->|t th th' sh' Ht Hq Hl Hp ->|t x repo pc rq rq' sh' th' Ht Hr Ha ->|sh' Hl Hp ->].
  - by apply inv_enqueue.
  - split; simpl.
    + apply (inv_rq _ Hi).
    + apply map_Forall_insert_2; [done|apply (inv_th _ Hi)].
    + intros t0 th0 r [[<- <-]|[_ H0]]%lookup_insert_Some; [done|by apply (inv_at _ Hi t0)].
    + intros r f Hf. destruct (inv_cov _ Hi _ _ Hf) as [Hne Hc]. split; [done|]. revert Hc. apply covered_mono.
      * intros rq0 ? ?. left. by exists rq0.
      * intros t0 th0 H0 ?. right; left. exists t0, th0. split; [|done]. simpl. rewrite lookup_insert_ne; [done|congruence].
      * intros ?. by right; right.
    + intros Hb. rewrite (msum_insert_new _ _ _ _ Ht). by apply (inv_count _ Hi).
    + intros t1 t2 th1 th2 r [[<- <-]|[_ H1]]%lookup_insert_Some [[<- <-]|[_ H2]]%lookup_insert_Some; try done.
      by apply (inv_owner _ Hi).
    + intros r rq Hr. rewrite (inv_lock _ Hi _ _ Hr). split; intros (t0 & th0 & H0 & Ho).
      * exists t0, th0. rewrite lookup_insert_ne; [done|congruence].
      * apply lookup_insert_Some in H0 as [[<- <-]|[_ H0]]; [done|by exists t0, th0].
  - assert (inv (set_shared sh' s)) as Hi' by by apply inv_set_shared.
    eapply inv_set_quiet; [done|done|]. by destruct Hq.
  - by eapply inv_local.
  - by apply inv_set_shared.
Qed.

Lemma commit_reachable_inv wc s : reachable wc s → inv s.
Proof.
  unfold reachable. intros Hs. pose proof (commit_new_inv wc) as Hi. revert Hi. induction Hs as [|a b c Hab _ IH]; [done|].
  intros Hi. apply IH. by eapply commit_step_inv.
Qed.

(** ** The properties *)

Lemma opt_covers_count w f : opt_ok w → opt_covers w f → 0 < work_count w.
Proof. destruct w as [w|]; [by intros [? _]|done]. Qed.

Lemma elem_of_len (f : CommitFields) l : f ∈ l → 0 < len l.
Proof. unfold len. destruct l; [by intros ?%elem_of_nil|]. simpl. lia. Qed.

Lemma len_nonneg {A} (l : list A) : 0 ≤ len l.
Proof. unfold len. lia. Qed.

(** A thread that holds a request counts. *)
Lemma pc_holds_weight pc f : pc_ok pc → pc_holds pc f → 0 < pc_weight pc.
Proof.
  induction pc; simpl; try done; try lia.
  - intros _. apply elem_of_len.
  - intros Hw. pose proof (work_count_nonneg _ Hw). pose proof (len_nonneg batch).
    intros [?%elem_of_len|?%opt_covers_count]; [lia|lia|done].
  - intros [Hc Hw]. pose proof (work_count_nonneg _ Hw). pose proof (len_nonneg rest). pose proof (len_nonneg (failed_requests o)).
    intros [?%elem_of_len|[?%elem_of_len|?%opt_covers_count]]; [lia|lia|lia|done].
  - intros Hw. pose proof (work_count_nonneg _ Hw). pose proof (len_nonneg rest). pose proof (len_nonneg failed).
    intros [?%elem_of_len|[?%elem_of_len|?%opt_covers_count]]; [lia|lia|lia|done].
  - intros [Hc Hw] Hf. pose proof (opt_covers_count _ _ Hw Hf). lia.
  - intros Hok Hf. revert Hok. induction Hf as [[l|w'] items Hd|d items _ IH]; intros [Hx Hi]%Forall_cons; simpl in *;
      pose proof (items_weight_nonneg items Hi).
    + apply elem_of_len in Hd. unfold len in Hd. lia.
    + destruct Hx as [? _]. lia.
    + specialize (IH Hi). assert (0 ≤ drained_weight d) by (destruct d as [l|w]; simpl in *; [lia|destruct Hx; lia]). lia.
Qed.

Lemma queued_weight rq f : rq_ok rq → queued rq f → 0 < rq_weight rq.
Proof.
  intros Hok [Hf|Hf]; pose proof (rq_weight_count rq Hok); unfold rq_weight in *.
  - apply elem_of_len in Hf. unfold len in Hf. lia.
  - unfold rq_ok in Hok. destruct (spill rq) as [e|]; [|done]. destruct Hok as [? _]. simpl in *. lia.
Qed.

(** When nothing is pending, what is covered is committed. *)
Lemma nothing_pending s repo f :
  inv s → len (accepted s) ≤ u64_max → pending_requests (shared s) ≤ 0 → (repo, f) ∈ accepted s →
  in_log (log (shared s)) repo f.
Proof.
  intros Hi Hb Hp Hacc. destruct (inv_count _ Hi Hb) as [Heq _]. destruct (weights_nonneg s Hi) as [H1 H2].
  pose proof (msum_nonneg _ _ H1). pose proof (msum_nonneg _ _ H2).
  destruct (inv_cov _ Hi _ _ Hacc) as [_ [(rq & Hr & Hq)|[(t & th & Ht & Hh)|Hl]]]; [| |done]; exfalso.
  - pose proof (msum_le _ _ _ _ H1 Hr). pose proof (queued_weight _ _ (inv_rq _ Hi _ _ Hr) Hq). lia.
  - pose proof (msum_le _ _ _ _ H2 Ht). pose proof (inv_th _ Hi _ _ Ht) as Hok. destruct th as [| | | | | |r pc|]; try done.
    destruct Hh as [_ Hh]. pose proof (pc_holds_weight _ _ Hok Hh). simpl in *. lia.
Qed.

(** A step in which no worker is about to overwrite a depth that has changed
    since it was computed. *)
Definition fresh (s : Sys) : Prop :=
  ∀ t repo n rq, threads s !! t = Some (At repo (ReconcileStore n)) → repos s !! repo = Some rq → n = rq_weight rq.

Definition fresh_step (wc : nat) (s s' : Sys) : Prop := fresh s ∧ step wc s s'.

Definition depth_ok (s : Sys) : Prop := map_Forall (λ _ rq, depth rq = rq_weight rq) (repos s).

Lemma accepted_grows wc s s' : inv s → step wc s s' → len (accepted s) ≤ len (accepted s').
Proof.
  intros Hi Hs. unfold len. destruct (step_shape wc s s' (inv_at _ Hi) Hs) as
    [t repo f cap Ht Hne ->|t Ht ->|t th th' sh' Ht Hq Hl Hp ->|t x repo pc rq rq' sh' th' Ht Hr Ha ->|sh' Hl Hp ->];
    simpl; try lia.
  unfold begin_enqueue. rewrite bool_decide_false by done. simpl. rewrite length_app. lia.
Qed.

Lemma fresh_step_depth wc s s' :
  inv s → len (accepted s) ≤ u64_max → depth_ok s → fresh_step wc s s' → depth_ok s'.
Proof.
  intros Hi Hb Hd [Hf Hs]. destruct (step_shape wc s s' (inv_at _ Hi) Hs) as
    [t repo f cap Ht Hne ->|t Ht ->|t th th' sh' Ht Hq Hl Hp ->|t x repo pc rq rq' sh' th' Ht Hr Ha ->|sh' Hl Hp ->]; try done.
  - unfold begin_enqueue. rewrite bool_decide_false by done. apply map_Forall_insert_2; [|done]. simpl.
    unfold get_or_create_repo. destruct (repos s !! repo) as [rq|] eqn:Hr; [exact (Hd _ _ Hr)|done].
  - apply map_Forall_insert_2; [|done].
    assert (local repo pc rq (shared s) rq' sh' th') as Hl by by eapply step_local.
    pose proof (local_bound _ _ _ _ _ Hi Hb Ht Hr).
    apply (local_depth _ _ _ _ _ _ _ Hl); [lia| |exact (Hd _ _ Hr)].
    intros n ->. by eapply Hf.
Qed.

Lemma fresh_reachable_depth wc s :
  rtc (fresh_step wc) (new wc) s → len (accepted s) ≤ u64_max → depth_ok s.
Proof.
  intros Hs. assert (∀ a, rtc (fresh_step wc) a s → inv a → depth_ok a → len (accepted s) ≤ u64_max → depth_ok s) as Hall.
  { clear Hs. intros a. induction 1 as [|a b c Hab Hbc IH]; [done|]. intros Hi Hd Hb. destruct Hab as [Hfr Hst].
    assert (inv b) as Hib by by eapply commit_step_inv.
    apply IH; [done| |done]. apply (fresh_step_depth wc a); [done| |done|by split].
    assert (∀ u v, rtc (fresh_step wc) u v → inv u → len (accepted u) ≤ len (accepted v)) as Hmono.
    { clear. induction 1 as [|u v w [_ Huv] _ IH]; [done|]. intros Hi.
      pose proof (accepted_grows _ _ _ Hi Huv). pose proof (IH (commit_step_inv _ _ _ Hi Huv)). lia. }
    pose proof (accepted_grows _ _ _ Hi Hst). pose proof (Hmono _ _ Hbc Hib). lia. }
  apply (Hall _ Hs); [apply commit_new_inv|]. intros k x Hk. simpl in Hk. by rewrite lookup_empty in Hk.
Qed.

(** C7: No commit request is lost.  In every state that calls of [enqueue]
    and the workers can reach, whatever git answers, panics included, each
    request counted so far is in the queue or the spill of its repository, in
    the hands of a thread that will commit it or put it back, or committed: a
    commit of its repository lists all its paths or is one of everything. *)
Theorem no_request_lost wc s repo f :
  reachable wc s → (repo, f) ∈ accepted s → covered s repo f.
Proof. intros Hi%commit_reachable_inv Hf. by destruct (inv_cov _ Hi _ _ Hf). Qed.

(** The count of pending requests is exact, so [flush_sync] waits for
    what it says.  As long as fewer than 2^64 requests were made the count is
    the number of requests queued, spilled or in the hands of a thread; and
    when it is zero, in particular when [all_empty] ends the wait, every
    request counted so far is committed. *)
Theorem flush_waits_for_commits wc s :
  reachable wc s → len (accepted s) ≤ u64_max →
  pending_requests (shared s) = msum rq_weight (repos s) + msum thread_weight (threads s) ∧
  (pending_requests (shared s) = 0 ∨ all_empty s = true →
   ∀ repo f, (repo, f) ∈ accepted s → in_log (log (shared s)) repo f).
Proof.
  intros Hi%commit_reachable_inv Hb. split; [by apply (inv_count _ Hi)|]. intros Hp repo f Hf.
  apply nothing_pending; [done|done| |done]. destruct Hp as [->|Hp]; [done|].
  unfold all_empty in Hp. apply andb_true_iff in Hp as [Hp _]. apply negb_true_iff, Z.ltb_ge in Hp. done.
Qed.

(** One worker per repository, and none is locked for good.  Two threads
    are never inside the processing of one repository, and its flag is set
    exactly while one is, a panicking one included. *)
Theorem one_worker_per_repo wc s :
  reachable wc s →
  (∀ t1 t2 th1 th2 repo, threads s !! t1 = Some th1 → threads s !! t2 = Some th2 →
     owns th1 repo → owns th2 repo → t1 = t2) ∧
  (∀ repo rq, repos s !! repo = Some rq →
     processing rq = true ↔ ∃ t th, threads s !! t = Some th ∧ owns th repo).
Proof. intros Hi%commit_reachable_inv. split; [apply (inv_owner _ Hi)|apply (inv_lock _ Hi)]. Qed.

(** A spill stays within its caps: the paths (none once it stands for
    everything), the lines of the message and their length; and it counts at
    least one request. *)
Theorem spill_bounded wc s repo rq e :
  reachable wc s → repos s !! repo = Some rq → spill rq = Some e →
  0 < sp_pending e ∧ (size (sp_paths e) ≤ 4096)%nat ∧ (dirty_all e = true → sp_paths e = ∅) ∧
  (length (first_lines e) ≤ 32)%nat ∧ Forall (λ l, (length l ≤ 120)%nat) (first_lines e).
Proof.
  intros Hi%commit_reachable_inv Hr He. pose proof (inv_rq _ Hi _ _ Hr) as Hok. unfold rq_ok in Hok. rewrite He in Hok.
  destruct Hok as (? & [? ?] & ? & ?). done.
Qed.

(** The depth of a repository is the number of its requests, queued and
    spilled, as long as no worker stores a recomputed depth that is out of
    date. *)
Theorem depth_exact wc s repo rq :
  rtc (fresh_step wc) (new wc) s → len (accepted s) ≤ u64_max → repos s !! repo = Some rq → depth rq = rq_weight rq.
Proof. intros Hs Hb Hr. by apply (fresh_reachable_depth wc s Hs Hb repo). Qed.

(** ** One commit *)

Module RetryFacts.

Import Retry.

Definition is_commit (e : Event) : bool := match e with LockfreeCommit | IndexCommit => true | _ => false end.

Fixpoint commit_count (ev : list Event) : nat :=
  match ev with [] => 0 | e :: ev => (if is_commit e then 1 else 0) + commit_count ev end.

Fixpoint slept (ev : list Event) : Z :=
  match ev with [] => 0 | Sleep ms :: ev => ms + slept ev | _ :: ev => slept ev end.

Definition longest (attempt : nat) : Z := base_ms attempt + base_ms attempt / 2.

Lemma backoff_bound w k : base_ms k ≤ backoff w k ≤ longest k.
Proof.
  unfold backoff, longest. assert (0 < base_ms k / 2 + 1) as Hpos.
  { unfold base_ms. pose proof (Z.shiftl_nonneg 1 (Z.of_nat (Nat.min k 5))).
    assert (0 ≤ 50 * Z.shiftl 1 (Z.of_nat (Nat.min k 5)) / 2) by (apply Z.div_pos; lia). lia. }
  pose proof (Z.mod_pos_bound (subsec_micros w k) _ Hpos). lia.
Qed.

Fixpoint total (l : list nat) : Z := match l with [] => 0 | k :: l => longest k + total l end.

Lemma last_resort_spec w k r ev :
  last_resort w k = (r, ev) →
  (commit_count ev ≤ 1)%nat ∧ slept ev = 0 ∧ (r = None → index w (S k) = Done) ∧
  (r = Some GitIndexLock → stale_lock_removed w k = false).
Proof.
  unfold last_resort. destruct (stale_lock_removed w k); [destruct (open w (S k)); [destruct (index w (S k))|]|];
    intros [= <- <-]; (split_and!; [vm_compute; lia|done|done|done]).
Qed.

(** The removal of stale locks between the attempts. *)
Lemma clean_count (b : bool) ev : commit_count ((if b then [CleanStaleLock] else []) ++ ev) = commit_count ev.
Proof. by destruct b. Qed.
Lemma clean_slept (b : bool) ev : slept ((if b then [CleanStaleLock] else []) ++ ev) = slept ev.
Proof. by destruct b. Qed.

Lemma index_loop_spec w budget k r ev :
  index_loop w budget k = (r, ev) →
  (commit_count ev ≤ budget + 2)%nat ∧ 0 ≤ slept ev ≤ total (seq k budget) ∧
  (r = None → ∃ j, (k ≤ j ≤ k + budget + 1)%nat ∧ index w j = Done) ∧
  (r = Some GitIndexLock →
     (∀ j, (k ≤ j ≤ k + budget)%nat → index w j = IndexLocked) ∧ stale_lock_removed w (k + budget) = false).
Proof.
  revert k r ev. induction budget as [|budget IH]; intros k r ev; cbn [index_loop].
  - destruct (open w k); [|intros [= <- <-]; by split_and!; [vm_compute; lia|..]].
    destruct (index w k) eqn:Hk.
    + intros [= <- <-]. split_and!; [vm_compute; lia|done|done| |done]. exists k. split; [lia|done].
    + destruct (last_resort w k) as [r' ev'] eqn:Hl. intros [= <- <-].
      destruct (last_resort_spec _ _ _ _ Hl) as (Hc & Hs & Hn & Hg).
      simpl. split_and!; [lia|rewrite Hs; lia|rewrite Hs; lia| |].
      * intros Hr. exists (S k). split; [lia|by apply Hn].
      * intros Hr. rewrite Nat.add_0_r. split; [|by apply Hg]. intros j Hj. assert (j = k) as -> by lia. done.
    + intros [= <- <-]. by split_and!; [vm_compute; lia|..].
  - assert (0 ≤ longest k) as Hlong.
    { pose proof (backoff_bound w k). unfold base_ms in *. pose proof (Z.shiftl_nonneg 1 (Z.of_nat (Nat.min k 5))). lia. }
    assert (0 ≤ total (seq (S k) budget)) as Htot.
    { destruct (index_loop w budget (S k)) as [r' ev'] eqn:Hl. destruct (IH _ _ _ Hl) as (_ & ? & _). lia. }
    destruct (open w k); [|intros [= <- <-]; split_and!; [vm_compute; lia|done|simpl; lia|done|done]].
    destruct (index w k) eqn:Hk.
    + intros [= <- <-]. split_and!; [simpl; lia|done|simpl; lia| |done]. exists k. split; [lia|done].
    + destruct (index_loop w budget (S k)) as [r' ev'] eqn:Hl. intros [= <- <-].
      destruct (IH _ _ _ Hl) as (Hc & Hs & Hn & Hg). pose proof (backoff_bound w k) as Hb.
      assert (0 ≤ base_ms k) by (unfold base_ms; pose proof (Z.shiftl_nonneg 1 (Z.of_nat (Nat.min k 5))); lia).
      split_and!.
      * simpl. rewrite clean_count. lia.
      * simpl. rewrite clean_slept. lia.
      * simpl. rewrite clean_slept. lia.
      * intros Hr. destruct (Hn Hr) as (j & Hj & Hd). exists j. split; [lia|done].
      * intros Hr. destruct (Hg Hr) as [Hall Hst]. split; [|by rewrite Nat.add_succ_comm in Hst].
        intros j Hj. destruct (decide (j = k)) as [->|]; [done|]. apply Hall. lia.
    + intros [= <- <-]. split_and!; [simpl; lia|done|simpl; lia|done|done].
Qed.

(** One commit is bounded.  It makes at most ten attempts (one without
    the lock, eight with it, one after a stale lock was removed) and sleeps at
    most 7.125 seconds in all; it succeeds only if an attempt did, and reports
    contention only if all eight attempts met the lock and no stale lock was
    removed after the last. *)
Theorem commit_retry_bounded opens w :
  let '(r, ev) := coalescer_commit_with_retry opens w in
  (commit_count ev ≤ 10)%nat ∧ 0 ≤ slept ev ≤ 7125 ∧
  (r = None → lockfree w = true ∨ ∃ j, (j ≤ 8)%nat ∧ index w j = Done) ∧
  (r = Some GitIndexLock → (∀ j, (j ≤ 7)%nat → index w j = IndexLocked) ∧ stale_lock_removed w 7 = false).
Proof.
  unfold coalescer_commit_with_retry. destruct opens; [|by split_and!; [vm_compute; lia|..]].
  destruct (lockfree w); [split_and!; [vm_compute; lia|done|done|by left|done]|].
  destruct (index_loop w MAX_RETRIES 0) as [r ev] eqn:Hl. destruct (index_loop_spec _ _ _ _ _ Hl) as (Hc & Hs & Hn & Hg).
  assert (total (seq 0 MAX_RETRIES) = 7125) as Ht by by vm_compute. unfold MAX_RETRIES in *.
  split_and!; [simpl; lia|simpl; lia|simpl; lia| |].
  - intros Hr. right. destruct (Hn Hr) as (j & Hj & Hd). exists j. split; [lia|done].
  - intros Hr. destruct (Hg Hr) as [Hall Hst]. split; [|done]. intros j Hj. apply Hall. lia.
Qed.

End RetryFacts.

(** ** Two races *)

Fixpoint runs (wc : nat) (ls : list Label) (s : Sys) : option Sys :=
  match ls with
  | [] => Some s
  | l :: ls => run_label wc l s ≫= runs wc ls
  end.

Lemma runs_rtc wc ls s s' : runs wc ls s = Some s' → rtc (step wc) s s'.
Proof.
  revert s. induction ls as [|l ls IH]; intros s; simpl; [intros [= ->]; done|].
  destruct (run_label wc l s) as [a|] eqn:Hl; [simpl|done]. intros Ha. eapply rtc_l; [by exists l|by apply IH].
Qed.

(** A step that is not the start of a call. *)
Definition no_call (wc : nat) (s s' : Sys) : Prop :=
  ∃ l, (∀ t repo f cap, l ≠ LEnqueue t repo f cap) ∧ run_label wc l s = Some s'.

Definition resting (th : Thread) : bool :=
  match th with Returned | Waiting | Parked | Woken | Pick | Exited | Scanning _ None => true | _ => false end.

(** All depths are zero and no worker has chosen a repository. *)
Record asleep (s : Sys) : Prop := {
  asleep_depth : map_Forall (λ _ rq, depth rq = 0) (repos s);
  asleep_threads : map_Forall (λ _ th, resting th = true) (threads s);
}.

(** Tokens do not help then: nothing happens until the next call. *)
Lemma asleep_step wc s s' :
  asleep s → no_call wc s s' →
  asleep s' ∧ repos s' = repos s ∧ log (shared s') = log (shared s) ∧ pending_requests (shared s') = pending_requests (shared s).
Proof.
  intros [Hd Ht] ([t repo f cap|t x| |] & Hl & Hs); simpl in Hs.
  - by destruct (Hl t repo f cap).
  - assert (∀ th', resting th' = true → asleep (set_thread t th' s) ∧ repos (set_thread t th' s) = repos s ∧
      log (shared (set_thread t th' s)) = log (shared s) ∧
      pending_requests (shared (set_thread t th' s)) = pending_requests (shared s)) as Hset.
    { intros th' Hth. split; [|done]. split; [done|]. by apply map_Forall_insert_2. }
    unfold run_thread in Hs. destruct (threads s !! t) as [th|] eqn:Hth; [simpl in Hs|done].
    pose proof (Ht _ _ Hth) as Hr. destruct th as [| | | | |todo [best|]|repo pc|]; try done.
    + injection Hs as <-. apply Hset. by destruct (shutdown _).
    + case_ifs; [|case_ifs; [|done]]; injection Hs as <-; [|by apply Hset].
      split; [|done]. split; [done|]. by apply map_Forall_insert_2.
    + injection Hs as <-. apply Hset. by destruct (shutdown _).
    + case_decide; [|done]. injection Hs as <-. by apply Hset.
    + destruct todo as [|p todo]; [injection Hs as <-; by apply Hset|].
      destruct (repos s !! p) as [rq|] eqn:Hp; [simpl in Hs|done]. injection Hs as <-. apply Hset.
      unfold consider. by rewrite (Hd _ _ Hp).
  - by injection Hs as <-.
  - by injection Hs as <-.
Qed.

Lemma asleep_steps wc s s' :
  rtc (no_call wc) s s' → asleep s →
  repos s' = repos s ∧ log (shared s') = log (shared s) ∧ pending_requests (shared s') = pending_requests (shared s).
Proof.
  induction 1 as [|a b c Hab _ IH]; [done|]. intros Ha.
  destruct (asleep_step _ _ _ Ha Hab) as (Hb & Hr & Hl & Hp). rewrite <-Hr, <-Hl, <-Hp. by apply IH.
Qed.

(** Without tokens nobody leaves the condition variable. *)
Lemma parked_stuck wc t x s :
  map_Forall (λ _ th, th = Returned ∨ th = Parked) (threads s) → wake_tokens (shared s) = 0 → shutdown (shared s) = false →
  run_thread wc t x s = None.
Proof.
  intros Ht Hw Hs. unfold run_thread. destruct (threads s !! t) as [th|] eqn:Hth; [|done]. simpl.
  destruct (Ht _ _ Hth) as [->| ->]; [done|]. by rewrite Hw, Hs.
Qed.

Module CoalescerRuns.

Definition repo : str := lit "/archive".
Definition request (name : string) : CommitFields :=
  {| enqueued_at := 0; author_name := lit "mail"; author_email := lit "mail@host";
     message := lit name; rel_paths := [lit name] |}.

(** Git succeeds, one repository is known. *)
Definition calm : World :=
  {| git := λ _, GitOk; now := 7; latency := λ _, 0; spill_latency := 0; keys := [repo] |}.
Definition go (n t : nat) : list Label := replicate n (LThread t calm).

Definition call (t : nat) (name : string) : list Label := LEnqueue t repo (request name) 100 :: go 4 t.

(** Worker 0 chooses the repository and is overtaken by worker 1, which
    commits everything; worker 0 finds nothing and recomputes the depth; a
    request arrives before it stores it; worker 0 ends, takes the token of the
    request and finds no work. *)
Definition late_store : list Label :=
  call 10 "a.md" ++ go 6 0 ++ call 11 "b.md" ++ go 6 1 ++ go 14 1 ++ go 5 0 ++ call 12 "c.md" ++ go 8 0 ++ go 6 0.

(** A request arrives while worker 0 commits; worker 1 takes its token and
    finds the repository taken; worker 0 signals that there is work, worker 1
    finds the repository still taken, worker 0 gives it back. *)
Definition early_signal : list Label :=
  call 10 "a.md" ++ go 6 0 ++ go 3 0 ++ call 11 "b.md" ++ go 7 1 ++ go 9 0 ++ go 6 1 ++ go 2 0.

Definition after (ls : list Label) : Sys := default (new 2) (runs 2 ls (new 2)).

Lemma after_reachable ls : is_Some (runs 2 ls (new 2)) → reachable 2 (after ls).
Proof. intros [s Hs]. unfold after. rewrite Hs. by eapply runs_rtc. Qed.

Lemma last_accepted ls l rf : accepted (after ls) = l ++ [rf] → rf ∈ accepted (after ls).
Proof. intros ->. apply elem_of_app. right. left. Qed.

(** A late store hides a request.  Two workers can choose the same
    repository; the slower one finds nothing and stores a recomputed depth of
    zero over the request that has arrived since.  From such a state no
    worker, no flush and no time commits the request: it waits for another
    call to the same repository. *)
Theorem late_store_hides_request :
  ∃ s f, reachable 2 s ∧ (repo, f) ∈ accepted s ∧
    ∀ s', rtc (no_call 2) s s' → ¬ in_log (log (shared s')) repo f ∧ all_empty s' = false.
Proof.
  exists (after late_store), (request "c.md"). split; [apply after_reachable; vm_compute; by eexists|].
  split; [apply (last_accepted late_store [(repo, request "a.md"); (repo, request "b.md")]); by vm_compute|]. intros s' Hs.
  assert (asleep (after late_store)) as Hsleep.
  { split; apply map_Forall_to_list; vm_compute; repeat constructor. }
  destruct (asleep_steps _ _ _ Hs Hsleep) as (_ & -> & Hp). split.
  - unfold in_log. vm_compute. intros H. inversion H as [? ? [_ Hc]|? ? Hn]; subst; [|inversion Hn].
    simpl in Hc. specialize (Hc [99; 46; 109; 100]%N (list_elem_of_here _ _)).
    repeat (apply elem_of_cons in Hc as [Hc|Hc]; [discriminate Hc|]). by apply elem_of_nil in Hc.
  - unfold all_empty. rewrite Hp. by vm_compute.
Qed.

(** An early signal strands a request.  A worker signals that there is
    more work before it gives the repository back, and a worker that takes
    the token in between finds the repository taken and waits again.  In such
    a state a request is queued, its repository is free and no thread can take
    a step, so the request waits for the next call, a flush or the end. *)
Theorem early_signal_strands_request :
  ∃ s rq f, reachable 2 s ∧ (repo, f) ∈ accepted s ∧ repos s !! repo = Some rq ∧
    queue rq = [f] ∧ depth rq = 1 ∧ processing rq = false ∧ ∀ t x, run_thread 2 t x s = None.
Proof.
  assert (∃ rq, repos (after early_signal) !! repo = Some rq ∧ queue rq = [request "b.md"] ∧ depth rq = 1 ∧
    processing rq = false) as (rq & Hr & Hq & Hd & Hp).
  { eexists. vm_compute. by split_and!. }
  exists (after early_signal), rq, (request "b.md"). split; [apply after_reachable; vm_compute; by eexists|].
  split; [apply (last_accepted early_signal [(repo, request "a.md")]); by vm_compute|]. split_and!; [done..|]. intros t x. apply parked_stuck.
  - apply map_Forall_to_list. vm_compute. repeat (constructor; [tauto|]). constructor.
  - by vm_compute.
  - by vm_compute.
Qed.

(** A worker in the middle of a commit, and one that is through. *)
Definition committing : list Label := call 10 "a.md" ++ go 6 0 ++ go 3 0.
Definition committed : list Label := call 10 "a.md" ++ go 6 0 ++ go 13 0.

Example no_request_lost_witness : covered (after late_store) repo (request "c.md").
Proof.
  apply (no_request_lost 2); [apply after_reachable; vm_compute; by eexists|].
  apply (last_accepted late_store [(repo, request "a.md"); (repo, request "b.md")]). by vm_compute.
Defined.

Example flush_waits_for_commits_witness : in_log (log (shared (after committed))) repo (request "a.md").
Proof.
  apply (flush_waits_for_commits 2 (after committed)).
  - apply after_reachable. vm_compute. by eexists.
  - by vm_compute.
  - right. by vm_compute.
  - apply (last_accepted committed []). by vm_compute.
Defined.

Example one_worker_per_repo_witness : ∃ rq, repos (after committing) !! repo = Some rq ∧ processing rq = true.
Proof.
  assert (∃ rq, repos (after committing) !! repo = Some rq) as [rq Hr] by (vm_compute; by eexists).
  exists rq. split; [done|]. apply (one_worker_per_repo 2 (after committing)) with (repo := repo).
  - apply after_reachable. vm_compute. by eexists.
  - done.
  - exists 0%nat. eexists. split; [by vm_compute|]. by split.
Defined.

End CoalescerRuns.
