(* ===== verification/WriteBehindQueue.v ===== *)
(** * The write-behind queue ([mcp-agent-mail-storage/src/lib.rs])

    Archive writes leave the tools through a bounded channel; one thread
    drains it in batches and executes them.  Callers enqueue, flush and shut
    the queue down; a queue that has ended is started again by the next
    enqueue, with a new channel.  The threads are interleaved at the channel
    operations, at the atomic counter and at the lock of the life cycle; the
    execution of an operation, the disk pressure and the clock are up to the
    world. *)

From stdpp Require Import base numbers tactics list gmap.
From S2P Require Import Prelude.
Open Scope Z_scope.

Module WriteBehindQueue.

Definition WBQ_CHANNEL_CAPACITY : nat := 8192.
Definition WBQ_DRAIN_BATCH_CAP : nat := 256.
Definition WBQ_ENQUEUE_MAX_BACKOFF_MS : Z := 8.

(** ** Executing one operation *)

Inductive StorageError :=
  Io | Git | Json | LockContention | GitIndexLock | LockTimeout | InvalidPath | NotInitialized.

Definition retryable (e : StorageError) : bool :=
  match e with Io | LockContention | GitIndexLock | LockTimeout => true | _ => false end.

(** Attempt [n], counted from zero, fails with [attempt n] or succeeds; the
    result, the number of attempts made and the milliseconds slept. *)
Fixpoint execute_loop (attempt : nat → option StorageError) (budget attempts : nat) : option StorageError * nat * Z :=
  match attempt attempts with
  | None => (None, S attempts, 0)
  | Some e =>
      let attempts := S attempts in
      if (3 <=? attempts)%nat then (Some e, attempts, 0)
      else if retryable e then
        match budget with
        | O => (Some e, attempts, 0)
        | S budget =>
            let '(r, n, slept) := execute_loop attempt budget attempts in
            (r, n, 50 * Z.shiftl 1 (Z.of_nat attempts) + slept)
        end
      else (Some e, attempts, 0)
  end.

(** The loop ends by the third attempt, so the budget is never used up. *)
Definition wbq_execute_op (attempt : nat → option StorageError) : option StorageError * nat * Z :=
  execute_loop attempt 3 0.

(** ** The disk pressure *)

Inductive DiskPressure := PressureOk | Warning | Critical | Fatal.

Definition as_u64 (p : DiskPressure) : Z :=
  match p with PressureOk => 0 | Warning => 1 | Critical => 2 | Fatal => 3 end.
Definition from_u64 (v : Z) : DiskPressure :=
  if v =? 1 then Warning else if v =? 2 then Critical else if v =? 3 then Fatal else PressureOk.

Definition disk_critical (level : Z) : bool := as_u64 Critical <=? level.

(** ** The queue and its threads *)

Inductive WbqEnqueueResult := Enqueued | QueueUnavailable | SkippedDiskCritical.

Record WbqMetrics := {
  wbq_enqueued_total : Z;
  wbq_drained_total : Z;
  wbq_errors_total : Z;
  wbq_fallbacks_total : Z;
  wbq_depth : Z;
  wbq_peak_depth : Z;
  wbq_over_80_since_us : Z;
}.

Definition over_80 (depth now : Z) (since : Z) : Z :=
  let threshold := u64_saturating_mul (Z.of_nat WBQ_CHANNEL_CAPACITY) 80 / 100 in
  if (0 <? threshold) && (threshold <=? depth) then if since =? 0 then now else since else 0.

Definition set_depth (rise : bool) (depth now : Z) (m : WbqMetrics) : WbqMetrics :=
  {| wbq_enqueued_total := wbq_enqueued_total m; wbq_drained_total := wbq_drained_total m;
     wbq_errors_total := wbq_errors_total m; wbq_fallbacks_total := wbq_fallbacks_total m;
     wbq_depth := depth;
     wbq_peak_depth := if rise then Z.max (wbq_peak_depth m) depth else wbq_peak_depth m;
     wbq_over_80_since_us := over_80 depth now (wbq_over_80_since_us m) |}.

Definition count (enqueued drained errors fallbacks : Z) (m : WbqMetrics) : WbqMetrics :=
  {| wbq_enqueued_total := u64_wrap (wbq_enqueued_total m + enqueued);
     wbq_drained_total := u64_wrap (wbq_drained_total m + drained);
     wbq_errors_total := u64_wrap (wbq_errors_total m + errors);
     wbq_fallbacks_total := u64_wrap (wbq_fallbacks_total m + fallbacks);
     wbq_depth := wbq_depth m; wbq_peak_depth := wbq_peak_depth m; wbq_over_80_since_us := wbq_over_80_since_us m |}.

Section wbq.
Context {Op : Type}.

(** A flush names the thread that waits for it. *)
Inductive WbqMsg := MOp (op : Op) | MFlush (waiter : nat) | MShutdown.

(** What became of an operation; [Lost]: it was sent after the last look at
    the channel and before the receiver was dropped. *)
Inductive Fate := Executed (r : option StorageError) | Skipped | Lost.

(** A thread in [wbq_enqueue], [wbq_flush] or [wbq_shutdown]. *)
Inductive Caller :=
  | Start (op : Op) (pressure : Z)
  | Starting (op : Op) (pressure : Z)
  | CloneSender (op : Op) (pressure : Z)
  | TrySend (op : Op) (generation : nat)
  | Retry (op : Op) (generation : nat) (backoff : Z)
  | Count
  | Note (depth : Z)
  | FlushStart
  | FlushSend (generation : nat)
  | FlushWait
  | ShutdownStart
  | ShutdownFlush (generation : nat)
  | ShutdownWait (generation : nat)
  | ShutdownSend (generation : nat)
  | ShutdownSender
  | ShutdownJoin
  | Returned (r : WbqEnqueueResult)
  | Flushed (signalled : bool)
  | Stopped.

(** The drain thread. *)
Inductive Drain :=
  | Recv
  | Collect (batch : list Op) (waiters : list nat) (shutting_down : bool)
  | Subtracted (batch : list Op) (waiters : list nat) (shutting_down : bool) (depth : Z)
  | Exec (batch : list Op) (drained errors : Z) (waiters : list nat) (shutting_down : bool)
  | Signal (waiters : list nat) (shutting_down : bool)
  | Final
  | FinalOp (op : Op) (depth : Z)
  | Closing
  | Finished.

(** [generation] numbers the channels; [sender] is the one in the queue's
    slot, and senders of an earlier channel are disconnected.  [lifecycle]:
    who holds the lock.  For the statements: [sent], all operations sent;
    [settled], what became of them; [marks], how many had been sent when a
    waiter sent its flush; [signalled], the waiters that were answered. *)
Record Sys := {
  generation : nat;
  channel : list WbqMsg;
  sender : option nat;
  drain : option Drain;
  lifecycle : option nat;
  op_depth : Z;
  metrics : WbqMetrics;
  callers : gmap nat Caller;
  sent : list Op;
  settled : list (Op * Fate);
  marks : gmap nat nat;
  signalled : list nat;
}.

Definition new_write_behind_queue : Sys :=
  {| generation := 0; channel := []; sender := None; drain := None; lifecycle := None; op_depth := 0;
     metrics := {| wbq_enqueued_total := 0; wbq_drained_total := 0; wbq_errors_total := 0; wbq_fallbacks_total := 0;
                   wbq_depth := 0; wbq_peak_depth := 0; wbq_over_80_since_us := 0 |};
     callers := ∅; sent := []; settled := []; marks := ∅; signalled := [] |}.

(** What the world decides in a step. *)
Record World := {
  expired : bool;                               (* the deadline of an enqueue or a wait has passed *)
  now : Z;
  disk_pressure_level : Z;
  attempt : nat → option StorageError;
  disconnected : bool;                          (* the drain thread looks at an abandoned channel *)
}.

Definition set_caller (t : nat) (c : Caller) (s : Sys) : Sys :=
  {| generation := generation s; channel := channel s; sender := sender s; drain := drain s; lifecycle := lifecycle s;
     op_depth := op_depth s; metrics := metrics s; callers := <[t := c]> (callers s); sent := sent s;
     settled := settled s; marks := marks s; signalled := signalled s |}.
Definition set_channel (ch : list WbqMsg) (s : Sys) : Sys :=
  {| generation := generation s; channel := ch; sender := sender s; drain := drain s; lifecycle := lifecycle s;
     op_depth := op_depth s; metrics := metrics s; callers := callers s; sent := sent s;
     settled := settled s; marks := marks s; signalled := signalled s |}.
Definition set_sender (x : option nat) (s : Sys) : Sys :=
  {| generation := generation s; channel := channel s; sender := x; drain := drain s; lifecycle := lifecycle s;
     op_depth := op_depth s; metrics := metrics s; callers := callers s; sent := sent s;
     settled := settled s; marks := marks s; signalled := signalled s |}.
Definition set_drain (d : option Drain) (s : Sys) : Sys :=
  {| generation := generation s; channel := channel s; sender := sender s; drain := d; lifecycle := lifecycle s;
     op_depth := op_depth s; metrics := metrics s; callers := callers s; sent := sent s;
     settled := settled s; marks := marks s; signalled := signalled s |}.
Definition set_lifecycle (l : option nat) (s : Sys) : Sys :=
  {| generation := generation s; channel := channel s; sender := sender s; drain := drain s; lifecycle := l;
     op_depth := op_depth s; metrics := metrics s; callers := callers s; sent := sent s;
     settled := settled s; marks := marks s; signalled := signalled s |}.
Definition set_op_depth (d : Z) (s : Sys) : Sys :=
  {| generation := generation s; channel := channel s; sender := sender s; drain := drain s; lifecycle := lifecycle s;
     op_depth := d; metrics := metrics s; callers := callers s; sent := sent s;
     settled := settled s; marks := marks s; signalled := signalled s |}.
Definition set_metrics (m : WbqMetrics) (s : Sys) : Sys :=
  {| generation := generation s; channel := channel s; sender := sender s; drain := drain s; lifecycle := lifecycle s;
     op_depth := op_depth s; metrics := m; callers := callers s; sent := sent s;
     settled := settled s; marks := marks s; signalled := signalled s |}.
Definition settle (os : list (Op * Fate)) (s : Sys) : Sys :=
  {| generation := generation s; channel := channel s; sender := sender s; drain := drain s; lifecycle := lifecycle s;
     op_depth := op_depth s; metrics := metrics s; callers := callers s; sent := sent s;
     settled := settled s ++ os; marks := marks s; signalled := signalled s |}.
Definition signal (ws : list nat) (s : Sys) : Sys :=
  {| generation := generation s; channel := channel s; sender := sender s; drain := drain s; lifecycle := lifecycle s;
     op_depth := op_depth s; metrics := metrics s; callers := callers s; sent := sent s;
     settled := settled s; marks := marks s; signalled := signalled s ++ ws |}.

(** ** Sending *)

Inductive SendResult := SendOk (s : Sys) | SendFull | SendDisconnected.

(** The receiver exists. *)
Definition connected (g : nat) (s : Sys) : bool :=
  bool_decide (g = generation s) && match drain s with Some Finished | None => false | Some _ => true end.

Definition record_sent (t : nat) (m : WbqMsg) (s : Sys) : Sys :=
  {| generation := generation s; channel := channel s ++ [m]; sender := sender s; drain := drain s;
     lifecycle := lifecycle s; op_depth := op_depth s; metrics := metrics s; callers := callers s;
     sent := match m with MOp op => sent s ++ [op] | _ => sent s end;
     settled := settled s;
     marks := match m with MFlush w => <[w := length (sent s)]> (marks s) | _ => marks s end;
     signalled := signalled s |}.

(** [SyncSender::try_send]. *)
Definition try_send (t g : nat) (m : WbqMsg) (s : Sys) : SendResult :=
  if negb (connected g s) then SendDisconnected
  else if (length (channel s) <? WBQ_CHANNEL_CAPACITY)%nat then SendOk (record_sent t m s) else SendFull.

(** ** Callers *)

(** [wbq_start_inner] under the lock: a new channel and a new thread, unless
    one is running. *)
Definition spawn (s : Sys) : Sys :=
  {| generation := S (generation s); channel := []; sender := sender s; drain := Some Recv; lifecycle := lifecycle s;
     op_depth := op_depth s; metrics := metrics s; callers := callers s; sent := sent s;
     settled := settled s; marks := marks s; signalled := signalled s |}.

Definition running (s : Sys) : bool := match drain s with Some Finished | None => false | Some _ => true end.

Definition caller_step (t : nat) (x : World) (c : Caller) (s : Sys) : option Sys :=
  match c with
  | Start op p =>
      match lifecycle s with
      | Some _ => None
      | None => Some (if running s then set_caller t (CloneSender op p) s
                      else set_caller t (Starting op p) (set_lifecycle (Some t) (spawn s)))
      end
  | Starting op p => Some (set_caller t (CloneSender op p) (set_lifecycle None (set_sender (Some (generation s)) s)))
  | CloneSender op p =>
      Some (set_caller t (match sender s with
                          | None => Returned QueueUnavailable
                          | Some g => if disk_critical p then Returned SkippedDiskCritical else TrySend op g
                          end) s)
  | TrySend op g =>
      Some (match try_send t g (MOp op) s with
            | SendOk s => set_caller t Count s
            | SendFull => set_caller t (Retry op g 1) (set_metrics (count 0 0 0 1 (metrics s)) s)
            | SendDisconnected => set_caller t (Returned QueueUnavailable) s
            end)
  | Retry op g backoff =>
      Some (match try_send t g (MOp op) s with
            | SendOk s => set_caller t Count s
            | SendFull =>
                set_caller t (if expired x then Returned QueueUnavailable
                              else Retry op g (Z.min (backoff * 2) WBQ_ENQUEUE_MAX_BACKOFF_MS)) s
            | SendDisconnected => set_caller t (Returned QueueUnavailable) s
            end)
  | Count =>
      Some (set_caller t (Note (Z.min u64_max (op_depth s + 1)))
              (set_op_depth (u64_wrap (op_depth s + 1)) (set_metrics (count 1 0 0 0 (metrics s)) s)))
  | Note depth => Some (set_caller t (Returned Enqueued) (set_metrics (set_depth true depth (now x) (metrics s)) s))
  | FlushStart => Some (set_caller t (match sender s with None => Flushed false | Some g => FlushSend g end) s)
  | FlushSend g =>
      match try_send t g (MFlush t) s with
      | SendOk s => Some (set_caller t FlushWait s)
      | SendFull => None
      | SendDisconnected => Some (set_caller t (Flushed false) s)
      end
  | FlushWait =>
      if bool_decide (t ∈ signalled s) then Some (set_caller t (Flushed true) s)
      else if expired x || negb (running s) then Some (set_caller t (Flushed false) s) else None
  | ShutdownStart =>
      match lifecycle s with
      | Some _ => None
      | None => Some (set_caller t (match sender s with None => ShutdownSender | Some g => ShutdownFlush g end)
                        (set_lifecycle (Some t) s))
      end
  | ShutdownFlush g =>
      match try_send t g (MFlush t) s with
      | SendOk s => Some (set_caller t (ShutdownWait g) s)
      | SendFull => None
      | SendDisconnected => Some (set_caller t (ShutdownSend g) s)
      end
  | ShutdownWait g =>
      if bool_decide (t ∈ signalled s) || expired x || negb (running s) then Some (set_caller t (ShutdownSend g) s)
      else None
  | ShutdownSend g =>
      match try_send t g MShutdown s with
      | SendOk s => Some (set_caller t ShutdownSender s)
      | SendFull => None
      | SendDisconnected => Some (set_caller t ShutdownSender s)
      end
  | ShutdownSender => Some (set_caller t ShutdownJoin (set_sender None s))
  | ShutdownJoin =>
      if running s then None else Some (set_caller t Stopped (set_lifecycle None (set_drain None s)))
  | Returned _ | Flushed _ | Stopped => None
  end.

(** ** The drain thread *)

Definition receive (m : WbqMsg) (batch : list Op) (waiters : list nat) (shutting_down : bool) : Drain :=
  match m with
  | MOp op => Collect (batch ++ [op]) waiters shutting_down
  | MFlush w => Collect batch (waiters ++ [w]) shutting_down
  | MShutdown => Collect batch waiters true
  end.

(** One operation, unless the disk is nearly full. *)
Definition execute (x : World) : Fate :=
  if disk_critical (disk_pressure_level x) then Skipped else Executed (wbq_execute_op (attempt x)).1.1.

Definition failed (f : Fate) : Z := match f with Executed (Some _) => 1 | _ => 0 end.
Definition skipped (f : Fate) : Z := match f with Skipped => 1 | _ => 0 end.

Definition holds_sender (g : nat) (c : Caller) : bool :=
  match c with
  | Starting _ _ => true
  | TrySend _ g' | Retry _ g' _ | FlushSend g' | ShutdownFlush g' | ShutdownWait g' | ShutdownSend g' => bool_decide (g' = g)
  | _ => false
  end.

(** Nobody can send any more. *)
Definition abandoned (s : Sys) : bool :=
  bool_decide (sender s ≠ Some (generation s)) &&
  forallb (λ kc, negb (holds_sender (generation s) kc.2)) (map_to_list (callers s)).

Definition lost_ops (ch : list WbqMsg) : list (Op * Fate) :=
  omap (λ m, match m with MOp op => Some (op, Lost) | _ => None end) ch.

Definition drain_step (x : World) (s : Sys) : option Sys :=
  d ← drain s;
  match d with
  | Recv =>
      match channel s with
      | m :: ch => Some (set_drain (Some (receive m [] [] false)) (set_channel ch s))
      | [] => if disconnected x && abandoned s then Some (set_drain (Some Final) s) else Some s
      end
  | Collect batch ws sd =>
      match channel s with
      | m :: ch =>
          if (length batch <? WBQ_DRAIN_BATCH_CAP)%nat then
            Some (set_drain (Some (receive m batch ws sd)) (set_channel ch s))
          else
            let depth := u64_saturating_sub (op_depth s) (Z.of_nat (length batch)) in
            Some (set_drain (Some (Subtracted batch ws sd depth)) (set_op_depth depth s))
      | [] =>
          let depth := u64_saturating_sub (op_depth s) (Z.of_nat (length batch)) in
          Some (set_drain (Some (Subtracted batch ws sd depth)) (set_op_depth depth s))
      end
  | Subtracted batch ws sd depth =>
      Some (set_drain (Some (Exec batch (Z.of_nat (length batch)) 0 ws sd))
              (set_metrics (set_depth false depth (now x) (metrics s)) s))
  | Exec (op :: batch) drained errors ws sd =>
      let f := execute x in
      Some (set_drain (Some (Exec batch drained (errors + failed f) ws sd))
              (settle [(op, f)] (set_metrics (count 0 0 (skipped f) 0 (metrics s)) s)))
  | Exec [] drained errors ws sd =>
      Some (set_drain (Some (Signal ws sd)) (set_metrics (count 0 drained errors 0 (metrics s)) s))
  | Signal ws sd => Some (set_drain (Some (if sd then Final else Recv)) (signal ws s))
  | Final =>
      match channel s with
      | MOp op :: ch =>
          let depth := u64_saturating_sub (op_depth s) 1 in
          Some (set_drain (Some (FinalOp op depth)) (set_op_depth depth (set_channel ch s)))
      | MFlush w :: ch => Some (set_channel ch (signal [w] s))
      | MShutdown :: ch => Some (set_channel ch s)
      | [] => Some (set_drain (Some Closing) s)
      end
  | FinalOp op depth =>
      let f := execute x in
      Some (set_drain (Some Final)
              (settle [(op, f)]
                 (set_metrics (count 0 1 (skipped f + failed f) 0 (set_depth false depth (now x) (metrics s))) s)))
  | Closing => Some (set_drain (Some Finished) (set_channel [] (settle (lost_ops (channel s)) s)))
  | Finished => None
  end.

(** ** The system *)

Inductive Call := CallEnqueue (op : Op) (pressure : Z) | CallFlush | CallShutdown.

Definition first (c : Call) : Caller :=
  match c with CallEnqueue op p => Start op p | CallFlush => FlushStart | CallShutdown => ShutdownStart end.

Inductive Label := LCall (t : nat) (c : Call) | LCaller (t : nat) (x : World) | LDrain (x : World).

Definition run_label (l : Label) (s : Sys) : option Sys :=
  match l with
  | LCall t c => match callers s !! t with None => Some (set_caller t (first c) s) | Some _ => None end
  | LCaller t x => c ← callers s !! t; caller_step t x c s
  | LDrain x => drain_step x s
  end.

Definition step (s s' : Sys) : Prop := ∃ l, run_label l s = Some s'.
Definition reachable (s : Sys) : Prop := rtc step new_write_behind_queue s.

End wbq.
End WriteBehindQueue.
