(* ===== verification/WriteBehindQueueFacts.v ===== *)
(** * What the write-behind queue guarantees

    The theorems about [WriteBehindQueue]: operations are executed once and in
    the order they were sent, a flush that is answered means that everything
    before it is settled, operations are lost only when the queue is shut
    down, and the depth counter never reports too little, though it may
    report too much for good. *)

From stdpp Require Import base numbers tactics list gmap.
From S2P Require Import Prelude WriteBehindQueue.
Import WriteBehindQueue.
Open Scope Z_scope.

(** ** One operation *)

(** At most three attempts and 300 milliseconds; another attempt only after an
    error that may pass. *)
Theorem execute_op_bounded att :
  let '(r, n, slept) := wbq_execute_op att in
  (1 ≤ n ≤ 3)%nat ∧ 0 ≤ slept ≤ 300 ∧ r = att (n - 1)%nat ∧
  (∀ k, (k < n - 1)%nat → ∃ e, att k = Some e ∧ retryable e = true).
Proof.
  unfold wbq_execute_op. simpl.
  destruct (att 0%nat) as [e0|] eqn:H0; [|split_and!; [lia|lia|lia|lia|done|lia]].
  destruct (retryable e0) eqn:Hr0; [|split_and!; [lia|lia|lia|lia|done|lia]].
  destruct (att 1%nat) as [e1|] eqn:H1.
  - destruct (retryable e1) eqn:Hr1.
    + destruct (att 2%nat) as [e2|] eqn:H2; (split_and!; [lia|lia|done|done|done|]);
        intros k Hk; (assert (k = 0 ∨ k = 1)%nat as [-> | ->] by (simpl in *; lia)); eauto.
    + split_and!; [lia|lia|done|done|done|]. intros k Hk. assert (k = 0)%nat as -> by (simpl in *; lia). eauto.
  - split_and!; [lia|lia|done|done|done|]. intros k Hk. assert (k = 0)%nat as -> by (simpl in *; lia). eauto.
Qed.

Section facts.
Context {Op : Type}.
Implicit Types (s : @Sys Op) (ch : list (@WbqMsg Op)).

(** ** What is where *)

Definition chan_ops ch : list Op := omap (λ m, match m with MOp op => Some op | _ => None end) ch.

Definition drain_ops (d : option (@Drain Op)) : list Op :=
  match d with
  | Some (Collect b _ _) | Some (Subtracted b _ _ _) | Some (Exec b _ _ _ _) => b
  | Some (FinalOp op _) => [op]
  | _ => []
  end.

Definition waiters (d : option (@Drain Op)) : list nat :=
  match d with
  | Some (Collect _ ws _) | Some (Subtracted _ ws _ _) | Some (Exec _ _ _ ws _) | Some (Signal ws _) => ws
  | _ => []
  end.

(** The flushes in a channel that begins after [n] operations. *)
Fixpoint flushes_ok (marks : gmap nat nat) (n : nat) ch : Prop :=
  match ch with
  | [] => True
  | MOp _ :: ch => flushes_ok marks (S n) ch
  | MFlush w :: ch => marks !! w = Some n ∧ flushes_ok marks n ch
  | MShutdown :: ch => flushes_ok marks n ch
  end.

(** The thread has not sent a flush. *)
Definition unmarked (c : @Caller Op) : bool :=
  match c with FlushWait | ShutdownWait _ | ShutdownSend _ | ShutdownSender | ShutdownJoin | Flushed _ | Stopped => false | _ => true end.

Definition before (marks : gmap nat nat) (w k : nat) : Prop := ∃ n, marks !! w = Some n ∧ (n ≤ k)%nat.

Record inv s : Prop := {
  inv_order : sent s = (settled s).*1 ++ drain_ops (drain s) ++ chan_ops (channel s);
  inv_capacity : (length (channel s) ≤ WBQ_CHANNEL_CAPACITY)%nat;
  inv_idle : running s = false → channel s = [];
  inv_flushes : flushes_ok (marks s) (length (settled s) + length (drain_ops (drain s))) (channel s);
  inv_waiters w : w ∈ waiters (drain s) → before (marks s) w (length (settled s) + length (drain_ops (drain s)));
  inv_signalled w : w ∈ signalled s → before (marks s) w (length (settled s));
  inv_flushed t : callers s !! t = Some (Flushed true) → t ∈ signalled s;
  inv_unmarked t : from_option unmarked true (callers s !! t) = true → marks s !! t = None;
}.

Lemma chan_ops_app ch1 ch2 : chan_ops (ch1 ++ ch2) = chan_ops ch1 ++ chan_ops ch2.
Proof. apply omap_app. Qed.

Lemma flushes_ok_app marks n ch1 ch2 :
  flushes_ok marks n (ch1 ++ ch2) ↔ flushes_ok marks n ch1 ∧ flushes_ok marks (n + length (chan_ops ch1)) ch2.
Proof.
  revert n. induction ch1 as [|[op|w|] ch1 IH]; intros n; simpl.
  - rewrite Nat.add_0_r. tauto.
  - rewrite IH, Nat.add_succ_r. done.
  - rewrite IH. tauto.
  - apply IH.
Qed.

(** A new mark leaves the others alone. *)
Lemma flushes_ok_insert marks n ch t k : marks !! t = None → flushes_ok marks n ch → flushes_ok (<[t := k]> marks) n ch.
Proof.
  intros Ht. revert n. induction ch as [|[op|w|] ch IH]; intros n; simpl; [done|apply IH| |apply IH].
  intros [Hw Hch]. split; [rewrite lookup_insert_ne; [done|congruence]|by apply IH].
Qed.

Lemma before_insert marks w n t k : marks !! t = None → before marks w n → before (<[t := k]> marks) w n.
Proof. intros Ht (m & Hm & Hle). exists m. split; [|done]. rewrite lookup_insert_ne; [done|congruence]. Qed.

Lemma before_le marks w n m : (n ≤ m)%nat → before marks w n → before marks w m.
Proof. intros Hle (k & Hk & ?). exists k. split; [done|lia]. Qed.

Lemma connected_running g s : connected g s = true → running s = true.
Proof. unfold connected, running. intros [_ H]%andb_true_iff. done. Qed.

(** ** Steps of a caller *)

(** A caller moves on without sending. *)
Lemma inv_set_caller s t c :
  inv s → (c = Flushed true → t ∈ signalled s) →
  (unmarked c = true → from_option unmarked true (callers s !! t) = true) → inv (set_caller t c s).
Proof.
  intros [] Hf Hu. split; simpl; try done.
  - intros t' [[<- ->]|[_ ?]]%lookup_insert_Some; [by apply Hf|by apply inv_flushed0].
  - intros t'. destruct (decide (t' = t)) as [->|Hne].
    + rewrite lookup_insert_eq. simpl. intros H%Hu. by apply inv_unmarked0.
    + rewrite lookup_insert_ne by done. apply inv_unmarked0.
Qed.

(** What the callers and the counters do not touch. *)
Lemma inv_same s s' :
  inv s → channel s' = channel s → drain s' = drain s → callers s' = callers s → sent s' = sent s →
  settled s' = settled s → marks s' = marks s → signalled s' = signalled s → inv s'.
Proof.
  intros [] H1 H2 H3 H4 H5 H6 H7. unfold running in *. split; unfold running; rewrite ?H1, ?H2, ?H3, ?H4, ?H5, ?H6, ?H7; done.
Qed.

Lemma inv_record_sent s t g m :
  inv s → connected g s = true → (length (channel s) < WBQ_CHANNEL_CAPACITY)%nat →
  (∀ w, m = MFlush w → w = t ∧ from_option unmarked true (callers s !! t) = true) →
  ∀ c, c ≠ Flushed true → (unmarked c = true → from_option unmarked true (callers s !! t) = true ∧ ∃ op, m = MOp op) →
  inv (set_caller t c (record_sent t m s)).
Proof.
  intros Hi Hc Hlt Hm c Hcf Hcu. pose proof (connected_running _ _ Hc) as Hrun.
  assert (∀ w, m = MFlush w → w = t ∧ marks s !! t = None) as Hmark.
  { intros w Hw. destruct (Hm w Hw) as [-> Hu]. split; [done|by apply (inv_unmarked _ Hi)]. }
  assert (length (sent s) = length (settled s) + length (drain_ops (drain s)) + length (chan_ops (channel s)))%nat as Hlen.
  { rewrite (inv_order _ Hi), !length_app, length_fmap. lia. }
  split; simpl.
  - rewrite chan_ops_app. destruct m as [op|w|]; simpl; rewrite ?app_nil_r, (inv_order _ Hi); [|done|done].
    by rewrite <-!app_assoc.
  - rewrite length_app. simpl. lia.
  - intros Hr. change (running s = false) in Hr. congruence.
  - apply flushes_ok_app. destruct m as [op|w|]; simpl.
    + split; [apply (inv_flushes _ Hi)|done].
    + destruct (Hmark w eq_refl) as [-> Hn]. split; [by apply flushes_ok_insert, (inv_flushes _ Hi)|].
      split; [|done]. rewrite lookup_insert_eq. f_equal. lia.
    + split; [apply (inv_flushes _ Hi)|done].
  - intros w Hw. pose proof (inv_waiters _ Hi w Hw) as Hb. destruct m as [op|w'|]; [done| |done].
    destruct (Hmark w' eq_refl) as [-> Hn]. by apply before_insert.
  - intros w Hw. pose proof (inv_signalled _ Hi w Hw) as Hb. destruct m as [op|w'|]; [done| |done].
    destruct (Hmark w' eq_refl) as [-> Hn]. by apply before_insert.
  - intros t' [[<- ->]|[_ ?]]%lookup_insert_Some; [done|by apply (inv_flushed _ Hi)].
  - intros t'. destruct (decide (t' = t)) as [->|Hne].
    + rewrite lookup_insert_eq. simpl. intros [Hu (op & ->)]%Hcu. by apply (inv_unmarked _ Hi).
    + rewrite lookup_insert_ne by done. intros Hu. pose proof (inv_unmarked _ Hi _ Hu).
      destruct m as [op|w'|]; [done| |done]. destruct (Hmark w' eq_refl) as [-> Hn]. by rewrite lookup_insert_ne.
Qed.

Lemma inv_spawn s : inv s → running s = false → inv (spawn s).
Proof.
  intros Hi Hr. pose proof (inv_idle _ Hi Hr) as Hch. pose proof Hi as [].
  assert (drain_ops (drain s) = []) as Hd by (unfold running in Hr; destruct (drain s) as [[]|]; done).
  rewrite Hch, Hd in *. split; simpl.
  - done.
  - lia.
  - done.
  - done.
  - by intros w ?%elem_of_nil.
  - done.
  - done.
  - done.
Qed.

Lemma try_send_ok t g m s s' :
  try_send t g m s = SendOk s' →
  connected g s = true ∧ (length (channel s) < WBQ_CHANNEL_CAPACITY)%nat ∧ s' = record_sent t m s.
Proof.
  unfold try_send. destruct (connected g s); [simpl|done]. case_if; [|done]. intros [= <-].
  apply Nat.ltb_lt in Heqb. done.
Qed.

Lemma caller_step_inv t x c s s' : inv s → callers s !! t = Some c → caller_step t x c s = Some s' → inv s'.
Proof.
  intros Hi Hc. assert (from_option unmarked true (callers s !! t) = unmarked c) as Hun by by rewrite Hc.
  assert (∀ c', c' ≠ Flushed true → (unmarked c' = true → unmarked c = true) → inv (set_caller t c' s)) as Hset.
  { intros c' H1 H2. apply inv_set_caller; [done|done|]. by rewrite Hun. }
  assert (∀ g m s0 c', try_send t g m s = SendOk s0 → (∀ w, m = MFlush w → w = t ∧ unmarked c = true) →
    c' ≠ Flushed true → (unmarked c' = true → unmarked c = true ∧ ∃ op, m = MOp op) → inv (set_caller t c' s0)) as Hsend.
  { intros g m s0 c' (Hcon & Hlt & ->)%try_send_ok H1 H2 H3. rewrite <-Hun in H1, H3. by eapply inv_record_sent. }
  destruct c; simpl; try done.
  - destruct (lifecycle s); [done|]. intros [= <-]. destruct (running s) eqn:Hr; [by apply Hset|].
    apply (inv_same (set_caller t (Starting op pressure) (spawn s))); try done.
    apply inv_set_caller; [by apply inv_spawn|done|]. simpl. by rewrite Hun.
  - intros [= <-]. apply (inv_same (set_caller t (CloneSender op pressure) s)); try done. by apply Hset.
  - intros [= <-]. apply Hset; destruct (sender s); try case_if; done.
  - intros [= <-]. destruct (try_send _ _ _ _) as [s0| |] eqn:Hs.
    + eapply Hsend; [done|done|done|]. intros _. split; [done|]. by eexists.
    + apply (inv_same (set_caller t (Retry op generation0 1) s)); try done. by apply Hset.
    + by apply Hset.
  - intros [= <-]. destruct (try_send _ _ _ _) as [s0| |] eqn:Hs.
    + eapply Hsend; [done|done|done|]. intros _. split; [done|]. by eexists.
    + apply Hset; by destruct (expired x).
    + by apply Hset.
  - intros [= <-]. eapply (inv_same (set_caller t (Note _) s)); try done. by apply Hset.
  - intros [= <-]. apply (inv_same (set_caller t (Returned Enqueued) s)); try done. by apply Hset.
  - intros [= <-]. apply Hset; by destruct (sender s).
  - destruct (try_send _ _ _ _) as [s0| |] eqn:Hs; [|done|]; intros [= <-].
    + eapply Hsend; [done|by intros w [= ->]|done|done].
    + by apply Hset.
  - case_bool_decide as Hin; [intros [= <-]; by apply inv_set_caller|]. case_if; [|done]. intros [= <-]. by apply Hset.
  - destruct (lifecycle s); [done|]. intros [= <-].
    eapply (inv_same (set_caller t (match sender s with None => _ | Some g => _ end) s)); try done.
    apply Hset; by destruct (sender s).
  - destruct (try_send _ _ _ _) as [s0| |] eqn:Hs; [|done|]; intros [= <-].
    + eapply Hsend; [done|by intros w [= ->]|done|done].
    + by apply Hset.
  - case_if; [|done]. intros [= <-]. by apply Hset.
  - destruct (try_send _ _ _ _) as [s0| |] eqn:Hs; [|done|]; intros [= <-].
    + by eapply Hsend.
    + by apply Hset.
  - intros [= <-]. apply (inv_same (set_caller t ShutdownJoin s)); try done. by apply Hset.
  - destruct (running s) eqn:Hr; [done|]. intros [= <-].
    apply (inv_same (set_caller t Stopped (set_drain None s))); try done.
    apply inv_set_caller; [|done|done]. pose proof (inv_idle _ Hi Hr) as Hch. pose proof Hi as [].
    assert (drain_ops (drain s) = []) as Hd by (unfold running in Hr; destruct (drain s) as [[]|]; done).
    rewrite Hd in *. split; simpl; try done. by intros w ?%elem_of_nil.
Qed.

(** ** Steps of the drain thread *)

(** The position up to which the drain thread has taken operations. *)
Definition taken s : nat := length (settled s) + length (drain_ops (drain s)).

Lemma inv_drain s s' :
  inv s → sent s' = sent s → marks s' = marks s → callers s' = callers s →
  (settled s').*1 ++ drain_ops (drain s') ++ chan_ops (channel s') =
    (settled s).*1 ++ drain_ops (drain s) ++ chan_ops (channel s) →
  (length (channel s') ≤ length (channel s))%nat → (running s' = false → channel s' = []) →
  flushes_ok (marks s) (taken s') (channel s') →
  (∀ w, w ∈ waiters (drain s') → before (marks s) w (taken s')) →
  (∀ w, w ∈ signalled s' → before (marks s) w (length (settled s'))) →
  (∀ w, w ∈ signalled s → w ∈ signalled s') → inv s'.
Proof.
  intros Hi Hs Hm Hc Ho Hl Hr Hf Hw Hsg Hsub. split; rewrite ?Hs, ?Hm, ?Hc; try done.
  - by rewrite Ho, <-(inv_order _ Hi).
  - pose proof (inv_capacity _ Hi). lia.
  - intros t Ht. by apply Hsub, (inv_flushed _ Hi).
  - apply (inv_unmarked _ Hi).
Qed.

(** Taking one message from the channel. *)
Lemma inv_receive s m ch batch ws sd :
  inv s → channel s = m :: ch → drain_ops (drain s) = batch → waiters (drain s) = ws →
  inv (set_drain (Some (receive m batch ws sd)) (set_channel ch s)).
Proof.
  intros Hi Hch Hb Hw. pose proof (inv_flushes _ Hi) as Hf. pose proof (inv_waiters _ Hi) as Hwt.
  rewrite Hch in Hf. rewrite Hb in Hf, Hwt. rewrite Hw in Hwt.
  apply (inv_drain s); try done; simpl.
  - rewrite Hch, Hb. destruct m as [op|w|]; simpl; [by rewrite <-!app_assoc|done|done].
  - rewrite Hch. simpl. lia.
  - unfold running. simpl. by destruct m.
  - unfold taken. simpl. destruct m as [op|w|]; simpl in *; [|by destruct Hf|done].
    rewrite length_app. simpl. by rewrite Nat.add_1_r, Nat.add_succ_r.
  - unfold taken. simpl. intros w Hin. destruct m as [op|w'|]; simpl in *.
    + eapply before_le; [|by apply Hwt]. rewrite length_app. lia.
    + apply elem_of_app in Hin as [Hin| ->%list_elem_of_singleton]; [by apply Hwt|].
      eexists. split; [by destruct Hf|lia].
    + by apply Hwt.
  - apply (inv_signalled _ Hi).
Qed.

Lemma lost_ops_fst ch : (lost_ops ch).*1 = chan_ops ch.
Proof. induction ch as [|[op|w|] ch IH]; simpl; [done|by f_equal|done|done]. Qed.

(** A new phase with the same operations and waiters. *)
Lemma inv_phase s s' :
  inv s → sent s' = sent s → marks s' = marks s → callers s' = callers s → settled s' = settled s →
  signalled s' = signalled s → channel s' = channel s → running s' = true →
  drain_ops (drain s') = drain_ops (drain s) → (∀ w, w ∈ waiters (drain s') → w ∈ waiters (drain s)) → inv s'.
Proof.
  intros Hi Hs Hm Hc Hst Hsg Hch Hr Hd Hw. apply (inv_drain s); try done; unfold taken; rewrite ?Hst, ?Hsg, ?Hch, ?Hd.
  - done.
  - lia.
  - by rewrite Hr.
  - apply (inv_flushes _ Hi).
  - intros w ?%Hw. by apply (inv_waiters _ Hi).
  - apply (inv_signalled _ Hi).
  - done.
Qed.

Lemma drain_step_inv x s s' : inv s → drain_step x s = Some s' → inv s'.
Proof.
  intros Hi. unfold drain_step. destruct (drain s) as [d|] eqn:Hd; [simpl|done].
  pose proof (inv_flushes _ Hi) as Hf. pose proof (inv_waiters _ Hi) as Hw. pose proof (inv_signalled _ Hi) as Hsg.
  rewrite Hd in Hf, Hw. destruct d; simpl in *.
  - destruct (channel s) as [|m ch] eqn:Hch.
    + case_if; intros [= <-]; [|done]. apply (inv_phase s); try done; by rewrite Hd.
    + intros [= <-]. apply inv_receive; rewrite ?Hd; done.
  - assert (∀ depth, inv (set_drain (Some (Subtracted batch waiters0 shutting_down depth)) (set_op_depth depth s))) as Hsub.
    { intros depth. apply (inv_phase s); try done; by rewrite Hd. }
    destruct (channel s) as [|m ch] eqn:Hch; [intros [= <-]; apply Hsub|].
    case_if; intros [= <-]; [|apply Hsub]. apply inv_receive; rewrite ?Hd; done.
  - intros [= <-]. apply (inv_phase s); try done; by rewrite Hd.
  - destruct batch as [|op batch]; intros [= <-].
    + apply (inv_phase s); try done; by rewrite Hd.
    + apply (inv_drain s); try done; unfold taken; simpl; rewrite ?Hd, ?fmap_app, ?length_app; simpl.
      * by rewrite <-app_assoc.
      * by replace (length (settled s) + 1 + length batch)%nat with (length (settled s) + S (length batch))%nat by lia.
      * intros w ?%Hw. eapply before_le; [|done]. simpl. lia.
      * intros w ?%Hsg. eapply before_le; [|done]. lia.
  - intros [= <-]. apply (inv_drain s); try done; unfold taken; simpl; rewrite ?Hd; simpl.
    + by destruct shutting_down.
    + by destruct shutting_down.
    + by destruct shutting_down.
    + destruct shutting_down; by intros w ?%elem_of_nil.
    + intros w [?|Hin]%elem_of_app; [by apply Hsg|]. apply Hw in Hin. by rewrite Nat.add_0_r in Hin.
    + intros w ?. apply elem_of_app. by left.
  - destruct (channel s) as [|[op|w|] ch] eqn:Hch; intros [= <-].
    + apply (inv_phase s); try done; by rewrite Hd.
    + apply (inv_drain s); try done; unfold taken; simpl; rewrite ?Hd, ?Hch; simpl; try done.
      * lia.
      * simpl in Hf. by rewrite Nat.add_1_r, Nat.add_0_r in *.
      * by intros w ?%elem_of_nil.
    + destruct Hf as [Hm Hf]. apply (inv_drain s); try done; unfold taken; simpl; rewrite ?Hd, ?Hch; simpl; try done.
      * lia.
      * unfold running. simpl. by rewrite Hd.
      * intros w' [?| ->%list_elem_of_singleton]%elem_of_app; [by apply Hsg|]. eexists. split; [done|lia].
      * intros w' ?. apply elem_of_app. by left.
    + apply (inv_drain s); try done; unfold taken; simpl; rewrite ?Hd, ?Hch; simpl; try done.
      * lia.
      * unfold running. simpl. by rewrite Hd.
  - intros [= <-]. apply (inv_drain s); try done; unfold taken; simpl; rewrite ?Hd, ?fmap_app, ?length_app; simpl.
    + by rewrite <-app_assoc.
    + by rewrite Nat.add_0_r.
    + by intros w' ?%elem_of_nil.
    + intros w ?%Hsg. eapply before_le; [|done]. lia.
  - intros [= <-]. apply (inv_drain s); try done; unfold taken; simpl; rewrite ?Hd, ?fmap_app, ?lost_ops_fst, ?length_app; simpl; try done.
    + by rewrite app_nil_r.
    + lia.
    + by intros w' ?%elem_of_nil.
    + intros w ?%Hsg. eapply before_le; [|done]. lia.
  - done.
Qed.

Lemma label_inv l s s' : inv s → run_label l s = Some s' → inv s'.
Proof.
  intros Hi. destruct l as [t c|t x|x]; simpl.
  - destruct (callers s !! t) as [|] eqn:Ht; [done|]. intros [= <-]. apply inv_set_caller; [done|by destruct c|].
    intros _. by rewrite Ht.
  - destruct (callers s !! t) as [c|] eqn:Ht; [simpl|done]. by apply caller_step_inv.
  - by apply drain_step_inv.
Qed.

Lemma queue_reachable_inv s : reachable s → inv s.
Proof.
  intros Hs. assert (inv (@new_write_behind_queue Op)) as H0.
  { split; simpl; try done; [lia|by intros w ?%elem_of_nil|by intros w ?%elem_of_nil]. }
  revert H0. induction Hs as [|a b c [l Hl] _ IH]; [done|]. intros Hi. apply IH. by eapply label_inv.
Qed.

(** ** The depth counter *)

Definition counting (c : @Caller Op) : Z := match c with Count => 1 | _ => 0 end.

(** Operations taken from the channel and not yet subtracted. *)
Definition collected (d : option (@Drain Op)) : Z :=
  match d with Some (Collect b _ _) => Z.of_nat (length b) | _ => 0 end.

Definition waiting_ops s : Z := Z.of_nat (length (chan_ops (channel s))) + collected (drain s).

Record depth_inv s : Prop := {
  depth_pos : 0 ≤ op_depth s;
  depth_low : waiting_ops s ≤ op_depth s + msum counting (callers s);
  depth_high : op_depth s + msum counting (callers s) ≤ Z.of_nat (length (sent s));
}.

Lemma counting_nonneg s : map_Forall (λ _ c, 0 ≤ counting c) (callers s).
Proof. intros t c _. by destruct c. Qed.

(** A caller that is not counted before and after. *)
Lemma depth_set_caller s s' t c c' :
  callers s !! t = Some c → callers s' = <[t := c']> (callers s) →
  waiting_ops s' - op_depth s' - counting c' ≤ waiting_ops s - op_depth s - counting c →
  op_depth s' + counting c' - Z.of_nat (length (sent s')) ≤ op_depth s + counting c - Z.of_nat (length (sent s)) →
  0 ≤ op_depth s' → depth_inv s → depth_inv s'.
Proof.
  intros Hc Hc' Hlow Hhigh Hpos []. split; [done| |]; rewrite Hc', (msum_insert _ _ _ _ _ Hc); lia.
Qed.

Lemma waiting_spawn s : inv s → running s = false → waiting_ops (spawn s) = 0 ∧ waiting_ops s = 0.
Proof.
  intros Hi Hr. unfold waiting_ops. rewrite (inv_idle _ Hi Hr). unfold running in Hr. simpl.
  split; [done|]. destruct (drain s) as [[]|]; done.
Qed.

Lemma caller_step_depth t x c s s' :
  inv s → callers s !! t = Some c → Z.of_nat (length (sent s')) ≤ u64_max → caller_step t x c s = Some s' →
  depth_inv s → depth_inv s'.
Proof.
  intros Hi Hc Hb. pose proof (counting_nonneg s) as Hnn. pose proof (msum_le _ _ _ _ Hnn Hc) as Hge. pose proof (msum_nonneg _ _ Hnn) as Hsum.
  assert (∀ g m s0 c' s1, try_send t g m s = SendOk s0 → counting c = 0 → s1 = set_caller t c' s0 →
    counting c' = match m with MOp _ => 1 | _ => 0 end → depth_inv s → depth_inv s1) as Hsend.
  { intros g m s0 c' s1 (_ & _ & ->)%try_send_ok H0 -> Hc' Hd. pose proof (depth_pos _ Hd).
    eapply depth_set_caller; [done|done| | |done|done]; rewrite Hc', H0; unfold waiting_ops; simpl;
      rewrite ?chan_ops_app, ?length_app; destruct m; simpl; rewrite ?length_app; simpl; lia. }
  assert (∀ c' s1, callers s1 = <[t := c']> (callers s) → waiting_ops s1 = waiting_ops s → op_depth s1 = op_depth s →
    sent s1 = sent s → counting c = 0 → counting c' = 0 → depth_inv s → depth_inv s1) as Hset.
  { intros c' s1 H1 H2 H3 H4 H5 H6 Hd. pose proof (depth_pos _ Hd).
    eapply depth_set_caller; [done|done|rewrite H2, H3, H5, H6; lia|rewrite H3, H4, H5, H6; lia|by rewrite H3|done]. }
  destruct c; simpl in *; try done.
  - destruct (lifecycle s); [done|]. intros [= <-]. destruct (running s) eqn:Hr; [by eapply Hset|].
    destruct (waiting_spawn s Hi Hr) as [H1 H2]. eapply Hset; try done.
  - intros [= <-]. by eapply Hset.
  - intros [= <-]. eapply Hset; try done. destruct (sender s); [by case_if|done].
  - intros [= <-]. destruct (try_send _ _ _ _) as [s0| |] eqn:Hs; [by eapply Hsend|by eapply Hset..].
  - intros [= <-]. destruct (try_send _ _ _ _) as [s0| |] eqn:Hs; [by eapply Hsend| |by eapply Hset].
    eapply Hset; try done. by destruct (expired x).
  - intros [= <-] Hd. simpl in *. pose proof (depth_pos _ Hd). pose proof (depth_high _ Hd).
    assert (u64_wrap (op_depth s + 1) = op_depth s + 1) as Hw by (apply u64_wrap_small; lia).
    eapply depth_set_caller; [done|done| | | |done]; unfold waiting_ops; simpl; rewrite Hw; lia.
  - intros [= <-]. by eapply Hset.
  - intros [= <-]. eapply Hset; try done. by destruct (sender s).
  - destruct (try_send _ _ _ _) as [s0| |] eqn:Hs; [|done|]; intros [= <-]; [by eapply Hsend|by eapply Hset].
  - case_bool_decide; [intros [= <-]; by eapply Hset|]. case_if; [|done]. intros [= <-]. by eapply Hset.
  - destruct (lifecycle s); [done|]. intros [= <-]. eapply Hset; try done. by destruct (sender s).
  - destruct (try_send _ _ _ _) as [s0| |] eqn:Hs; [|done|]; intros [= <-]; [by eapply Hsend|by eapply Hset].
  - case_if; [|done]. intros [= <-]. by eapply Hset.
  - destruct (try_send _ _ _ _) as [s0| |] eqn:Hs; [|done|]; intros [= <-]; [by eapply Hsend|by eapply Hset].
  - intros [= <-]. by eapply Hset.
  - destruct (running s) eqn:Hr; [done|]. intros [= <-]. eapply Hset; try done.
    destruct (waiting_spawn s Hi Hr) as [_ H2]. rewrite H2. unfold waiting_ops. simpl. by rewrite (inv_idle _ Hi Hr).
Qed.

Ltac count_ops Hd Hch :=
  simpl in *; rewrite ?Hd, ?Hch; simpl in *; rewrite ?length_app; simpl in *; split_and!; try done; lia.

Lemma drain_step_depth x s s' : drain_step x s = Some s' → depth_inv s → depth_inv s'.
Proof.
  intros Hs Hd. pose proof (counting_nonneg s) as Hnn. pose proof (msum_nonneg _ _ Hnn) as Hsum. destruct Hd as [Hp Hl Hh].
  assert (callers s' = callers s ∧ sent s' = sent s ∧ 0 ≤ op_depth s' ≤ op_depth s ∧
    waiting_ops s' - op_depth s' ≤ Z.max (waiting_ops s - op_depth s) 0) as (Hc & Hse & Ho & Hw).
  { revert Hs. unfold drain_step. destruct (drain s) as [d|] eqn:Hd; [simpl|done]. unfold waiting_ops in *. rewrite Hd in *.
    assert (∀ o n : Z, 0 ≤ o → 0 ≤ n → 0 ≤ u64_saturating_sub o n ≤ o) as Hsub by (unfold u64_saturating_sub; lia).
    unfold u64_saturating_sub in *.
    destruct d; simpl in *.
    - destruct (channel s) as [|m ch] eqn:Hch; [case_if|]; intros [= <-]; [|by count_ops Hd Hch|destruct m; by count_ops Hd Hch].
      by count_ops Hd Hch.
    - destruct (channel s) as [|m ch] eqn:Hch; [intros [= <-]; by count_ops Hd Hch|].
      case_if; intros [= <-]; [|by count_ops Hd Hch]. destruct m; by count_ops Hd Hch.
    - intros [= <-]. by count_ops Hd Hd.
    - destruct batch; intros [= <-]; by count_ops Hd Hd.
    - intros [= <-]. destruct shutting_down; by count_ops Hd Hd.
    - destruct (channel s) as [|m ch] eqn:Hch; [intros [= <-]; by count_ops Hd Hch|].
      destruct m; intros [= <-]; by count_ops Hd Hch.
    - intros [= <-]. by count_ops Hd Hd.
    - intros [= <-]. by count_ops Hd Hd.
    - done. }
  split; rewrite ?Hc, ?Hse; lia.
Qed.

Lemma sent_grows l s s' : run_label l s = Some s' → ∃ os, sent s' = sent s ++ os.
Proof.
  assert (∀ s0 s1, s0 = s1 → ∃ os, sent s1 = sent s0 ++ os) as Hrefl by (intros s0 ? <-; exists []; by rewrite app_nil_r).
  assert (∀ s0, sent s0 = sent s → ∃ os, sent s0 = sent s ++ os) as Hsame by (intros s0 ->; exists []; by rewrite app_nil_r).
  assert (∀ t g m s0, try_send t g m s = SendOk s0 → ∃ os, sent s0 = sent s ++ os) as Hsend.
  { intros t g m s0 (_ & _ & ->)%try_send_ok. destruct m; simpl; [by eexists|by apply Hsame..]. }
  destruct l as [t c|t x|x]; simpl.
  - destruct (callers s !! t); [done|]. intros [= <-]. by apply Hsame.
  - destruct (callers s !! t) as [c|]; [simpl|done].
    destruct c; simpl; repeat (case_match; try done); intros [= <-]; try (by apply Hsame);
      match goal with H : try_send _ _ _ _ = SendOk _ |- _ => by eapply Hsend in H end.
  - unfold drain_step. destruct (drain s) as [d|]; [simpl|done].
    destruct d; repeat (case_match; try done); intros [= <-]; by apply Hsame.
Qed.

(** ** The properties *)

(** Operations keep their order and none is duplicated or dropped.  In
    every reachable state the operations sent are, in this order, those that
    are settled (executed, skipped while the disk is nearly full, or lost
    with a closing channel), those of the batch in work and those in the
    channel; the channel is within its capacity, and it is empty when no
    drain thread runs. *)
Theorem queue_keeps_order s :
  reachable s →
  sent s = (settled s).*1 ++ drain_ops (drain s) ++ chan_ops (channel s) ∧
  (length (channel s) ≤ 8192)%nat ∧ (running s = false → channel s = []).
Proof. intros Hi%queue_reachable_inv. split_and!; [apply Hi|apply (inv_capacity _ Hi)|apply Hi]. Qed.

(** C35: A flush that is answered means what it says: every operation sent
    before the flush entered the channel is settled. *)
Theorem flush_settles s t :
  reachable s → callers s !! t = Some (Flushed true) →
  ∃ n, marks s !! t = Some n ∧ (n ≤ length (settled s))%nat ∧ take n (sent s) = take n (settled s).*1.
Proof.
  intros Hi%queue_reachable_inv Ht. destruct (inv_signalled _ Hi t (inv_flushed _ Hi _ Ht)) as (n & Hn & Hle).
  exists n. split_and!; [done|done|]. rewrite (inv_order _ Hi), take_app_le; [done|]. by rewrite length_fmap.
Qed.

(** The depth never reports too little.  As long as fewer than 2^64
    operations were sent, the counter together with the callers that have
    sent and not yet counted covers every operation in the channel and in a
    batch not yet subtracted, and it is at most the number ever sent. *)
Theorem depth_covers_queue s :
  reachable s → Z.of_nat (length (sent s)) ≤ u64_max →
  0 ≤ op_depth s ∧ waiting_ops s ≤ op_depth s + msum counting (callers s) ≤ Z.of_nat (length (sent s)).
Proof.
  intros Hs Hb. assert (depth_inv s) as []; [|lia].
  assert (∀ a b : @Sys Op, rtc step a b → ∃ os, sent b = sent a ++ os) as Hgrow.
  { induction 1 as [a|a b c [l Hl] _ [os IH]]; [exists []; by rewrite app_nil_r|].
    destruct (sent_grows _ _ _ Hl) as [os' Ho]. exists (os' ++ os). by rewrite IH, Ho, app_assoc. }
  assert (∀ a : @Sys Op, rtc step a s → inv a → depth_inv a → depth_inv s) as Hall.
  { clear Hs. induction 1 as [|a b c [l Hl] Hbc IH]; [done|]. intros Hi Hd.
    apply IH; [done|by eapply label_inv|]. destruct (Hgrow _ _ Hbc) as [os Ho].
    assert (Z.of_nat (length (sent b)) ≤ u64_max) as Hbb by (rewrite Ho, length_app in Hb; lia).
    destruct l as [t cl|t x|x]; simpl in Hl.
    - destruct (callers a !! t) eqn:Ht; [done|]. injection Hl as <-. destruct Hd as [H1 H2 H3].
      assert (counting (first cl) = 0) as H0 by by destruct cl.
      split; simpl in *; rewrite ?(msum_insert_new _ _ _ _ Ht), ?H0; done.
    - destruct (callers a !! t) as [cl|] eqn:Ht; [simpl in Hl|done]. by eapply caller_step_depth.
    - by eapply drain_step_depth. }
  apply (Hall _ Hs).
  - apply queue_reachable_inv, rtc_refl.
  - split; unfold waiting_ops; simpl; autorewrite with mail; lia.
Qed.

(** ** Loss *)

(** The thread is in [wbq_shutdown] or has returned from it. *)
Definition stopping (c : @Caller Op) : bool :=
  match c with
  | ShutdownStart | ShutdownFlush _ | ShutdownWait _ | ShutdownSend _ | ShutdownSender | ShutdownJoin | Stopped => true
  | _ => false
  end.

Definition never_stopped s : Prop := map_Forall (λ _ c, stopping c = false) (callers s).

(** The drain thread ends with this round or has ended. *)
Definition ending (d : option (@Drain Op)) : bool :=
  match d with
  | Some (Collect _ _ sd) | Some (Subtracted _ _ sd _) | Some (Exec _ _ _ _ sd) | Some (Signal _ sd) => sd
  | Some Final | Some (FinalOp _ _) | Some Closing | Some Finished => true
  | _ => false
  end.

Record serving s : Prop := {
  serving_drain : ending (drain s) = false;
  serving_channel : MShutdown ∉ channel s;
  serving_sender : running s = true → sender s = Some (generation s) ∨ ∃ t op p, callers s !! t = Some (Starting op p);
  serving_settled op : (op, Lost) ∉ settled s;
}.

Lemma caller_stays_stopping t x c s s' :
  callers s !! t = Some c → caller_step t x c s = Some s' →
  (∀ t' c', t' ≠ t → callers s !! t' = Some c' → callers s' !! t' = Some c') ∧
  ∃ c', callers s' !! t = Some c' ∧ (stopping c = true → stopping c' = true).
Proof.
  intros Hc Hs.
  assert (∃ c' s0, s' = set_caller t c' s0 ∧ callers s0 = callers s ∧ (stopping c = true → stopping c' = true)) as (c' & s0 & -> & H0 & Hst).
  { assert (∀ g m s0, try_send t g m s = SendOk s0 → callers s0 = callers s) as Hsend by by intros g m s0 (_ & _ & ->)%try_send_ok.
    destruct c; simpl in Hs; repeat (case_match; try done);
      simplify_eq; do 2 eexists; (split; [reflexivity|]); (split; [by eauto|]); simpl; try done; by case_match. }
  split.
  - intros t' c1 Hne H1. simpl. by rewrite lookup_insert_ne, H0.
  - exists c'. split; [simpl; apply lookup_insert_eq|done].
Qed.

Lemma never_stopped_before l s s' : run_label l s = Some s' → never_stopped s' → never_stopped s.
Proof.
  intros Hl Hn t c Hc. destruct l as [t' c'|t' x|x]; simpl in Hl.
  - destruct (callers s !! t') eqn:Ht'; [done|]. injection Hl as <-. apply (Hn t). simpl.
    rewrite lookup_insert_ne; [done|congruence].
  - destruct (callers s !! t') as [c'|] eqn:Ht'; [simpl in Hl|done].
    destruct (caller_stays_stopping _ _ _ _ _ Ht' Hl) as [Hother (c1 & Hc1 & Hst)].
    destruct (decide (t = t')) as [->|Hne]; [|apply (Hn t); by apply Hother].
    assert (c' = c) as -> by congruence. pose proof (Hn _ _ Hc1) as Hc1'. simpl in Hc1'.
    destruct (stopping c); [|done]. by rewrite Hst in Hc1'.
  - assert (callers s' = callers s) as Heq.
    { revert Hl. unfold drain_step. destruct (drain s) as [d|]; [simpl|done].
      destruct d; repeat (case_match; try done); by intros [= <-]. }
    apply (Hn t). by rewrite Heq.
Qed.

Lemma abandoned_false s : running s = true → serving s → abandoned s = false.
Proof.
  intros Hr Hs. unfold abandoned. destruct (serving_sender _ Hs Hr) as [He|(t & op & p & Ht)].
  - by rewrite bool_decide_false by (intros H; by apply H).
  - apply andb_false_iff. right. destruct (forallb _ _) eqn:Hf; [|done]. rewrite forallb_forall in Hf.
    specialize (Hf (t, Starting op p)). simpl in Hf. discriminate Hf. apply list_elem_of_In. by apply elem_of_map_to_list.
Qed.

Lemma caller_step_serving t x c s s' :
  never_stopped s → callers s !! t = Some c → caller_step t x c s = Some s' → serving s → serving s'.
Proof.
  intros Hn Hc Hs Hv. pose proof (Hn _ _ Hc) as Hst.
  assert (∀ c' s1, callers s1 = <[t := c']> (callers s) → (∀ op p, c ≠ Starting op p) → drain s1 = drain s →
    channel s1 = channel s → sender s1 = sender s → generation s1 = generation s → settled s1 = settled s → serving s1) as Hset.
  { intros c' s1 H1 H2 H3 H4 H5 H6 H7. destruct Hv as [V1 V2 V3 V4]. unfold running in V3.
    split; unfold running; rewrite ?H3, ?H4, ?H5, ?H6, ?H7; try done.
    intros [?|(t' & op & p & Ht')]%V3; [by left|right]. exists t', op, p. rewrite H1, lookup_insert_ne; [done|].
    intros <-. rewrite Hc in Ht'. injection Ht' as ->. by destruct (H2 op p). }
  assert (∀ g m s0 c', try_send t g m s = SendOk s0 → m ≠ MShutdown → (∀ op p, c ≠ Starting op p) →
    serving (set_caller t c' s0)) as Hsend.
  { intros g m s0 c' (_ & _ & ->)%try_send_ok Hm H2. destruct (Hset c' (set_caller t c' s)) as [V1 V2 V3 V4]; try done.
    split; simpl in *; try done. intros [?|Hin%list_elem_of_singleton]%elem_of_app; [done|]. by destruct Hm. }
  destruct c; simpl in *; try done.
  - destruct (lifecycle s); [done|]. injection Hs as <-. destruct (running s) eqn:Hr; [by eapply Hset|].
    destruct Hv as [V1 V2 V3 V4]. split; simpl; try done; [by apply not_elem_of_nil|].
    intros _. right. exists t, op, pressure. apply lookup_insert_eq.
  - injection Hs as <-. destruct Hv as [V1 V2 V3 V4]. split; simpl; try done. intros _. by left.
  - injection Hs as <-. by eapply Hset.
  - destruct (try_send _ _ _ _) as [s0| |] eqn:Ht; injection Hs as <-; [by eapply Hsend|by eapply Hset..].
  - destruct (try_send _ _ _ _) as [s0| |] eqn:Ht; injection Hs as <-; [by eapply Hsend|by eapply Hset..].
  - injection Hs as <-. by eapply Hset.
  - injection Hs as <-. by eapply Hset.
  - injection Hs as <-. by eapply Hset.
  - destruct (try_send _ _ _ _) as [s0| |] eqn:Ht; [|done|]; injection Hs as <-; [by eapply Hsend|by eapply Hset].
  - case_bool_decide; [injection Hs as <-; by eapply Hset|]. destruct (_ || _); [|done]. injection Hs as <-. by eapply Hset.
Qed.

Lemma receive_ending m batch ws sd : m ≠ MShutdown → ending (Some (@receive Op m batch ws sd)) = sd.
Proof. by destruct m. Qed.

Lemma drain_step_serving x s s' : drain_step x s = Some s' → serving s → serving s'.
Proof.
  intros Hs Hv. pose proof Hv as [V1 V2 V3 V4]. unfold drain_step in Hs. destruct (drain s) as [d|] eqn:Hd; [simpl in Hs|done].
  assert (∀ os : list (Op * Fate), (∀ op f, (op, f) ∈ os → f ≠ Lost) → ∀ op, (op, Lost) ∉ settled s ++ os) as Hos.
  { intros os Hos op [?|Hin]%elem_of_app; [by eapply V4|by apply Hos in Hin]. }
  assert (∀ (op0 op : Op) f, (op, f) ∈ [(op0, execute x)] → f ≠ Lost) as Hexec.
  { intros op0 op f [= -> ->]%list_elem_of_singleton. unfold execute. by destruct (disk_critical _). }
  unfold running in V3. rewrite Hd in V3. destruct d; simpl in *; try done.
  - destruct (channel s) as [|m ch] eqn:Hch.
    + rewrite abandoned_false, andb_false_r in Hs; [by injection Hs as <-|unfold running; by rewrite Hd|done].
    + apply not_elem_of_cons in V2 as [Hm V2]. injection Hs as <-. split; simpl; try done; [by apply receive_ending|].
      intros _. by apply V3.
  - destruct (channel s) as [|m ch] eqn:Hch; [injection Hs as <-; split; simpl; rewrite ?Hch; done|].
    destruct (length batch <? _)%nat; injection Hs as <-; split; simpl; rewrite ?Hch; try done;
      apply not_elem_of_cons in V2 as [Hm V2]; [by destruct m|done|by intros _; apply V3].
  - injection Hs as <-. by split.
  - destruct batch as [|op batch]; injection Hs as <-; split; simpl; try done. apply Hos, Hexec.
  - injection Hs as <-. rewrite V1. by split.
Qed.

(** Without a shutdown nothing is lost.  In a reachable state in which no
    thread has called [wbq_shutdown] no operation is lost, so every settled
    one was executed or skipped. *)
Theorem lost_only_in_shutdown s op :
  reachable s → never_stopped s → (op, Lost) ∉ settled s.
Proof.
  intros Hs Hn. assert (serving s) as []; [|done].
  assert (serving (@new_write_behind_queue Op)) as H0.
  { split; simpl; try done; [apply not_elem_of_nil|intros ?; apply not_elem_of_nil]. }
  assert (∀ a b : @Sys Op, rtc step a b → never_stopped b → never_stopped a) as Hback.
  { induction 1 as [|a b c [l Hl] _ IH]; [done|]. intros Hc. by eapply never_stopped_before, IH. }
  assert (∀ a : @Sys Op, rtc step a s → serving a → serving s) as Hall; [|by apply (Hall _ Hs)].
  induction 1 as [|a b c [l Hl] Hbc IH]; [done|]. intros Ha. apply IH; [done|done|].
  assert (never_stopped a) as Hna by (eapply never_stopped_before; [done|by eapply Hback]).
  destruct l as [t cl|t x|x]; simpl in Hl.
  - destruct (callers a !! t) eqn:Ht; [done|]. injection Hl as <-. destruct Ha as [V1 V2 V3 V4]. split; simpl; try done.
    intros [?|(t' & o & p & Ht')]%V3; [by left|right]. exists t', o, p. rewrite lookup_insert_ne; [done|congruence].
  - destruct (callers a !! t) as [cl|] eqn:Ht; [simpl in Hl|done]. by eapply caller_step_serving.
  - by eapply drain_step_serving.
Qed.
End facts.

(** ** The theorems at work *)

Module QueueRuns.

Definition calm : World :=
  {| expired := false; now := 5; disk_pressure_level := 0; attempt := λ _, None; disconnected := false |}.
Definition go (n t : nat) : list (@Label nat) := replicate n (LCaller t calm).
Definition work (n : nat) : list (@Label nat) := replicate n (LDrain calm).

Fixpoint runs (ls : list (@Label nat)) (s : @Sys nat) : option Sys :=
  match ls with [] => Some s | l :: ls => run_label l s ≫= runs ls end.

Definition after (ls : list Label) : Sys := default new_write_behind_queue (runs ls new_write_behind_queue).

Lemma queue_runs_rtc ls s s' : runs ls s = Some s' → rtc step s s'.
Proof.
  revert s. induction ls as [|l ls IH]; intros s; simpl; [intros [= ->]; done|].
  destruct (run_label l s) as [a|] eqn:Hl; [simpl|done]. intros Ha. eapply rtc_l; [by exists l|by apply IH].
Qed.

Lemma queue_after_reachable ls : is_Some (runs ls new_write_behind_queue) → reachable (after ls).
Proof. intros [s Hs]. unfold after. rewrite Hs. by eapply queue_runs_rtc. Qed.

(** Operation 7 starts the queue and is sent, but the caller has not counted
    it; the drain thread is through with it; the caller counts. *)
Definition late_count : list Label := LCall 1 (CallEnqueue 7%nat 0) :: go 4 1 ++ work 6 ++ go 2 1.

(** Operation 7 and a flush, answered. *)
Definition flushed : list Label :=
  LCall 1 (CallEnqueue 7%nat 0) :: go 6 1 ++ LCall 2 CallFlush :: go 2 2 ++ work 7 ++ go 1 2.

(** A caller has its sender when the queue is shut down; it sends after the
    drain thread has looked at the channel for the last time. *)
Definition late_send : list Label :=
  LCall 1 (CallEnqueue 7%nat 0) :: go 3 1 ++ LCall 2 CallShutdown :: go 2 2 ++ work 5 ++ go 2 2 ++ work 6 ++
  go 1 1 ++ work 1 ++ go 2 1.

(** The counter can stay too high for good: with nothing in the channel,
    nothing in work and no caller under way it is one. *)
Theorem late_count_sticks :
  ∃ s : @Sys nat, reachable s ∧ channel s = [] ∧ drain s = Some Recv ∧
    map_Forall (λ _ c, c = Returned Enqueued) (callers s) ∧ op_depth s = 1 ∧ wbq_depth (metrics s) = 1.
Proof.
  exists (after late_count). split; [apply queue_after_reachable; vm_compute; by eexists|].
  split_and!; try by vm_compute. apply map_Forall_to_list. vm_compute. by repeat constructor.
Qed.

(** An operation reported as enqueued can be lost in a shutdown. *)
Theorem late_send_is_lost :
  ∃ s : @Sys nat, reachable s ∧ callers s !! 1%nat = Some (Returned Enqueued) ∧ settled s = [(7%nat, Lost)].
Proof.
  exists (after late_send). split; [apply queue_after_reachable; vm_compute; by eexists|]. by split; vm_compute.
Qed.

Example queue_keeps_order_witness : sent (after late_send) = (settled (after late_send)).*1.
Proof.
  destruct (queue_keeps_order (after late_send)) as [Ho _]; [apply queue_after_reachable; vm_compute; by eexists|].
  rewrite Ho. by vm_compute.
Defined.

Example flush_settles_witness : ∃ n, marks (after flushed) !! 2%nat = Some n ∧ (n ≤ length (settled (after flushed)))%nat.
Proof.
  destruct (flush_settles (after flushed) 2) as (n & ? & ? & _); [| |by exists n].
  - apply queue_after_reachable. vm_compute. by eexists.
  - by vm_compute.
Defined.

Example depth_covers_queue_witness : waiting_ops (after late_count) ≤ op_depth (after late_count) + msum counting (callers (after late_count)).
Proof.
  apply (depth_covers_queue (after late_count)).
  - apply queue_after_reachable. vm_compute. by eexists.
  - by vm_compute.
Defined.

Example lost_only_in_shutdown_witness : (7%nat, Lost) ∉ settled (after flushed).
Proof.
  apply lost_only_in_shutdown.
  - apply queue_after_reachable. vm_compute. by eexists.
  - apply map_Forall_to_list. vm_compute. by repeat constructor.
Defined.

End QueueRuns.
