(* ===== verification/CleanupProbes.v ===== *)
(** * Is anybody working on these paths?
      ([mcp-agent-mail-server/src/cleanup.rs], the probes)

    Before the clean-up worker takes an abandoned reservation away, it looks
    for recent changes of the files the pattern covers: modification times of
    the files git lists, or of a walk where git is of no use, and the latest
    commit that touches them.  What was found is kept between cycles.  The
    file system and git are parameters, asked through [Disk]. *)

From stdpp Require Import base numbers tactics list gmap strings.
From S2P Require Import Prelude OverlapDp PatternOverlap.
Open Scope Z_scope.

Module CleanupProbes.

Definition PROBE_CACHE_RETENTION_US : Z := 6 * 60 * 60 * 1000000.
Definition ACTIVITY_PROBE_PATH_LIMIT : Z := 5000.

(** The answers of the file system and of git at one moment.  A path is its
    text.  [modified_us]: microseconds from the epoch, negative before it;
    [walk_dir]: the entries [WalkDir] yields, and whether each is a file;
    [ls_files]: [None] when git does not start, otherwise the lines that could
    be read and whether it ended in success; [rev_parse_head] and [git_log]:
    the output of a successful run. *)
Record Disk := {
  path_exists : str → bool;
  is_dir : str → bool;
  is_file : str → bool;
  modified_us : str → option Z;
  walk_dir : str → list (str * bool);
  ls_files : str → str → option (list str * bool);
  rev_parse_head : str → option str;
  git_log : str → str → option str;
}.

(** ** Paths *)

(** [trim_start_matches('/')]. *)
Fixpoint trim_slashes (s : str) : str :=
  match s with c :: s' => if is_slash c then trim_slashes s' else s | [] => [] end.

Definition normalize_path_pattern_key (path_pattern : str) : str := trim_slashes (trim path_pattern).

(** [Path::join]. *)
Definition join (base p : str) : str :=
  match p with
  | c :: _ => if is_slash c then p
              else match last base with Some l => if is_slash l then base ++ p else base ++ ch_slash :: p | None => p end
  | [] => match last base with Some l => if is_slash l then base else base ++ [ch_slash] | None => [] end
  end.

(** [Path::strip_prefix], for paths found below [base]. *)
Definition strip_base (base p : str) : option str :=
  if starts_with base p then
    let rest := drop (length base) p in
    match rest, last base with
    | [], _ => Some []
    | c :: rest', Some l => if is_slash c then Some rest' else if is_slash l then Some rest else None
    | _, None => Some rest
    end
  else None.

(** [replace('\\', "/")]. *)
Definition forward_slashes (s : str) : str := (λ c, if (c =? ch_backslash)%N then ch_slash else c) <$> s.

Definition has_glob (pattern : str) : bool :=
  (ch_star ∈ᵇ pattern) || (ch_question ∈ᵇ pattern) || (ch_lbracket ∈ᵇ pattern) || (ch_lbrace ∈ᵇ pattern).

Definition glob_pathspec (pattern : str) : str := lit ":(glob)" ++ pattern.

(** ** Files *)

(** A time before the epoch, or beyond 64 bits, counts as the epoch. *)
Definition mtime_us (modified : Z) : Z := if (0 <=? modified) && (modified <=? i64_max) then modified else 0.

Definition within_grace (now_us grace_us t : Z) : bool := i64_saturating_sub now_us t <=? grace_us.

Definition path_modified_within_grace (d : Disk) (path : str) (now_us grace_us : Z) : bool :=
  match modified_us d path with Some t => within_grace now_us grace_us (mtime_us t) | None => false end.

Inductive ActivityProbeResult := Active | Inactive | Truncated | Unsupported.

Section probe.
Context (d : Disk) (now_us grace_us : Z).

(** The loop over the lines of [git ls-files]; [count] lines were read. *)
Fixpoint scan_lines (workspace : str) (lines : list str) (ok : bool) (count : Z) : ActivityProbeResult :=
  match lines with
  | [] => if ok then Inactive else Unsupported
  | line :: lines =>
      if path_modified_within_grace d (join workspace line) now_us grace_us then Active
      else if ACTIVITY_PROBE_PATH_LIMIT <=? count + 1 then Truncated
      else scan_lines workspace lines ok (count + 1)
  end.

Definition check_git_listed_activity (workspace pathspec : str) : ActivityProbeResult :=
  match ls_files d workspace pathspec with
  | None => Unsupported
  | Some (lines, ok) => scan_lines workspace lines ok 0
  end.

(** The loop over a walk; [accept] says which files count. *)
Fixpoint scan_files (accept : str → bool) (path_limit : Z) (entries : list (str * bool)) (scanned : Z) : ActivityProbeResult :=
  match entries with
  | [] => Inactive
  | (path, file) :: entries =>
      if negb file then scan_files accept path_limit entries scanned
      else if negb (accept path) then scan_files accept path_limit entries scanned
      else if path_limit <=? scanned then Truncated
      else if path_modified_within_grace d path now_us grace_us then Active
      else scan_files accept path_limit entries (scanned + 1)
  end.

Definition check_directory_activity_fallback_with_limit (dir : str) (path_limit : Z) : ActivityProbeResult :=
  scan_files (λ _, true) path_limit (walk_dir d dir) 0.

Definition check_directory_activity_fallback (dir : str) : ActivityProbeResult :=
  check_directory_activity_fallback_with_limit dir ACTIVITY_PROBE_PATH_LIMIT.

Section globs.
Context `{Globset}.

(** Does a file found below the workspace match? *)
Definition matches_relative (workspace : str) (compiled : PatternOverlap.CompiledPattern) (path : str) : bool :=
  match strip_base workspace path with
  | Some relative => PatternOverlap.matches compiled (forward_slashes relative)
  | None => false
  end.

Definition scan_root (workspace : str) (compiled : PatternOverlap.CompiledPattern) : str :=
  match PatternOverlap.first_literal_segment compiled with Some segment => join workspace segment | None => workspace end.

Definition check_glob_activity_fallback_with_limit (workspace pattern : str) (path_limit : Z) : ActivityProbeResult :=
  let compiled := PatternOverlap.compile pattern in
  if negb (PatternOverlap.is_matchable compiled) then Unsupported
  else
    let root := scan_root workspace compiled in
    if negb (path_exists d root) then Inactive
    else if is_file d root then scan_files (matches_relative workspace compiled) path_limit [(root, true)] 0
    else scan_files (matches_relative workspace compiled) path_limit (walk_dir d root) 0.

Definition check_glob_activity_fallback (workspace pattern : str) : ActivityProbeResult :=
  check_glob_activity_fallback_with_limit workspace pattern ACTIVITY_PROBE_PATH_LIMIT.

(** What git says, or the fallback where it says nothing: a scan cut short
    counts as activity. *)
Definition settle (git fallback : ActivityProbeResult) : bool :=
  match git with
  | Inactive => false
  | Active | Truncated => true
  | Unsupported => match fallback with Active | Truncated => true | _ => false end
  end.

Definition check_filesystem_activity (workspace path_pattern : str) : bool :=
  if negb (path_exists d workspace) then false
  else
    let pattern := normalize_path_pattern_key path_pattern in
    if bool_decide (pattern = []) then false
    else if has_glob pattern then
      settle (check_git_listed_activity workspace (glob_pathspec pattern)) (check_glob_activity_fallback workspace pattern)
    else
      let candidate := join workspace pattern in
      if is_dir d candidate then
        settle (check_git_listed_activity workspace pattern) (check_directory_activity_fallback candidate)
      else path_exists d candidate && path_modified_within_grace d candidate now_us grace_us.
End globs.
End probe.

(** ** Commits *)

Definition git_head_oid_for_workspace (d : Disk) (workspace : str) : option str :=
  if negb (path_exists d workspace) then None
  else
    out ← rev_parse_head d workspace;
    let head := trim out in
    if bool_decide (head = []) then None else Some head.

Definition git_latest_commit_us (d : Disk) (workspace path_pattern : str) : option Z :=
  if negb (path_exists d workspace) then None
  else
    let pattern := normalize_path_pattern_key path_pattern in
    if bool_decide (pattern = []) then None
    else
      out ← git_log d workspace (if has_glob pattern then glob_pathspec pattern else pattern);
      commit_epoch ← parse_i64 (trim out);
      Some (i64_saturating_mul commit_epoch 1000000).

(** ** What is kept between cycles *)

Record PathProbeCacheEntry := {
  fs_recent_until_us : Z;
  git_head_oid : option str;
  git_latest_us : option Z;
  last_used_us : Z;
}.

(** By project and normalised pattern. *)
Abbreviation CleanupProbeCache := (gmap (Z * str) PathProbeCacheEntry).

Definition default_entry : PathProbeCacheEntry :=
  {| fs_recent_until_us := 0; git_head_oid := None; git_latest_us := None; last_used_us := 0 |}.

Definition prune_stale (now_us : Z) (cache : CleanupProbeCache) : CleanupProbeCache :=
  filter (λ kv, i64_saturating_sub now_us (last_used_us kv.2) ≤ PROBE_CACHE_RETENTION_US) cache.

(** The entry after its git side was brought up to date. *)
Definition refresh_git (d : Disk) (workspace pattern : str) (head : option str) (now_us : Z) (e : PathProbeCacheEntry) : PathProbeCacheEntry :=
  match head with
  | None => {| fs_recent_until_us := 0; git_head_oid := None; git_latest_us := None; last_used_us := now_us |}
  | Some current_head =>
      if bool_decide (git_head_oid e = Some current_head)
      then {| fs_recent_until_us := 0; git_head_oid := git_head_oid e; git_latest_us := git_latest_us e; last_used_us := now_us |}
      else {| fs_recent_until_us := 0; git_head_oid := Some current_head; git_latest_us := git_latest_commit_us d workspace pattern;
              last_used_us := now_us |}
  end.

Definition path_has_recent_activity_cached `{Globset} (d : Disk) (cache : CleanupProbeCache) (workspace : str) (project_id : Z)
    (path_pattern : str) (head : option str) (now_us grace_us : Z) : bool * CleanupProbeCache :=
  let pattern := normalize_path_pattern_key path_pattern in
  if bool_decide (pattern = []) then (false, cache)
  else
    let e := default default_entry (cache !! (project_id, pattern)) in
    let put e := <[(project_id, pattern) := e]> cache in
    let with_fs t := {| fs_recent_until_us := t; git_head_oid := git_head_oid e; git_latest_us := git_latest_us e; last_used_us := now_us |} in
    if now_us <? fs_recent_until_us e then (true, put (with_fs (fs_recent_until_us e)))
    else if check_filesystem_activity d now_us grace_us workspace pattern then (true, put (with_fs (i64_saturating_add now_us grace_us)))
    else
      let e' := refresh_git d workspace pattern head now_us e in
      (match head, git_latest_us e' with Some _, Some t => within_grace now_us grace_us t | _, _ => false end, put e').
End CleanupProbes.
