(* ===== verification/CleanupProbesFacts.v ===== *)
(** * What the probes see

    The theorems about [CleanupProbes]: exactly when files count as worked on,
    and that the answers kept between cycles never hide activity that a fresh
    probe would see. *)

From stdpp Require Import base numbers tactics list gmap strings.
From S2P Require Import Prelude OverlapDp PatternOverlap RefGlob CleanupProbes.
Import CleanupProbes.
Open Scope Z_scope.

(** ** Files *)

Section files.
Context (d : Disk) (now_us grace_us : Z).
Abbreviation recent p := (path_modified_within_grace d p now_us grace_us = true).

Lemma scan_lines_settles ws lines ok count fallback :
  0 ≤ count < ACTIVITY_PROBE_PATH_LIMIT →
  settle (scan_lines d now_us grace_us ws lines ok count) fallback = true ↔
    (∃ l, l ∈ lines ∧ recent (join ws l)) ∨ ACTIVITY_PROBE_PATH_LIMIT ≤ count + Z.of_nat (length lines) ∨
    (ok = false ∧ settle Unsupported fallback = true).
Proof.
  revert count. induction lines as [|l lines IH]; intros count Hc; cbn [scan_lines length].
  - destruct ok; simpl; split.
    + done.
    + intros [(l & []%elem_of_nil & _)|[Hl|[Hf _]]]; [lia|done].
    + intros Hs. right; right. by split.
    + intros [(l & []%elem_of_nil & _)|[Hl|[_ Hf]]]; [lia|done].
  - destruct (path_modified_within_grace d (join ws l) now_us grace_us) eqn:Hr.
    { simpl. split; [|done]. intros _. left. exists l. split; [by left|done]. }
    destruct (Z.leb_spec ACTIVITY_PROBE_PATH_LIMIT (count + 1)) as [Hle|Hlt].
    { simpl. split; [|done]. intros _. right; left. lia. }
    rewrite IH by lia. setoid_rewrite elem_of_cons. split.
    + intros [(l' & ? & ?)|[?|?]]; [left; exists l'; eauto|right; left; lia|by right; right].
    + intros [(l' & [->|?] & Hr')|[?|?]]; [congruence|left; eauto|right; left; lia|by right; right].
Qed.

(** The entries of a walk that count. *)
Definition counted (accept : str → bool) (entries : list (str * bool)) : list str :=
  filter (λ p, accept p = true) (omap (λ e : str * bool, if e.2 then Some e.1 else None) entries).

Lemma counted_cons accept p file entries :
  counted accept ((p, file) :: entries) = if file && accept p then p :: counted accept entries else counted accept entries.
Proof. unfold counted. destruct file; [|done]. change (omap _ ((p, true) :: entries)) with (p :: omap (λ e : str * bool, if e.2 then Some e.1 else None) entries). rewrite filter_cons. by destruct (accept p). Qed.

Lemma scan_files_settles accept limit entries scanned :
  0 ≤ scanned ≤ limit →
  settle Unsupported (scan_files d now_us grace_us accept limit entries scanned) = true ↔
    (∃ p, p ∈ counted accept entries ∧ recent p) ∨ limit < scanned + Z.of_nat (length (counted accept entries)).
Proof.
  revert scanned. induction entries as [|[p file] entries IH]; intros scanned Hs; cbn [scan_files].
  { simpl. split; [done|]. intros [(p & []%elem_of_nil & _)|Hl]; simpl in *; lia. }
  rewrite counted_cons. destruct file; cbn [negb andb]; [|by apply IH].
  destruct (accept p) eqn:Ha; cbn [negb]; [|by apply IH]. rewrite length_cons.
  destruct (Z.leb_spec limit scanned) as [Hle|Hlt].
  { split; [|done]. intros _. right. lia. }
  destruct (path_modified_within_grace d p now_us grace_us) eqn:Hr.
  { split; [|done]. intros _. left. exists p. split; [by left|done]. }
  rewrite IH by lia. setoid_rewrite elem_of_cons. split.
  - intros [(q & ? & ?)|?]; [left; eauto|right; lia].
  - intros [(q & [->|?] & Hq)|?]; [congruence|left; eauto|right; lia].
Qed.

(** What git lists, and whether its word is final. *)
Definition listed (workspace pathspec : str) : list str :=
  match ls_files d workspace pathspec with Some (lines, _) => join workspace <$> lines | None => [] end.
Definition git_settles (workspace pathspec : str) : bool :=
  match ls_files d workspace pathspec with Some (_, ok) => ok | None => false end.

Lemma check_git_settles ws pathspec fallback :
  settle (check_git_listed_activity d now_us grace_us ws pathspec) fallback = true ↔
    (∃ p, p ∈ listed ws pathspec ∧ recent p) ∨ ACTIVITY_PROBE_PATH_LIMIT ≤ Z.of_nat (length (listed ws pathspec)) ∨
    (git_settles ws pathspec = false ∧ settle Unsupported fallback = true).
Proof.
  unfold check_git_listed_activity, listed, git_settles. destruct (ls_files d ws pathspec) as [[lines ok]|].
  - rewrite scan_lines_settles by (unfold ACTIVITY_PROBE_PATH_LIMIT; lia). rewrite length_fmap, Z.add_0_l.
    assert ((∃ l, l ∈ lines ∧ recent (join ws l)) ↔ ∃ p, p ∈ join ws <$> lines ∧ recent p) as ->; [|done].
    split; [intros (l & ? & ?); exists (join ws l); split; [by apply list_elem_of_fmap_2|done]|].
    intros (p & (l & -> & ?)%list_elem_of_fmap & ?). eauto.
  - simpl. split; [intros ?; right; right; by split|]. intros [(p & []%elem_of_nil & _)|[Hl|[_ ?]]]; [|done].
    unfold ACTIVITY_PROBE_PATH_LIMIT in Hl. lia.
Qed.

Section globs.
Context `{Globset}.

(** The files of a walk that are evidence for a pattern. *)
Definition walked (workspace pattern : str) : list str :=
  let candidate := join workspace pattern in
  if has_glob pattern then
    let compiled := PatternOverlap.compile pattern in
    let root := scan_root workspace compiled in
    if PatternOverlap.is_matchable compiled && path_exists d root
    then counted (matches_relative workspace compiled) (if is_file d root then [(root, true)] else walk_dir d root)
    else []
  else if is_dir d candidate then counted (λ _, true) (walk_dir d candidate)
  else [].

Definition pathspec (pattern : str) : str := if has_glob pattern then glob_pathspec pattern else pattern.

(** Git is asked for a pattern that is not the path of a single file. *)
Definition asks_git (workspace pattern : str) : bool := has_glob pattern || is_dir d (join workspace pattern).

(** The files whose times are evidence for a pattern: those git lists, and
    those of a walk when git's word is not final, or the file itself. *)
Definition evidence (workspace pattern p : str) : Prop :=
  if asks_git workspace pattern then
    p ∈ listed workspace (pathspec pattern) ∨ git_settles workspace (pathspec pattern) = false ∧ p ∈ walked workspace pattern
  else p = join workspace pattern ∧ path_exists d p = true.

Definition too_many (workspace pattern : str) : Prop :=
  asks_git workspace pattern = true ∧
  (ACTIVITY_PROBE_PATH_LIMIT ≤ Z.of_nat (length (listed workspace (pathspec pattern))) ∨
   git_settles workspace (pathspec pattern) = false ∧ ACTIVITY_PROBE_PATH_LIMIT < Z.of_nat (length (walked workspace pattern))).

Lemma walked_settles_glob ws pattern :
  has_glob pattern = true →
  settle Unsupported (check_glob_activity_fallback d now_us grace_us ws pattern) = true ↔
    (∃ p, p ∈ walked ws pattern ∧ recent p) ∨ ACTIVITY_PROBE_PATH_LIMIT < Z.of_nat (length (walked ws pattern)).
Proof.
  intros Hg. unfold check_glob_activity_fallback, check_glob_activity_fallback_with_limit, walked. rewrite Hg.
  assert (¬ ((∃ p, p ∈ ([] : list str) ∧ recent p) ∨ ACTIVITY_PROBE_PATH_LIMIT < Z.of_nat (length ([] : list str)))) as Hno.
  { intros [(p & []%elem_of_nil & _)|Hl]. unfold ACTIVITY_PROBE_PATH_LIMIT in Hl. simpl in Hl. lia. }
  destruct (PatternOverlap.is_matchable _); cbn [negb andb]; [|by split].
  destruct (path_exists d _); cbn [negb andb]; [|by split].
  destruct (is_file d _); by rewrite scan_files_settles by (unfold ACTIVITY_PROBE_PATH_LIMIT; lia).
Qed.

Lemma walked_settles_dir ws pattern :
  has_glob pattern = false → is_dir d (join ws pattern) = true →
  settle Unsupported (check_directory_activity_fallback d now_us grace_us (join ws pattern)) = true ↔
    (∃ p, p ∈ walked ws pattern ∧ recent p) ∨ ACTIVITY_PROBE_PATH_LIMIT < Z.of_nat (length (walked ws pattern)).
Proof.
  intros Hg Hd. unfold check_directory_activity_fallback, check_directory_activity_fallback_with_limit, walked.
  rewrite Hg, Hd. by rewrite scan_files_settles by (unfold ACTIVITY_PROBE_PATH_LIMIT; lia).
Qed.

(** Exactly when files count as worked on.  In a workspace that exists, a
    pattern with text is active if and only if a file that is evidence for it
    was modified within the grace period or there are too many files to look
    at; so an unchanged verdict never rests on a scan that was cut short. *)
Theorem filesystem_activity_spec ws raw :
  path_exists d ws = true → normalize_path_pattern_key raw ≠ [] →
  check_filesystem_activity d now_us grace_us ws raw = true ↔
    (∃ p, evidence ws (normalize_path_pattern_key raw) p ∧ recent p) ∨ too_many ws (normalize_path_pattern_key raw).
Proof.
  intros Hws Hne. unfold check_filesystem_activity. rewrite Hws, bool_decide_false by done. simpl.
  set (pattern := normalize_path_pattern_key raw). unfold evidence, too_many, asks_git, pathspec.
  destruct (has_glob pattern) eqn:Hg; [|destruct (is_dir d (join ws pattern)) eqn:Hd]; simpl.
  - rewrite check_git_settles, walked_settles_glob by done. naive_solver.
  - rewrite check_git_settles, walked_settles_dir by done. naive_solver.
  - rewrite andb_true_iff. split; [intros [? ?]; left; eauto|]. intros [(p & [-> ?] & ?)|[? _]]; done.
Qed.
End globs.
End files.

(** ** What is kept between cycles *)

Section kept.
Context `{Globset}.

(** One question to the probes. *)
Record Probe := {
  p_disk : Disk; p_workspace : str; p_project : Z; p_pattern : str; p_head : option str; p_now : Z; p_grace : Z;
}.
Definition p_key (p : Probe) : Z * str := (p_project p, normalize_path_pattern_key (p_pattern p)).

Inductive CacheEvent := EProbe (p : Probe) | EPrune (now_us : Z).

Definition ask (c : CleanupProbeCache) (p : Probe) : bool * CleanupProbeCache :=
  path_has_recent_activity_cached (p_disk p) c (p_workspace p) (p_project p) (p_pattern p) (p_head p) (p_now p) (p_grace p).

Definition run_event (c : CleanupProbeCache) (ev : CacheEvent) : CleanupProbeCache :=
  match ev with EProbe p => (ask c p).2 | EPrune now => prune_stale now c end.
Definition run_events (evs : list CacheEvent) : CleanupProbeCache := foldl run_event ∅ evs.

(** What a probe sees that remembers nothing. *)
Definition sees_files (p : Probe) : bool :=
  check_filesystem_activity (p_disk p) (p_now p) (p_grace p) (p_workspace p) (p_key p).2.
Definition sees_commit (p : Probe) : bool :=
  match p_head p, git_latest_commit_us (p_disk p) (p_workspace p) (p_key p).2 with
  | Some _, Some t => within_grace (p_now p) (p_grace p) t
  | _, _ => false
  end.
Definition fresh_answer (p : Probe) : bool := negb (bool_decide ((p_key p).2 = [])) && (sees_files p || sees_commit p).

(** The latest commit of a pattern is a matter of the commit the project's
    HEAD is at. *)
Context (latest : Z → str → str → option Z).

Definition history_fixed (p : Probe) : Prop :=
  ∀ h, p_head p = Some h → git_latest_commit_us (p_disk p) (p_workspace p) (p_key p).2 = latest (p_project p) h (p_key p).2.

Definition event_fixed (ev : CacheEvent) : Prop :=
  match ev with EProbe p => history_fixed p | EPrune _ => True end.

(** An entry is empty or records what was seen. *)
Definition entry_ok (evs : list CacheEvent) (k : Z * str) (e : PathProbeCacheEntry) : Prop :=
  (∀ h, git_head_oid e = Some h → git_latest_us e = latest k.1 h k.2) ∧
  (fs_recent_until_us e = 0 ∨
   ∃ p, EProbe p ∈ evs ∧ p_key p = k ∧ sees_files p = true ∧ fs_recent_until_us e = i64_saturating_add (p_now p) (p_grace p)).

Definition cache_ok (evs : list CacheEvent) (c : CleanupProbeCache) : Prop :=
  map_Forall (entry_ok evs) c.

Lemma entry_ok_mono evs ev k e : entry_ok evs k e → entry_ok (evs ++ [ev]) k e.
Proof.
  intros [? Hs]. split; [done|]. destruct Hs as [?|(p & ? & ?)]; [by left|]. right. exists p.
  split; [apply elem_of_app; by left|done].
Qed.

Lemma default_ok (evs : list CacheEvent) (k : Z * str) (c : CleanupProbeCache) : cache_ok evs c → entry_ok evs k (default default_entry (c !! k)).
Proof. intros Hc. destruct (c !! k) as [e|] eqn:He; [by eapply Hc|]. split; [done|by left]. Qed.

Lemma refresh_git_ok p e :
  history_fixed p → (∀ h, git_head_oid e = Some h → git_latest_us e = latest (p_project p) h (p_key p).2) →
  let e' := refresh_git (p_disk p) (p_workspace p) (p_key p).2 (p_head p) (p_now p) e in
  (∀ h, git_head_oid e' = Some h → git_latest_us e' = latest (p_project p) h (p_key p).2) ∧
  (∀ h, p_head p = Some h → git_latest_us e' = git_latest_commit_us (p_disk p) (p_workspace p) (p_key p).2) ∧
  fs_recent_until_us e' = 0.
Proof.
  intros Hf He e'. unfold e', refresh_git, history_fixed in *. destruct (p_head p) as [h0|].
  - destruct (decide (git_head_oid e = Some h0)) as [Heq|Hne].
    + rewrite bool_decide_true by done. cbn [git_head_oid git_latest_us fs_recent_until_us].
      split_and!; [done| |done]. intros h [= <-]. rewrite (Hf h0 eq_refl). by apply He.
    + rewrite bool_decide_false by done. cbn [git_head_oid git_latest_us fs_recent_until_us]. split_and!; [intros h [= <-]; by apply Hf|done|done].
  - cbn [git_head_oid git_latest_us fs_recent_until_us]. split_and!; done.
Qed.

(** The answer to a probe, and the cache after it. *)
Lemma ask_result evs c p :
  cache_ok evs c → history_fixed p → 0 ≤ p_now p →
  let '(r, c') := ask c p in
  cache_ok (evs ++ [EProbe p]) c' ∧
  (fresh_answer p = true → r = true) ∧
  (r = true → fresh_answer p = true ∨
    ∃ p0, EProbe p0 ∈ evs ∧ p_key p0 = p_key p ∧ sees_files p0 = true ∧ p_now p < i64_saturating_add (p_now p0) (p_grace p0)).
Proof.
  intros Hc Hf Hnow. unfold ask, path_has_recent_activity_cached. fold (p_key p).2. unfold fresh_answer.
  assert (cache_ok (evs ++ [EProbe p]) c) as Hc'.
  { intros k e He. apply entry_ok_mono. by eapply Hc. }
  change (normalize_path_pattern_key (p_pattern p)) with (p_key p).2. change (p_project p, (p_key p).2) with (p_key p).
  destruct (bool_decide ((p_key p).2 = [])); [done|]. cbn [negb andb].
  set (e := default default_entry (c !! p_key p)). pose proof (default_ok _ (p_key p) c Hc') as [Hg Hs].
  pose proof (default_ok _ (p_key p) c Hc) as [_ Hs0]. fold e in Hg, Hs, Hs0.
  destruct (Z.ltb_spec (p_now p) (fs_recent_until_us e)) as [Hlt|Hge].
  - split_and!; [apply map_Forall_insert_2; [by split|done]|done|]. intros _. right.
    destruct Hs0 as [?|(p0 & ? & ? & ? & Heq)]; [lia|]. exists p0. by rewrite <-Heq.
  - change (check_filesystem_activity (p_disk p) (p_now p) (p_grace p) (p_workspace p) (p_key p).2) with (sees_files p).
    destruct (sees_files p) eqn:Hfs; cbn [orb].
    + split_and!; [|done|by left]. apply map_Forall_insert_2; [|done]. split; [done|]. right. exists p.
      split; [apply elem_of_app; right; by left|done].
    + destruct (refresh_git_ok p e Hf Hg) as (Hg' & Hl & Hz). set (e' := refresh_git _ _ _ _ _ _) in *.
      split; [apply map_Forall_insert_2; [split; [done|by left]|done]|]. unfold sees_commit.
      destruct (p_head p) as [h|]; [|done]. rewrite (Hl h eq_refl). split; [done|by left].
Qed.

Lemma run_events_ok evs :
  Forall (event_fixed) evs → Forall (λ ev, match ev with EProbe p => 0 ≤ p_now p | EPrune _ => True end) evs →
  cache_ok evs (run_events evs).
Proof.
  unfold run_events. induction evs as [|ev evs IH] using rev_ind; [done|].
  intros [Hf Hf1]%Forall_app [Hn Hn1]%Forall_app. rewrite foldl_app. specialize (IH Hf Hn). cbn [foldl].
  rewrite Forall_singleton in Hf1, Hn1. destruct ev as [p|now]; cbn [run_event].
  - pose proof (ask_result evs _ p IH Hf1 Hn1) as Ha. by destruct (ask _ p), Ha.
  - intros k e [He _]%map_lookup_filter_Some. apply entry_ok_mono. by eapply IH.
Qed.

(** What is kept hides nothing.  After any history of probes and prunings,
    a probe that would see recent files or commits by itself still does; and it
    reports more than it sees only within the grace period after an earlier
    probe of the same project and pattern saw recent files. *)
Theorem probe_cache_sound evs p :
  Forall (event_fixed) evs → Forall (λ ev, match ev with EProbe p => 0 ≤ p_now p | EPrune _ => True end) evs →
  history_fixed p → 0 ≤ p_now p →
  (fresh_answer p = true → (ask (run_events evs) p).1 = true) ∧
  ((ask (run_events evs) p).1 = true → fresh_answer p = true ∨
    ∃ p0, EProbe p0 ∈ evs ∧ p_key p0 = p_key p ∧ sees_files p0 = true ∧ p_now p < i64_saturating_add (p_now p0) (p_grace p0)).
Proof.
  intros Hf Hn Hp Hnow. pose proof (ask_result evs _ p (run_events_ok evs Hf Hn) Hp Hnow) as Ha.
  by destruct (ask _ p) as [r c'], Ha.
Qed.
End kept.

(** ** Runs *)

Module ProbeRuns.
#[local] Existing Instance RefGlob.ref_globset.

Definition seconds (n : Z) : Z := n * 1000000.
Definition workspace : str := lit "/w".
Definition pattern : str := lit " /src/*.rs".

(** A workspace with one file, last changed at a given second, of which git
    knows a commit at second 50. *)
Definition disk (changed : Z) : Disk :=
  {| path_exists p := bool_decide (p ∈ [workspace; lit "/w/src"; lit "/w/src/a.rs"]);
     is_dir p := bool_decide (p ∈ [workspace; lit "/w/src"]);
     is_file p := bool_decide (p = lit "/w/src/a.rs");
     modified_us p := if bool_decide (p = lit "/w/src/a.rs") then Some (seconds changed) else None;
     walk_dir p := if bool_decide (p = lit "/w/src") then [(lit "/w/src", false); (lit "/w/src/a.rs", true)] else [];
     ls_files ws spec := if bool_decide (spec = lit ":(glob)src/*.rs") then Some ([lit "src/a.rs"], true) else None;
     rev_parse_head _ := Some (lit "c0ffee ");
     git_log _ _ := Some (lit "50 ") |}.

Definition probe (now : Z) : Probe :=
  {| p_disk := disk 100; p_workspace := workspace; p_project := 1; p_pattern := pattern;
     p_head := git_head_oid_for_workspace (disk 100) workspace; p_now := seconds now; p_grace := seconds 60 |}.

(** The times of day at which the answers are yes, kept yes, and no. *)
Example probe_answers :
  (ask (run_events []) (probe 150)).1 = true ∧ fresh_answer (probe 200) = false ∧
  (ask (run_events [EProbe (probe 150); EPrune (seconds 160)]) (probe 200)).1 = true ∧
  (ask (run_events [EProbe (probe 150)]) (probe 250)).1 = false.
Proof. by vm_compute. Qed.

(** Without git a walk finds the same file, and a pattern git knows nothing of
    is looked up there. *)
Example walk_answers :
  check_filesystem_activity (disk 100) (seconds 150) (seconds 60) workspace (lit "src/?.rs") = true ∧
  check_filesystem_activity (disk 100) (seconds 150) (seconds 60) workspace (lit "src") = true ∧
  check_filesystem_activity (disk 100) (seconds 150) (seconds 60) workspace (lit "src/a.rs") = true ∧
  check_filesystem_activity (disk 100) (seconds 150) (seconds 60) workspace (lit "src/b.rs") = false.
Proof. by vm_compute. Qed.

Example filesystem_activity_spec_witness :
  check_filesystem_activity (disk 100) (seconds 150) (seconds 60) workspace pattern = true.
Proof.
  apply (filesystem_activity_spec (disk 100) (seconds 150) (seconds 60) workspace pattern); [by vm_compute|by vm_compute|].
  left. exists (lit "/w/src/a.rs"). split; [left; by left|by vm_compute].
Defined.

Example probe_cache_sound_witness :
  ∃ p0, p0 = probe 150 ∧ sees_files p0 = true ∧ p_now (probe 200) < i64_saturating_add (p_now p0) (p_grace p0).
Proof.
  destruct (probe_cache_sound (λ _ _ _, Some (seconds 50)) [EProbe (probe 150); EPrune (seconds 160)] (probe 200)) as [_ Hs].
  - repeat constructor; intros h _; by vm_compute.
  - by repeat constructor.
  - intros h _; by vm_compute.
  - by vm_compute.
  - destruct Hs as [Hs|(p0 & Hin & _ & Hs)]; [by vm_compute|by vm_compute in Hs|].
    exists p0. split; [|exact Hs]. apply elem_of_cons in Hin as [[= ->]|[Hf|[]%elem_of_nil]%elem_of_cons]; [done|discriminate Hf].
Defined.
End ProbeRuns.
