(* ===== verification/Cleanup.v ===== *)
(** * The clean-up of expired and abandoned reservations
      ([mcp-agent-mail-server/src/cleanup.rs] and its queries)

    A background worker releases, project by project, the reservations whose
    time is over and those whose holder seems to be gone: no sign of life, no
    mail, and nobody working on the paths ([CleanupProbes]).  It is one more
    client of the release transactions ([ReservationDb]) and reads the agents
    through the cache ([AgentLookup]).  What other connections do meanwhile,
    and which query fails, is up to the world. *)

From stdpp Require Import base numbers tactics list sorting gmap strings.
From S2P Require Import Prelude OverlapDp PatternOverlap KeyedBuckets ReservationIndex ReservationDb S3Fifo ReadCache AgentLookup Mail WriteBehindQueue CleanupProbes.
Import ReservationDb CleanupProbes WriteBehindQueue.
Open Scope Z_scope.

Module Cleanup.

(** ** Queries *)

Section queries.
Context (decode_listed : Cell → option (option Z)) `{CellDecode}.

(** A row of a listing; the way its query turns the [released_ts] cell into a
    number is a parameter. *)
Definition listed_row (r : StoredRow) : option FileReservationRow :=
  rel ← decode_listed (released_ts r);
  Some {| fr_id := Some (row_id r); fr_project_id := project_id r; fr_agent_id := agent_id r; fr_path_pattern := path_pattern r;
          fr_exclusive := exclusive r; fr_reason := reason r; fr_created_ts := created_ts r; fr_expires_ts := expires_ts r;
          fr_released_ts := rel |}.

(** [list_unreleased_file_reservations]. *)
Definition list_unreleased_file_reservations (project : Z) (d : Db) : option (list FileReservationRow) :=
  mapM listed_row (filter (λ r, project_id r = project ∧ active d r = true) (rows d)).

(** [project_ids_with_active_reservations]. *)
Definition project_ids_with_active_reservations (d : Db) : list Z :=
  remove_dups (project_id <$> filter (λ r, active d r = true) (rows d)).

(** [get_reservations_by_ids], with the marks of the release ledger. *)
Fixpoint get_chunks (d : Db) (cs : list (list Z)) : Outcome (list FileReservationRow) :=
  match cs with
  | [] => Ok []
  | chunk :: cs =>
      match decode_rows (join_release d <$> filter (λ r, row_id r ∈ chunk) (rows d)) with
      | Err e => Err e
      | Ok out => match get_chunks d cs with Err e => Err e | Ok more => Ok (out ++ more) end
      end
  end.
Definition get_reservations_by_ids (ids : list Z) (d : Db) : Outcome (list FileReservationRow) :=
  get_chunks d (chunks (Z.to_nat MAX_IN_CLAUSE_ITEMS) ids).

(** ** One project *)

Record Config := { file_reservation_inactivity_seconds : Z; file_reservation_activity_grace_seconds : Z }.

(** [i64::try_from] of a [u64], or a default, in microseconds. *)
Definition limit_us (seconds otherwise : Z) : Z :=
  i64_saturating_mul (if seconds <=? i64_max then seconds else otherwise) 1000000.
Definition inactivity_us (cfg : Config) : Z := limit_us (file_reservation_inactivity_seconds cfg) 1800.
Definition grace_us (cfg : Config) : Z := limit_us (file_reservation_activity_grace_seconds cfg) 900.

(** What the write of archive records meets: whether the project and the rows
    are found, the names of agents read past the cache, the queue's answer and
    the fate of the write without it. *)
Record Archive := {
  project_found : bool;
  rows_found : bool;
  fresh_name : Z → option str;
  enqueued : WbqEnqueueResult;
  sync_ok : bool;
}.

(** The world while one project is cleaned up.  What is asked once per agent or
    pattern is a function of it, since tables and files change meanwhile. *)
Record World := {
  before_listing : Db → Db;
  env : Environment;
  clock : Z;
  expired_ok : bool;
  now_expired : Z;
  now : Z;
  listed_ok : bool;
  human_key : option str;
  agent_ok : Z → bool;
  instant : Z → Z;
  agents_at : Z → list ReadCache.AgentRow;
  mail_ok : Z → bool;
  mail_at : Z → Mail.Db;
  head_disk : Disk;
  disk_at : str → Disk;
  released_ok : bool;
  expired_archive : Archive;
  stale_archive : Archive;
}.

Record State := { reservations : Db; cache : ReadCache.ReadCache; probes : CleanupProbeCache }.

(** The decisions of one scan, each taken once. *)
Record Scan := {
  inactive_agent_cache : gmap Z bool;
  recent_mail_cache : gmap Z bool;
  recent_path_activity_cache : gmap str bool;
  agent_cache : ReadCache.ReadCache;
  probe_cache : CleanupProbeCache;
  stale_ids : list Z;
}.

Section detect.
Context `{Globset} (scope_fingerprint : str → Z) (scope : str) (cfg : Config) (w : World) (project : Z) (workspace : str) (head : option str).

(** Reaper-exempt agents, and those that cannot be looked up, are never
    inactive. *)
Definition inactive (a : option ReadCache.AgentRow) : bool :=
  match a with
  | Some a => bool_decide (ReadCache.reaper_exempt a = 0) && (inactivity_us cfg <? i64_saturating_sub (now w) (ReadCache.last_active_ts a))
  | None => false
  end.

Definition agent_inactive (agent : Z) (sc : Scan) : bool * Scan :=
  match inactive_agent_cache sc !! agent with
  | Some b => (b, sc)
  | None =>
      let '(a, c) := AgentLookup.get_agent_by_id scope_fingerprint scope (agent_ok w agent) agent (instant w agent) (agents_at w agent) (agent_cache sc) in
      let computed := inactive a in
      (computed, {| inactive_agent_cache := <[agent := computed]> (inactive_agent_cache sc); recent_mail_cache := recent_mail_cache sc;
                    recent_path_activity_cache := recent_path_activity_cache sc; agent_cache := c; probe_cache := probe_cache sc;
                    stale_ids := stale_ids sc |})
  end.

(** A query that fails counts as no mail. *)
Definition mailed (agent : Z) : bool :=
  match (if mail_ok w agent then Mail.get_agent_last_mail_activity agent project (mail_at w agent) else None) with
  | Some ts => i64_saturating_sub (now w) ts <=? grace_us cfg
  | None => false
  end.

Definition recent_mail (agent : Z) (sc : Scan) : bool * Scan :=
  match recent_mail_cache sc !! agent with
  | Some b => (b, sc)
  | None =>
      let computed := mailed agent in
      (computed, {| inactive_agent_cache := inactive_agent_cache sc; recent_mail_cache := <[agent := computed]> (recent_mail_cache sc);
                    recent_path_activity_cache := recent_path_activity_cache sc; agent_cache := agent_cache sc; probe_cache := probe_cache sc;
                    stale_ids := stale_ids sc |})
  end.

Definition has_recent_path_activity (path_pattern : str) (sc : Scan) : bool * Scan :=
  let normalized_pattern := normalize_path_pattern_key path_pattern in
  match recent_path_activity_cache sc !! normalized_pattern with
  | Some b => (b, sc)
  | None =>
      let '(computed, pc) := path_has_recent_activity_cached (disk_at w normalized_pattern) (probe_cache sc) workspace project normalized_pattern
                               head (now w) (grace_us cfg) in
      (computed, {| inactive_agent_cache := inactive_agent_cache sc; recent_mail_cache := recent_mail_cache sc;
                    recent_path_activity_cache := <[normalized_pattern := computed]> (recent_path_activity_cache sc);
                    agent_cache := agent_cache sc; probe_cache := pc; stale_ids := stale_ids sc |})
  end.

Definition push_stale (id : option Z) (sc : Scan) : Scan :=
  {| inactive_agent_cache := inactive_agent_cache sc; recent_mail_cache := recent_mail_cache sc;
     recent_path_activity_cache := recent_path_activity_cache sc; agent_cache := agent_cache sc; probe_cache := probe_cache sc;
     stale_ids := stale_ids sc ++ option_list id |}.

(** The body of the loop over the reservations. *)
Definition scan_row (sc : Scan) (res : FileReservationRow) : Scan :=
  let '(b, sc) := agent_inactive (fr_agent_id res) sc in
  if negb b then sc
  else
    let '(b, sc) := recent_mail (fr_agent_id res) sc in
    if b then sc
    else
      let '(b, sc) := has_recent_path_activity (fr_path_pattern res) sc in
      if b then sc else push_stale (fr_id res) sc.

Definition scan_rows (res : list FileReservationRow) (c : ReadCache.ReadCache) (pc : CleanupProbeCache) : Scan :=
  foldl scan_row {| inactive_agent_cache := ∅; recent_mail_cache := ∅; recent_path_activity_cache := ∅; agent_cache := c; probe_cache := pc;
                    stale_ids := [] |} res.
End detect.

Section cycle.
Context `{Globset} (scope_fingerprint : str → Z) (scope : str) (cfg : Config).

(** [stale_cleanup_workspace]; [None] is an error. *)
Definition stale_cleanup_workspace (w : World) : option str :=
  ws ← human_key w;
  if bool_decide (ws = []) then None else if path_exists (head_disk w) ws then Some ws else None.

(** [active_reservations_for_stale_cleanup]. *)
Definition active_reservations_for_stale_cleanup (w : World) (project : Z) (d : Db) : option (list FileReservationRow) :=
  if listed_ok w then filter (λ r, now w < fr_expires_ts r) <$> list_unreleased_file_reservations project d else None.

(** [detect_and_release_stale]: the released identifiers, [None] on an error. *)
Definition detect_and_release_stale (w : World) (project : Z) (s : State) : option (list Z) * State :=
  let d := before_listing w (reservations s) in
  let s := {| reservations := d; cache := cache s; probes := probes s |} in
  match active_reservations_for_stale_cleanup w project d with
  | None => (None, s)
  | Some [] => (Some [], s)
  | Some active =>
      match stale_cleanup_workspace w with
      | None => (None, s)
      | Some ws =>
          let sc := scan_rows scope_fingerprint scope cfg w project ws (git_head_oid_for_workspace (head_disk w) ws) active (cache s) (probes s) in
          let s := {| reservations := d; cache := agent_cache sc; probes := probe_cache sc |} in
          match stale_ids sc with
          | [] => (Some [], s)
          | ids =>
              let marker := tick (env w) (clock w) in
              let d := interfere (env w) marker d in
              if negb (released_ok w) then (None, {| reservations := d; cache := cache s; probes := probes s |})
              else
                match release_reservations_by_ids_matching_expiry marker ids None d with
                | (Ok markers, d) => (Some (marker_id <$> markers), {| reservations := d; cache := cache s; probes := probes s |})
                | (Err _, d) => (None, {| reservations := d; cache := cache s; probes := probes s |})
                end
          end
      end
  end.

(** ** The archive *)

Record Artifact := {
  artifact_id : Z; artifact_agent : str; artifact_path_pattern : str; artifact_exclusive : bool; artifact_reason : str;
  artifact_created_ts : Z; artifact_expires_ts : Z; artifact_released_ts : Z;
}.

(** One record for each row; [None] is an error: the agent is not found, or the
    row is not marked released. *)
Definition cleanup_artifacts (name_of : Z → option str) (rs : list FileReservationRow) : option (list Artifact) :=
  mjoin <$> mapM (λ r : FileReservationRow, match fr_id r with
    | None => Some []
    | Some id =>
        nm ← name_of (fr_agent_id r);
        released ← fr_released_ts r;
        Some [{| artifact_id := id; artifact_agent := nm; artifact_path_pattern := fr_path_pattern r;
                 artifact_exclusive := bool_decide (fr_exclusive r ≠ 0); artifact_reason := fr_reason r;
                 artifact_created_ts := fr_created_ts r; artifact_expires_ts := fr_expires_ts r; artifact_released_ts := released |}]
    end) rs.

(** [write_cleanup_artifacts]: what is handed to the archive, [None] on an
    error. *)
Definition write_cleanup_artifacts (x : Archive) (released_ids : list Z) (d : Db) : option (list Artifact) :=
  if negb (project_found x) || negb (rows_found x) then None
  else
    match get_reservations_by_ids released_ids d with
    | Err _ => None
    | Ok rs =>
        arts ← cleanup_artifacts (fresh_name x) rs;
        match arts, enqueued x with
        | [], _ | _, Enqueued => Some arts
        | _, QueueUnavailable => if sync_ok x then Some arts else None
        | _, SkippedDiskCritical => None
        end
    end.

(** Only when something was released; an error is logged. *)
Definition archive_released (x : Archive) (released_ids : list Z) (d : Db) : list Artifact :=
  match released_ids with [] => [] | _ => default [] (write_cleanup_artifacts x released_ids d) end.

(** ** The cycle *)

Record Released := { expired_ids : list Z; released_stale_ids : list Z; archived : list Artifact }.

(** Both phases of one project; an error of one is logged and counts as
    nothing released. *)
Definition clean_project (w : World) (project : Z) (s : State) : Released * State :=
  let '(expired, d) :=
    if expired_ok w then
      match release_expired_reservations (env w) (now_expired w) project (clock w) (reservations s) with
      | (Ok ids, d) => (ids, d)
      | (Err _, d) => ([], d)
      end
    else ([], reservations s) in
  let '(stale, s) := detect_and_release_stale w project {| reservations := d; cache := cache s; probes := probes s |} in
  let stale := default [] stale in
  ({| expired_ids := expired; released_stale_ids := stale;
      archived := archive_released (expired_archive w) expired (reservations s) ++ archive_released (stale_archive w) stale (reservations s) |}, s).

Fixpoint clean_projects (world : Z → World) (projects : list Z) (s : State) : list Released * State :=
  match projects with
  | [] => ([], s)
  | project :: projects =>
      let '(released, s) := clean_project (world project) project s in
      let '(more, s) := clean_projects world projects s in
      (released :: more, s)
  end.

(** [run_cleanup_cycle_with_cache]: what was released in each project; [None]
    when they cannot be listed. *)
Definition run_cleanup_cycle_with_cache (projects_listed : bool) (world : Z → World) (end_now : Z) (s : State)
    : option (list Released) * State :=
  if negb projects_listed then (None, s)
  else
    let '(released, s) := clean_projects world (project_ids_with_active_reservations (reservations s)) s in
    (Some released, {| reservations := reservations s; cache := cache s; probes := prune_stale end_now (probes s) |}).

(** The numbers it returns. *)
Definition cycle_totals (released : list Released) : nat * nat :=
  (length released, sum_list ((λ r, length (expired_ids r) + length (released_stale_ids r))%nat <$> released)).
End cycle.
End queries.
End Cleanup.
