(* ===== verification/CleanupFacts.v ===== *)
(** * What the clean-up releases

    The theorems about [Cleanup]: a reservation is taken away only when its
    time is over, or when its holder looks gone by every measure; the expired
    ones do go; and since the sign of life is read through the cache, a holder
    at work can look gone. *)

From stdpp Require Import base numbers tactics list sorting gmap strings.
From S2P Require Import Prelude OverlapDp PatternOverlap RefGlob KeyedBuckets ReservationIndex ReservationDb ReservationDbFacts ReservationRelease.
From S2P Require Import S3Fifo S3FifoFacts ReadCache ReadCacheFacts AgentLookup AgentLookupFacts Mail WriteBehindQueue CleanupProbes CleanupProbesFacts Cleanup.
Import ReservationDb CleanupProbes Cleanup.
Open Scope Z_scope.

Section lookups.
Context (scope_fingerprint : str → Z) (scope : str) (V : Z → ReadCache.AgentRow → Prop).
Abbreviation fp := (scope_fingerprint scope).

(** Every cached row of this scope is a view of its agent. *)
Definition seen (k : Z * Z) (a : ReadCache.AgentRow) : Prop := ∀ i, k = (fp, i) → V i a.
Definition cache_seen (c : ReadCache.ReadCache) : Prop := entries seen (ReadCache.agents_by_id c).

Lemma lookup_entry_entries {K} `{Countable K} {T} (P : K → T → Prop) ttl t k (c : S3Fifo.S3FifoCache K (ReadCache.CacheEntry T)) m :
  entries P c →
  let '(r, c', _) := ReadCache.lookup_entry ttl t k c m in entries P c' ∧ ∀ v, r = Some v → P k v.
Proof.
  intros Hc. unfold ReadCache.lookup_entry. destruct (ReadCache.lookup_fast ttl t k c m) as [[[r|] b] m'] eqn:Hf.
  - assert (∀ v, r = Some v → P k v) as Hr by (intros v ->; by eapply lookup_fast_entry).
    destruct b; (split; [|done]); [by apply entries_touch|done].
  - destruct (ReadCache.lookup_slow ttl t t k c m') as [[r c'] m''] eqn:Hs. by eapply lookup_slow_entries.
Qed.

Lemma get_agent_by_id_seen ok i t tb c :
  cache_seen c → (∀ a, ok = true → AgentLookup.select_by_id i tb = Some a → V i a) →
  let '(o, c') := AgentLookup.get_agent_by_id scope_fingerprint scope ok i t tb c in
  cache_seen c' ∧ match o with Some a => V i a | None => ok = false ∨ AgentLookup.select_by_id i tb = None end.
Proof.
  intros Hc Htb. unfold AgentLookup.get_agent_by_id, ReadCache.get_agent_by_id_scoped.
  pose proof (lookup_entry_entries seen ReadCache.AGENT_TTL t (fp, i) (ReadCache.agents_by_id c) (ReadCache.agent_metrics c) Hc) as Hl.
  destruct (ReadCache.lookup_entry _ _ _ _ _) as [[r k] m]. destruct Hl as [Hk Hr]. destruct r as [a|].
  - split; [done|]. by apply (Hr a).
  - destruct ok; [|split; [done|by left]]. destruct (AgentLookup.select_by_id i tb) as [a|] eqn:Hs; [|split; [done|by right]].
    specialize (Htb a eq_refl eq_refl). split; [|done]. apply head_filter_elem in Hs as [Hid _]. unfold AgentLookup.has_id in Hid.
    apply bool_decide_eq_true in Hid. unfold cache_seen, ReadCache.put_agent_scoped, ReadCache.put_agent_id. rewrite Hid.
    apply entries_insert; [done|]. by intros j [= <-].
Qed.
End lookups.

(** ** The scan *)

Section scan.
Context `{Globset} (scope_fingerprint : str → Z) (scope : str) (cfg : Config) (w : World) (project : Z) (workspace : str) (head : option str).
Context (V : Z → ReadCache.AgentRow → Prop) (latest : Z → str → str → option Z) (evs : list CacheEvent).
Abbreviation row := FileReservationRow.

(** The probe the scan makes for a pattern. *)
Definition probe_of (path_pattern : str) : Probe :=
  {| p_disk := disk_at w (normalize_path_pattern_key path_pattern); p_workspace := workspace; p_project := project;
     p_pattern := normalize_path_pattern_key path_pattern; p_head := head; p_now := now w; p_grace := grace_us cfg |}.

(** The rows a lookup of the project's world can find are views. *)
Definition views_of (w : World) : Prop :=
  ∀ i a, agent_ok w i = true → AgentLookup.select_by_id i (agents_at w i) = Some a → V i a.

(** The cache holds what the probes before, and those of the scan, saw. *)
Definition probes_known (c : CleanupProbeCache) : Prop :=
  ∃ qs : list str, cache_ok latest (evs ++ (EProbe <$> (probe_of <$> qs))) c.

(** An earlier probe saw recent files, within the grace period. *)
Definition busy_lately (path_pattern : str) : Prop :=
  ∃ p0, (EProbe p0 ∈ evs ∨ ∃ q, p0 = probe_of q) ∧ p_key p0 = p_key (probe_of path_pattern) ∧ sees_files p0 = true ∧
    now w < i64_saturating_add (p_now p0) (p_grace p0).

Definition busy (path_pattern : str) : Prop := fresh_answer (probe_of path_pattern) = true ∨ busy_lately path_pattern.

(** Why an agent is held for gone, or not. *)
Definition gone (i : Z) : Prop := ∃ a, V i a ∧ inactive cfg w (Some a) = true.
Definition present (i : Z) : Prop :=
  agent_ok w i = false ∨ AgentLookup.select_by_id i (agents_at w i) = None ∨ ∃ a, V i a ∧ inactive cfg w (Some a) = false.

Abbreviation keep sc r := (inactive_agent_cache sc !! fr_agent_id r = Some false ∨ recent_mail_cache sc !! fr_agent_id r = Some true ∨
  recent_path_activity_cache sc !! normalize_path_pattern_key (fr_path_pattern r) = Some true).
Abbreviation drop_it sc r := (inactive_agent_cache sc !! fr_agent_id r = Some true ∧ recent_mail_cache sc !! fr_agent_id r = Some false ∧
  recent_path_activity_cache sc !! normalize_path_pattern_key (fr_path_pattern r) = Some false).

Record scan_ok (seen_rows : list row) (sc : Scan) : Prop := {
  so_cache : cache_seen scope_fingerprint scope V (agent_cache sc);
  so_probes : probes_known (probe_cache sc);
  so_idle (i : Z) (b : bool) : inactive_agent_cache sc !! i = Some b → if b then gone i else present i;
  so_mail (i : Z) (b : bool) : recent_mail_cache sc !! i = Some b → b = mailed cfg w project i;
  so_paths (p : str) (b : bool) : recent_path_activity_cache sc !! normalize_path_pattern_key p = Some b →
    if b then busy p else fresh_answer (probe_of p) = false;
  so_stale (id : Z) : id ∈ stale_ids sc → ∃ r, r ∈ seen_rows ∧ fr_id r = Some id ∧ drop_it sc r;
  so_rows r : r ∈ seen_rows → keep sc r ∨ ∀ id : Z, fr_id r = Some id → id ∈ stale_ids sc;
}.

(** The decisions only grow. *)
Definition grows (sc sc' : Scan) : Prop :=
  inactive_agent_cache sc ⊆ inactive_agent_cache sc' ∧ recent_mail_cache sc ⊆ recent_mail_cache sc' ∧
  recent_path_activity_cache sc ⊆ recent_path_activity_cache sc' ∧ stale_ids sc' = stale_ids sc.

Lemma grows_trans sc1 sc2 sc3 : grows sc1 sc2 → grows sc2 sc3 → grows sc1 sc3.
Proof. intros (? & ? & ? & ?) (? & ? & ? & ?). split_and!; [by etrans|by etrans|by etrans|congruence]. Qed.

Lemma scan_ok_grow rs sc sc' :
  scan_ok rs sc → grows sc sc' → cache_seen scope_fingerprint scope V (agent_cache sc') → probes_known (probe_cache sc') →
  (∀ (i : Z) (b : bool), inactive_agent_cache sc' !! i = Some b → if b then gone i else present i) →
  (∀ (i : Z) (b : bool), recent_mail_cache sc' !! i = Some b → b = mailed cfg w project i) →
  (∀ (p : str) (b : bool), recent_path_activity_cache sc' !! normalize_path_pattern_key p = Some b →
     if b then busy p else fresh_answer (probe_of p) = false) →
  scan_ok rs sc'.
Proof.
  intros Ho (Hi & Hm & Hp & Hs) ? ? ? ? ?. split; [done..| |].
  - rewrite Hs. intros id (r & ? & ? & ? & ? & ?)%(so_stale _ _ Ho). exists r. split_and!; [done|done|by eapply lookup_weaken..].
  - rewrite Hs. intros r [[?|[?|?]]|?]%(so_rows _ _ Ho); [left|left|left|by right].
    + left. by eapply lookup_weaken.
    + right; left. by eapply lookup_weaken.
    + right; right. by eapply lookup_weaken.
Qed.

Lemma agent_inactive_ok rs sc i :
  views_of w → scan_ok rs sc →
  let '(b, sc') := agent_inactive scope_fingerprint scope cfg w i sc in
  scan_ok rs sc' ∧ grows sc sc' ∧ inactive_agent_cache sc' !! i = Some b.
Proof.
  intros Hv Ho. unfold agent_inactive. destruct (inactive_agent_cache sc !! i) as [b|] eqn:Hi; [done|].
  pose proof (get_agent_by_id_seen scope_fingerprint scope V (agent_ok w i) i (instant w i) (agents_at w i) _ (so_cache _ _ Ho) (Hv i)) as Hg.
  destruct (AgentLookup.get_agent_by_id _ _ _ _ _ _ _) as [a c]. destruct Hg as [Hc Ha].
  set (sc' := {| inactive_agent_cache := _ |}).
  assert (grows sc sc') as Hgr by (split_and!; [by apply insert_subseteq|done..]).
  split_and!; [|done|by apply lookup_insert_eq]. eapply (scan_ok_grow rs sc sc' Ho Hgr); simpl.
  - done.
  - apply (so_probes _ _ Ho).
  - intros j b [[<- <-]|[_ Hj]]%lookup_insert_Some; [|by apply (so_idle _ _ Ho)].
    destruct a as [a|]; simpl in *; [|destruct Ha; [by left|by right; left]].
    destruct (inactive cfg w (Some a)) eqn:Hin; simpl in Hin; rewrite Hin; [by exists a|]. right; right. by exists a.
  - apply (so_mail _ _ Ho).
  - apply (so_paths _ _ Ho).
Qed.

Lemma recent_mail_ok rs sc i :
  scan_ok rs sc →
  let '(b, sc') := recent_mail cfg w project i sc in
  scan_ok rs sc' ∧ grows sc sc' ∧ recent_mail_cache sc' !! i = Some b.
Proof.
  intros Ho. unfold recent_mail. destruct (recent_mail_cache sc !! i) as [b|] eqn:Hi; [done|]. set (sc' := {| inactive_agent_cache := _ |}).
  assert (grows sc sc') as Hgr by (split_and!; [done|by apply insert_subseteq|done|done]).
  split_and!; [|done|by apply lookup_insert_eq]. eapply (scan_ok_grow rs sc sc' Ho Hgr); simpl.
  - apply (so_cache _ _ Ho).
  - apply (so_probes _ _ Ho).
  - apply (so_idle _ _ Ho).
  - intros j b [[<- <-]|[_ Hj]]%lookup_insert_Some; [done|by apply (so_mail _ _ Ho)].
  - apply (so_paths _ _ Ho).
Qed.

Lemma has_recent_path_activity_ok rs sc p :
  history_fixed latest (probe_of p) → 0 ≤ now w → scan_ok rs sc →
  let '(b, sc') := has_recent_path_activity cfg w project workspace head p sc in
  scan_ok rs sc' ∧ grows sc sc' ∧ recent_path_activity_cache sc' !! normalize_path_pattern_key p = Some b.
Proof.
  intros Hf Hn Ho. unfold has_recent_path_activity. set (np := normalize_path_pattern_key p).
  destruct (recent_path_activity_cache sc !! np) as [b|] eqn:Hi; [done|].
  destruct (so_probes _ _ Ho) as [qs Hc]. pose proof (ask_result latest _ _ (probe_of p) Hc Hf Hn) as Ha. unfold ask in Ha.
  change (path_has_recent_activity_cached (p_disk (probe_of p)) (probe_cache sc) (p_workspace (probe_of p)) (p_project (probe_of p))
    (p_pattern (probe_of p)) (p_head (probe_of p)) (p_now (probe_of p)) (p_grace (probe_of p)))
    with (path_has_recent_activity_cached (disk_at w np) (probe_cache sc) workspace project np head (now w) (grace_us cfg)) in Ha.
  destruct (path_has_recent_activity_cached _ _ _ _ _ _ _ _) as [b pc]. destruct Ha as (Hc' & Hb & Hb').
  set (sc' := {| inactive_agent_cache := _ |}).
  assert (grows sc sc') as Hgr by (split_and!; [done|done|by apply insert_subseteq|done]).
  split_and!; [|done|by apply lookup_insert_eq]. eapply (scan_ok_grow rs sc sc' Ho Hgr); simpl.
  - apply (so_cache _ _ Ho).
  - exists (qs ++ [p]). by rewrite !fmap_app, (assoc_L (++)).
  - apply (so_idle _ _ Ho).
  - apply (so_mail _ _ Ho).
  - intros q b' [[Hq <-]|[_ Hj]]%lookup_insert_Some; [|by apply (so_paths _ _ Ho)].
    assert (probe_of q = probe_of p) as Heq by (unfold probe_of; unfold np in Hq; by rewrite Hq).
    unfold busy, busy_lately. rewrite Heq. destruct b.
    + destruct (Hb' eq_refl) as [?|(p0 & Hin & Hk & Hs & Ht)]; [by left|]. right. exists p0. split; [|done].
      apply elem_of_app in Hin as [?|Hin]; [by left|]. right. apply list_elem_of_fmap in Hin as (p1 & [= ->] & Hin).
      apply list_elem_of_fmap in Hin as (q1 & -> & _). by exists q1.
    + apply not_true_iff_false. intros Hfr. by specialize (Hb Hfr).
Qed.

Lemma scan_ok_keep rs sc r : scan_ok rs sc → keep sc r → scan_ok (rs ++ [r]) sc.
Proof.
  intros [] Hk. split; [done..| |].
  - intros id (r' & ? & ?)%so_stale0. exists r'. split; [apply elem_of_app; by left|done].
  - intros r' [?|Hr%list_elem_of_singleton]%elem_of_app; [by apply so_rows0|]. subst r'. by left.
Qed.

Lemma scan_ok_push rs sc r : scan_ok rs sc → drop_it sc r → scan_ok (rs ++ [r]) (push_stale (fr_id r) sc).
Proof.
  intros [] Hk. split; simpl; [done..| |].
  - intros id [(r' & ? & ?)%so_stale0|Hid]%elem_of_app.
    + exists r'. split; [apply elem_of_app; by left|done].
    + exists r. split; [apply elem_of_app; right; left|]. split; [|done]. destruct (fr_id r); simpl in Hid; [|by apply elem_of_nil in Hid].
      apply list_elem_of_singleton in Hid. by subst.
  - intros r' [Hr|Hr%list_elem_of_singleton]%elem_of_app.
    + apply so_rows0 in Hr as [?|Hr]; [by left|]. right. intros id Hid. apply elem_of_app. left. by apply Hr.
    + subst r'. right. intros id ->. apply elem_of_app. right. left.
Qed.

Hypothesis views : views_of w.
Hypothesis histories : ∀ p, history_fixed latest (probe_of p).
Hypothesis now_nonneg : 0 ≤ now w.

Lemma scan_row_ok rs sc r :
  scan_ok rs sc → scan_ok (rs ++ [r]) (scan_row scope_fingerprint scope cfg w project workspace head sc r).
Proof.
  intros Ho. unfold scan_row. pose proof (agent_inactive_ok rs sc (fr_agent_id r) views Ho) as Hi.
  destruct (agent_inactive _ _ _ _ _ _) as [b sc1]. destruct Hi as (Ho1 & _ & Hi). destruct b; simpl; [|apply scan_ok_keep; [done|by left]].
  pose proof (recent_mail_ok rs sc1 (fr_agent_id r) Ho1) as Hm.
  destruct (recent_mail _ _ _ _ _) as [b sc2]. destruct Hm as (Ho2 & (G1 & _) & Hm). destruct b; [apply scan_ok_keep; [done|by right; left]|].
  pose proof (has_recent_path_activity_ok rs sc2 (fr_path_pattern r) (histories _) now_nonneg Ho2) as Hp.
  destruct (has_recent_path_activity _ _ _ _ _ _ _) as [b sc3]. destruct Hp as (Ho3 & (G2 & G3 & _) & Hp).
  destruct b; [apply scan_ok_keep; [done|by right; right]|]. apply scan_ok_push; [done|].
  split_and!; [eapply lookup_weaken; [eapply lookup_weaken; [exact Hi|exact G1]|exact G2]|by eapply lookup_weaken|done].
Qed.

Lemma scan_rows_ok rs c pc :
  cache_seen scope_fingerprint scope V c → probes_known pc →
  scan_ok rs (scan_rows scope_fingerprint scope cfg w project workspace head rs c pc).
Proof.
  intros Hc Hpc. unfold scan_rows. induction rs as [|r rs IH] using rev_ind.
  - split; simpl; try done.
    + intros id Hid. by apply elem_of_nil in Hid.
    + intros r Hr. by apply elem_of_nil in Hr.
  - rewrite foldl_app. by apply scan_row_ok.
Qed.

(** Whose reservations are abandoned.  One decision is taken for each agent
    and each pattern, and a reservation is marked stale exactly when its agent
    looks gone, did not send or handle mail within the grace period, and no
    file or commit under its pattern is that recent; an agent whose row cannot
    be read, an exempt one, and one that was active lately are never gone. *)
Theorem stale_scan_spec rs c pc :
  cache_seen scope_fingerprint scope V c → probes_known pc →
  let stale := stale_ids (scan_rows scope_fingerprint scope cfg w project workspace head rs c pc) in
  (∀ id, id ∈ stale → ∃ r, r ∈ rs ∧ fr_id r = Some id ∧ gone (fr_agent_id r) ∧ mailed cfg w project (fr_agent_id r) = false ∧
     fresh_answer (probe_of (fr_path_pattern r)) = false) ∧
  (∀ r id, r ∈ rs → fr_id r = Some id →
     id ∈ stale ∨ present (fr_agent_id r) ∨ mailed cfg w project (fr_agent_id r) = true ∨ busy (fr_path_pattern r)).
Proof.
  intros Hc Hpc. pose proof (scan_rows_ok rs c pc Hc Hpc) as Ho. simpl. split.
  - intros id (r & ? & ? & Hi & Hm & Hp)%(so_stale _ _ Ho). exists r.
    apply (so_idle _ _ Ho) in Hi. apply (so_mail _ _ Ho) in Hm. by apply (so_paths _ _ Ho) in Hp.
  - intros r id [[Hi|[Hm|Hp]]|Hr]%(so_rows _ _ Ho) Hid.
    + right; left. by apply (so_idle _ _ Ho) in Hi.
    + right; right; left. by apply (so_mail _ _ Ho) in Hm.
    + right; right; right. by apply (so_paths _ _ Ho) in Hp.
    + left. by apply Hr.
Qed.
End scan.

(** ** Releases *)

Section releases.
Implicit Types d : Db.

(** Rows keep their identity, and only ever become inactive. *)
Definition wanes d d' : Prop :=
  Forall2 (λ r r', same_identity r r' ∧ (active d' r' = true → r' = r ∧ active d r = true)) (rows d) (rows d').

Lemma wanes_refl d : wanes d d.
Proof. apply Forall_Forall2_diag, Forall_forall. done. Qed.

Lemma wanes_trans d1 d2 d3 : wanes d1 d2 → wanes d2 d3 → wanes d1 d3.
Proof.
  intros H12 H23. eapply Forall2_trans; [|exact H12|exact H23]. simpl. intros r1 r2 r3 [I12 A12] [I23 A23].
  split; [by eapply same_identity_trans|]. intros Ha. destruct (A23 Ha) as [-> Ha2]. by apply A12.
Qed.

Lemma wanes_ids d d' : wanes d d' → row_id <$> rows d' = row_id <$> rows d.
Proof. unfold wanes. induction 1 as [|r r' l l' [[Hid _] _] _ IH]; [done|]. rewrite !fmap_cons. by rewrite Hid, IH. Qed.

Lemma wanes_active d d' r : wanes d d' → r ∈ rows d' → active d' r = true → r ∈ rows d ∧ active d r = true.
Proof.
  intros Hf [i Hi]%list_elem_of_lookup Ha. destruct (Forall2_lookup_r _ _ _ _ _ Hf Hi) as (r0 & Hr0 & _ & He).
  destruct (He Ha) as [-> ?]. split; [by eapply list_elem_of_lookup_2|done].
Qed.

(** A release by identifiers. *)
Lemma release_constrained_result marker ids c d :
  ∃ ms d', release_reservations_by_ids_with_expiry_constraint marker ids c d = (Ok ms, d') ∧ wanes d d' ∧
    (∀ id, id ∈ marker_id <$> ms ↔ id ∈ ids ∧ eligible_id c d id) ∧
    (∀ r, r ∈ rows d → row_id r ∉ ids → r ∈ rows d' ∧ active d' r = active d r) ∧
    (∀ r, r ∈ rows d' → row_id r ∈ ids → active d' r = true → ¬ eligible_id c d (row_id r)) ∧
    (ms = [] → d' = d).
Proof.
  unfold release_reservations_by_ids_with_expiry_constraint. case_bool_decide as Hids.
  - exists [], d. subst. split_and!; [done|apply wanes_refl|set_solver|done| |done]. by intros r _ []%elem_of_nil.
  - destruct (release_loop c marker ids d) as [ms d'] eqn:Hl. pose proof Hl as Hl'. apply release_loop_spec in Hl as (_ & Hm & Hr & _ & Ha & _).
    exists ms, d'. split; [done|]. split_and!.
    + unfold wanes. rewrite Hr. apply Forall2_fmap_r, Forall_Forall2_diag, Forall_forall. intros r _. split; [apply mark_identity|].
      rewrite Ha. intros [Hact Hnm%bool_decide_eq_true]%andb_true_iff. split; [|done]. unfold mark. by rewrite marker_of_none.
    + done.
    + intros r Hin Hnin. assert (row_id r ∉ marker_id <$> ms) as Hnm by (intros Hid; by apply Hm in Hid as [? _]).
      assert (mark ms r = r) as Hmark by (unfold mark; by rewrite marker_of_none). split.
      * rewrite Hr. apply list_elem_of_fmap. by exists r.
      * pose proof (Ha r) as Har. rewrite Hmark, bool_decide_true, andb_true_r in Har by done. done.
    + intros r' Hin Hid Hact Hel. rewrite Hr in Hin. apply list_elem_of_fmap in Hin as (r & -> & Hin).
      destruct (mark_identity ms r) as (Hrid & _). rewrite Hrid in Hid, Hel. rewrite Ha in Hact.
      apply andb_true_iff in Hact as [_ Hn%bool_decide_eq_true]. apply Hn, Hm. by split.
    + intros ->. clear - Hl'. revert Hl'. induction ids as [|id ids IH]; cbn [release_loop]; [by intros [= <-]|].
      case_bool_decide; [destruct (release_loop _ _ _ (release_one _ _ _)); congruence|exact IH].
Qed.

Lemma release_by_ids_result marker ids c d :
  ∃ ms d', release_reservations_by_ids_matching_expiry marker ids c d = (Ok ms, d') ∧ wanes d d' ∧
    (∀ id, id ∈ marker_id <$> ms → id ∈ ids) ∧
    (∀ r, r ∈ rows d → row_id r ∉ ids → r ∈ rows d' ∧ active d' r = active d r) ∧
    (∀ r, r ∈ rows d' → row_id r ∈ ids → active d' r = true → ¬ eligible_id (from_option OnOrBefore Any c) d (row_id r)).
Proof.
  destruct (release_constrained_result marker ids (from_option OnOrBefore Any c) d) as (ms & d' & ? & ? & Hm & ? & ? & _).
  exists ms, d'. split_and!; try done. by intros id [? _]%Hm.
Qed.

Lemma release_expired_result env now project clock d :
  undisturbed env →
  ∃ ids d', release_expired_reservations env now project clock d = (Ok ids, d') ∧ wanes d d' ∧
    (∀ id, id ∈ ids → id ∈ select_expired now project d) ∧
    (∀ r, r ∈ rows d → row_id r ∉ select_expired now project d → r ∈ rows d' ∧ active d' r = active d r) ∧
    (∀ r, r ∈ rows d' → project_id r = project → expires_ts r ≤ now → active d' r = false).
Proof.
  intros Hu. unfold release_expired_reservations.
  assert (∀ r d', wanes d d' → r ∈ rows d' → project_id r = project → expires_ts r ≤ now → active d' r = true →
    row_id r ∈ select_expired now project d ∧ eligible_id (OnOrBefore now) d (row_id r)) as Hsel.
  { intros r d' Hw Hin Hp He Ha. destruct (wanes_active _ _ _ Hw Hin Ha) as [Hin' Ha']. split.
    - unfold select_expired. apply list_elem_of_fmap. exists r. split; [done|]. by apply list_elem_of_filter.
    - apply Exists_exists. by exists r. }
  destruct (select_expired now project d) as [|i ids] eqn:He.
  - exists [], d. split_and!; [done|apply wanes_refl|by intros ? ?%elem_of_nil|done|]. intros r Hin Hp Hx. apply not_true_iff_false. intros Ha.
    destruct (Hsel r d (wanes_refl d) Hin Hp Hx Ha) as [[]%elem_of_nil _].
  - rewrite Hu. destruct (release_by_ids_result (tick env clock) (i :: ids) (Some now) d) as (ms & d' & -> & Hw & Hms & Hsp & Hdone).
    exists (marker_id <$> ms), d'. split_and!; [done|done|done|done|]. intros r Hin Hp Hx. apply not_true_iff_false. intros Ha.
    destruct (Hsel r d' Hw Hin Hp Hx Ha) as [Hid Hel]. by apply (Hdone r Hin Hid Ha).
Qed.
End releases.

(** ** The cycle *)

Section cycle.
Context (decode_listed : Cell → option (option Z)) `{CellDecode} `{Globset}.
Context (scope_fingerprint : str → Z) (scope : str) (cfg : Config) (latest : Z → str → str → option Z) (V : Z → ReadCache.AgentRow → Prop).
Abbreviation clean_project := (clean_project decode_listed scope_fingerprint scope cfg).

(** Nobody else writes reservations meanwhile. *)
Definition calm (w : World) : Prop := undisturbed (env w) ∧ ∀ d, before_listing w d = d.

(** The probe of a pattern in a project's workspace. *)
Definition question (w : World) (project : Z) (ws path_pattern : str) : Probe :=
  probe_of cfg w project ws (git_head_oid_for_workspace (head_disk w) ws) path_pattern.

(** What is taken of the world: the latest commit of a pattern is fixed by
    HEAD, and the clock is past the epoch. *)
Definition world_ok (w : World) (project : Z) : Prop :=
  calm w ∧ (∀ ws p, history_fixed latest (question w project ws p)) ∧ 0 ≤ now w.

(** The holder of a reservation shows a sign of life: none of its rows that can
    be seen is inactive, or its mail was found, or its work is. *)
Definition alive (w : World) (r : StoredRow) : Prop :=
  (∀ a, V (agent_id r) a → inactive cfg w (Some a) = false) ∨ mailed cfg w (project_id r) (agent_id r) = true ∨
  ∀ ws, fresh_answer (question w (project_id r) ws (path_pattern r)) = true.

(** What a cycle keeps between projects. *)
Record state_ok (s : State) : Prop := {
  st_ids : NoDup (row_id <$> rows (reservations s));
  st_cache : cache_seen scope_fingerprint scope V (cache s);
  st_probes : ∃ evs, cache_ok latest evs (probes s);
}.

Lemma list_unreleased_row project d out fr :
  list_unreleased_file_reservations decode_listed project d = Some out → fr ∈ out →
  ∃ r, r ∈ rows d ∧ project_id r = project ∧ active d r = true ∧ fr_id fr = Some (row_id r) ∧ fr_agent_id fr = agent_id r ∧
    fr_path_pattern fr = path_pattern r.
Proof.
  unfold list_unreleased_file_reservations. intros Hm Hin. apply mapM_Some in Hm. apply list_elem_of_lookup in Hin as [i Hi].
  destruct (Forall2_lookup_r _ _ _ _ _ Hm Hi) as (r & Hr & (rel & _ & [= <-])%bind_Some).
  apply list_elem_of_lookup_2, list_elem_of_filter in Hr as [[? ?] ?]. by exists r.
Qed.

Lemma row_id_inj d r1 r2 :
  NoDup (row_id <$> rows d) → r1 ∈ rows d → r2 ∈ rows d → row_id r1 = row_id r2 → r1 = r2.
Proof.
  intros Hnd [i Hi]%list_elem_of_lookup [j Hj]%list_elem_of_lookup E.
  assert (i = j) as ->; [|congruence]. eapply NoDup_lookup; [exact Hnd|..].
  - rewrite list_lookup_fmap, Hi. done.
  - rewrite list_lookup_fmap, Hj. simpl. by rewrite E.
Qed.

(** The second phase of a project: the cache stays good, rows only wane, and
    those with a living holder, or of other projects, are spared. *)
Lemma detect_and_release_stale_result w project s :
  world_ok w project → views_of V w → state_ok s →
  let s' := (detect_and_release_stale decode_listed scope_fingerprint scope cfg w project s).2 in
  state_ok s' ∧ wanes (reservations s) (reservations s') ∧
  ∀ r, r ∈ rows (reservations s) → (project_id r = project → active (reservations s) r = true → alive w r) →
    r ∈ rows (reservations s') ∧ active (reservations s') r = active (reservations s) r.
Proof.
  intros ((Hu & Hb) & Hh & Hn) Hv Hs. unfold detect_and_release_stale. rewrite Hb. set (d := reservations s).
  destruct (active_reservations_for_stale_cleanup _ w project d) as [active_rows|] eqn:Hl; [|split_and!; [by destruct Hs|apply wanes_refl|done]].
  destruct active_rows as [|r0 active_rows]; [split_and!; [by destruct Hs|apply wanes_refl|done]|].
  destruct (stale_cleanup_workspace w) as [ws|]; [|split_and!; [by destruct Hs|apply wanes_refl|done]].
  set (all := r0 :: active_rows) in *. set (head := git_head_oid_for_workspace (head_disk w) ws).
  destruct (st_probes _ Hs) as [evs Hevs].
  assert (probes_known cfg w project ws head latest evs (probes s)) as Hk by (exists []; simpl; by rewrite app_nil_r).
  pose proof (scan_rows_ok scope_fingerprint scope cfg w project ws head V latest evs Hv (Hh ws) Hn all _ _ (st_cache _ Hs) Hk) as Ho.
  set (sc := scan_rows _ _ _ _ _ _ _ _ _ _) in *.
  assert (state_ok {| reservations := d; cache := agent_cache sc; probes := probe_cache sc |}) as Hsc.
  { split; simpl; [by destruct Hs|apply (so_cache _ _ _ _ _ _ _ _ _ _ _ _ Ho)|]. destruct (so_probes _ _ _ _ _ _ _ _ _ _ _ _ Ho). by eexists. }
  destruct (stale_ids sc) as [|i ids] eqn:Hids; [split_and!; [done|apply wanes_refl|done]|].
  rewrite Hu. destruct (released_ok w); simpl; [|split_and!; [done|apply wanes_refl|done]].
  destruct (release_by_ids_result (tick (env w) (clock w)) (i :: ids) None d) as (ms & d' & -> & Hw & _ & Hsp & _). simpl.
  split_and!.
  - split; simpl; [|apply Hsc..]. rewrite (wanes_ids _ _ Hw). apply Hs.
  - done.
  - intros r Hin Hal. apply Hsp; [done|]. rewrite <-Hids. intros Hid.
    destruct (so_stale _ _ _ _ _ _ _ _ _ _ _ _ Ho _ Hid) as (fr & Hfr & Hfid & Hgone & Hmail & Hpath).
    unfold active_reservations_for_stale_cleanup in Hl. destruct (listed_ok w); [|done]. apply fmap_Some in Hl as (out & Hout & Hall).
    assert (fr ∈ out) as Hfr' by (rewrite Hall in Hfr; by apply list_elem_of_filter in Hfr as [_ ?]).
    destruct (list_unreleased_row _ _ _ _ Hout Hfr') as (r' & Hin' & Hp & Hact & Hid' & Hag & Hpat).
    assert (r' = r) as -> by (eapply row_id_inj; [apply Hs|done|done|congruence]).
    rewrite Hag in Hgone, Hmail. rewrite Hpat in Hpath. destruct (Hal Hp Hact) as [Hrecent|[Hm|Hf]].
    + apply (so_idle _ _ _ _ _ _ _ _ _ _ _ _ Ho) in Hgone as (a & Ha & Hina). rewrite (Hrecent a Ha) in Hina. done.
    + apply (so_mail _ _ _ _ _ _ _ _ _ _ _ _ Ho) in Hmail. rewrite Hp in Hm. congruence.
    + apply (so_paths _ _ _ _ _ _ _ _ _ _ _ _ Ho) in Hpath. simpl in Hpath. specialize (Hf ws). rewrite Hp in Hf.
      unfold question in Hf. fold head in Hf. congruence.
Qed.

(** Both phases. *)
Lemma clean_project_result w project s :
  world_ok w project → views_of V w → state_ok s →
  let s' := (clean_project w project s).2 in
  state_ok s' ∧ wanes (reservations s) (reservations s') ∧
  (∀ r, r ∈ rows (reservations s) →
     (project_id r = project → active (reservations s) r = true → now_expired w < expires_ts r ∧ alive w r) →
     r ∈ rows (reservations s') ∧ active (reservations s') r = active (reservations s) r) ∧
  (expired_ok w = true → ∀ r, r ∈ rows (reservations s') → project_id r = project → expires_ts r ≤ now_expired w →
     active (reservations s') r = false).
Proof.
  intros Hw Hv Hs. unfold Cleanup.clean_project.
  destruct (release_expired_result (env w) (now_expired w) project (clock w) (reservations s)) as (ids & d' & He & Hwn & _ & Hsp & Hdone).
  { by destruct Hw as [[? _] _]. }
  set (p := if expired_ok w then _ else _). assert (∃ ids' d1, p = (ids', d1) ∧ wanes (reservations s) d1 ∧
    (∀ r, r ∈ rows (reservations s) → row_id r ∉ select_expired (now_expired w) project (reservations s) → r ∈ rows d1 ∧ active d1 r = active (reservations s) r) ∧
    (expired_ok w = true → ∀ r, r ∈ rows d1 → project_id r = project → expires_ts r ≤ now_expired w → active d1 r = false))
    as (ids' & d1 & -> & Hwn1 & Hsp1 & Hdone1).
  { unfold p. destruct (expired_ok w); [rewrite He; by exists ids, d'|]. exists [], (reservations s). split_and!; [done|apply wanes_refl|done|done]. }
  clear He Hwn Hsp Hdone. set (s1 := {| reservations := d1; cache := _; probes := _ |}).
  assert (state_ok s1) as Hs1 by (split; simpl; [rewrite (wanes_ids _ _ Hwn1)|..]; apply Hs).
  destruct (detect_and_release_stale_result w project s1 Hw Hv Hs1) as (Hs2 & Hwn2 & Hsp2).
  destruct (detect_and_release_stale _ _ _ _ w project s1) as [stale s2]. simpl in *. split_and!; [done|by eapply wanes_trans| |].
  - intros r Hin Hal. assert (row_id r ∉ select_expired (now_expired w) project (reservations s)) as Hne.
    { intros (r' & Hid & [(Hp & Ha & Hx) Hin']%list_elem_of_filter)%list_elem_of_fmap.
      assert (r' = r) as -> by (eapply row_id_inj; [apply Hs|done|done|congruence]). destruct (Hal Hp Ha) as [? _]. lia. }
    destruct (Hsp1 r Hin Hne) as [Hin1 Ha1]. rewrite <-Ha1. apply Hsp2; [done|]. intros Hp Ha. apply Hal; [done|]. by rewrite <-Ha1.
  - intros Hok r Hin Hp Hx. apply not_true_iff_false. intros Ha. destruct (wanes_active _ _ _ Hwn2 Hin Ha) as [Hin1 Ha1].
    by rewrite (Hdone1 Hok r Hin1 Hp Hx) in Ha1.
Qed.

Lemma clean_projects_result world projects s :
  (∀ p, world_ok (world p) p) → (∀ p, views_of V (world p)) → state_ok s →
  let s' := (clean_projects decode_listed scope_fingerprint scope cfg world projects s).2 in
  wanes (reservations s) (reservations s') ∧
  (∀ r, r ∈ rows (reservations s) → active (reservations s) r = true →
     now_expired (world (project_id r)) < expires_ts r → alive (world (project_id r)) r →
     r ∈ rows (reservations s') ∧ active (reservations s') r = true) ∧
  (∀ r, r ∈ rows (reservations s') → project_id r ∈ projects → expired_ok (world (project_id r)) = true →
     expires_ts r ≤ now_expired (world (project_id r)) → active (reservations s') r = false).
Proof.
  intros Hw Hv. revert s. induction projects as [|p projects IH]; intros s Hs; cbn [clean_projects].
  { split_and!; [apply wanes_refl|done|]. by intros r _ []%elem_of_nil. }
  destruct (clean_project_result (world p) p s (Hw p) (Hv p) Hs) as (Hs1 & Hwn1 & Hsp1 & Hdone1).
  destruct (Cleanup.clean_project _ _ _ _ (world p) p s) as [rel s1]. specialize (IH s1 Hs1).
  destruct (clean_projects _ _ _ _ world projects s1) as [more s2]. destruct IH as (Hwn2 & Hsp2 & Hdone2). simpl in *.
  split_and!; [by eapply wanes_trans| |].
  - intros r Hin Ha Hx Hal. destruct (Hsp1 r Hin) as [Hin1 Ha1]; [by intros <- _|]. apply Hsp2; [done|congruence|done|done].
  - intros r Hin [Hp|Hp]%elem_of_cons Hok Hx; [|by apply Hdone2]. apply not_true_iff_false. intros Ha.
    destruct (wanes_active _ _ _ Hwn2 Hin Ha) as [Hin1 Ha1]. rewrite Hp in Hok, Hx. by rewrite (Hdone1 Hok r Hin1 Hp Hx) in Ha1.
Qed.
End cycle.

Section cleanup.
Context (decode_listed : Cell → option (option Z)) `{CellDecode} `{Globset}.
Context (scope_fingerprint : str → Z) (scope : str) (cfg : Config).
Abbreviation fp := (scope_fingerprint scope).

(** The rows of an agent a cycle may go by: the one in the cache when it
    starts, and those its lookups find in the table. *)
Definition view (s : State) (world : Z → World) (i : Z) (a : ReadCache.AgentRow) : Prop :=
  by_id scope_fingerprint scope i (cache s) = Some a ∨
  ∃ p, agent_ok (world p) i = true ∧ AgentLookup.select_by_id i (agents_at (world p) i) = Some a.

Definition cycle (world : Z → World) (end_now : Z) (s : State) : State :=
  (run_cleanup_cycle_with_cache decode_listed scope_fingerprint scope cfg true world end_now s).2.

Lemma initial_state_ok latest evs world s :
  NoDup (row_id <$> rows (reservations s)) → S3FifoFacts.wf (ReadCache.agents_by_id (cache s)) → cache_ok latest evs (probes s) →
  state_ok scope_fingerprint scope latest (view s world) s.
Proof.
  intros Hnd Hwf Hc. split; [done| |by exists evs]. split; [done|]. intros k e He i ->. left. unfold by_id. by rewrite He.
Qed.

Lemma view_views s world p : views_of (view s world) (world p).
Proof. intros i a ? ?. right. by exists p. Qed.


(** What has expired is released.  After a cycle that no other writer
    disturbs, no reservation is active whose time was over when its project's
    turn came and the release did not fail. *)
Theorem cleanup_releases_the_expired latest evs world end_now s r :
  NoDup (row_id <$> rows (reservations s)) → S3FifoFacts.wf (ReadCache.agents_by_id (cache s)) → cache_ok latest evs (probes s) →
  (∀ p, world_ok cfg latest (world p) p) →
  r ∈ rows (reservations (cycle world end_now s)) → expired_ok (world (project_id r)) = true →
  expires_ts r ≤ now_expired (world (project_id r)) →
  active (reservations (cycle world end_now s)) r = false.
Proof.
  intros Hnd Hwf Hc Hw. unfold cycle, run_cleanup_cycle_with_cache. cbn [negb].
  pose proof (clean_projects_result decode_listed scope_fingerprint scope cfg latest (view s world) world
    (project_ids_with_active_reservations (reservations s)) s Hw (view_views s world) (initial_state_ok latest evs world s Hnd Hwf Hc)) as (Hwn & _ & Hdone).
  destruct (clean_projects _ _ _ _ _ _ _) as [rel s']. cbn [reservations snd] in *. intros Hin Hok Hx. apply not_true_iff_false. intros Ha.
  assert (project_id r ∈ project_ids_with_active_reservations (reservations s)) as Hp.
  { destruct (wanes_active _ _ _ Hwn Hin Ha) as [Hin0 Ha0]. unfold project_ids_with_active_reservations.
    apply elem_of_remove_dups, list_elem_of_fmap. exists r. split; [done|]. by apply list_elem_of_filter. }
  by rewrite (Hdone r Hin Hp Hok Hx) in Ha.
Qed.
End cleanup.

(** ** Runs *)

Module CleanupRuns.
#[local] Existing Instance RefGlob.ref_globset.
#[local] Instance decode : CellDecode := λ _, Some None.

Definition listed : Cell → option (option Z) := λ _, Some None.
Definition fingerprint (s : str) : Z := Zpos (encode s).
Definition scope : str := lit "storage.sqlite3".
Definition cfg : Config := {| file_reservation_inactivity_seconds := 1800; file_reservation_activity_grace_seconds := 900 |}.

Definition minute : Z := 60 * 1000000.

(** A workspace where nothing was changed for long. *)
Definition quiet : Disk :=
  {| path_exists _ := true; is_dir _ := false; is_file _ := false; modified_us _ := Some 0; walk_dir _ := [];
     ls_files _ _ := Some ([lit "src/a.rs"], true); rev_parse_head _ := None; git_log _ _ := None |}.

Definition blue_lake (seen_at : Z) : ReadCache.AgentRow :=
  {| ReadCache.id := Some 5; ReadCache.project_id := 1; ReadCache.name := lit "BlueLake"; ReadCache.program := lit "cli"; ReadCache.model := lit "m";
     ReadCache.task_description := []; ReadCache.inception_ts := 0; ReadCache.last_active_ts := seen_at; ReadCache.attachments_policy := lit "auto";
     ReadCache.contact_policy := lit "open"; ReadCache.reaper_exempt := 0; ReadCache.registration_token := None |}.

Definition archive : Archive :=
  {| project_found := true; rows_found := true; fresh_name _ := Some (lit "BlueLake"); enqueued := WriteBehindQueue.Enqueued; sync_ok := true |}.

(** The world at a minute, in which the table has the agent last active at
    another. *)
Definition world_at (n seen_at : Z) (_ : Z) : World :=
  {| before_listing d := d; env := {| interfere _ d := d; tick := Z.succ |}; clock := n * minute; expired_ok := true;
     now_expired := n * minute; now := n * minute; listed_ok := true; human_key := Some (lit "/w"); agent_ok _ := true;
     instant _ := n * 60 * 1000000000; agents_at _ := [blue_lake (seen_at * minute)]; mail_ok _ := true; mail_at _ := Mail.empty_db ∅;
     head_disk := quiet; disk_at _ := quiet; released_ok := true; expired_archive := archive; stale_archive := archive |}.

Definition held (expires : Z) : StoredRow :=
  {| row_id := 1; project_id := 1; agent_id := 5; path_pattern := lit "src/*.rs"; exclusive := 1; reason := []; created_ts := 0;
     expires_ts := expires * minute; released_ts := CNull |}.

Definition start (expires : Z) (c : ReadCache.ReadCache) : State :=
  {| reservations := {| rows := [held expires]; releases := ∅; sequence := 1 |}; cache := c; probes := ∅ |}.

(** A cycle a minute, while the agent is seen every minute. *)
Definition minutes (ns : list Z) (s : State) : State := foldl (λ s n, cycle listed fingerprint scope cfg (world_at n n) (n * minute) s) s ns.

Definition cached (expires : Z) (ns : list Z) : option State := c ← ReadCache.with_capacity 8; Some (minutes ns (start expires c)).

Definition holds (s : State) : bool := forallb (active (reservations s)) (rows (reservations s)).

Lemma holds_views : holds <$> cached 60 (seqZ 0 31) = Some true ∧ holds <$> cached 60 (seqZ 0 32) = Some false.
Proof. split; vm_compute; reflexivity. Qed.

(** An agent at work loses its files.  There is a run of a cycle each
    minute in which the agents' table has the holder active in every one of
    them, and half an hour in its reservation, good for half an hour more, is
    released: the worker goes by the row it read first, since its own lookups
    keep that row in the cache. *)
Theorem active_agent_loses_files :
  ∃ c, ReadCache.with_capacity 8 = Some c ∧
    (∀ n a, AgentLookup.select_by_id 5 (agents_at (world_at n n 1) 5) = Some a →
       0 ≤ n ≤ 60 → inactive cfg (world_at n n 1) (Some a) = false) ∧
    rows (reservations (start 60 c)) = [held 60] ∧ now (world_at 31 31 1) < expires_ts (held 60) ∧
    holds (minutes (seqZ 0 31) (start 60 c)) = true ∧ holds (minutes (seqZ 0 32) (start 60 c)) = false.
Proof.
  pose proof holds_views as [H1 H2]. unfold cached in *. destruct (ReadCache.with_capacity 8) as [c|]; [|discriminate H1].
  change (Some (holds (minutes (seqZ 0 31) (start 60 c))) = Some true) in H1.
  change (Some (holds (minutes (seqZ 0 32) (start 60 c))) = Some false) in H2.
  exists c. split_and!; [done| |done|done|congruence|congruence]. intros n a [= <-] Hn. unfold inactive. simpl.
  apply Z.ltb_ge. unfold i64_saturating_sub. rewrite Z.sub_diag. by vm_compute.
Qed.

Lemma world_at_ok n seen_at p : 0 ≤ n → world_ok cfg (λ _ _ _, None) (world_at n seen_at p) p.
Proof. intros Hn. split_and!; [split; [by intros ? ?|done]|by intros ws q h Hh|]. simpl. unfold minute. lia. Qed.

Lemma start_ok expires c :
  ReadCache.with_capacity 8 = Some c →
  NoDup (row_id <$> rows (reservations (start expires c))) ∧ S3FifoFacts.wf (ReadCache.agents_by_id (cache (start expires c))) ∧
  cache_ok (λ _ _ _, None) [] (probes (start expires c)).
Proof.
  intros Hc. split_and!; [by repeat constructor; apply not_elem_of_nil|apply (CacheRuns.with_capacity_wf 8 c Hc); by vm_compute|done].
Qed.

(** A new cache, and what a cycle leaves. *)
Lemma first_views :
  (λ c, by_id fingerprint scope 5 c) <$> ReadCache.with_capacity 8 = Some None ∧
  (λ c, row_id <$> rows (reservations (cycle listed fingerprint scope cfg (world_at 70 70) (70 * minute) (start 60 c)))) <$> ReadCache.with_capacity 8
    = Some [1] ∧
  (λ c, expires_ts <$> rows (reservations (cycle listed fingerprint scope cfg (world_at 70 70) (70 * minute) (start 60 c)))) <$> ReadCache.with_capacity 8
    = Some [60 * minute].
Proof. split_and!; vm_compute; reflexivity. Qed.


Example cleanup_releases_the_expired_witness :
  ∃ c r, ReadCache.with_capacity 8 = Some c ∧ active (reservations (start 60 c)) (held 60) = true ∧
    r ∈ rows (reservations (cycle listed fingerprint scope cfg (world_at 70 70) (70 * minute) (start 60 c))) ∧ row_id r = 1 ∧
    active (reservations (cycle listed fingerprint scope cfg (world_at 70 70) (70 * minute) (start 60 c))) r = false.
Proof.
  pose proof first_views as (_ & Hi & Hx). destruct (ReadCache.with_capacity 8) as [c|] eqn:Hc; [|discriminate Hi].
  set (d := rows (reservations (cycle listed fingerprint scope cfg (world_at 70 70) (70 * minute) (start 60 c)))).
  change (Some (row_id <$> d) = Some [1]) in Hi. change (Some (expires_ts <$> d) = Some [60 * minute]) in Hx.
  apply (inj Some) in Hi, Hx. destruct d as [|r rs] eqn:Hr; [discriminate Hi|]. rewrite fmap_cons in Hi, Hx.
  apply (f_equal (hd 0)) in Hi, Hx. cbn [hd] in Hi, Hx. exists c, r. destruct (start_ok 60 c Hc) as (H1 & H2 & H3). unfold d in Hr. rewrite Hr.
  split; [reflexivity|]. split; [reflexivity|]. split; [by left|]. split; [exact Hi|].
  apply (cleanup_releases_the_expired listed fingerprint scope cfg (λ _ _ _, None) [] (world_at 70 70) (70 * minute) (start 60 c) r H1 H2 H3).
  - intros p. by apply world_at_ok.
  - rewrite Hr. by left.
  - reflexivity.
  - simpl. rewrite Hx. by vm_compute.
Defined.

(** The row of the held reservation as the scan sees it. *)
Definition held_row : FileReservationRow :=
  {| fr_id := Some 1; fr_project_id := 1; fr_agent_id := 5; fr_path_pattern := lit "src/*.rs"; fr_exclusive := 1; fr_reason := []; fr_created_ts := 0;
     fr_expires_ts := 60 * minute; fr_released_ts := None |}.

Definition scan_at (n seen_at : Z) (c : ReadCache.ReadCache) : list Z :=
  stale_ids (scan_rows fingerprint scope cfg (world_at n seen_at 1) 1 (lit "/w") None [held_row] c ∅).

Lemma scan_views : scan_at 50 10 <$> ReadCache.with_capacity 8 = Some [1] ∧ scan_at 50 30 <$> ReadCache.with_capacity 8 = Some [].
Proof. split; vm_compute; reflexivity. Qed.

Example stale_scan_spec_witness :
  ∃ c, ReadCache.with_capacity 8 = Some c ∧ scan_at 50 10 c = [1] ∧
    mailed cfg (world_at 50 10 1) 1 5 = false ∧ fresh_answer (probe_of cfg (world_at 50 10 1) 1 (lit "/w") None (lit "src/*.rs")) = false.
Proof.
  pose proof scan_views as [Hs _]. destruct (ReadCache.with_capacity 8) as [c|] eqn:Hc; [|discriminate Hs]. injection Hs as Hs.
  exists c. split; [reflexivity|]. split; [exact Hs|].
  destruct (stale_scan_spec fingerprint scope cfg (world_at 50 10 1) 1 (lit "/w") None
    (view fingerprint scope (start 60 c) (world_at 50 10)) (λ _ _ _, None) [] (view_views fingerprint scope (start 60 c) (world_at 50 10) 1) (λ _ _, ltac:(discriminate))
    ltac:(by vm_compute) [held_row] c ∅) as [Hall _].
  - apply (initial_state_ok fingerprint scope (λ _ _ _, None) [] (world_at 50 10) (start 60 c)); by apply start_ok.
  - by exists [].
  - destruct (Hall 1) as (r & Hr & _ & _ & Hm & Hf); [fold (scan_at 50 10 c); rewrite Hs; by left|].
    apply list_elem_of_singleton in Hr. subst r. by split.
Defined.
End CleanupRuns.
