(* ===== verification/PatternActivity.v ===== *)
(** * What was done on the paths of a reservation
      ([mcp-agent-mail-tools/src/resources.rs], "reservation pattern activity")

    Before a reservation is taken by force, the files its pattern covers are
    looked at: the latest modification time, of the files git lists or of a
    walk of the workspace, and the time of the latest commit.  The file system
    and git are parameters, asked through [Fs]. *)

From stdpp Require Import base numbers tactics list gmap strings.
From S2P Require Import Prelude OverlapDp PatternOverlap CleanupProbes.
Open Scope Z_scope.

Module PatternActivity.

Inductive FileKind := File | Dir | Symlink | Other.

(** One readable entry of a directory; the kind may not be. *)
Record DirEntry := { entry_path : str; file_type : option FileKind }.

(** The answers of the file system and of git at one moment.  [metadata] is
    [Some] of the modification time, in microseconds from the epoch, negative
    before it, where the platform knows one; [ls_files] and [git_log] are what
    a successful run prints. *)
Record Fs := {
  path_exists : str → bool;
  is_dir : str → bool;
  read_dir : str → option (list DirEntry);
  metadata : str → option (option Z);
  discover_workdir : str → option str;
  canonicalize : str → option str;
  ls_files : str → str → option (list str);
  git_log : str → list str → option str;
}.

(** [ReservationPatternActivity]. *)
Record Activity := { pattern_matches : bool; fs_activity_micros : option Z; git_activity_micros : option Z }.
Definition no_activity : Activity := {| pattern_matches := false; fs_activity_micros := None; git_activity_micros := None |}.

(** ** Names *)

Definition reservation_contains_glob (pattern : str) : bool := CleanupProbes.has_glob pattern.

(** [trim_start_matches("./")], which is also the loop over [strip_prefix]. *)
Fixpoint strip_dot_slashes (s : str) : str :=
  match s with
  | a :: (b :: s') as s0 => if (a =? 46)%N && is_slash b then strip_dot_slashes s' else s
  | _ => s
  end.

Definition reservation_normalize_pattern (pattern : str) : str :=
  trim (CleanupProbes.trim_slashes (strip_dot_slashes (trim pattern))).

Definition reservation_path_to_slash_string (path : str) : str := strip_dot_slashes (CleanupProbes.forward_slashes path).

(** [trim_end_matches('/')]. *)
Definition trim_end_slashes (s : str) : str := reverse (CleanupProbes.trim_slashes (reverse s)).

Definition reservation_git_pathspec (workspace_rel normalized_pattern : str) : str :=
  let rel := reservation_path_to_slash_string workspace_rel in
  (if bool_decide (rel = [] ∨ rel = lit ".") then [] else trim_end_slashes rel ++ [ch_slash]) ++
  CleanupProbes.trim_slashes normalized_pattern.

(** ** Times *)

Definition reservation_system_time_to_micros (t : Z) : option Z := if (0 <=? t) && (t <=? i64_max) then Some t else None.

(** [Some(prev.map_or(micros, |prev| prev.max(micros)))]. *)
Definition later (prev : option Z) (micros : Z) : option Z := Some (from_option (λ prev, Z.max prev micros) micros prev).

(** After one more file with these metadata. *)
Definition note_modified (prev modified : option Z) : option Z :=
  match modified ≫= reservation_system_time_to_micros with Some micros => later prev micros | None => prev end.

Section fs.
Context (fs : Fs).

(** ** Commits *)

Definition reservation_git_latest_activity_micros (repo_root : str) (pathspecs : list str) : option Z :=
  foldl (λ best chunk,
    match out ← git_log fs repo_root chunk; parse_i64 (trim out) with
    | Some secs => later best (i64_saturating_mul secs 1000000)
    | None => best
    end) None (chunks 128 pathspecs).

Definition reservation_project_workspace_path (project_human_key : str) : option str :=
  if path_exists fs project_human_key then Some project_human_key else None.

(** The root of the repository a workspace lies in, and its place there. *)
Definition reservation_open_repo_root (workspace : str) : option (str * str) :=
  root ← discover_workdir fs workspace;
  let root_canon := default root (canonicalize fs root) in
  let ws_canon := default workspace (canonicalize fs workspace) in
  rel ← CleanupProbes.strip_base root_canon ws_canon;
  Some (root_canon, rel).

Context `{Globset}.

Definition reservation_glob_matcher (normalized_pattern : str) : option PatternOverlap.GlobMatcher :=
  if glob_build normalized_pattern then Some normalized_pattern else None.

(** ** Walking a directory *)

Definition MAX_VISITED_ENTRIES : Z := 20000.

Record Walk := { visited_entries : Z; matched_any : bool; fs_latest : option Z }.

(** A file that counts for the pattern. *)
Definition accepted (workspace : str) (matcher : PatternOverlap.GlobMatcher) (path : str) : bool :=
  match CleanupProbes.strip_base workspace path with
  | Some rel => glob_is_match matcher (reservation_path_to_slash_string rel)
  | None => false
  end.

(** The entries of one directory: whether the walk ends here, the directories
    to read, the last first, and what was seen. *)
Fixpoint walk_entries (workspace : str) (matcher : PatternOverlap.GlobMatcher) (entries : list DirEntry) (stack : list str) (w : Walk)
    : bool * list str * Walk :=
  match entries with
  | [] => (false, stack, w)
  | e :: entries =>
      if MAX_VISITED_ENTRIES <=? visited_entries w then (true, stack, w)
      else
        let w := {| visited_entries := visited_entries w + 1; matched_any := matched_any w; fs_latest := fs_latest w |} in
        match file_type e with
        | Some Dir => walk_entries workspace matcher entries (entry_path e :: stack) w
        | Some File =>
            if negb (accepted workspace matcher (entry_path e)) then walk_entries workspace matcher entries stack w
            else
              match metadata fs (entry_path e) with
              | None => walk_entries workspace matcher entries stack w
              | Some modified =>
                  walk_entries workspace matcher entries stack
                    {| visited_entries := visited_entries w; matched_any := true; fs_latest := note_modified (fs_latest w) modified |}
              end
        | _ => walk_entries workspace matcher entries stack w
        end
  end.

(** The loop over the stack; [None] without fuel. *)
Fixpoint walk_dirs (fuel : nat) (workspace : str) (matcher : PatternOverlap.GlobMatcher) (stack : list str) (w : Walk) : option (bool * Walk) :=
  match fuel with
  | O => None
  | S fuel =>
      match stack with
      | [] => Some (false, w)
      | dir :: stack =>
          match read_dir fs dir with
          | None => walk_dirs fuel workspace matcher stack w
          | Some entries =>
              match walk_entries workspace matcher entries stack w with
              | (true, _, w) => Some (true, w)
              | (false, stack, w) => walk_dirs fuel workspace matcher stack w
              end
          end
      end
  end.

Definition WALK_FUEL : nat := Z.to_nat MAX_VISITED_ENTRIES + 2.
Definition walk_from (workspace start_dir : str) (matcher : PatternOverlap.GlobMatcher) : option (bool * Walk) :=
  walk_dirs WALK_FUEL workspace matcher [start_dir] {| visited_entries := 0; matched_any := false; fs_latest := None |}.

Definition reservation_glob_walk_latest_micros (workspace start_dir : str) (matcher : PatternOverlap.GlobMatcher) : bool * option Z :=
  match walk_from workspace start_dir matcher with Some (_, w) => (matched_any w, fs_latest w) | None => (false, None) end.

(** ** The activity of a pattern *)

Definition LISTED_LIMIT : nat := Z.to_nat 5000.

(** The files git lists. *)
Definition scan_listed (repo_root : str) (lines : list str) : bool * option Z :=
  foldl (λ acc rel,
    match metadata fs (CleanupProbes.join repo_root rel) with
    | None => acc
    | Some modified => (true, note_modified acc.2 modified)
    end) (false, None) (take LISTED_LIMIT lines).

Definition git_listed (repo_root : option str) (git_glob : str) : bool * option Z :=
  match root ← repo_root; lines ← ls_files fs root git_glob; Some (root, lines) with
  | Some (root, lines) => scan_listed root lines
  | None => (false, None)
  end.

(** The files of a pattern with a glob; [None] answers "nothing" early. *)
Definition glob_files (workspace : str) (repo_root : option str) (spec normalized : str) : option (bool * option Z) :=
  let listed := git_listed repo_root (CleanupProbes.glob_pathspec spec) in
  if listed.1 then Some listed
  else
    match reservation_glob_matcher normalized with
    | Some matcher => Some (reservation_glob_walk_latest_micros workspace workspace matcher)
    | None => None
    end.

(** The file, or the files below the directory, that a pattern without a glob
    names. *)
Definition plain_files (workspace normalized : str) : bool * option Z :=
  let candidate := CleanupProbes.join workspace normalized in
  if negb (path_exists fs candidate) then (false, None)
  else
    let own := modified ← metadata fs candidate; modified ≫= reservation_system_time_to_micros in
    if is_dir fs candidate then
      let pattern_with_glob := if bool_decide (last normalized = Some ch_slash) then normalized ++ lit "**" else normalized ++ lit "/**" in
      let latest :=
        match reservation_glob_matcher pattern_with_glob with
        | Some matcher => (reservation_glob_walk_latest_micros workspace candidate matcher).2
        | None => None
        end in
      (true, match latest with Some t => Some t | None => own end)
    else (true, own).

Definition reservation_compute_pattern_activity (workspace repo_root workspace_rel : option str) (pattern_raw : str) : Activity :=
  match workspace with
  | None => no_activity
  | Some workspace =>
      let normalized := reservation_normalize_pattern pattern_raw in
      if bool_decide (normalized = []) then no_activity
      else
        let has_glob := reservation_contains_glob normalized in
        let spec := reservation_git_pathspec (default [] workspace_rel) normalized in
        match (if has_glob then glob_files workspace repo_root spec normalized else Some (plain_files workspace normalized)) with
        | None => no_activity
        | Some (matched_paths, latest) =>
            {| pattern_matches := matched_paths; fs_activity_micros := latest;
               git_activity_micros :=
                 match repo_root, workspace_rel with
                 | Some root, Some _ =>
                     if matched_paths then
                       reservation_git_latest_activity_micros root [if has_glob then CleanupProbes.glob_pathspec spec else spec]
                     else None
                 | _, _ => None
                 end |}
        end
  end.

(** [reservation_pattern_activity_for_project] of [reservations.rs]. *)
Definition reservation_pattern_activity_for_project (project_human_key path_pattern : str) : Activity :=
  let workspace := reservation_project_workspace_path project_human_key in
  let repo_info := workspace ≫= reservation_open_repo_root in
  reservation_compute_pattern_activity workspace (fst <$> repo_info) (snd <$> repo_info) path_pattern.
End fs.
End PatternActivity.
