(* ===== verification/PatternActivityFacts.v ===== *)
(** * Facts about the activity of a pattern

    The walk of a workspace ends whatever the file system answers, and unless
    it is cut short it misses nothing. *)

From stdpp Require Import base numbers tactics list gmap strings.
From S2P Require Import Prelude OverlapDp PatternOverlap RefGlob CleanupProbes PatternActivity.
Import PatternActivity.
Open Scope Z_scope.

(** The latest of the times that satisfy a predicate. *)
Definition latest_spec (o : option Z) (T : Z → Prop) : Prop :=
  match o with None => ∀ t, ¬ T t | Some l => T l ∧ ∀ t, T t → t ≤ l end.

Lemma latest_spec_ext o (T U : Z → Prop) : (∀ t, T t ↔ U t) → latest_spec o T → latest_spec o U.
Proof. intros He. destruct o as [l|]; simpl; [intros [? ?]; split; [by apply He|intros t Ht; apply He in Ht; eauto]|naive_solver]. Qed.

Lemma latest_spec_later o T t : latest_spec o T → latest_spec (later o t) (λ u, T u ∨ u = t).
Proof.
  unfold later. destruct o as [l|]; simpl.
  - intros [? Hm]. split; [destruct (Z.max_spec l t) as [[_ ->]|[_ ->]]; eauto|]. intros u [Hu| ->]; [apply Hm in Hu|]; lia.
  - intros Hn. split; [by right|]. intros u [Hu| ->]; [by apply Hn in Hu|done].
Qed.

Section facts.
Context (fs : Fs).

(** When a file with these metadata was modified. *)
Definition stamp (modified : option Z) : option Z := modified ≫= reservation_system_time_to_micros.

(** When a path was modified. *)
Definition modified_at (p : str) : option Z := modified ← metadata fs p; stamp modified.

Lemma note_modified_spec o m T : latest_spec o T → latest_spec (note_modified o m) (λ t, T t ∨ stamp m = Some t).
Proof.
  intros Ho. unfold note_modified, stamp. destruct (m ≫= _) as [u|].
  - eapply latest_spec_ext; [|by apply latest_spec_later]. naive_solver congruence.
  - eapply latest_spec_ext; [|done]. naive_solver.
Qed.

Context `{Globset}.

(** The files below a directory. *)
Inductive below : str → str → Prop :=
  | below_here dir es e : read_dir fs dir = Some es → e ∈ es → file_type e = Some File → below dir (entry_path e)
  | below_sub dir es e p : read_dir fs dir = Some es → e ∈ es → file_type e = Some Dir → below (entry_path e) p → below dir p.

Section walk.
Context (workspace : str) (matcher : PatternOverlap.GlobMatcher).

(** A file that counts. *)
Definition counts (p : str) : Prop := accepted workspace matcher p = true ∧ is_Some (metadata fs p).

Definition here (es : list DirEntry) (p : str) : Prop := ∃ e, e ∈ es ∧ file_type e = Some File ∧ entry_path e = p.
Definition dirs (es : list DirEntry) (d : str) : Prop := ∃ e, e ∈ es ∧ file_type e = Some Dir ∧ entry_path e = d.

(** From [w] to [w'] the files that satisfy [P] were taken in. *)
Definition takes_in (P : str → Prop) (w w' : Walk) : Prop :=
  (matched_any w' = true ↔ matched_any w = true ∨ ∃ p, P p ∧ counts p) ∧
  ∀ T, latest_spec (fs_latest w) T → latest_spec (fs_latest w') (λ t, T t ∨ ∃ p, P p ∧ counts p ∧ modified_at p = Some t).

Lemma takes_in_nothing P w w' : (∀ p, P p → ¬ counts p) → matched_any w' = matched_any w → fs_latest w' = fs_latest w → takes_in P w w'.
Proof.
  intros Hno Hm Hl. split; [rewrite Hm; naive_solver|]. intros T HT. rewrite Hl. eapply latest_spec_ext; [|done]. naive_solver.
Qed.

Lemma takes_in_both P Q w1 w2 w3 : takes_in P w1 w2 → takes_in Q w2 w3 → takes_in (λ p, P p ∨ Q p) w1 w3.
Proof.
  intros [M1 L1] [M2 L2]. split; [rewrite M2, M1; naive_solver|]. intros T HT. eapply latest_spec_ext; [|by apply L2, L1]. naive_solver.
Qed.

Lemma takes_in_ext P Q w w' : (∀ p, P p ↔ Q p) → takes_in P w w' → takes_in Q w w'.
Proof.
  intros He [M L]. split; [rewrite M; naive_solver|]. intros T HT. eapply latest_spec_ext; [|by apply L]. naive_solver.
Qed.

Lemma takes_in_file p modified v w :
  accepted workspace matcher p = true → metadata fs p = Some modified →
  takes_in (λ q, q = p) w {| visited_entries := v; matched_any := true; fs_latest := note_modified (fs_latest w) modified |}.
Proof.
  intros Ha Hm. assert (counts p) as Hc by (split; [done|by rewrite Hm]). split; [naive_solver|]. intros T HT.
  eapply latest_spec_ext; [|by apply note_modified_spec]. intros t. unfold modified_at. split.
  - intros [?|?]; [by left|right]. exists p. rewrite Hm. done.
  - intros [?|(q & -> & _ & E)]; [by left|right]. by rewrite Hm in E.
Qed.

Lemma walk_entries_spec es stack w stop stack' w' :
  walk_entries fs workspace matcher es stack w = (stop, stack', w') → visited_entries w ≤ MAX_VISITED_ENTRIES →
  visited_entries w ≤ visited_entries w' ≤ MAX_VISITED_ENTRIES ∧
  Z.of_nat (length stack') + visited_entries w ≤ Z.of_nat (length stack) + visited_entries w' ∧
  if stop then visited_entries w' = MAX_VISITED_ENTRIES
  else (∀ d, d ∈ stack' ↔ d ∈ stack ∨ dirs es d) ∧ takes_in (here es) w w'.
Proof.
  revert stack w. induction es as [|e es IH]; intros stack w; cbn [walk_entries].
  { intros [= <- <- <-] Hv. split_and!; [lia..|unfold dirs; set_solver|]. apply takes_in_nothing; [|done..]. unfold here. set_solver. }
  destruct (Z.leb_spec MAX_VISITED_ENTRIES (visited_entries w)) as [Hle|Hlt]; [intros [= <- <- <-] ?; split_and!; lia|].
  set (w1 := {| visited_entries := visited_entries w + 1; matched_any := matched_any w; fs_latest := fs_latest w |}).
  assert (∀ P : str → Prop, (∀ p, P p → ¬ counts p) → takes_in P w w1) as Hskip by (intros; by apply takes_in_nothing).
  assert (∀ d, here (e :: es) d ↔ (file_type e = Some File ∧ entry_path e = d) ∨ here es d) as Hhere.
  { intros d. unfold here. setoid_rewrite elem_of_cons. naive_solver. }
  assert (∀ d, dirs (e :: es) d ↔ (file_type e = Some Dir ∧ entry_path e = d) ∨ dirs es d) as Hdirs.
  { intros d. unfold dirs. setoid_rewrite elem_of_cons. naive_solver. }
  assert (∀ stack1 w2, visited_entries w2 = visited_entries w + 1 →
    (length stack1 ≤ S (length stack))%nat → (∀ d, d ∈ stack1 ↔ d ∈ stack ∨ file_type e = Some Dir ∧ entry_path e = d) →
    takes_in (λ p, file_type e = Some File ∧ entry_path e = p) w w2 →
    walk_entries fs workspace matcher es stack1 w2 = (stop, stack', w') → visited_entries w ≤ MAX_VISITED_ENTRIES →
    visited_entries w ≤ visited_entries w' ≤ MAX_VISITED_ENTRIES ∧
    Z.of_nat (length stack') + visited_entries w ≤ Z.of_nat (length stack) + visited_entries w' ∧
    if stop then visited_entries w' = MAX_VISITED_ENTRIES
    else (∀ d, d ∈ stack' ↔ d ∈ stack ∨ dirs (e :: es) d) ∧ takes_in (here (e :: es)) w w') as Hstep.
  { intros stack1 w2 Hv Hlen Hst Ht Hw Hmax. apply IH in Hw as (? & ? & Hrest); [|lia]. split_and!; [lia..|].
    destruct stop; [done|]. destruct Hrest as [Hd Hr]. split; [intros d; rewrite Hd, Hst, Hdirs; tauto|].
    eapply takes_in_ext; [|by eapply takes_in_both]. intros p. by rewrite Hhere. }
  destruct (file_type e) as [[]|] eqn:Ek.
  - destruct (negb (accepted workspace matcher (entry_path e))) eqn:Ea.
    { apply Hstep; [done|lia|naive_solver|]. apply Hskip. intros p [_ <-] [Hc _]. by rewrite Hc in Ea. }
    apply negb_false_iff in Ea. destruct (metadata fs (entry_path e)) as [modified|] eqn:Em.
    + apply Hstep; [done|lia|naive_solver|]. eapply (takes_in_ext (λ q, q = entry_path e)); [naive_solver|exact (takes_in_file (entry_path e) modified _ w Ea Em)].
    + apply Hstep; [done|lia|naive_solver|]. apply Hskip. intros p [_ <-] [_ Hc]. rewrite Em in Hc. by destruct Hc.
  - apply Hstep; [done|simpl; lia|intros d; rewrite elem_of_cons; naive_solver|]. apply Hskip. naive_solver.
  - apply Hstep; [done|lia|naive_solver|]. apply Hskip. naive_solver.
  - apply Hstep; [done|lia|naive_solver|]. apply Hskip. naive_solver.
  - apply Hstep; [done|lia|naive_solver|]. apply Hskip. naive_solver.
Qed.

(** What lies below the directories on the stack. *)
Definition below_any (stack : list str) (p : str) : Prop := ∃ d, d ∈ stack ∧ below d p.

Lemma below_read dir p : below dir p ↔ ∃ es, read_dir fs dir = Some es ∧ (here es p ∨ ∃ d, dirs es d ∧ below d p).
Proof.
  split.
  - destruct 1 as [dir es e Hr He Hk|dir es e p Hr He Hk Hb]; exists es; (split; [done|]); [left; by exists e|right].
    exists (entry_path e). split; [by exists e|done].
  - intros (es & Hr & [(e & ? & ? & <-)|(d & (e & ? & ? & <-) & Hb)]); [by eapply below_here|by eapply below_sub].
Qed.

Lemma walk_dirs_spec fuel stack w stop w' :
  walk_dirs fs fuel workspace matcher stack w = Some (stop, w') → visited_entries w ≤ MAX_VISITED_ENTRIES →
  if stop then visited_entries w' = MAX_VISITED_ENTRIES else takes_in (below_any stack) w w'.
Proof.
  revert stack w. induction fuel as [|fuel IH]; intros stack w; cbn [walk_dirs]; [done|]. destruct stack as [|dir stack].
  { intros [= <- <-] _. apply takes_in_nothing; [|done..]. intros p (d & []%elem_of_nil & _). }
  intros Hw Hv. destruct (read_dir fs dir) as [es|] eqn:Er.
  - destruct (walk_entries fs workspace matcher es stack w) as [[stop1 stack1] w1] eqn:Ee.
    apply walk_entries_spec in Ee as (? & _ & He); [|done]. destruct stop1; [by injection Hw as <- <-|]. destruct He as [Hs Ht].
    apply IH in Hw; [|lia]. destruct stop; [done|]. eapply takes_in_ext; [|by eapply takes_in_both]. intros p. unfold below_any. split.
    + intros [Hh|(d & Hd & Hb)]; [exists dir; split; [by left|apply below_read; eauto]|].
      apply Hs in Hd as [?|?]; [exists d; split; [by right|done]|]. exists dir. split; [by left|]. apply below_read. eauto 6.
    + intros (d & [->|Hd]%elem_of_cons & Hb); [|right; exists d; rewrite Hs; eauto]. apply below_read in Hb as (es' & Er' & Hb).
      assert (es' = es) as -> by congruence. destruct Hb as [?|(d & ? & ?)]; [by left|right]. exists d. rewrite Hs. eauto.
  - apply IH in Hw; [|done]. destruct stop; [done|]. eapply takes_in_ext; [|done]. intros p. unfold below_any. split; intros (d & Hd & Hb); exists d.
    + split; [by right|done].
    + apply elem_of_cons in Hd as [->|Hd]; [|done]. apply below_read in Hb as (es & E & _). congruence.
Qed.

Lemma walk_dirs_ends fuel stack w :
  visited_entries w ≤ MAX_VISITED_ENTRIES → Z.of_nat (length stack) + (MAX_VISITED_ENTRIES - visited_entries w) < Z.of_nat fuel →
  is_Some (walk_dirs fs fuel workspace matcher stack w).
Proof.
  revert stack w. induction fuel as [|fuel IH]; intros stack w Hv Hf; cbn [walk_dirs]; [lia|]. destruct stack as [|dir stack]; [done|].
  rewrite length_cons in Hf. destruct (read_dir fs dir) as [es|]; [|apply IH; [done|lia]].
  destruct (walk_entries fs workspace matcher es stack w) as [[stop1 stack1] w1] eqn:Ee.
  apply walk_entries_spec in Ee as (? & ? & He); [|done]. destruct stop1; [done|]. apply IH; lia.
Qed.

Lemma walk_from_result start :
  ∃ stop w, walk_from fs workspace start matcher = Some (stop, w) ∧
    if stop then visited_entries w = MAX_VISITED_ENTRIES
    else (matched_any w = true ↔ ∃ p, below start p ∧ counts p) ∧
      latest_spec (fs_latest w) (λ t, ∃ p, below start p ∧ counts p ∧ modified_at p = Some t).
Proof.
  unfold walk_from. set (w0 := {| visited_entries := 0; matched_any := false; fs_latest := None |}).
  assert (visited_entries w0 ≤ MAX_VISITED_ENTRIES) as H0 by (unfold MAX_VISITED_ENTRIES; simpl; lia).
  destruct (walk_dirs_ends WALK_FUEL [start] w0) as [[stop w] Hw]; [done|unfold WALK_FUEL, MAX_VISITED_ENTRIES; simpl; lia|].
  exists stop, w. split; [done|]. apply walk_dirs_spec in Hw; [|done]. destruct stop; [done|]. destruct Hw as [M L].
  assert (∀ p, below_any [start] p ↔ below start p) as Hb.
  { intros p. unfold below_any. setoid_rewrite list_elem_of_singleton. naive_solver. }
  setoid_rewrite Hb in M. split; [rewrite M; naive_solver|].
  eapply latest_spec_ext; [|apply (L (λ _, False)); simpl; naive_solver]. intros t. setoid_rewrite Hb. naive_solver.
Qed.

(** A walk that was not cut short. *)
Definition uncut (start : str) : Prop := ∃ w, walk_from fs workspace start matcher = Some (false, w).

Lemma uncut_latest start :
  uncut start → let '(m, l) := reservation_glob_walk_latest_micros fs workspace start matcher in
  (m = true ↔ ∃ p, below start p ∧ counts p) ∧ latest_spec l (λ t, ∃ p, below start p ∧ counts p ∧ modified_at p = Some t).
Proof.
  intros [w Hw]. unfold reservation_glob_walk_latest_micros. rewrite Hw. destruct (walk_from_result start) as (stop & w' & Hw' & Hs).
  rewrite Hw in Hw'. by injection Hw' as <- <-.
Qed.
End walk.

(** the walk ends on every file system, within its fuel; and unless it has
    visited its limit of entries, a file below the start matches exactly when
    it says so, and the time it answers is the latest one of those files. *)
Theorem walk_total workspace matcher start :
  ∃ stop w, walk_from fs workspace start matcher = Some (stop, w) ∧
    if stop then visited_entries w = MAX_VISITED_ENTRIES
    else (matched_any w = true ↔ ∃ p, below start p ∧ counts workspace matcher p) ∧
      latest_spec (fs_latest w) (λ t, ∃ p, below start p ∧ counts workspace matcher p ∧ modified_at p = Some t).
Proof. apply walk_from_result. Qed.

(** ** The activity of a pattern *)

Section activity.
Context (workspace : str) (repo_root workspace_rel : option str).

(** The files git lists for a pattern. *)
Definition listed_by_git (normalized p : str) : Prop :=
  ∃ root lines rel, repo_root = Some root ∧
    ls_files fs root (CleanupProbes.glob_pathspec (reservation_git_pathspec (default [] workspace_rel) normalized)) = Some lines ∧
    rel ∈ lines ∧ p = CleanupProbes.join root rel ∧ is_Some (metadata fs p).

(** The glob of a pattern, or of what lies below the directory it names. *)
Definition walk_pattern (normalized : str) : str :=
  if reservation_contains_glob normalized then normalized
  else if bool_decide (last normalized = Some ch_slash) then normalized ++ lit "**" else normalized ++ lit "/**".
Definition walk_start (normalized : str) : str :=
  if reservation_contains_glob normalized then workspace else CleanupProbes.join workspace normalized.
Definition walked (normalized p : str) : Prop :=
  glob_build (walk_pattern normalized) = true ∧ below (walk_start normalized) p ∧ counts workspace (walk_pattern normalized) p.

(** The files whose times are those of a pattern: the files git lists or else
    those of a walk, the named file, or the named directory where no file below
    it has a time. *)
Definition covers (normalized p : str) : Prop :=
  let candidate := CleanupProbes.join workspace normalized in
  if reservation_contains_glob normalized then
    listed_by_git normalized p ∨ (∀ q, ¬ listed_by_git normalized q) ∧ walked normalized p
  else
    path_exists fs candidate = true ∧
    if is_dir fs candidate then walked normalized p ∨ p = candidate ∧ ∀ q, walked normalized q → modified_at q = None
    else p = candidate.

(** Nothing was cut short. *)
Definition small (normalized : str) : Prop :=
  uncut workspace (walk_pattern normalized) (walk_start normalized) ∧
  ∀ root lines, repo_root = Some root →
    ls_files fs root (CleanupProbes.glob_pathspec (reservation_git_pathspec (default [] workspace_rel) normalized)) = Some lines →
    (length lines ≤ LISTED_LIMIT)%nat.

Lemma scan_listed_spec root lines acc T :
  latest_spec acc.2 T →
  let r := foldl (λ acc rel, match metadata fs (CleanupProbes.join root rel) with None => acc | Some modified => (true, note_modified acc.2 modified) end) acc lines in
  let file p := ∃ rel, rel ∈ lines ∧ p = CleanupProbes.join root rel ∧ is_Some (metadata fs p) in
  (r.1 = true ↔ acc.1 = true ∨ ∃ p, file p) ∧ latest_spec r.2 (λ t, T t ∨ ∃ p, file p ∧ modified_at p = Some t).
Proof.
  revert acc T. induction lines as [|rel lines IH]; intros acc T HT; cbn [foldl].
  { simpl. split; [set_solver|]. eapply latest_spec_ext; [|done]. set_solver. }
  destruct (metadata fs (CleanupProbes.join root rel)) as [modified|] eqn:Em.
  - destruct (IH (true, note_modified acc.2 modified) _ (note_modified_spec _ modified _ HT)) as [M L]. split.
    + rewrite M. split; [|by left]. intros _. right. exists (CleanupProbes.join root rel), rel. rewrite Em. split_and!; [by left|done|done].
    + eapply latest_spec_ext; [|exact L]. intros t. split.
      * intros [[?|?]|(p & (r & ? & ?) & ?)]; [by left| |right; exists p; split; [exists r; set_solver|done]].
        right. exists (CleanupProbes.join root rel). split; [exists rel; rewrite Em; set_solver|]. unfold modified_at. by rewrite Em.
      * intros [?|(p & (r & [->|Hr]%elem_of_cons & -> & Hs) & Ht)]; [by left; left| |right; eauto 10]. unfold modified_at in Ht. rewrite Em in Ht. by left; right.
  - destruct (IH acc T HT) as [M L]. assert (∀ p, (∃ rel', rel' ∈ rel :: lines ∧ p = CleanupProbes.join root rel' ∧ is_Some (metadata fs p)) ↔
      ∃ rel', rel' ∈ lines ∧ p = CleanupProbes.join root rel' ∧ is_Some (metadata fs p)) as Hf.
    { intros p. split; intros (r & Hr & -> & Hs); exists r; (split_and!; [|done|done]); [|by right]. apply elem_of_cons in Hr as [->|?]; [|done].
      rewrite Em in Hs. by destruct Hs. }
    split; [rewrite M; split; (intros [?|[p Hp]]; [by left|right; exists p; by apply Hf])|].
    eapply latest_spec_ext; [|exact L]. intros t. split; (intros [?|(p & Hp & ?)]; [by left|right; exists p; split; [by apply Hf|done]]).
Qed.

Lemma git_listed_spec normalized :
  small normalized →
  let r := git_listed fs repo_root (CleanupProbes.glob_pathspec (reservation_git_pathspec (default [] workspace_rel) normalized)) in
  (r.1 = true ↔ ∃ p, listed_by_git normalized p) ∧ latest_spec r.2 (λ t, ∃ p, listed_by_git normalized p ∧ modified_at p = Some t).
Proof.
  intros [_ Hlen]. unfold git_listed, listed_by_git. set (spec := CleanupProbes.glob_pathspec _) in *.
  destruct repo_root as [root|]; cbn [mbind option_bind].
  2: { simpl. naive_solver. }
  destruct (ls_files fs root spec) as [lines|] eqn:El; cbn [mbind option_bind].
  2: { simpl. naive_solver congruence. }
  unfold scan_listed. rewrite take_ge by eauto.
  destruct (scan_listed_spec root lines (false, None) (λ _, False)) as [M L]; [simpl; naive_solver|]. cbv zeta.
  assert (∀ p, (∃ rel, rel ∈ lines ∧ p = CleanupProbes.join root rel ∧ is_Some (metadata fs p)) ↔
    ∃ root' lines' rel, Some root = Some root' ∧ ls_files fs root' spec = Some lines' ∧ rel ∈ lines' ∧ p = CleanupProbes.join root' rel ∧ is_Some (metadata fs p)) as Hf.
  { intros p. split; [naive_solver|]. intros (root' & lines' & rel & [= <-] & E & ?). assert (lines' = lines) as -> by congruence. eauto. }
  split.
  - rewrite M. split; [intros [?|[p Hp]]; [done|]|intros [p Hp]; right]; exists p; by apply Hf.
  - eapply latest_spec_ext; [|exact L]. intros t. split; [intros [[]|(p & Hp & ?)]|intros (p & Hp & ?); right]; exists p; (split; [by apply Hf|done]).
Qed.

Lemma walked_spec normalized m :
  small normalized → reservation_glob_matcher (walk_pattern normalized) = Some m →
  let r := reservation_glob_walk_latest_micros fs workspace (walk_start normalized) m in
  (r.1 = true ↔ ∃ p, walked normalized p) ∧ latest_spec r.2 (λ t, ∃ p, walked normalized p ∧ modified_at p = Some t).
Proof.
  unfold reservation_glob_matcher. intros [Hu _]. destruct (glob_build (walk_pattern normalized)) eqn:Hg; [|done]. intros [= <-].
  pose proof (uncut_latest _ _ _ Hu) as Hl. destruct (reservation_glob_walk_latest_micros _ _ _ _) as [b l]. destruct Hl as [M L]. cbn [fst snd].
  unfold walked. split; [rewrite M; naive_solver|]. eapply latest_spec_ext; [|exact L]. naive_solver.
Qed.

Lemma not_walked normalized p : reservation_glob_matcher (walk_pattern normalized) = None → ¬ walked normalized p.
Proof. unfold reservation_glob_matcher, walked. destruct (glob_build _); [done|]. by intros _ (? & _). Qed.

(** Where nothing is cut short, the activity of a pattern is exact: the
    time answered is the latest at which one of the files the pattern covers
    was modified, no time means that none of them has one, and a pattern that
    is said to be unmatched covers nothing. *)
Lemma compute_activity_result raw :
  let normalized := reservation_normalize_pattern raw in
  normalized ≠ [] → small normalized →
  let a := reservation_compute_pattern_activity fs (Some workspace) repo_root workspace_rel raw in
  (pattern_matches a = true ↔ ∃ p, covers normalized p) ∧
  latest_spec (fs_activity_micros a) (λ t, ∃ p, covers normalized p ∧ modified_at p = Some t).
Proof.
  intros normalized Hne Hsmall. unfold reservation_compute_pattern_activity. fold normalized. rewrite bool_decide_false by done.
  unfold covers. pose proof (git_listed_spec _ Hsmall) as [GM GL]. pose proof (walked_spec normalized) as Hw. unfold walk_pattern, walk_start in Hw.
  destruct (reservation_contains_glob normalized) eqn:Hg.
  - unfold glob_files. set (spec := reservation_git_pathspec _ _) in *. set (g := git_listed _ _ _) in *.
    destruct g.1 eqn:Eg.
    + destruct g as [gm gl] eqn:Egg. cbn in Eg, GM, GL |- *. subst gm. split; [naive_solver|]. eapply latest_spec_ext; [|exact GL]. naive_solver.
    + assert (∀ q, ¬ listed_by_git normalized q) as Hno by (intros q Hq; cut (false = true); [done|apply GM; eauto]).
      destruct (reservation_glob_matcher normalized) as [m|] eqn:Em.
      * destruct (Hw m Hsmall eq_refl) as [WM WL]. destruct (reservation_glob_walk_latest_micros _ _ _ _) as [wm wl]. cbn in *.
        split; [rewrite WM; naive_solver|]. eapply latest_spec_ext; [|exact WL]. naive_solver.
      * assert (∀ p, ¬ walked normalized p) as Hn.
        { intros p. apply not_walked. unfold walk_pattern. by rewrite Hg. }
        cbn. split; [split; [done|]|intros t]; [intros (p & [Hp|[_ Hp]])|intros (p & [Hp|[_ Hp]] & _)]; (by apply Hno in Hp) || (by apply Hn in Hp).
  - unfold plain_files. set (candidate := CleanupProbes.join workspace normalized) in *.
    destruct (path_exists fs candidate) eqn:Ex; cbn [negb]; [|cbn; naive_solver].
    assert (latest_spec (modified_at candidate) (λ t, modified_at candidate = Some t)) as Hown.
    { destruct (modified_at candidate); simpl; [split; [done|]; intros ? [= ->]; done|done]. }
    change (modified ← metadata fs candidate; modified ≫= reservation_system_time_to_micros) with (modified_at candidate).
    destruct (is_dir fs candidate); [|cbn; split; [naive_solver|]; eapply latest_spec_ext; [|exact Hown]; naive_solver].
    assert (∀ latest, latest_spec latest (λ t, ∃ p, walked normalized p ∧ modified_at p = Some t) →
      (∃ p, true = true ∧ (walked normalized p ∨ p = candidate ∧ ∀ q, walked normalized q → modified_at q = None)) ∧
      latest_spec (match latest with Some t => Some t | None => modified_at candidate end)
        (λ t, ∃ p, (true = true ∧ (walked normalized p ∨ p = candidate ∧ ∀ q, walked normalized q → modified_at q = None)) ∧ modified_at p = Some t)) as Hsum.
    { intros [l|]; cbn [latest_spec].
      - intros [(p & Hp & Ht) Hm]. split; [eauto|]. split; [eauto|]. intros t (q & [_ [?|[_ Hq]]] & ?); [eauto|]. specialize (Hq p Hp). congruence.
      - intros Hn. assert (∀ q, walked normalized q → modified_at q = None) as Hq.
        { intros q Hwq. destruct (modified_at q) as [t|] eqn:E; [|done]. exfalso. eapply Hn. eauto. }
        split; [eauto|]. eapply latest_spec_ext; [|exact Hown]. intros t. split; [eauto 6|].
        intros (q & [_ [?|[-> _]]] & E); [|done]. rewrite Hq in E; done. }
    destruct (reservation_glob_matcher _) as [m|] eqn:Em.
    + destruct (Hw m Hsmall eq_refl) as [_ WL]. destruct (Hsum _ WL) as [? ?]. cbn. by split.
    + destruct (Hsum None) as [? ?]; [|cbn; by split]. simpl. intros t (p & Hp & _). eapply not_walked, Hp. unfold walk_pattern. by rewrite Hg.
Qed.
End activity.
End facts.
