(* ===== verification/ReservationTools.v ===== *)
(** * The reservation tools ([mcp-agent-mail-tools/src/reservations.rs])

    What an agent calls: reserve paths, release or renew reservations, force
    the release of one that was abandoned.  A call checks its arguments, reads
    the reservations, decides, and then runs a transaction of [ReservationDb];
    between its reads and its write other connections may do anything, which
    is an argument.  Answers are records; their JSON is not modelled. *)

From stdpp Require Import base numbers tactics list sorting gmap strings.
From S2P Require Import Prelude OverlapDp PatternOverlap KeyedBuckets ReservationIndex ReservationDb Guard DbErrors ReadCache Mail CleanupProbes Cleanup PatternActivity.
Import PatternOverlap ReservationDb.
Open Scope Z_scope.

Module ReservationTools.

(** ** Paths *)

Definition ch_tilde : N := 126.
Definition ch_colon : N := 58.

Definition is_ascii_alphabetic (c : N) : bool := ((65 <=? c) && (c <=? 90) || (97 <=? c) && (c <=? 122))%N.

(** [str::len] in bytes. *)
Definition utf8_len (c : N) : Z := if (c <? 128)%N then 1 else if (c <? 2048)%N then 2 else if (c <? 65536)%N then 3 else 4.
Definition byte_len (s : str) : Z := foldr (λ c n, utf8_len c + n) 0 s.

(** [str::contains]. *)
Fixpoint contains (sub s : str) : bool :=
  starts_with sub s || match s with [] => false | _ :: s' => contains sub s' end.

Definition path_looks_absolute (input : str) : bool :=
  if starts_with (lit "//") input then false
  else if starts_with (lit "/") input || starts_with (lit "~/") input || bool_decide (input = lit "~") then true
  else
    match input with
    | a :: b :: c :: _ => is_ascii_alphabetic a && (b =? ch_colon)%N && is_path_separator c
    | _ => false
    end.

Section paths.
(** The home directory of the environment. *)
Context (home : option str).

Definition expand_tilde (input : str) : str :=
  match home with
  | None => input
  | Some h =>
      if bool_decide (input = lit "~") then h
      else if starts_with (lit "~/") input then CleanupProbes.join h (drop 2 input) else input
  end.

(** One piece of a path; [None] when it climbs above the root. *)
Definition push_piece (parts : list str) (piece : str) : option (list str) :=
  if bool_decide (piece = [] ∨ piece = lit ".") then Some parts
  else if bool_decide (piece = lit "..") then
    (if bool_decide (parts = []) then None else Some (take (pred (length parts)) parts))
  else Some (parts ++ [piece]).

Fixpoint push_pieces (parts : list str) (pieces : list str) : option (list str) :=
  match pieces with
  | [] => Some parts
  | piece :: pieces => parts ← push_piece parts piece; push_pieces parts pieces
  end.

Definition normalize_parts (input : str) : option (list str) := push_pieces [] (split_on is_path_separator input).

Definition relativize_path (project_root path : str) : option str :=
  let expanded_path := expand_tilde path in
  let expanded_root := expand_tilde project_root in
  path_parts ← normalize_parts expanded_path;
  if path_looks_absolute expanded_path then
    root_parts ← normalize_parts expanded_root;
    if bool_decide (root_parts `prefix_of` path_parts) then Some (join_slash (drop (length root_parts) path_parts)) else None
  else Some (join_slash path_parts).

(** ** Refusals *)

(** The errors a call answers with; those of the database in one. *)
Inductive ToolError :=
  | EmptyPaths
  | TooManyPaths (count : Z)
  | SuspiciousPattern (pattern : str)
  | TargetsProjectRoot
  | InvalidPattern (rel : str)
  | PathOutsideProject
  | ProjectUnknown
  | AgentUnknown
  | Database
  | NotFound
  | ReservationActive
  | Conflict.

Inductive McpResult (A : Type) := Answer (a : A) | Refuse (e : ToolError).
#[global] Arguments Answer {A} a.
#[global] Arguments Refuse {A} e.

Context `{Globset}.

Definition too_broad (norm : str) : bool := bool_decide (norm ∈ [lit "*"; lit "**"; lit "**/*"; lit "**/**"; []]).

Definition detect_suspicious_file_reservation (pattern : str) : bool :=
  bool_decide (trim pattern = []) || path_looks_absolute pattern || too_broad (norm (compile pattern)) ||
  ((byte_len pattern <=? 2) && (ch_star ∈ᵇ pattern)).

Definition invalid_file_reservation_pattern (pattern : str) : bool :=
  contains (lit "..") pattern || (is_glob (compile pattern) && negb (is_matchable (compile pattern))).

(** The paths of a request, relative to the project; the first that is refused
    decides. *)
Fixpoint normalize_paths (project_root : str) (paths : list str) : McpResult (list str) :=
  match paths with
  | [] => Answer []
  | path :: paths =>
      match relativize_path project_root path with
      | None => Refuse PathOutsideProject
      | Some rel =>
          if bool_decide (rel = []) then Refuse TargetsProjectRoot
          else if invalid_file_reservation_pattern rel then Refuse (InvalidPattern rel)
          else match normalize_paths project_root paths with Answer rels => Answer (rel :: rels) | Refuse e => Refuse e end
      end
  end.

Definition normalize_filter_paths (project_root : str) (paths : option (list str)) : McpResult (option (list str)) :=
  match paths with
  | None => Answer None
  | Some paths => match normalize_paths project_root paths with Answer rels => Answer (Some rels) | Refuse e => Refuse e end
  end.

(** ** Reserving *)

Definition MAX_PATHS_PER_CALL : Z := 200.

Definition ttl_of (ttl_seconds : option Z) : Z := from_option (clamp 60 31536000) 3600 ttl_seconds.

Record Project := { pid : Z; human_key : str }.

Record ConflictHolder := { holder_agent : str; holder_pattern : str; holder_exclusive : bool; holder_expires_ts : str }.
Record ReservationConflict := { conflict_path : str; holders : list ConflictHolder }.
Record GrantedReservation := { granted_id : Z; granted_pattern : str; granted_exclusive : bool; granted_reason : str; granted_expires_ts : str }.
Record ReservationResponse := { granted : list GrantedReservation; conflicts : list ReservationConflict }.

(** What a call meets: the answers of [resolve_project] and [resolve_agent], the clock at each read and
    write, what others write in between, and which reads fail. *)
Record World := {
  project : McpResult Project;
  agent : McpResult (Z * str);
  now_listed : Z;
  now_written : Z;
  now_relisted : Z;
  before_write : Db → Db;
  before_relist : Db → Db;
  listed_ok : bool;
  relisted_ok : bool;
  names : option (gmap Z str);
  names_again : option (gmap Z str);
}.

Context (iso : Z → str) (decimal : Z → str) `{CellDecode}.

(** The reservations a request has to mind. *)
Definition minded (agent_id : Z) (is_exclusive : bool) (res : FileReservationRow) : bool :=
  negb (fr_agent_id res =? agent_id) && (is_exclusive || negb (fr_exclusive res =? 0)).

Definition reservation_ref (res : FileReservationRow) : str * ReservationIndex.ReservationRef :=
  (fr_path_pattern res,
   {| ReservationIndex.agent_id := fr_agent_id res; ReservationIndex.path_pattern := fr_path_pattern res;
      ReservationIndex.exclusive := negb (fr_exclusive res =? 0); ReservationIndex.expires_ts := fr_expires_ts res |}).

Definition index_of (agent_id : Z) (is_exclusive : bool) (active : list FileReservationRow) : ReservationIndex.index :=
  ReservationIndex.build (reservation_ref <$> filter (λ res, minded agent_id is_exclusive res = true) active).

(** The paths without a conflict, and the others with their conflicts; a path
    that was seen is skipped. *)
Fixpoint sort_paths (idx : ReservationIndex.index) (seen : gset str) (paths : list str)
    : list str * list (str * list ReservationIndex.ReservationRef) :=
  match paths with
  | [] => ([], [])
  | path :: paths =>
      if bool_decide (path ∈ seen) then sort_paths idx seen paths
      else
        let '(grant, pending) := sort_paths idx ({[path]} ∪ seen) paths in
        match ReservationIndex.find_conflicts idx (compile path) with
        | [] => (path :: grant, pending)
        | refs => (grant, (path, refs) :: pending)
        end
  end.

Definition bool_cmp (a b : bool) : comparison := match a, b with false, true => Lt | true, false => Gt | _, _ => Eq end.
Definition then_with (c d : comparison) : comparison := match c with Eq => d | _ => c end.

(** The order of the holders of one path. *)
Definition pending_le (a b : ReservationIndex.ReservationRef) : Prop :=
  then_with (Z.compare (ReservationIndex.agent_id a) (ReservationIndex.agent_id b))
    (then_with (str_compare (ReservationIndex.path_pattern a) (ReservationIndex.path_pattern b))
      (then_with (bool_cmp (ReservationIndex.exclusive a) (ReservationIndex.exclusive b))
        (str_compare (iso (ReservationIndex.expires_ts a)) (iso (ReservationIndex.expires_ts b))))) ≠ Gt.
#[global] Instance pending_le_dec : RelDecision pending_le.
Proof. intros a b. unfold pending_le. apply _. Defined.

Definition holder_le (a b : ConflictHolder) : Prop :=
  then_with (str_compare (holder_agent a) (holder_agent b)) (str_compare (holder_pattern a) (holder_pattern b)) ≠ Gt.
#[global] Instance holder_le_dec : RelDecision holder_le.
Proof. intros a b. unfold holder_le. apply _. Defined.

(** An agent without a row is named by its number. *)
Definition holder_of (agent_names : gmap Z str) (rref : ReservationIndex.ReservationRef) : ConflictHolder :=
  {| holder_agent := default (lit "agent_" ++ decimal (ReservationIndex.agent_id rref)) (agent_names !! ReservationIndex.agent_id rref);
     holder_pattern := ReservationIndex.path_pattern rref; holder_exclusive := ReservationIndex.exclusive rref;
     holder_expires_ts := iso (ReservationIndex.expires_ts rref) |}.

Definition resolve_conflicts (agent_names : gmap Z str) (pending : list (str * list ReservationIndex.ReservationRef)) : list ReservationConflict :=
  (λ c : str * list ReservationIndex.ReservationRef,
    {| conflict_path := c.1; holders := holder_of agent_names <$> merge_sort pending_le c.2 |}) <$> pending.

(** The second look, after the transaction found a conflict the index did not. *)
Definition fresh_conflicts (agent_names : gmap Z str) (idx : ReservationIndex.index) (paths : list str) : list ReservationConflict :=
  omap (λ path,
    match ReservationIndex.find_conflicts idx (compile path) with
    | [] => None
    | refs => Some {| conflict_path := path; holders := merge_sort holder_le (holder_of agent_names <$> refs) |}
    end) paths.

Definition granted_of (r : FileReservationRow) : GrantedReservation :=
  {| granted_id := default 0 (fr_id r); granted_pattern := fr_path_pattern r; granted_exclusive := negb (fr_exclusive r =? 0);
     granted_reason := fr_reason r; granted_expires_ts := iso (fr_expires_ts r) |}.

Definition listed (ok : bool) (now project : Z) (d : Db) : option (list FileReservationRow) :=
  if ok then match get_active_reservations now project d with Ok rs => Some rs | Err _ => None end else None.

(** From the listing on, with the arguments checked. *)
Definition grant_paths `{ConflictDetector} (w : World) (project_id agent_id : Z) (ttl : Z) (is_exclusive : bool) (reason : str)
    (paths : list str) (d : Db) : McpResult ReservationResponse * Db :=
  match listed (listed_ok w) (now_listed w) project_id d with
  | None => (Refuse Database, d)
  | Some active =>
      let '(grant, pending) := sort_paths (index_of agent_id is_exclusive active) ∅ paths in
      match (match pending with [] => Some [] | _ => agent_names ← names w; Some (resolve_conflicts agent_names pending) end) with
      | None => (Refuse Database, d)
      | Some conflicts =>
          match grant with
          | [] => (Answer {| granted := []; conflicts := conflicts |}, d)
          | _ =>
              match create_file_reservations (now_written w) project_id agent_id grant ttl is_exclusive reason (before_write w d) with
              | (Ok rows, d) => (Answer {| granted := granted_of <$> rows; conflicts := conflicts |}, d)
              | (Err (ResourceBusy _ _), d) =>
                  let d := before_relist w d in
                  match listed (relisted_ok w) (now_relisted w) project_id d, names_again w with
                  | Some fresh, Some agent_names =>
                      (Answer {| granted := []; conflicts := conflicts ++ fresh_conflicts agent_names (index_of agent_id is_exclusive fresh) grant |}, d)
                  | _, _ => (Refuse Database, d)
                  end
              | (Err _, d) => (Refuse Database, d)
              end
          end
      end
  end.

Definition file_reservation_paths `{ConflictDetector} (w : World) (paths : list str) (ttl_seconds : option Z) (exclusive : option bool)
    (reason : option str) (d : Db) : McpResult ReservationResponse * Db :=
  if bool_decide (paths = []) then (Refuse EmptyPaths, d)
  else
    match project w with
    | Refuse e => (Refuse e, d)
    | Answer p =>
        let count := Z.of_nat (length paths) in
        if MAX_PATHS_PER_CALL <? count then (Refuse (TooManyPaths count), d)
        else
          match filter (λ pattern, detect_suspicious_file_reservation pattern = true) paths with
          | pattern :: _ => (Refuse (SuspiciousPattern pattern), d)
          | [] =>
              match normalize_paths (human_key p) paths with
              | Refuse e => (Refuse e, d)
              | Answer normalized_paths =>
                  match agent w with
                  | Refuse e => (Refuse e, d)
                  | Answer (agent_id, _) =>
                      grant_paths w (pid p) agent_id (ttl_of ttl_seconds) (default true exclusive) (default [] reason) normalized_paths d
                  end
              end
          end
    end.

(** ** Releasing and renewing *)

Definition renewal_filter_matches (row : FileReservationRow) (agent_id : Z) (paths : option (list str)) (reservation_ids : option (list Z)) : bool :=
  bool_decide (fr_released_ts row = None) && (fr_agent_id row =? agent_id) &&
  from_option (λ ids, bool_decide (default 0 (fr_id row) ∈ ids)) true reservation_ids &&
  from_option (λ pats, existsb (λ pat, bool_decide (fr_path_pattern row = pat) || overlaps (compile pat) (compile (fr_path_pattern row))) pats)
    true paths.

(** [i32::try_from], or the largest. *)
Definition i32_of_len {A} (l : list A) : Z := Z.min (2 ^ 31 - 1) (Z.of_nat (length l)).

(** What a release or a renewal meets. *)
Record Touch := {
  touch_project : McpResult Project;
  touch_agent : McpResult (Z * str);
  touch_listed_ok : bool;
  touch_now_listed : Z;
  touch_before : Db → Db;
  touch_env : Environment;
  touch_clock : Z;
}.

(** How the two listings read a [released_ts] cell. *)
Context (decode_listed decode_active : Cell → option (option Z)).

(** What a release with filters releases: [None] when the listing fails, no
    restriction when there are no filters. *)
Definition ids_to_release (t : Touch) (project_id agent_id : Z) (normalized_paths : option (list str)) (ids : option (list Z)) (d : Db)
    : option (option (list Z)) :=
  match normalized_paths, ids with
  | None, None => Some None
  | _, _ =>
      match (if touch_listed_ok t then Cleanup.list_unreleased_file_reservations decode_listed project_id d else None) with
      | None => None
      | Some existing => Some (Some (omap fr_id (filter (λ res, renewal_filter_matches res agent_id normalized_paths ids = true) existing)))
      end
  end.

(** [release_file_reservations]: the number of rows released; [None] would be
    a release that does not return. *)
Definition release_file_reservations (t : Touch) (paths : option (list str)) (ids : option (list Z)) (d : Db) : option (McpResult Z * Db) :=
  match touch_project t with
  | Refuse e => Some (Refuse e, d)
  | Answer p =>
      match normalize_filter_paths (human_key p) paths with
      | Refuse e => Some (Refuse e, d)
      | Answer normalized_paths =>
          match touch_agent t with
          | Refuse e => Some (Refuse e, d)
          | Answer (agent_id, _) =>
              match ids_to_release t (pid p) agent_id normalized_paths ids d with
              | None => Some (Refuse Database, d)
              | Some ids =>
                  match release_reservations (touch_env t) (pid p) agent_id None ids (touch_clock t) (touch_before t d) with
                  | None => None
                  | Some (Ok released, _, d) => Some (Answer (i32_of_len released), d)
                  | Some (Err _, _, d) => Some (Refuse Database, d)
                  end
              end
          end
      end
  end.

(** [list_file_reservations] of active rows. *)
Definition list_active (now project : Z) (d : Db) : option (list FileReservationRow) :=
  mapM (λ r, Cleanup.listed_row decode_active (join_release d r)) (filter (λ r, project_id r = project ∧ active d r = true ∧ now < expires_ts r) (rows d)).

Definition collect_previous_expiries (rs : list FileReservationRow) (agent_id : Z) (paths : option (list str)) (ids : option (list Z)) : gmap Z Z :=
  foldl (λ m row, match fr_id row with Some id => <[id := fr_expires_ts row]> m | None => m end) ∅
    (filter (λ row, renewal_filter_matches row agent_id paths ids = true) rs).

Record RenewedReservation := { renewed_id : Z; renewed_pattern : str; old_expires_ts : str; new_expires_ts : str }.

Definition extend_of (extend_seconds : option Z) : Z := from_option (clamp 60 31536000) 1800 extend_seconds.

Definition renewed_of (extend : Z) (previous : gmap Z Z) (r : FileReservationRow) : RenewedReservation :=
  {| renewed_id := default 0 (fr_id r); renewed_pattern := fr_path_pattern r;
     old_expires_ts := iso (default (i64_saturating_sub (fr_expires_ts r) (i64_saturating_mul extend 1000000)) (id ← fr_id r; previous !! id));
     new_expires_ts := iso (fr_expires_ts r) |}.

Definition renew_file_reservations (t : Touch) (extend_seconds : option Z) (paths : option (list str)) (ids : option (list Z)) (d : Db)
    : McpResult (Z * list RenewedReservation) * Db :=
  let extend := extend_of extend_seconds in
  match touch_project t with
  | Refuse e => (Refuse e, d)
  | Answer p =>
      match normalize_filter_paths (human_key p) paths with
      | Refuse e => (Refuse e, d)
      | Answer normalized_paths =>
          match touch_agent t with
          | Refuse e => (Refuse e, d)
          | Answer (agent_id, _) =>
              match (if touch_listed_ok t then list_active (touch_now_listed t) (pid p) d else None) with
              | None => (Refuse Database, d)
              | Some existing =>
                  let previous := collect_previous_expiries existing agent_id normalized_paths ids in
                  let ids_to_renew := (map_to_list previous).*1 in
                  match renew_reservations (touch_clock t) (pid p) agent_id extend None (Some ids_to_renew) (touch_before t d) with
                  | (Err _, d) => (Refuse Database, d)
                  | (Ok renewed, d) => (Answer (i32_of_len renewed, renewed_of extend previous <$> renewed), d)
                  end
              end
          end
      end
  end.

(** ** Forcing a release *)

Inductive StaleReason :=
  | AgentInactive | AgentRecentlyActive | NoRecentMail | RecentMail
  | RecentFiles | NoRecentFiles | RecentCommits | NoRecentCommits | PatternUnmatched.

(** What a forced release meets: the answers of its lookups, [holder] that of
    [get_agent_by_id], the files, what others write in between, and the world of
    the message to the holder, whose body is a text. *)
Record Force := {
  force_project : McpResult Project;
  force_actor : McpResult (Z * str);
  force_row_ok : bool;
  holder : Z → option ReadCache.AgentRow;
  mail_ok : bool;
  force_fs : PatternActivity.Fs;
  force_now : Z;
  force_before : Db → Db;
  force_released_ok : bool;
  force_marker : Z;
  notify_before : Mail.Db → Mail.Db;
  notify_triggers : Mail.Triggers;
  notify_env : Mail.AfterCommit;
  notify_now : Z;
  notify_body : list StaleReason → str;
}.

Inductive ForceAnswer :=
  | AlreadyReleased (released_ts : Z)
  | Released (reasons : list StaleReason) (notified : bool).

Record Verdict := { all_signals_stale : bool; stale_reasons : list StaleReason }.

(** The four signals. *)
Definition judge (cfg : Cleanup.Config) (now last_active : Z) (mail_activity : option Z) (a : PatternActivity.Activity) : Verdict :=
  let grace := Cleanup.grace_us cfg in
  let agent_inactive := Cleanup.inactivity_us cfg <? i64_saturating_sub now last_active in
  let mail_stale := from_option (λ ts, grace <? i64_saturating_sub now ts) true mail_activity in
  let recent := from_option (λ ts, i64_saturating_sub now ts <=? grace) false in
  {| all_signals_stale := agent_inactive && mail_stale && negb (recent (PatternActivity.fs_activity_micros a)) && negb (recent (PatternActivity.git_activity_micros a));
     stale_reasons :=
       [if agent_inactive then AgentInactive else AgentRecentlyActive; if mail_stale then NoRecentMail else RecentMail] ++
       (if PatternActivity.pattern_matches a then
          [if recent (PatternActivity.fs_activity_micros a) then RecentFiles else NoRecentFiles;
           if recent (PatternActivity.git_activity_micros a) then RecentCommits else NoRecentCommits]
        else [PatternUnmatched]) |}.

(** The message to the previous holder. *)
Definition notify_holder (f : Force) (project_id actor_id : Z) (h : ReadCache.AgentRow) (path_pattern : str) (reasons : list StaleReason)
    (md : Mail.Db) : bool * Mail.Db :=
  match Mail.create_message_with_recipients (notify_triggers f) (notify_env f) (notify_now f)
          {| Mail.draft_project := project_id; Mail.draft_sender := actor_id;
             Mail.draft_subject := lit "[file-reservations] Released stale lock on " ++ path_pattern; Mail.draft_body := notify_body f reasons;
             Mail.draft_thread := None; Mail.draft_importance := lit "normal"; Mail.draft_ack := false; Mail.draft_attachments := lit "[]" |}
          [(default 0 (ReadCache.id h), lit "to")] (notify_before f md) with
  | (DbErrors.Ok _, md) => (true, md)
  | (DbErrors.Err _, md) => (false, md)
  end.

(** From the signals on. *)
Definition force_row (cfg : Cleanup.Config) (f : Force) (p : Project) (actor_id : Z) (agent_name : str) (file_reservation_id : Z) (should_notify : bool)
    (reservation : FileReservationRow) (h : ReadCache.AgentRow) (d : Db) (md : Mail.Db) : McpResult ForceAnswer * Db * Mail.Db :=
  let v := judge cfg (force_now f) (ReadCache.last_active_ts h) (Mail.get_agent_last_mail_activity (fr_agent_id reservation) (pid p) md)
             (PatternActivity.reservation_pattern_activity_for_project (force_fs f) (human_key p) (fr_path_pattern reservation)) in
  if negb (all_signals_stale v) && negb (fr_expires_ts reservation <=? force_now f) then (Refuse ReservationActive, d, md)
  else
    let d := force_before f d in
    if negb (force_released_ok f) then (Refuse Database, d, md)
    else
      match force_release_reservation (force_marker f) file_reservation_id (Some (fr_expires_ts reservation)) d with
      | (Ok released_count, d) =>
          if released_count =? 0 then (Refuse Conflict, d, md)
          else if should_notify && negb (bool_decide (ReadCache.name h = agent_name)) then
            let '(notified, md) := notify_holder f (pid p) actor_id h (fr_path_pattern reservation) (stale_reasons v) md in
            (Answer (Released (stale_reasons v) notified), d, md)
          else (Answer (Released (stale_reasons v) false), d, md)
      | (Err _, d) => (Refuse Database, d, md)
      end.

(** [force_release_file_reservation], on the reservations and on the mail. *)
Definition force_release_file_reservation (cfg : Cleanup.Config) (f : Force) (agent_name : str) (file_reservation_id : Z) (notify_previous : option bool)
    (d : Db) (md : Mail.Db) : McpResult ForceAnswer * Db * Mail.Db :=
  match force_project f with
  | Refuse e => (Refuse e, d, md)
  | Answer p =>
      match force_actor f with
      | Refuse e => (Refuse e, d, md)
      | Answer (actor_id, _) =>
          match (if force_row_ok f then Cleanup.get_reservations_by_ids [file_reservation_id] d else Err Internal) with
          | Err _ => (Refuse Database, d, md)
          | Ok rs =>
              match last rs with
              | None => (Refuse NotFound, d, md)
              | Some reservation =>
                  if negb (fr_project_id reservation =? pid p) then (Refuse NotFound, d, md)
                  else
                    match fr_released_ts reservation with
                    | Some ts => (Answer (AlreadyReleased ts), d, md)
                    | None =>
                        match holder f (fr_agent_id reservation) with
                        | None => (Refuse Database, d, md)
                        | Some h =>
                            if negb (mail_ok f) then (Refuse Database, d, md)
                            else force_row cfg f p actor_id agent_name file_reservation_id (default true notify_previous) reservation h d md
                        end
                    end
              end
          end
      end
  end.
End paths.
End ReservationTools.
