(* ===== verification/ReservationToolsFacts.v ===== *)
(** * Facts about the reservation tools *)

From stdpp Require Import base numbers tactics list sorting gmap strings.
From S2P Require Import Prelude OverlapDp PatternOverlap RefGlob KeyedBuckets ReservationIndex ReservationIndexFacts.
From S2P Require Import ReservationDb ReservationDbFacts ReservationRelease Guard DbErrors ReadCache Mail CleanupProbes Cleanup CleanupFacts PatternActivity PatternActivityFacts ReservationTools.
Import PatternOverlap ReservationDb ReservationTools.
Open Scope Z_scope.

(** ** Paths *)

Lemma split_on_app_any sep a c b : sep c = true → split_on sep (a ++ c :: b) = split_on sep a ++ split_on sep b.
Proof.
  intros Hc. induction a as [|d a IH]; simpl; [by rewrite Hc|]. rewrite IH.
  destruct (sep d); [done|]. destruct (split_on sep a) as [|w ws] eqn:E; [by destruct (split_on_cons_ne sep a)|done].
Qed.

Lemma push_pieces_app parts ps qs :
  push_pieces parts (ps ++ qs) = (parts ← push_pieces parts ps; push_pieces parts qs).
Proof. revert parts. induction ps as [|p ps IH]; intros parts; simpl; [done|]. destruct (push_piece parts p); simpl; [apply IH|done]. Qed.

(** What is pushed above a prefix does not reach it. *)
Lemma push_pieces_above base parts ps out :
  push_pieces parts ps = Some out → push_pieces (base ++ parts) ps = Some (base ++ out).
Proof.
  revert parts. induction ps as [|p ps IH]; intros parts; simpl; [by intros [= ->]|].
  unfold push_piece. case_bool_decide as E1; [simpl; apply IH|]. case_bool_decide as E2; simpl.
  - case_bool_decide as E3; [done|]. simpl. intros Ho. rewrite bool_decide_false by (by intros [_ ?]%app_eq_nil). simpl.
    replace (take (pred (length (base ++ parts))) (base ++ parts)) with (base ++ take (pred (length parts)) parts); [by apply IH|].
    rewrite length_app. destruct parts as [|q parts]; [done|]. cbn [length].
    replace (pred (length base + S (length parts)))%nat with (length base + pred (S (length parts)))%nat by lia. by rewrite take_app_add.
  - rewrite <-app_assoc. apply IH.
Qed.

(** Where nothing climbs above the root, the tools and the patterns normalise
    alike. *)
Lemma push_pieces_ok parts ps out :
  push_pieces parts ps = Some out → Forall component_ok parts → (∀ w, w ∈ ps → ∀ c, c ∈ w → is_path_separator c = false) →
  Forall component_ok out ∧ fold_left push_component ps parts = out.
Proof.
  revert parts. induction ps as [|p ps IH]; intros parts; simpl; [by intros [= ->]|]. intros Ho Hp Hw.
  destruct (push_piece parts p) as [parts'|] eqn:E; [|done]. simpl in Ho.
  assert (parts' = push_component parts p) as ->.
  { revert E. unfold push_piece, push_component. repeat case_bool_decide; naive_solver. }
  apply IH; [done|apply push_component_ok; [done|]|]; set_solver.
Qed.

Lemma push_pieces_id parts ps : Forall component_ok ps → push_pieces parts ps = Some (parts ++ ps).
Proof.
  intros Hp. revert parts. induction Hp as [|p ps (Hne & Hdot & Hdd & _) _ IH]; intros parts; simpl; [by rewrite app_nil_r|].
  unfold push_piece. rewrite bool_decide_false by naive_solver. rewrite bool_decide_false by done. simpl. by rewrite IH, <-app_assoc.
Qed.

Lemma normalize_parts_ok s parts : normalize_parts s = Some parts → Forall component_ok parts.
Proof. intros Hn. eapply push_pieces_ok; [exact Hn|constructor|]. intros w Hw c Hc. by eapply split_on_pieces. Qed.

(** Both separators split what was joined. *)
Lemma split_sep_join parts :
  Forall component_ok parts → parts ≠ [] → split_on is_path_separator (join_slash parts) = parts.
Proof.
  induction 1 as [|p [|q ps] (_ & _ & _ & Hp) _ IH]; intros Hne; [done|by apply split_on_id|].
  rewrite join_slash_cons2, split_on_app_sep by done. f_equal. by apply IH.
Qed.

Lemma relativize_parts home root path rel :
  relativize_path home root path = Some rel → ∃ parts, rel = join_slash parts ∧ Forall component_ok parts.
Proof.
  unfold relativize_path. destruct (normalize_parts (expand_tilde home path)) as [pp|] eqn:Hp; [|done]. simpl.
  apply normalize_parts_ok in Hp. case_if; [|intros [= <-]; eauto].
  destruct (normalize_parts (expand_tilde home root)) as [rp|]; [|done]. simpl. case_bool_decide; [|done]. intros [= <-].
  eexists. split; [done|]. by apply Forall_drop.
Qed.

Lemma join_slash_nil_inv parts : Forall component_ok parts → join_slash parts = [] → parts = [].
Proof.
  intros Hp. destruct parts as [|p ps]; [done|]. apply Forall_cons in Hp as [(Hne & _) _]. destruct ps; simpl; [done|]. by intros [? _]%app_eq_nil.
Qed.

(** A relative path has its own normal form, unless its ends are white space. *)
Lemma normalize_relative parts :
  Forall component_ok parts → trim (join_slash parts) = join_slash parts → normalize_pattern (join_slash parts) = join_slash parts.
Proof.
  intros Hp Ht. unfold normalize_pattern. rewrite Ht. destruct parts as [|p ps]; [done|].
  rewrite split_sep_join by done. pose proof (push_pieces_id [] (p :: ps) Hp) as Hid.
  eapply push_pieces_ok in Hid as [_ ->]; [done|constructor|]. intros w Hw c Hc. eapply Forall_forall in Hp as (_ & _ & _ & H); [|done]. by apply H.
Qed.

Lemma relative_no_tilde home path : path_looks_absolute path = false → expand_tilde home path = path.
Proof.
  unfold path_looks_absolute, expand_tilde. intros Hp. destruct home; [|done].
  destruct (starts_with (lit "~/") path) eqn:Et.
  - exfalso. rewrite orb_true_r in Hp. simpl in Hp. destruct (starts_with (lit "//") path) eqn:Es; [|done].
    unfold starts_with in *. bool_to_prop. destruct Et as [? ->], Es as [? Es]. discriminate Es.
  - rewrite orb_false_r in Hp. case_bool_decide as E; [subst; vm_compute in Hp; done|done].
Qed.

Lemma rooted_no_tilde home root : expand_tilde home (ch_slash :: root) = ch_slash :: root.
Proof. unfold expand_tilde. by destruct home. Qed.

Lemma rooted_absolute root c : is_slash c = false → path_looks_absolute (ch_slash :: c :: root) = true.
Proof.
  intros Hc. unfold path_looks_absolute, starts_with. rewrite bool_decide_false.
  - rewrite bool_decide_true; [done|]. by exists (c :: root).
  - intros [k E]. simplify_eq/=.
Qed.

(** the relative and the absolute form of a path inside the project are
    one: prefixing a path with the absolute project root relativizes to what
    the path relativizes to. *)
Theorem relativize_absolute_agrees home c root path rel root_parts :
  is_slash c = false → normalize_parts (ch_slash :: c :: root) = Some root_parts → path_looks_absolute path = false →
  relativize_path home (ch_slash :: c :: root) path = Some rel →
  relativize_path home (ch_slash :: c :: root) ((ch_slash :: c :: root) ++ ch_slash :: path) = Some rel.
Proof.
  intros Hc Hroot Hpath. unfold relativize_path. rewrite relative_no_tilde, Hpath by done.
  cbn [app]. rewrite !rooted_no_tilde, rooted_absolute, Hroot by done.
  destruct (normalize_parts path) as [pp|] eqn:Hp; [|done]. simpl. intros [= <-].
  change (ch_slash :: c :: root ++ ch_slash :: path) with ((ch_slash :: c :: root) ++ ch_slash :: path).
  assert (normalize_parts ((ch_slash :: c :: root) ++ ch_slash :: path) = Some (root_parts ++ pp)) as ->.
  { unfold normalize_parts in *. rewrite split_on_app_any, push_pieces_app, Hroot by done. simpl.
    rewrite <-(app_nil_r root_parts) at 1. by apply push_pieces_above. }
  simpl. rewrite bool_decide_true by (by exists pp). by rewrite drop_app_length.
Qed.

(** A path a request may name. *)
Definition inside `{Globset} (rel : str) : Prop :=
  (∃ parts, parts ≠ [] ∧ rel = join_slash parts ∧ Forall component_ok parts) ∧
  contains (lit "..") rel = false ∧ (is_glob (compile rel) = true → is_matchable (compile rel) = true) ∧
  (trim rel = rel → norm (compile rel) = rel ∧ not_root rel).

Section requests.
Context `{Globset} (home : option str).

Lemma relativize_inside root path rel :
  relativize_path home root path = Some rel → rel ≠ [] → invalid_file_reservation_pattern rel = false → inside rel.
Proof.
  intros (parts & -> & Hp)%relativize_parts Hne Hv. unfold invalid_file_reservation_pattern in Hv.
  apply orb_false_iff in Hv as [Hdd Hg]. split_and!; [exists parts; naive_solver|done| |].
  - intros Hglob. rewrite Hglob in Hg. simpl in Hg. by apply negb_false_iff.
  - intros Ht. unfold not_root. simpl. by rewrite normalize_relative.
Qed.

(** what a request names after normalisation lies inside the project: the
    i-th normalised path is the i-th path relative to the project root, a
    non-empty list of real names joined by slashes, without a climb, and a glob
    that compiles; unless it starts or ends with white space it is its own
    normal form, so not the project root. *)
Theorem normalize_paths_inside root paths rels :
  normalize_paths home root paths = Answer rels →
  Forall2 (λ path rel, relativize_path home root path = Some rel ∧ inside rel) paths rels.
Proof.
  revert rels. induction paths as [|path paths IH]; intros rels; simpl; [by intros [= <-]|].
  destruct (relativize_path home root path) as [rel|] eqn:Hr; [|done]. case_bool_decide as Hne; [done|].
  destruct (invalid_file_reservation_pattern rel) eqn:Hv; [done|].
  destruct (normalize_paths home root paths) as [rels'|]; [|done]. intros [= <-].
  constructor; [|by apply IH]. split; [done|]. by eapply relativize_inside.
Qed.

(** a name of white space slips through: [./ /.] is not refused, and what is
    reserved is a single space, whose normal form is the project root, so that
    it overlaps every pattern. *)
Theorem blank_name_takes_everything root :
  let raw := lit "./ /." in
  detect_suspicious_file_reservation raw = false ∧ normalize_paths home root [raw] = Answer [lit " "] ∧
  ¬ not_root (lit " ") ∧ ∀ q, overlaps (compile (lit " ")) (compile q) = true.
Proof.
  cbn zeta. split_and!; [by vm_compute| | |].
  - cbn [normalize_paths]. unfold relativize_path. rewrite relative_no_tilde by (by vm_compute). by vm_compute.
  - intros Hn. by apply Hn.
  - intros q. by apply root_overlaps.
Qed.
End requests.

(** ** Reserving *)

Section reserving.
Context `{Globset} `{!GlobsetLaws} `{!ConflictDetector} `{!ConflictDetectorLaws} `{CellDecode}.
Context (iso decimal : Z → str).
Implicit Types d : Db.

(** The rows in the way of a path. *)
Definition in_the_way (now project agent : Z) (excl : bool) d (path : str) (r : StoredRow) : Prop :=
  (project_id r = project ∧ active d r = true ∧ now < expires_ts r) ∧
  agent_id r ≠ agent ∧ (excl = true ∨ exclusive r ≠ 0) ∧ overlaps (compile (path_pattern r)) (compile path) = true.

#[global] Instance in_the_way_dec now project agent excl d path r : Decision (in_the_way now project agent excl d path r).
Proof. unfold in_the_way. apply _. Defined.

Definition ref_of_row (r : StoredRow) : ReservationIndex.ReservationRef :=
  {| ReservationIndex.agent_id := agent_id r; ReservationIndex.path_pattern := path_pattern r;
     ReservationIndex.exclusive := negb (exclusive r =? 0); ReservationIndex.expires_ts := expires_ts r |}.

(** What the index answers about a path, from the rows of the table. *)
Definition held (now project agent : Z) (excl : bool) d (path : str) : list ReservationIndex.ReservationRef :=
  ref_of_row <$> filter (in_the_way now project agent excl d path) (rows d).

Lemma join_release_active d r : active d r = true → join_release d r = r.
Proof. unfold active, join_release. intros [_ Hl%bool_decide_eq_true]%andb_true_iff. rewrite Hl. by destruct r. Qed.

Lemma decode_rows_refs rs out :
  decode_rows rs = Ok out → Forall2 (λ r row, reservation_ref row = (path_pattern r, ref_of_row r) ∧ fr_exclusive row = exclusive r ∧ fr_agent_id row = agent_id r) rs out.
Proof.
  revert out. induction rs as [|r rs IH]; intros out; simpl; [intros [= <-]; constructor|].
  unfold decode_file_reservation_row. destruct (decode_cell _); [|done]. destruct (decode_rows rs) as [out'|]; [|done].
  intros [= <-]. constructor; [done|]. by apply IH.
Qed.

Lemma held_spec now project agent excl d path active_rows :
  get_active_reservations now project d = Ok active_rows → not_root path →
  ReservationIndex.find_conflicts (index_of agent excl active_rows) (compile path) ≡ₚ held now project agent excl d path.
Proof.
  unfold get_active_reservations, index_of. intros Hl Hn. rewrite find_conflicts_spec by done.
  apply decode_rows_refs in Hl. unfold held. set (sel := filter _ (rows d)) in Hl.
  assert (filter (in_the_way now project agent excl d path) (rows d) =
    filter (λ r, agent_id r ≠ agent ∧ (excl = true ∨ exclusive r ≠ 0) ∧ overlaps (compile (path_pattern r)) (compile path) = true) sel) as ->.
  { unfold sel. rewrite list_filter_filter. apply list_filter_iff. intros r. unfold in_the_way. tauto. }
  replace (join_release d <$> sel) with sel in Hl.
  2: { unfold sel. symmetry. rewrite <-(list_fmap_id (filter _ _)) at 2. apply Forall_fmap_ext_1, Forall_forall. intros r [(_ & Ha & _) _]%list_elem_of_filter.
       by apply join_release_active. }
  clear - Hl. induction Hl as [|r row rs out (Hr & Hx & Ha) _ IH]; [done|].
  assert (minded agent excl row = true ↔ agent_id r ≠ agent ∧ (excl = true ∨ exclusive r ≠ 0)) as Hm.
  { unfold minded. rewrite Hx, Ha, andb_true_iff, orb_true_iff, !negb_true_iff, !Z.eqb_neq. tauto. }
  rewrite !filter_cons. destruct (decide (minded agent excl row = true)) as [Hd|Hd].
  - rewrite fmap_cons, Hr, filter_cons. cbn [fst]. destruct (decide (overlaps (compile (path_pattern r)) (compile path) = true)).
    + rewrite decide_True by tauto. by apply perm_skip.
    + rewrite decide_False by tauto. exact IH.
  - rewrite decide_False by tauto. done.
Qed.

(** The two lists a request is sorted into. *)
Lemma sort_paths_spec idx seen paths grant pending :
  sort_paths idx seen paths = (grant, pending) →
  NoDup (grant ++ pending.*1) ∧ (∀ p, p ∈ grant ++ pending.*1 ↔ p ∈ paths ∧ p ∉ seen) ∧
  (∀ p, p ∈ grant → ReservationIndex.find_conflicts idx (compile p) = []) ∧
  (∀ c, c ∈ pending → c.2 = ReservationIndex.find_conflicts idx (compile c.1) ∧ c.2 ≠ []).
Proof.
  revert seen grant pending. induction paths as [|path paths IH]; intros seen grant pending; cbn [sort_paths].
  { intros [= <- <-]. split_and!; [constructor|set_solver..]. }
  case_bool_decide as Hs.
  { intros (? & Hin & ? & ?)%IH. split_and!; [done| |done|done]. intros p. rewrite Hin. set_solver. }
  destruct (sort_paths idx ({[path]} ∪ seen) paths) as [grant' pending'] eqn:E. apply IH in E as (Hnd & Hin & Hg & Hp).
  assert (path ∉ grant' ++ pending'.*1) as Hfresh by (rewrite Hin; set_solver).
  destruct (ReservationIndex.find_conflicts idx (compile path)) as [|r refs] eqn:Ef; intros [= <- <-].
  - split_and!; [by apply NoDup_cons| | |done].
    + intros p. rewrite <-app_comm_cons, elem_of_cons, Hin, elem_of_cons. destruct (decide (p = path)); set_solver.
    + intros p [->|?]%elem_of_cons; [done|by apply Hg].
  - rewrite fmap_cons. assert (grant' ++ path :: pending'.*1 ≡ₚ path :: grant' ++ pending'.*1) as Hperm by (symmetry; apply Permutation_middle).
    split_and!; [rewrite Hperm; by apply NoDup_cons| |done|].
    + intros p. rewrite Hperm, elem_of_cons, Hin, elem_of_cons. destruct (decide (p = path)); set_solver.
    + intros c [->|?]%elem_of_cons; [split; [symmetry; exact Ef|done]|by apply Hp].
Qed.

(** Only zero and one are stored in [exclusive]. *)
Definition binary d : Prop := Forall (λ r, exclusive r = 0 ∨ exclusive r = 1) (rows d).

Lemma not_blocked now now' project agent excl d path :
  binary d → now ≤ now' → filter (in_the_way now project agent excl d path) (rows d) = [] → ∀ r, ¬ blocks now' project agent excl d path r.
Proof.
  intros Hb Ht Hf r (Hr & ? & ? & ? & ? & Hx & ?). apply (not_elem_of_nil r). rewrite <-Hf. apply list_elem_of_filter.
  split; [|done]. unfold in_the_way. split_and!; try done; [lia|]. destruct Hx; [by left|right; lia].
Qed.

Lemma listed_decodable now project d :
  (∀ r, r ∈ rows d → active d r = true → decodable r) → ∃ rs, get_active_reservations now project d = Ok rs.
Proof.
  intros Hd. unfold get_active_reservations. destruct (decode_rows _) as [rs|e] eqn:E; [eauto|].
  apply decode_rows_err in E as (r' & (r & -> & [(_ & Ha & _) Hr]%list_elem_of_filter)%list_elem_of_fmap & Hn).
  rewrite join_release_active in Hn by done. destruct Hn. by apply Hd.
Qed.

(** a request that nobody disturbs is answered completely.  Its distinct
    paths are split into those granted and those in conflict; a path is in
    conflict exactly when another agent's live reservation overlaps it and one
    of the two is exclusive, and then every such reservation is named; the
    granted paths are what was added to the table, as one row each. *)
Theorem grant_paths_spec w project agent ttl excl why paths ns d :
  wf d → binary d → (∀ r, r ∈ rows d → active d r = true → decodable r) →
  Forall not_root paths → sequence d + Z.of_nat (length paths) ≤ i64_max →
  listed_ok w = true → names w = Some ns → (∀ d', before_write w d' = d') → now_listed w ≤ now_written w →
  ∃ resp d', grant_paths iso decimal w project agent ttl excl why paths d = (Answer resp, d') ∧
    let granted_paths := granted_pattern <$> granted resp in
    granted_paths ++ (conflict_path <$> conflicts resp) ≡ₚ remove_dups paths ∧
    (∀ p, p ∈ granted_paths → held (now_listed w) project agent excl d p = []) ∧
    (∀ c, c ∈ conflicts resp → holders c ≠ [] ∧
       holders c ≡ₚ holder_of iso decimal ns <$> held (now_listed w) project agent excl d (conflict_path c)) ∧
    let l := new_rows (now_written w) (i64_saturating_add (now_written w) (i64_saturating_mul ttl 1000000)) project agent excl why (sequence d + 1) granted_paths in
    granted resp = granted_of iso <$> (report <$> l) ∧ d' = append_rows l (Z.of_nat (length granted_paths)) d.
Proof.
  intros Hwf Hb Hdec Hroot Hroom Hl Hns Hu Ht. unfold grant_paths, listed. rewrite Hl.
  destruct (listed_decodable (now_listed w) project d Hdec) as [active_rows Ha]. rewrite Ha.
  destruct (sort_paths _ ∅ paths) as [grant pending] eqn:Es. apply sort_paths_spec in Es as (Hnd & Hin & Hg & Hp).
  assert (match pending with [] => Some [] | _ => agent_names ← names w; Some (resolve_conflicts iso decimal agent_names pending) end =
    Some (resolve_conflicts iso decimal ns pending)) as -> by (rewrite Hns; by destruct pending).
  assert (conflict_path <$> resolve_conflicts iso decimal ns pending = pending.*1) as Hcp by (unfold resolve_conflicts; by rewrite <-list_fmap_compose).
  assert (∀ p, p ∈ grant ++ pending.*1 → not_root p) as Hnr.
  { intros p [Hpin _]%Hin. by eapply Forall_forall in Hpin. }
  assert (∀ p, p ∈ grant → held (now_listed w) project agent excl d p = []) as Hfree.
  { intros p Hpg. apply Permutation_nil_r. rewrite <-(held_spec _ _ _ _ _ _ _ Ha); [by rewrite Hg|]. apply Hnr, elem_of_app. by left. }
  assert (grant ++ pending.*1 ≡ₚ remove_dups paths) as Hperm.
  { apply NoDup_Permutation; [done|apply NoDup_remove_dups|]. intros p. rewrite Hin, elem_of_remove_dups. set_solver. }
  assert (∀ c, c ∈ resolve_conflicts iso decimal ns pending → holders c ≠ [] ∧
    holders c ≡ₚ holder_of iso decimal ns <$> held (now_listed w) project agent excl d (conflict_path c)) as Hconf.
  { unfold resolve_conflicts. intros c (c0 & -> & Hc0)%list_elem_of_fmap. destruct (Hp _ Hc0) as [E Hne]. cbn [holders conflict_path].
    pose proof (merge_sort_Permutation (pending_le iso) c0.2) as Hms. split.
    - intros Hnil%fmap_nil_inv. rewrite Hnil in Hms. by apply Permutation_nil_l in Hms.
    - apply fmap_Permutation. rewrite Hms, E. apply held_spec; [done|]. apply Hnr, elem_of_app. right. by apply list_elem_of_fmap_2. }
  destruct grant as [|g grant].
  { eexists _, d. split; [done|]. cbn [granted conflicts]. rewrite Hcp. split_and!; [done|by intros p ?%elem_of_nil|done|done|].
    destruct d. unfold append_rows. simpl. by rewrite app_nil_r, Z.add_0_r. }
  set (gr := g :: grant) in *. rewrite Hu.
  assert (length gr ≤ length paths)%nat as Hlen.
  { apply submseteq_length, NoDup_submseteq; [by apply NoDup_app in Hnd as (? & _)|]. intros p Hpg. apply Hin, elem_of_app. by left. }
  pose proof (create_result (now_written w) project agent gr ttl excl why d Hwf ltac:(lia)) as Hc. cbv zeta in Hc.
  destruct (create_file_reservations _ _ _ _ _ _ _ _) as [[out|[path n| |]] d']; [|exfalso|done|done].
  - destruct Hc as (_ & -> & ->). eexists _, _. split; [done|]. cbn [granted conflicts]. rewrite Hcp.
    rewrite <-(list_fmap_compose (granted_of iso) granted_pattern).
    change (granted_pattern ∘ granted_of iso) with fr_path_pattern. rewrite new_rows_paths. by split_and!.
  - destruct Hc as (_ & Hpath & r & Hr & _). revert r Hr. apply (not_blocked (now_listed w)); [done|done|].
    specialize (Hfree _ Hpath). by apply fmap_nil_inv in Hfree.
Qed.

Lemma sort_paths_grant now project agent excl d active_rows paths grant pending p :
  get_active_reservations now project d = Ok active_rows → Forall not_root paths →
  sort_paths (index_of agent excl active_rows) ∅ paths = (grant, pending) →
  p ∈ paths → held now project agent excl d p = [] → p ∈ grant ∧ p ∉ pending.*1.
Proof.
  intros Ha Hroot (Hnd & Hin & Hg & Hp)%sort_paths_spec Hpin Hh.
  assert (p ∉ pending.*1) as Hn.
  { intros (c & -> & Hc)%list_elem_of_fmap. destruct (Hp _ Hc) as [E Hne]. apply Hne, Permutation_nil_r.
    rewrite E, (held_spec _ _ _ _ _ _ _ Ha); [by rewrite Hh|]. by eapply Forall_forall in Hpin. }
  split; [|done]. assert (p ∈ grant ++ pending.*1) as [?|?]%elem_of_app by (apply Hin; set_solver); done.
Qed.

(** a request that another agent overtakes loses more than it has to.  When
    one of the paths found free is reserved by someone else before the write,
    nothing is granted at all, and a path that stayed free throughout is
    neither granted nor reported as a conflict. *)
Theorem contended_request_drops_paths w project agent ttl excl why paths ns ns' d p q r :
  let d1 := before_write w d in let d2 := before_relist w d1 in
  (∀ r, r ∈ rows d → active d r = true → decodable r) → (∀ r, r ∈ rows d2 → active d2 r = true → decodable r) →
  Forall not_root paths → wf d1 → sequence d1 + Z.of_nat (length paths) ≤ i64_max →
  listed_ok w = true → relisted_ok w = true → names w = Some ns → names_again w = Some ns' →
  p ∈ paths → q ∈ paths → held (now_listed w) project agent excl d p = [] → held (now_listed w) project agent excl d q = [] →
  blocks (now_written w) project agent excl d1 q r → not_root (path_pattern r) → held (now_relisted w) project agent excl d2 p = [] →
  ∃ resp, grant_paths iso decimal w project agent ttl excl why paths d = (Answer resp, d2) ∧
    granted resp = [] ∧ p ∉ conflict_path <$> conflicts resp.
Proof.
  intros d1 d2 Hdec Hdec2 Hroot Hwf Hroom Hl Hl2 Hns Hns2 Hp Hq Hhp Hhq Hblock Hnr Hp2. unfold grant_paths, listed. rewrite Hl.
  destruct (listed_decodable (now_listed w) project d Hdec) as [rs Ha]. rewrite Ha.
  destruct (sort_paths _ ∅ paths) as [grant pending] eqn:Es.
  destruct (sort_paths_grant _ _ _ _ _ _ _ _ _ _ Ha Hroot Es Hp Hhp) as [Hpg Hpn].
  destruct (sort_paths_grant _ _ _ _ _ _ _ _ _ _ Ha Hroot Es Hq Hhq) as [Hqg _].
  apply sort_paths_spec in Es as (Hnd & Hin & _).
  assert (match pending with [] => Some [] | _ => agent_names ← names w; Some (resolve_conflicts iso decimal agent_names pending) end =
    Some (resolve_conflicts iso decimal ns pending)) as -> by (rewrite Hns; by destruct pending).
  destruct grant as [|g grant]; [by apply elem_of_nil in Hpg|]. set (gr := g :: grant) in *.
  assert (length gr ≤ length paths)%nat as Hlen.
  { apply submseteq_length, NoDup_submseteq; [by apply NoDup_app in Hnd as (? & _)|]. intros x Hx. apply Hin, elem_of_app. by left. }
  fold d1. pose proof (create_result (now_written w) project agent gr ttl excl why d1 Hwf ltac:(lia)) as Hc. cbv zeta in Hc.
  destruct (create_file_reservations _ _ _ _ _ _ _ _) as [[out|[path n| |]] d']; [exfalso|..|done|done].
  - destruct Hc as (Hno & _). apply (Hno q r); [done| |done..]. by eapply Forall_forall in Hroot.
  - destruct Hc as [-> _]. fold d2. rewrite Hl2, Hns2. destruct (listed_decodable (now_relisted w) project d2 Hdec2) as [rs2 Ha2]. rewrite Ha2.
    eexists. split; [done|]. split; [done|]. cbn [conflicts]. rewrite fmap_app, not_elem_of_app. split.
    + unfold resolve_conflicts. by rewrite <-list_fmap_compose.
    + unfold fresh_conflicts. intros (c & -> & (x & Hx & Hm)%list_elem_of_omap)%list_elem_of_fmap.
      pose proof (held_spec (now_relisted w) project agent excl d2 (conflict_path c) _ Ha2) as Hh.
      destruct (ReservationIndex.find_conflicts _ (compile x)) as [|rf refs] eqn:Ef; [done|]. injection Hm as <-. cbn [conflict_path] in *.
      rewrite Ef, Hp2 in Hh. symmetry in Hh. eapply Permutation_nil_cons, Hh. by eapply Forall_forall in Hp.
Qed.
End reserving.

(** ** Releasing *)

Section releasing.
Context `{Globset} `{!GlobsetLaws} `{!ConflictDetector} `{!ConflictDetectorLaws} `{CellDecode}.
Context (home : option str) (decode_listed : Cell → option (option Z)).
Implicit Types d : Db.

(** Selections that agree on the active rows release the same. *)
Lemma releases_exactly_on sel1 sel2 d d' out :
  (∀ r, r ∈ rows d → active d r = true → sel1 r ↔ sel2 r) → releases_exactly sel1 d d' out → releases_exactly sel2 d d' out.
Proof.
  intros Hext (R1 & R2 & R3). split_and!; [|done|].
  - apply Forall2_same_length_lookup in R1 as [Hlen R1]. apply Forall2_same_length_lookup. split; [done|].
    intros i r r' Hr Hr'. destruct (R1 i r r' Hr Hr') as (? & ? & Ha). split_and!; [done..|]. rewrite Ha.
    apply list_elem_of_lookup_2 in Hr. split; intros [Hact Hn]; (split; [done|]); intros Hs; by apply Hn, (Hext r Hr Hact).
  - intros id. rewrite R3. split; intros (r & Hr & ? & Hact & Hs); exists r; (split_and!; [done..|]); by apply (Hext r Hr Hact).
Qed.

(** The filters of a release and of a renewal. *)
Definition passes (paths : option (list str)) (ids : option (list Z)) (r : StoredRow) : Prop :=
  match ids with Some l => row_id r ∈ l | None => True end ∧
  match paths with
  | Some pats => Exists (λ pat, path_pattern r = pat ∨ overlaps (compile pat) (compile (path_pattern r)) = true) pats
  | None => True
  end.

#[global] Instance passes_dec paths ids r : Decision (passes paths ids r).
Proof. unfold passes. destruct paths, ids; apply _. Defined.

(** The rows a call asks to release: with filters, those whose listing is
    unreleased and that pass. *)
Definition asked (project agent : Z) (paths : option (list str)) (ids : option (list Z)) (r : StoredRow) : Prop :=
  project_id r = project ∧ agent_id r = agent ∧
  ((paths = None ∧ ids = None) ∨ decode_listed (released_ts r) = Some None ∧ passes paths ids r).

Lemma renewal_filter_spec decode r row agent paths ids :
  Cleanup.listed_row decode r = Some row →
  renewal_filter_matches row agent paths ids = true ↔
  agent_id r = agent ∧ decode (released_ts r) = Some None ∧ passes paths ids r.
Proof.
  intros (rel & Hrel & [= <-])%bind_Some. unfold renewal_filter_matches, passes. cbn. rewrite Hrel, !andb_true_iff, bool_decide_eq_true, Z.eqb_eq.
  assert (from_option (λ ids, bool_decide (row_id r ∈ ids)) true ids = true ↔ match ids with Some l => row_id r ∈ l | None => True end) as ->
    by (destruct ids; simpl; [by rewrite bool_decide_eq_true|done]).
  assert (from_option (λ pats, existsb (λ pat, bool_decide (path_pattern r = pat) || overlaps (compile pat) (compile (path_pattern r))) pats) true paths = true ↔
    match paths with Some pats => Exists (λ pat, path_pattern r = pat ∨ overlaps (compile pat) (compile (path_pattern r)) = true) pats | None => True end) as ->.
  { destruct paths as [pats|]; simpl; [|done]. rewrite existsb_exists, Exists_exists. setoid_rewrite list_elem_of_In.
    setoid_rewrite orb_true_iff. by setoid_rewrite bool_decide_eq_true. }
  naive_solver congruence.
Qed.

Lemma listed_asked project agent paths ids d existing :
  wf d → paths ≠ None ∨ ids ≠ None → Cleanup.list_unreleased_file_reservations decode_listed project d = Some existing →
  let l := omap fr_id (filter (λ res, renewal_filter_matches res agent paths ids = true) existing) in
  ∀ r, r ∈ rows d → active d r = true → selected project agent None (Some l) r ↔ asked project agent paths ids r.
Proof.
  intros Hwf Hsome Hm l r Hr Ha. unfold Cleanup.list_unreleased_file_reservations in Hm. apply mapM_Some in Hm.
  assert (row_id r ∈ l ↔ project_id r = project ∧ ∃ row, Cleanup.listed_row decode_listed r = Some row ∧ renewal_filter_matches row agent paths ids = true) as Hl.
  { unfold l. rewrite list_elem_of_omap. split.
    - intros (row & (Hf & [i Hi]%list_elem_of_lookup)%list_elem_of_filter & Hid).
      destruct (Forall2_lookup_r _ _ _ _ _ Hm Hi) as (r' & Hr' & Hrow). apply list_elem_of_lookup_2, list_elem_of_filter in Hr' as [[Hp' _] Hr'].
      assert (r' = r) as ->; [|eauto]. apply (wf_id_inj d); try done. apply bind_Some in Hrow as (rel & _ & [= <-]). simpl in Hid. congruence.
    - intros (Hp & row & Hrow & Hf). exists row. split; [|by apply bind_Some in Hrow as (rel & _ & [= <-])]. apply list_elem_of_filter. split; [done|].
      assert (r ∈ filter (λ r, project_id r = project ∧ active d r = true) (rows d)) as [i Hi]%list_elem_of_lookup by (by apply list_elem_of_filter).
      destruct (Forall2_lookup_l _ _ _ _ _ Hm Hi) as (row' & Hi' & Hrow'). assert (row' = row) as -> by congruence. by eapply list_elem_of_lookup_2. }
  unfold selected, release_filter. rewrite Hl. unfold asked. split.
  - intros (? & ? & (_ & row & Hrow & Hf) & _). apply (renewal_filter_spec _ _ _ _ _ _ Hrow) in Hf as (_ & ? & ? & ?). split_and!; [done..|]. right. by split.
  - intros (? & ? & [[-> ->]|[Hrel Hpass]]); [by destruct Hsome|]. split_and!; [done..| |done].
    destruct (Cleanup.listed_row decode_listed r) as [row|] eqn:Hrow; [|unfold Cleanup.listed_row in Hrow; by rewrite Hrel in Hrow].
    exists row. split; [done|]. by apply (renewal_filter_spec _ _ _ _ _ _ Hrow).
Qed.

(** releasing, undisturbed, does what was asked and says how much: exactly
    the caller's active reservations that pass the filters become inactive,
    whatever their number, and the answer is the number of rows released.  A
    call that is refused because of its arguments changes nothing, and a
    database error needs a row that cannot be read. *)
Theorem release_tool_spec t p agent name paths ids d :
  wf d → undisturbed (touch_env t) → (∀ d', touch_before t d' = d') →
  touch_project t = Answer p → touch_agent t = Answer (agent, name) → touch_listed_ok t = true →
  match normalize_filter_paths home (human_key p) paths, release_file_reservations home decode_listed t paths ids d with
  | Refuse e, res => res = Some (Refuse e, d)
  | Answer pats, Some (Answer n, d') => wf d' ∧ ∃ out, n = i32_of_len out ∧ releases_exactly (asked (pid p) agent pats ids) d d' out
  | Answer _, Some (Refuse e, d') =>
      wf d' ∧ e = Database ∧ ∃ r, r ∈ rows d ∧ active d r = true ∧ (¬ decodable r ∨ decode_listed (released_ts r) = None)
  | Answer _, None => False
  end.
Proof.
  intros Hwf Hu Hb Hp Ha Hl. unfold release_file_reservations. rewrite Hp, Ha.
  destruct (normalize_filter_paths home (human_key p) paths) as [pats|e]; [|done].
  destruct (ids_to_release decode_listed t (pid p) agent pats ids d) as [l|] eqn:El.
  - rewrite Hb. pose proof (release_fuel_post (touch_env t) (pid p) agent 3 None l (touch_clock t) d Hwf Hu (depth_three _ _)) as Hpost.
    fold (release_reservations (touch_env t) (pid p) agent None l (touch_clock t) d) in Hpost.
    destruct (release_reservations _ _ _ _ _ _ _) as [[[[out|e] c] d']|]; [| |done]; simpl in Hpost.
    + destruct Hpost as [? Hex]. split; [done|]. exists out. split; [done|]. eapply releases_exactly_on, Hex. intros r Hr Hact.
      unfold ids_to_release in El. rewrite Hl in El.
      destruct pats as [pats|], ids as [ids|].
      1-3: destruct (Cleanup.list_unreleased_file_reservations _ _ _) as [ex|] eqn:Eex; [|done]; injection El as <-; assert (∀ A (x : A), Some x ≠ None) as Hne by done; eapply (listed_asked _ _ _ _ d ex); eauto.
      injection El as <-. unfold selected, release_filter, asked. tauto.
    + destruct Hpost as (? & r & ? & ? & ?). split_and!; [done..|]. exists r. naive_solver.
  - split_and!; [done..|]. unfold ids_to_release in El. rewrite Hl in El.
    destruct (Cleanup.list_unreleased_file_reservations decode_listed (pid p) d) as [ex|] eqn:Eex; [by destruct pats, ids|].
    unfold Cleanup.list_unreleased_file_reservations in Eex. apply mapM_None in Eex. apply Exists_exists in Eex as (r & [[_ Hact] Hr]%list_elem_of_filter & Hn).
    exists r. split_and!; [done..|]. right. unfold Cleanup.listed_row in Hn. by destruct (decode_listed (released_ts r)).
Qed.
End releasing.

(** ** Renewing *)

Section renewing.
Context `{Globset} `{!GlobsetLaws} `{!ConflictDetector} `{!ConflictDetectorLaws} `{CellDecode}.
Context (home : option str) (iso : Z → str) (decode_active : Cell → option (option Z)).
Implicit Types d : Db.

(** The rows a call renews, with the clock at the write. *)
Definition to_renew (now project agent : Z) (paths : option (list str)) (ids : option (list Z)) d (r : StoredRow) : Prop :=
  project_id r = project ∧ agent_id r = agent ∧ active d r = true ∧ now < expires_ts r ∧
  decode_active (released_ts r) = Some None ∧ passes paths ids r.

#[global] Instance to_renew_dec now project agent paths ids d r : Decision (to_renew now project agent paths ids d r).
Proof. unfold to_renew. apply _. Defined.

Lemma foldl_expiries (rs : list FileReservationRow) (m : gmap Z Z) id :
  is_Some (foldl (λ m row, match fr_id row with Some id => <[id := fr_expires_ts row]> m | None => m end) m rs !! id) ↔
  is_Some (m !! id) ∨ Some id ∈ fr_id <$> rs.
Proof.
  revert m. induction rs as [|row rs IH]; intros m; cbn [foldl]; [set_solver|]. rewrite IH, fmap_cons, elem_of_cons.
  destruct (fr_id row) as [id'|]; [|naive_solver]. destruct (decide (id = id')) as [->|Hne].
  - rewrite lookup_insert_eq. naive_solver.
  - rewrite lookup_insert_ne by done. naive_solver.
Qed.

Lemma foldl_expiries_value (rs : list FileReservationRow) (m : gmap Z Z) id e :
  foldl (λ m row, match fr_id row with Some id => <[id := fr_expires_ts row]> m | None => m end) m rs !! id = Some e →
  m !! id = Some e ∨ ∃ row, row ∈ rs ∧ fr_id row = Some id ∧ e = fr_expires_ts row.
Proof.
  revert m. induction rs as [|row rs IH]; intros m; cbn [foldl]; [by left|]. intros [Hm|(row' & ? & ?)]%IH; [|right; exists row'; set_solver].
  destruct (fr_id row) as [id'|] eqn:Ei; [|by left]. apply lookup_insert_Some in Hm as [[-> <-]|[_ Hm]]; [|by left].
  right. exists row. set_solver.
Qed.

(** What the listing remembers: the rows to renew, with their expiries. *)
Lemma previous_spec now project agent paths ids d existing :
  list_active decode_active now project d = Some existing →
  let m := collect_previous_expiries existing agent paths ids in
  (∀ id, is_Some (m !! id) ↔ ∃ r, r ∈ rows d ∧ row_id r = id ∧ to_renew now project agent paths ids d r) ∧
  (∀ id e, m !! id = Some e → ∃ r, r ∈ rows d ∧ row_id r = id ∧ e = expires_ts r).
Proof.
  unfold list_active. intros Hm. apply mapM_Some in Hm. set (sel := filter _ (rows d)) in Hm.
  assert (∀ r, r ∈ sel ↔ r ∈ rows d ∧ project_id r = project ∧ active d r = true ∧ now < expires_ts r) as Hsel
    by (intros r; unfold sel; rewrite list_elem_of_filter; tauto).
  assert (∀ row, row ∈ existing → ∃ r, r ∈ sel ∧ Cleanup.listed_row decode_active r = Some row ∧ fr_id row = Some (row_id r) ∧ fr_expires_ts row = expires_ts r) as Hrow.
  { intros row [i Hi]%list_elem_of_lookup. destruct (Forall2_lookup_r _ _ _ _ _ Hm Hi) as (r & Hr & Hl). apply list_elem_of_lookup_2 in Hr.
    exists r. rewrite join_release_active in Hl by (by apply Hsel in Hr as (_ & _ & ? & _)). split_and!; [done..| |]; by apply bind_Some in Hl as (rel & _ & [= <-]). }
  unfold collect_previous_expiries. split.
  - intros id. rewrite foldl_expiries, lookup_empty. split.
    + intros [[? ?]|(row & E & [Hf Hin]%list_elem_of_filter)%list_elem_of_fmap]; [done|]. destruct (Hrow row Hin) as (r & Hr & Hl & Hid & _).
      apply (renewal_filter_spec _ _ _ _ _ _ Hl) in Hf as (? & ? & ?). apply Hsel in Hr as (? & ? & ? & ?). exists r. split_and!; [done|congruence|]. done.
    + intros (r & Hr & <- & Hp & Ha & Hact & Hn & Hd & Hpass). right.
      assert (r ∈ sel) as [i Hi]%list_elem_of_lookup by (by apply Hsel). destruct (Forall2_lookup_l _ _ _ _ _ Hm Hi) as (row & Hi' & Hl).
      rewrite join_release_active in Hl by done. apply list_elem_of_fmap. exists row. split; [by apply bind_Some in Hl as (rel & _ & [= <-])|].
      apply list_elem_of_filter. split; [by apply (renewal_filter_spec _ _ _ _ _ _ Hl)|by eapply list_elem_of_lookup_2].
  - intros id e [Hemp|(row & [_ Hin]%list_elem_of_filter & E & ->)]%foldl_expiries_value; [by rewrite lookup_empty in Hemp|].
    destruct (Hrow row Hin) as (r & Hr & _ & Hid & ->). apply Hsel in Hr as (? & _). exists r. split_and!; [done|congruence|done].
Qed.

(** renewing, undisturbed, extends exactly the caller's unexpired active
    reservations that pass the filters, by the extension after the later of
    now and their expiry, and reports for each the expiry it had and the one
    it has; nothing else in the table changes. *)
Theorem renew_tool_spec t p agent name extend_seconds paths ids d :
  wf d → (∀ d', touch_before t d' = d') → touch_now_listed t ≤ touch_clock t →
  touch_project t = Answer p → touch_agent t = Answer (agent, name) → touch_listed_ok t = true →
  let extend := i64_saturating_mul (extend_of extend_seconds) 1000000 in
  match normalize_filter_paths home (human_key p) paths, renew_file_reservations home iso decode_active t extend_seconds paths ids d with
  | Refuse e, res => res = (Refuse e, d)
  | Answer pats, (Answer (n, out), d') =>
      let sel := to_renew (touch_clock t) (pid p) agent pats ids d in
      rows d' = (λ r, if bool_decide (sel r) then set_expires (row_id r) (renewed_expiry (touch_clock t) extend (expires_ts r)) r else r) <$> rows d ∧
      releases d' = releases d ∧ sequence d' = sequence d ∧ n = i32_of_len out ∧
      (λ x, (renewed_id x, old_expires_ts x, new_expires_ts x)) <$> out =
        (λ r, (row_id r, iso (expires_ts r), iso (renewed_expiry (touch_clock t) extend (expires_ts r)))) <$> filter sel (rows d)
  | Answer _, (Refuse e, d') =>
      d' = d ∧ e = Database ∧ ∃ r, r ∈ rows d ∧ active d r = true ∧ (¬ decodable r ∨ decode_active (released_ts r) = None)
  end.
Proof.
  intros Hwf Hb Ht Hp Ha Hl extend. unfold renew_file_reservations. rewrite Hp, Ha, Hl.
  destruct (normalize_filter_paths home (human_key p) paths) as [pats|e]; [|done].
  destruct (list_active decode_active (touch_now_listed t) (pid p) d) as [existing|] eqn:El.
  2: { split_and!; [done..|]. unfold list_active in El. apply mapM_None, Exists_exists in El as (r & [(_ & Hact & _) Hr]%list_elem_of_filter & Hn).
       rewrite join_release_active in Hn by done. exists r. split_and!; [done..|]. right. unfold Cleanup.listed_row in Hn. by destruct (decode_active (released_ts r)). }
  apply (previous_spec _ _ agent pats ids) in El as [Hkeys Hvals]. set (m := collect_previous_expiries existing agent pats ids) in *. rewrite Hb.
  set (keys := (map_to_list m).*1).
  assert (∀ r, r ∈ rows d → renewable (touch_clock t) (pid p) agent None (Some keys) d r ↔ to_renew (touch_clock t) (pid p) agent pats ids d r) as Hext.
  { intros r Hr. unfold renewable, release_filter. assert (row_id r ∈ keys ↔ is_Some (m !! row_id r)) as ->.
    { unfold keys. rewrite list_elem_of_fmap. split; [|intros [e He]; exists (row_id r, e); split; [done|by apply elem_of_map_to_list]].
      intros ([k e] & -> & He%elem_of_map_to_list). eauto. }
    rewrite Hkeys. unfold to_renew. split.
    - intros (? & ? & ? & ? & (r' & Hr' & E & Hs) & _). assert (r' = r) as -> by (by apply (wf_id_inj d)). naive_solver.
    - intros (? & ? & ? & ? & ? & ?). split_and!; [done..| |done]. exists r. split_and!; try done. lia. }
  pose proof (renew_result (touch_clock t) (pid p) agent (extend_of extend_seconds) None (Some keys) d Hwf) as Hr. cbv zeta in Hr. fold extend in Hr.
  destruct (renew_reservations _ _ _ _ _ _ _) as [[out|e] d'].
  2: { destruct Hr as (-> & r & ? & ? & ?). split_and!; [done..|]. exists r. naive_solver. }
  destruct Hr as (Hrows & Hrel & Hseq & Hout). split_and!; [|done|done|unfold i32_of_len; by rewrite length_fmap|].
  - rewrite Hrows. apply list_fmap_ext. intros i r Hi%list_elem_of_lookup_2. unfold renew_row. by rewrite (bool_decide_ext _ _ (Hext r Hi)).
  - rewrite <-list_fmap_compose.
    assert (filter (renewable (touch_clock t) (pid p) agent None (Some keys) d) (rows d) = filter (to_renew (touch_clock t) (pid p) agent pats ids d) (rows d)) as Hf
      by (by apply filter_ext_in).
    rewrite <-Hf. symmetry. apply list_eq_Forall2, Forall2_fmap. apply Forall2_same_length_lookup in Hout as [Hlen Hout].
    apply Forall2_same_length_lookup. split; [done|]. intros i r row Hr Hrow. destruct (Hout i r row Hr Hrow) as [Hid Hexp].
    apply list_elem_of_lookup_2, list_elem_of_filter in Hr as [Hs Hr]. cbn. rewrite Hid, Hexp. cbn.
    apply Hext in Hs; [|done]. assert (is_Some (m !! row_id r)) as [e He].
    { apply Hkeys. exists r. split_and!; [done..|]. unfold to_renew in *. destruct_and!. split_and!; try done. lia. }
    rewrite He. destruct (Hvals _ _ He) as (r' & Hr' & E & ->). by rewrite (wf_id_inj d r' r).
Qed.
End renewing.

(** ** Forcing a release *)

Section forcing.
Context `{Globset} `{!GlobsetLaws} `{!ConflictDetector} `{!ConflictDetectorLaws} `{CellDecode}.
Implicit Types d : Db.

Lemma get_one id d rs :
  Cleanup.get_reservations_by_ids [id] d = Ok rs →
  match last rs with
  | None => ∀ r, r ∈ rows d → row_id r ≠ id
  | Some row => ∃ r, r ∈ rows d ∧ row_id r = id ∧ fr_project_id row = project_id r ∧ fr_agent_id row = agent_id r ∧
      fr_path_pattern row = path_pattern r ∧ fr_expires_ts row = expires_ts r
  end.
Proof.
  unfold Cleanup.get_reservations_by_ids. change (chunks (Z.to_nat MAX_IN_CLAUSE_ITEMS) [id]) with [[id]]. cbn [Cleanup.get_chunks].
  destruct (decode_rows _) as [out|e] eqn:Ed; [|done]. intros [= <-]. rewrite app_nil_r.
  assert (Forall2 (λ r row, fr_project_id row = project_id r ∧ fr_agent_id row = agent_id r ∧ fr_path_pattern row = path_pattern r ∧ fr_expires_ts row = expires_ts r)
    (filter (λ r, row_id r ∈ [id]) (rows d)) out) as Hf.
  { clear - Ed. revert out Ed. induction (filter _ _) as [|r l IH]; intros out; cbn [fmap list_fmap decode_rows]; [intros [= <-]; constructor|].
    unfold decode_file_reservation_row. destruct (decode_cell _); [|done]. destruct (decode_rows _) as [out'|]; [|done]. intros [= <-].
    constructor; [done|by apply IH]. }
  destruct (last out) as [row|] eqn:El.
  - rewrite last_lookup in El. destruct (Forall2_lookup_r _ _ _ _ _ Hf El) as (r & Hr & ?).
    apply list_elem_of_lookup_2, list_elem_of_filter in Hr as [?%list_elem_of_singleton ?]. exists r. naive_solver.
  - apply last_None in El as ->. apply Forall2_nil_inv_r in Hf. intros r Hr <-. apply (not_elem_of_nil r). rewrite <-Hf.
    apply list_elem_of_filter. split; [by left|done].
Qed.

(** The holder left no sign: inactive, silent, the latest commit found older
    than the grace period, and, where the searches of the workspace were not cut
    short by their limits, so is every file the pattern covers. *)
Definition abandoned (cfg : Cleanup.Config) (f : Force) (p : Project) (h : ReadCache.AgentRow) (md : Mail.Db) (r : StoredRow) : Prop :=
  let old t := Cleanup.grace_us cfg < i64_saturating_sub (force_now f) t in
  let fs := force_fs f in
  let repo := PatternActivity.reservation_open_repo_root fs (human_key p) in
  let normalized := PatternActivity.reservation_normalize_pattern (path_pattern r) in
  Cleanup.inactivity_us cfg < i64_saturating_sub (force_now f) (ReadCache.last_active_ts h) ∧
  (∀ t, Mail.get_agent_last_mail_activity (agent_id r) (pid p) md = Some t → old t) ∧
  (PatternActivity.path_exists fs (human_key p) = true → normalized ≠ [] → small fs (human_key p) (fst <$> repo) (snd <$> repo) normalized →
   ∀ q t, covers fs (human_key p) (fst <$> repo) (snd <$> repo) normalized q → modified_at fs q = Some t → old t) ∧
  (∀ t, PatternActivity.git_activity_micros (PatternActivity.reservation_pattern_activity_for_project fs (human_key p) (path_pattern r)) = Some t → old t).

Lemma judge_stale cfg f p h md r :
  all_signals_stale (judge cfg (force_now f) (ReadCache.last_active_ts h) (Mail.get_agent_last_mail_activity (agent_id r) (pid p) md)
    (PatternActivity.reservation_pattern_activity_for_project (force_fs f) (human_key p) (path_pattern r))) = true →
  abandoned cfg f p h md r.
Proof.
  unfold judge, abandoned. cbn [all_signals_stale]. set (a := PatternActivity.reservation_pattern_activity_for_project _ _ _).
  intros [[[Hi Hm]%andb_true_iff Hf]%andb_true_iff Hg]%andb_true_iff. apply Z.ltb_lt in Hi. apply negb_true_iff in Hf, Hg. split_and!; [done|..].
  - intros t Ht. rewrite Ht in Hm. by apply Z.ltb_lt in Hm.
  - intros Hex Hne Hsmall q t Hq Ht. subst a. unfold PatternActivity.reservation_pattern_activity_for_project, PatternActivity.reservation_project_workspace_path in Hf.
    rewrite Hex in Hf. cbn [mbind option_bind] in Hf.
    destruct (compute_activity_result (force_fs f) (human_key p) _ _ (path_pattern r) Hne Hsmall) as [_ Hl].
    destruct (PatternActivity.fs_activity_micros _) as [l|]; simpl in Hl, Hf.
    + destruct Hl as [_ Hl]. assert (t ≤ l) by eauto. apply Z.leb_gt in Hf. unfold i64_saturating_sub, i64_sat, i64_max, i64_min in *. lia.
    + exfalso. eapply Hl. eauto.
  - intros t Ht. rewrite Ht in Hg. simpl in Hg. by apply Z.leb_gt in Hg.
Qed.

(** What a forced release did to the reservations, others' writes before it
    aside. *)
Definition as_judged (id expiry : Z) d : Prop :=
  ∃ r, r ∈ rows d ∧ row_id r = id ∧ active d r = true ∧ expires_ts r = expiry.
Definition took (id expiry : Z) d d' : Prop :=
  as_judged id expiry d ∧ wanes d d' ∧
  (∀ r, r ∈ rows d → row_id r ≠ id → r ∈ rows d' ∧ active d' r = active d r) ∧
  (∀ r, r ∈ rows d' → row_id r = id → active d' r = false).

Lemma force_release_result marker id expiry d :
  match force_release_reservation marker id (Some expiry) d with
  | (Ok n, d') => if n =? 0 then d' = d ∧ ¬ as_judged id expiry d else took id expiry d d'
  | (Err _, _) => False
  end.
Proof.
  unfold force_release_reservation. cbn [from_option].
  destruct (release_constrained_result marker [id] (Exact expiry) d) as (ms & d' & -> & Hw & Hm & Hsp & Hdone & Hnil).
  destruct ms as [|mk ms]; simpl.
  - split; [by apply Hnil|]. intros (r & Hr & Hid & Ha & He). apply (not_elem_of_nil id). apply Hm. split; [by left|]. apply Exists_exists. by exists r.
  - assert (eligible_id (Exact expiry) d id) as Hel.
    { assert (marker_id mk ∈ marker_id <$> mk :: ms) as [E%list_elem_of_singleton ?]%Hm by (rewrite fmap_cons; by left). by rewrite <-E. }
    split_and!; [|done| |].
    + apply Exists_exists in Hel as (r & ? & ? & ? & ?). by exists r.
    + intros r Hr Hne. apply Hsp; [done|]. by intros ?%list_elem_of_singleton.
    + intros r Hr <-. apply not_true_iff_false. intros Ha. by apply (Hdone r Hr ltac:(by left) Ha).
Qed.

(** What can come of it, on every branch. *)
Lemma force_release_outcomes cfg f agent_name id notify d md :
  match force_release_file_reservation cfg f agent_name id notify d md with
  | (Answer (Released reasons notified), d', md') =>
      ∃ p r h, force_project f = Answer p ∧ r ∈ rows d ∧ row_id r = id ∧ project_id r = pid p ∧ holder f (agent_id r) = Some h ∧
        (expires_ts r ≤ force_now f ∨ abandoned cfg f p h md r) ∧ took id (expires_ts r) (force_before f d) d' ∧
        (notify = Some false ∨ ReadCache.name h = agent_name → notified = false ∧ md' = md)
  | (Refuse Conflict, d', md') =>
      (force_project f = Refuse Conflict ∨ force_actor f = Refuse Conflict) ∧ d' = d ∧ md' = md ∨
      d' = force_before f d ∧ md' = md ∧ ∃ r, r ∈ rows d ∧ row_id r = id ∧ ¬ as_judged id (expires_ts r) (force_before f d)
  | (_, d', md') => md' = md ∧ (d' = d ∨ d' = force_before f d)
  end.
Proof.
  unfold force_release_file_reservation. destruct (force_project f) as [p|[]] eqn:Ep; try (by auto).
  destruct (force_actor f) as [[actor name]|[]]; try (by auto).
  destruct (force_row_ok f); [|by auto]. destruct (Cleanup.get_reservations_by_ids [id] d) as [rs|e] eqn:Er; [|by auto].
  apply get_one in Er. destruct (last rs) as [row|]; [|by auto]. destruct Er as (r & Hr & Hid & Epj & Eag & Epat & Eexp).
  destruct (fr_project_id row =? pid p) eqn:Epid; cbn [negb]; [|by auto]. apply Z.eqb_eq in Epid.
  destruct (fr_released_ts row); [by auto|]. rewrite Eag. destruct (holder f (agent_id r)) as [h|] eqn:Eh; [|by auto].
  destruct (mail_ok f); cbn [negb]; [|by auto]. unfold force_row. rewrite Eag, Epat, Eexp.
  set (v := judge _ _ _ _ _). destruct (negb (all_signals_stale v) && negb (expires_ts r <=? force_now f)) eqn:Ev; [by auto|].
  destruct (force_released_ok f); cbn [negb]; [|by auto].
  pose proof (force_release_result (force_marker f) id (expires_ts r) (force_before f d)) as Hrel.
  destruct (force_release_reservation _ _ _ _) as [[n|e] d']; [|done]. destruct (n =? 0).
  { destruct Hrel as [-> Hrel]. right. split_and!; [done..|]. by exists r. }
  assert (expires_ts r ≤ force_now f ∨ abandoned cfg f p h md r) as Hwhy.
  { apply andb_false_iff in Ev as [Ev|Ev]; apply negb_false_iff in Ev; [right; by apply judge_stale|left; by apply Z.leb_le]. }
  destruct (default true notify && negb (bool_decide (ReadCache.name h = agent_name))) eqn:En.
  - destruct (notify_holder _ _ _ _ _ _ _) as [notified md']. exists p, r, h. split_and!; try done; [congruence|].
    intros [->| <-]; [done|]. rewrite bool_decide_true in En by done. by rewrite andb_false_r in En.
  - exists p, r, h. split_and!; try done. congruence.
Qed.

(** The reservation is over, or the four signals are stale. *)
Definition forfeit (cfg : Cleanup.Config) (f : Force) (p : Project) (h : ReadCache.AgentRow) (md : Mail.Db) (row : FileReservationRow) : bool :=
  all_signals_stale (judge cfg (force_now f) (ReadCache.last_active_ts h) (Mail.get_agent_last_mail_activity (fr_agent_id row) (pid p) md)
    (PatternActivity.reservation_pattern_activity_for_project (force_fs f) (human_key p) (fr_path_pattern row)))
  || (fr_expires_ts row <=? force_now f).

(** C9: a reservation is taken by force only when it is over or its holder
    left no sign of life in what the searches saw, and only as it was judged:
    the row is still active and expires when it did when the signs were read,
    and no other row changes.  Where nothing fails and an unreleased row of the
    project is found, what happens is decided: the reservation is refused as
    active when neither holds; otherwise it is released, or, if it was renewed
    or released meanwhile, the answer is a conflict and nothing is released. *)
Theorem force_release_spec cfg f agent_name id notify d md :
  match force_release_file_reservation cfg f agent_name id notify d md with
  | (Answer (Released reasons notified), d', md') =>
      ∃ p r h, force_project f = Answer p ∧ r ∈ rows d ∧ row_id r = id ∧ project_id r = pid p ∧ holder f (agent_id r) = Some h ∧
        (expires_ts r ≤ force_now f ∨ abandoned cfg f p h md r) ∧ took id (expires_ts r) (force_before f d) d' ∧
        (notify = Some false ∨ ReadCache.name h = agent_name → notified = false ∧ md' = md)
  | (Refuse Conflict, d', md') =>
      (force_project f = Refuse Conflict ∨ force_actor f = Refuse Conflict) ∧ d' = d ∧ md' = md ∨
      d' = force_before f d ∧ md' = md ∧ ∃ r, r ∈ rows d ∧ row_id r = id ∧ ¬ as_judged id (expires_ts r) (force_before f d)
  | (_, d', md') => md' = md ∧ (d' = d ∨ d' = force_before f d)
  end ∧
  (∀ p actor row h,
     force_project f = Answer p → force_actor f = Answer actor → force_row_ok f = true → mail_ok f = true → force_released_ok f = true →
     Cleanup.get_reservations_by_ids [id] d = Ok [row] → fr_project_id row = pid p → fr_released_ts row = None → holder f (fr_agent_id row) = Some h →
     let result := force_release_file_reservation cfg f agent_name id notify d md in
     (forfeit cfg f p h md row = false → result = (Refuse ReservationActive, d, md)) ∧
     (forfeit cfg f p h md row = true → as_judged id (fr_expires_ts row) (force_before f d) → ∃ reasons notified, result.1.1 = Answer (Released reasons notified)) ∧
     (forfeit cfg f p h md row = true → ¬ as_judged id (fr_expires_ts row) (force_before f d) → result = (Refuse Conflict, force_before f d, md))).
Proof.
  split; [apply force_release_outcomes|]. intros p [actor name] row h Ep Ea Er Em Eo Eg Epid Erel Eh. cbn zeta.
  unfold force_release_file_reservation, force_row. rewrite Ep, Ea, Er, Eg. cbn [last]. rewrite Epid, Z.eqb_refl, Erel, Eh, Em. cbn [negb].
  unfold forfeit. set (v := judge _ _ _ _ _). rewrite <-negb_orb.
  destruct (all_signals_stale v || (fr_expires_ts row <=? force_now f)); cbn [negb]; [|by split_and!].
  rewrite Eo. cbn [negb]. pose proof (force_release_result (force_marker f) id (fr_expires_ts row) (force_before f d)) as Hrel.
  destruct (force_release_reservation _ _ _ _) as [[n|e] d']; [|done]. destruct (n =? 0).
  - destruct Hrel as [-> Hno]. by split_and!.
  - destruct Hrel as [Hyes _]. split_and!; [done| |done]. intros _ _.
    destruct (_ && _); [destruct (notify_holder _ _ _ _ _ _ _)|]; by eexists _, _.
Qed.
End forcing.

(** ** Runs *)

Module ToolRuns.
#[local] Existing Instance RefGlob.ref_globset.
#[local] Existing Instance RefGlob.ref_globset_laws.
#[local] Existing Instance ConflictIndexContents.index_detector_laws.
#[local] Instance decode : CellDecode := λ c, match c with CNull => Some None | CInteger z => Some (Some z) | _ => None end.

Definition show (z : Z) : str := [Z.to_N (Z.abs z)].
Definition second : Z := 1000000.

Definition row (rid agent : Z) (pattern : str) (expires : Z) : StoredRow :=
  {| row_id := rid; project_id := 1; agent_id := agent; path_pattern := pattern; exclusive := 1; reason := []; created_ts := 0;
     expires_ts := expires * second; released_ts := CNull |}.
Definition table (rs : list StoredRow) : Db := {| rows := rs; releases := ∅; sequence := Z.of_nat (length rs) |}.

Definition p1 : Project := {| pid := 1; human_key := lit "/w/app" |}.

Lemma table_wf rs : NoDup (row_id <$> rs) → Forall (λ r, 1 ≤ row_id r ≤ Z.of_nat (length rs)) rs → wf (table rs).
Proof. intros ? ?. split; simpl; [done|done|apply map_Forall_empty|lia]. Qed.

(** The absolute and the relative name of one file. *)
Example relativize_absolute_agrees_witness :
  relativize_path None (lit "/w/app") (lit "/w/app/./src\x/../main.rs") = Some (lit "src/main.rs").
Proof.
  apply (relativize_absolute_agrees None 119%N (lit "/app") (lit "./src\x/../main.rs") (lit "src/main.rs") [lit "w"; lit "app"]); by vm_compute.
Defined.

Example normalize_paths_inside_witness :
  Forall2 (λ path rel, relativize_path None (lit "/w/app") path = Some rel ∧ inside rel)
    [lit "/w/app/src/*.rs"; lit "./docs/"] [lit "src/*.rs"; lit "docs"].
Proof. apply (normalize_paths_inside None (lit "/w/app")). by vm_compute. Defined.

(** Agent 7 holds the sources while agent 5 asks for a file of them and, twice,
    for one elsewhere. *)
Definition held_by_7 : Db := table [row 1 7 (lit "src/*.rs") 1000].
Definition asked_for : list str := [lit "src/main.rs"; lit "docs/a.md"; lit "docs/a.md"].
Definition calm : World :=
  {| project := Answer p1; agent := Answer (5, lit "BlueLake"); now_listed := 10; now_written := 20; now_relisted := 30;
     before_write d := d; before_relist d := d; listed_ok := true; relisted_ok := true;
     names := Some {[7 := lit "RedFox"]}; names_again := Some {[7 := lit "RedFox"]} |}.

Lemma all_decodable (rs : list StoredRow) : Forall (λ r, released_ts r = CNull) rs → ∀ r, r ∈ rs → active (table rs) r = true → decodable r.
Proof. intros Hf r Hr _. eapply Forall_forall in Hf; [|done]. unfold decodable. rewrite Hf. by eexists. Qed.

Example grant_paths_spec_witness :
  ∃ resp d', grant_paths show show calm 1 5 3600 true [] asked_for held_by_7 = (Answer resp, d') ∧
    (granted_pattern <$> granted resp) ++ (conflict_path <$> conflicts resp) ≡ₚ remove_dups asked_for.
Proof.
  assert (wf held_by_7) as Hwf by (apply table_wf; [by repeat constructor; apply not_elem_of_nil|repeat constructor; by vm_compute]).
  destruct (grant_paths_spec show show calm 1 5 3600 true [] asked_for {[7 := lit "RedFox"]} held_by_7 Hwf) as (resp & d' & H & Hs & _).
  - apply Forall_singleton. by right.
  - apply all_decodable. by repeat constructor.
  - repeat constructor; by vm_compute.
  - by vm_compute.
  - reflexivity.
  - reflexivity.
  - reflexivity.
  - by vm_compute.
  - exists resp, d'. split; [exact H|exact Hs].
Defined.

(** Agent 5 asks for two free files; before its write, agent 7 takes one. *)
Definition overtaken : World :=
  {| project := Answer p1; agent := Answer (5, lit "BlueLake"); now_listed := 10; now_written := 20; now_relisted := 30;
     before_write _ := table [row 1 7 (lit "b.rs") 1000]; before_relist d := d; listed_ok := true; relisted_ok := true;
     names := Some ∅; names_again := Some {[7 := lit "RedFox"]} |}.

Example contended_request_drops_paths_witness :
  ∃ resp, grant_paths show show overtaken 1 5 3600 true [] [lit "a.rs"; lit "b.rs"] (table []) = (Answer resp, table [row 1 7 (lit "b.rs") 1000]) ∧
    granted resp = [] ∧ lit "a.rs" ∉ conflict_path <$> conflicts resp.
Proof.
  apply (contended_request_drops_paths show show overtaken 1 5 3600 true [] [lit "a.rs"; lit "b.rs"] ∅ {[7 := lit "RedFox"]} (table []) (lit "a.rs") (lit "b.rs") (row 1 7 (lit "b.rs") 1000)).
  - by intros r ?%elem_of_nil.
  - apply all_decodable. by repeat constructor.
  - repeat constructor; by vm_compute.
  - apply table_wf; [by repeat constructor; apply not_elem_of_nil|repeat constructor; by vm_compute].
  - by vm_compute.
  - reflexivity.
  - reflexivity.
  - reflexivity.
  - reflexivity.
  - by left.
  - by right; left.
  - by vm_compute.
  - by vm_compute.
  - split_and!; [by left|by vm_compute..|by left|by vm_compute].
  - by vm_compute.
  - by vm_compute.
Defined.

(** Agent 5 holds three files and lets go of those below [src]. *)
Definition held_by_5 : Db := table [row 1 5 (lit "src/a.rs") 1000; row 2 5 (lit "docs/a.md") 1000; row 3 7 (lit "src/b.rs") 1000].
Definition quietly : Touch :=
  {| touch_project := Answer p1; touch_agent := Answer (5, lit "BlueLake"); touch_listed_ok := true; touch_now_listed := 10 * second;
     touch_before d := d; touch_env := {| interfere _ d := d; tick := Z.succ |}; touch_clock := 20 * second |}.

Lemma held_by_5_wf : wf held_by_5.
Proof.
  apply table_wf; [|repeat constructor; by vm_compute].
  by apply (bool_decide_unpack (NoDup (row_id <$> rows held_by_5))); vm_compute.
Qed.

Example release_tool_spec_witness :
  match release_file_reservations None decode quietly (Some [lit "./src"]) None held_by_5 with
  | Some (Answer n, d') => n = 1 ∧ wf d' ∧ ∃ out, n = i32_of_len out ∧ releases_exactly (asked decode 1 5 (Some [lit "src"]) None) held_by_5 d' out
  | _ => False
  end.
Proof.
  pose proof (release_tool_spec None decode quietly p1 5 (lit "BlueLake") (Some [lit "./src"]) None held_by_5 held_by_5_wf
    ltac:(by intros ? ?) ltac:(reflexivity) eq_refl eq_refl eq_refl) as H.
  assert (normalize_filter_paths None (human_key p1) (Some [lit "./src"]) = Answer (Some [lit "src"])) as E by (by vm_compute).
  assert (fst <$> release_file_reservations None decode quietly (Some [lit "./src"]) None held_by_5 = Some (Answer 1)) as En by (by vm_compute).
  rewrite E in H. destruct (release_file_reservations _ _ _ _ _ _) as [[[n|e] d']|]; [|discriminate En..]. injection En as ->. by split.
Defined.

Example renew_tool_spec_witness :
  (renew_file_reservations None show decode quietly (Some 30) (Some [lit "src"]) None held_by_5).1 =
    Answer (1, [{| renewed_id := 1; renewed_pattern := lit "src/a.rs"; old_expires_ts := show (1000 * second); new_expires_ts := show (1060 * second) |}]) ∧
  expires_ts <$> rows (renew_file_reservations None show decode quietly (Some 30) (Some [lit "src"]) None held_by_5).2 =
    [1060 * second; 1000 * second; 1000 * second].
Proof.
  pose proof (renew_tool_spec None show decode quietly p1 5 (lit "BlueLake") (Some 30) (Some [lit "src"]) None held_by_5 held_by_5_wf
    ltac:(reflexivity) ltac:(by vm_compute) eq_refl eq_refl eq_refl) as H. cbv zeta in H.
  assert (normalize_filter_paths None (human_key p1) (Some [lit "src"]) = Answer (Some [lit "src"])) as E by (by vm_compute).
  assert ((renew_file_reservations None show decode quietly (Some 30) (Some [lit "src"]) None held_by_5).1 =
    Answer (1, [{| renewed_id := 1; renewed_pattern := lit "src/a.rs"; old_expires_ts := show (1000 * second); new_expires_ts := show (1060 * second) |}])) as En by (by vm_compute).
  rewrite E in H. split; [exact En|]. destruct (renew_file_reservations _ _ _ _ _ _ _ _) as [[[n out]|e] d']; [|discriminate En].
  destruct H as (Hr & _). cbn [snd]. rewrite Hr. by vm_compute.
Defined.

(** ** Fresh work taken by force *)

Definition cfg : Cleanup.Config := {| Cleanup.file_reservation_inactivity_seconds := 1800; Cleanup.file_reservation_activity_grace_seconds := 900 |}.

(** A workspace without git: twenty thousand sockets, then a file that was
    changed at second 9940. *)
Definition crowded : PatternActivity.Fs :=
  {| PatternActivity.path_exists _ := true; PatternActivity.is_dir _ := false;
     PatternActivity.read_dir p := if bool_decide (p = lit "/w/app") then
       Some (replicate (Z.to_nat 20000) {| PatternActivity.entry_path := lit "/w/app/s"; PatternActivity.file_type := Some PatternActivity.Other |} ++
             [{| PatternActivity.entry_path := lit "/w/app/a.rs"; PatternActivity.file_type := Some PatternActivity.File |}]) else None;
     PatternActivity.metadata p := if bool_decide (p = lit "/w/app/a.rs") then Some (Some (9940 * second)) else None;
     PatternActivity.discover_workdir _ := None; PatternActivity.canonicalize _ := None; PatternActivity.ls_files _ _ := None; PatternActivity.git_log _ _ := None |}.

(** The holder was last active at the epoch and is exempt from clean-up. *)
Definition exempt_holder : ReadCache.AgentRow :=
  {| ReadCache.id := Some 5; ReadCache.project_id := 1; ReadCache.name := lit "BlueLake"; ReadCache.program := lit "cli"; ReadCache.model := lit "m";
     ReadCache.task_description := []; ReadCache.inception_ts := 0; ReadCache.last_active_ts := 0; ReadCache.attachments_policy := lit "auto";
     ReadCache.contact_policy := lit "open"; ReadCache.reaper_exempt := 1; ReadCache.registration_token := None |}.

Definition forced : Force :=
  {| force_project := Answer p1; force_actor := Answer (7, lit "RedFox"); force_row_ok := true; holder _ := Some exempt_holder; mail_ok := true;
     force_fs := crowded; force_now := 10000 * second; force_before d := d; force_released_ok := true; force_marker := 1; notify_before d := d;
     notify_triggers := {| Mail.on_insert := None; Mail.on_read := false; Mail.on_ack := false |};
     notify_env := {| Mail.probe d := DbErrors.Ok d; Mail.cleanup_fails := None |}; notify_now := 2; notify_body _ := [] |}.

Definition globbed : Db := table [row 1 5 (lit "*.rs") 20000].
Definition takeover : McpResult ForceAnswer * Db * Mail.Db :=
  force_release_file_reservation cfg forced (lit "RedFox") 1 None globbed (Mail.empty_db {[5 := lit "BlueLake"; 7 := lit "RedFox"]}).

(** work in progress can be taken.  In a workspace that git does not know
    the walk gives up after twenty thousand entries and what it did not see
    counts as unchanged: there is a forced release of an unexpired reservation
    although a file the pattern covers was changed a minute ago, and although
    the holder is exempt from being cleaned up. *)
Theorem fresh_work_is_taken :
  (∃ reasons, takeover.1.1 = Answer (Released reasons true)) ∧
  covers crowded (lit "/w/app") None None (lit "*.rs") (lit "/w/app/a.rs") ∧
  modified_at crowded (lit "/w/app/a.rs") = Some (force_now forced - 60 * second) ∧
  (∃ r, rows globbed = [r] ∧ force_now forced < expires_ts r) ∧ existsb (active takeover.1.2) (rows takeover.1.2) = false ∧
  ReadCache.reaper_exempt exempt_holder = 1.
Proof.
  assert ((match takeover.1.1 with Answer (Released _ n) => n | _ => false end) = true) as Ht by (by vm_compute).
  split_and!.
  - destruct takeover.1.1 as [[ts|reasons n]|e]; [discriminate Ht| |discriminate Ht]. subst n. by exists reasons.
  - right. split; [by intros q (root & lines & rel & [=] & _)|]. split; [by vm_compute|].
    split; [|split; [by vm_compute|by eexists]].
    apply (below_here crowded (lit "/w/app") _ {| PatternActivity.entry_path := lit "/w/app/a.rs"; PatternActivity.file_type := Some PatternActivity.File |} eq_refl); [|done].
    apply elem_of_app. right. by left.
  - by vm_compute.
  - eexists. split; [done|by vm_compute].
  - by vm_compute.
  - done.
Qed.

(** The holder renews while its reservation is judged: the answer is a
    conflict, and the renewed row stays. *)
Definition renewed_meanwhile : Force :=
  {| force_project := Answer p1; force_actor := Answer (7, lit "RedFox"); force_row_ok := true; holder _ := Some exempt_holder; mail_ok := true;
     force_fs := {| PatternActivity.path_exists _ := false; PatternActivity.is_dir _ := false; PatternActivity.read_dir _ := None;
                    PatternActivity.metadata _ := None; PatternActivity.discover_workdir _ := None; PatternActivity.canonicalize _ := None;
                    PatternActivity.ls_files _ _ := None; PatternActivity.git_log _ _ := None |};
     force_now := 10000 * second; force_before _ := table [row 1 5 (lit "a.rs") 30000]; force_released_ok := true; force_marker := 1; notify_before d := d;
     notify_triggers := {| Mail.on_insert := None; Mail.on_read := false; Mail.on_ack := false |};
     notify_env := {| Mail.probe d := DbErrors.Ok d; Mail.cleanup_fails := None |}; notify_now := 2; notify_body _ := [] |}.

Example force_release_spec_witness :
  let md := Mail.empty_db {[5 := lit "BlueLake"; 7 := lit "RedFox"]} in
  force_release_file_reservation cfg renewed_meanwhile (lit "RedFox") 1 None (table [row 1 5 (lit "a.rs") 20000]) md =
    (Refuse Conflict, table [row 1 5 (lit "a.rs") 30000], md).
Proof.
  intros md. destruct (force_release_spec cfg renewed_meanwhile (lit "RedFox") 1 None (table [row 1 5 (lit "a.rs") 20000]) md) as [_ Hall].
  edestruct Hall as (_ & _ & Hc); clear Hall; [vm_compute; reflexivity..|].
  apply Hc; clear Hc; [vm_compute; reflexivity|]. intros (r & Hr & _ & _ & He). vm_compute in Hr.
  apply list_elem_of_singleton in Hr as ->. vm_compute in He. discriminate.
Defined.
End ToolRuns.
