(* ===== verification/Backpressure.v ===== *)
(** * Health levels and load shedding ([mcp-agent-mail-core/src/backpressure.rs])

    A level is computed from gauges of the connection pool, the write-behind
    queue and the commit queue, cached, and used to reject low-priority calls
    of tools.  The gauges are fields of a snapshot; the clock and the numbers
    are [u64] values. *)

From stdpp Require Import base numbers tactics list strings.
From S2P Require Import Prelude.
Open Scope Z_scope.

Module Backpressure.

(** ** Levels *)

Inductive HealthLevel := Green | Yellow | Red.

#[export] Instance HealthLevel_eq_dec : EqDecision HealthLevel.
Proof. solve_decision. Defined.

Definition from_u8 (v : Z) : HealthLevel := if v =? 0 then Green else if v =? 1 then Yellow else Red.
Definition as_u8 (l : HealthLevel) : Z := match l with Green => 0 | Yellow => 1 | Red => 2 end.
Definition as_str (l : HealthLevel) : str :=
  match l with Green => lit "green" | Yellow => lit "yellow" | Red => lit "red" end.

Definition should_shed (l : HealthLevel) (tool_is_shedable : bool) : bool :=
  match l with Red => tool_is_shedable | _ => false end.

(** ** Thresholds *)

Record Thresholds := {
  POOL_ACQUIRE_P95_US : Z;
  WBQ_DEPTH_PCT : Z;
  COMMIT_DEPTH_PCT : Z;
  POOL_UTIL_PCT : Z;
  OVER_80_DURATION_S : Z;
}.

Definition yellow : Thresholds :=
  {| POOL_ACQUIRE_P95_US := 50000; WBQ_DEPTH_PCT := 50; COMMIT_DEPTH_PCT := 50; POOL_UTIL_PCT := 70; OVER_80_DURATION_S := 30 |}.
Definition red : Thresholds :=
  {| POOL_ACQUIRE_P95_US := 200000; WBQ_DEPTH_PCT := 80; COMMIT_DEPTH_PCT := 80; POOL_UTIL_PCT := 90; OVER_80_DURATION_S := 300 |}.

(** ** Signals *)

(** The fields of the snapshot that are read. *)
Record Snapshot := {
  pool_over_80_since_us : Z;
  pool_active_connections : Z;
  pool_pending_requests : Z;
  pool_acquire_latency_p95 : Z;
  snap_pool_utilization_pct : Z;
  wbq_depth : Z;
  wbq_capacity : Z;
  wbq_over_80_since_us : Z;
  commit_pending_requests : Z;
  commit_soft_cap : Z;
  commit_over_80_since_us : Z;
}.

Record HealthSignals := {
  pool_acquire_p95_us : Z;
  pool_utilization_pct : Z;
  pool_over_80_for_s : Z;
  wbq_depth_pct : Z;
  wbq_over_80_for_s : Z;
  commit_depth_pct : Z;
  commit_over_80_for_s : Z;
}.

Definition duration_since_s (since_us now_us : Z) : Z :=
  if since_us =? 0 then 0 else u64_saturating_sub now_us since_us / 1000000.

Definition pct (value total : Z) : Z :=
  if total =? 0 then 0 else let p := u64_saturating_mul value 100 / total in if 100 <? p then 100 else p.

Definition from_snapshot (snap : Snapshot) (now_us : Z) : HealthSignals :=
  {| pool_acquire_p95_us :=
       if (pool_active_connections snap =? 0) && (pool_pending_requests snap =? 0) then 0
       else pool_acquire_latency_p95 snap;
     pool_utilization_pct := snap_pool_utilization_pct snap;
     pool_over_80_for_s := duration_since_s (pool_over_80_since_us snap) now_us;
     wbq_depth_pct := pct (wbq_depth snap) (wbq_capacity snap);
     wbq_over_80_for_s := duration_since_s (wbq_over_80_since_us snap) now_us;
     commit_depth_pct := pct (commit_pending_requests snap) (commit_soft_cap snap);
     commit_over_80_for_s := duration_since_s (commit_over_80_since_us snap) now_us |}.

(** Some signal reaches its threshold. *)
Definition breached (t : Thresholds) (s : HealthSignals) : bool :=
  (POOL_ACQUIRE_P95_US t <=? pool_acquire_p95_us s) ||
  (POOL_UTIL_PCT t <=? pool_utilization_pct s) ||
  (OVER_80_DURATION_S t <=? pool_over_80_for_s s) ||
  (WBQ_DEPTH_PCT t <=? wbq_depth_pct s) ||
  (OVER_80_DURATION_S t <=? wbq_over_80_for_s s) ||
  (COMMIT_DEPTH_PCT t <=? commit_depth_pct s) ||
  (OVER_80_DURATION_S t <=? commit_over_80_for_s s).

Definition classify (s : HealthSignals) : HealthLevel :=
  if breached red s then Red else if breached yellow s then Yellow else Green.

(** ** The cached level *)

Record Cache := { CURRENT_LEVEL : Z; LEVEL_TRANSITIONS : Z; SHEDDING_ENABLED : bool }.

Definition initial : Cache := {| CURRENT_LEVEL := 0; LEVEL_TRANSITIONS := 0; SHEDDING_ENABLED := false |}.

Definition compute_health_level (snap : Snapshot) (now_us : Z) : HealthLevel := classify (from_snapshot snap now_us).

Definition cached_health_level (c : Cache) : HealthLevel := from_u8 (CURRENT_LEVEL c).

(** The level, whether it changed, and the cache. *)
Definition refresh_health_level (snap : Snapshot) (now_us : Z) (c : Cache) : HealthLevel * bool * Cache :=
  let new := compute_health_level snap now_us in
  let changed := negb (CURRENT_LEVEL c =? as_u8 new) in
  (new, changed,
   {| CURRENT_LEVEL := as_u8 new;
      LEVEL_TRANSITIONS := if changed then Z.min 255 (LEVEL_TRANSITIONS c + 1) else LEVEL_TRANSITIONS c;
      SHEDDING_ENABLED := SHEDDING_ENABLED c |}).

Definition set_shedding_enabled (b : bool) (c : Cache) : Cache :=
  {| CURRENT_LEVEL := CURRENT_LEVEL c; LEVEL_TRANSITIONS := LEVEL_TRANSITIONS c; SHEDDING_ENABLED := b |}.

Definition SHEDABLE_TOOLS : list str :=
  [lit "search_messages"; lit "summarize_thread"; lit "whois"; lit "list_contacts"; lit "search_messages_product";
   lit "summarize_thread_product"; lit "fetch_inbox_product"].

Definition is_shedable_tool (tool : str) : bool := tool ∈ᵇ SHEDABLE_TOOLS.

Definition should_shed_tool (tool : str) (c : Cache) : bool :=
  SHEDDING_ENABLED c && should_shed (cached_health_level c) (is_shedable_tool tool).

(** ** Properties *)

Lemma from_as_u8 l : from_u8 (as_u8 l) = l.
Proof. by destruct l. Qed.

(** No signal of one is above that of the other. *)
Record below (a b : HealthSignals) : Prop := {
  below_acquire : pool_acquire_p95_us a ≤ pool_acquire_p95_us b;
  below_util : pool_utilization_pct a ≤ pool_utilization_pct b;
  below_pool : pool_over_80_for_s a ≤ pool_over_80_for_s b;
  below_wbq : wbq_depth_pct a ≤ wbq_depth_pct b;
  below_wbq_for : wbq_over_80_for_s a ≤ wbq_over_80_for_s b;
  below_commit : commit_depth_pct a ≤ commit_depth_pct b;
  below_commit_for : commit_over_80_for_s a ≤ commit_over_80_for_s b;
}.

Lemma breached_iff t s :
  breached t s = true ↔
  POOL_ACQUIRE_P95_US t ≤ pool_acquire_p95_us s ∨ POOL_UTIL_PCT t ≤ pool_utilization_pct s ∨
  OVER_80_DURATION_S t ≤ pool_over_80_for_s s ∨ WBQ_DEPTH_PCT t ≤ wbq_depth_pct s ∨
  OVER_80_DURATION_S t ≤ wbq_over_80_for_s s ∨ COMMIT_DEPTH_PCT t ≤ commit_depth_pct s ∨
  OVER_80_DURATION_S t ≤ commit_over_80_for_s s.
Proof. unfold breached. rewrite !orb_true_iff, !Z.leb_le. tauto. Qed.

Lemma breached_mono t a b : below a b → breached t a = true → breached t b = true.
Proof. intros []. rewrite !breached_iff. lia. Qed.

Lemma red_above_yellow s : breached red s = true → breached yellow s = true.
Proof. rewrite !breached_iff. simpl. lia. Qed.

Lemma pct_mono v w t : 0 ≤ v ≤ w → 0 ≤ t → pct v t ≤ pct w t.
Proof.
  intros Hv Ht. unfold pct. case_if; [done|]. apply Z.eqb_neq in Heqb.
  assert (u64_saturating_mul v 100 / t ≤ u64_saturating_mul w 100 / t).
  { apply Z.div_le_mono; [lia|]. unfold u64_saturating_mul. lia. }
  destruct (100 <? _) eqn:H1; destruct (100 <? u64_saturating_mul w 100 / t) eqn:H2; rewrite ?Z.ltb_lt, ?Z.ltb_ge in *; lia.
Qed.

(** The percentage is exact up to 100 as long as the product fits: for values
    up to 2^64/100. *)
Lemma pct_exact v t : 0 ≤ v → v * 100 ≤ u64_max → 0 < t → pct v t = Z.min 100 (v * 100 / t).
Proof.
  intros Hv Hb Ht. unfold pct, u64_saturating_mul. rewrite (proj2 (Z.eqb_neq t 0)) by lia. rewrite Z.min_r by lia.
  destruct (100 <? _) eqn:H; rewrite ?Z.ltb_lt, ?Z.ltb_ge in *; lia.
Qed.

(** Beyond that the saturating product falsifies it: a full queue of capacity
    2^63 counts as one per cent in use. *)
Lemma pct_saturated : pct (2 ^ 63) (2 ^ 63) = 1.
Proof. by vm_compute. Qed.

(** More load never means a better level, and what is shed is what may
    be.  If no signal falls the level does not fall; an idle pool is not held
    in a bad level by past latencies; and a call is rejected only when
    shedding is enabled, the level of the last refresh was red and the tool is
    one of seven read-only ones. *)
Theorem load_shedding_spec :
  (∀ a b, below a b → as_u8 (classify a) ≤ as_u8 (classify b)) ∧
  (∀ snap now_us, pool_active_connections snap = 0 → pool_pending_requests snap = 0 →
     pool_acquire_p95_us (from_snapshot snap now_us) = 0) ∧
  (∀ snap now_us c tool, should_shed_tool tool (refresh_health_level snap now_us c).2 = true ↔
     SHEDDING_ENABLED c = true ∧ compute_health_level snap now_us = Red ∧ tool ∈ SHEDABLE_TOOLS).
Proof.
  split_and!.
  - intros a b Hab. unfold classify. pose proof (breached_mono red _ _ Hab) as Hr. pose proof (breached_mono yellow _ _ Hab) as Hy.
    pose proof (red_above_yellow a). destruct (breached red a); [by rewrite Hr|].
    destruct (breached yellow a); destruct (breached red b), (breached yellow b); simpl in *; try lia; by specialize (Hy eq_refl).
  - intros snap now_us Ha Hp. unfold from_snapshot. simpl. by rewrite Ha, Hp.
  - intros snap now_us c tool. unfold should_shed_tool, cached_health_level, refresh_health_level. cbn [snd CURRENT_LEVEL SHEDDING_ENABLED].
    rewrite from_as_u8, andb_true_iff. unfold is_shedable_tool, should_shed.
    destruct (compute_health_level snap now_us); rewrite ?bool_decide_eq_true; naive_solver.
Qed.

(** Any sequence of refreshes: the cached level is the last one computed, and
    the transitions are counted up to 255. *)
Fixpoint refreshes (rs : list (Snapshot * Z)) (c : Cache) : list bool * Cache :=
  match rs with
  | [] => ([], c)
  | (snap, now_us) :: rs =>
      let '(_, changed, c) := refresh_health_level snap now_us c in
      let '(cs, c) := refreshes rs c in (changed :: cs, c)
  end.

Lemma transitions_counted rs c :
  0 ≤ LEVEL_TRANSITIONS c ≤ 255 →
  LEVEL_TRANSITIONS (refreshes rs c).2 =
    Z.min 255 (LEVEL_TRANSITIONS c + Z.of_nat (length (filter (λ b, b = true) (refreshes rs c).1))).
Proof.
  revert c. induction rs as [|[snap now_us] rs IH]; intros c Hc; [simpl; lia|]. simpl.
  set (c' := {| CURRENT_LEVEL := _ |}). specialize (IH c'). destruct (refreshes rs c') as [cs c''].
  cbn [fst snd] in *. rewrite IH by (subst c'; simpl; case_if; lia).
  rewrite filter_cons. subst c'. cbn [LEVEL_TRANSITIONS]. destruct (negb _); simpl; lia.
Qed.

End Backpressure.
