(* ===== verification/BuildSlots.v ===== *)
(** * Build slots ([mcp-agent-mail-tools/src/build_slots.rs])

    A slot is a directory with one JSON file per holder; leases expire, are
    renewed and released, and a request reports the active leases of other
    agents that conflict with it.  The state is the tree of slot directories;
    a file that cannot be read or parsed has no lease.  The texts of times,
    the hash in file names and the order of directory listings belong to
    other code or to the file system and are parameters. *)

From stdpp Require Import base numbers tactics list gmap strings.
From S2P Require Import Prelude.
Open Scope Z_scope.

Module BuildSlots.

Record BuildSlotLease := {
  slot : str;
  agent : str;
  branch : option str;
  exclusive : bool;
  acquired_ts : str;
  expires_ts : str;
  released_ts : option str;
}.

(** The content of a file; [None]: unreadable or malformed. *)
Abbreviation File := (option BuildSlotLease).
Abbreviation Dir := (gmap str File).

Definition forbidden (c : N) : bool :=
  (bool_decide (c ∈ ([47; 92; 58; 42; 63; 34; 60; 62; 124; 32] : list N)%N)).

Definition safe_component (value : str) : str :=
  let safe := (λ c, if forbidden c then 95%N else c) <$> trim value in
  if bool_decide (safe = []) || bool_decide (safe = lit ".") || bool_decide (safe = lit "..") then lit "unknown" else safe.

Definition holder_identity (agent_name : str) (b : option str) : str :=
  match b with None => agent_name | Some b => agent_name ++ lit ":::" ++ b end.

Definition lease_matches_holder (l : BuildSlotLease) (agent_name : str) (b : option str) : bool :=
  bool_decide (agent l = agent_name) && bool_decide (branch l = b).

(** The extension of a file name is [json]. *)
Definition is_json (name : str) : bool :=
  (5 <? Z.of_nat (length name)) && bool_decide (drop (length name - 5) name = lit ".json").

Section slots.
(** Sixteen hexadecimal digits of the SHA-256 of a text; RFC 3339 times in
    nanoseconds. *)
Context (short_hash : str → str) (to_rfc3339 : Z → str) (parse_rfc3339 : str → option Z).

Definition lease_path_for_holder (agent_name : str) (b : option str) : str :=
  safe_component agent_name ++ lit "--" ++ short_hash (holder_identity agent_name b) ++ lit ".json".

Definition legacy_lease_path_for_holder (agent_name : str) (b : option str) : str :=
  safe_component (holder_identity agent_name b) ++ lit ".json".

(** The loop over the directory; [same] are the files of the agent seen. *)
Fixpoint existing_loop (d : Dir) (agent_name : str) (b : option str) (names same : list str) : option str :=
  match names with
  | [] => match same with [p] => Some p | _ => None end
  | p :: names =>
      match (if is_json p then d !! p else None) with
      | Some (Some l) =>
          if bool_decide (agent l = agent_name) then
            if bool_decide (branch l = b) then Some p else existing_loop d agent_name b names (same ++ [p])
          else existing_loop d agent_name b names same
      | _ => existing_loop d agent_name b names same
      end
  end.

Definition existing_agent_lease_path (listing : list str) (d : Dir) (agent_name : str) (b : option str) : option str :=
  existing_loop d agent_name b listing [].

Definition resolve_holder_lease_path (listing : list str) (d : Dir) (agent_name : str) (b : option str) : str :=
  let preferred := lease_path_for_holder agent_name b in
  let legacy := legacy_lease_path_for_holder agent_name b in
  if bool_decide (is_Some (d !! preferred)) then preferred
  else if bool_decide (is_Some (d !! legacy)) then legacy
  else default preferred (existing_agent_lease_path listing d agent_name b).

(** A lease that has not expired; a malformed expiry counts as expired. *)
Definition is_active (now : Z) (l : BuildSlotLease) : bool :=
  match parse_rfc3339 (expires_ts l) with Some t => now <? t | None => false end.

Definition read_active_leases (listing : list str) (d : Dir) (now : Z) : list BuildSlotLease :=
  omap (λ p, l ← (if is_json p then mjoin (d !! p) else None); if is_active now l then Some l else None) listing.

Definition nanos : Z := 1000000000.

Definition compute_renewed_expiry (now : Z) (current_expires_ts : str) (extend_seconds : Z) : Z :=
  Z.max now (default now (parse_rfc3339 current_expires_ts)) + extend_seconds * nanos.

Definition conflicts_with (agent_name : str) (request_exclusive : bool) (l : BuildSlotLease) : bool :=
  bool_decide (released_ts l = None) && negb (bool_decide (agent l = agent_name)) && (request_exclusive || exclusive l).

Definition collect_slot_conflicts (active : list BuildSlotLease) (agent_name : str) (request_exclusive : bool) :
    list BuildSlotLease :=
  filter (λ l, conflicts_with agent_name request_exclusive l = true) active.

(** ** The tools

    [listing] is the order in which the slot's directory is listed, [written]
    whether the file could be written. *)

Record Request := {
  req_agent : str;
  req_branch : option str;
  req_slot : str;
  req_now : Z;
  listing : list str;
  written : bool;
}.

Definition dir_of (r : Request) (store : gmap str Dir) : Dir := default ∅ (store !! safe_component (req_slot r)).

Definition write_lease_json (r : Request) (path : str) (l : BuildSlotLease) (store : gmap str Dir) : gmap str Dir :=
  <[safe_component (req_slot r) := <[path := Some l]> (dir_of r store)]> store.

Inductive Response :=
  | Granted (l : BuildSlotLease) (conflicts : list BuildSlotLease)
  | Renewed (expires : option str)
  | Released (at_ : option str)
  | WriteFailed.

Definition acquire_ttl (ttl : option Z) : Z := from_option (clamp 60 31536000) 3600 ttl.
Definition renew_extend (extend : option Z) : Z := from_option (clamp 60 31536000) 1800 extend.

Definition granted_lease (r : Request) (ttl : option Z) (excl : option bool) : BuildSlotLease :=
  {| slot := req_slot r; agent := req_agent r; branch := req_branch r; exclusive := default true excl;
     acquired_ts := to_rfc3339 (req_now r); expires_ts := to_rfc3339 (req_now r + acquire_ttl ttl * nanos);
     released_ts := None |}.

(** What a request sees of the slot. *)
Definition scan (r : Request) (excl : option bool) (store : gmap str Dir) : list BuildSlotLease :=
  collect_slot_conflicts (read_active_leases (listing r) (dir_of r store) (req_now r)) (req_agent r) (default true excl).

(** The directory is created before the scan. *)
Definition create_slot_dir (r : Request) (store : gmap str Dir) : gmap str Dir :=
  <[safe_component (req_slot r) := dir_of r store]> store.

Definition grant (r : Request) (ttl : option Z) (excl : option bool) (store : gmap str Dir) : gmap str Dir :=
  write_lease_json r (resolve_holder_lease_path (listing r) (dir_of r store) (req_agent r) (req_branch r))
    (granted_lease r ttl excl) store.

Definition acquire_build_slot (r : Request) (ttl : option Z) (excl : option bool) (store : gmap str Dir) :
    Response * gmap str Dir :=
  let store := create_slot_dir r store in
  let conflicts := scan r excl store in
  if written r then (Granted (granted_lease r ttl excl) conflicts, grant r ttl excl store) else (WriteFailed, store).

Definition set_expires (e : str) (l : BuildSlotLease) : BuildSlotLease :=
  {| slot := slot l; agent := agent l; branch := branch l; exclusive := exclusive l; acquired_ts := acquired_ts l;
     expires_ts := e; released_ts := released_ts l |}.
Definition set_released (e : str) (l : BuildSlotLease) : BuildSlotLease :=
  {| slot := slot l; agent := agent l; branch := branch l; exclusive := exclusive l; acquired_ts := acquired_ts l;
     expires_ts := expires_ts l; released_ts := Some e |}.

Fixpoint renew_loop (r : Request) (extend : Z) (active : list BuildSlotLease) (store : gmap str Dir) :
    Response * gmap str Dir :=
  match active with
  | [] => (Renewed None, store)
  | l :: active =>
      if lease_matches_holder l (req_agent r) (req_branch r) && bool_decide (released_ts l = None) then
        let path := resolve_holder_lease_path (listing r) (dir_of r store) (agent l) (branch l) in
        let new_exp := to_rfc3339 (compute_renewed_expiry (req_now r) (expires_ts l) extend) in
        if written r then (Renewed (Some new_exp), write_lease_json r path (set_expires new_exp l) store)
        else (WriteFailed, store)
      else renew_loop r extend active store
  end.

Definition renew_build_slot (r : Request) (extend : option Z) (store : gmap str Dir) : Response * gmap str Dir :=
  renew_loop r (renew_extend extend) (read_active_leases (listing r) (dir_of r store) (req_now r)) store.

Fixpoint release_loop (r : Request) (active : list BuildSlotLease) (store : gmap str Dir) : Response * gmap str Dir :=
  match active with
  | [] => (Released None, store)
  | l :: active =>
      if lease_matches_holder l (req_agent r) (req_branch r) then
        match released_ts l with
        | Some at_ => (Released (Some at_), store)
        | None =>
            let path := resolve_holder_lease_path (listing r) (dir_of r store) (agent l) (branch l) in
            let now_iso := to_rfc3339 (req_now r) in
            if written r then (Released (Some now_iso), write_lease_json r path (set_released now_iso l) store)
            else (WriteFailed, store)
        end
      else release_loop r active store
  end.

Definition release_build_slot (r : Request) (store : gmap str Dir) : Response * gmap str Dir :=
  release_loop r (read_active_leases (listing r) (dir_of r store) (req_now r)) store.

End slots.
End BuildSlots.
