(* ===== verification/BuildSlotsFacts.v ===== *)
(** * Build slots are a table of leases

    The directory of files of a slot, with its hashed names, its older names
    and its searches, implements a map from agents to leases: any sequence of
    requests gets the answers of the map. *)

From Stdlib Require Import ZifyBool ZifyN.
From stdpp Require Import base numbers tactics list gmap strings.
From S2P Require Import Prelude BuildSlots.
Import BuildSlots.
Open Scope Z_scope.

(** ** The specification: one lease per agent and slot *)

Section spec.
Context (to_rfc3339 : Z → str) (parse_rfc3339 : str → option Z).

Abbreviation Table := (gmap str (gmap str BuildSlotLease)).

Definition row (r : Request) (t : Table) : gmap str BuildSlotLease := default ∅ (t !! safe_component (req_slot r)).

Definition set_row (r : Request) (l : BuildSlotLease) (t : Table) : Table :=
  <[safe_component (req_slot r) := <[req_agent r := l]> (row r t)]> t.

Definition active_row (r : Request) (t : Table) : list BuildSlotLease :=
  filter (λ l, is_active parse_rfc3339 (req_now r) l = true) (map_to_list (row r t)).*2.

Definition spec_acquire (r : Request) (ttl : option Z) (excl : option bool) (t : Table) : Response * Table :=
  if written r then
    (Granted (granted_lease to_rfc3339 r ttl excl) (collect_slot_conflicts (active_row r t) (req_agent r) (default true excl)),
     set_row r (granted_lease to_rfc3339 r ttl excl) t)
  else (WriteFailed, t).

(** The agent's lease, if it is active and for the branch. *)
Definition own_lease (r : Request) (t : Table) : option BuildSlotLease :=
  l ← row r t !! req_agent r;
  if is_active parse_rfc3339 (req_now r) l && bool_decide (branch l = req_branch r) then Some l else None.

Definition spec_renew (r : Request) (extend : option Z) (t : Table) : Response * Table :=
  match own_lease r t with
  | Some l =>
      if bool_decide (released_ts l = None) then
        let e := to_rfc3339 (compute_renewed_expiry parse_rfc3339 (req_now r) (expires_ts l) (renew_extend extend)) in
        if written r then (Renewed (Some e), set_row r (set_expires e l) t) else (WriteFailed, t)
      else (Renewed None, t)
  | None => (Renewed None, t)
  end.

Definition spec_release (r : Request) (t : Table) : Response * Table :=
  match own_lease r t with
  | Some l =>
      match released_ts l with
      | Some at_ => (Released (Some at_), t)
      | None =>
          let e := to_rfc3339 (req_now r) in
          if written r then (Released (Some e), set_row r (set_released e l) t) else (WriteFailed, t)
      end
  | None => (Released None, t)
  end.

Inductive Op := Acquire (r : Request) (ttl : option Z) (excl : option bool) | Renew (r : Request) (extend : option Z) | Release (r : Request).

Definition request (o : Op) : Request := match o with Acquire r _ _ | Renew r _ | Release r => r end.

Definition spec_op (o : Op) (t : Table) : Response * Table :=
  match o with
  | Acquire r ttl excl => spec_acquire r ttl excl t
  | Renew r extend => spec_renew r extend t
  | Release r => spec_release r t
  end.
End spec.

(** ** The files *)

Section facts.
Context (short_hash : str → str) (to_rfc3339 : Z → str) (parse_rfc3339 : str → option Z).

Definition run_op (o : Op) (s : gmap str Dir) : Response * gmap str Dir :=
  match o with
  | Acquire r ttl excl => acquire_build_slot short_hash to_rfc3339 parse_rfc3339 r ttl excl s
  | Renew r extend => renew_build_slot short_hash to_rfc3339 parse_rfc3339 r extend s
  | Release r => release_build_slot short_hash to_rfc3339 parse_rfc3339 r s
  end.

(** The file names of an agent. *)
Definition name_of (a p : str) : Prop :=
  ∃ b, p = lease_path_for_holder short_hash a b ∨ p = legacy_lease_path_for_holder a b.

(** The agents at hand have no file name in common: their hashes differ, and
    so do their names and branches as parts of a file name. *)
Context (known : str → Prop).
Context (names_apart : ∀ a a' p, known a → known a' → name_of a p → name_of a' p → a = a').

Record dir_ok (d : Dir) (m : gmap str BuildSlotLease) : Prop := {
  dir_file p f : d !! p = Some f → ∃ l, f = Some l ∧ m !! agent l = Some l ∧ name_of (agent l) p ∧ known (agent l);
  dir_lease a l : m !! a = Some l → agent l = a ∧ ∃ p, d !! p = Some (Some l);
  dir_single p1 p2 l1 l2 : d !! p1 = Some (Some l1) → d !! p2 = Some (Some l2) → agent l1 = agent l2 → p1 = p2;
}.

Definition represents (s : gmap str Dir) (t : gmap str (gmap str BuildSlotLease)) : Prop :=
  ∀ k, dir_ok (default ∅ (s !! k)) (default ∅ (t !! k)).

(** ** File names *)

Lemma is_json_app x : x ≠ [] → is_json (x ++ lit ".json") = true.
Proof.
  intros Hx. unfold is_json. rewrite length_app. change (length (lit ".json")) with 5%nat.
  apply andb_true_iff. split.
  - apply Z.ltb_lt. destruct x; [done|]. simpl. lia.
  - apply bool_decide_eq_true. replace (length x + 5 - 5)%nat with (length x) by lia. by rewrite drop_app_length.
Qed.

Lemma safe_component_ne v : safe_component v ≠ [].
Proof. unfold safe_component. destruct (_ || _ || _) eqn:H; [done|]. bool_to_prop. done. Qed.

Lemma name_of_json a p : name_of a p → is_json p = true.
Proof.
  intros (b & [-> | ->]).
  - unfold lease_path_for_holder. rewrite !app_assoc. apply is_json_app. by destruct (safe_component a).
  - apply is_json_app, safe_component_ne.
Qed.

Section dir.
Context (d : Dir) (m : gmap str BuildSlotLease) (Hok : dir_ok d m).
Context (names : list str) (Hnames : names ≡ₚ elements (dom d)).

Lemma listed p : p ∈ names ↔ is_Some (d !! p).
Proof. rewrite Hnames, elem_of_elements, elem_of_dom. done. Qed.

(** A file at one of the agent's names holds the agent's lease. *)
Lemma file_owner a p : known a → name_of a p → is_Some (d !! p) → ∃ l, d !! p = Some (Some l) ∧ agent l = a.
Proof.
  intros Hk Hn [f Hp]. destruct (dir_file _ _ Hok _ _ Hp) as (l & -> & _ & Hl & Hkl). exists l.
  split; [done|]. by eapply names_apart.
Qed.

Lemma existing_loop_spec a b ps same :
  (∀ p, p ∈ ps → is_Some (d !! p)) → NoDup ps →
  (∀ p, p ∈ same → p ∉ ps ∧ ∃ l, d !! p = Some (Some l) ∧ agent l = a) → (length same ≤ 1)%nat →
  match existing_loop d a b ps same with
  | Some p => ∃ l, d !! p = Some (Some l) ∧ agent l = a
  | None => same = [] ∧ ∀ p l, p ∈ ps → d !! p = Some (Some l) → agent l ≠ a
  end.
Proof.
  revert same. induction ps as [|p ps IH]; intros same Hps Hnd Hsame Hlen; simpl.
  - destruct same as [|q [|]]; simpl in *; [split; [done|by intros ? ? ?%elem_of_nil]| |lia].
    destruct (Hsame q) as (_ & l & ? & ?); [left|]. by exists l.
  - apply NoDup_cons in Hnd as [Hp Hnd].
    assert (∀ q, q ∈ ps → is_Some (d !! q)) as Hps' by (intros q ?; apply Hps; by right).
    destruct (Hps p) as [f Hf]; [left|]. destruct (dir_file _ _ Hok _ _ Hf) as (l & -> & Hl & Hn & Hk).
    rewrite (name_of_json _ _ Hn), Hf.
    assert (∀ q, q ∈ same → q ∉ ps ∧ ∃ l, d !! q = Some (Some l) ∧ agent l = a) as Hsame'.
    { intros q Hq. destruct (Hsame q Hq) as [Hni Hl']. split; [|done]. intros ?. apply Hni. by right. }
    case_bool_decide as Ha.
    + case_bool_decide as Hb; [by exists l|].
      destruct same as [|q same].
      * assert (∀ q, q ∈ [p] → q ∉ ps ∧ ∃ l, d !! q = Some (Some l) ∧ agent l = a) as Hself.
        { intros q ->%list_elem_of_singleton. split; [done|]. by exists l. }
        specialize (IH [p] Hps' Hnd Hself (le_n 1)). change ([] ++ [p]) with [p].
        destruct (existing_loop d a b ps [p]); [done|]. by destruct IH.
      * exfalso. destruct (Hsame q) as (Hq & l' & Hl' & Ha'); [left|].
        apply Hq. assert (q = p) as ->; [|left]. eapply (dir_single _ _ Hok); [done|done|congruence].
    + specialize (IH same Hps' Hnd Hsame' Hlen). destruct (existing_loop d a b ps same); [done|].
      destruct IH as [-> IH]. split; [done|]. intros q l' [->|Hq]%elem_of_cons Hl'; [congruence|by eapply IH].
Qed.

(** The path resolved is that of the agent's file, or a new one. *)
Lemma resolve_spec a b :
  known a →
  let p := resolve_holder_lease_path short_hash names d a b in
  name_of a p ∧
  match m !! a with
  | Some l => d !! p = Some (Some l)
  | None => d !! p = None
  end.
Proof.
  intros Hk p.
  assert (∀ q l, d !! q = Some (Some l) → agent l = a → name_of a q ∧ m !! a = Some l) as Hfound.
  { intros q l Hq <-. destruct (dir_file _ _ Hok _ _ Hq) as (l' & [= <-] & ? & ? & _). done. }
  assert (∀ q, name_of a q → is_Some (d !! q) →
    name_of a q ∧ match m !! a with Some l => d !! q = Some (Some l) | None => d !! q = None end) as Hown.
  { intros q Hn Hq. destruct (file_owner a q Hk Hn Hq) as (l & Hl & Ha). destruct (Hfound q l Hl Ha) as [_ ->]. done. }
  unfold p, resolve_holder_lease_path. case_bool_decide as H1; [apply Hown; [exists b; by left|done]|].
  case_bool_decide as H2; [apply Hown; [exists b; by right|done]|].
  unfold existing_agent_lease_path.
  pose proof (existing_loop_spec a b names [] (λ q, proj1 (listed q))) as He.
  destruct (existing_loop d a b names []) as [q|].
  - destruct He as (l & Hl & Ha); [rewrite Hnames; apply NoDup_elements|by intros ? ?%elem_of_nil|simpl; lia|].
    destruct (Hfound q l Hl Ha) as [Hn Hm]. simpl. by rewrite Hm.
  - destruct He as [_ He]; [rewrite Hnames; apply NoDup_elements|by intros ? ?%elem_of_nil|simpl; lia|].
    simpl. split; [exists b; by left|]. destruct (m !! a) as [l|] eqn:Hm.
    + destruct (dir_lease _ _ Hok _ _ Hm) as [Ha [q Hq]]. destruct (He q l); [|done|done]. apply listed. by eexists.
    + by apply eq_None_not_Some.
Qed.

Lemma read_active_elem now l :
  l ∈ read_active_leases parse_rfc3339 names d now ↔ m !! agent l = Some l ∧ is_active parse_rfc3339 now l = true.
Proof.
  unfold read_active_leases. rewrite list_elem_of_omap. split.
  - intros (p & Hp & Hl). destruct (is_json p); [|done]. destruct (d !! p) as [[l'|]|] eqn:Hd; try done. simpl in Hl.
    destruct (is_active _ _ l') eqn:Ha; [|done]. injection Hl as ->. destruct (dir_file _ _ Hok _ _ Hd) as (? & [= <-] & ? & _). done.
  - intros [Hm Ha]. destruct (dir_lease _ _ Hok _ _ Hm) as [_ [p Hp]]. exists p. split; [apply listed; by eexists|].
    destruct (dir_file _ _ Hok _ _ Hp) as (? & _ & _ & Hn & _). apply name_of_json in Hn as ->. rewrite Hp. simpl. by rewrite Ha.
Qed.

Lemma read_active_nodup now : NoDup (read_active_leases parse_rfc3339 names d now).
Proof.
  assert (NoDup names) as Hnd by (rewrite Hnames; apply NoDup_elements). clear Hnames.
  unfold read_active_leases. induction names as [|p ps IH]; simpl; [constructor|]. apply NoDup_cons in Hnd as [Hp Hnd].
  destruct (is_json p); [|by apply IH]. destruct (d !! p) as [[l|]|] eqn:Hd; simpl; try by apply IH.
  destruct (is_active _ _ l); [|by apply IH]. apply NoDup_cons. split; [|by apply IH].
  intros (q & Hq & Hl)%list_elem_of_omap. destruct (is_json q); [|done]. destruct (d !! q) as [[l'|]|] eqn:Hdq; try done. simpl in Hl.
  destruct (is_active _ _ l'); [|done]. injection Hl as ->. assert (p = q) as -> by by eapply (dir_single _ _ Hok). done.
Qed.

Lemma read_active_perm now :
  read_active_leases parse_rfc3339 names d now ≡ₚ filter (λ l, is_active parse_rfc3339 now l = true) (map_to_list m).*2.
Proof.
  apply NoDup_Permutation; [apply read_active_nodup| |].
  - apply NoDup_filter, NoDup_fmap_2_strong; [|apply NoDup_map_to_list].
    intros [a1 l1] [a2 l2] H1%elem_of_map_to_list H2%elem_of_map_to_list. simpl. intros ->.
    apply (dir_lease _ _ Hok) in H1 as [<- _], H2 as [<- _]. done.
  - intros l. rewrite read_active_elem, list_elem_of_filter, list_elem_of_fmap. split.
    + intros [Hm Ha]. split; [done|]. exists (agent l, l). split; [done|]. by apply elem_of_map_to_list.
    + intros [Ha ([a' l'] & -> & Hl%elem_of_map_to_list)]. by destruct (dir_lease _ _ Hok _ _ Hl) as [<- _].
Qed.

(** Writing the agent's lease where its path resolves. *)
Lemma write_ok a b l :
  known a → agent l = a → dir_ok (<[resolve_holder_lease_path short_hash names d a b := Some l]> d) (<[a := l]> m).
Proof.
  intros Hk <-. destruct (resolve_spec (agent l) b Hk) as [Hn Hp]. set (p := resolve_holder_lease_path _ _ _ _ _) in *.
  assert (∀ q l', q ≠ p → d !! q = Some (Some l') → agent l' ≠ agent l) as Hother.
  { intros q l' Hne Hq Ha. destruct (dir_file _ _ Hok _ _ Hq) as (? & [= <-] & Hm & _). rewrite Ha in Hm.
    rewrite Hm in Hp. apply Hne. by eapply (dir_single _ _ Hok). }
  split.
  - intros q f. destruct (decide (q = p)) as [->|Hne].
    + rewrite lookup_insert_eq. intros [= <-]. exists l. by rewrite lookup_insert_eq.
    + rewrite lookup_insert_ne by done. intros Hq. destruct (dir_file _ _ Hok _ _ Hq) as (l' & -> & ? & ? & ?).
      exists l'. split; [done|]. by rewrite lookup_insert_ne by (intros ?; by eapply Hother).
  - intros a' l'. destruct (decide (a' = agent l)) as [->|Hne].
    + rewrite lookup_insert_eq. intros [= <-]. split; [done|]. exists p. by rewrite lookup_insert_eq.
    + rewrite lookup_insert_ne by done. intros Hm. destruct (dir_lease _ _ Hok _ _ Hm) as [Ha [q Hq]].
      split; [done|]. exists q. rewrite lookup_insert_ne; [done|]. intros <-. rewrite Hq in Hp.
      destruct (m !! agent l) as [l0|] eqn:Hl0; [|done]. injection Hp as ->.
      destruct (dir_lease _ _ Hok _ _ Hl0) as [Hl0a _]. congruence.
  - intros p1 p2 l1 l2. destruct (decide (p1 = p)) as [->|H1], (decide (p2 = p)) as [->|H2]; [done| | |].
    + rewrite lookup_insert_eq, lookup_insert_ne by done. intros [= <-] Hp2 He. by destruct (Hother p2 l2).
    + rewrite lookup_insert_eq, lookup_insert_ne by done. intros Hp1 [= <-] He. by destruct (Hother p1 l1).
    + rewrite !lookup_insert_ne by done. apply (dir_single _ _ Hok).
Qed.
End dir.

(** ** The loops over the active leases *)

Lemma renew_loop_skip r e ls s :
  (∀ l, l ∈ ls → lease_matches_holder l (req_agent r) (req_branch r) = true → released_ts l ≠ None) →
  renew_loop short_hash to_rfc3339 parse_rfc3339 r e ls s = (Renewed None, s).
Proof.
  induction ls as [|l ls IH]; intros Hls; cbn [renew_loop]; [done|]. rewrite IH by (intros; apply Hls; [by right|done]).
  destruct (lease_matches_holder _ _ _) eqn:Hl; [|done]. rewrite bool_decide_eq_false_2; [done|]. apply Hls; [left|done].
Qed.

Lemma renew_loop_hit r e ls s l :
  l ∈ ls → lease_matches_holder l (req_agent r) (req_branch r) = true → released_ts l = None →
  (∀ l', l' ∈ ls → lease_matches_holder l' (req_agent r) (req_branch r) = true → l' = l) →
  renew_loop short_hash to_rfc3339 parse_rfc3339 r e ls s = renew_loop short_hash to_rfc3339 parse_rfc3339 r e [l] s.
Proof.
  intros Hin Hl Hr Hu. induction ls as [|l' ls IH]; [by apply elem_of_nil in Hin|].
  destruct (lease_matches_holder l' (req_agent r) (req_branch r)) eqn:Hl'.
  - rewrite (Hu l') by (try done; left). cbn [renew_loop]. by rewrite Hl, bool_decide_eq_true_2.
  - cbn [renew_loop] in *. rewrite Hl'. apply IH; [|intros; apply Hu; [by right|done]].
    apply elem_of_cons in Hin as [->|?]; [congruence|done].
Qed.

Lemma release_loop_skip r ls s :
  (∀ l, l ∈ ls → lease_matches_holder l (req_agent r) (req_branch r) = false) →
  release_loop short_hash to_rfc3339 r ls s = (Released None, s).
Proof.
  induction ls as [|l ls IH]; intros Hls; cbn [release_loop]; [done|]. rewrite Hls by left.
  apply IH. intros; apply Hls; by right.
Qed.

Lemma release_loop_hit r ls s l :
  l ∈ ls → lease_matches_holder l (req_agent r) (req_branch r) = true →
  (∀ l', l' ∈ ls → lease_matches_holder l' (req_agent r) (req_branch r) = true → l' = l) →
  release_loop short_hash to_rfc3339 r ls s = release_loop short_hash to_rfc3339 r [l] s.
Proof.
  intros Hin Hl Hu. induction ls as [|l' ls IH]; [by apply elem_of_nil in Hin|].
  destruct (lease_matches_holder l' (req_agent r) (req_branch r)) eqn:Hl'.
  - rewrite (Hu l') by (try done; left). cbn [release_loop]. by rewrite Hl.
  - cbn [release_loop] in *. rewrite Hl'. apply IH; [|intros; apply Hu; [by right|done]].
    apply elem_of_cons in Hin as [->|?]; [congruence|done].
Qed.

Lemma matches_holder l a b : lease_matches_holder l a b = true ↔ agent l = a ∧ branch l = b.
Proof. unfold lease_matches_holder. by rewrite andb_true_iff, !bool_decide_eq_true. Qed.

(** ** One request *)

(** The conflicts are reported in the order of the directory. *)
Definition same_answer (x y : Response) : Prop :=
  match x, y with
  | Granted l c, Granted l' c' => l = l' ∧ c ≡ₚ c'
  | _, _ => x = y
  end.

Definition complete (r : Request) (s : gmap str Dir) : Prop := listing r ≡ₚ elements (dom (dir_of r s)).

Section op.
Context (r : Request) (s : gmap str Dir) (t : gmap str (gmap str BuildSlotLease)).
Context (Hrep : represents s t) (Hk : known (req_agent r)) (Hlist : complete r s).

Let Hok : dir_ok (dir_of r s) (row r t) := Hrep _.

Lemma represents_write b l :
  agent l = req_agent r →
  represents (write_lease_json r (resolve_holder_lease_path short_hash (listing r) (dir_of r s) (req_agent r) b) l s)
    (set_row r l t).
Proof.
  intros Hl k. unfold write_lease_json, set_row. destruct (decide (k = safe_component (req_slot r))) as [->|Hne].
  - rewrite !lookup_insert_eq. simpl. by apply write_ok.
  - rewrite !lookup_insert_ne by done. apply Hrep.
Qed.

(** The agent's lease among the active ones. *)
Lemma own_lease_elem l :
  own_lease parse_rfc3339 r t = Some l ↔
  l ∈ read_active_leases parse_rfc3339 (listing r) (dir_of r s) (req_now r) ∧
  lease_matches_holder l (req_agent r) (req_branch r) = true.
Proof.
  rewrite (read_active_elem _ _ Hok _ Hlist), matches_holder. unfold own_lease. split.
  - destruct (row r t !! req_agent r) as [l'|] eqn:Hl; [|done]. simpl.
    destruct (is_active _ _ l') eqn:Ha; [|done]. simpl. case_bool_decide; [|done]. intros [= <-].
    destruct (dir_lease _ _ Hok _ _ Hl) as [Hla _]. by rewrite Hla.
  - intros [[Hl Ha] [Hla Hb]]. rewrite <-Hla, Hl. simpl. by rewrite Ha, bool_decide_eq_true_2.
Qed.

Lemma own_lease_agent l : own_lease parse_rfc3339 r t = Some l → agent l = req_agent r ∧ branch l = req_branch r.
Proof. intros [_ ?%matches_holder]%own_lease_elem. done. Qed.

Lemma acquire_refines ttl excl :
  let x := acquire_build_slot short_hash to_rfc3339 parse_rfc3339 r ttl excl s in
  let y := spec_acquire to_rfc3339 parse_rfc3339 r ttl excl t in
  same_answer x.1 y.1 ∧ represents x.2 y.2.
Proof.
  assert (dir_of r (create_slot_dir r s) = dir_of r s) as Hdir.
  { unfold create_slot_dir, dir_of at 1. by rewrite lookup_insert_eq. }
  unfold acquire_build_slot, spec_acquire, scan, grant. rewrite Hdir. destruct (written r); simpl.
  - split.
    + split; [done|]. unfold collect_slot_conflicts. apply filter_Permutation.
      by apply read_active_perm.
    + intros k. unfold write_lease_json. rewrite Hdir. unfold create_slot_dir. rewrite insert_insert_eq.
      by apply (represents_write (req_branch r)).
  - split; [done|]. intros k. unfold create_slot_dir.
    destruct (decide (k = safe_component (req_slot r))) as [->|Hne]; [rewrite lookup_insert_eq|rewrite lookup_insert_ne by done];
      apply Hrep.
Qed.

Lemma renew_refines extend :
  let x := renew_build_slot short_hash to_rfc3339 parse_rfc3339 r extend s in
  let y := spec_renew to_rfc3339 parse_rfc3339 r extend t in
  same_answer x.1 y.1 ∧ represents x.2 y.2.
Proof.
  unfold renew_build_slot, spec_renew. destruct (own_lease parse_rfc3339 r t) as [l|] eqn:Hown.
  - destruct (own_lease_agent l Hown) as [Hla Hlb]. destruct (proj1 (own_lease_elem l) Hown) as [Hin Hm].
    assert (∀ l', l' ∈ read_active_leases parse_rfc3339 (listing r) (dir_of r s) (req_now r) →
      lease_matches_holder l' (req_agent r) (req_branch r) = true → l' = l) as Hu.
    { intros l' Hl' Hm'. assert (own_lease parse_rfc3339 r t = Some l') by (by apply own_lease_elem). congruence. }
    case_bool_decide as Hr.
    + rewrite (renew_loop_hit _ _ _ _ _ Hin Hm Hr Hu). cbn [renew_loop].
      rewrite Hm, bool_decide_eq_true_2, Hla by done. simpl. destruct (written r); [|done].
      split; [done|]. by apply represents_write.
    + rewrite renew_loop_skip; [done|]. intros l' Hl' Hm'. by rewrite (Hu l' Hl' Hm').
  - rewrite renew_loop_skip; [done|]. intros l Hl Hm. assert (own_lease parse_rfc3339 r t = Some l) by (by apply own_lease_elem).
    congruence.
Qed.

Lemma release_refines :
  let x := release_build_slot short_hash to_rfc3339 parse_rfc3339 r s in
  let y := spec_release to_rfc3339 parse_rfc3339 r t in
  same_answer x.1 y.1 ∧ represents x.2 y.2.
Proof.
  unfold release_build_slot, spec_release. destruct (own_lease parse_rfc3339 r t) as [l|] eqn:Hown.
  - destruct (own_lease_agent l Hown) as [Hla Hlb]. destruct (proj1 (own_lease_elem l) Hown) as [Hin Hm].
    rewrite (release_loop_hit _ _ _ _ Hin Hm).
    + cbn [release_loop]. rewrite Hm. destruct (released_ts l); [done|]. rewrite Hla. destruct (written r); [|done].
      split; [done|]. by apply represents_write.
    + intros l' Hl' Hm'. assert (own_lease parse_rfc3339 r t = Some l') by (by apply own_lease_elem). congruence.
  - rewrite release_loop_skip; [done|]. intros l Hl. apply not_true_iff_false. intros Hm.
    assert (own_lease parse_rfc3339 r t = Some l) by (by apply own_lease_elem). congruence.
Qed.
End op.

(** ** Sequences of requests *)

Fixpoint run_ops (os : list Op) (s : gmap str Dir) : list Response * gmap str Dir :=
  match os with
  | [] => ([], s)
  | o :: os => let '(x, s) := run_op o s in let '(xs, s) := run_ops os s in (x :: xs, s)
  end.

Fixpoint spec_ops (os : list Op) (t : gmap str (gmap str BuildSlotLease)) : list Response * gmap str (gmap str BuildSlotLease) :=
  match os with
  | [] => ([], t)
  | o :: os => let '(x, t) := spec_op to_rfc3339 parse_rfc3339 o t in let '(xs, t) := spec_ops os t in (x :: xs, t)
  end.

(** Every listing of a directory is complete. *)
Fixpoint all_complete (os : list Op) (s : gmap str Dir) : Prop :=
  match os with
  | [] => True
  | o :: os => complete (request o) s ∧ all_complete os (run_op o s).2
  end.

Lemma op_refines o s t :
  represents s t → known (req_agent (request o)) → complete (request o) s →
  same_answer (run_op o s).1 (spec_op to_rfc3339 parse_rfc3339 o t).1 ∧
  represents (run_op o s).2 (spec_op to_rfc3339 parse_rfc3339 o t).2.
Proof. intros ???. destruct o; [by apply acquire_refines|by apply renew_refines|by apply release_refines]. Qed.

Lemma ops_refine os s t :
  represents s t → Forall (λ o, known (req_agent (request o))) os → all_complete os s →
  Forall2 same_answer (run_ops os s).1 (spec_ops os t).1 ∧ represents (run_ops os s).2 (spec_ops os t).2.
Proof.
  revert s t. induction os as [|o os IH]; intros s t Hrep Hk Hc; simpl; [done|].
  apply Forall_cons in Hk as [Hko Hk]. destruct Hc as [Ho Hc].
  destruct (op_refines o s t Hrep Hko Ho) as [Ha Hr]. destruct (run_op o s) as [x s'], (spec_op _ _ o t) as [y t'].
  simpl in *. destruct (IH s' t' Hr Hk Hc) as [Has Hr'].
  destruct (run_ops os s') as [xs s''], (spec_ops os t') as [ys t'']. simpl in *. split; [by constructor|done].
Qed.
End facts.

(** ** Registered names

    Agent names are alphanumeric, so that a file name determines its agent
    whatever the hash: it begins with the agent's name and a separator. *)

Definition alnum (c : N) : bool :=
  ((48 <=? c) && (c <=? 57) || (65 <=? c) && (c <=? 90) || (97 <=? c) && (c <=? 122))%N.

Definition plain_name (a : str) : Prop := a ≠ [] ∧ Forall (λ c, alnum c = true) a.

Lemma alnum_not_space c : alnum c = true → is_whitespace c = false.
Proof. unfold alnum, is_whitespace. lia. Qed.

Lemma alnum_not_forbidden c : alnum c = true → forbidden c = false.
Proof. unfold alnum, forbidden. intros H. apply bool_decide_eq_false. rewrite !elem_of_cons, elem_of_nil. lia. Qed.

Abbreviation visible := (Forall (λ c, is_whitespace c = false)).

Lemma trim_start_app u v : visible v → v ≠ [] → trim_start (u ++ v) = trim_start u ++ v.
Proof.
  intros Hv Hne. induction u as [|c u IH]; simpl; [|by destruct (is_whitespace c)].
  destruct v as [|c v]; [done|]. simpl. by apply Forall_cons in Hv as [-> _].
Qed.

Lemma trim_start_visible s : visible s → trim_start s = s.
Proof. intros Hs. destruct s as [|c s]; [done|]. simpl. by apply Forall_cons in Hs as [-> _]. Qed.

(** [str::trim] keeps the visible beginning of a text. *)
Lemma trim_keeps a b : visible a → a ≠ [] → ∃ y, trim (a ++ b) = a ++ y.
Proof.
  intros Ha Hne. unfold trim, trim_end. exists (reverse (trim_start (reverse b))).
  assert (trim_start (a ++ b) = a ++ b) as ->.
  { destruct a as [|c a]; [done|]. simpl. by apply Forall_cons in Ha as [-> _]. }
  rewrite reverse_app, trim_start_app, reverse_app, reverse_involutive; [done| |].
  - by rewrite reverse_Permutation.
  - intros H. apply Hne. by rewrite <-(reverse_involutive a), H.
Qed.

Lemma trim_visible a : visible a → trim a = a.
Proof.
  intros Ha. unfold trim, trim_end. rewrite (trim_start_visible a) by done.
  rewrite trim_start_visible, reverse_involutive; [done|]. by rewrite reverse_Permutation.
Qed.

Lemma plain_visible a : plain_name a → visible a.
Proof. intros [_ Ha]. apply (Forall_impl _ _ _ Ha). intros c. apply alnum_not_space. Qed.

Lemma plain_fmap a : plain_name a → ((λ c, if forbidden c then 95%N else c) <$> a) = a.
Proof.
  intros [_ Ha]. induction Ha as [|c a Hc _ IH]; [done|]. rewrite fmap_cons, IH. by rewrite alnum_not_forbidden.
Qed.

(** A file-name part that begins with a plain name is kept. *)
Lemma safe_plain a y x : plain_name a → trim x = a ++ y → ∃ z, safe_component x = a ++ z ∧ length z = length y ∧ head z = (λ c, if forbidden c then 95%N else c) <$> head y.
Proof.
  intros Ha Hx. unfold safe_component. rewrite Hx, fmap_app, (plain_fmap a Ha). set (z := _ <$> y). exists z.
  assert (∀ w, w = a ++ z → w ≠ [] ∧ w ≠ lit "." ∧ w ≠ lit "..") as Hw.
  { destruct Ha as [Hne Ha]. intros w ->. destruct a as [|c a]; [done|]. inversion Ha as [|?? Hc _]. subst.
    repeat split; try done; intros [= -> _]; vm_compute in Hc; done. }
  destruct (Hw _ eq_refl) as (H1 & H2 & H3). rewrite !bool_decide_eq_false_2 by done.
  split; [done|]. split; [apply length_fmap|]. subst z. by destruct y.
Qed.

Section names.
Context (short_hash : str → str).

Lemma name_shape a p : plain_name a → name_of short_hash a p → ∃ c y, p = a ++ c :: y ∧ alnum c = false.
Proof.
  intros Ha (b & Hp). assert (trim a = a ++ []) as Ht by (rewrite app_nil_r; by apply trim_visible, plain_visible).
  destruct (safe_plain a [] a Ha Ht) as (z & Hz & Hlen & _). destruct z; [|done]. rewrite app_nil_r in Hz.
  destruct Hp as [-> | ->]; unfold lease_path_for_holder, legacy_lease_path_for_holder, holder_identity.
  - rewrite Hz. eexists 45%N, _. split; done.
  - destruct b as [b|]; [|rewrite Hz; eexists 46%N, _; split; done].
    destruct (trim_keeps (a ++ lit ":::") b) as [y Hy].
    + apply Forall_app. split; [by apply plain_visible|]. repeat constructor.
    + by destruct a.
    + rewrite <-!app_assoc in Hy. destruct (safe_plain a _ _ Ha Hy) as (z & -> & _ & Hh).
      destruct z as [|c z]; [done|]. simpl in Hh. injection Hh as ->. rewrite <-app_assoc. eexists 95%N, _. split; done.
Qed.

Lemma plain_cut a a' c c' y y' :
  Forall (λ c, alnum c = true) a → Forall (λ c, alnum c = true) a' → alnum c = false → alnum c' = false →
  a ++ c :: y = a' ++ c' :: y' → a = a'.
Proof.
  revert a'. induction a as [|d a IH]; intros [|d' a'] Ha Ha' Hc Hc' He; simpl in *; simplify_eq; try done.
  - inversion Ha'; congruence.
  - inversion Ha; congruence.
  - inversion Ha. inversion Ha'. subst. f_equal. by eapply IH.
Qed.

Lemma plain_names_apart a a' p : plain_name a → plain_name a' → name_of short_hash a p → name_of short_hash a' p → a = a'.
Proof.
  intros Ha Ha' Hp Hp'. destruct (name_shape a p Ha Hp) as (c & y & -> & Hc).
  destruct (name_shape a' _ Ha' Hp') as (c' & y' & He & Hc'). eapply plain_cut; [apply Ha|apply Ha'|exact Hc|exact Hc'|exact He].
Qed.
End names.

(** C39: a project's build slots are a table of one lease per slot and agent:
    from an empty archive, and whatever the hash in the file names, any
    sequence of requests by registered agents gets the answers of the table,
    the conflicts up to the order in which the directory is listed, and leaves
    the files of the table's leases.  Leases that expired or were released,
    requests from other branches of the same agent and writes that failed
    included. *)
Theorem slots_refine_table short_hash to_rfc3339 parse_rfc3339 os :
  Forall (λ o, plain_name (req_agent (request o))) os →
  all_complete short_hash to_rfc3339 parse_rfc3339 os ∅ →
  let x := run_ops short_hash to_rfc3339 parse_rfc3339 os ∅ in
  let y := spec_ops to_rfc3339 parse_rfc3339 os ∅ in
  Forall2 same_answer x.1 y.1 ∧ represents short_hash plain_name x.2 y.2.
Proof.
  intros Hos Hc. apply ops_refine; [by apply plain_names_apart| |done|done].
  intros k. rewrite !lookup_empty. simpl. split; intros *; by rewrite ?lookup_empty.
Qed.

(** ** Runs *)

Module SlotRuns.
(** A hash and a clock text for the examples. *)
Definition short_hash (s : str) : str := if bool_decide (s = lit "Red") then lit "00000000000000aa" else lit "00000000000000bb".
Definition to_rfc3339 (t : Z) : str := [Z.to_N t].
Definition parse_rfc3339 (s : str) : option Z := match s with [c] => Some (Z.of_N c) | _ => None end.

Definition req (a : str) (b : option str) (t : Z) (names : list str) : Request :=
  {| req_agent := a; req_branch := b; req_slot := lit "frontend build"; req_now := t; listing := names; written := true |}.

Definition red_file : str := lit "Red--00000000000000aa.json".
Definition blue_file : str := lit "Blue--00000000000000bb.json".

(** Red takes the slot on no branch, Blue requests it too, Red renews from a
    branch (in vain) and releases. *)
Definition ops : list Op := [
  Acquire (req (lit "Red") None 5 []) (Some 60) None;
  Acquire (req (lit "Blue") (Some (lit "main")) 6 [red_file]) (Some 60) (Some false);
  Renew (req (lit "Red") (Some (lit "main")) 7 [red_file; blue_file]) None;
  Release (req (lit "Red") None 8 [red_file; blue_file])].

Lemma slots_refine_table_witness :
  let x := run_ops short_hash to_rfc3339 parse_rfc3339 ops ∅ in
  let y := spec_ops to_rfc3339 parse_rfc3339 ops ∅ in
  Forall2 same_answer x.1 y.1 ∧ represents short_hash plain_name x.2 y.2.
Proof.
  apply (slots_refine_table short_hash to_rfc3339 parse_rfc3339 ops).
  - repeat constructor; vm_compute; done.
  - vm_compute. repeat constructor.
Defined.

(** The calls do not lock the slot: two agents that scan before either writes
    are both granted it exclusively and neither is told of the other. *)
Lemma concurrent_grants_unreported :
  let red := req (lit "Red") None 5 [] in
  let blue := req (lit "Blue") None 5 [] in
  let s0 := create_slot_dir blue (create_slot_dir red ∅) in
  let s1 := grant short_hash to_rfc3339 red None None s0 in
  let s2 := grant short_hash to_rfc3339 blue None None s1 in
  scan parse_rfc3339 red None s0 = [] ∧ scan parse_rfc3339 blue None s0 = [] ∧
  length (read_active_leases parse_rfc3339 [red_file; blue_file] (dir_of red s2) 5) = 2%nat.
Proof. repeat split; by vm_compute. Qed.
End SlotRuns.
