(* ===== verification/DiskPressure.v ===== *)
(** * Disk pressure ([mcp-agent-mail-core/src/disk.rs])

    A background worker samples the free space of the disks that hold the
    archive and the database, classifies the smaller one and records the level
    in a gauge; the message tools read the gauge and refuse messages when it
    is fatal.  A path is its components, as [Path] compares it; which paths
    exist and what is free are arguments. *)

From stdpp Require Import base numbers tactics list sets strings.
From S2P Require Import Prelude.
Open Scope Z_scope.

Module DiskPressure.

Definition MIB : Z := 1024 * 1024.

Inductive DiskPressure := Ok | Warning | Critical | Fatal.

#[global] Instance DiskPressure_eq_dec : EqDecision DiskPressure.
Proof. solve_decision. Defined.

Definition as_u64 (p : DiskPressure) : Z := match p with Ok => 0 | Warning => 1 | Critical => 2 | Fatal => 3 end.

Definition from_u64 (v : Z) : DiskPressure :=
  if v =? 1 then Warning else if v =? 2 then Critical else if v =? 3 then Fatal else Ok.

Definition classify_pressure (free_bytes warning_mb critical_mb fatal_mb : Z) : DiskPressure :=
  let warning := u64_saturating_mul warning_mb MIB in
  let critical := u64_saturating_mul critical_mb MIB in
  let fatal := u64_saturating_mul fatal_mb MIB in
  if (0 <? fatal) && (free_bytes <? fatal) then Fatal
  else if (0 <? critical) && (free_bytes <? critical) then Critical
  else if (0 <? warning) && (free_bytes <? warning) then Warning
  else Ok.

Definition min_opt (a b : option Z) : option Z :=
  match a, b with
  | Some x, Some y => Some (Z.min x y)
  | Some x, None => Some x
  | None, Some y => Some y
  | None, None => None
  end.

(** ** Paths *)

(** The components of a path; of a relative one that begins with a dot the
    dot is one. *)
Record Path := { absolute : bool; parts : list str }.

#[global] Instance Path_eq_dec : EqDecision Path.
Proof. solve_decision. Defined.

Definition dropped (p : str) : bool := bool_decide (p = []) || bool_decide (p = lit ".").

Definition path_of (text : str) : Path :=
  let pieces := split_on is_slash text in
  let kept := filter (λ p, dropped p = false) pieces in
  {| absolute := starts_with (lit "/") text;
     parts := if bool_decide (head pieces = Some (lit ".")) then lit "." :: kept else kept |}.

(** The parents of a path, nearest first, up to the one without components. *)
Fixpoint ancestors (abs : bool) (rev_parts : list str) : list Path :=
  match rev_parts with
  | [] => []
  | _ :: rest => {| absolute := abs; parts := reverse rest |} :: ancestors abs rest
  end.

Definition is_empty (p : Path) : bool := negb (absolute p) && bool_decide (parts p = []).

Fixpoint first_existing (exists_ : Path → bool) (candidates : list Path) : option Path :=
  match candidates with
  | [] => None
  | parent :: rest =>
      if is_empty parent then None
      else if exists_ parent then Some parent
      else first_existing exists_ rest
  end.

Definition normalize_probe_path (exists_ : Path → bool) (path : Path) : Path :=
  if exists_ path then path
  else default (path_of (lit ".")) (first_existing exists_ (ancestors (absolute path) (reverse (parts path)))).

(** [str::strip_prefix]. *)
Definition strip_prefix (p s : str) : option str := if starts_with p s then Some (drop (length p) s) else None.

Definition sqlite_path_component (database_url : str) : option str :=
  let url := trim database_url in
  stripped ←
    match strip_prefix (lit "sqlite+aiosqlite://") url with
    | Some rest => Some rest
    | None => strip_prefix (lit "sqlite://") url
    end;
  Some (default stripped (head (split_on (λ c, (c =? 63)%N || (c =? 35)%N) stripped))).

Definition is_sqlite_memory_database_url (database_url : str) : bool :=
  match sqlite_path_component database_url with
  | Some p => bool_decide (p ∈ [lit "/:memory:"; lit ":memory:"])
  | None => false
  end.

Definition sqlite_file_path_from_database_url (database_url : str) : option str :=
  stripped ← sqlite_path_component database_url;
  if bool_decide (stripped = []) || bool_decide (stripped = lit "/") then None
  else if is_sqlite_memory_database_url database_url then None
  else
    let path :=
      if starts_with (lit "//") stripped then drop 1 stripped
      else if starts_with (lit "/./") stripped || starts_with (lit "/../") stripped then drop 1 stripped
      else stripped in
    if bool_decide (path = []) then None else Some path.

(** ** Sampling *)

Record Config := {
  storage_root : str;
  database_url : str;
  disk_space_warning_mb : Z;
  disk_space_critical_mb : Z;
  disk_space_fatal_mb : Z;
}.

Record DiskSample := {
  storage_probe_path : Path;
  db_probe_path : option Path;
  storage_free_bytes : option Z;
  db_free_bytes : option Z;
  effective_free_bytes : option Z;
  pressure : DiskPressure;
  errors : nat;
}.

(** [free p] is [None] when the file system cannot say. *)
Definition sample_disk (exists_ : Path → bool) (free : Path → option Z) (config : Config) : DiskSample :=
  let storage := normalize_probe_path exists_ (path_of (storage_root config)) in
  let db := (λ p, normalize_probe_path exists_ (path_of p)) <$> sqlite_file_path_from_database_url (database_url config) in
  let effective := min_opt (free storage) (db ≫= free) in
  {| storage_probe_path := storage; db_probe_path := db;
     storage_free_bytes := free storage; db_free_bytes := db ≫= free;
     effective_free_bytes := effective;
     pressure := from_option (λ f, classify_pressure f (disk_space_warning_mb config) (disk_space_critical_mb config)
                                     (disk_space_fatal_mb config)) Ok effective;
     errors := length (filter (λ p, free p = None) (storage :: option_list db)) |}.

(** The gauges; those of input and output are left out. *)
Record Gauges := {
  disk_storage_free_bytes : Z;
  disk_db_free_bytes : Z;
  disk_effective_free_bytes : Z;
  disk_pressure_level : Z;
  disk_last_sample_us : Z;
  disk_sample_errors_total : Z;
}.

Definition sample_and_record (exists_ : Path → bool) (free : Path → option Z) (now_us : Z) (config : Config) (g : Gauges) :
    DiskSample * Gauges :=
  let sample := sample_disk exists_ free config in
  (sample,
   {| disk_storage_free_bytes := default (disk_storage_free_bytes g) (storage_free_bytes sample);
      disk_db_free_bytes := default (disk_db_free_bytes g) (db_free_bytes sample);
      disk_effective_free_bytes := default 0 (effective_free_bytes sample);
      disk_pressure_level := as_u64 (pressure sample);
      disk_last_sample_us := now_us;
      disk_sample_errors_total := u64_wrap (disk_sample_errors_total g + Z.of_nat (errors sample)) |}).

(** What a tool that accepts messages reads. *)
Definition recorded_pressure (g : Gauges) : DiskPressure := from_u64 (disk_pressure_level g).

End DiskPressure.
Import DiskPressure.

(** ** The fullest disk decides *)

Definition worse (p q : DiskPressure) : DiskPressure := if as_u64 p <? as_u64 q then q else p.

Lemma from_as_u64 p : from_u64 (as_u64 p) = p.
Proof. by destruct p. Qed.

(** Less space is never a better level, in whatever order the thresholds are. *)
Lemma classify_antitone a b warning critical fatal :
  a ≤ b → as_u64 (classify_pressure b warning critical fatal) ≤ as_u64 (classify_pressure a warning critical fatal).
Proof.
  intros Hab. unfold classify_pressure.
  repeat case_if; simpl; try lia; repeat (rewrite ?andb_true_iff, ?andb_false_iff, ?Z.ltb_lt, ?Z.ltb_ge in *); lia.
Qed.

(** The level recorded after a sample is the worse of the levels of the two
    disks, one that cannot be asked being left out; and it is the fatal one
    exactly when one of the disks has less free space than a fatal threshold
    that is set. *)
Theorem fullest_disk_decides exists_ free now_us config g :
  let s := (sample_and_record exists_ free now_us config g).1 in
  let g' := (sample_and_record exists_ free now_us config g).2 in
  let level f := classify_pressure f (disk_space_warning_mb config) (disk_space_critical_mb config) (disk_space_fatal_mb config) in
  recorded_pressure g' = worse (from_option level Ok (storage_free_bytes s)) (from_option level Ok (db_free_bytes s)) ∧
  (recorded_pressure g' = Fatal ↔
     0 < disk_space_fatal_mb config ∧
     ∃ f, f ∈ option_list (storage_free_bytes s) ++ option_list (db_free_bytes s) ∧
       f < Z.min u64_max (disk_space_fatal_mb config * MIB)).
Proof.
  intros s g' level.
  assert (recorded_pressure g' = from_option level Ok (min_opt (storage_free_bytes s) (db_free_bytes s))) as ->.
  { apply from_as_u64. }
  assert (∀ f, level f = Fatal ↔ 0 < disk_space_fatal_mb config ∧ f < Z.min u64_max (disk_space_fatal_mb config * MIB)) as Hfatal.
  { intros f. unfold level, classify_pressure, u64_saturating_mul, MIB, u64_max.
    repeat case_if; rewrite ?andb_true_iff, ?andb_false_iff, ?Z.ltb_lt, ?Z.ltb_ge in *; split; intros H; try done; lia. }
  split.
  - destruct (storage_free_bytes s) as [x|], (db_free_bytes s) as [y|]; simpl.
    + assert (∀ p q, as_u64 p ≤ as_u64 q → as_u64 q ≤ as_u64 p → p = q) as Hanti by (intros [] []; simpl; lia || done).
      unfold worse. destruct (Z.le_ge_cases x y) as [Hxy|Hxy].
      * rewrite Z.min_l by done. pose proof (classify_antitone x y (disk_space_warning_mb config) (disk_space_critical_mb config) (disk_space_fatal_mb config) Hxy).
        fold (level x) (level y) in *. destruct (Z.ltb_spec (as_u64 (level x)) (as_u64 (level y))); [lia|done].
      * rewrite Z.min_r by done. pose proof (classify_antitone y x (disk_space_warning_mb config) (disk_space_critical_mb config) (disk_space_fatal_mb config) Hxy).
        fold (level x) (level y) in *. destruct (Z.ltb_spec (as_u64 (level x)) (as_u64 (level y))); [done|]. apply Hanti; lia.
    + unfold worse. by destruct (level x).
    + unfold worse. by destruct (level y).
    + done.
  - destruct (storage_free_bytes s) as [x|], (db_free_bytes s) as [y|]; simpl; rewrite ?Hfatal.
    + split.
      * intros [? ?]. split; [done|]. destruct (Z.le_ge_cases x y); [exists x|exists y]; (split; [set_solver|lia]).
      * intros [? (f & Hf & ?)]. split; [done|]. apply elem_of_cons in Hf as [->|Hf%list_elem_of_singleton]; subst; lia.
    + split; [intros [? ?]; split; [done|]; exists x; split; [left|done]|]. intros [? (f & ->%list_elem_of_singleton & ?)]. done.
    + split; [intros [? ?]; split; [done|]; exists y; split; [left|done]|]. intros [? (f & ->%list_elem_of_singleton & ?)]. done.
    + split; [done|]. by intros [? (f & ?%elem_of_nil & _)].
Qed.

(** The path probed exists or is the current directory. *)
Lemma probe_path_exists exists_ p :
  exists_ (normalize_probe_path exists_ p) = true ∨ normalize_probe_path exists_ p = path_of (lit ".").
Proof.
  unfold normalize_probe_path. destruct (exists_ p) eqn:Hp; [by left|].
  generalize (ancestors (absolute p) (reverse (parts p))) as l. intros l.
  induction l as [|q l IH]; simpl; [by right|].
  destruct (is_empty q); [by right|]. destruct (exists_ q) eqn:Hq; [by left|done].
Qed.

(** ** Addresses of databases *)

Example database_addresses :
  sqlite_file_path_from_database_url <$>
    [lit "sqlite+aiosqlite:///./storage.sqlite3"; lit "sqlite:////abs/a.db"; lit "sqlite:///var/a.db?mode=rw";
     lit "sqlite:///:memory:"; lit "postgres://x"]
  = [Some (lit "./storage.sqlite3"); Some (lit "/abs/a.db"); Some (lit "/var/a.db"); None; None].
Proof. vm_compute. reflexivity. Qed.
