(* ===== verification/MessageArguments.v ===== *)
(** * The arguments of the message tools
    ([mcp-agent-mail-tools/src/messaging.rs])

    Before [send_message] and [reply_message] run, the server rewrites their
    JSON arguments: other names of a parameter become its own, and one name of
    a recipient becomes a list.  The tools then check the thread, the
    importance, the subject and the topic.  An argument object is a finite map,
    as [serde_json::Map] is; the texts of refusals are left out. *)

From stdpp Require Import base numbers tactics list gmap strings pretty.
From S2P Require Import Prelude Guard ReservationTools AgentNames.
Import Guard AgentNames.
Open Scope Z_scope.

Module MessageArguments.

(** ** Thread identifiers *)

Definition is_ascii_alphanumeric (c : N) : bool :=
  ReservationTools.is_ascii_alphabetic c || is_ascii_digit c.

Definition thread_char (c : N) : bool :=
  is_ascii_alphanumeric c || (c =? 46)%N || (c =? 95)%N || (c =? 45)%N.

Definition is_valid_thread_id (tid : str) : bool :=
  if bool_decide (tid = []) || (128 <? ReservationTools.byte_len tid) then false
  else
    match tid with
    | [] => false
    | first :: _ => if is_ascii_alphanumeric first then forallb thread_char tid else false
    end.

Definition is_bare_numeric_thread_id (tid : str) : bool := negb (bool_decide (tid = [])) && forallb is_ascii_digit tid.

(** [take] counts characters; those kept have one byte each. *)
Definition sanitize_thread_id (raw fallback : str) : str :=
  let sanitized := take 128 (filter (λ c, thread_char c = true) raw) in
  match sanitized with
  | [] => fallback
  | first :: _ => if is_ascii_alphanumeric first then sanitized else fallback
  end.

(** [i64::to_string]. *)
Definition i64_to_string (z : Z) : str := lit (pretty z).

(** ** Subjects, importance, topics *)

(** [char_indices().nth(200)]. *)
Definition truncate_subject (subject : str) : str :=
  match subject !! 200%nat with Some _ => take 200 subject | None => subject end.

Definition reply_subject (prefix original : str) : str :=
  let prefix_with_space := prefix ++ lit " " in
  truncate_subject
    (if starts_with (to_ascii_lowercase prefix_with_space) (to_ascii_lowercase original)
        || eq_ignore_ascii_case original prefix
     then original
     else prefix ++ lit " " ++ original).

Definition IMPORTANCES : list str := lit <$> ["low"; "normal"; "high"; "urgent"]%string.

(** The importance to store, when it is one. *)
Definition importance_of (importance : option str) : option str :=
  let importance_val := from_option to_ascii_lowercase (lit "normal") importance in
  if bool_decide (importance_val ∈ IMPORTANCES) then Some importance_val else None.

(** Of a reply: only an override is checked. *)
Definition importance_accepted (importance : option str) : bool :=
  match importance with Some imp => bool_decide (to_ascii_lowercase imp ∈ IMPORTANCES) | None => true end.

Definition normalized_topic_argument (topic : option str) : option str :=
  value ← topic;
  let value := trim value in
  if bool_decide (value = []) then None else Some value.

Definition reject_unsupported_topic_argument (topic : option str) : bool :=
  bool_decide (is_Some (normalized_topic_argument topic)).

(** Trimmed, and blank as none. *)
Definition thread_argument (thread_id : option str) : option str :=
  t ← thread_id;
  let t := trim t in
  if bool_decide (t = []) then None else Some t.

(** [normalize_agent_name(n).unwrap_or(n)]. *)
Definition normal_or_same (n : str) : str := default n (normalize_agent_name ∅ n).1.

(** ** The JSON arguments *)

Abbreviation Args := (gmap str Value).

Definition has_key (args : Args) (key : str) : bool := bool_decide (is_Some (args !! key)).

(** [Map::remove]: the value and the map without it. *)
Definition remove (key : str) (args : Args) : option Value * Args := (args !! key, delete key args).

(** [remove(a).or_else(|| remove(b)).or_else(…)]: the aliases after the first
    one found are left. *)
Fixpoint remove_first (aliases : list str) (args : Args) : option Value * Args :=
  match aliases with
  | [] => (None, args)
  | a :: aliases =>
      match remove a args with
      | (Some v, args) => (Some v, args)
      | (None, args) => remove_first aliases args
      end
  end.

(** One parameter and its aliases. *)
Definition normalize_alias (key : str) (aliases : list str) (args : Args) : Args :=
  if has_key args key then foldl (λ m a, (remove a m).2) args aliases
  else
    match remove_first aliases args with
    | (Some v, args) => <[key := v]> args
    | (None, args) => args
    end.

Definition PROJECT_ALIASES : list str := lit <$> ["project"; "project_slug"; "human_key"]%string.
Definition SENDER_ALIASES : list str := lit <$> ["from"; "from_agent"; "requester"]%string.
Definition MESSAGE_ALIASES : list str := lit <$> ["id"]%string.

Definition normalize_send_message_aliases (args : Args) : Args :=
  normalize_alias (lit "message_id") MESSAGE_ALIASES
    (normalize_alias (lit "sender_name") SENDER_ALIASES
      (normalize_alias (lit "project_key") PROJECT_ALIASES args)).

Inductive ArgumentError :=
  | NotAnObject
  | BroadcastUnsupported
  | ItemNotString (field : str) (type_name : string)
  | NotAList (field : str) (type_name : option string).

Definition python_json_type_name (value : Value) : string :=
  match value with
  | Null => "NoneType"
  | Bool _ => "bool"
  | PosInt _ | NegInt _ => "int"
  | Float _ _ => "float"
  | String _ => "str"
  | Array _ => "list"
  | Object _ => "dict"
  end.

Definition is_string (v : Value) : bool := match v with String _ => true | _ => false end.

(** [items.iter().find(|item| !item.is_string())]. *)
Definition invalid_item (items : list Value) : option Value := head (filter (λ v, is_string v = false) items).

Definition normalize_send_message_to_argument (args : Args) : ArgumentError + Args :=
  match args !! lit "to" with
  | None => inr args
  | Some (String s) => inr (<[lit "to" := Array [String s]]> args)
  | Some (Array items) =>
      match invalid_item items with
      | Some i => inl (ItemNotString (lit "to") (python_json_type_name i))
      | None => inr args
      end
  | Some other => inl (NotAList (lit "to") (Some (python_json_type_name other)))
  end.

Definition normalize_send_message_cc_bcc_argument (field : str) (args : Args) : ArgumentError + Args :=
  match args !! field with
  | None => inr args
  | Some Null => inr (remove field args).2
  | Some (String s) => inr (<[field := Array [String s]]> args)
  | Some (Array items) =>
      match invalid_item items with
      | Some i => inl (ItemNotString field (python_json_type_name i))
      | None => inr args
      end
  | Some _ => inl (NotAList field None)
  end.

(** [?]. *)
Definition and_then {E A B} (r : E + A) (k : A → E + B) : E + B := match r with inl e => inl e | inr a => k a end.

(** [None]: the arguments are not an object. *)
Definition normalize_send_message_arguments (arguments : option Args) : ArgumentError + Args :=
  match normalize_send_message_aliases <$> arguments with
  | None => inl NotAnObject
  | Some args =>
      if default false (args !! lit "broadcast" ≫= as_bool) then inl BroadcastUnsupported
      else
        and_then (normalize_send_message_to_argument args) (λ args,
        and_then (normalize_send_message_cc_bcc_argument (lit "cc") args)
          (normalize_send_message_cc_bcc_argument (lit "bcc")))
  end.

End MessageArguments.
