(* ===== verification/MessageArgumentsFacts.v ===== *)
(** * What the checks of message arguments establish

    Numbers written as text are read back; sanitised thread identifiers are
    valid and valid ones are left alone; the subject of a reply is stable; the
    normal form of the JSON arguments. *)

From Stdlib Require Import Ascii.
From stdpp Require Import base numbers tactics list gmap sets strings pretty.
From S2P Require Import Prelude Guard ReservationTools AgentNames MessageArguments.
Import Guard MessageArguments.
Open Scope Z_scope.

(** ** Numbers as text *)

Lemma digits_value_snoc ds d : digits_value (ds ++ [d]) = digits_value ds * 10 + (Z.of_N d - 48).
Proof. unfold digits_value. by rewrite foldl_app. Qed.

Lemma pretty_char_digit x : (x < 10)%N → N_of_ascii (pretty_N_char x) = (48 + x)%N.
Proof. intros Hx. destruct x as [|p]; [done|]. do 4 (destruct p as [p|p|]; try done; try lia). Qed.

Lemma lit_cons a s : lit (String.String a s) = N_of_ascii a :: lit s.
Proof. done. Qed.

(** What is written in front of an accumulator: the digits of a number. *)
Lemma pretty_digits x s :
  ∃ ds, lit (pretty_N_go x s) = ds ++ lit s ∧ forallb is_ascii_digit ds = true ∧ digits_value ds = Z.of_N x ∧
    ((0 < x)%N → ds ≠ []) ∧ ∀ k, (x < 10 ^ N.of_nat k)%N → (length ds ≤ k)%nat.
Proof.
  revert s. induction (N.lt_wf_0 x) as [x _ IH]; intros s.
  destruct (decide (x = 0%N)) as [->|Hx].
  { exists []. rewrite pretty_N_go_0. split_and!; [done..|intros; simpl; lia]. }
  rewrite pretty_N_go_step by lia.
  destruct (IH (x `div` 10)%N) with (s := String.String (pretty_N_char (x `mod` 10)) s) as (ds & E & Hd & Hv & _ & Hlen).
  { apply N.div_lt; lia. }
  assert (x `mod` 10 < 10)%N as Hm by (apply N.mod_lt; lia).
  exists (ds ++ [(48 + x `mod` 10)%N]). rewrite E, lit_cons, pretty_char_digit, <-app_assoc by done.
  split_and!; [done| | | |].
  - rewrite forallb_app, Hd. cbn [forallb andb]. rewrite andb_true_r. unfold is_ascii_digit.
    revert Hm. generalize (x `mod` 10)%N. intros m Hm. apply andb_true_iff. split; apply N.leb_le; lia.
  - rewrite digits_value_snoc, Hv, N2Z.inj_add, N2Z.inj_div, N2Z.inj_mod.
    change (Z.of_N 48) with 48. change (Z.of_N 10) with 10. pose proof (Z_div_mod_eq_full (Z.of_N x) 10). lia.
  - intros _ H. by apply app_nil in H as [_ ?].
  - intros [|k] Hk; [rewrite N.pow_0_r in Hk; lia|]. rewrite length_app. simpl.
    enough (length ds ≤ k)%nat by lia. apply Hlen. apply N.Div0.div_lt_upper_bound.
    replace (N.of_nat (S k)) with (N.succ (N.of_nat k)) in Hk by lia. by rewrite N.pow_succ_r' in Hk.
Qed.

(** A key of a row as text. *)
Lemma i64_to_string_digits z : 0 ≤ z ≤ i64_max →
  forallb is_ascii_digit (i64_to_string z) = true ∧ digits_value (i64_to_string z) = z ∧
  i64_to_string z ≠ [] ∧ (length (i64_to_string z) ≤ 19)%nat.
Proof.
  intros Hz. unfold i64_to_string. destruct z as [|p|p]; [split_and!; [done..|vm_compute; lia]| |lia].
  change (pretty (Z.pos p)) with (pretty_N_go (N.pos p) EmptyString).
  destruct (pretty_digits (N.pos p) EmptyString) as (ds & E & Hd & Hv & Hne & Hlen). rewrite E, app_nil_r.
  split_and!; [done|by rewrite Hv|by apply Hne|]. apply Hlen.
  assert (N.pos p ≤ Z.to_N i64_max)%N by (unfold i64_max in *; lia).
  eapply N.le_lt_trans; [done|]. vm_compute. done.
Qed.

Lemma parse_i64_to_string z : 0 ≤ z ≤ i64_max → parse_i64 (i64_to_string z) = Some z.
Proof.
  intros Hz. destruct (i64_to_string_digits z Hz) as (Hd & Hv & Hne & _). unfold parse_i64.
  destruct (i64_to_string z) as [|c s] eqn:E; [done|].
  assert (is_ascii_digit c = true) as Hc by (simpl in Hd; by apply andb_true_iff in Hd as [? _]).
  unfold is_ascii_digit in Hc. apply andb_true_iff in Hc as [H1%N.leb_le H2%N.leb_le].
  assert (c ≠ 45%N ∧ c ≠ 43%N) as [Hc1 Hc2] by lia.
  replace (match c :: s with 45%N :: s' => (true, s') | 43%N :: s' => (false, s') | _ => (false, c :: s) end)
    with (false, c :: s).
  2:{ clear - Hc1 Hc2. destruct c as [|p]; [done|]. do 6 (destruct p as [p|p|]; try done). }
  cbv beta iota. rewrite Hd, Hv, bool_decide_eq_false_2 by done. cbn [negb orb].
  assert (i64_min ≤ z) by (unfold i64_min; lia).
  by rewrite (proj2 (Z.leb_le _ _)), (proj2 (Z.leb_le _ _)) by (unfold i64_max in *; lia).
Qed.

(** ** Thread identifiers *)

Lemma all_true {A} (f : A → bool) l : forallb f l = true ↔ Forall (λ x, f x = true) l.
Proof. induction l as [|x l IH]; simpl; [split; [constructor|done]|]. by rewrite andb_true_iff, IH, Forall_cons. Qed.

(** What a valid identifier is. *)
Definition thread_id_ok (tid : str) : Prop :=
  (length tid ≤ 128)%nat ∧ Forall (λ c, thread_char c = true) tid ∧
  ∃ c, head tid = Some c ∧ is_ascii_alphanumeric c = true.

Lemma thread_char_ascii c : thread_char c = true → (c < 128)%N.
Proof.
  unfold thread_char, is_ascii_alphanumeric, ReservationTools.is_ascii_alphabetic, is_ascii_digit.
  rewrite !orb_true_iff, !andb_true_iff, ?N.leb_le, ?N.eqb_eq. lia.
Qed.

Lemma thread_byte_len tid : Forall (λ c, thread_char c = true) tid → ReservationTools.byte_len tid = Z.of_nat (length tid).
Proof.
  induction 1 as [|c tid Hc%thread_char_ascii _ IH]; [done|].
  unfold ReservationTools.byte_len in *. cbn [foldr length]. rewrite IH. unfold ReservationTools.utf8_len.
  rewrite (proj2 (N.ltb_lt c 128)) by done. lia.
Qed.

Lemma alphanumeric_thread_char c : is_ascii_alphanumeric c = true → thread_char c = true.
Proof. unfold thread_char. by intros ->. Qed.

Lemma is_valid_thread_id_iff tid : is_valid_thread_id tid = true ↔ thread_id_ok tid.
Proof.
  unfold is_valid_thread_id, thread_id_ok. destruct tid as [|c tid]; [split; [done|by intros (_ & _ & c & ? & _)]|].
  rewrite bool_decide_eq_false_2 by done. cbn [orb]. split.
  - case_if; [done|]. destruct (is_ascii_alphanumeric c) eqn:Hc; [|done]. intros Hf%all_true.
    split_and!; [|done|by exists c]. apply Z.ltb_ge in Heqb. rewrite thread_byte_len in Heqb by done. lia.
  - intros (Hlen & Hall & d & [= <-] & Hc). rewrite thread_byte_len, (proj2 (Z.ltb_ge _ _)), Hc by (done || lia).
    by apply all_true.
Qed.

Lemma sanitize_valid_id tid fallback : is_valid_thread_id tid = true → sanitize_thread_id tid fallback = tid.
Proof.
  intros (Hlen & Hall & c & Hc & Ha)%is_valid_thread_id_iff. unfold sanitize_thread_id.
  rewrite filter_all, take_ge by done. destruct tid as [|d tid]; [done|]. injection Hc as ->. by rewrite Ha.
Qed.

Lemma sanitize_is_valid raw fallback :
  is_valid_thread_id fallback = true → is_valid_thread_id (sanitize_thread_id raw fallback) = true.
Proof.
  intros Hf. unfold sanitize_thread_id.
  destruct (take 128 (filter (λ c, thread_char c = true) raw)) as [|c s] eqn:E; [done|].
  destruct (is_ascii_alphanumeric c) eqn:Hc; [|done]. apply is_valid_thread_id_iff. rewrite <-E. split_and!.
  - rewrite length_take. lia.
  - apply Forall_take, Forall_forall. intros x Hx. by apply list_elem_of_filter in Hx as [? _].
  - exists c. by rewrite E.
Qed.

(** A key as text is a valid identifier, and only digits. *)
Lemma key_thread_id z : 0 ≤ z ≤ i64_max → is_valid_thread_id (i64_to_string z) = true ∧ is_bare_numeric_thread_id (i64_to_string z) = true.
Proof.
  intros Hz. destruct (i64_to_string_digits z Hz) as (Hd & _ & Hne & Hlen). split.
  - apply is_valid_thread_id_iff.
    assert (∀ c, is_ascii_digit c = true → is_ascii_alphanumeric c = true) as Hdig.
    { intros c Hc. unfold is_ascii_alphanumeric. by rewrite Hc, orb_true_r. }
    assert (Forall (λ c, is_ascii_digit c = true) (i64_to_string z)) as Hall.
    { by apply all_true. }
    split_and!; [lia| |].
    + eapply Forall_impl; [exact Hall|]. intros c Hc. by apply alphanumeric_thread_char, Hdig.
    + destruct (i64_to_string z) as [|c s]; [done|]. exists c. split; [done|]. apply Forall_cons_iff in Hall as [? _]. by apply Hdig.
  - unfold is_bare_numeric_thread_id. by rewrite bool_decide_eq_false_2, Hd.
Qed.

(** ** Subjects *)

Lemma truncate_subject_eq s : truncate_subject s = take 200 s.
Proof.
  unfold truncate_subject. destruct (s !! 200%nat) eqn:E; [done|].
  apply lookup_ge_None in E. by rewrite take_ge.
Qed.

Lemma truncate_length s : (length (truncate_subject s) ≤ 200)%nat.
Proof. rewrite truncate_subject_eq, length_take. lia. Qed.

Lemma lower_app a b : to_ascii_lowercase (a ++ b) = to_ascii_lowercase a ++ to_ascii_lowercase b.
Proof. apply fmap_app. Qed.

Lemma lower_take n a : to_ascii_lowercase (take n a) = take n (to_ascii_lowercase a).
Proof. apply fmap_take. Qed.

Lemma lower_length a : length (to_ascii_lowercase a) = length a.
Proof. apply length_fmap. Qed.

(** The subject carries the prefix, whole or cut. *)
Definition has_prefix (prefix s : str) : bool :=
  starts_with (to_ascii_lowercase (prefix ++ lit " ")) (to_ascii_lowercase s) || eq_ignore_ascii_case s prefix.

Lemma has_prefix_take prefix s : (length prefix ≤ 200)%nat → has_prefix prefix s = true → has_prefix prefix (take 200 s) = true.
Proof.
  intros Hlen. unfold has_prefix, starts_with, eq_ignore_ascii_case. rewrite !orb_true_iff, !bool_decide_eq_true, lower_take.
  intros [[rest Hrest]|E].
  - rewrite Hrest. destruct (decide (length prefix = 200%nat)) as [Hl|].
    + right. rewrite lower_app, <-app_assoc, take_app_le, take_ge by (rewrite lower_length; lia). done.
    + left. rewrite take_app_ge by (rewrite lower_length, length_app; simpl; lia). by apply prefix_app_r.
  - right. rewrite E, take_ge; [done|]. by rewrite lower_length.
Qed.

Lemma reply_subject_unfold prefix s :
  reply_subject prefix s = take 200 (if has_prefix prefix s then s else prefix ++ lit " " ++ s).
Proof. unfold reply_subject. by rewrite truncate_subject_eq. Qed.

Lemma reply_subject_prefixed prefix s : (length prefix ≤ 200)%nat → has_prefix prefix (reply_subject prefix s) = true.
Proof.
  intros Hlen. rewrite reply_subject_unfold. apply has_prefix_take; [done|].
  destruct (has_prefix prefix s) eqn:E; [done|]. unfold has_prefix, starts_with. apply orb_true_iff. left.
  apply bool_decide_eq_true. rewrite app_assoc, (lower_app (_ ++ _)). by apply prefix_app_r.
Qed.

(** Prefixes never pile up.  The subject of a reply has at most two hundred
    characters and begins with the prefix or is it, letter case aside; and a
    reply to a reply has the same subject, as long as the prefix itself is not
    longer than a subject. *)
Theorem reply_subject_stable prefix original :
  (length prefix ≤ 200)%nat →
  let s := reply_subject prefix original in
  (length s ≤ 200)%nat ∧ has_prefix prefix s = true ∧ reply_subject prefix s = s.
Proof.
  intros Hlen s. pose proof (reply_subject_prefixed prefix original Hlen) as Hp. fold s in Hp.
  assert (length s ≤ 200)%nat as Hs by apply truncate_length.
  split_and!; [done..|]. by rewrite reply_subject_unfold, Hp, take_ge.
Qed.

Lemma reply_subject_stable_witness :
  reply_subject (lit "RE:") (lit "Re: plan") = lit "Re: plan" ∧
  reply_subject (lit "Re:") (lit "plan") = lit "Re: plan" ∧
  reply_subject (lit "Re:") (reply_subject (lit "Re:") (lit "plan")) = reply_subject (lit "Re:") (lit "plan").
Proof.
  split_and!; [reflexivity..|]. apply (reply_subject_stable (lit "Re:") (lit "plan")). vm_compute. lia.
Defined.

(** ** JSON arguments *)

(** The recipients a value names. *)
Definition names_of (v : Value) : option (list str) :=
  match v with
  | String s => Some [s]
  | Array items => mapM as_str items
  | _ => None
  end.

Definition FIELDS : list str := [lit "to"; lit "cc"; lit "bcc"].

(** What a field of recipients may hold. *)
Definition acceptable (args : Args) (f : str) : Prop :=
  match args !! f with
  | None => True
  | Some v => is_Some (names_of v) ∨ (v = Null ∧ f ≠ lit "to")
  end.

(** A field becomes the list of its names. *)
Definition put_names (f : str) (args : Args) : Args :=
  match args !! f ≫= names_of with
  | Some l => <[f := Array (String <$> l)]> args
  | None => delete f args
  end.

Lemma strings_of_items items l : mapM as_str items = Some l ↔ String <$> l = items.
Proof.
  split.
  - intros H. eapply mapM_fmap_Some_inv; [done|]. by intros [] y ?; simplify_eq/=.
  - intros <-. by apply mapM_fmap_Some.
Qed.

Lemma no_invalid_item items : invalid_item items = None ↔ is_Some (mapM as_str items).
Proof.
  unfold invalid_item. induction items as [|v items IH]; simpl; [by split|].
  destruct v; simpl; try (split; [done|by intros [? ?]]).
  rewrite IH. split; intros [l Hl]; [rewrite Hl; by eexists|]. apply bind_Some in Hl as (l' & ? & _). by eexists.
Qed.

(** One field, where [step] is either of the two functions. *)
Definition field_spec (f : str) (step : Args → ArgumentError + Args) : Prop :=
  ∀ args, match step args with
          | inr out => acceptable args f ∧ out = put_names f args
          | inl _ => ¬ acceptable args f
          end.

Lemma array_kept f args items : args !! f = Some (Array items) → is_Some (mapM as_str items) →
  acceptable args f ∧ args = put_names f args.
Proof.
  intros E [l Hl]. unfold acceptable, put_names. rewrite E. simpl. rewrite Hl. split; [left; by eexists|].
  apply strings_of_items in Hl as ->. by rewrite insert_id.
Qed.

Lemma array_refused f args items : args !! f = Some (Array items) → ¬ is_Some (mapM as_str items) → ¬ acceptable args f.
Proof. intros E Hno. unfold acceptable. rewrite E. by intros [?|[? _]]. Qed.

Ltac field_cases E :=
  repeat first
    [ progress simpl
    | match goal with
      | |- context [invalid_item ?items] =>
          destruct (invalid_item items) eqn:Hinvalid;
          [eapply array_refused; [exact E|]; rewrite <-no_invalid_item; congruence
          |eapply array_kept; [exact E|]; by apply no_invalid_item]
      end ].

Lemma to_spec : field_spec (lit "to") normalize_send_message_to_argument.
Proof.
  intros args. unfold normalize_send_message_to_argument.
  destruct (args !! lit "to") as [v|] eqn:E.
  - destruct v; field_cases E; unfold acceptable, put_names; rewrite E; simpl; try (by intros [[? ?]|[? ?]]).
    split; [left; by eexists|done].
  - unfold acceptable, put_names. rewrite E. split; [done|]. simpl. by rewrite delete_id.
Qed.

Lemma cc_bcc_spec f : f ≠ lit "to" → field_spec f (normalize_send_message_cc_bcc_argument f).
Proof.
  intros Hf args. unfold normalize_send_message_cc_bcc_argument.
  destruct (args !! f) as [v|] eqn:E.
  - destruct v; field_cases E; unfold acceptable, put_names; rewrite E; simpl; try (by intros [[? ?]|[? ?]]).
    + split; [by right|done].
    + split; [left; by eexists|done].
  - unfold acceptable, put_names. rewrite E. split; [done|]. simpl. by rewrite delete_id.
Qed.

Lemma put_names_other f g args : f ≠ g → put_names f args !! g = args !! g.
Proof. intros. unfold put_names. case_match; [by rewrite lookup_insert_ne|by rewrite lookup_delete_ne]. Qed.

Lemma put_names_this f args : put_names f args !! f = Array ∘ fmap String <$> (args !! f ≫= names_of).
Proof. unfold put_names. case_match; simpl; [by rewrite lookup_insert_eq|by rewrite lookup_delete_eq]. Qed.

Lemma put_names_acceptable f g args : f ≠ g → acceptable (put_names f args) g ↔ acceptable args g.
Proof. intros. unfold acceptable. by rewrite put_names_other. Qed.

(** The first of some keys that is there. *)
Fixpoint first_present (keys : list str) (args : Args) : option Value :=
  match keys with
  | [] => None
  | k :: keys => match args !! k with Some v => Some v | None => first_present keys args end
  end.

Lemma foldl_delete (aliases : list str) (args : Args) k :
  foldl (λ m a, (remove a m).2) args aliases !! k = if decide (k ∈ aliases) then None else args !! k.
Proof.
  revert args. induction aliases as [|a l IH]; intros args; simpl; [done|]. rewrite IH.
  destruct (decide (k = a)) as [->|Hk].
  - rewrite lookup_delete_eq. case_decide; case_decide; set_solver.
  - rewrite lookup_delete_ne by done. case_decide; case_decide; set_solver.
Qed.

Lemma remove_first_spec (aliases : list str) (args : Args) :
  (remove_first aliases args).1 = first_present aliases args ∧
  ∀ k, k ∉ aliases → (remove_first aliases args).2 !! k = args !! k.
Proof.
  revert args. induction aliases as [|a l IH]; intros args; simpl; [done|].
  destruct (args !! a) as [v|] eqn:E; simpl.
  - split; [done|]. intros k Hk. rewrite lookup_delete_ne; [done|]. set_solver.
  - rewrite delete_id by done. destruct (IH args) as [H1 H2]. split; [done|]. intros k Hk. apply H2. set_solver.
Qed.

Lemma normalize_alias_spec key aliases args : key ∉ aliases →
  normalize_alias key aliases args !! key = first_present (key :: aliases) args ∧
  ∀ k, k ≠ key → k ∉ aliases → normalize_alias key aliases args !! k = args !! k.
Proof.
  intros Hnot. unfold normalize_alias, has_key. cbn [first_present]. case_bool_decide as Hkey.
  - destruct Hkey as [v E]. rewrite foldl_delete, decide_False, E by done. split; [done|].
    intros k _ Ha. by rewrite foldl_delete, decide_False.
  - rewrite <-eq_None_not_Some in Hkey. rewrite Hkey. destruct (remove_first_spec aliases args) as [<- H2].
    destruct (remove_first aliases args) as [[v|] m]; cbn [fst snd] in *.
    + rewrite lookup_insert_eq. split; [done|]. intros k Hk Ha. rewrite lookup_insert_ne by done. by apply H2.
    + split; [by rewrite H2|]. intros k _ Ha. by apply H2.
Qed.

(** Where nothing is called by another name, nothing changes. *)
Lemma normalize_alias_id key aliases args :
  (∀ a, a ∈ aliases → args !! a = None) → normalize_alias key aliases args = args.
Proof.
  intros Ha. unfold normalize_alias. case_if.
  - apply map_eq. intros k. rewrite foldl_delete. case_decide; [by rewrite Ha|done].
  - clear Heqb. induction aliases as [|a l IH]; simpl; [done|]. rewrite Ha by left. simpl. rewrite delete_id by (apply Ha; left).
    apply IH. intros b Hb. apply Ha. by right.
Qed.

Definition ALIASES : list str := PROJECT_ALIASES ++ SENDER_ALIASES ++ MESSAGE_ALIASES.
Definition PARAMETERS : list (str * list str) :=
  [(lit "project_key", PROJECT_ALIASES); (lit "sender_name", SENDER_ALIASES); (lit "message_id", MESSAGE_ALIASES)].

Lemma first_present_ext (keys : list str) (m args : Args) : (∀ k, k ∈ keys → m !! k = args !! k) → first_present keys m = first_present keys args.
Proof.
  induction keys as [|k keys IH]; intros H; simpl; [done|]. rewrite H by left. rewrite IH; [done|]. intros a Ha. apply H. by right.
Qed.

(** Tests on names that are written out. *)
Ltac by_names := apply (bool_decide_unpack _); vm_compute; exact I.

Lemma aliases_outside args k : k ∉ ALIASES → k ∉ PARAMETERS.*1 → normalize_send_message_aliases args !! k = args !! k.
Proof.
  unfold ALIASES. rewrite !not_elem_of_app. intros (Hp & Hs & Hm) Hk.
  assert (k ≠ lit "project_key" ∧ k ≠ lit "sender_name" ∧ k ≠ lit "message_id") as (H1 & H2 & H3).
  { split_and!; intros ->; apply Hk; by_names. }
  unfold normalize_send_message_aliases.
  by rewrite !(λ key al m H, proj2 (normalize_alias_spec key al m H)) by (done || by_names).
Qed.

Lemma aliases_parameter args key aliases : (key, aliases) ∈ PARAMETERS →
  normalize_send_message_aliases args !! key = first_present (key :: aliases) args.
Proof.
  intros H. unfold normalize_send_message_aliases.
  set (m1 := normalize_alias (lit "project_key") PROJECT_ALIASES args).
  set (m2 := normalize_alias (lit "sender_name") SENDER_ALIASES m1).
  destruct (normalize_alias_spec (lit "project_key") PROJECT_ALIASES args) as [P1 O1]; [by_names|].
  destruct (normalize_alias_spec (lit "sender_name") SENDER_ALIASES m1) as [P2 O2]; [by_names|].
  destruct (normalize_alias_spec (lit "message_id") MESSAGE_ALIASES m2) as [P3 O3]; [by_names|].
  fold m1 in P1, O1. fold m2 in P2, O2.
  apply elem_of_cons in H as [[= -> ->]|H]; [|apply elem_of_cons in H as [[= -> ->]|[= -> ->]%list_elem_of_singleton]].
  - rewrite O3, O2 by by_names. exact P1.
  - rewrite O3 by by_names. rewrite P2. apply first_present_ext. intros k Hk.
    assert (Forall (λ k, k ≠ lit "project_key" ∧ k ∉ PROJECT_ALIASES) (lit "sender_name" :: SENDER_ALIASES)) as Hd by by_names.
    rewrite Forall_forall in Hd. apply O1; by apply Hd.
  - rewrite P3. apply first_present_ext. intros k Hk.
    assert (Forall (λ k, (k ≠ lit "project_key" ∧ k ∉ PROJECT_ALIASES) ∧ (k ≠ lit "sender_name" ∧ k ∉ SENDER_ALIASES))
      (lit "message_id" :: MESSAGE_ALIASES)) as Hd by by_names.
    rewrite Forall_forall in Hd. rewrite O2, O1; [done|by apply Hd..].
Qed.

(** The three fields one after the other. *)
Definition fields (a : Args) : ArgumentError + Args :=
  and_then (normalize_send_message_to_argument a) (λ args,
  and_then (normalize_send_message_cc_bcc_argument (lit "cc") args) (normalize_send_message_cc_bcc_argument (lit "bcc"))).

Definition put_all (a : Args) : Args := put_names (lit "bcc") (put_names (lit "cc") (put_names (lit "to") a)).

Lemma fields_spec a :
  match fields a with
  | inr out => Forall (acceptable a) FIELDS ∧ out = put_all a
  | inl _ => ¬ Forall (acceptable a) FIELDS
  end.
Proof.
  assert (Forall (acceptable a) FIELDS ↔ acceptable a (lit "to") ∧ acceptable a (lit "cc") ∧ acceptable a (lit "bcc")) as Hall.
  { unfold FIELDS. rewrite !Forall_cons, Forall_nil. tauto. }
  unfold fields. pose proof (to_spec a) as H. destruct (normalize_send_message_to_argument a) as [|a1]; simpl; [tauto|]. destruct H as [H1 ->].
  pose proof (cc_bcc_spec (lit "cc") ltac:(done) (put_names (lit "to") a)) as H.
  pose proof (put_names_acceptable (lit "to") (lit "cc") a ltac:(done)) as Hcc.
  destruct (normalize_send_message_cc_bcc_argument (lit "cc") _) as [|a2]; simpl; [tauto|]. destruct H as [H2 ->].
  pose proof (cc_bcc_spec (lit "bcc") ltac:(done) (put_names (lit "cc") (put_names (lit "to") a))) as H.
  pose proof (put_names_acceptable (lit "cc") (lit "bcc") (put_names (lit "to") a) ltac:(done)) as Hbcc.
  rewrite (put_names_acceptable (lit "to") (lit "bcc") a) in Hbcc by done.
  destruct (normalize_send_message_cc_bcc_argument (lit "bcc") _) as [|a3]; [tauto|]. destruct H as [H3 ->]. split; [tauto|done].
Qed.

Lemma put_all_other a k : k ∉ FIELDS → put_all a !! k = a !! k.
Proof. intros Hk. unfold put_all. rewrite !put_names_other; [done|..]; intros <-; apply Hk; by_names. Qed.

Lemma put_all_this a f : f ∈ FIELDS → put_all a !! f = Array ∘ fmap String <$> (a !! f ≫= names_of).
Proof.
  unfold put_all. intros [->|[->|[->|[]%elem_of_nil]%elem_of_cons]%elem_of_cons]%elem_of_cons.
  - rewrite !put_names_other by done. apply put_names_this.
  - rewrite put_names_other by done. rewrite put_names_this. by rewrite put_names_other.
  - rewrite put_names_this. by rewrite !put_names_other.
Qed.

(** C32: What the tools get from the JSON arguments.  The rewriting succeeds
    exactly when broadcast is not asked for and each field of recipients holds
    a name or a list of names (for the copies also null).  Then each of
    project, sender and message is what was given under its own name or else
    under the first alias that was there; each field of recipients is the list
    of its names, or absent; and every other argument but the aliases is as it
    was given. *)
Theorem normalized_arguments args :
  let r := normalize_send_message_arguments (Some args) in
  ((∃ out, r = inr out) ↔ args !! lit "broadcast" ≫= as_bool ≠ Some true ∧ Forall (acceptable args) FIELDS) ∧
  ∀ out, r = inr out →
    (∀ key aliases, (key, aliases) ∈ PARAMETERS → out !! key = first_present (key :: aliases) args) ∧
    (∀ f, f ∈ FIELDS → out !! f = Array ∘ fmap String <$> (args !! f ≫= names_of)) ∧
    (∀ k, k ∉ ALIASES → k ∉ FIELDS → k ∉ PARAMETERS.*1 → out !! k = args !! k).
Proof.
  set (a := normalize_send_message_aliases args). intros r.
  assert (∀ f, f ∈ lit "broadcast" :: FIELDS → a !! f = args !! f) as Hin.
  { intros f Hf. assert (Forall (λ f, f ∉ ALIASES ∧ f ∉ PARAMETERS.*1) (lit "broadcast" :: FIELDS)) as Hd by by_names.
    rewrite Forall_forall in Hd. by apply aliases_outside; apply Hd. }
  assert (Forall (acceptable a) FIELDS ↔ Forall (acceptable args) FIELDS) as Hacc.
  { rewrite !Forall_forall. unfold acceptable. split; intros H f Hf; specialize (H f Hf); rewrite Hin in * by (by right); done. }
  assert (r = if default false (args !! lit "broadcast" ≫= as_bool) then inl BroadcastUnsupported else fields a) as Hr.
  { unfold r, normalize_send_message_arguments. cbn [fmap option_fmap option_map]. fold a. by rewrite Hin by left. }
  pose proof (fields_spec a) as Hfields.
  destruct (args !! lit "broadcast" ≫= as_bool) as [[]|]; cbn [default from_option id] in Hr; rewrite Hr.
  { split; [|done]. split; [by intros [? ?]|by intros [? _]]. }
  all: destruct (fields a) as [e|out];
    [split; [split; [by intros [? ?]|by intros [_ ?%Hacc]]|done]|destruct Hfields as [Hok%Hacc ->]; split; [by split; [|eexists]|]].
  all: intros out' [= <-]; split_and!.
  all: try (intros key aliases Hk; rewrite put_all_other; [by apply aliases_parameter|];
    assert (Forall (λ p : str * list str, p.1 ∉ FIELDS) PARAMETERS) as Hd by by_names;
    rewrite Forall_forall in Hd; exact (Hd _ Hk)).
  all: try (intros f Hf; rewrite put_all_this by done; by rewrite Hin by (by right)).
  all: intros k Ha Hf Hk; rewrite put_all_other by done; by apply aliases_outside.
Qed.

Definition given_args : Args :=
  list_to_map [(lit "project", String (lit "/a")); (lit "project_slug", String (lit "b")); (lit "from", String (lit "BlueLake"));
               (lit "to", String (lit "RedPeak")); (lit "cc", Null)].

(** The first alias counts and the others stay; a second rewriting removes
    them. *)
Example first_alias_counts :
  match normalize_send_message_arguments (Some given_args) with
  | inr out =>
      out !! lit "project_key" = Some (String (lit "/a")) ∧ out !! lit "project_slug" = Some (String (lit "b")) ∧
      out !! lit "sender_name" = Some (String (lit "BlueLake")) ∧ out !! lit "to" = Some (Array [String (lit "RedPeak")]) ∧
      out !! lit "cc" = None ∧
      match normalize_send_message_arguments (Some out) with
      | inr again => again !! lit "project_slug" = None
      | inl _ => False
      end
  | inl _ => False
  end.
Proof. vm_compute. done. Qed.
