(* ===== verification/Attachments.v ===== *)
(** * Attachments of messages ([mcp-agent-mail-tools/src/messaging.rs],
      [mcp-agent-mail-storage/src/lib.rs])

    The limits on the size of a message, the paths an attachment may come
    from, and how files and images reach the archive before a message is
    stored.  Files, the image codec, hashes and encodings are arguments; an
    archive remembers the images it has converted, by the hash of their
    bytes, and the files it has copied. *)

From stdpp Require Import base numbers tactics list gmap strings.
From S2P Require Import Prelude Guard ReservationTools DiskPressure MessageArguments.
Import Guard DiskPressure MessageArguments.
Open Scope Z_scope.

Module Attachments.

Record Config := {
  max_message_body_bytes : Z;
  max_attachment_bytes : Z;
  max_total_message_bytes : Z;
  max_subject_bytes : Z;
  allow_absolute_attachment_paths : bool;
  keep_original_images : bool;
  inline_image_max_bytes : Z;
}.

(** [str::len] and [usize::saturating_add]. *)
Definition len (s : str) : Z := ReservationTools.byte_len s.
Definition usize_saturating_add (a b : Z) : Z := Z.min u64_max (a + b).

(** What the file system says of a path: [canonicalize] of a text (the error
    tells a missing file from others), whether a path is a file and its
    length, what reading it gives, and what the codec makes of it: the bytes
    of the converted image, its width and height. *)
Inductive Canonical := Resolved (p : Path) | NotFound | Unreadable.

Record Files := {
  canonicalize : str → Canonical;
  metadata : Path → option (bool * Z);
  metadata_of_text : str → option (bool * Z);
  read_len : Path → option Z;
  sha1 : Path → str;
  extension : Path → str;
  decode : Path → option (Z * Z * Z);
  base64 : str → str;
  writes : str → bool;
}.

Inductive StorageError := InvalidPath | Other.

(** ** Where an attachment may come from *)

Definition is_absolute (raw : str) : bool := starts_with (lit "/") raw.

Definition text_of (p : Path) : str := (if absolute p then lit "/" else []) ++ join_slash (parts p).

Definition path_starts_with (p base : Path) : bool :=
  bool_decide (absolute p = absolute base) && bool_decide (parts base `prefix_of` parts p).

Definition resolve_attachment_source_path_from_canonical_base (fs : Files) (config : Config) (canonical_base : Path)
    (raw_path : str) : StorageError + Path :=
  let raw := trim raw_path in
  if bool_decide (raw = []) then inl InvalidPath
  else
    let candidate := if is_absolute raw then raw else text_of canonical_base ++ lit "/" ++ raw in
    match canonicalize fs candidate with
    | NotFound | Unreadable => inl InvalidPath
    | Resolved resolved =>
        if negb (is_absolute raw) && negb (path_starts_with resolved canonical_base) then inl InvalidPath
        else if path_starts_with resolved canonical_base then inr resolved
        else if allow_absolute_attachment_paths config then inr resolved
        else inl InvalidPath
    end.

Definition resolve_attachment_source_path (fs : Files) (config : Config) (base_dir raw_path : str) : StorageError + Path :=
  match canonicalize fs base_dir with
  | Resolved base => resolve_attachment_source_path_from_canonical_base fs config base raw_path
  | _ => inl InvalidPath
  end.

(** ** Limits before anything is stored *)

Inductive SizeError :=
  | SubjectTooLarge
  | BodyTooLarge
  | NotAFile (path : str)
  | AttachmentTooLarge (path : str)
  | TotalTooLarge.

(** A limit that is set and exceeded. *)
Definition exceeds (limit size : Z) : bool := (0 <? limit) && (limit <? size).

(** The metadata of an attachment; [None] also when the path is refused, which
    is left to what stores it. *)
Definition attachment_metadata (fs : Files) (config : Config) (base : option (option Path)) (path : str) : option (bool * Z) :=
  match base with
  | Some (Some base_dir) =>
      match resolve_attachment_source_path_from_canonical_base fs config base_dir path with
      | inr resolved => metadata fs resolved
      | inl _ => None
      end
  | Some None => None
  | None => metadata_of_text fs path
  end.

Fixpoint attachment_sizes (fs : Files) (config : Config) (base : option (option Path)) (paths : list str) (total : Z) : SizeError + Z :=
  match paths with
  | [] => inr total
  | path :: paths =>
      match attachment_metadata fs config base path with
      | None => attachment_sizes fs config base paths total
      | Some (is_file, size) =>
          if negb is_file then inl (NotAFile path)
          else if exceeds (max_attachment_bytes config) size then inl (AttachmentTooLarge path)
          else attachment_sizes fs config base paths (usize_saturating_add total size)
      end
  end.

(** [canonicalize().ok()]. *)
Definition canonical_ok (fs : Files) (base_dir : str) : option Path :=
  match canonicalize fs base_dir with Resolved p => Some p | _ => None end.

(** [None]: within the limits. *)
Definition validate_message_size_limits (fs : Files) (config : Config) (subject body_md : str) (attachment_paths : option (list str))
    (attachment_base_dir : option str) : option SizeError :=
  if exceeds (max_subject_bytes config) (len subject) then Some SubjectTooLarge
  else if exceeds (max_message_body_bytes config) (len body_md) then Some BodyTooLarge
  else
    let total_size := usize_saturating_add (len subject) (len body_md) in
    match attachment_sizes fs config (canonical_ok fs <$> attachment_base_dir) (default [] attachment_paths) total_size with
    | inl e => Some e
    | inr total_size => if exceeds (max_total_message_bytes config) total_size then Some TotalTooLarge else None
    end.

Definition validate_reply_body_limit (config : Config) (body_md : str) : option SizeError :=
  if exceeds (max_message_body_bytes config) (len body_md) then Some BodyTooLarge else None.

(** ** The archive *)

Inductive EmbedPolicy := Auto | Inline | File.

#[global] Instance EmbedPolicy_eq_dec : EqDecision EmbedPolicy.
Proof. solve_decision. Defined.

(** For ASCII text, where [to_lowercase] is the ASCII one. *)
Definition from_str_policy (s : str) : EmbedPolicy :=
  let s := to_ascii_lowercase s in
  if bool_decide (s = lit "inline") then Inline else if bool_decide (s = lit "file") then File else Auto.

Record AttachmentMeta := {
  kind : string;
  media_type : string;
  bytes : Z;
  meta_sha1 : str;
  width : Z;
  height : Z;
  data_base64 : option str;
  path : option str;
  original_path : option str;
}.

Record Manifest := { bytes_webp : Z; m_width : Z; m_height : Z; m_original_path : option str }.

(** Converted images by hash, and the other files by their path, both below
    the attachments of the project. *)
Record Archive := { manifests : gmap str Manifest; raw_files : gset str }.

Definition FALLBACK_MAX_ATTACHMENT_BYTES : Z := 50 * 1024 * 1024.

Definition effective_limit (max_bytes : Z) : Z :=
  if 0 <? max_bytes then Z.max max_bytes FALLBACK_MAX_ATTACHMENT_BYTES else FALLBACK_MAX_ATTACHMENT_BYTES.

Definition webp_path (digest : str) : str := lit "attachments/" ++ take 2 digest ++ lit "/" ++ digest ++ lit ".webp".
Definition manifest_path (digest : str) : str := lit "attachments/_manifests/" ++ digest ++ lit ".json".
Definition audit_path (digest : str) : str := lit "attachments/_audit/" ++ digest ++ lit ".log".
Definition original_file (digest ext : str) : str := lit "attachments/originals/" ++ take 2 digest ++ lit "/" ++ digest ++ ext.
Definition raw_path_of (digest ext : str) : str := lit "attachments/files/" ++ take 2 digest ++ lit "/" ++ digest ++ ext.

(** The decision inline or file, and the metadata that say so. *)
Definition image_meta (fs : Files) (config : Config) (digest : str) (m : Manifest) (embed_policy : EmbedPolicy) : AttachmentMeta :=
  let should_inline :=
    match embed_policy with
    | Inline => true
    | File => false
    | Auto => bytes_webp m <=? inline_image_max_bytes config
    end in
  {| kind := if should_inline then "inline" else "file"; media_type := "image/webp"; bytes := bytes_webp m;
     meta_sha1 := digest; width := m_width m; height := m_height m;
     data_base64 := if should_inline then Some (base64 fs digest) else None;
     path := if should_inline then None else Some (webp_path digest);
     original_path := m_original_path m |}.

(** The metadata and the paths written, or the error, and the archive. *)
Definition store_attachment (fs : Files) (config : Config) (file_path : Path) (embed_policy : EmbedPolicy) (a : Archive) :
    (StorageError + AttachmentMeta * list str) * Archive :=
  match metadata fs file_path with
  | None => (inl Other, a)
  | Some (_, size) =>
      if effective_limit (max_attachment_bytes config) <? size then (inl InvalidPath, a)
      else
        match read_len fs file_path with
        | None => (inl Other, a)
        | Some read =>
            let digest := sha1 fs file_path in
            if read =? 0 then (inl InvalidPath, a)
            else
              match manifests a !! digest with
              | Some m => (inr (image_meta fs config digest m embed_policy, []), a)
              | None =>
                  if effective_limit (max_attachment_bytes config) <? read then (inl InvalidPath, a)
                  else
                    match decode fs file_path with
                    | None => (inl InvalidPath, a)
                    | Some (webp_bytes, w, h) =>
                        if writes fs digest then
                          let original := if keep_original_images config then Some (original_file digest (extension fs file_path)) else None in
                          let m := {| bytes_webp := webp_bytes; m_width := w; m_height := h; m_original_path := original |} in
                          (inr (image_meta fs config digest m embed_policy,
                                [webp_path digest] ++ option_list original ++ [manifest_path digest; audit_path digest]),
                           {| manifests := <[digest := m]> (manifests a); raw_files := raw_files a |})
                        else (inl Other, a)
                    end
              end
        end
  end.

Definition raw_meta (digest rel_path : str) (size : Z) : AttachmentMeta :=
  {| kind := "file"; media_type := "application/octet-stream"; bytes := size; meta_sha1 := digest; width := 0; height := 0;
     data_base64 := None; path := Some rel_path; original_path := None |}.

Definition store_raw_attachment (fs : Files) (file_path : Path) (max_bytes : Z) (a : Archive) :
    (StorageError + AttachmentMeta * list str) * Archive :=
  match metadata fs file_path with
  | None => (inl Other, a)
  | Some (_, size) =>
      if effective_limit max_bytes <? size then (inl InvalidPath, a)
      else
        match read_len fs file_path with
        | None => (inl Other, a)
        | Some read =>
            if read =? 0 then (inl InvalidPath, a)
            else
              let digest := sha1 fs file_path in
              let target := raw_path_of digest (extension fs file_path) in
              if bool_decide (target ∈ raw_files a) || writes fs digest then
                (inr (raw_meta digest target read, [target]),
                 {| manifests := manifests a; raw_files := {[target]} ∪ raw_files a |})
              else (inl Other, a)
        end
  end.

(** The files of a chunk are stored by threads of their own, here one after the
    other; what each gave is looked at afterwards. *)
Fixpoint store_each (fs : Files) (config : Config) (embed_policy : EmbedPolicy) (paths : list Path) (a : Archive) :
    list (StorageError + AttachmentMeta * list str) * Archive :=
  match paths with
  | [] => ([], a)
  | p :: paths =>
      let '(r, a) := store_attachment fs config p embed_policy a in
      let '(rs, a) := store_each fs config embed_policy paths a in
      (r :: rs, a)
  end.

(** [result?] in the order of the list. *)
Fixpoint all_stored (results : list (StorageError + AttachmentMeta * list str)) : StorageError + list AttachmentMeta * list str :=
  match results with
  | [] => inr ([], [])
  | r :: results =>
      and_then r (λ '(meta, rel), and_then (all_stored results) (λ '(metas, rels), inr (meta :: metas, rel ++ rels)))
  end.

Definition MAX_CONCURRENT_CONVERSIONS : nat := 4.

Fixpoint store_chunks (fs : Files) (config : Config) (embed_policy : EmbedPolicy) (cs : list (list Path)) (a : Archive) :
    (StorageError + list AttachmentMeta * list str) * Archive :=
  match cs with
  | [] => (inr ([], []), a)
  | chunk :: cs =>
      let '(results, a) := store_each fs config embed_policy chunk a in
      match all_stored results with
      | inl e => (inl e, a)
      | inr (metas, rels) =>
          match store_chunks fs config embed_policy cs a with
          | (inl e, a) => (inl e, a)
          | (inr (metas', rels'), a) => (inr (metas ++ metas', rels ++ rels'), a)
          end
      end
  end.

(** All paths of a list, or the first error. *)
Fixpoint resolve_all (resolve : str → StorageError + Path) (paths : list str) : StorageError + list Path :=
  match paths with
  | [] => inr []
  | p :: paths => and_then (resolve p) (λ r, and_then (resolve_all resolve paths) (λ rs, inr (r :: rs)))
  end.

Definition process_attachments (fs : Files) (config : Config) (base_dir : str) (attachment_paths : list str)
    (embed_policy : EmbedPolicy) (a : Archive) : (StorageError + list AttachmentMeta * list str) * Archive :=
  match attachment_paths with
  | [] => (inr ([], []), a)
  | _ =>
      match canonicalize fs base_dir with
      | Resolved base =>
          match resolve_all (resolve_attachment_source_path_from_canonical_base fs config base) attachment_paths with
          | inl e => (inl e, a)
          | inr resolved => store_chunks fs config embed_policy (chunks MAX_CONCURRENT_CONVERSIONS resolved) a
          end
      | _ => (inl InvalidPath, a)
      end
  end.

(** ** Images named in the body

    [image_refs] finds the references of a Markdown text: the whole match, its
    alternative text and the path. *)

Definition resolve_source_attachment_path_opt (fs : Files) (config : Config) (canonical_base : Path) (raw_path : str) : option Path :=
  match resolve_attachment_source_path_from_canonical_base fs config canonical_base raw_path with inr p => Some p | inl _ => None end.

Definition remote (p : str) : bool :=
  starts_with (lit "data:") p || starts_with (lit "http://") p || starts_with (lit "https://") p.

Section body.
Context (image_refs : str → list (str * str * str)).

Definition markdown_has_processable_local_images (fs : Files) (config : Config) (base_dir body_md : str) : bool :=
  match canonicalize fs base_dir with
  | Resolved base =>
      existsb (λ '(_, _, p), negb (remote p) && bool_decide (is_Some (resolve_source_attachment_path_opt fs config base p))) (image_refs body_md)
  | _ => false
  end.

Definition processable (fs : Files) (config : Config) (base : Path) (body_md : str) : list (str * str * Path) :=
  omap (λ '(full, alt, p), if remote p then None else (λ r, (full, alt, r)) <$> resolve_source_attachment_path_opt fs config base p)
    (image_refs body_md).

(** [str::replace] of a text that is not empty; [skip] counts the characters
    of a match that are left. *)
Fixpoint replace (pat rep s : str) (skip : nat) : str :=
  match s with
  | [] => []
  | c :: s' =>
      match skip with
      | S skip => replace pat rep s' skip
      | O => if starts_with pat s then rep ++ replace pat rep s' (pred (length pat)) else c :: replace pat rep s' 0
      end
  end.

Definition replacement (alt : str) (m : AttachmentMeta) : option str :=
  match data_base64 m with
  | Some b64 => Some (lit "![" ++ alt ++ lit "](data:image/webp;base64," ++ b64 ++ lit ")")
  | None => (λ file_path, lit "![" ++ alt ++ lit "](" ++ file_path ++ lit ")") <$> path m
  end.

Definition without_data (m : AttachmentMeta) : AttachmentMeta :=
  {| kind := kind m; media_type := media_type m; bytes := bytes m; meta_sha1 := meta_sha1 m; width := width m; height := height m;
     data_base64 := None; path := path m; original_path := original_path m |}.

Definition fingerprint (m : AttachmentMeta) : str * string * option str * option str :=
  (meta_sha1 m, kind m, path m, original_path m).

(** The loop over what was converted. *)
Fixpoint apply_replacements (converted : list (str * str * (StorageError + AttachmentMeta * list str)))
    (result : str) (metas : list AttachmentMeta) (rels : list str) (seen : list (str * string * option str * option str)) :
    StorageError + str * list AttachmentMeta * list str :=
  match converted with
  | [] => inr (result, metas, rels)
  | (full, alt, stored) :: converted =>
      and_then stored (λ '(meta, rel),
        match replacement alt meta with
        | None => apply_replacements converted result metas rels seen
        | Some rep =>
            let result := replace full rep result 0 in
            let meta := without_data meta in
            if bool_decide (fingerprint meta ∈ seen)
            then apply_replacements converted result metas (rels ++ rel) seen
            else apply_replacements converted result (metas ++ [meta]) (rels ++ rel) (fingerprint meta :: seen)
        end)
  end.

(** The first occurrence of each. *)
Fixpoint retain_first (seen l : list str) : list str :=
  match l with
  | [] => []
  | x :: l => if bool_decide (x ∈ seen) then retain_first seen l else x :: retain_first (x :: seen) l
  end.

Definition process_markdown_images (fs : Files) (config : Config) (base_dir body_md : str) (embed_policy : EmbedPolicy) (a : Archive) :
    (StorageError + str * list AttachmentMeta * list str) * Archive :=
  match canonicalize fs base_dir with
  | Resolved base =>
      match processable fs config base body_md with
      | [] => (inr (body_md, [], []), a)
      | work =>
          let '(results, a) := store_each fs config embed_policy (snd <$> work) a in
          let converted := zip_with (λ '(full, alt, _) r, (full, alt, r)) work results in
          (match apply_replacements converted body_md [] [] [] with
           | inl e => inl e
           | inr (result, metas, rels) => inr (result, metas, retain_first [] rels)
           end, a)
      end
  | _ => (inr (body_md, [], []), a)
  end.

(** ** What the message tools do with attachments *)

(** [serde_json::to_value]; fields that are absent are skipped. *)
Definition to_value (m : AttachmentMeta) : Value :=
  Object ([(lit "type", String (lit (kind m))); (lit "media_type", String (lit (media_type m))); (lit "bytes", PosInt (bytes m));
           (lit "sha1", String (meta_sha1 m)); (lit "width", PosInt (width m)); (lit "height", PosInt (height m))]
          ++ option_list ((λ s, (lit "data_base64", String s)) <$> data_base64 m)
          ++ option_list ((λ s, (lit "path", String s)) <$> path m)
          ++ option_list ((λ s, (lit "original_path", String s)) <$> original_path m)).

(** [Value::get]. *)
Definition get (key : str) (v : Value) : option Value :=
  match v with
  | Object fields => snd <$> head (filter (λ kv : str * Value, kv.1 = key) fields)
  | _ => None
  end.

Definition as_u64 (v : Value) : option Z := match v with PosInt n => Some n | _ => None end.

(** [parse::<u64>()]. *)
Definition parse_u64 (s : str) : option Z :=
  let ds := match s with 43%N :: s' => s' | _ => s end in
  if bool_decide (ds = []) || negb (forallb is_ascii_digit ds) then None
  else if digits_value ds <=? u64_max then Some (digits_value ds) else None.

Definition or_else {A} (x y : option A) : option A := match x with Some _ => x | None => y end.

Definition attachment_size_bytes (meta : Value) : option Z :=
  or_else (get (lit "bytes") meta ≫= as_u64)
    (or_else (get (lit "size") meta ≫= as_u64) ((get (lit "size") meta ≫= as_str) ≫= parse_u64)).

(** An image whose data are in the body is not counted again. *)
Definition counted_bytes (meta : Value) : option Z :=
  let att_type := get (lit "type") meta ≫= as_str in
  if bool_decide (att_type = Some (lit "inline")) && bool_decide (get (lit "data_base64") meta = None) then None
  else if bool_decide (att_type = Some (lit "file")) || bool_decide (att_type = Some (lit "inline")) then
    (λ bytes, if bool_decide (att_type = Some (lit "inline")) then Z.min u64_max (bytes * 4) / 3 else bytes) <$> attachment_size_bytes meta
  else None.

Definition total_after (subject final_body : str) (metas : list Value) : Z :=
  foldl (λ total meta, from_option (usize_saturating_add total) total (counted_bytes meta))
    (usize_saturating_add (len subject) (len final_body)) metas.

(** The codes of the refusals, with the argument they name. *)
Inductive AttachmentError := INVALID_ARGUMENT (field : string) | ARCHIVE_ERROR (field : string).

Definition storage_error (field : string) (e : StorageError) : AttachmentError :=
  match e with InvalidPath => INVALID_ARGUMENT field | Other => ARCHIVE_ERROR field end.

(** The raw files, one after the other. *)
Fixpoint store_raws (fs : Files) (config : Config) (base_dir : str) (paths : list str) (a : Archive) :
    (AttachmentError + list Value * list str) * Archive :=
  match paths with
  | [] => (inr ([], []), a)
  | p :: paths =>
      let resolved :=
        match canonical_ok fs base_dir with
        | None => resolve_attachment_source_path fs config base_dir p
        | Some base => resolve_attachment_source_path_from_canonical_base fs config base p
        end in
      match resolved with
      | inl _ => (inl (INVALID_ARGUMENT "attachment_paths"), a)
      | inr r =>
          match store_raw_attachment fs r (max_attachment_bytes config) a with
          | (inl e, a) => (inl (storage_error "attachment_paths" e), a)
          | (inr (meta, rel), a) =>
              match store_raws fs config base_dir paths a with
              | (inl e, a) => (inl e, a)
              | (inr (metas, rels), a) => (inr (to_value meta :: metas, rel ++ rels), a)
              end
          end
      end
  end.

(** Images converted, in the body and among the attachments. *)
Definition converted (fs : Files) (config : Config) (base_dir body_md : str) (paths : list str) (embed_policy : EmbedPolicy) (a : Archive) :
    (AttachmentError + str * list Value * list str) * Archive :=
  match process_markdown_images fs config base_dir body_md embed_policy a with
  | (inl e, a) => (inl (storage_error "body_md" e), a)
  | (inr (updated_body, md_meta, rel_paths), a) =>
      match process_attachments fs config base_dir paths embed_policy a with
      | (inl e, a) => (inl (storage_error "attachment_paths" e), a)
      | (inr (att_meta, rels), a) => (inr (updated_body, (to_value <$> md_meta) ++ (to_value <$> att_meta), rel_paths ++ rels), a)
      end
  end.

Definition check_converted (config : Config) (do_convert : bool) (subject : str) (r : str * list Value * list str) :
    AttachmentError + str * list Value * list str :=
  let '(final_body, metas, rels) := r in
  if do_convert then
    if exceeds (max_message_body_bytes config) (len final_body) then inl (INVALID_ARGUMENT "body_md")
    else if exceeds (max_total_message_bytes config) (total_after subject final_body metas) then inl (INVALID_ARGUMENT "total")
    else inr r
  else inr r.

(** The body to store, the metadata and the paths written; [archive_ok]:
    [ensure_archive] succeeds. *)
Definition process_message_attachments (fs : Files) (archive_ok : bool) (config : Config) (base_dir subject body_md : str)
    (attachment_paths : option (list str)) (do_convert : bool) (embed_policy : EmbedPolicy) (a : Archive) :
    (AttachmentError + str * list Value * list str) * Archive :=
  let paths := default [] attachment_paths in
  let has_explicit_attachments := negb (bool_decide (paths = [])) in
  let has_local_markdown_images := do_convert && markdown_has_processable_local_images fs config base_dir body_md in
  let '(r, a) :=
    if do_convert && (has_explicit_attachments || has_local_markdown_images) then
      if archive_ok then converted fs config base_dir body_md paths embed_policy a
      else (inl (ARCHIVE_ERROR (if has_explicit_attachments && negb has_local_markdown_images then "attachment_paths" else "body_md")), a)
    else if has_explicit_attachments then
      if archive_ok then
        match store_raws fs config base_dir paths a with
        | (inl e, a) => (inl e, a)
        | (inr (metas, rels), a) => (inr (body_md, metas, rels), a)
        end
      else (inl (ARCHIVE_ERROR "attachment_paths"), a)
    else (inr (body_md, [], []), a) in
  (and_then r (check_converted config do_convert subject), a).

End body.
End Attachments.
