(* ===== verification/AttachmentsFacts.v ===== *)
(** * What holds of attachments

    Sources stay inside the project, the limits are what they say before a
    message is sent, an image is converted once; and what the limits leave out
    when images are not converted. *)

From stdpp Require Import base numbers tactics list gmap sets strings.
From S2P Require Import Prelude Guard ReservationTools DiskPressure MessageArguments Attachments.
Import Guard DiskPressure MessageArguments Attachments.
Open Scope Z_scope.

(** ** Sources *)

Lemma exceeds_false limit size : exceeds limit size = false ↔ limit ≤ 0 ∨ size ≤ limit.
Proof. unfold exceeds. rewrite andb_false_iff, !Z.ltb_ge. done. Qed.

(** C29: Where an attachment may come from.  A path that is accepted is the
    canonical path of what was asked for, relative to the project or absolute,
    and it lies in the project, unless it was given as an absolute path and
    the configuration allows those; so no relative path and no symbolic link
    leads out of the project. *)
Theorem attachment_stays_inside fs config base raw_path resolved :
  resolve_attachment_source_path_from_canonical_base fs config base raw_path = inr resolved →
  trim raw_path ≠ [] ∧
  canonicalize fs (if is_absolute (trim raw_path) then trim raw_path else text_of base ++ lit "/" ++ trim raw_path) = Resolved resolved ∧
  (path_starts_with resolved base = true ∨ is_absolute (trim raw_path) = true ∧ allow_absolute_attachment_paths config = true).
Proof.
  unfold resolve_attachment_source_path_from_canonical_base. case_bool_decide as Hraw; [done|].
  destruct (canonicalize _ _) as [r| |]; [|done..].
  destruct (path_starts_with r base) eqn:Hin; [rewrite andb_false_r; intros [= ->]; by auto|].
  destruct (is_absolute (trim raw_path)) eqn:Habs; simpl; [|done].
  destruct (allow_absolute_attachment_paths config); [|done]. intros [= ->]. by auto.
Qed.

(** ** Limits *)

(** An attachment as the limits see it: a file of that length, or nothing that
    can be looked at. *)
Definition fits (fs : Files) (config : Config) (base : option (option Path)) (p : str) : Prop :=
  match attachment_metadata fs config base p with
  | None => True
  | Some (is_file, size) => is_file = true ∧ (max_attachment_bytes config ≤ 0 ∨ size ≤ max_attachment_bytes config)
  end.

Definition known_size (fs : Files) (config : Config) (base : option (option Path)) (p : str) : Z :=
  from_option snd 0 (attachment_metadata fs config base p).

Definition sum_from (total : Z) (sizes : list Z) : Z := foldl Z.add total sizes.

Lemma sum_from_ge total sizes : Forall (Z.le 0) sizes → total ≤ sum_from total sizes.
Proof.
  unfold sum_from. revert total. induction sizes as [|x l IH]; intros total Hs; simpl; [lia|].
  apply Forall_cons in Hs as [Hx Hl]. specialize (IH (total + x) Hl). lia.
Qed.

(** A sum that saturates once may as well saturate at the end. *)
Lemma sum_saturated total sizes : Forall (Z.le 0) sizes →
  Z.min u64_max (sum_from (Z.min u64_max total) sizes) = Z.min u64_max (sum_from total sizes).
Proof.
  intros Hge. destruct (Z.le_ge_cases u64_max total); [|by rewrite (Z.min_r u64_max total) by done].
  rewrite (Z.min_l u64_max total) by done. pose proof (sum_from_ge u64_max _ Hge). pose proof (sum_from_ge total _ Hge). lia.
Qed.

Section sizes.
Context (fs : Files) (config : Config) (base : option (option Path)).
Hypothesis lengths : ∀ p is_file size, attachment_metadata fs config base p = Some (is_file, size) → 0 ≤ size.

Lemma known_size_nonneg p : 0 ≤ known_size fs config base p.
Proof. unfold known_size. destruct (attachment_metadata fs config base p) as [[f s]|] eqn:E; simpl; [eauto|lia]. Qed.

Lemma known_sizes_nonneg paths : Forall (Z.le 0) (known_size fs config base <$> paths).
Proof. apply Forall_fmap, Forall_true. intros p. apply known_size_nonneg. Qed.

(** The loop, up to the last addition. *)
Lemma attachment_sizes_spec paths total : total ≤ u64_max →
  match attachment_sizes fs config base paths total with
  | inr t => Forall (fits fs config base) paths ∧ t = Z.min u64_max (sum_from total (known_size fs config base <$> paths))
  | inl _ => ¬ Forall (fits fs config base) paths
  end.
Proof.
  revert total. induction paths as [|p paths IH]; intros total Ht; cbn [attachment_sizes fmap list_fmap].
  { split; [constructor|]. unfold sum_from. simpl. lia. }
  assert (∀ x, known_size fs config base p = x → fits fs config base p →
    match attachment_sizes fs config base paths (usize_saturating_add total x) with
    | inr t => Forall (fits fs config base) (p :: paths) ∧ t = Z.min u64_max (sum_from total (known_size fs config base p :: (known_size fs config base <$> paths)))
    | inl _ => ¬ Forall (fits fs config base) (p :: paths)
    end) as Hstep.
  { intros x Hk Hf. specialize (IH (usize_saturating_add total x) ltac:(unfold usize_saturating_add; lia)).
    destruct (attachment_sizes _ _ _ paths _) as [e|t]; [by intros [_ ?]%Forall_cons|]. destruct IH as [Hall ->].
    split; [by constructor|]. unfold usize_saturating_add. rewrite sum_saturated by apply known_sizes_nonneg. by rewrite <-Hk. }
  assert (fits fs config base p ↔ match attachment_metadata fs config base p with None => True | Some (is_file, size) => is_file = true ∧ exceeds (max_attachment_bytes config) size = false end) as Hfits.
  { unfold fits. destruct (attachment_metadata fs config base p) as [[f s]|]; [|done]. by rewrite exceeds_false. }
  destruct (attachment_metadata fs config base p) as [[is_file size]|] eqn:E.
  - destruct is_file; simpl; [destruct (exceeds (max_attachment_bytes config) size) eqn:Hex|].
    + intros [[_ ?]%Hfits _]%Forall_cons. done.
    + apply Hstep; [by unfold known_size; rewrite E|by apply Hfits].
    + intros [[? _]%Hfits _]%Forall_cons. done.
  - specialize (Hstep 0 ltac:(by unfold known_size; rewrite E) ltac:(by apply Hfits)).
    unfold usize_saturating_add in Hstep. by rewrite Z.add_0_r, Z.min_r in Hstep by done.
Qed.
End sizes.

(** C30: A message that is sent is within the limits.  The check before it
    succeeds exactly when subject and body are within their limits, each
    attachment that can be looked at is a file within its own, and all of them
    together are within the total, where zero is no limit; sums that do not
    fit a machine word count as the largest one, which no limit exceeds. *)
Theorem size_limits_spec fs config subject body_md paths base_dir :
  let base := canonical_ok fs <$> base_dir in
  let within limit size := limit ≤ 0 ∨ size ≤ limit in
  (∀ p is_file size, attachment_metadata fs config base p = Some (is_file, size) → 0 ≤ size) →
  validate_message_size_limits fs config subject body_md paths base_dir = None ↔
    within (max_subject_bytes config) (len subject) ∧
    within (max_message_body_bytes config) (len body_md) ∧
    Forall (fits fs config base) (default [] paths) ∧
    within (max_total_message_bytes config)
      (Z.min u64_max (sum_from (len subject + len body_md) (known_size fs config base <$> default [] paths))).
Proof.
  intros base within Hpos. unfold validate_message_size_limits, within.
  destruct (exceeds (max_subject_bytes config) (len subject)) eqn:H1.
  { split; [done|]. intros [Hs%exceeds_false _]. congruence. }
  destruct (exceeds (max_message_body_bytes config) (len body_md)) eqn:H2.
  { split; [done|]. intros (_ & Hs%exceeds_false & _). congruence. }
  apply exceeds_false in H1, H2. fold base.
  pose proof (attachment_sizes_spec fs config base Hpos (default [] paths) (usize_saturating_add (len subject) (len body_md))
    ltac:(unfold usize_saturating_add; lia)) as Hsizes.
  destruct (attachment_sizes _ _ _ _ _) as [e|t]; [split; [done|]; by intros (_ & _ & Hall & _)|].
  destruct Hsizes as [Hall ->]. unfold usize_saturating_add. rewrite sum_saturated by by apply known_sizes_nonneg.
  case_if; [split; [done|]; intros (_ & _ & _ & Ht%exceeds_false); congruence|]. apply exceeds_false in Heqb. tauto.
Qed.

(** ** The archive *)

(** An image is converted once.  After an attachment was stored, a file of
    the same bytes, whatever its name, gets the same metadata from the archive
    without being decoded and without anything being written; a different
    policy for embedding changes only where the data are. *)
Theorem image_converted_once fs config p q embed_policy a meta rels a' :
  store_attachment fs config p embed_policy a = (inr (meta, rels), a') →
  sha1 fs q = sha1 fs p → (∃ is_file size, metadata fs q = Some (is_file, size) ∧ size ≤ effective_limit (max_attachment_bytes config)) →
  (∃ n, read_len fs q = Some n ∧ n ≠ 0) →
  store_attachment fs config q embed_policy a' = (inr (meta, []), a') ∧
  ∀ other, ∃ meta', store_attachment fs config q other a' = (inr (meta', []), a') ∧
    bytes meta' = bytes meta ∧ meta_sha1 meta' = meta_sha1 meta ∧ width meta' = width meta ∧ height meta' = height meta.
Proof.
  intros Hstore Hsha (is_file & size & Hm & Hsize) (n & Hr & Hn).
  assert (∃ m, manifests a' !! sha1 fs p = Some m ∧ meta = image_meta fs config (sha1 fs p) m embed_policy) as (m & Hman & ->).
  { unfold store_attachment in Hstore. destruct (metadata fs p) as [[f s]|]; [|done]. case_ifs; [done|].
    destruct (read_len fs p); [|done]. case_ifs; [done|]. destruct (manifests a !! sha1 fs p) as [m|] eqn:Hman.
    - injection Hstore as <- _ <-. by exists m.
    - case_ifs; [done|]. destruct (decode fs p) as [[[w' w] h]|]; [|done]. case_ifs; [|done].
      injection Hstore as <- _ <-. eexists. simpl. by rewrite lookup_insert_eq. }
  assert (∀ other, store_attachment fs config q other a' = (inr (image_meta fs config (sha1 fs p) m other, []), a')) as Hq.
  { intros other. unfold store_attachment. rewrite Hm, (proj2 (Z.ltb_ge _ _)), Hr by done.
    rewrite (proj2 (Z.eqb_neq _ _)) by done. by rewrite Hsha, Hman. }
  split; [done|]. intros other. eexists. split; [apply Hq|done].
Qed.

(** When images are not converted no configured limit is looked at: a file of
    up to fifty mebibytes is stored and accepted, however small the limits
    for an attachment or for a whole message are. *)
Theorem raw_attachment_escapes_limits image_refs fs config base_dir base subject body_md p r size embed_policy a :
  canonicalize fs base_dir = Resolved base →
  resolve_attachment_source_path_from_canonical_base fs config base p = inr r →
  metadata fs r = Some (true, size) → read_len fs r = Some size → 0 < size ≤ FALLBACK_MAX_ATTACHMENT_BYTES →
  writes fs (sha1 fs r) = true →
  let target := raw_path_of (sha1 fs r) (extension fs r) in
  process_message_attachments image_refs fs true config base_dir subject body_md (Some [p]) false embed_policy a
  = (inr (body_md, [to_value (raw_meta (sha1 fs r) target size)], [target]),
     {| manifests := manifests a; raw_files := {[target]} ∪ raw_files a |}).
Proof.
  intros Hbase Hres Hm Hr Hsize Hw target. unfold process_message_attachments. simpl.
  unfold canonical_ok. rewrite Hbase, Hres. unfold store_raw_attachment. rewrite Hm.
  assert (FALLBACK_MAX_ATTACHMENT_BYTES ≤ effective_limit (max_attachment_bytes config)) by (unfold effective_limit; case_if; lia).
  rewrite (proj2 (Z.ltb_ge _ _)), Hr, (proj2 (Z.eqb_neq _ _)), Hw, orb_true_r by lia. done.
Qed.

(** ** A small file system *)

Definition root_path : Path := {| absolute := true; parts := [lit "app"] |}.
Definition image_path : Path := {| absolute := true; parts := [lit "app"; lit "a.png"] |}.

(** One image of forty mebibytes, in the project [/app]. *)
Definition one_image : Files :=
  {| canonicalize := λ t, if bool_decide (t = lit "/app") then Resolved root_path
                          else if bool_decide (t = lit "/app/a.png") then Resolved image_path else NotFound;
     metadata := λ p, if bool_decide (p = image_path) then Some (true, 41943040) else None;
     metadata_of_text := λ _, None;
     read_len := λ p, if bool_decide (p = image_path) then Some 41943040 else None;
     sha1 := λ _, lit "c0ffee"; extension := λ _, lit ".png"; decode := λ _, Some (1000, 10, 10); base64 := λ _, lit "AA"; writes := λ _, true |}.

(** The limits the program ships with. *)
Definition default_limits : Config :=
  {| max_message_body_bytes := 1048576; max_attachment_bytes := 10485760; max_total_message_bytes := 20971520; max_subject_bytes := 1024;
     allow_absolute_attachment_paths := false; keep_original_images := false; inline_image_max_bytes := 65536 |}.

Definition no_archive : Archive := {| manifests := ∅; raw_files := ∅ |}.

Lemma attachment_stays_inside_witness : path_starts_with image_path root_path = true ∨ is_absolute (lit "a.png") = true ∧ false = true.
Proof.
  assert (resolve_attachment_source_path_from_canonical_base one_image default_limits root_path (lit "a.png") = inr image_path) as H by reflexivity.
  exact (proj2 (proj2 (attachment_stays_inside _ _ _ _ _ H))).
Defined.

Lemma size_limits_spec_witness :
  validate_message_size_limits one_image default_limits (lit "Hi") (lit "x") (Some [lit "a.png"]) (Some (lit "/app")) = Some (AttachmentTooLarge (lit "a.png")) ∧
  validate_message_size_limits one_image default_limits (lit "Hi") (lit "x") (Some [lit "b.png"]) (Some (lit "/app")) = None.
Proof.
  split; [reflexivity|]. apply (size_limits_spec one_image default_limits (lit "Hi") (lit "x") (Some [lit "b.png"]) (Some (lit "/app"))).
  - intros p f s. unfold attachment_metadata. simpl. destruct (resolve_attachment_source_path_from_canonical_base _ _ _ _) as [|r]; [done|].
    simpl. case_bool_decide; [|done]. intros [= _ <-]. lia.
  - split_and!; [right; vm_compute; done|right; vm_compute; done| |right; vm_compute; done].
    constructor; [|constructor]. exact I.
Defined.

Lemma image_converted_once_witness :
  (store_attachment one_image default_limits image_path Auto (store_attachment one_image default_limits image_path Auto no_archive).2).1
  = inr (image_meta one_image default_limits (lit "c0ffee") {| bytes_webp := 1000; m_width := 10; m_height := 10; m_original_path := None |} Auto, []).
Proof.
  destruct (image_converted_once one_image default_limits image_path image_path Auto no_archive
    (image_meta one_image default_limits (lit "c0ffee") {| bytes_webp := 1000; m_width := 10; m_height := 10; m_original_path := None |} Auto)
    [webp_path (lit "c0ffee"); manifest_path (lit "c0ffee"); audit_path (lit "c0ffee")]
    (store_attachment one_image default_limits image_path Auto no_archive).2) as [H _].
  - reflexivity.
  - reflexivity.
  - exists true, 41943040. split; [reflexivity|]. vm_compute. discriminate.
  - exists 41943040. done.
  - by rewrite H.
Defined.

Lemma raw_attachment_escapes_limits_witness :
  ∃ metas rels, (process_message_attachments (λ _, []) one_image true default_limits (lit "/app") (lit "Hi") (lit "x") (Some [lit "a.png"]) false Auto no_archive).1
    = inr (lit "x", metas, rels).
Proof.
  rewrite (raw_attachment_escapes_limits (λ _, []) one_image default_limits (lit "/app") root_path (lit "Hi") (lit "x") (lit "a.png") image_path 41943040 Auto no_archive);
    [by eexists _, _|reflexivity|reflexivity|reflexivity|reflexivity|split; reflexivity || (vm_compute; discriminate)|reflexivity].
Defined.
