(* ===== verification/MessageTools.v ===== *)
(** * The message tools ([mcp-agent-mail-tools/src/messaging.rs])

    What an agent calls to send, reply, read and acknowledge.  A call checks
    its arguments ([MessageArguments]), the disk ([DiskPressure]) and the sizes
    ([Attachments]), finds the sender and verifies its token ([Registration]),
    resolves the recipients and asks the contact gate ([ContactGate]), stores
    the attachments and then the message ([Mail]).  Between these steps other
    connections may do anything: each step reads the database it finds.  The
    indexes for search, the archive's copy of a message and the JSON of answers
    are left out. *)

From stdpp Require Import base numbers tactics list gmap strings sorting.
From S2P Require Import Prelude PatternOverlap Guard DbErrors Transactions ReadCache AgentNames Registration ReservationDb ReservationTools Contacts Mail ContactGate DiskPressure MessageArguments Attachments.
Import DbErrors Transactions MessageArguments.
Open Scope Z_scope.

Module MessageTools.

Inductive ToolError :=
  | INVALID_IMPORTANCE
  | UNSUPPORTED_TOPIC
  | TOO_LARGE (e : Attachments.SizeError)
  | DISK_FULL
  | PROJECT
  | INVALID_THREAD_ID
  | DATABASE (e : DbError)
  | SENDER (e : Registration.ToolError)
  | SENDER_TOKEN_MISMATCH
  | BROADCAST_AND_RECIPIENTS
  | BROADCAST_DISABLED
  | NO_RECIPIENTS
  | RECIPIENTS (e : ContactGate.SendError)
  | CONTACT (e : ContactGate.SendError)
  | ATTACHMENT (e : Attachments.AttachmentError)
  | NOT_FOUND
  | INVALID_LIMIT
  | INVALID_TIMESTAMP.

(** Early returns. *)
Abbreviation Result := (sum ToolError).
#[export] Instance result_ret : MRet Result := λ A, inr.
#[export] Instance result_bind : MBind Result := λ A B f r, match r with inl e => inl e | inr a => f a end.

Definition refuse (b : bool) (e : ToolError) : Result () := if b then inl e else inr ().

Record Config := {
  contact : ContactGate.Config;
  limits : Attachments.Config;
  disk_space_monitor_enabled : bool;
  convert_images : bool;
}.

Record Project := { project_id : Z; human_key : str }.

(** What a call finds: the project of its key, the agents and what the engine
    answers when it is asked for one, how a recipient is resolved, the gauges,
    the messages at the time of the first checks and the error of their query,
    the name of the author of a message that is replied to, the world of the
    gate, the store, and the files. *)
Record World := {
  project : option Project;
  agents : Registration.Db;
  selected : Outcome ();
  instant : Z;
  resolve : str → ContactGate.Resolution;
  gauges : DiskPressure.Gauges;
  checked_mail : Mail.Db;
  query_error : option DbError;
  author : Z → DbResult str;
  gate : ContactGate.World;
  triggers : Mail.Triggers;
  after_commit : Mail.AfterCommit;
  commit_now : Z;
  files : Attachments.Files;
  archive_ok : bool;
}.

(** What a call may change beside the messages. *)
Record State := { links : Contacts.Db; archive : Attachments.Archive; cache : ReadCache.ReadCache }.

Definition with_cache (c : ReadCache.ReadCache) (s : State) : State := {| links := links s; archive := archive s; cache := c |}.
Definition with_links (l : Contacts.Db) (s : State) : State := {| links := l; archive := archive s; cache := cache s |}.
Definition with_archive (a : Attachments.Archive) (s : State) : State := {| links := links s; archive := a; cache := cache s |}.

(** The answer: the stored message, to whom it went, who was signalled, whether
    the sender was verified. *)
Record Sent := {
  sent_id : Z;
  sent_row : Mail.MessageRow;
  sent_to : list str;
  sent_cc : list str;
  sent_bcc : list str;
  notified : list str;
  sender_verified : bool;
}.

Section tools.
Context `{Globset} `{ReservationDb.CellDecode}.
Context (scope_fingerprint : str → Z) (scope : str) (text : Registration.Text → str).
Context (image_refs : str → list (str * str * str)) (to_json : list Guard.Value → str).

(** ** Parts of both *)

Definition disk_full (c : Config) (w : World) : bool :=
  disk_space_monitor_enabled c && bool_decide (DiskPressure.recorded_pressure (gauges w) = DiskPressure.Fatal).

Definition found_project (w : World) : Result Project := match project w with Some p => inr p | None => inl PROJECT end.

Definition size_checked (e : option Attachments.SizeError) : Result () := match e with Some e => inl (TOO_LARGE e) | None => inr () end.

(** The sender and whether its token verified it. *)
Definition verified_sender (w : World) (pid : Z) (sender_name : str) (sender_token : option str) (c : ReadCache.ReadCache) :
    Result (ReadCache.AgentRow * bool) * ReadCache.ReadCache :=
  match Registration.resolve_agent scope_fingerprint scope text (selected w) pid sender_name (instant w) (agents w) c with
  | (inl e, c) => (inl (SENDER e), c)
  | (inr row, c) =>
      (match Registration.verified_sender sender_token row with
       | Some verified => inr (row, verified)
       | None => inl SENDER_TOKEN_MISMATCH
       end, c)
  end.

Definition sender_id (a : ReadCache.AgentRow) : Z := default 0 (ReadCache.id a).

Definition sender_agent (a : ReadCache.AgentRow) : ContactGate.Agent :=
  {| ContactGate.id := sender_id a; ContactGate.name := ReadCache.name a; ContactGate.contact_policy := ReadCache.contact_policy a |}.

Definition embed_policy (a : ReadCache.AgentRow) : Attachments.EmbedPolicy := Attachments.from_str_policy (ReadCache.attachments_policy a).

Definition do_convert (c : Config) (a : ReadCache.AgentRow) (given : option bool) : bool :=
  match embed_policy a with Attachments.Auto => default (convert_images c) given | _ => true end.

Definition recipients_of (w : World) (to_names cc_names bcc_names : list str) : Result ContactGate.Resolved :=
  match ContactGate.resolve_recipients (resolve w) to_names cc_names bcc_names with
  | inl r => inr r
  | inr e => inl (RECIPIENTS e)
  end.

Definition all_names (r : ContactGate.Resolved) : list str :=
  ContactGate.resolved_to r ++ ContactGate.resolved_cc r ++ ContactGate.resolved_bcc r.

(** Each of the first two lists once, never a hidden recipient for being one. *)
Definition signalled (r : ContactGate.Resolved) : list str :=
  Attachments.retain_first [] (ContactGate.resolved_to r ++ ContactGate.resolved_cc r).

(** The transaction and the answer. *)
Definition store (w : World) (m : Mail.Draft) (r : ContactGate.Resolved) (verified : bool) : Result Sent * Mail.Db :=
  match Mail.create_message_with_recipients (triggers w) (after_commit w) (commit_now w) m
          (ContactGate.all_recipients (ContactGate.recipients r)) (ContactGate.mail_at_store (gate w)) with
  | (Ok (mid, row), md) =>
      (inr {| sent_id := mid; sent_row := row; sent_to := ContactGate.resolved_to r; sent_cc := ContactGate.resolved_cc r;
              sent_bcc := ContactGate.resolved_bcc r; notified := signalled r; sender_verified := verified |}, md)
  | (Err e, md) => (inl (DATABASE e), md)
  end.

(** The cached counters of the recipients are dropped when the message is
    there, and when it was removed again. *)
Definition stats_dropped (w : World) (m : Mail.Draft) (r : ContactGate.Resolved) (c : ReadCache.ReadCache) : ReadCache.ReadCache :=
  let rs := ContactGate.all_recipients (ContactGate.recipients r) in
  let d := ContactGate.mail_at_store (gate w) in
  match (Mail.create_message_with_recipients_tx (triggers w) (commit_now w) m rs d).1,
        (Mail.create_message_with_recipients (triggers w) (after_commit w) (commit_now w) m rs d).1,
        Mail.cleanup_fails (after_commit w) with
  | Err _, _, _ | Ok _, Err _, Some _ => c
  | Ok _, _, _ => foldl (λ c aid, ReadCache.invalidate_inbox_stats_scoped scope_fingerprint scope aid c) c (fst <$> rs)
  end.

(** ** Sending *)

Record SendCall := {
  sender_name : str;
  to : list str;
  subject : str;
  body_md : str;
  cc : option (list str);
  bcc : option (list str);
  attachment_paths : option (list str);
  send_convert : option bool;
  importance : option str;
  ack_required : option bool;
  thread_id : option str;
  topic : option str;
  broadcast : option bool;
  auto_contact_if_blocked : option bool;
  sender_token : option str;
}.

Definition validate_explicit_thread_id_for_send (w : World) (pid : Z) (tid : str) : Result () :=
  if negb (is_valid_thread_id tid) then inl INVALID_THREAD_ID
  else if negb (is_bare_numeric_thread_id tid) then inr ()
  else
    match query_error w with
    | Some e => inl (DATABASE e)
    | None =>
        match Mail.list_thread_messages pid tid (Some 1) (checked_mail w) with
        | Err e => inl (DATABASE e)
        | Ok existing_messages =>
            refuse (negb (existsb (λ row, bool_decide (Mail.thread_id row.1.2 = Some tid)) existing_messages)) INVALID_THREAD_ID
        end
    end.

(** What the checks before the sender establish. *)
Record Checked := {
  checked_project : Project;
  checked_subject : str;
  checked_importance : str;
  checked_thread : option str;
}.

Definition send_checks (c : Config) (w : World) (k : SendCall) : Result Checked :=
  let subject := truncate_subject (subject k) in
  importance_val ← match importance_of (importance k) with Some i => inr i | None => inl INVALID_IMPORTANCE end;
  let thread_id := thread_argument (thread_id k) in
  _ ← refuse (reject_unsupported_topic_argument (topic k)) UNSUPPORTED_TOPIC;
  _ ← size_checked (Attachments.validate_message_size_limits (files w) (limits c) subject (body_md k) None None);
  _ ← refuse (disk_full c w) DISK_FULL;
  p ← found_project w;
  _ ← match thread_id with Some tid => validate_explicit_thread_id_for_send w (project_id p) tid | None => inr () end;
  _ ← size_checked (Attachments.validate_message_size_limits (files w) (limits c) subject (body_md k) (attachment_paths k) (Some (human_key p)));
  inr {| checked_project := p; checked_subject := subject; checked_importance := importance_val; checked_thread := thread_id |}.

Definition to_names (k : SendCall) : list str := normal_or_same <$> to k.
Definition normal_names (l : option (list str)) : option (list str) := (λ l : list str, normal_or_same <$> l) <$> l.
Definition cc_names (k : SendCall) : option (list str) := normal_names (cc k).
Definition bcc_names (k : SendCall) : option (list str) := normal_names (bcc k).

Definition is_given (l : option (list str)) : bool := negb (bool_decide (default [] l = [])).

Definition broadcast_checks (k : SendCall) : Result () :=
  let explicitly_targeted := negb (bool_decide (to_names k = [])) || is_given (cc_names k) || is_given (bcc_names k) in
  let broadcast := default false (broadcast k) in
  _ ← refuse (broadcast && explicitly_targeted) BROADCAST_AND_RECIPIENTS;
  refuse broadcast BROADCAST_DISABLED.

(** The recipients, after the sender is known. *)
Definition send_recipients (w : World) (k : SendCall) : Result ContactGate.Resolved :=
  _ ← broadcast_checks k;
  let cc_list := default [] (cc_names k) in
  let bcc_list := default [] (bcc_names k) in
  _ ← refuse (negb (ContactGate.has_any_recipients (to_names k) cc_list bcc_list)) NO_RECIPIENTS;
  recipients_of w (to_names k) cc_list bcc_list.

Definition send_draft (k : SendCall) (x : Checked) (sender : ReadCache.AgentRow) (final_body : str) (metas : list Guard.Value) : Mail.Draft :=
  {| Mail.draft_project := project_id (checked_project x); Mail.draft_sender := sender_id sender;
     Mail.draft_subject := checked_subject x; Mail.draft_body := final_body; Mail.draft_thread := checked_thread x;
     Mail.draft_importance := checked_importance x; Mail.draft_ack := default false (ack_required k);
     Mail.draft_attachments := to_json metas |}.

(** From the resolved sender on: recipients, gate, attachments, message. *)
Definition send_from (c : Config) (w : World) (k : SendCall) (x : Checked) (sender : ReadCache.AgentRow) (verified : bool) (s : State) :
    Result Sent * Mail.Db * State :=
  let md := ContactGate.mail_at_store (gate w) in
  match send_recipients w k with
  | inl e => (inl e, md, s)
  | inr r =>
      match ContactGate.send_gate (contact c) (auto_contact_if_blocked k) (gate w) (project_id (checked_project x)) (sender_agent sender)
              (checked_thread x) (ContactGate.recipients r) (all_names r) (links s) with
      | (Some e, ld) => (inl (CONTACT e), md, with_links ld s)
      | (None, ld) =>
          let s := with_links ld s in
          match Attachments.process_message_attachments image_refs (files w) (archive_ok w) (limits c) (human_key (checked_project x))
                  (checked_subject x) (body_md k) (attachment_paths k) (do_convert c sender (send_convert k)) (embed_policy sender) (archive s) with
          | (inl e, a) => (inl (ATTACHMENT e), md, with_archive a s)
          | (inr (final_body, metas, _), a) =>
              let draft := send_draft k x sender final_body metas in
              let '(result, md) := store w draft r verified in
              (result, md, with_cache (stats_dropped w draft r (cache s)) (with_archive a s))
          end
      end
  end.

Definition send_message (c : Config) (w : World) (k : SendCall) (s : State) : Result Sent * Mail.Db * State :=
  let md := ContactGate.mail_at_store (gate w) in
  match send_checks c w k with
  | inl e => (inl e, md, s)
  | inr x =>
      match verified_sender w (project_id (checked_project x)) (normal_or_same (sender_name k)) (sender_token k) (cache s) with
      | (inl e, ch) => (inl e, md, with_cache ch s)
      | (inr (sender, verified), ch) => send_from c w k x sender verified (with_cache ch s)
      end
  end.
(** ** Replying *)

Record ReplyCall := {
  message_id : Z;
  reply_sender_name : str;
  reply_body : str;
  reply_to : option (list str);
  reply_cc : option (list str);
  reply_bcc : option (list str);
  subject_prefix : option str;
  reply_importance : option str;
  reply_ack_required : option bool;
  reply_attachment_paths : option (list str);
  reply_convert : option bool;
  reply_token : option str;
}.

(** [get_message], in the project of the call. *)
Definition get_original (w : World) (pid mid : Z) : Result Mail.MessageRow :=
  match query_error w with
  | Some e => inl (DATABASE e)
  | None =>
      match Mail.messages (checked_mail w) !! mid with
      | None => inl NOT_FOUND
      | Some original => if bool_decide (Mail.project_id original = pid) then inr original else inl NOT_FOUND
      end
  end.

Definition reply_checks (c : Config) (w : World) (k : ReplyCall) : Result (Project * Mail.MessageRow) :=
  _ ← refuse (negb (importance_accepted (reply_importance k))) INVALID_IMPORTANCE;
  _ ← size_checked (Attachments.validate_reply_body_limit (limits c) (reply_body k));
  _ ← refuse (disk_full c w) DISK_FULL;
  p ← found_project w;
  original ← get_original w (project_id p) (message_id k);
  inr (p, original).

(** The thread of the original, or one named by its key. *)
Definition reply_thread (mid : Z) (original : Mail.MessageRow) : str :=
  let fallback_tid := i64_to_string mid in
  match Mail.thread_id original with Some tid => sanitize_thread_id tid fallback_tid | None => fallback_tid end.

Definition prefix_of (k : ReplyCall) : str := default (lit "Re:") (subject_prefix k).

Definition subject_of_reply (k : ReplyCall) (original : Mail.MessageRow) : str := reply_subject (prefix_of k) (Mail.subject original).

(** After the attachments: they are not counted. *)
Definition reply_size_checks (c : Config) (subject final_body : str) : Result () :=
  let l := limits c in
  _ ← refuse (Attachments.exceeds (Attachments.max_subject_bytes l) (Attachments.len subject)) (TOO_LARGE Attachments.SubjectTooLarge);
  refuse (Attachments.exceeds (Attachments.max_total_message_bytes l)
            (Attachments.usize_saturating_add (Attachments.len subject) (Attachments.len final_body))) (TOO_LARGE Attachments.TotalTooLarge).

Definition reply_recipients (w : World) (k : ReplyCall) (author_name : str) : Result ContactGate.Resolved :=
  let to_list := default [author_name] (normal_names (reply_to k)) in
  let cc_list := default [] (normal_names (reply_cc k)) in
  let bcc_list := default [] (normal_names (reply_bcc k)) in
  _ ← refuse (negb (ContactGate.has_any_recipients to_list cc_list bcc_list)) NO_RECIPIENTS;
  recipients_of w to_list cc_list bcc_list.

Definition reply_draft (k : ReplyCall) (p : Project) (original : Mail.MessageRow) (sender : ReadCache.AgentRow) (final_body : str)
    (metas : list Guard.Value) : Mail.Draft :=
  {| Mail.draft_project := project_id p; Mail.draft_sender := sender_id sender; Mail.draft_subject := subject_of_reply k original;
     Mail.draft_body := final_body; Mail.draft_thread := Some (reply_thread (message_id k) original);
     Mail.draft_importance := from_option to_ascii_lowercase (Mail.importance original) (reply_importance k);
     Mail.draft_ack := default (negb (Mail.ack_required original =? 0)) (reply_ack_required k);
     Mail.draft_attachments := to_json metas |}.

(** From the attachments on: sizes, recipients, gate, message. *)
Definition reply_from (c : Config) (w : World) (k : ReplyCall) (p : Project) (original : Mail.MessageRow) (author_name : str)
    (sender : ReadCache.AgentRow) (verified : bool) (s : State) : Result Sent * Mail.Db * State :=
  let md := ContactGate.mail_at_store (gate w) in
  let subject := subject_of_reply k original in
  match Attachments.process_message_attachments image_refs (files w) (archive_ok w) (limits c) (human_key p) subject (reply_body k)
          (reply_attachment_paths k) (do_convert c sender (reply_convert k)) (embed_policy sender) (archive s) with
  | (inl e, a) => (inl (ATTACHMENT e), md, with_archive a s)
  | (inr (final_body, metas, _), a) =>
      let s := with_archive a s in
      match (_ ← reply_size_checks c subject final_body; reply_recipients w k author_name) with
      | inl e => (inl e, md, s)
      | inr r =>
          match ContactGate.reply_gate (contact c) (gate w) (project_id p) (sender_agent sender) (reply_thread (message_id k) original)
                  (ContactGate.recipients r) (all_names r) (links s) with
          | (Some e, ld) => (inl (CONTACT e), md, with_links ld s)
          | (None, ld) =>
              let draft := reply_draft k p original sender final_body metas in
              let '(result, md) := store w draft r verified in
              (result, md, with_cache (stats_dropped w draft r (cache s)) (with_links ld s))
          end
      end
  end.

Definition reply_message (c : Config) (w : World) (k : ReplyCall) (s : State) : Result Sent * Mail.Db * State :=
  let md := ContactGate.mail_at_store (gate w) in
  match reply_checks c w k with
  | inl e => (inl e, md, s)
  | inr (p, original) =>
      match verified_sender w (project_id p) (normal_or_same (reply_sender_name k)) (reply_token k) (cache s) with
      | (inl e, ch) => (inl e, md, with_cache ch s)
      | (inr (sender, verified), ch) =>
          let s := with_cache ch s in
          match author w (Mail.sender_id original) with
          | Err e => (inl (DATABASE e), md, s)
          | Ok author_name => reply_from c w k p original author_name sender verified s
          end
      end
  end.

(** ** Reading

    The inbox is read from [inbox], which may be a snapshot of an archive, and
    what was fetched is marked in the live database, if there is one and the
    write works. *)
Record ReadWorld := {
  read_project : option Project;
  read_agents : Registration.Db;
  read_selected : Outcome ();
  read_instant : Z;
  inbox : Mail.Db;
  inbox_error : option DbError;
  iso_to_micros : str → option Z;
  live_pool : bool;
  mark_error : option DbError;
  read_triggers : Mail.Triggers;
  read_now : Z;
}.

Record FetchCall := {
  urgent_only : option bool;
  since_ts : option str;
  limit : option Z;
  include_bodies : option bool;
  fetch_topic : option str;
}.

Record InboxMessage := {
  inbox_id : Z;
  inbox_row : Mail.MessageRow;
  from : str;
  inbox_to : list str;
  inbox_cc : list str;
  inbox_bcc : list str;
  inbox_kind : str;
  inbox_body : option str;
}.

Definition found_agent (w : ReadWorld) (agent_name : str) (c : ReadCache.ReadCache) : Result (Project * ReadCache.AgentRow) * ReadCache.ReadCache :=
  match read_project w with
  | None => (inl PROJECT, c)
  | Some p =>
      match Registration.resolve_agent scope_fingerprint scope text (read_selected w) (project_id p) (normal_or_same agent_name)
              (read_instant w) (read_agents w) c with
      | (inl e, c) => (inl (SENDER e), c)
      | (inr row, c) => (inr (p, row), c)
      end
  end.

Definition msg_limit (given : option Z) : Result Z :=
  let limit := default 20 given in
  if limit <? 1 then inl INVALID_LIMIT else inr (Z.min 1000 limit).

(** Hidden recipients are shown to the author only. *)
Definition inbox_message (agent_id : Z) (include_body : bool) (row : Mail.InboxRow) : InboxMessage :=
  let m := Mail.message row in
  {| inbox_id := Mail.message_id row; inbox_row := m; from := Mail.sender_name row;
     inbox_to := from_option Mail.json_to [] (Mail.recipients_json m); inbox_cc := from_option Mail.json_cc [] (Mail.recipients_json m);
     inbox_bcc := if bool_decide (Mail.sender_id m = agent_id) then from_option Mail.json_bcc [] (Mail.recipients_json m) else [];
     inbox_kind := Mail.kind (Mail.recipient row); inbox_body := if include_body then Some (Mail.body_md m) else None |}.

Definition fetch_rows (w : ReadWorld) (k : FetchCall) (limit pid agent_id : Z) : Result (list Mail.InboxRow) :=
  since_micros ← match since_ts k with
                 | None => inr None
                 | Some ts => match iso_to_micros w ts with Some t => inr (Some t) | None => inl INVALID_TIMESTAMP end
                 end;
  match inbox_error w, Mail.fetch_inbox pid agent_id (default false (urgent_only k)) since_micros limit (inbox w) with
  | Some e, _ | None, Err e => inl (DATABASE e)
  | None, Ok rows => inr rows
  end.

(** The answer, the live database and the cache. *)
Definition fetch_inbox (w : ReadWorld) (agent_name : str) (k : FetchCall) (live : Mail.Db) (c : ReadCache.ReadCache) :
    Result (list InboxMessage) * Mail.Db * ReadCache.ReadCache :=
  match (limit ← msg_limit (limit k); _ ← refuse (reject_unsupported_topic_argument (fetch_topic k)) UNSUPPORTED_TOPIC; inr limit) with
  | inl e => (inl e, live, c)
  | inr limit =>
      match found_agent w agent_name c with
      | (inl e, c) => (inl e, live, c)
      | (inr (p, agent), c) =>
          let agent_id := sender_id agent in
          match fetch_rows w k limit (project_id p) agent_id with
          | inl e => (inl e, live, c)
          | inr rows =>
              let messages := inbox_message agent_id (default false (include_bodies k)) <$> rows in
              if live_pool w && bool_decide (mark_error w = None) then
                (inr messages, Mail.mark_messages_read_batch_sync (read_triggers w) (read_now w) agent_id (inbox_id <$> messages) live,
                 ReadCache.invalidate_inbox_stats_scoped scope_fingerprint scope agent_id c)
              else (inr messages, live, c)
          end
      end
  end.

(** Both drop the cached counters before they look whether there is a row. *)
Definition mark_message_read (w : ReadWorld) (agent_name : str) (mid : Z) (live : Mail.Db) (c : ReadCache.ReadCache) :
    Result Z * Mail.Db * ReadCache.ReadCache :=
  match found_agent w agent_name c with
  | (inl e, c) => (inl e, live, c)
  | (inr (_, agent), c) =>
      let c := ReadCache.invalidate_inbox_stats_scoped scope_fingerprint scope (sender_id agent) c in
      match Mail.mark_message_read (read_triggers w) (read_now w) (sender_id agent) mid live with
      | (Ok t, live) => (inr t, live, c)
      | (Err e, live) => (inl (DATABASE e), live, c)
      end
  end.

Definition acknowledge_message (w : ReadWorld) (agent_name : str) (mid : Z) (live : Mail.Db) (c : ReadCache.ReadCache) :
    Result (Z * Z) * Mail.Db * ReadCache.ReadCache :=
  match found_agent w agent_name c with
  | (inl e, c) => (inl e, live, c)
  | (inr (_, agent), c) =>
      let c := ReadCache.invalidate_inbox_stats_scoped scope_fingerprint scope (sender_id agent) c in
      match Mail.acknowledge_message (read_triggers w) (read_now w) (sender_id agent) mid live with
      | (Ok ts, live) => (inr ts, live, c)
      | (Err e, live) => (inl (DATABASE e), live, c)
      end
  end.

(** ** Recipients that are not registered *)

(** [split_once]. *)
Fixpoint split_once (sep : N) (s : str) : option (str * str) :=
  match s with
  | [] => None
  | c :: s => if (c =? sep)%N then Some ([], s) else (λ '(a, b), (c :: a, b)) <$> split_once sep s
  end.

(** The column of a name that may carry its table. *)
Definition column_of (column : str) : str := let column := trim column in default column (last (split_on (λ c, (c =? 46)%N) column)).

Definition is_agent_unique_constraint_error (message : str) : bool :=
  match split_once 58 (to_ascii_lowercase message) with
  | None => false
  | Some (prefix, columns) =>
      if negb (ReservationTools.contains (lit "unique constraint failed") prefix) then false
      else
        let columns := column_of <$> split_on (λ c, (c =? 44)%N) columns in
        bool_decide (lit "project_id" ∈ columns) && bool_decide (lit "name" ∈ columns)
  end.

(** [between]: what other connections commit between the look and the
    registration; [again] is the second look. *)
Definition resolve_or_register_agent (wr : Registration.World) (selected again : Outcome ()) (auto_register : bool) (pid : Z)
    (agent_name : str) (t t' : Z) (between : Registration.Db → Registration.Db) (d : Registration.Db) (c : ReadCache.ReadCache) :
    Outcome ReadCache.AgentRow * Registration.Db * ReadCache.ReadCache :=
  let nm := normal_or_same (trim agent_name) in
  match Registration.get_agent scope_fingerprint scope text selected pid nm t d c with
  | (Done agent, c) => (Done agent, d, c)
  | (Failed (NotFound x y), c) =>
      if auto_register then
        let unknown := {| Registration.p_name := nm; Registration.p_program := lit "unknown"; Registration.p_model := lit "unknown";
                          Registration.p_task := None; Registration.p_policy := None; Registration.p_exempt := None |} in
        let look d c := let '(r, c) := Registration.get_agent scope_fingerprint scope text again pid nm t' d c in (r, d, c) in
        match Registration.register_agent scope_fingerprint scope text wr pid unknown (between d) c with
        | (Done _, d, c) => look d c
        | (Failed (Sqlite message), d, c) =>
            if is_agent_unique_constraint_error message then look d c else (Failed (Sqlite message), d, c)
        | (o, d, c) => (o, d, c)
        end
      else (Failed (NotFound x y), d, c)
  | (o, c) => (o, d, c)
  end.

(** As the gate takes it. *)
Definition resolution_of (o : Outcome ReadCache.AgentRow) : ContactGate.Resolution :=
  match o with
  | Done row => ContactGate.Found (sender_agent row)
  | Failed (NotFound _ _) => ContactGate.Missing
  | _ => ContactGate.Failed
  end.

End tools.
End MessageTools.
