(* ===== verification/MessageToolsFacts.v ===== *)
(** * What the message tools guarantee

    A message that is stored is what the caller asked for, within the limits
    and past the gate; threads named by a number belong to a message; a reply
    joins the thread of what it answers; and reading an inbox acknowledges it. *)

From stdpp Require Import base numbers tactics list gmap sets strings sorting.
From S2P Require Import Prelude PatternOverlap RefGlob Guard DbErrors Transactions ReadCache AgentNames Registration RegistrationFacts ReservationDb ReservationExclusion Contacts ContactsFacts Mail MailFacts.
From S2P Require Import ContactGate ContactGateFacts DiskPressure MessageArguments MessageArgumentsFacts Attachments AttachmentsFacts MessageTools.
Import DbErrors Transactions MessageArguments MessageTools.
Open Scope Z_scope.

(** ** The store *)

(** What creating a message does to the messages, whatever happens after the
    commit. *)
Lemma create_messages tr env now m rs d r d' :
  MailFacts.wf d → MailFacts.exact d → Mail.create_message_with_recipients tr env now m rs d = (r, d') →
  let row := Mail.message_row now m (Some (Mail.recipients_json_of rs d)) in
  let mid := Mail.message_sequence d + 1 in
  MailFacts.wf d' ∧ MailFacts.exact d' ∧ Mail.messages d !! mid = None ∧
  (Mail.messages d' = Mail.messages d ∨ Mail.messages d' = <[mid := row]> (Mail.messages d)) ∧
  ∀ x, r = Ok x → x = (mid, row) ∧ Mail.messages d' = <[mid := row]> (Mail.messages d) ∧
    NoDup (fst <$> rs) ∧ MailFacts.delivered rs mid row d d'.
Proof.
  intros Hwf Hex Hc row mid. pose proof (MailFacts.send_exact tr env now m rs d Hwf Hex) as Hex'.
  pose proof (MailFacts.send_wf tr env now m rs d Hwf) as Hwf'. rewrite Hc in Hwf', Hex'.
  pose proof (MailFacts.create_tx_spec tr now m rs d Hwf) as Htx. cbv zeta in Htx. fold row mid in Htx.
  unfold Mail.create_message_with_recipients in Hc.
  assert (Mail.messages d !! mid = None) as Hfresh by by apply MailFacts.insert_message_fresh.
  split_and!; [done|done|done| |].
  - case_decide; [|destruct Htx as [e Htx]; rewrite Htx in Hc; injection Hc as <- <-; by left].
    destruct Htx as (d1 & Htx & Hdel). rewrite Htx in Hc. pose proof Hdel as (_ & Hm & _).
    destruct (match Mail.probe env d1 with Ok _ => _ | Err _ => _ end); [injection Hc as <- <-; by right|].
    destruct (Mail.cleanup_fails env); injection Hc as <- <-; [by right|]. left.
    by apply (MailFacts.cleanup_delivered rs mid row (fst <$> rs) d d1).
  - intros x ->. case_decide; [|destruct Htx as [e Htx]; by rewrite Htx in Hc].
    destruct Htx as (d1 & Htx & Hdel). rewrite Htx in Hc.
    destruct (match Mail.probe env d1 with Ok _ => _ | Err _ => _ end); [|by destruct (Mail.cleanup_fails env)].
    injection Hc as <- <-. split_and!; [done|by destruct Hdel as (_ & ? & _)|done|done].
Qed.

(** A thread named by a number is that of a message of the project. *)
Definition seeded (d : Mail.Db) (project : Z) (t : str) : Prop :=
  is_bare_numeric_thread_id t = true →
  ∃ root r, Mail.messages d !! root = Some r ∧ Mail.project_id r = project ∧ t = i64_to_string root.

Record well_written (d : Mail.Db) (m : Mail.MessageRow) : Prop := {
  written_subject : (length (Mail.subject m) ≤ 200)%nat;
  written_importance : Mail.importance m ∈ IMPORTANCES;
  written_thread t : Mail.thread_id m = Some t → is_valid_thread_id t = true ∧ seeded d (Mail.project_id m) t;
}.

Record store_ok (d : Mail.Db) : Prop := {
  store_wf : MailFacts.wf d;
  store_exact : MailFacts.exact d;
  store_sequence : 0 ≤ Mail.message_sequence d;
  store_key mid : is_Some (Mail.messages d !! mid) → 0 < mid;
  store_row mid m : Mail.messages d !! mid = Some m → well_written d m;
}.

Lemma well_written_mono d d' m : Mail.messages d ⊆ Mail.messages d' → well_written d m → well_written d' m.
Proof.
  intros Hsub [Hs Hi Ht]. split; [done|done|]. intros t E. destruct (Ht t E) as [Hv Hn]. split; [done|].
  intros Hb. destruct (Hn Hb) as (root & r & Hr & Hp & Heq). exists root, r. split; [|done]. by eapply lookup_weaken.
Qed.

(** One more message. *)
Lemma create_store_ok tr env now m rs d r d' :
  store_ok d → Mail.create_message_with_recipients tr env now m rs d = (r, d') →
  well_written d (Mail.message_row now m (Some (Mail.recipients_json_of rs d))) →
  store_ok d' ∧ Mail.messages d ⊆ Mail.messages d'.
Proof.
  intros Hok Hc Hrow. pose proof (MailFacts.run_op_messages tr (MailFacts.Send env now m rs) d (store_wf d Hok)) as [Hseq _].
  simpl in Hseq. rewrite Hc in Hseq. simpl in Hseq.
  destruct (create_messages _ _ _ _ _ _ _ _ (store_wf d Hok) (store_exact d Hok) Hc) as (Hwf & Hex & Hfresh & Hm & _).
  pose proof (store_sequence d Hok). assert (Mail.messages d ⊆ Mail.messages d') as Hsub.
  { destruct Hm as [->| ->]; [done|]. by apply insert_subseteq. }
  split; [|done]. split; [done|done|lia| |].
  - intros mid Hmid. destruct Hm as [Hm|Hm]; rewrite Hm in Hmid; [by apply (store_key d Hok)|].
    apply lookup_insert_is_Some in Hmid as [<-|[_ Hmid]]; [lia|by apply (store_key d Hok)].
  - intros mid x Hx. apply (well_written_mono d); [done|].
    destruct Hm as [Hm|Hm]; rewrite Hm in Hx; [by apply (store_row d Hok mid)|].
    apply lookup_insert_Some in Hx as [[_ <-]|[_ Hx]]; [done|by apply (store_row d Hok mid)].
Qed.

(** ** What the checks establish *)

Lemma importance_of_spec given i : importance_of given = Some i → i ∈ IMPORTANCES ∧ i = from_option to_ascii_lowercase (lit "normal") given.
Proof. unfold importance_of. case_bool_decide; [|done]. by intros [= <-]. Qed.

Lemma refuse_ok b e : refuse b e = inr () ↔ b = false.
Proof. unfold refuse. by destruct b. Qed.

(** Take an early return apart. *)
Ltac step H :=
  unfold mbind, result_bind in H;
  match type of H with
  | context [match ?r with inl _ => _ | inr _ => _ end] => let E := fresh "E" in destruct r as [|?] eqn:E; [discriminate H|]; cbv beta iota in H
  end.

Lemma thread_rows_project project t lim d rows mid m s :
  Mail.list_thread_messages project t (Some lim) d = Ok rows → (mid, m, s) ∈ rows →
  Mail.messages d !! mid = Some m ∧ Mail.project_id m = project.
Proof.
  unfold Mail.list_thread_messages. destruct (lim <=? i64_max); [|done]. intros [= <-].
  rewrite elem_of_reverse. intros Hin%elem_of_take. destruct Hin as (i & Hin & _). apply list_elem_of_lookup_2 in Hin.
  rewrite merge_sort_Permutation in Hin. apply MailFacts.elem_of_thread_rows in Hin as (Hm & _ & Ht). split; [done|].
  unfold Mail.in_thread in Ht. apply andb_true_iff in Ht as [Hp _]. by apply bool_decide_eq_true in Hp.
Qed.

(** A thread the tool accepts is valid, and seeded where the checks looked. *)
Lemma accepted_thread w pid t : store_ok (checked_mail w) →
  validate_explicit_thread_id_for_send w pid t = inr () → is_valid_thread_id t = true ∧ seeded (checked_mail w) pid t.
Proof.
  intros Hok. unfold validate_explicit_thread_id_for_send. destruct (is_valid_thread_id t) eqn:Hv; cbn [negb]; [|done].
  destruct (is_bare_numeric_thread_id t) eqn:Hn; cbn [negb]; [|intros _; split; [done|]; unfold seeded; congruence].
  destruct (query_error w); [done|]. destruct (Mail.list_thread_messages pid t (Some 1) (checked_mail w)) as [rows|e] eqn:Hrows; [|done].
  rewrite refuse_ok, negb_false_iff. intros Hex. split; [done|]. intros _.
  apply existsb_exists in Hex as ([[mid m] s] & Hin%list_elem_of_In & Ht). apply bool_decide_eq_true in Ht. simpl in Ht.
  destruct (thread_rows_project pid t 1 (checked_mail w) rows mid m s Hrows Hin) as [Hm Hp].
  destruct (written_thread _ _ (store_row _ Hok mid m Hm) t Ht) as [_ Hs]. rewrite Hp in Hs. by apply Hs.
Qed.

Lemma send_checks_spec c w k x : send_checks c w k = inr x →
  project w = Some (checked_project x) ∧ checked_subject x = truncate_subject (subject k) ∧
  importance_of (importance k) = Some (checked_importance x) ∧ checked_thread x = thread_argument (thread_id k) ∧
  (∀ t, checked_thread x = Some t → validate_explicit_thread_id_for_send w (project_id (checked_project x)) t = inr ()) ∧
  disk_full c w = false ∧ normalized_topic_argument (topic k) = None ∧
  Attachments.validate_message_size_limits (files w) (limits c) (checked_subject x) (body_md k) (attachment_paths k)
    (Some (human_key (checked_project x))) = None.
Proof.
  unfold send_checks, found_project, size_checked, mbind, result_bind. intros H.
  destruct (importance_of (importance k)) as [i|] eqn:Hi; [|done].
  destruct (refuse (reject_unsupported_topic_argument (topic k)) _) as [|[]] eqn:Ht; [done|].
  destruct (Attachments.validate_message_size_limits _ _ _ _ None None); [done|].
  destruct (refuse (disk_full c w) _) as [|[]] eqn:Hd; [done|]. destruct (project w) as [p|] eqn:Hp; [|done].
  destruct (match thread_argument (thread_id k) with Some _ => _ | None => _ end) as [|[]] eqn:Hthread; [done|].
  destruct (Attachments.validate_message_size_limits _ _ _ _ (attachment_paths k) _) eqn:Hsize; [done|]. injection H as <-.
  apply refuse_ok in Ht, Hd. unfold reject_unsupported_topic_argument in Ht. apply bool_decide_eq_false in Ht.
  apply eq_None_not_Some in Ht. split_and!; try done. intros t E. simpl in E. by rewrite E in Hthread.
Qed.

Lemma reply_checks_spec c w k p original : reply_checks c w k = inr (p, original) →
  project w = Some p ∧ importance_accepted (reply_importance k) = true ∧ disk_full c w = false ∧
  Attachments.validate_reply_body_limit (limits c) (reply_body k) = None ∧
  Mail.messages (checked_mail w) !! message_id k = Some original ∧ Mail.project_id original = project_id p.
Proof.
  unfold reply_checks, found_project, size_checked, get_original, mbind, result_bind. intros H.
  destruct (refuse (negb _) _) as [|[]] eqn:Hi; [done|].
  destruct (Attachments.validate_reply_body_limit _ _); [done|].
  destruct (refuse (disk_full c w) _) as [|[]] eqn:Hd; [done|]. destruct (project w) as [q|] eqn:Hp; [|done].
  destruct (query_error w); [done|]. destruct (Mail.messages (checked_mail w) !! message_id k) as [m|] eqn:Hm; [|done].
  case_bool_decide; [|done]. injection H as <- <-. apply refuse_ok in Hi, Hd. apply negb_false_iff in Hi. done.
Qed.

(** The thread of a reply, where the threads of the store are valid. *)
Lemma reply_thread_spec d mid original : store_ok d → Mail.messages d !! mid = Some original → mid ≤ i64_max →
  is_valid_thread_id (reply_thread mid original) = true ∧ seeded d (Mail.project_id original) (reply_thread mid original) ∧
  reply_thread mid original = default (i64_to_string mid) (Mail.thread_id original).
Proof.
  intros Hok Hm Hmax. assert (0 < mid) as Hpos by (apply (store_key d Hok); by eexists).
  destruct (key_thread_id mid ltac:(lia)) as [Hv Hn]. unfold reply_thread.
  destruct (Mail.thread_id original) as [t|] eqn:Ht; simpl.
  - destruct (written_thread _ _ (store_row d Hok mid original Hm) t Ht) as [Hvt Hst].
    rewrite sanitize_valid_id by done. done.
  - split_and!; [done| |done]. intros _. by exists mid, original.
Qed.

Section facts.
Context `{Globset} `{ReservationDb.CellDecode}.
Context (scope_fingerprint : str → Z) (scope : str) (text : Registration.Text → str).
Context (image_refs : str → list (str * str * str)) (to_json : list Guard.Value → str).

#[local] Abbreviation send := (send_message scope_fingerprint scope text image_refs to_json).
#[local] Abbreviation reply := (reply_message scope_fingerprint scope text image_refs to_json).
#[local] Abbreviation sender_of := (verified_sender scope_fingerprint scope text).
#[local] Abbreviation at_store w := (ContactGate.mail_at_store (gate w)).

(** A call that is refused before the transaction, or the way to it. *)
Lemma send_message_cases c w k s r md s' : send c w k s = (r, md, s') →
  (∃ e, r = inl e ∧ md = at_store w ∧ (archive s' = archive s ∨ ∃ e', e = ATTACHMENT e') ∧
     (links s' = links s ∨ (∃ e', e = CONTACT e') ∨ ∃ e', e = ATTACHMENT e')) ∨
  ∃ x sender verified res ld final_body metas rels a,
    send_checks c w k = inr x ∧
    (sender_of w (project_id (checked_project x)) (normal_or_same (sender_name k)) (sender_token k) (cache s)).1 = inr (sender, verified) ∧
    send_recipients w k = inr res ∧
    ContactGate.send_gate (contact c) (auto_contact_if_blocked k) (gate w) (project_id (checked_project x)) (sender_agent sender)
      (checked_thread x) (ContactGate.recipients res) (all_names res) (links s) = (None, ld) ∧
    Attachments.process_message_attachments image_refs (files w) (archive_ok w) (limits c) (human_key (checked_project x))
      (checked_subject x) (body_md k) (attachment_paths k) (do_convert c sender (send_convert k)) (embed_policy sender) (archive s)
      = (inr (final_body, metas, rels), a) ∧
    store w (send_draft to_json k x sender final_body metas) res verified = (r, md) ∧ links s' = ld ∧ archive s' = a.
Proof.
  unfold send_message. destruct (send_checks c w k) as [e|x] eqn:Hx; [intros [= <- <- <-]; left; by eauto 10|].
  destruct (sender_of _ _ _ _ _) as [[e|[sender verified]] ch] eqn:Hs; [intros [= <- <- <-]; left; by eauto 10|].
  unfold send_from. destruct (send_recipients w k) as [e|res] eqn:Hr; [intros [= <- <- <-]; left; by eauto 10|].
  destruct (ContactGate.send_gate _ _ _ _ _ _ _ _ _) as [[e|] ld] eqn:Hg; [intros [= <- <- <-]; left; by eauto 10|].
  destruct (Attachments.process_message_attachments _ _ _ _ _ _ _ _ _ _ _) as [[e|[[final_body metas] rels]] a] eqn:Ha;
    [intros [= <- <- <-]; left; by eauto 10|].
  destruct (store w _ res verified) as [result md1] eqn:Hst. intros [= <- <- <-]. right.
  exists x, sender, verified, res, ld, final_body, metas, rels, a. by rewrite Hs.
Qed.

Lemma reply_message_cases c w k s r md s' : reply c w k s = (r, md, s') →
  (∃ e, r = inl e ∧ md = at_store w) ∨
  ∃ p original author_name sender verified res ld final_body metas rels a,
    reply_checks c w k = inr (p, original) ∧
    (sender_of w (project_id p) (normal_or_same (reply_sender_name k)) (reply_token k) (cache s)).1 = inr (sender, verified) ∧
    author w (Mail.sender_id original) = Ok author_name ∧
    Attachments.process_message_attachments image_refs (files w) (archive_ok w) (limits c) (human_key p)
      (subject_of_reply k original) (reply_body k) (reply_attachment_paths k) (do_convert c sender (reply_convert k)) (embed_policy sender) (archive s)
      = (inr (final_body, metas, rels), a) ∧
    reply_size_checks c (subject_of_reply k original) final_body = inr () ∧
    reply_recipients w k author_name = inr res ∧
    ContactGate.reply_gate (contact c) (gate w) (project_id p) (sender_agent sender) (reply_thread (message_id k) original)
      (ContactGate.recipients res) (all_names res) (links s) = (None, ld) ∧
    store w (reply_draft to_json k p original sender final_body metas) res verified = (r, md) ∧ links s' = ld ∧ archive s' = a.
Proof.
  unfold reply_message. destruct (reply_checks c w k) as [e|[p original]] eqn:Hx; [intros [= <- <- <-]; left; by eauto|].
  destruct (sender_of _ _ _ _ _) as [[e|[sender verified]] ch] eqn:Hs; [intros [= <- <- <-]; left; by eauto|].
  destruct (author w (Mail.sender_id original)) as [author_name|e] eqn:Hauthor; [|intros [= <- <- <-]; left; by eauto].
  unfold reply_from.
  destruct (Attachments.process_message_attachments _ _ _ _ _ _ _ _ _ _ _) as [[e|[[final_body metas] rels]] a] eqn:Ha;
    [intros [= <- <- <-]; left; by eauto|].
  unfold mbind, result_bind. destruct (reply_size_checks c _ final_body) as [e|[]] eqn:Hsize; [intros [= <- <- <-]; left; by eauto|].
  destruct (reply_recipients w k author_name) as [e|res] eqn:Hr; [intros [= <- <- <-]; left; by eauto|].
  destruct (ContactGate.reply_gate _ _ _ _ _ _ _ _) as [[e|] ld] eqn:Hg; [intros [= <- <- <-]; left; by eauto|].
  destruct (store w _ res verified) as [result md1] eqn:Hst. intros [= <- <- <-]. right.
  exists p, original, author_name, sender, verified, res, ld, final_body, metas, rels, a. by rewrite Hs.
Qed.

(** ** Threads named by a number *)

Inductive Call := Sending (k : SendCall) | Replying (k : ReplyCall).

Definition serve (c : Config) (w : World) (call : Call) (s : State) : Result Sent * Mail.Db * State :=
  match call with Sending k => send c w k s | Replying k => reply c w k s end.

(** Message identifiers are of 64 bits. *)
Definition call_ok (call : Call) : Prop := match call with Sending _ => True | Replying k => message_id k ≤ i64_max end.

(** What was read before is still there when the message is stored. *)
Definition found (w : World) : Prop :=
  store_ok (checked_mail w) ∧ store_ok (at_store w) ∧ Mail.messages (checked_mail w) ⊆ Mail.messages (at_store w).

Lemma stored_ok w m res verified r md :
  store_ok (at_store w) → (∀ json, well_written (at_store w) (Mail.message_row (commit_now w) m json)) →
  store w m res verified = (r, md) → store_ok md ∧ Mail.messages (at_store w) ⊆ Mail.messages md.
Proof.
  intros Hok Hrow. unfold store.
  destruct (Mail.create_message_with_recipients _ _ _ _ _ _) as [[[mid row]|e] d] eqn:Hc; intros [= <- <-];
    by eapply create_store_ok.
Qed.

Lemma serve_keeps c w call s r md s' : found w → call_ok call → serve c w call s = (r, md, s') →
  store_ok md ∧ Mail.messages (at_store w) ⊆ Mail.messages md.
Proof.
  intros (Hchecked & Hstore & Hsub) Hcall. destruct call as [k|k]; simpl.
  - intros [(e & -> & -> & _)|(x & sender & verified & res & ld & final_body & metas & rels & a & Hx & _ & _ & _ & _ & Hst & _)]%send_message_cases;
      [done|]. eapply stored_ok; [done| |exact Hst]. intros json.
    destruct (send_checks_spec _ _ _ _ Hx) as (_ & Hsubj & Hi & _ & Hthread & _). split; simpl.
    + rewrite Hsubj. apply truncate_length.
    + by apply importance_of_spec in Hi as [? _].
    + intros t Ht. destruct (accepted_thread _ _ _ Hchecked (Hthread t Ht)) as [Hv Hs]. split; [done|].
      intros Hn. destruct (Hs Hn) as (root & r0 & Hr0 & ?). exists root, r0. split; [by eapply lookup_weaken|done].
  - intros [(e & -> & ->)|(p & original & author_name & sender & verified & res & ld & final_body & metas & rels & a & Hx & _ & _ & _ & _ & _ & _ & Hst & _)]%reply_message_cases;
      [done|]. eapply stored_ok; [done| |exact Hst]. intros json.
    destruct (reply_checks_spec _ _ _ _ _ Hx) as (_ & Hi & _ & _ & Hm & Hp). split; simpl.
    + apply truncate_length.
    + unfold importance_accepted in Hi. destruct (reply_importance k) as [i|]; simpl; [by apply bool_decide_eq_true in Hi|].
      by apply (written_importance _ _ (store_row _ Hchecked _ _ Hm)).
    + intros t [= <-]. destruct (reply_thread_spec _ _ _ Hchecked Hm Hcall) as (Hv & Hs & _). split; [done|].
      intros Hn. destruct (Hs Hn) as (root & r0 & Hr0 & ? & ?). exists root, r0. rewrite <-Hp. split; [by eapply lookup_weaken|done].
Qed.

(** The stores of a run.  A call checks against an earlier store and stores in
    a later one that still has what it saw; in between others send, and read
    or acknowledge; a handshake leaves a message without a thread. *)
Inductive run (c : Config) (names : gmap Z str) : Mail.Db → Prop :=
  | run_start : run c names (Mail.empty_db names)
  | run_serve w call s r md s' :
      run c names (checked_mail w) → run c names (at_store w) → Mail.messages (checked_mail w) ⊆ Mail.messages (at_store w) →
      call_ok call → serve c w call s = (r, md, s') → run c names md
  | run_introduction tr env now m rs d :
      run c names d → (length (Mail.draft_subject m) ≤ 200)%nat → Mail.draft_importance m ∈ IMPORTANCES → Mail.draft_thread m = None →
      run c names (Mail.create_message_with_recipients tr env now m rs d).2
  | run_read tr now agent ids d : run c names d → run c names (Mail.mark_messages_read_batch tr now agent ids d).2
  | run_mark tr now agent mid d : run c names d → run c names (Mail.mark_message_read tr now agent mid d).2
  | run_acknowledge tr now agent mid d : run c names d → run c names (Mail.acknowledge_message tr now agent mid d).2.

Lemma run_op_store_ok tr o d :
  store_ok d → MailFacts.stored (MailFacts.run_op tr o d) = MailFacts.stored d → store_ok (MailFacts.run_op tr o d).
Proof.
  intros Hok [= Hm Hq]. destruct (MailFacts.run_op_exact tr o d (store_wf d Hok) (store_exact d Hok)) as [Hwf Hex].
  split; [done|done|rewrite Hq; by apply store_sequence|rewrite Hm; by apply store_key|].
  rewrite Hm. intros mid m E. apply (well_written_mono d); [by rewrite Hm|by apply (store_row d Hok mid)].
Qed.

(** C14: A thread named by a number belongs to a message.  In every store that
    sending, replying, reading and acknowledging can lead to, each message has
    a subject of at most two hundred characters, one of the four importances
    and no thread or a valid one; and when the thread consists of digits only
    they are the key of a message of the same project.  So nobody can take
    the number of a message that does not exist yet, although a call checks
    its thread against an older store than the one it writes to. *)
Theorem numeric_threads_are_seeded c names d : run c names d →
  ∀ mid m, Mail.messages d !! mid = Some m →
    (length (Mail.subject m) ≤ 200)%nat ∧ Mail.importance m ∈ IMPORTANCES ∧
    ∀ t, Mail.thread_id m = Some t → is_valid_thread_id t = true ∧
      (is_bare_numeric_thread_id t = true →
       ∃ root r, Mail.messages d !! root = Some r ∧ Mail.project_id r = Mail.project_id m ∧ t = i64_to_string root).
Proof.
  intros Hrun. enough (store_ok d) as Hok.
  { intros mid m Hm. destruct (store_row d Hok mid m Hm) as [Hs Hi Ht]. by split_and!. }
  induction Hrun as [|w call s r md s' _ IH1 _ IH2 Hsub Hcall Hserve|tr env now m rs d _ IH Hs Hi Ht|tr now agent ids d _ IH|tr now agent mid d _ IH|tr now agent mid d _ IH].
  - split; [apply MailFacts.empty_wf|apply MailFacts.empty_exact|done|..]; simpl.
    + intros mid [x Hx]. by rewrite lookup_empty in Hx.
    + intros mid x Hx. by rewrite lookup_empty in Hx.
  - by eapply (serve_keeps c w call s).
  - destruct (Mail.create_message_with_recipients tr env now m rs d) as [r d'] eqn:Hc. eapply create_store_ok; [exact IH|exact Hc|].
    split; [done|done|]. simpl. by rewrite Ht.
  - apply (run_op_store_ok tr (MailFacts.MarkReadBatch now agent ids)); [done|]. simpl.
    unfold Mail.mark_messages_read_batch. destruct ids as [|i ids]; [done|]. cbn [snd]. rewrite MailFacts.rebuild_kept.
    generalize (chunks (Z.to_nat ReservationDb.MAX_IN_CLAUSE_ITEMS) (i :: ids)) as cs. clear. intros cs. revert d.
    induction cs as [|x cs IH]; intros d; [done|]. apply (IH (Mail.mark_chunk tr now agent d x)).
  - apply (run_op_store_ok tr (MailFacts.MarkRead now agent mid)); [done|]. simpl.
    unfold Mail.mark_message_read. by destruct (Mail.recipients _ !! (mid, agent)); rewrite ?MailFacts.rebuild_kept.
  - apply (run_op_store_ok tr (MailFacts.Acknowledge now agent mid)); [done|]. simpl.
    unfold Mail.acknowledge_message. by destruct (Mail.recipients _ !! (mid, agent)); rewrite ?MailFacts.rebuild_kept.
Qed.

(** ** Sending *)

Lemma verified_sender_spec token a verified : Registration.verified_sender token a = Some verified →
  (verified = true ↔ ∃ t stored, token = Some t ∧ ReadCache.registration_token a = Some stored ∧ Registration.constant_time_str_eq t stored = true) ∧
  (∀ t stored, token = Some t → ReadCache.registration_token a = Some stored → verified = true).
Proof.
  unfold Registration.verified_sender. destruct token as [t|]; [|intros [= <-]; split; [split; [done|by intros (? & ? & ? & _)]|done]].
  destruct (ReadCache.registration_token a) as [stored|]; [|intros [= <-]; split; [split; [done|by intros (? & ? & _ & ? & _)]|done]].
  destruct (Registration.constant_time_str_eq t stored) eqn:E; [|done]. intros [= <-]. split; [|done]. split; [by eauto|done].
Qed.

Lemma processed_body fs ok limits base_dir subject body paths convert policy a final_body metas rels a' :
  Attachments.process_message_attachments image_refs fs ok limits base_dir subject body paths convert policy a = (inr (final_body, metas, rels), a') →
  if convert
  then Attachments.exceeds (Attachments.max_message_body_bytes limits) (Attachments.len final_body) = false ∧
       Attachments.exceeds (Attachments.max_total_message_bytes limits) (Attachments.total_after subject final_body metas) = false
  else final_body = body.
Proof.
  unfold Attachments.process_message_attachments. destruct convert; cbn [andb].
  - destruct (if _ || _ then _ else _) as [[e|[[b m] r]] a1]; [done|]. simpl. case_if; [done|]. case_if; [done|]. by intros [= <- <- <- <-].
  - destruct (negb _); [|by intros [= <- _ _ _]]. destruct ok; [|done].
    destruct (Attachments.store_raws _ _ _ _ _) as [[e|[m r]] a1]; [done|]. by intros [= <- _ _ _].
Qed.

(** C13: What sending a message does.  When it succeeds the sender is the agent
    of that name in the project; it counts as verified exactly when a token
    was given that is the stored one, and a wrong token never passes where one
    is stored; the disk was not full, there was no topic and no broadcast;
    subject, importance and thread are those asked for, after cutting and
    normalising, and the body is the one given, unless images were put into
    it, and within its limit; the gate let the message pass and the store took
    it, as [ContactGate.send_message] says; and signals go to the open
    recipients only. *)
Theorem send_message_spec c w k s sent md s' :
  send c w k s = (inr sent, md, s') →
  ∃ p sender draft, project w = Some p ∧
    (Registration.resolve_agent scope_fingerprint scope text (selected w) (project_id p) (normal_or_same (sender_name k)) (instant w)
       (agents w) (cache s)).1 = inr sender ∧
    (sender_verified sent = true ↔ ∃ t stored, sender_token k = Some t ∧ ReadCache.registration_token sender = Some stored ∧
       Registration.constant_time_str_eq t stored = true) ∧
    (∀ t stored, sender_token k = Some t → ReadCache.registration_token sender = Some stored → sender_verified sent = true) ∧
    disk_full c w = false ∧ normalized_topic_argument (topic k) = None ∧ default false (broadcast k) = false ∧
    Mail.draft_subject draft = take 200 (subject k) ∧ Mail.draft_thread draft = thread_argument (thread_id k) ∧
    Mail.draft_importance draft = from_option to_ascii_lowercase (lit "normal") (importance k) ∧
    Mail.draft_ack draft = default false (ack_required k) ∧
    (do_convert c sender (send_convert k) = false → Mail.draft_body draft = body_md k) ∧
    (0 < Attachments.max_message_body_bytes (limits c) → Attachments.len (Mail.draft_body draft) ≤ Attachments.max_message_body_bytes (limits c)) ∧
    ContactGate.send_message (resolve w) (contact c) (auto_contact_if_blocked k) (gate w) (triggers w) (after_commit w) (commit_now w)
      (sender_agent sender) (to_names k) (default [] (cc_names k)) (default [] (bcc_names k)) draft (links s)
      = (inl (sent_id sent, sent_row sent), md, links s') ∧
    (∀ n, n ∈ notified sent → n ∈ sent_to sent ++ sent_cc sent).
Proof.
  intros [(e & He & _)|(x & sender & verified & res & ld & final_body & metas & rels & a & Hx & Hsender & Hres & Hgate & Hatt & Hst & <- & <-)]%send_message_cases;
    [done|].
  destruct (send_checks_spec _ _ _ _ Hx) as (Hp & Hsubj & Hi & Hthread & _ & Hdisk & Htopic & Hsize).
  assert (∃ row, (Registration.resolve_agent scope_fingerprint scope text (selected w) (project_id (checked_project x)) (normal_or_same (sender_name k))
    (instant w) (agents w) (cache s)).1 = inr row ∧ Registration.verified_sender (sender_token k) row = Some verified ∧ row = sender) as (row & Hrow & Hver & ->).
  { unfold verified_sender in Hsender. destruct (Registration.resolve_agent _ _ _ _ _ _ _ _ _) as [[e|row] ch]; [done|]. simpl in Hsender.
    destruct (Registration.verified_sender (sender_token k) row) as [v|] eqn:Hv; [|done]. injection Hsender as -> ->. by exists sender. }
  destruct (verified_sender_spec _ _ _ Hver) as [Hverified Htoken].
  unfold send_recipients, broadcast_checks, mbind, result_bind in Hres.
  destruct (refuse (default false (broadcast k) && _) _) as [|[]]; [done|].
  destruct (refuse (default false (broadcast k)) _) as [|[]] eqn:Hb; [done|]. apply refuse_ok in Hb.
  destruct (refuse (negb _) _) as [|[]] eqn:Hany; [done|]. apply refuse_ok, negb_false_iff in Hany.
  unfold recipients_of in Hres. destruct (ContactGate.resolve_recipients _ _ _ _) as [res'|] eqn:Hrec; [|done]. injection Hres as ->.
  unfold store in Hst. set (draft := send_draft to_json k x sender final_body metas) in *.
  destruct (Mail.create_message_with_recipients _ _ _ _ _ _) as [[[mid row]|e] d] eqn:Hc; [|done]. injection Hst as <- <-.
  exists (checked_project x), sender, draft. simpl.
  split_and!; try done.
  - by rewrite Hsubj, truncate_subject_eq.
  - by apply importance_of_spec in Hi as [_ ?].
  - intros Hconv. pose proof (processed_body _ _ _ _ _ _ _ _ _ _ _ _ _ _ Hatt) as Hbody. by rewrite Hconv in Hbody.
  - intros Hpos. pose proof (processed_body _ _ _ _ _ _ _ _ _ _ _ _ _ _ Hatt) as Hbody.
    assert (Attachments.exceeds (Attachments.max_message_body_bytes (limits c)) (Attachments.len final_body) = false) as Hex.
    { destruct (do_convert c sender (send_convert k)); [by destruct Hbody|]. subst final_body.
      unfold Attachments.validate_message_size_limits in Hsize. case_ifs; [done|]. by case_ifs. }
    apply exceeds_false in Hex. lia.
  - unfold ContactGate.send_message. rewrite Hany, Hrec. fold (all_names res).
    change (Mail.draft_project draft) with (project_id (checked_project x)). change (Mail.draft_thread draft) with (checked_thread x).
    by rewrite Hgate, Hc.
  - intros n Hn. unfold signalled in Hn. revert Hn. generalize (ContactGate.resolved_to res ++ ContactGate.resolved_cc res), (@nil str).
    intros l. induction l as [|y l IH]; intros seen; simpl; [done|]. case_bool_decide; [intros ?%IH; by right|].
    intros [->|Hn]%elem_of_cons; [by left|right]. by eapply IH.
Qed.

(** ** Replying *)

(** A message whose key names the thread is in it. *)
Lemma root_in_thread pid mid m : 0 ≤ mid ≤ i64_max → Mail.project_id m = pid → Mail.in_thread pid (i64_to_string mid) mid m = true.
Proof.
  intros Hmid Hp. unfold Mail.in_thread. rewrite bool_decide_eq_true_2 by done. rewrite parse_i64_to_string by done.
  by rewrite bool_decide_eq_true_2.
Qed.

Lemma thread_in_thread pid t mid m : Mail.project_id m = pid → Mail.thread_id m = Some t → Mail.in_thread pid t mid m = true.
Proof.
  intros Hp Ht. unfold Mail.in_thread. rewrite bool_decide_eq_true_2 by done.
  cbn [andb]. destruct (parse_i64 t); [apply orb_true_iff; right|]; by apply bool_decide_eq_true_2.
Qed.

(** C15: What a reply does.  When it succeeds, the message answered is one of
    the project; the reply is in its thread, which is the same for every
    further reply, and the message answered is in that thread as well; the
    subject is the original one with the prefix, at most two hundred
    characters; and the importance and the wish for an acknowledgement are the
    original's unless overridden. *)
Theorem reply_joins_thread c w k s sent md s' :
  found w → message_id k ≤ i64_max → reply c w k s = (inr sent, md, s') →
  ∃ p original thread, project w = Some p ∧
    Mail.messages (checked_mail w) !! message_id k = Some original ∧ Mail.project_id original = project_id p ∧
    Mail.messages md !! sent_id sent = Some (sent_row sent) ∧ Mail.project_id (sent_row sent) = project_id p ∧
    thread = default (i64_to_string (message_id k)) (Mail.thread_id original) ∧ Mail.thread_id (sent_row sent) = Some thread ∧
    Mail.in_thread (project_id p) thread (message_id k) original = true ∧
    Mail.in_thread (project_id p) thread (sent_id sent) (sent_row sent) = true ∧
    reply_thread (sent_id sent) (sent_row sent) = thread ∧
    Mail.subject (sent_row sent) = reply_subject (prefix_of k) (Mail.subject original) ∧ (length (Mail.subject (sent_row sent)) ≤ 200)%nat ∧
    Mail.importance (sent_row sent) = from_option to_ascii_lowercase (Mail.importance original) (reply_importance k) ∧
    Mail.ack_required (sent_row sent) = Mail.b2z (default (negb (Mail.ack_required original =? 0)) (reply_ack_required k)).
Proof.
  intros (Hchecked & Hstore & Hsub) Hmax.
  intros [(e & He & _)|(p & original & author_name & sender & verified & res & ld & final_body & metas & rels & a & Hx & _ & _ & _ & _ & _ & _ & Hst & _)]%reply_message_cases;
    [done|].
  destruct (reply_checks_spec _ _ _ _ _ Hx) as (Hp & _ & _ & _ & Hm & Hproj).
  destruct (reply_thread_spec _ _ _ Hchecked Hm Hmax) as (Hv & _ & Heq).
  assert (0 < message_id k) as Hpos by (apply (store_key _ Hchecked); by eexists).
  unfold store in Hst. destruct (Mail.create_message_with_recipients _ _ _ _ _ _) as [[[mid row]|e] d] eqn:Hc; [|done]. injection Hst as <- <-.
  destruct (create_messages _ _ _ _ _ _ _ _ (store_wf _ Hstore) (store_exact _ Hstore) Hc) as (_ & _ & _ & _ & Hrow).
  destruct (Hrow _ eq_refl) as ([= -> ->] & Hmsgs & _). set (t := reply_thread (message_id k) original) in *.
  exists p, original, t. simpl. split_and!; try done.
  - rewrite Hmsgs. apply lookup_insert_eq.
  - destruct (Mail.thread_id original) as [u|] eqn:Hu; simpl in Heq; rewrite Heq; [by apply thread_in_thread|apply root_in_thread; [lia|done]].
  - by apply thread_in_thread.
  - unfold reply_thread at 1. simpl. fold t. by apply sanitize_valid_id.
  - apply truncate_length.
Qed.

Lemma store_failed w m res verified e md :
  store_ok (at_store w) → store w m res verified = (inl e, md) →
  (∃ e', e = DATABASE e') ∧
  (Mail.messages md = Mail.messages (at_store w) ∧ Mail.recipients md = Mail.recipients (at_store w) ∨
   Mail.cleanup_fails (after_commit w) ≠ None ∧ e = DATABASE MailFacts.cleanup_failed ∧
   ∃ rs mid row, MailFacts.delivered rs mid row (at_store w) md).
Proof.
  intros Hok. unfold store. destruct (Mail.create_message_with_recipients _ _ _ _ _ _) as [[[mid row]|e'] d] eqn:Hc; intros [= <- <-].
  split; [by eexists|]. apply MailFacts.send_failed in Hc as [?|(? & -> & _ & mid & ?)]; [by left| |apply (store_wf _ Hok)].
  right. split_and!; [done..|]. by eexists _, _, _.
Qed.

(** C16: What a call that fails leaves behind.  The messages and recipients are
    what the transaction found, for every refusal and every failed transaction,
    with one exception: when what was committed could not be seen and undoing
    it failed too, which the error says, the message is delivered.  And a
    message that is refused before its attachments are processed leaves the
    archive alone, and before the gate the contact links. *)
Theorem refused_call_stores_nothing c w call s e md s' :
  store_ok (at_store w) → serve c w call s = (inl e, md, s') →
  (Mail.messages md = Mail.messages (at_store w) ∧ Mail.recipients md = Mail.recipients (at_store w) ∨
   Mail.cleanup_fails (after_commit w) ≠ None ∧ e = DATABASE MailFacts.cleanup_failed ∧
   ∃ rs mid row, MailFacts.delivered rs mid row (at_store w) md) ∧
  match call, e with
  | Replying _, _ | Sending _, DATABASE _ | Sending _, ATTACHMENT _ => True
  | Sending _, CONTACT _ => archive s' = archive s
  | Sending _, _ => archive s' = archive s ∧ links s' = links s
  end.
Proof.
  intros Hok. destruct call as [k|k]; simpl.
  - intros [(e' & [= <-] & -> & Harch & Hlinks)|(x & sender & verified & res & ld & final_body & metas & rels & a & _ & _ & _ & _ & _ & Hst & _)]%send_message_cases.
    + split; [by left|]. destruct e; try (split; [by destruct Harch as [|[? ?]]|by destruct Hlinks as [|[[? ?]|[? ?]]]]); try done.
      by destruct Harch as [|[? ?]].
    + by destruct (store_failed _ _ _ _ _ _ Hok Hst) as [[e' ->] ?].
  - intros [(e' & [= <-] & ->)|(p & original & author_name & sender & verified & res & ld & final_body & metas & rels & a & _ & _ & _ & _ & _ & _ & _ & Hst & _)]%reply_message_cases;
      [by split; [left|]|]. by destruct (store_failed _ _ _ _ _ _ Hok Hst).
Qed.

(** ** Full disks *)

(** What is looked at before the disks. *)
Definition accepted_so_far (c : Config) (w : World) (call : Call) : Prop :=
  match call with
  | Sending k =>
      importance_of (importance k) ≠ None ∧ reject_unsupported_topic_argument (topic k) = false ∧
      Attachments.validate_message_size_limits (files w) (limits c) (truncate_subject (subject k)) (body_md k) None None = None
  | Replying k =>
      importance_accepted (reply_importance k) = true ∧ Attachments.validate_reply_body_limit (limits c) (reply_body k) = None
  end.

Lemma disk_full_stops c w call s :
  disk_full c w = true → ∃ e, serve c w call s = (inl e, at_store w, s) ∧ (accepted_so_far c w call → e = DISK_FULL).
Proof.
  intros Hd. destruct call as [k|k]; simpl; unfold send_message, reply_message, send_checks, reply_checks; rewrite Hd.
  - destruct (importance_of (importance k)); [|eexists; split; [done|naive_solver]]. cbn [mbind result_bind].
    destruct (reject_unsupported_topic_argument (topic k)); cbn [refuse mbind result_bind]; [eexists; split; [done|naive_solver]|].
    destruct (Attachments.validate_message_size_limits _ _ _ _ None None); cbn [size_checked mbind result_bind];
      eexists; (split; [done|naive_solver]).
  - destruct (importance_accepted _); cbn [negb refuse mbind result_bind]; [|eexists; split; [done|naive_solver]].
    destruct (Attachments.validate_reply_body_limit _ _); cbn [size_checked mbind result_bind]; eexists; (split; [done|naive_solver]).
Qed.

(** No other part of a call answers with this error. *)
Definition not_full {A} (r : Result A) : Prop := r ≠ inl DISK_FULL.

Lemma not_full_bind {A B} (r : Result A) (f : A → Result B) : not_full r → (∀ x, not_full (f x)) → not_full (r ≫= f).
Proof. intros Hr Hf. destruct r as [e|x]; [intros [= ->]; by apply Hr|apply Hf]. Qed.

Lemma not_full_refuse b e : e ≠ DISK_FULL → not_full (refuse b e).
Proof. unfold not_full, refuse. intros He. destruct b; congruence. Qed.

Lemma not_full_size e : not_full (size_checked e).
Proof. unfold not_full. by destruct e. Qed.

Lemma not_full_recipients w a b c : not_full (recipients_of w a b c).
Proof. unfold not_full, recipients_of. by destruct (ContactGate.resolve_recipients _ _ _ _). Qed.

Lemma not_full_send_recipients w k : not_full (send_recipients w k).
Proof.
  repeat first [apply not_full_recipients | apply not_full_refuse; done | apply not_full_bind; [|intros []]].
Qed.

Lemma not_full_reply_recipients c w k subject body author_name :
  not_full (_ ← reply_size_checks c subject body; reply_recipients w k author_name).
Proof.
  repeat first [apply not_full_recipients | apply not_full_refuse; done | apply not_full_bind; [|intros []]].
Qed.

Lemma not_full_sender w pid n t ch : not_full (sender_of w pid n t ch).1.
Proof. unfold not_full, verified_sender. by repeat case_match. Qed.

Lemma not_full_store w m res verified : not_full (store w m res verified).1.
Proof. unfold not_full, store. by repeat case_match. Qed.

Lemma not_full_thread w pid t : not_full (validate_explicit_thread_id_for_send w pid t).
Proof. unfold not_full, validate_explicit_thread_id_for_send, refuse. by repeat case_match. Qed.

Lemma not_full_original w pid mid : not_full (get_original w pid mid).
Proof. unfold not_full, get_original. by repeat case_match. Qed.

Lemma send_checks_full c w k : send_checks c w k = inl DISK_FULL → disk_full c w = true ∧ accepted_so_far c w (Sending k).
Proof.
  unfold send_checks, accepted_so_far. destruct (importance_of (importance k)) as [i|]; [|done]. cbn [mbind result_bind].
  destruct (reject_unsupported_topic_argument (topic k)); [done|].
  destruct (Attachments.validate_message_size_limits (files w) (limits c) (truncate_subject (subject k)) (body_md k) None None); [done|].
  cbn [refuse size_checked mbind result_bind]. destruct (disk_full c w); [done|]. intros Hf. exfalso. revert Hf. cbn [refuse].
  apply not_full_bind; [done|]. intros _.
  apply not_full_bind; [unfold not_full, found_project; by case_match|]. intros p.
  apply not_full_bind; [destruct (thread_argument (thread_id k)); [apply not_full_thread|done]|]. intros [].
  apply not_full_bind; [apply not_full_size|done].
Qed.

Lemma reply_checks_full c w k : reply_checks c w k = inl DISK_FULL → disk_full c w = true ∧ accepted_so_far c w (Replying k).
Proof.
  unfold reply_checks, accepted_so_far. destruct (importance_accepted (reply_importance k)); [|done].
  destruct (Attachments.validate_reply_body_limit (limits c) (reply_body k)); [done|].
  cbn [negb refuse size_checked mbind result_bind]. destruct (disk_full c w); [done|]. intros Hf. exfalso. revert Hf. cbn [refuse].
  apply not_full_bind; [done|]. intros _.
  apply not_full_bind; [unfold not_full, found_project; by case_match|]. intros p.
  apply not_full_bind; [apply not_full_original|done].
Qed.

Lemma send_full c w k s md s' : send c w k s = (inl DISK_FULL, md, s') → send_checks c w k = inl DISK_FULL.
Proof.
  unfold send_message. destruct (send_checks c w k) as [e|x]; [congruence|].
  pose proof (not_full_sender w (project_id (checked_project x)) (normal_or_same (sender_name k)) (sender_token k) (cache s)) as Hs.
  destruct (sender_of _ _ _ _ _) as [[e|[sender verified]] ch]; [intros [= ->]; by destruct Hs|].
  unfold send_from. pose proof (not_full_send_recipients w k) as Hr. destruct (send_recipients w k) as [e|res]; [intros [= ->]; by destruct Hr|].
  destruct (ContactGate.send_gate _ _ _ _ _ _ _ _ _) as [[e|] ld]; [done|].
  destruct (Attachments.process_message_attachments _ _ _ _ _ _ _ _ _ _ _) as [[e|[[final_body metas] rels]] a]; [done|].
  pose proof (not_full_store w (send_draft to_json k x sender final_body metas) res verified) as Hst.
  destruct (store _ _ _ _) as [r md1]. intros [= -> _ _]. by destruct Hst.
Qed.

Lemma reply_full c w k s md s' : reply c w k s = (inl DISK_FULL, md, s') → reply_checks c w k = inl DISK_FULL.
Proof.
  unfold reply_message. destruct (reply_checks c w k) as [e|[p original]]; [congruence|].
  pose proof (not_full_sender w (project_id p) (normal_or_same (reply_sender_name k)) (reply_token k) (cache s)) as Hs.
  destruct (sender_of _ _ _ _ _) as [[e|[sender verified]] ch]; [intros [= ->]; by destruct Hs|].
  destruct (author w (Mail.sender_id original)) as [author_name|e]; [|done]. unfold reply_from.
  destruct (Attachments.process_message_attachments _ _ _ _ _ _ _ _ _ _ _) as [[e|[[final_body metas] rels]] a]; [done|].
  pose proof (not_full_reply_recipients c w k (subject_of_reply k original) final_body author_name) as Hr.
  destruct (_ ≫= _) as [e|res]; [intros [= ->]; by destruct Hr|].
  destruct (ContactGate.reply_gate _ _ _ _ _ _ _ _) as [[e|] ld]; [done|].
  pose proof (not_full_store w (reply_draft to_json k p original sender final_body metas) res verified) as Hst.
  destruct (store _ _ _ _) as [r md1]. intros [= -> _ _]. by destruct Hst.
Qed.

Lemma disk_full_only c w call s md s' :
  serve c w call s = (inl DISK_FULL, md, s') → disk_full c w = true ∧ accepted_so_far c w call.
Proof.
  destruct call as [k|k]; simpl; [intros ?%send_full%send_checks_full|intros ?%reply_full%reply_checks_full]; done.
Qed.

(** C34: Messages are refused for want of space exactly when they should be.
    After a sample of the disks, and until the next one, a send or a reply that
    passes the checks before it is answered with the error for a full disk
    exactly when the monitor is on, a fatal threshold is set, and one of the
    disks that could be asked has less free space than it, the archive's and
    the database's alike; then no call gets past this check, and none stores
    anything or changes the archive, the links or the caches. *)
Theorem full_disk_refuses exists_ free now_us disks g c w call s :
  let sample := DiskPressure.sample_disk exists_ free disks in
  gauges w = (DiskPressure.sample_and_record exists_ free now_us disks g).2 →
  let full :=
    disk_space_monitor_enabled c = true ∧ 0 < DiskPressure.disk_space_fatal_mb disks ∧
    ∃ f, f ∈ option_list (DiskPressure.storage_free_bytes sample) ++ option_list (DiskPressure.db_free_bytes sample) ∧
      f < Z.min u64_max (DiskPressure.disk_space_fatal_mb disks * DiskPressure.MIB) in
  (full → ∃ e, serve c w call s = (inl e, at_store w, s)) ∧
  ((∃ md s', serve c w call s = (inl DISK_FULL, md, s')) ↔ full ∧ accepted_so_far c w call).
Proof.
  intros sample Hg full. assert (disk_full c w = true ↔ full) as Hfull.
  { unfold disk_full, full. rewrite Hg, andb_true_iff, bool_decide_eq_true.
    pose proof (fullest_disk_decides exists_ free now_us disks g) as [_ Hf]. rewrite Hf. done. }
  split; [|split].
  - rewrite <-Hfull. intros Hd. destruct (disk_full_stops c w call s Hd) as (e & He & _). by exists e.
  - intros (md & s' & [Hd Ha]%disk_full_only). by rewrite <-Hfull.
  - intros [Hd%Hfull Ha]. destruct (disk_full_stops c w call s Hd) as (e & He & Hf). rewrite Hf in He by done. by eexists _, _.
Qed.

(** ** Who may answer *)

(** The author of a message of a thread that is not too long is among the
    names of the thread. *)
Lemma author_in_thread f pid t md mid m n :
  ContactGate.thread_fails f = false → t ≠ [] → Mail.messages md !! mid = Some m → Mail.agent_names md !! Mail.sender_id m = Some n →
  Mail.in_thread pid t mid m = true → (length (Mail.thread_rows pid t md) ≤ 500)%nat →
  n ∈ ContactGate.thread_names f pid t md.
Proof.
  intros Hf Ht Hm Hn Hin Hlen. unfold ContactGate.thread_names. rewrite bool_decide_eq_false_2 by done.
  apply elem_of_union. left. apply elem_of_list_to_set, list_elem_of_fmap. exists (mid, m, n). split; [done|].
  destruct (MailFacts.thread_limit_is_suffix pid t 500 md) as (all & Hall & _ & Hmem & Hlim); [by vm_compute|].
  rewrite Hlim. unfold ContactGate.or_empty. rewrite Hf.
  assert (length all = length (Mail.thread_rows pid t md)) as Hl.
  { injection Hall as <-. by rewrite merge_sort_Permutation. }
  rewrite Hl. replace (length (Mail.thread_rows pid t md) - Z.to_nat 500)%nat with 0%nat by lia.
  by apply Hmem.
Qed.

(** Nobody blocks or is refused when everybody is allowed. *)
Lemma check_all_allowed dec m names :
  (∀ n a, n ∈ names → m !! to_lowercase n = Some a → dec a = Contacts.Allow) → ContactGate.check_policies dec m names [] = Some [].
Proof.
  intros Hall. apply ContactGateFacts.check_policies_spec. split; [intros n a Hn Ha; by rewrite (Hall n a Hn Ha)|].
  destruct (ContactGateFacts.refused dec m names) as [|x l] eqn:E; [done|]. exfalso.
  assert (x ∈ ContactGateFacts.refused dec m names) as Hx by (rewrite E; left).
  apply list_elem_of_omap in Hx as (n & Hn & Hb). destruct (m !! to_lowercase n) as [a|] eqn:Ha; [|done].
  simpl in Hb. by rewrite (Hall n a Hn Ha) in Hb.
Qed.

(** An open or automatic policy and a place in the thread are enough. *)
Lemma gate_open c auto recheck w pid sender t rs names ld :
  (∀ n a, n ∈ names → ContactGate.recipient_map rs !! to_lowercase n = Some a →
     ContactGate.effective_policy (ContactGate.contact_policy a) ∈ [lit "open"; lit "auto"] ∧
     ContactGate.name a ∈ ContactGate.thread_names (ContactGate.faults w) pid t (ContactGate.mail w)) →
  ContactGate.contact_gate c auto recheck w pid sender t rs names ld = (None, ld).
Proof.
  intros Hall. unfold ContactGate.contact_gate. destruct (ContactGate.contact_enforcement_enabled c); [|done]. cbv zeta.
  rewrite check_all_allowed; [done|]. intros n a Hn Ha. destruct (Hall n a Hn Ha) as [Hpol Hin].
  apply ContactGateFacts.decide_allow. unfold ContactGateFacts.permits.
  apply elem_of_cons in Hpol as [Hpol|Hpol%list_elem_of_singleton]; [by auto|]. right; right; left. split; [done|]. left.
  unfold ContactGate.auto_ok_names. apply elem_of_union. by left.
Qed.

(** Whoever answers a message reaches its author.  If the author takes mail
    from everybody or has the automatic policy, a reply that names no
    recipients passes the gate for every agent of the project, with no contact
    of any kind, no approved link and without ever having received a message,
    as long as the thread can be read and has at most five hundred messages:
    the thread whose members may write to each other is the thread the sender
    chose by a number. *)
Theorem reply_needs_no_contact c w k p original author_name a :
  found w → message_id k ≤ i64_max → reply_checks c w k = inr (p, original) →
  reply_to k = None → reply_cc k = None → reply_bcc k = None →
  resolve w (trim author_name) = ContactGate.Found a → ContactGate.name a = author_name →
  ContactGate.effective_policy (ContactGate.contact_policy a) ∈ [lit "open"; lit "auto"] →
  let md := ContactGate.mail (gate w) in let t := reply_thread (message_id k) original in
  Mail.messages md !! message_id k = Some original → Mail.agent_names md !! Mail.sender_id original = Some author_name →
  ContactGate.thread_fails (ContactGate.faults (gate w)) = false → (length (Mail.thread_rows (project_id p) t md) ≤ 500)%nat →
  ∃ res, reply_recipients w k author_name = inr res ∧ ContactGate.all_recipients (ContactGate.recipients res) = [(ContactGate.id a, lit "to")] ∧
    ∀ sender ld, ContactGate.reply_gate (contact c) (gate w) (project_id p) sender t (ContactGate.recipients res) (all_names res) ld = (None, ld).
Proof.
  intros (Hchecked & _) Hmax Hx Hto Hcc Hbcc Hres Hname Hpol md t Hm Hn Hf Hlen.
  destruct (reply_checks_spec _ _ _ _ _ Hx) as (_ & _ & _ & _ & Hmc & Hproj).
  destruct (reply_thread_spec _ _ _ Hchecked Hmc Hmax) as (Hv & _ & Heq). fold t in Hv, Heq.
  assert (0 < message_id k) as Hpos by (apply (store_key _ Hchecked); by eexists).
  unfold reply_recipients. rewrite Hto, Hcc, Hbcc. simpl.
  unfold recipients_of, ContactGate.resolve_recipients. simpl. rewrite Hres. rewrite lookup_empty.
  eexists. split; [done|]. simpl. split; [done|]. intros sender ld. apply gate_open. simpl. intros n b Hnb Hb.
  unfold all_names in Hnb. simpl in Hnb. apply list_elem_of_singleton in Hnb as ->. rewrite lookup_insert_eq in Hb. injection Hb as <-.
  split; [done|]. rewrite Hname. eapply author_in_thread; [done| |exact Hm|done| |done].
  - intros Ht. by rewrite Ht in Hv.
  - destruct (Mail.thread_id original) as [u|] eqn:Hu; simpl in Heq; rewrite Heq; [by apply thread_in_thread|by apply root_in_thread; [lia|]].
Qed.

(** ** Reading *)

(** The row of a recipient, once its message was fetched. *)
Definition marked (d : Mail.Db) (mid : Z) (r : Mail.MessageRecipientRow) : Prop :=
  Mail.read_ts r ≠ None ∧ (Mail.ack_required <$> Mail.messages d !! mid = Some 1 → Mail.ack_ts r ≠ None).

Lemma mark_chunk_row tr now agent d chunk mid r :
  Mail.recipients d !! (mid, agent) = Some r →
  ∃ r', Mail.recipients (Mail.mark_chunk tr now agent d chunk) !! (mid, agent) = Some r' ∧
    Mail.messages (Mail.mark_chunk tr now agent d chunk) = Mail.messages d ∧ (mid ∈ chunk ∨ marked d mid r → marked d mid r').
Proof.
  intros Hr. unfold Mail.mark_chunk. rewrite MailFacts.update_rows_lookup, Hr. simpl. eexists. split; [done|]. split; [done|].
  case_bool_decide as Hin; [|intros [?|?]; [destruct Hin; done|done]].
  intros _. unfold marked, Mail.mark_read. simpl. split; [done|]. intros ->. by destruct (Mail.ack_ts r).
Qed.

Lemma mark_batch_row tr now agent cs d mid r :
  Mail.recipients d !! (mid, agent) = Some r → (∃ chunk, chunk ∈ cs ∧ mid ∈ chunk) ∨ marked d mid r →
  ∃ r', Mail.recipients (foldl (Mail.mark_chunk tr now agent) d cs) !! (mid, agent) = Some r' ∧ marked d mid r'.
Proof.
  revert d r. induction cs as [|chunk cs IH]; intros d r Hr Hm; simpl.
  - exists r. split; [done|]. destruct Hm as [(chunk & ?%elem_of_nil & _)|]; done.
  - destruct (mark_chunk_row tr now agent d chunk mid r Hr) as (r1 & Hr1 & Hmsg & Hmarked).
    assert (∀ x, marked (Mail.mark_chunk tr now agent d chunk) mid x ↔ marked d mid x) as Hsame by (intros x; unfold marked; by rewrite Hmsg).
    destruct (IH _ _ Hr1) as (r2 & Hr2 & ?); [|exists r2; by rewrite <-Hsame].
    rewrite Hsame. destruct Hm as [(ch & [->|Hch]%elem_of_cons & Hin)|]; [right; auto|left; by exists ch|right; auto].
Qed.

Lemma mark_fetched tr now agent ids d mid r :
  Mail.recipients d !! (mid, agent) = Some r → mid ∈ ids →
  ∃ r', Mail.recipients (Mail.mark_messages_read_batch_sync tr now agent ids d) !! (mid, agent) = Some r' ∧ marked d mid r'.
Proof.
  intros Hr Hin. rewrite MailFacts.mark_batch_sync. assert (mid ∈ dedup (merge_sort Z.le ids)) as Hin'.
  { by rewrite elem_of_dedup, merge_sort_Permutation. }
  clear Hin. revert Hin'. generalize (dedup (merge_sort Z.le ids)) as l. clear ids. intros ids Hin.
  unfold Mail.mark_messages_read_batch. destruct ids as [|i ids]; [by apply elem_of_nil in Hin|]. cbn [snd].
  match goal with |- context [Mail.rebuild_agents_inbox_stats_in_tx ?l ?x] => destruct (MailFacts.rebuild_tables l x) as (_ & -> & _) end.
  eapply mark_batch_row; [done|]. left. by apply chunks_elem; [apply MailFacts.limit_pos|].
Qed.

(** C17: To fetch an inbox is to read and to acknowledge it.  What is returned
    are deliveries to the agent in the project, between one and a thousand at
    most as asked for; hidden recipients are shown to the author of a message
    only; and afterwards, if the live database could be written, each of them
    that is delivered there is read, and acknowledged if an acknowledgement
    was asked for; otherwise the database is left alone. *)
Theorem fetch_inbox_reads w agent_name k live c messages live' c' :
  fetch_inbox scope_fingerprint scope text w agent_name k live c = (inr messages, live', c') →
  ∃ p agent n, read_project w = Some p ∧
    (Registration.resolve_agent scope_fingerprint scope text (read_selected w) (project_id p) (normal_or_same agent_name) (read_instant w)
       (read_agents w) c).1 = inr agent ∧
    n = Z.min 1000 (default 20 (limit k)) ∧ 1 ≤ n ∧ Z.of_nat (length messages) ≤ n ∧
    (∀ m, m ∈ messages → ∃ row, MailFacts.in_inbox (project_id p) (sender_id agent) (inbox w) row ∧
       m = inbox_message (sender_id agent) (default false (include_bodies k)) row) ∧
    (∀ m, m ∈ messages → inbox_bcc m ≠ [] → Mail.sender_id (inbox_row m) = sender_id agent) ∧
    if live_pool w && bool_decide (mark_error w = None)
    then ∀ m r, m ∈ messages → Mail.recipients live !! (inbox_id m, sender_id agent) = Some r →
           ∃ r', Mail.recipients live' !! (inbox_id m, sender_id agent) = Some r' ∧ marked live (inbox_id m) r'
    else live' = live.
Proof.
  unfold fetch_inbox, found_agent, mbind, result_bind, msg_limit.
  destruct (Z.ltb_spec (default 20 (limit k)) 1) as [|Hlim]; [done|]. destruct (refuse _ _) as [|[]]; [done|].
  destruct (read_project w) as [p|]; [|done].
  destruct (Registration.resolve_agent _ _ _ _ _ _ _ _ _) as [[e|agent] c1] eqn:Hagent; [done|].
  destruct (fetch_rows w k _ _ _) as [e|rows] eqn:Hrows; [done|].
  set (msgs := inbox_message _ _ <$> rows). intros Hdone.
  assert (messages = msgs) as -> by (destruct (live_pool w && _); by injection Hdone as <- _ _).
  assert (∃ since, Mail.fetch_inbox (project_id p) (sender_id agent) (default false (urgent_only k)) since (Z.min 1000 (default 20 (limit k))) (inbox w) = Ok rows) as [since Hf].
  { unfold fetch_rows, mbind, result_bind in Hrows.
    destruct (match since_ts k with Some _ => _ | None => _ end) as [e|since]; [done|]. exists since.
    destruct (inbox_error w); [done|]. destruct (Mail.fetch_inbox _ _ _ _ _ _); [by injection Hrows as <-|done]. }
  pose proof (MailFacts.fetch_inbox_rows_spec (project_id p) (sender_id agent) (default false (urgent_only k)) false false since
    (Z.min 1000 (default 20 (limit k))) (inbox w) ltac:(lia)) as Hspec.
  unfold Mail.fetch_inbox in Hf. rewrite Hf in Hspec. destruct Hspec as (_ & _ & _ & Hlen & Hin & _).
  exists p, agent, (Z.min 1000 (default 20 (limit k))). split_and!; [done|by rewrite Hagent|done|lia| | | |].
  - unfold msgs. by rewrite length_fmap.
  - intros m (row & -> & Hrow)%list_elem_of_fmap. exists row. split; [by apply Hin in Hrow as [? _]|done].
  - intros m (row & -> & Hrow)%list_elem_of_fmap. simpl.
    destruct (decide (Mail.sender_id (Mail.message row) = sender_id agent)) as [|Hne]; [done|]. rewrite (bool_decide_eq_false_2 _ Hne). by intros [].
  - destruct (live_pool w && _); [|by injection Hdone as <- _]. injection Hdone as <- _. intros m r Hm Hr.
    eapply mark_fetched; [exact Hr|]. apply list_elem_of_fmap. by exists m.
Qed.
End facts.

(** ** The tools at work *)

Module MessageRuns.

#[local] Existing Instance RefGlob.ref_globset.
#[local] Existing Instance ReservationRuns.plain_decode.

(** Three agents of the project [/app], of whom the first has a token. *)
Definition row (i : Z) (nm : str) : ReadCache.AgentRow := Registration.new_row i 1 (RegistrationRuns.profile nm) 7.

Definition three_agents : Registration.Db :=
  {| Registration.agents := [Registration.set_token 1 RegistrationRuns.old_token (row 1 (lit "BlueLake")); row 2 (lit "RedPeak"); row 3 (lit "GreenDog")];
     Registration.next_id := 4 |}.

Definition no_pressure : DiskPressure.Gauges :=
  {| DiskPressure.disk_storage_free_bytes := 0; DiskPressure.disk_db_free_bytes := 0; DiskPressure.disk_effective_free_bytes := 0;
     DiskPressure.disk_pressure_level := 0; DiskPressure.disk_last_sample_us := 0; DiskPressure.disk_sample_errors_total := 0 |}.

Definition app : Project := {| project_id := 1; human_key := lit "/app" |}.

Definition config : Config :=
  {| contact := GateRuns.config; limits := default_limits; disk_space_monitor_enabled := true; convert_images := false |}.

(** A quiet world with the messages [md]. *)
Definition gate_of (md : Mail.Db) : ContactGate.World :=
  {| ContactGate.mail := md; ContactGate.mail_at_store := md; ContactGate.reservations := ContactGate.reservations GateRuns.world;
     ContactGate.reservations_now := 1000; ContactGate.since_now := 1000; ContactGate.approved_clock := λ _, 1000;
     ContactGate.handshake_clock := λ _, (1010, 1020); ContactGate.handshake_works := λ _, false;
     ContactGate.approved_again_clock := λ _, 1030; ContactGate.faults := ContactGate.no_faults |}.

Definition world (md : Mail.Db) : World :=
  {| project := Some app; agents := three_agents; selected := Done (); instant := 0; resolve := GateRuns.resolve; gauges := no_pressure;
     checked_mail := md; query_error := None; author := λ i, if bool_decide (i = 1) then Ok (lit "BlueLake") else Ok (lit "GreenDog");
     gate := gate_of md; triggers := MailRuns.no_triggers; after_commit := MailRuns.honest; commit_now := 2000;
     files := one_image; archive_ok := true |}.

Definition first_call : SendCall :=
  {| sender_name := lit "bluelake"; to := [lit "greendog"]; subject := lit "plan"; body_md := lit "text"; cc := None; bcc := Some [lit "BlueLake"];
     attachment_paths := None; send_convert := None; importance := Some (lit "HIGH"); ack_required := Some true; thread_id := None; topic := Some (lit " ");
     broadcast := None; auto_contact_if_blocked := None; sender_token := Some RegistrationRuns.old_token |}.

Definition answer (who : str) (paths to_ : option (list str)) : ReplyCall :=
  {| message_id := 1; reply_sender_name := who; reply_body := lit "no"; reply_to := to_; reply_cc := None; reply_bcc := None;
     subject_prefix := None; reply_importance := None; reply_ack_required := None; reply_attachment_paths := paths; reply_convert := None;
     reply_token := None |}.

Abbreviation send := (send_message RegistrationRuns.fingerprint RegistrationRuns.scope RegistrationRuns.text (λ _, []) (λ _, lit "[]")).
Abbreviation reply := (reply_message RegistrationRuns.fingerprint RegistrationRuns.scope RegistrationRuns.text (λ _, []) (λ _, lit "[]")).

Definition start (c : ReadCache.ReadCache) : State := {| links := GateRuns.links; archive := no_archive; cache := c |}.

(** The first message, and the messages after it. *)
Definition first (c : ReadCache.ReadCache) : Result Sent * Mail.Db * State := send config (world (Mail.empty_db MailRuns.names)) first_call (start c).

Definition first_message : Mail.MessageRow :=
  {| Mail.project_id := 1; Mail.sender_id := 1; Mail.thread_id := None; Mail.subject := lit "plan"; Mail.body_md := lit "text";
     Mail.importance := lit "high"; Mail.ack_required := 1; Mail.created_ts := 2000;
     Mail.recipients_json := Some {| Mail.json_to := [lit "GreenDog"]; Mail.json_cc := []; Mail.json_bcc := [lit "BlueLake"] |};
     Mail.attachments := lit "[]" |}.

Definition after_first : Mail.Db :=
  (Mail.create_message_with_recipients MailRuns.no_triggers MailRuns.honest 2000
     {| Mail.draft_project := 1; Mail.draft_sender := 1; Mail.draft_subject := lit "plan"; Mail.draft_body := lit "text"; Mail.draft_thread := None;
        Mail.draft_importance := lit "high"; Mail.draft_ack := true; Mail.draft_attachments := lit "[]" |}
     [(3, lit "to"); (1, lit "bcc")] (Mail.empty_db MailRuns.names)).2.

Definition first_sent : Sent :=
  {| sent_id := 1; sent_row := first_message; sent_to := [lit "GreenDog"]; sent_cc := []; sent_bcc := [lit "BlueLake"];
     notified := [lit "GreenDog"]; sender_verified := true |}.

Lemma first_runs : (λ c, (first c).1) <$> ReadCache.read_cache = Some (inr first_sent, after_first).
Proof. vm_compute. reflexivity. Qed.

(** What a reply to the first message comes to: the answer, the key that the
    store gave last, and the files in the archive. *)
Definition answered (k : ReplyCall) : option (Result (Z * str * option str) * Z * list str) :=
  c ← ReadCache.read_cache;
  let '(r, md, s) := reply config (world after_first) k (start c) in
  Some (match r with inl e => inl e | inr sent => inr (sent_id sent, Mail.subject (sent_row sent), Mail.thread_id (sent_row sent)) end,
        Mail.message_sequence md, elements (Attachments.raw_files (archive s))).

Definition stored_file : str := lit "attachments/files/c0/c0ffee.png".

(** Replies escape the limits on attachments.  With the limits the program
    ships with, ten mebibytes for an attachment and twenty for a message, an
    attachment of forty is refused when it is sent, and a reply with the same
    one is stored; and a reply that is refused, here for a recipient that is
    not registered, has left its attachment in the archive all the same. *)
Theorem reply_escapes_attachment_limits :
  (Attachments.max_attachment_bytes default_limits, Attachments.max_total_message_bytes default_limits) = (10 * 1024 * 1024, 20 * 1024 * 1024) ∧
  Attachments.read_len one_image image_path = Some (40 * 1024 * 1024) ∧
  (λ c, (send config (world after_first) {| sender_name := lit "RedPeak"; to := [lit "GreenDog"]; subject := lit "plan"; body_md := lit "text";
           cc := None; bcc := None; attachment_paths := Some [lit "a.png"]; send_convert := None; importance := None; ack_required := None;
           thread_id := None; topic := None; broadcast := None; auto_contact_if_blocked := None; sender_token := None |} (start c)).1.1) <$> ReadCache.read_cache
    = Some (inl (TOO_LARGE (Attachments.AttachmentTooLarge (lit "a.png")))) ∧
  answered (answer (lit "RedPeak") (Some [lit "a.png"]) None) = Some (inr (2, lit "Re: plan", Some (lit "1")), 2, [stored_file]) ∧
  answered (answer (lit "RedPeak") (Some [lit "a.png"]) (Some [lit "nobody"]))
    = Some (inl (RECIPIENTS (ContactGate.RecipientNotFound [lit "nobody"])), 1, [stored_file]).
Proof. split_and!; vm_compute; reflexivity. Qed.

(** *** Witnesses *)

Lemma first_ok c : ReadCache.read_cache = Some c → ∃ s', first c = (inr first_sent, after_first, s').
Proof.
  intros Hc. pose proof first_runs as H. rewrite Hc in H. cbn [fmap option_fmap option_map] in H.
  destruct (first c) as [x s']. cbn [fst] in H. exists s'. congruence.
Qed.

Lemma empty_store : store_ok (Mail.empty_db MailRuns.names).
Proof.
  split; [apply MailFacts.empty_wf|apply MailFacts.empty_exact|done|..]; simpl.
  - intros mid [x Hx]. by rewrite lookup_empty in Hx.
  - intros mid x Hx. by rewrite lookup_empty in Hx.
Qed.

Lemma first_store : store_ok after_first.
Proof.
  unfold after_first. destruct (Mail.create_message_with_recipients _ _ _ _ _ _) as [r d] eqn:Hc.
  refine (proj1 (create_store_ok _ _ _ _ _ _ _ _ empty_store Hc _)). split; [vm_compute; lia|by apply (bool_decide_unpack _)|done].
Qed.

Lemma first_found : found (world after_first).
Proof. split; [apply first_store|]. split; [apply first_store|done]. Qed.

Lemma red_replies : ∃ c sent md s',
  ReadCache.read_cache = Some c ∧ reply config (world after_first) (answer (lit "RedPeak") None None) (start c) = (inr sent, md, s') ∧ sent_id sent = 2.
Proof.
  destruct RegistrationRuns.some_cache as [c Hc].
  assert (answered (answer (lit "RedPeak") None None) = Some (inr (2, lit "Re: plan", Some (lit "1")), 2, [])) as Ha by (vm_compute; reflexivity).
  unfold answered in Ha. rewrite Hc in Ha. cbn [mbind option_bind] in Ha.
  destruct (reply config (world after_first) _ _) as [[[e|sent] md] s'] eqn:Hr; [congruence|]. exists c, sent, md, s'. split_and!; [done|exact Hr|congruence].
Qed.

Example numeric_threads_are_seeded_witness :
  (length (Mail.subject first_message) ≤ 200)%nat ∧ Mail.importance first_message ∈ IMPORTANCES.
Proof.
  destruct RegistrationRuns.some_cache as [c Hc]. destruct (first_ok c Hc) as [s' Hfirst].
  assert (run RegistrationRuns.fingerprint RegistrationRuns.scope RegistrationRuns.text (λ _, []) (λ _, lit "[]") config MailRuns.names after_first) as Hrun.
  { assert (serve RegistrationRuns.fingerprint RegistrationRuns.scope RegistrationRuns.text (λ _, []) (λ _, lit "[]") config
      (world (Mail.empty_db MailRuns.names)) (Sending first_call) (start c) = (inr first_sent, after_first, s')) as Hserve by exact Hfirst.
    clear Hfirst. refine (run_serve _ _ _ _ _ _ _ _ _ _ _ _ _ _ _ _ _ Hserve); [apply run_start|apply run_start|done|done]. }
  destruct (numeric_threads_are_seeded _ _ _ _ _ _ _ _ Hrun 1 first_message) as (Hs & Hi & _); [vm_compute; reflexivity|by split].
Defined.

Example send_message_spec_witness :
  ∃ c s', ReadCache.read_cache = Some c ∧ first c = (inr first_sent, after_first, s') ∧
    (∃ sender, Registration.constant_time_str_eq RegistrationRuns.old_token sender = true) ∧
    ∀ n, n ∈ [lit "GreenDog"] → n ∈ [lit "GreenDog"] ++ [].
Proof.
  destruct RegistrationRuns.some_cache as [c Hc]. destruct (first_ok c Hc) as [s' Hfirst]. exists c, s'. split; [done|]. split; [done|].
  assert (send config (world (Mail.empty_db MailRuns.names)) first_call (start c) = (inr first_sent, after_first, s')) as Hsend by exact Hfirst.
  clear Hfirst. destruct (send_message_spec _ _ _ _ _ _ _ _ _ _ _ _ Hsend)
    as (p & sender & draft & _ & _ & Hver & _ & _ & _ & _ & _ & _ & _ & _ & _ & _ & _ & Hn). split; [|exact Hn].
  destruct (proj1 Hver eq_refl) as (t & stored & Ht & _ & He). injection Ht as <-. by exists stored.
Defined.

Example reply_joins_thread_witness :
  ∃ sent, sent_id sent = 2 ∧ Mail.thread_id (sent_row sent) = Some (lit "1") ∧ reply_thread 2 (sent_row sent) = lit "1".
Proof.
  destruct red_replies as (c & sent & md & s' & _ & Hr & Hid). exists sent. split; [done|].
  destruct (reply_joins_thread _ _ _ _ _ config (world after_first) (answer (lit "RedPeak") None None) (start c) sent md s' first_found ltac:(vm_compute; discriminate) Hr)
    as (p & original & t & _ & Hm & _ & _ & _ & Ht & Hrow & _ & _ & Hnext & _).
  assert (original = first_message) as -> by (vm_compute in Hm; injection Hm as <-; reflexivity).
  assert (t = lit "1") as -> by (rewrite Ht; reflexivity). split; [done|]. by rewrite <-Hid.
Defined.

Example refused_call_stores_nothing_witness :
  ∃ c md s', ReadCache.read_cache = Some c ∧
    reply config (world after_first) (answer (lit "RedPeak") None (Some [lit "nobody"])) (start c)
      = (inl (RECIPIENTS (ContactGate.RecipientNotFound [lit "nobody"])), md, s') ∧ Mail.messages md = Mail.messages after_first.
Proof.
  destruct RegistrationRuns.some_cache as [c Hc].
  assert (answered (answer (lit "RedPeak") None (Some [lit "nobody"])) = Some (inl (RECIPIENTS (ContactGate.RecipientNotFound [lit "nobody"])), 1, [])) as Ha
    by (vm_compute; reflexivity).
  unfold answered in Ha. rewrite Hc in Ha. cbn [mbind option_bind] in Ha.
  destruct (reply config (world after_first) _ _) as [[[e|sent] md] s'] eqn:Hr; [|congruence]. exists c, md, s'. split; [done|].
  assert (e = RECIPIENTS (ContactGate.RecipientNotFound [lit "nobody"])) as -> by congruence. split; [done|].
  destruct (refused_call_stores_nothing _ _ _ _ _ config (world after_first) (Replying (answer (lit "RedPeak") None (Some [lit "nobody"]))) (start c)
    _ md s' first_store Hr) as [[[Hm _]|(_ & He & _)] _]; [exact Hm|discriminate He].
Defined.

(** The disk of the archive has three mebibytes left where four are asked for;
    that of the database has plenty. *)
Definition disks : DiskPressure.Config :=
  {| DiskPressure.storage_root := lit "/mail"; DiskPressure.database_url := lit "sqlite:////db/mail.db"; DiskPressure.disk_space_warning_mb := 100;
     DiskPressure.disk_space_critical_mb := 50; DiskPressure.disk_space_fatal_mb := 4 |}.
Definition free_space (p : DiskPressure.Path) : option Z :=
  if bool_decide (p = DiskPressure.path_of (lit "/mail")) then Some (3 * 1024 * 1024) else Some (900 * 1024 * 1024).
Definition full_world : World :=
  let w := world after_first in
  {| project := project w; agents := agents w; selected := selected w; instant := instant w; resolve := resolve w;
     gauges := (DiskPressure.sample_and_record (λ _, true) free_space 1000 disks no_pressure).2;
     checked_mail := checked_mail w; query_error := query_error w; author := author w; gate := gate w; triggers := triggers w;
     after_commit := after_commit w; commit_now := commit_now w; files := files w; archive_ok := archive_ok w |}.

Example full_disk_refuses_witness :
  ∃ c md s', ReadCache.read_cache = Some c ∧ send config full_world first_call (start c) = (inl DISK_FULL, md, s').
Proof.
  destruct RegistrationRuns.some_cache as [c Hc]. exists c.
  assert (∃ md s', send config full_world first_call (start c) = (inl DISK_FULL, md, s')) as (md & s' & H); [|by exists md, s'].
  apply (full_disk_refuses RegistrationRuns.fingerprint RegistrationRuns.scope RegistrationRuns.text (λ _, []) (λ _, lit "[]")
    (λ _, true) free_space 1000 disks no_pressure config full_world (Sending first_call) (start c) eq_refl).
  clear Hc. split; [|split_and!; vm_compute; [discriminate|reflexivity|reflexivity]].
  split; [reflexivity|]. split; [reflexivity|]. exists (3 * 1024 * 1024). split; [|vm_compute; reflexivity].
  apply elem_of_app. left. vm_compute. apply list_elem_of_here.
Defined.

Example reply_needs_no_contact_witness :
  ∃ res, reply_recipients (world after_first) (answer (lit "RedPeak") None None) (lit "BlueLake") = inr res ∧
    ContactGate.reply_gate GateRuns.config (gate_of after_first) 1 GateRuns.red (lit "1") (ContactGate.recipients res) (all_names res) GateRuns.links = (None, GateRuns.links).
Proof.
  destruct (reply_needs_no_contact config (world after_first) (answer (lit "RedPeak") None None) app first_message (lit "BlueLake") GateRuns.blue first_found)
    as (res & Hres & _ & Hgate); try reflexivity.
  - vm_compute. discriminate.
  - by apply (bool_decide_unpack _).
  - vm_compute. lia.
  - exists res. split; [done|]. apply Hgate.
Defined.
(** GreenDog, whose clock stands at 3000, looks into the inbox. *)
Definition reading : ReadWorld :=
  {| read_project := Some app; read_agents := three_agents; read_selected := Done (); read_instant := 0; inbox := after_first; inbox_error := None;
     iso_to_micros := λ _, None; live_pool := true; mark_error := None; read_triggers := MailRuns.no_triggers; read_now := 3000 |}.

Definition look : FetchCall := {| urgent_only := None; since_ts := None; limit := None; include_bodies := None; fetch_topic := None |}.

Abbreviation fetch := (fetch_inbox RegistrationRuns.fingerprint RegistrationRuns.scope RegistrationRuns.text reading (lit "greendog") look).

Definition fetched (c : ReadCache.ReadCache) : option (list (Z * str * list str) * option (option Z * option Z)) :=
  match (fetch after_first c).1 with
  | (inl _, _) => None
  | (inr ms, live) => Some ((λ m, (inbox_id m, from m, inbox_bcc m)) <$> ms,
                            (λ r, (Mail.read_ts r, Mail.ack_ts r)) <$> Mail.recipients live !! (1, 3))
  end.

Example fetch_inbox_reads_witness :
  ReadCache.read_cache ≫= fetched = Some ([(1, lit "BlueLake", [])], Some (Some 3000, Some 3000)) ∧
  ∃ c ms live c', ReadCache.read_cache = Some c ∧ fetch after_first c = (inr ms, live, c') ∧ Z.of_nat (length ms) ≤ 20.
Proof.
  assert (ReadCache.read_cache ≫= fetched = Some ([(1, lit "BlueLake", [])], Some (Some 3000, Some 3000))) as Hrun by (vm_compute; reflexivity).
  split; [exact Hrun|]. destruct RegistrationRuns.some_cache as [c Hc]. rewrite Hc in Hrun. cbn [mbind option_bind] in Hrun. unfold fetched in Hrun.
  destruct (fetch after_first c) as [[[e|ms] live] c'] eqn:Hf; [discriminate Hrun|]. clear Hrun. exists c, ms, live, c'. split; [done|]. split; [exact Hf|].
  destruct (fetch_inbox_reads _ _ _ _ _ _ _ _ _ _ _ Hf) as (p & agent & n & _ & _ & -> & _ & Hlen & _). exact Hlen.
Defined.

(** An agent that registers between the look and the registration of an
    unknown recipient: what it said it runs is overwritten with [unknown].  No
    unique constraint is violated, because registering updates first, so the
    branch for the race is not taken. *)
Definition registers_between (d : Registration.Db) : Registration.Db :=
  {| Registration.agents := Registration.agents d ++ [row 4 (lit "RedFox")]; Registration.next_id := 5 |}.

Definition said (d : Registration.Db) : list (str * str) :=
  (λ a, (ReadCache.program a, ReadCache.model a)) <$> filter (λ a, ReadCache.name a = lit "RedFox") (Registration.agents d).

Definition auto_registered (between : Registration.Db → Registration.Db) : option (option Z * list (str * str)) :=
  c ← ReadCache.read_cache;
  let '(r, d, _) := resolve_or_register_agent RegistrationRuns.fingerprint RegistrationRuns.scope RegistrationRuns.text (RegistrationFacts.calm 9 9) (Done ())
                      (Done ()) true 1 (lit "redfox") 0 1 between three_agents c in
  Some (match r with Done a => ReadCache.id a | _ => None end, said d).

Example race_overwrites_profile :
  said (registers_between three_agents) = [(lit "codex-cli", lit "m1")] ∧
  auto_registered registers_between = Some (Some 4, [(lit "unknown", lit "unknown")]) ∧
  auto_registered (λ d, d) = Some (Some 4, [(lit "unknown", lit "unknown")]).
Proof. split_and!; vm_compute; reflexivity. Qed.
End MessageRuns.
